(* ===== verification/_CoqProject ===== *)
-Q . S2P
Prelude.v
StdString.v
Names.v
KernArgs.v
Message.v
BankConflicts.v
CacheLines.v
MemoryAnalysis.v
Json.v
Doubles.v
MemoryReport.v
MessageLogger.v
BasicBlock.v
BasicBlockReport.v
BlockText.v
ReportLogs.v
Heatmap.v
TimeInterval.v
CoCache.v
Dispatch.v
Comms.v
LibraryFilter.v
InstrScope.v
InstrPasses.v
BitcodeLink.v
ConfigReceiver.v
PyHandler.v
HostHelpers.v
Interceptor.v
PacketText.v
Registration.v
Sections.v
Calls.v
CacheWatcher.v
Bookkeeping.v
ExitPath.v
PacketRewrite.v
CacheState.v
Lifecycle.v
