(* ===== verification/Prelude.v ===== *)
(** * Omniprobe: a verification development

    Omniprobe instruments GPU kernels.  A compiler pass clones each kernel of a
    module, gives the clone one more pointer argument and inserts calls that send
    messages to it; at run time a library inside the application intercepts the
    packets submitted to the GPU's queues, replaces a kernel by its clone with
    arguments it builds, collects the messages and reports what they say.  This
    development models both sides, from [src/src], [src/inc] and [src/plugins].

    ** Parts, files and how they interact

    - [Prelude]: results with faults ([FAbort] for [assert] and [abort], [FExit],
      [FThrow] for exceptions, [FUB] for undefined behaviour, [FDiverge] for a loop
      without end), machine integers with [wrap], ordered iteration over maps.
      [StdString]: the members of [std::string] and the number formatting and
      parsing the code uses.
    - [Names] ([utils.cc]): [getInstrumentedName], the name the library looks a
      clone up under, [split], [trim]; with the pass's own name for a clone.
    - [InstrScope] ([InstrumentationCommon.cpp]): the language of the
      instrumentation scope, [parseDefinitions] and [matches].  [InstrPasses]
      ([AMDGCNSubmitAddressMessages.cpp], [AMDGCNSubmitBBStart.cpp],
      [AMDGCNSubmitBBInterval.cpp], [InstrumentationCommon.cpp]): the three passes.
      The IR is what the passes look at; what they insert is the calls they make on
      LLVM's builder; LLVM itself is a parameter.  The address pass asks
      [InstrScope.matches]; the clones' names meet [Names.getInstrumentedName].
    - [BitcodeLink] ([instrumentation/include/utils.h]): names read out of mangled
      symbols, the undefined symbols of a module, and linking a set of modules from
      an entry function on.
    - [KernArgs] ([KernelArgHelper] in [utils.cc], [fixupKernArgs] in
      [interceptor.cc]): argument layouts read from code-object metadata, and the
      argument segment of a clone.
    - [CoCache] ([coCache] in [utils.cc]): the tables of kernels, symbols, layouts
      and alternatives; uses [Names], [KernArgs].  The HSA loader and the metadata
      reader are type classes ([HsaLoader], [Comgr]).
    - [LibraryFilter] ([library_filter.cc]): the filter's JSON, globs (with the part
      of [std::regex] they use), ELF dependencies; the file system is a class.
    - [Dispatch] ([utils.cc], [comms_mgr.cc], [plugins]): configuration, which
      dispatches are instrumented, the handler plug-ins, the duration log.
    - [Comms] ([comms_mgr.cc], [hsa_mem_mgr.cc], [KernArgAllocator]): memory pools,
      the communication object of a dispatch and its handlers.
    - [Interceptor] ([interceptor.cc]): the packet interceptor, composed of all of
      the above: [start] (the constructor), [fixupPacket], [doPackets],
      [signalCompleted], [addQueue], [addKernel], [addCodeObject], the symbol hook,
      [signal_runner], [ensure_shutdown].  Its state is the class's members, plus a
      trace of the calls made on the outside world; the outside world's answers are
      arguments.  A monad keeps the state when an exception is thrown.
      [Bookkeeping], [PacketRewrite] and [CacheState] hold its theorems.
      Loading a file goes through the hook on symbols, which [addFile_hooked]
      re-enters.  [PacketText]: packets and argument segments as text.
    - [Registration] ([addKernel], [isKernelFromExcludedFile],
      [registerRuntimeKernel]): any number of threads between the critical sections
      of [addKernel].
    - [Sections] ([hsaInterceptor::mutex_], [coCache::mutex_]): programs that take
      and give back locks, threads that interleave between any two actions
      ([config_step]), a logic for their invariants ([safe]: what is true always, what
      is true while the interceptor's lock is free, and what the others may do in
      between), the order of the locks ([ordered]), and a thread that runs alone
      ([runs_alone]).  [Calls]: the operations of [Interceptor] as such programs, with
      the locks where [interceptor.cc] and [utils.cc] take them, an access outside
      any lock where they take none (the [lock(mutex)] of [hasKernels] and
      [findInstrumentedAlternative] locks nothing), and the [catch] clauses.
      [Bookkeeping.running]: the configurations after the constructor and any
      interleaving of calls; [Bookkeeping] and [CacheState] prove their invariants of
      these.  The definitions of [Interceptor] and the programs agree on what one call
      does when nobody interrupts it ([calls_are_their_sections]).  [ExitPath] ([CHECK_COMGR] in
      [utils.cc], [ensure_shutdown]): what [exit] does from inside a call.
    - [ConfigReceiver] ([config_receiver.cc]): configurations accepted by their
      signature; ZeroMQ, the JSON library and OpenSSL are classes.
    - [Lifecycle] ([interceptor.cc]): the interceptor in its process, as a step
      relation: [getInstance], the function table with [saveHsaApi], [hookApi] and
      [restoreHsaApi], the hooks, [OnSubmitPackets], the signal thread, the exit
      handlers ([begin_shutdown] and [wait_once] are [ensure_shutdown]) and the
      destructor ([destroy_instance], with those of the members, [destroy_members]:
      communication manager, plug-ins, code-object cache, log).  Submissions, symbol
      queries and loadings are threads anywhere between their critical sections.
    - [CacheWatcher] ([cache_watcher] in [interceptor.cc], the directory listing of
      [utils.cc]): the thread that loads code objects moved into the kernel cache,
      from the bytes inotify gives it to [addCodeObject].
    - [Message]: what a message of the device library carries.  [BankConflicts],
      [CacheLines], [MemoryAnalysis], [MemoryReport]
      ([memory_analysis_handler.cc]): the memory analysis and its reports.
      [BasicBlock], [BasicBlockReport], [BlockText] ([basic_block_analysis.cc]), [Heatmap]
      ([memory_heatmap.cc]), [TimeInterval] ([time_interval_handler.cc] and its
      wrapper), [MessageLogger] ([message_logger.cc]): the other handlers.
      [ReportLogs]: the streams all of them report to, and who opens, flushes and
      deletes these; the handlers' virtual functions are the class [LogUse].
    - [PyHandler] ([pyHandler.cc]): a handler written in Python, as its calls into
      the Python API.  [HostHelpers] ([reconfigure.cc], [timehelper.h],
      [isFileNewer]): files and clocks of the host.
    - [Json]: [json_helpers.cc], and a reference grammar of JSON values against
      which the reports are stated.  [Doubles]: printing of [double]s.

    ** What the theorems show

    - Running kernels.  [everything_given_back], [nothing_given_back_twice]: over
      all interleavings of the critical sections of submissions, completions,
      registrations and loadings, the books of signals, kernarg segments,
      communication objects and the application's own signals balance whenever the
      interceptor's lock is free.  [calls_return]: the calls do not deadlock and do
      not go on forever.  [fixupPacket_rewrites], [doPackets_in_order]: what becomes of a
      packet, and of a batch.  [signal_thread_completes]: the signal thread
      completes what is pending.  [fixupKernArgs_correct], [kernel_entry_layout],
      [instrumented_kernargs]: the clone sees the application's arguments and the
      pointer.  [instrumented_alternative_kept], [reachable_cache_sound]: the cache,
      at every point of every interleaving.  [registrations_linearize]:
      interleaved registrations leave what they leave one after the other.
    - Process.  [process_lifecycle]: hooks are in the table exactly while there is an
      instance, and an intercepted queue is known to the instance, or was to one that
      is deleted; [exit_gives_back]: which signals, and which of the executables,
      managers, plug-ins and files that its tables have, an instance gives back;
      [hung_kernel_blocks_exit]; [exit_inside_call_hangs]: a submission that calls [exit]
      waits for its own lock; [deleted_in_use]: the
      instance can be deleted while the application is inside a call; [cache_watcher_loads]: the
      watcher loads what is moved into the directories it watches, nothing else, by
      the paths their watches were granted for last.
    - Making clones.  [address_pass_probes_accesses], [block_passes_number_blocks]:
      what each pass inserts and declares, and that it changes nothing else;
      [scope_selects]: which accesses; [clones_named_for_host],
      [getInstrumentedName_agrees_with_pass], [getInstrumentedName_inj]: the two
      sides agree on names.  [linkModules_links]: which modules are linked, in which
      order, and when that succeeds; [getUnmangledName_reads].
    - Choosing.  [exclude_patterns_are_globs], [included_files_valid],
      [array_roundtrip], [dispatch_policy], [checkout_handlers], [managers_deleted];
      [config_is_signed].
    - Counting.  [lds_conflicts_correct], [cache_lines_exact], [coalesced_lines],
      [handle_lds_statistics], [handle_global_statistics]; [handler_run_wf]: which
      messages abort the memory analysis; [block_time_conserved]: each block is
      charged for the time spent in it; [time_intervals_exact],
      [block_timings_conserve_time], [heatmap_counts].
    - Resources of the handlers.  [handler_streams]: which log streams a handler
      leaves open and what reaches the file, whatever the streams buffer; [handler_references]: the Python
      references it owns at its end.
    - Reporting.  [memory_json_report], [json_block_denotes],
      [json_helper_roundtrip]: reports are read back to the statistics;
      [code_contexts_transparent]: the source cache; [bb_report_never_faults].
    - Where the code does not do what it means to: [unregistered_stays_unnamed],
      [scope_errors_and_truncation], [key_shadowed_by_value],
      [clear_loses_first_start], [wave_identity_needs_padding],
      [resources_report_json], the second half of [dispatch_policy] and of
      [instrumented_kernargs], the last but one part of [signal_thread_completes],
      [hung_kernel_blocks_exit], [exit_inside_call_hangs], the second case of
      [handler_run_wf], parts of [handler_streams] and [cache_watcher_loads].

    ** Fuel

    Loops without a structural argument take fuel, and a theorem says that the fuel
    given is enough: the cache-line loop gets the number of lines, [count_bits] 64
    steps, the tab replacement and the parsers the length of their text plus one,
    the loop that resolves symbols the number of modules plus one,
    the search path the length of its text plus one, the loop over an inotify buffer
    its length plus one, [ensure_shutdown] its own bound
    of a thousand.  The signal thread is a step function, with its number of steps
    in the theorem.

    ** Not modelled, and why

    - Third-party code is a parameter: HSA, comgr, kernelDB, dh_comms's transport,
      LLVM, libelf, [glob], [dlopen], [getenv], clocks, the random engine (seeded
      from the clock).  LLVM's resolution of name clashes is a parameter too.
    - Banners on stderr and verbose [printf]s.
    - [rocprofiler_configure], which registers the callback that is modelled.
    - Tests and the command line ([omniprobe], in Python).
    - The message type and the transport's threads: they belong to the device
      library; [Message] is what the handlers read of a message.
    - Accesses without a lock are single actions, in some order: the weaker orders
      that C++ allows a data race are not modelled.
    - [comms_mgr]'s own lock is taken by the constructor and under the interceptor's
      lock only, so nobody waits for it: it is part of the actions.  The lock around
      [singleton_] is held for one assignment or read, except by [getInstance] while
      it makes the instance, which is one step of the process.
    - Within modelled parts: the order [std::sort] gives equal elements, the sign of a
      printed NaN.  How much of its buffer a stream writes without being made to is a
      parameter.

    ** Order of the work

    First the interceptor's core and the handlers; then the passes, the process and
    the cache watcher; then interleaved registration, the re-entrant hook, bitcode
    linking, the receiver of configurations, the Python handler and the handlers'
    logs; then the critical sections of every call, alone and in the process, the
    destructors and the exit handler inside a call. *)
From Stdlib Require Export ZArith Ascii Lia.
From stdpp Require Export base tactics option list gmap sets sorting strings numbers.

#[export] Set Default Goal Selector "!".
#[global] Open Scope Z_scope.

(** ** Byte strings

    A [std::string] is its list of [char]s.  [lit] embeds a literal. *)
Abbreviation bytes := (list ascii).

Definition lit (s : string) : bytes := String.list_ascii_of_string s.

(** ** Faults

    What a C++ call can do other than return: a failed [assert] / [abort], a
    call of [exit], a thrown exception, undefined behaviour, or (in a model with
    fuel) a loop whose fuel ran out. *)
Inductive fault : Type :=
| FAbort
| FExit (code : Z)
| FThrow (what : bytes)
| FUB
| FDiverge.

#[export] Instance fault_eq_dec : EqDecision fault.
Proof. solve_decision. Defined.

Inductive res (A : Type) : Type :=
| Ok (a : A)
| Err (f : fault).
Arguments Ok {A} a.
Arguments Err {A} f.

#[export] Instance res_eq_dec `{EqDecision A} : EqDecision (res A).
Proof. solve_decision. Defined.

Definition res_bind {A B} (m : res A) (k : A → res B) : res B :=
  match m with Ok a => k a | Err f => Err f end.

Definition res_map {A B} (g : A → B) (m : res A) : res B :=
  match m with Ok a => Ok (g a) | Err f => Err f end.

Definition is_Ok {A} (m : res A) : Prop := ∃ a, m = Ok a.

(** [assert(c)] in a translation unit compiled without [NDEBUG]. *)
Definition assertb (c : bool) : res unit := if c then Ok () else Err FAbort.

Declare Scope res_scope.
Delimit Scope res_scope with res.
Notation "'let!' x := m 'in' k" := (res_bind m (λ x, k))
  (at level 10, x name, m at level 100, k at level 200) : res_scope.
Notation "'let!' ' p := m 'in' k" := (res_bind m (λ x, match x with p => k end))
  (at level 10, p pattern, m at level 100, k at level 200) : res_scope.
Open Scope res_scope.

(** A loop whose body can fault. *)
Fixpoint res_fold {S A} (body : S → A → res S) (s : S) (l : list A) : res S :=
  match l with
  | [] => Ok s
  | x :: l' => let! s' := body s x in res_fold body s' l'
  end.

Lemma res_bind_Ok {A B} (m : res A) (k : A → res B) b :
  res_bind m k = Ok b ↔ ∃ a, m = Ok a ∧ k a = Ok b.
Proof. destruct m; simpl; split; [eauto|by intros (?&[= <-]&?)|done|by intros (?&?&?)]. Qed.

Lemma res_bind_assoc {A B C} (m : res A) (k : A → res B) (h : B → res C) :
  res_bind (res_bind m k) h = res_bind m (λ a, res_bind (k a) h).
Proof. by destruct m. Qed.

Lemma res_fold_app {S A} (body : S → A → res S) s l1 l2 :
  res_fold body s (l1 ++ l2) =
  res_bind (res_fold body s l1) (λ s', res_fold body s' l2).
Proof.
  revert s. induction l1 as [|x l1 IH]; intros s; [done|]; simpl.
  rewrite res_bind_assoc. destruct (body s x); simpl; auto.
Qed.

(** Invariant rule for [res_fold]. *)
Lemma res_fold_inv {S A} (P : S → Prop) (body : S → A → res S) l s s' :
  (∀ x s0 s1, x ∈ l → P s0 → body s0 x = Ok s1 → P s1) →
  P s → res_fold body s l = Ok s' → P s'.
Proof.
  revert s. induction l as [|x l IH]; intros s Hstep Hs; simpl.
  { by intros [= <-]. }
  intros (s1 & Hx & Hl)%res_bind_Ok.
  eapply IH; [|eapply Hstep; [left|done|done] |exact Hl].
  intros y s2 s3 Hy. eapply Hstep. by right.
Qed.

(** A loop that checks each element and keeps it. *)
Lemma res_fold_checked {A} (check : A → res unit) l out out' :
  res_fold (λ out x, let! _ := check x in Ok (out ++ [x])) out l = Ok out' →
  out' = out ++ l ∧ Forall (λ x, check x = Ok ()) l.
Proof.
  revert out. induction l as [|x l IH]; intros out; simpl.
  { intros [= <-]. by rewrite app_nil_r. }
  intros (?&([]&Hx&[= <-])%res_bind_Ok&[-> Hl]%IH)%res_bind_Ok. split; [by rewrite <-app_assoc|by constructor].
Qed.

(** A fault of the loop is one of its body. *)
Lemma res_fold_Err {S A} (P : fault → Prop) (body : S → A → res S) l s f :
  (∀ x s0 f0, body s0 x = Err f0 → P f0) → res_fold body s l = Err f → P f.
Proof.
  intros Hbody. revert s. induction l as [|x l IH]; intros s; simpl; [done|].
  destruct (body s x) eqn:E; simpl; [apply IH|]. intros [= <-]. by eapply Hbody.
Qed.

(** What such a loop has done when its body faults. *)
Fixpoint fold_so_far {S A} (body : S → A → res S) (s : S) (l : list A) : S :=
  match l with
  | [] => s
  | x :: l' => match body s x with Ok s' => fold_so_far body s' l' | Err _ => s end
  end.

Lemma fold_so_far_app {S A} (body : S → A → res S) s l1 l2 :
  fold_so_far body s (l1 ++ l2) =
  match res_fold body s l1 with Ok s' => fold_so_far body s' l2 | Err _ => fold_so_far body s l1 end.
Proof. revert s. induction l1 as [|x l1 IH]; intros s; simpl; [done|]. by destruct (body s x). Qed.

Lemma fold_so_far_inv {S A} (P : S → Prop) (body : S → A → res S) l s :
  (∀ x s0 s1, P s0 → body s0 x = Ok s1 → P s1) → P s → P (fold_so_far body s l).
Proof.
  intros Hb. revert s. induction l as [|x l IH]; intros s Hs; simpl; [done|].
  destruct (body s x) eqn:E; eauto.
Qed.

(** ** Lists *)
Lemma drop_middle {A} (l : list A) x k : drop (S (length l)) (l ++ x :: k) = k.
Proof. induction l; simpl; auto. Qed.

Lemma take_middle {A} (l : list A) x k : take (S (length l)) (l ++ x :: k) = l ++ [x].
Proof. induction l; simpl; f_equal; auto. Qed.

Lemma size_list_to_set_le `{Countable A} (l : list A) :
  (size (list_to_set l : gset A) ≤ length l)%nat.
Proof.
  apply submseteq_length, NoDup_submseteq; [apply NoDup_elements|].
  intros x. by rewrite elem_of_elements, elem_of_list_to_set.
Qed.

(** ** Machine integers

    A [w]-bit unsigned value is a [Z] in [0, 2^w); arithmetic that can wrap is
    wrapped explicitly. *)
Definition wrap (w : Z) (x : Z) : Z := x `mod` 2 ^ w.
Arguments wrap : simpl never.
Abbreviation u8 := (wrap 8).
Abbreviation u16 := (wrap 16).
Abbreviation u32 := (wrap 32).
Abbreviation u64 := (wrap 64).

Definition npos : Z := 2 ^ 64 - 1.

Lemma wrap_bound w x : 0 ≤ w → 0 ≤ wrap w x < 2 ^ w.
Proof. intros Hw. apply Z.mod_pos_bound, Z.pow_pos_nonneg; lia. Qed.

Lemma wrap_small w x : 0 ≤ x < 2 ^ w → wrap w x = x.
Proof. apply Z.mod_small. Qed.

Lemma wrap_wrap w x : wrap w (wrap w x) = wrap w x.
Proof. apply Zmod_mod. Qed.

Create HintDb omni.
#[export] Hint Resolve wrap_bound wrap_small : omni.


(** ** Ordered iteration

    [std::map] is iterated in the order of its keys.  State is kept in a
    [gmap]; [map_items] is the sequence a range-for over the map visits. *)
Class KeyOrder (K : Type) := key_leb : K → K → bool.

Class KeyOrderLaws (K : Type) `{KeyOrder K} : Prop := {
  key_leb_total x y : key_leb x y = true ∨ key_leb y x = true;
  key_leb_trans x y z : key_leb x y = true → key_leb y z = true → key_leb x z = true;
  key_leb_antisym x y : key_leb x y = true → key_leb y x = true → x = y;
}.

Section items.
Context `{Countable K, KeyOrder K, !KeyOrderLaws K} {V : Type}.
Implicit Types (m : gmap K V) (p q : K * V).

Definition item_le p q : Prop := key_leb p.1 q.1 = true.

#[export] Instance item_le_dec : RelDecision item_le.
Proof. intros p q. unfold item_le. apply _. Defined.

Definition map_items m : list (K * V) := merge_sort item_le (map_to_list m).

#[local] Instance item_le_total : Total item_le.
Proof. intros p q. apply key_leb_total. Qed.

#[local] Instance item_le_trans : Transitive item_le.
Proof. intros p q r. apply key_leb_trans. Qed.

Lemma map_items_perm m : map_items m ≡ₚ map_to_list m.
Proof. apply merge_sort_Permutation. Qed.

Lemma map_items_sorted m : StronglySorted item_le (map_items m).
Proof. apply (StronglySorted_merge_sort _). Qed.

Lemma elem_of_map_items m k v : (k, v) ∈ map_items m ↔ m !! k = Some v.
Proof. rewrite map_items_perm. apply elem_of_map_to_list. Qed.

Lemma NoDup_map_items m : NoDup (map_items m).*1.
Proof. rewrite map_items_perm. apply NoDup_fst_map_to_list. Qed.

Lemma map_items_empty : map_items ∅ = [].
Proof. unfold map_items. by rewrite map_to_list_empty. Qed.

Lemma map_items_nil m : map_items m = [] ↔ m = ∅.
Proof.
  split; [|intros ->; apply map_items_empty]. intros Hm.
  apply map_to_list_empty_iff, Permutation_nil. by rewrite <-Hm, map_items_perm.
Qed.
End items.

(** ** Splicing: overwriting a block of a list *)
Definition splice {A} (off : nat) (new l : list A) : list A :=
  take off l ++ new ++ drop (off + length new) l.

Lemma splice_app {A} (a old new c : list A) :
  length old = length new → splice (length a) new (a ++ old ++ c) = a ++ new ++ c.
Proof.
  intros Hlen. unfold splice. rewrite take_app_length, drop_app_add, <-Hlen.
  by rewrite drop_app_length.
Qed.

Lemma split_at {A} (n : nat) (l : list A) :
  (n ≤ length l)%nat → ∃ a b, l = a ++ b ∧ length a = n.
Proof.
  intros Hn. exists (take n l), (drop n l).
  split; [by rewrite take_drop|]. by apply length_take_le.
Qed.

(** ** Sums of counters kept in a map *)
Definition map_sum `{Countable K} (m : gmap K Z) : Z := map_fold (λ _ v n, v + n) 0 m.

Lemma map_sum_empty `{Countable K} : map_sum (∅ : gmap K Z) = 0.
Proof. apply map_fold_empty. Qed.

Lemma map_sum_delete `{Countable K} (m : gmap K Z) k v :
  m !! k = Some v → map_sum m = v + map_sum (delete k m).
Proof.
  intros Hk. unfold map_sum. rewrite (map_fold_delete_L _ _ k v m); [done| |done].
  intros. lia.
Qed.

Lemma map_sum_insert `{Countable K} (m : gmap K Z) k v :
  map_sum (<[k := v]> m) = map_sum m - default 0 (m !! k) + v.
Proof.
  rewrite (map_sum_delete (<[k := v]> m) k v) by apply lookup_insert_eq.
  rewrite delete_insert_eq. destruct (m !! k) as [w|] eqn:Hk; cbn.
  - rewrite (map_sum_delete m k w) by done. lia.
  - rewrite delete_id by done. lia.
Qed.

(** Wrapping commutes with addition. *)
Lemma wrap_add_l w a b : wrap w (wrap w a + b) = wrap w (a + b).
Proof. apply Zplus_mod_idemp_l. Qed.
Lemma wrap_add_r w a b : wrap w (a + wrap w b) = wrap w (a + b).
Proof. apply Zplus_mod_idemp_r. Qed.
Lemma wrap_sub_l w a b : wrap w (wrap w a - b) = wrap w (a - b).
Proof. apply Zminus_mod_idemp_l. Qed.
Lemma wrap_sub_r w a b : wrap w (a - wrap w b) = wrap w (a - b).
Proof. apply Zminus_mod_idemp_r. Qed.
#[export] Hint Rewrite wrap_add_l wrap_add_r wrap_sub_l wrap_sub_r @wrap_wrap : wrap.
