(* ===== verification/StdString.v ===== *)
(** * The parts of the C++ standard library on strings the sources use

    [std::string] members ([find], [rfind], [find_first_not_of], [substr],
    [replace], [ends_with], ...), [std::getline] on a string stream, the number
    formatting of [operator<<] and the number parsing of [strtoul] / [stoul].
    A position result is an [option nat], [None] standing for [npos]. *)
From S2P Require Import Prelude.

Definition ch (n : nat) : ascii := ascii_of_nat n.
Definition dquote : ascii := ch 34.
Definition newline : ascii := ch 10.
Definition tab : ascii := ch 9.
Definition nul : ascii := ch 0.

Definition aeqb (a b : ascii) : bool := bool_decide (a = b).

(** [<cctype>] in the C locale. *)
Definition isspace (c : ascii) : bool :=
  let n := nat_of_ascii c in ((9 <=? n)%nat && (n <=? 13)%nat) || (n =? 32)%nat.
Definition isdigit (c : ascii) : bool :=
  let n := nat_of_ascii c in (48 <=? n)%nat && (n <=? 57)%nat.
Definition tolower (c : ascii) : ascii :=
  let n := nat_of_ascii c in
  if (65 <=? n)%nat && (n <=? 90)%nat then ch (n + 32) else c.

(** ** Searching *)
Fixpoint find_if (p : ascii → bool) (s : bytes) : option nat :=
  match s with
  | [] => None
  | c :: s' => if p c then Some 0%nat else S <$> find_if p s'
  end.

Fixpoint rfind_if (p : ascii → bool) (s : bytes) : option nat :=
  match s with
  | [] => None
  | c :: s' =>
      match rfind_if p s' with
      | Some j => Some (S j)
      | None => if p c then Some 0%nat else None
      end
  end.

Fixpoint starts_with (pat s : bytes) : bool :=
  match pat, s with
  | [], _ => true
  | _, [] => false
  | a :: pat', b :: s' => aeqb a b && starts_with pat' s'
  end.

Fixpoint find_sub (pat s : bytes) : option nat :=
  if starts_with pat s then Some 0%nat else
  match s with [] => None | _ :: s' => S <$> find_sub pat s' end.

Fixpoint rfind_sub (pat s : bytes) : option nat :=
  match s with
  | [] => if starts_with pat [] then Some 0%nat else None
  | _ :: s' =>
      match rfind_sub pat s' with
      | Some j => Some (S j)
      | None => if starts_with pat s then Some 0%nat else None
      end
  end.

Definition find_char (c : ascii) : bytes → option nat := find_if (aeqb c).
Definition rfind_char (c : ascii) : bytes → option nat := rfind_if (aeqb c).

(** [s.find(c, pos)] *)
Definition find_char_from (c : ascii) (pos : nat) (s : bytes) : option nat :=
  (λ i, (pos + i)%nat) <$> find_char c (drop pos s).

Definition ends_with (suffix s : bytes) : bool :=
  (length suffix <=? length s)%nat &&
  bool_decide (drop (length s - length suffix) s = suffix).

Definition substr (s : bytes) (pos len : nat) : bytes := take len (drop pos s).

(** [std::string::compare] order (bytes compared as unsigned). *)
Fixpoint bytes_leb (s t : bytes) : bool :=
  match s, t with
  | [], _ => true
  | _ :: _, [] => false
  | a :: s', b :: t' =>
      if (nat_of_ascii a <? nat_of_ascii b)%nat then true
      else if (nat_of_ascii b <? nat_of_ascii a)%nat then false
      else bytes_leb s' t'
  end.

#[export] Instance bytes_order : KeyOrder bytes := bytes_leb.
#[export] Instance Z_order : KeyOrder Z := Z.leb.

(** ** Trimming: the substring between the first and the last byte not in a set *)
Definition in_set (set : bytes) (c : ascii) : bool := bool_decide (c ∈ set).

Definition trim_set (set s : bytes) : bytes :=
  match find_if (λ c, negb (in_set set c)) s,
        rfind_if (λ c, negb (in_set set c)) s with
  | Some start, Some stop => substr s start (stop - start + 1)
  | _, _ => []
  end.

(** ** [while (std::getline(stream, piece, d))] over the whole stream *)
Fixpoint getlines (d : ascii) (s : bytes) : list bytes :=
  match s with
  | [] => []
  | c :: s' =>
      if aeqb c d then [] :: getlines d s'
      else match getlines d s' with
           | [] => [[c]]
           | l :: ls => (c :: l) :: ls
           end
  end.

(** ** Numbers *)
Definition digit_char (d : Z) : ascii :=
  ch (Z.to_nat (if d <? 10 then 48 + d else 87 + d)).
Definition digit_val (c : ascii) : Z := Z.of_nat (nat_of_ascii c) - 48.

Fixpoint digits_go (b : Z) (fuel : nat) (n : Z) (acc : bytes) : bytes :=
  let acc' := digit_char (n `mod` b) :: acc in
  match fuel with
  | O => acc'
  | S f => if n <? b then acc' else digits_go b f (n / b) acc'
  end.

(** [out << std::dec << n] and [out << std::hex << n] for unsigned [n]. *)
Definition to_dec (n : Z) : bytes := digits_go 10 (Z.to_nat (Z.log2 n)) n [].
Definition to_hex (n : Z) : bytes := digits_go 16 (Z.to_nat (Z.log2 n)) n [].

(** [std::setw(w) << std::setfill(c)], right aligned. *)
Definition pad_left (w : nat) (c : ascii) (s : bytes) : bytes :=
  replicate (w - length s) c ++ s.

(** The C string of a byte string: everything before the first NUL. *)
Definition c_str (s : bytes) : bytes :=
  match find_char nul s with Some i => take i s | None => s end.

Fixpoint scan_digits (acc : Z) (s : bytes) : Z * bytes :=
  match s with
  | [] => (acc, [])
  | c :: s' => if isdigit c then scan_digits (10 * acc + digit_val c) s' else (acc, s)
  end.

Fixpoint skip_space (s : bytes) : bytes :=
  match s with
  | [] => []
  | c :: s' => if isspace c then skip_space s' else s
  end.

(** [strtoul(s, &end, 10)]: the value, whether it overflowed, and what [end]
    points to; [None] when no digits were found ([end == s], value 0). *)
Definition strtoul_scan (s : bytes) : option (Z * bool * bytes) :=
  let t := skip_space s in
  let '(neg, t') := match t with
                    | "-"%char :: t' => (true, t')
                    | "+"%char :: t' => (false, t')
                    | _ => (false, t)
                    end in
  match t' with
  | [] => None
  | c :: _ =>
      if isdigit c then
        let '(v, rest) := scan_digits 0 t' in
        if v <? 2 ^ 64 then Some (if neg then u64 (- v) else v, false, rest)
        else Some (2 ^ 64 - 1, true, rest)
      else None
  end.

Definition strtoul (s : bytes) : Z * bytes :=
  match strtoul_scan (c_str s) with
  | Some (v, _, rest) => (v, rest)
  | None => (0, c_str s)
  end.

(** [std::stoul(s)] *)
Definition stoul (s : bytes) : res Z :=
  match strtoul_scan (c_str s) with
  | Some (v, false, _) => Ok v
  | Some (_, true, _) => Err (FThrow (lit "stoul: out of range"))
  | None => Err (FThrow (lit "stoul: no conversion"))
  end.

(** ** Replacing tabs: [while ((pos = find('\t', pos)) != npos) replace 8 spaces] *)
Definition expand_tabs (s : bytes) : bytes :=
  s ≫= λ c, if aeqb c tab then replicate 8 " "%char else [c].

(** ** Lemmas: searching *)
Lemma aeqb_eq a b : aeqb a b = true ↔ a = b.
Proof. unfold aeqb. by rewrite bool_decide_eq_true. Qed.
Lemma aeqb_neq a b : aeqb a b = false ↔ a ≠ b.
Proof. unfold aeqb. by rewrite bool_decide_eq_false. Qed.
Lemma aeqb_refl a : aeqb a a = true.
Proof. by apply aeqb_eq. Qed.
#[export] Hint Resolve aeqb_refl : omni.

(** [p] holds of no byte of [s]. *)
Abbreviation none_of p s := (Forall (λ c, p c = false) s).

Lemma find_if_Some p s i :
  find_if p s = Some i ↔
  ∃ c, s !! i = Some c ∧ p c = true ∧ none_of p (take i s).
Proof.
  revert i. induction s as [|c s IH]; intros i; simpl.
  { split; [done|]. by intros (?&?&_). }
  destruct (p c) eqn:Hc.
  { split.
    - intros [= <-]. exists c. by repeat constructor.
    - intros (c'&Hi&_&Hn). destruct i as [|i]; [done|].
      simpl in Hn. apply Forall_cons_1 in Hn as [? _]. congruence. }
  rewrite fmap_Some. split.
  - intros (j&(c'&Hj&Hc'&Hn)%IH&->). exists c'. simpl. eauto using Forall_cons.
  - intros (c'&Hi&Hc'&Hn). destruct i as [|i]; simplify_eq/=.
    { congruence. }
    apply Forall_cons_1 in Hn as [_ Hn]. exists i. split; [|done]. apply IH. eauto.
Qed.

Lemma find_if_None p s : find_if p s = None ↔ none_of p s.
Proof.
  induction s as [|c s IH]; simpl; [split; auto|].
  rewrite list.Forall_cons. destruct (p c) eqn:Hc; [split; [done|by intros []]|].
  rewrite fmap_None, IH. naive_solver.
Qed.

Lemma find_if_app p s t :
  none_of p s → find_if p (s ++ t) = (λ i, (length s + i)%nat) <$> find_if p t.
Proof.
  induction 1 as [|c s Hc Hs IH]; simpl; [by destruct (find_if p t)|].
  rewrite Hc, IH. by destruct (find_if p t).
Qed.

Lemma find_if_here p s c t :
  none_of p s → p c = true → find_if p (s ++ c :: t) = Some (length s).
Proof.
  intros Hs Hc. rewrite find_if_app by done. simpl. rewrite Hc.
  simpl. f_equal. lia.
Qed.

Lemma rfind_if_None p s : rfind_if p s = None ↔ none_of p s.
Proof.
  induction s as [|c s IH]; simpl; [split; auto|].
  rewrite list.Forall_cons, <-IH. destruct (rfind_if p s); [naive_solver|].
  destruct (p c); naive_solver.
Qed.

Lemma rfind_if_here p s c t :
  none_of p t → p c = true → rfind_if p (s ++ c :: t) = Some (length s).
Proof.
  intros Ht%rfind_if_None Hc.
  induction s as [|d s IH]; simpl; [by rewrite Ht, Hc|]. by rewrite IH.
Qed.

Lemma rfind_if_Some p s i :
  rfind_if p s = Some i →
  ∃ s1 c s2, s = s1 ++ c :: s2 ∧ length s1 = i ∧ p c = true ∧ none_of p s2.
Proof.
  revert i. induction s as [|c s IH]; intros i; simpl; [done|].
  destruct (rfind_if p s) as [j|] eqn:Hj.
  - intros [= <-]. destruct (IH j eq_refl) as (s1&d&s2&->&<-&?&?).
    by exists (c :: s1), d, s2.
  - destruct (p c) eqn:Hc; [|done]. intros [= <-].
    exists [], c, s. by rewrite rfind_if_None in Hj.
Qed.

Lemma find_if_split p s i :
  find_if p s = Some i →
  ∃ s1 c s2, s = s1 ++ c :: s2 ∧ length s1 = i ∧ p c = true ∧ none_of p s1.
Proof.
  intros (c&Hi&Hc&Hn)%find_if_Some. exists (take i s), c, (drop (S i) s).
  repeat split; auto.
  - by rewrite take_drop_middle.
  - apply length_take_le. apply lookup_lt_Some in Hi. lia.
Qed.

Lemma starts_with_spec pat s : starts_with pat s = true ↔ ∃ t, s = pat ++ t.
Proof.
  revert s. induction pat as [|a pat IH]; intros s; simpl; [naive_solver|].
  destruct s as [|b s]; simpl; [naive_solver|].
  rewrite andb_true_iff, aeqb_eq, IH. naive_solver.
Qed.

Lemma starts_with_app pat t : starts_with pat (pat ++ t) = true.
Proof. apply starts_with_spec. eauto. Qed.

(** [pat] occurs nowhere in [s]. *)
Definition no_sub (pat s : bytes) : Prop := ∀ s1 s2, s ≠ s1 ++ pat ++ s2.

Lemma no_sub_cons pat c s :
  no_sub pat (c :: s) ↔ starts_with pat (c :: s) = false ∧ no_sub pat s.
Proof.
  rewrite <-not_true_iff_false, starts_with_spec. split.
  - intros H. split.
    + intros [t Ht]. by apply (H [] t).
    + intros s1 s2 ->. by apply (H (c :: s1) s2).
  - intros [H1 H2] [|d s1] s2; simpl; [naive_solver|].
    intros [= -> ->]. by apply (H2 s1 s2).
Qed.

Lemma rfind_sub_None pat s : rfind_sub pat s = None ↔ no_sub pat s.
Proof.
  induction s as [|c s IH]; simpl.
  - destruct pat as [|a pat]; simpl.
    + split; [done|]. intros H. by destruct (H [] []).
    + split; [|done]. intros _ [|? s1] s2; discriminate.
  - rewrite no_sub_cons, <-IH. destruct (rfind_sub pat s); [naive_solver|].
    destruct (starts_with pat (c :: s)); naive_solver.
Qed.

(** [rfind] returns the last suffix that starts with a (non-empty) pattern. *)
Lemma rfind_sub_Some pat s i :
  pat ≠ [] → rfind_sub pat s = Some i →
  ∃ s1 c u, s = s1 ++ c :: u ∧ length s1 = i ∧
    starts_with pat (c :: u) = true ∧ rfind_sub pat u = None.
Proof.
  intros Hne. revert i. induction s as [|c s IH]; intros i; simpl.
  - destruct pat; done.
  - destruct (rfind_sub pat s) as [j|] eqn:Hj.
    + intros [= <-]. destruct (IH j eq_refl) as (s1&d&u&->&<-&?&?).
      by exists (c :: s1), d, u.
    + destruct (starts_with pat (c :: s)) eqn:E; [|done]. intros [= <-].
      by exists [], c, s.
Qed.

Lemma rfind_sub_last pat s c u :
  starts_with pat (c :: u) = true → rfind_sub pat u = None →
  rfind_sub pat (s ++ c :: u) = Some (length s).
Proof.
  intros Hs Hu. induction s as [|d s IH]; simpl app.
  - simpl rfind_sub. by rewrite Hu, Hs.
  - simpl rfind_sub. by rewrite IH.
Qed.

Lemma rfind_sub_here pat s : pat ≠ [] → rfind_sub pat (s ++ pat) = Some (length s).
Proof.
  intros Hne. destruct pat as [|a pat]; [done|]. apply rfind_sub_last.
  - pose proof (starts_with_app (a :: pat) []) as H. by rewrite app_nil_r in H.
  - apply rfind_sub_None. intros s1 s2 H. apply (f_equal length) in H.
    rewrite !length_app in H. simpl in H. lia.
Qed.

(** ** Lemmas: ordering *)
#[export] Instance Z_order_laws : KeyOrderLaws Z.
Proof. split; unfold key_leb, Z_order; intros; lia. Qed.

Lemma nat_of_ascii_inj a b : nat_of_ascii a = nat_of_ascii b → a = b.
Proof. intros H. by rewrite <-(ascii_nat_embedding a), H, ascii_nat_embedding. Qed.

#[export] Instance bytes_order_laws : KeyOrderLaws bytes.
Proof.
  split; unfold key_leb, bytes_order.
  - intros x. induction x as [|a x IH]; intros [|b y]; simpl; auto.
    destruct (Nat.ltb_spec (nat_of_ascii a) (nat_of_ascii b)); [auto|].
    destruct (Nat.ltb_spec (nat_of_ascii b) (nat_of_ascii a)); [auto|]. apply IH.
  - intros x. induction x as [|a x IH]; intros [|b y] [|c z]; simpl; try done.
    repeat case_match; rewrite ?Nat.ltb_lt, ?Nat.ltb_ge in *; try done; try lia.
    apply IH.
  - intros x. induction x as [|a x IH]; intros [|b y]; simpl; try done.
    repeat case_match; rewrite ?Nat.ltb_lt, ?Nat.ltb_ge in *; try done; try lia.
    intros H1 H2. f_equal; [|by apply IH]. apply nat_of_ascii_inj. lia.
Qed.

(** ** Lemmas: trimming *)
Lemma trim_set_split set s :
  ∃ pre post, s = pre ++ trim_set set s ++ post ∧
    Forall (λ c, c ∈ set) pre ∧ Forall (λ c, c ∈ set) post.
Proof.
  assert (∀ l, none_of (λ c, negb (in_set set c)) l → Forall (λ c, c ∈ set) l) as Hin.
  { intros l. apply Forall_impl. intros c. unfold in_set.
    rewrite negb_false_iff, bool_decide_eq_true. done. }
  unfold trim_set. destruct (find_if _ s) as [i|] eqn:Hi; cycle 1.
  { exists s, []. rewrite app_nil_r. split; [done|]. split; [|done].
    by apply Hin, find_if_None. }
  destruct (rfind_if _ s) as [j|] eqn:Hj; cycle 1.
  { apply rfind_if_None, find_if_None in Hj. congruence. }
  apply find_if_split in Hi as (s1&c&s2&->&<-&Hc&Hs1).
  apply rfind_if_Some in Hj as (t1&d&t2&Ht&<-&Hd&Ht2).
  exists s1, t2. split; [|by auto]. f_equal. unfold substr.
  rewrite drop_app_length.
  assert (length s1 ≤ length t1)%nat as Hle.
  { destruct (decide (length t1 < length s1)%nat) as [Hlt|]; [|lia]. exfalso.
    apply (f_equal (λ l, l !! length t1)) in Ht.
    rewrite lookup_app_l, list_lookup_middle in Ht by done.
    rewrite Forall_lookup in Hs1. specialize (Hs1 _ _ Ht). congruence. }
  assert (c :: s2 = drop (length s1) t1 ++ d :: t2) as Hcs.
  { apply (f_equal (drop (length s1))) in Ht.
    by rewrite drop_app_length, drop_app_le in Ht. }
  rewrite Hcs, cons_middle, app_assoc. f_equal.
  rewrite take_app_length'; [done|]. rewrite length_app, length_drop. simpl. lia.
Qed.

(** Trimming returns its argument when its two ends are outside the set. *)
Lemma trim_set_id set s :
  s ≠ [] → (∀ c, list.head s = Some c → c ∉ set) → (∀ c, list.last s = Some c → c ∉ set) →
  trim_set set s = s.
Proof.
  intros Hne Hhd Hlast. destruct s as [|c s]; [done|].
  assert (negb (in_set set c) = true) as Hc.
  { unfold in_set. rewrite negb_true_iff, bool_decide_eq_false. by apply Hhd. }
  unfold trim_set. simpl find_if. rewrite Hc.
  destruct (exists_last Hne) as (t&d&Ht). rewrite Ht.
  rewrite rfind_if_here; [|done|].
  - unfold substr. rewrite drop_0, Nat.sub_0_r. apply take_ge.
    rewrite length_app. simpl. lia.
  - unfold in_set. rewrite negb_true_iff, bool_decide_eq_false. apply Hlast.
    by rewrite Ht, last_snoc.
Qed.

Lemma trim_set_nil set s : Forall (λ c, c ∈ set) s → trim_set set s = [].
Proof.
  intros Hs. unfold trim_set. rewrite (proj2 (find_if_None _ s)); [done|].
  revert Hs. apply Forall_impl. intros c Hc. unfold in_set.
  by rewrite negb_false_iff, bool_decide_eq_true.
Qed.

(** ** Lemmas: getline *)
Lemma getlines_cons d l rest :
  d ∉ l → getlines d (l ++ d :: rest) = l :: getlines d rest.
Proof.
  induction l as [|c l IH]; intros Hd; simpl; [by rewrite aeqb_refl|].
  apply not_elem_of_cons in Hd as [Hne Hd].
  rewrite (proj2 (aeqb_neq c d)) by done. by rewrite IH.
Qed.

Lemma getlines_last d l : l ≠ [] → d ∉ l → getlines d l = [l].
Proof.
  induction l as [|c l IH]; intros Hne Hd; [done|]; simpl.
  apply not_elem_of_cons in Hd as [Hc Hd].
  rewrite (proj2 (aeqb_neq c d)) by done.
  destruct l as [|c' l]; [done|]. by rewrite IH.
Qed.

(** Joining non-empty pieces with the delimiter and reading them back. *)
Fixpoint join (d : ascii) (ls : list bytes) : bytes :=
  match ls with
  | [] => []
  | [l] => l
  | l :: ls' => l ++ d :: join d ls'
  end.

Lemma getlines_join d ls :
  Forall (λ l, l ≠ [] ∧ d ∉ l) ls → getlines d (join d ls) = ls.
Proof.
  induction 1 as [|l ls [Hne Hd] Hls IH]; [done|].
  destruct ls as [|l' ls]; simpl; [by apply getlines_last|].
  rewrite getlines_cons by done. by f_equal.
Qed.

Lemma getlines_no_delim d s : Forall (λ l, d ∉ l) (getlines d s).
Proof.
  induction s as [|c s IH]; simpl; [done|].
  destruct (aeqb c d) eqn:Hc.
  - constructor; [apply not_elem_of_nil|done].
  - apply aeqb_neq in Hc. destruct (getlines d s) as [|l ls].
    + repeat constructor. rewrite list_elem_of_singleton. congruence.
    + apply Forall_cons_1 in IH as [Hl Hls]. constructor; [|done].
      rewrite not_elem_of_cons. auto.
Qed.

(** ** Lemmas: numbers *)
Lemma digit_char_spec d :
  0 ≤ d < 10 → isdigit (digit_char d) = true ∧ digit_val (digit_char d) = d.
Proof.
  intros Hd. replace d with (Z.of_nat (Z.to_nat d)) by lia.
  assert (Z.to_nat d < 10)%nat as Hlt by lia. revert Hlt. generalize (Z.to_nat d).
  intros n Hn. do 10 (destruct n as [|n]; [by vm_compute|]). lia.
Qed.

Lemma digits_go_scan fuel n :
  0 ≤ n < 10 ^ Z.of_nat (S fuel) →
  ∃ k, 0 ≤ k ∧ ∀ a acc,
    scan_digits a (digits_go 10 fuel n acc) = scan_digits (a * 10 ^ k + n) acc.
Proof.
  revert n. induction fuel as [|f IH]; intros n Hn.
  { exists 1. split; [lia|]. intros a acc. simpl in Hn |- *.
    rewrite Z.mod_small by lia. destruct (digit_char_spec n) as [-> ->]; [lia|].
    f_equal. lia. }
  simpl digits_go. destruct (Z.ltb_spec n 10) as [Hlt|Hge].
  { exists 1. split; [lia|]. intros a acc. simpl.
    rewrite Z.mod_small by lia. destruct (digit_char_spec n) as [-> ->]; [lia|].
    f_equal. lia. }
  destruct (IH (n / 10)) as (k&Hk&Hscan).
  { rewrite Nat2Z.inj_succ, Z.pow_succ_r in Hn by lia. split.
    - apply Z.div_pos; lia.
    - apply Z.div_lt_upper_bound; lia. }
  exists (k + 1). split; [lia|]. intros a acc. rewrite Hscan. simpl.
  destruct (digit_char_spec (n `mod` 10)) as [-> ->]; [apply Z.mod_pos_bound; lia|].
  f_equal. rewrite Z.pow_add_r, Z.pow_1_r by lia.
  pose proof (Z.div_mod n 10). lia.
Qed.

Lemma dec_fuel n : 0 ≤ n → n < 10 ^ Z.of_nat (S (Z.to_nat (Z.log2 n))).
Proof.
  intros Hn. rewrite Nat2Z.inj_succ, Z2Nat.id by apply Z.log2_nonneg.
  destruct (Z.eq_dec n 0) as [->|]; [done|].
  apply Z.lt_le_trans with (2 ^ Z.succ (Z.log2 n)); [apply Z.log2_spec; lia|].
  apply Z.pow_le_mono_l. lia.
Qed.

Lemma scan_to_dec n rest :
  0 ≤ n → scan_digits 0 (to_dec n ++ rest) = scan_digits n rest.
Proof.
  intros Hn. assert (∀ fuel m acc, digits_go 10 fuel m acc ++ rest =
    digits_go 10 fuel m (acc ++ rest)) as Happ.
  { intros fuel. induction fuel as [|f IH]; intros m acc; simpl; [done|].
    destruct (m <? 10); [done|]. by rewrite IH. }
  unfold to_dec. rewrite Happ. simpl app.
  destruct (digits_go_scan (Z.to_nat (Z.log2 n)) n) as (k&_&->).
  { split; [done|]. by apply dec_fuel. }
  done.
Qed.

Lemma digits_go_head fuel n acc :
  0 ≤ n → ∃ c l, digits_go 10 fuel n acc = c :: l ∧ isdigit c = true.
Proof.
  revert n acc. induction fuel as [|f IH]; intros n acc Hn; simpl.
  - eexists _, _. split; [done|]. apply digit_char_spec, Z.mod_pos_bound. lia.
  - destruct (n <? 10).
    + eexists _, _. split; [done|]. apply digit_char_spec, Z.mod_pos_bound. lia.
    + apply IH, Z.div_pos; lia.
Qed.

Lemma digits_go_digits fuel n acc :
  0 ≤ n → Forall (λ c, isdigit c = true) acc →
  Forall (λ c, isdigit c = true) (digits_go 10 fuel n acc).
Proof.
  revert n acc. induction fuel as [|f IH]; intros n acc Hn Hacc; simpl.
  all: assert (Forall (λ c, isdigit c = true) (digit_char (n `mod` 10) :: acc))
    by (constructor; [apply digit_char_spec, Z.mod_pos_bound; lia|done]).
  - done.
  - destruct (n <? 10); [done|]. apply IH; [apply Z.div_pos; lia|done].
Qed.

Lemma to_dec_digits n : 0 ≤ n → Forall (λ c, isdigit c = true) (to_dec n).
Proof. intros. by apply digits_go_digits. Qed.

Lemma to_dec_ne n : to_dec n ≠ [].
Proof.
  assert (∀ fuel m acc, digits_go 10 fuel m acc ≠ []) as H; [|apply H].
  intros fuel. induction fuel as [|f IH]; intros m acc; simpl; [done|].
  destruct (m <? 10); [done|]. apply IH.
Qed.

(** A byte that is not a digit does not occur in a printed number. *)
Lemma to_dec_not_in n c : 0 ≤ n → isdigit c = false → c ∉ to_dec n.
Proof.
  intros Hn Hc Hin. pose proof (to_dec_digits n Hn) as Hd.
  rewrite list.Forall_forall in Hd. specialize (Hd c Hin). congruence.
Qed.

Lemma c_str_id s : nul ∉ s → c_str s = s.
Proof.
  intros Hs. unfold c_str, find_char. rewrite (proj2 (find_if_None _ s)); [done|].
  apply list.Forall_forall. intros c Hc. apply aeqb_neq. by intros <-.
Qed.

Lemma isdigit_not_sign c :
  isdigit c = true → isspace c = false ∧ c ≠ "-"%char ∧ c ≠ "+"%char.
Proof. destruct c as [[] [] [] [] [] [] [] []]; vm_compute; intros; repeat split; congruence. Qed.

Lemma strtoul_scan_digit c s :
  isdigit c = true →
  strtoul_scan (c :: s) =
    let '(v, rest) := scan_digits 0 (c :: s) in
    if v <? 2 ^ 64 then Some (v, false, rest) else Some (2 ^ 64 - 1, true, rest).
Proof.
  intros Hc. destruct (isdigit_not_sign c Hc) as (Hsp&Hm&Hp).
  unfold strtoul_scan. simpl skip_space. rewrite Hsp.
  assert ((match c :: s with
           | "-"%char :: t' => (true, t')
           | "+"%char :: t' => (false, t')
           | _ => (false, c :: s) end) = (false, c :: s)) as ->.
  { destruct c as [[] [] [] [] [] [] [] []]; done. }
  by rewrite Hc.
Qed.

Lemma strtoul_scan_to_dec n : 0 ≤ n < 2 ^ 64 → strtoul_scan (to_dec n) = Some (n, false, []).
Proof.
  intros Hn. pose proof (scan_to_dec n [] ltac:(lia)) as Hscan.
  rewrite app_nil_r in Hscan.
  destruct (digits_go_head (Z.to_nat (Z.log2 n)) n []) as (c&l&Hcl&Hc); [lia|].
  unfold to_dec in *. rewrite Hcl in *. rewrite strtoul_scan_digit by done.
  rewrite Hscan. simpl. by rewrite (proj2 (Z.ltb_lt n (2 ^ 64))) by lia.
Qed.

Lemma strtoul_to_dec n : 0 ≤ n < 2 ^ 64 → strtoul (to_dec n) = (n, []).
Proof.
  intros Hn. unfold strtoul. rewrite c_str_id.
  - by rewrite strtoul_scan_to_dec.
  - by apply to_dec_not_in; [lia|].
Qed.

Lemma stoul_to_dec n : 0 ≤ n < 2 ^ 64 → stoul (to_dec n) = Ok n.
Proof.
  intros Hn. unfold stoul. rewrite c_str_id.
  - by rewrite strtoul_scan_to_dec.
  - by apply to_dec_not_in; [lia|].
Qed.

Lemma scan_digits_nonneg a s : 0 ≤ a → 0 ≤ (scan_digits a s).1.
Proof.
  revert a. induction s as [|c s IH]; intros a Ha; simpl; [done|].
  destruct (isdigit c) eqn:Hc; [|done]. apply IH.
  unfold isdigit in Hc. apply andb_prop in Hc as [Hc _].
  apply Nat.leb_le in Hc. unfold digit_val. lia.
Qed.

Lemma strtoul_scan_bound s v o rest :
  strtoul_scan s = Some (v, o, rest) → 0 ≤ v < 2 ^ 64.
Proof.
  assert (∀ (neg : bool) t, match t with
     | [] => None
     | c :: _ =>
       if isdigit c then
         let '(v, rest) := scan_digits 0 t in
         if v <? 2 ^ 64 then Some (if neg then u64 (- v) else v, false, rest)
         else Some (2 ^ 64 - 1, true, rest)
       else None end = Some (v, o, rest) → 0 ≤ v < 2 ^ 64) as Hgo.
  { intros neg [|c t]; [done|]. destruct (isdigit c); [|done].
    pose proof (scan_digits_nonneg 0 (c :: t)) as Hnn.
    destruct (scan_digits 0 (c :: t)) as [w r]. simpl in Hnn.
    destruct (Z.ltb_spec w (2 ^ 64)); intros [= <- _ _]; [|lia].
    destruct neg; [by apply wrap_bound|lia]. }
  unfold strtoul_scan. case_match. apply Hgo.
Qed.

Lemma stoul_bound s v : stoul s = Ok v → 0 ≤ v < 2 ^ 64.
Proof.
  unfold stoul. destruct (strtoul_scan (c_str s)) as [[[w o] r]|] eqn:Hs; [|done].
  destruct o; [done|]. intros [= <-]. by eapply strtoul_scan_bound.
Qed.
