(* ===== verification/Names.v ===== *)
(** * Kernel names and string utilities ([src/utils.cc], [inc/utils.h])

    How the host side derives the name of the instrumented clone of a kernel,
    how the LLVM passes name that clone, and the string helpers ([split],
    [trim], [clip...]) the interceptor uses. *)
From S2P Require Import Prelude StdString.

Definition ARG_ALIGN : Z := 8.

Definition roundArgsLength (number : Z) : Z :=
  u64 (u64 (number + (ARG_ALIGN - 1)) / ARG_ALIGN * ARG_ALIGN).

Definition util_ends_with_substring (str suffix : bytes) : bool :=
  if (length str <? length suffix)%nat then false
  else bool_decide (substr str (length str - length suffix) (length suffix) = suffix).

(** A position as the [size_t] the C++ code computes with. *)
Definition pos_of (o : option nat) : Z :=
  match o with Some n => Z.of_nat n | None => npos end.

(** [s.insert(p, t)] *)
Definition insert_at (s : bytes) (p : Z) (t : bytes) : bytes :=
  take (Z.to_nat p) s ++ t ++ drop (Z.to_nat p) s.

Definition OMNIPROBE_PREFIX : bytes := lit "__amd_crk_".

Definition getInstrumentedName (func_decl : bytes) : bytes :=
  match rfind_char ")"%char func_decl with
  | Some pos =>
      let result := take pos func_decl ++ lit ", void*)" ++ drop (S pos) func_decl in
      let pos := pos_of (find_char " "%char result) in
      let ret_type := pos_of (find_char "("%char result) in
      let pos := if ret_type <? pos then npos else pos in
      insert_at result (u64 (pos + 1)) OMNIPROBE_PREFIX
  | None =>
      let result :=
        match rfind_sub (lit ".kd") func_decl with
        | Some pos => insert_at func_decl (Z.of_nat pos) (lit "Pv")
        | None => func_decl ++ lit "Pv"
        end in
      lit "__amd_crk_" ++ result
  end.

(** The name [cloneKernelWithExtraArg] gives the clone of a kernel. *)
Definition AugmentedName (orig : bytes) : bytes := lit "__amd_crk_" ++ orig ++ lit "Pv".

Definition clipKernelName (str : bytes) : bytes :=
  match rfind_char ")"%char str with Some p => take (S p) str | None => str end.

Definition clipInstrumentedKernelName (str : bytes) : bytes :=
  match rfind_char ","%char str with Some p => take p str ++ [")"%char] | None => str end.

(** [ltrim], [rtrim], [trim] of inc/utils.h. *)
Fixpoint ltrim (s : bytes) : bytes :=
  match s with [] => [] | c :: s' => if isspace c then ltrim s' else s end.
Definition rtrim (s : bytes) : bytes := reverse (ltrim (reverse s)).
Definition trim (s : bytes) : bytes := rtrim (ltrim s).

(** [split]: [cur] is the text between [first] and [it]. *)
Fixpoint split_go (d : ascii) (keepBlankFields : bool) (cur s : bytes) : list bytes :=
  match s with
  | [] => if keepBlankFields || negb (bool_decide (cur = [])) then [cur] else []
  | c :: s' =>
      if aeqb d c then
        if keepBlankFields || negb (bool_decide (cur = []))
        then cur :: split_go d keepBlankFields [] s'
        else split_go d keepBlankFields [] s'
      else split_go d keepBlankFields (cur ++ [c]) s'
  end.
Definition split (s : bytes) (delimiter : ascii) (keepBlankFields : bool) : list bytes :=
  split_go delimiter keepBlankFields [] s.

(** ** Lemmas on the insertion point *)
Implicit Types (c d : ascii) (s t r : bytes).

Lemma none_of_char c s : none_of (aeqb c) s ↔ c ∉ s.
Proof.
  rewrite list.Forall_forall. split.
  - intros H Hc. apply H in Hc. by rewrite aeqb_refl in Hc.
  - intros Hc d Hd. apply aeqb_neq. by intros ->.
Qed.

Lemma find_char_here c s t : c ∉ s → find_char c (s ++ c :: t) = Some (length s).
Proof. intros. by apply find_if_here; [apply none_of_char|apply aeqb_refl]. Qed.

Lemma rfind_char_here c s t : c ∉ t → rfind_char c (s ++ c :: t) = Some (length s).
Proof. intros. by apply rfind_if_here; [apply none_of_char|apply aeqb_refl]. Qed.

Lemma rfind_char_None c s : rfind_char c s = None ↔ c ∉ s.
Proof. unfold rfind_char. by rewrite rfind_if_None, none_of_char. Qed.

Lemma rfind_char_split c s i :
  rfind_char c s = Some i → ∃ s1 s2, s = s1 ++ c :: s2 ∧ length s1 = i ∧ c ∉ s2.
Proof.
  intros (s1&d&s2&->&<-&->%aeqb_eq&?%none_of_char)%rfind_if_Some. eauto.
Qed.

Lemma elem_of_split_first c s : c ∈ s → ∃ s1 s2, s = s1 ++ c :: s2 ∧ c ∉ s1.
Proof.
  intros Hc. destruct (find_char c s) as [i|] eqn:Hi.
  - apply find_if_split in Hi as (s1&d&s2&->&_&->%aeqb_eq&?%none_of_char). eauto.
  - by apply find_if_None, none_of_char in Hi.
Qed.

Lemma elem_of_insert_at c s p t : c ∈ insert_at s p t ↔ c ∈ s ∨ c ∈ t.
Proof.
  unfold insert_at. rewrite <-(take_drop (Z.to_nat p) s) at 3.
  rewrite !elem_of_app. tauto.
Qed.

(** Where [getInstrumentedName] inserts the prefix: after the first space when
    no parenthesis precedes it (the return type), else at the front. *)
Lemma insert_point (r1 r2 : bytes) :
  let r := r1 ++ " "%char :: r2 in
  " "%char ∉ r1 → Z.of_nat (length r) < npos →
  let pos := pos_of (find_char " "%char r) in
  let ret_type := pos_of (find_char "("%char r) in
  let pos' := if ret_type <? pos then npos else pos in
  u64 (pos' + 1) = if decide ("("%char ∈ r1) then 0 else Z.of_nat (length r1) + 1.
Proof.
  intros r Hsp Hlen pos ret_type pos'.
  assert (length r1 < length r)%nat as Hr1
    by (unfold r; rewrite length_app; simpl; lia).
  assert (find_char " "%char r = Some (length r1)) as Hfind
    by by apply find_char_here.
  unfold pos', pos, ret_type. rewrite Hfind. simpl pos_of at 2 3.
  destruct (decide _) as [Hin|Hout].
  - destruct (elem_of_split_first _ _ Hin) as (a&b&Hab&Ha).
    replace (find_char "("%char r) with (Some (length a)).
    + simpl. replace (_ <? _) with true; [done|]. symmetry. apply Z.ltb_lt.
      rewrite Hab, length_app. simpl. lia.
    + unfold r. rewrite Hab, <-app_assoc. simpl. by rewrite find_char_here.
  - replace (_ <? Z.of_nat (length r1)) with false; cycle 1.
    { symmetry. apply Z.ltb_ge. unfold r, find_char.
      rewrite find_if_app by by apply none_of_char.
      destruct (find_if _ _); simpl; unfold npos in *; lia. }
    apply wrap_small. unfold npos in *. lia.
Qed.

(** ** The name of the clone, computed by the host and by the compiler pass *)

(** A left inverse of [getInstrumentedName]. *)
Definition uninstrument (t : bytes) : bytes :=
  match rfind_char ")"%char t with
  | Some _ =>
      let r := match find_char " "%char t with
               | Some a => if decide ("("%char ∈ take a t) then drop 10 t
                           else take (a + 1) t ++ drop (a + 11) t
               | None => drop 10 t
               end in
      match rfind_char ")"%char r with
      | Some i => take (i - 7) r ++ drop i r
      | None => r
      end
  | None =>
      let r := drop 10 t in
      match rfind_sub (lit ".kd") r with
      | Some p => take (p - 2) r ++ drop p r
      | None => take (length r - 2) r
      end
  end.

Lemma no_paren_result s1 s2 :
  ")"%char ∉ s2 →
  let r := s1 ++ lit ", void*)" ++ s2 in
  rfind_char ")"%char r = Some (length s1 + 7)%nat ∧
  take (length s1 + 7 - 7) r ++ drop (length s1 + 7) r = s1 ++ ")"%char :: s2.
Proof.
  intros Hs2 r. assert (r = (s1 ++ lit ", void*") ++ ")"%char :: s2) as Hr
    by (unfold r; by rewrite <-app_assoc).
  assert (length (s1 ++ lit ", void*") = length s1 + 7)%nat as Hlen
    by by rewrite length_app.
  split.
  - rewrite Hr, rfind_char_here by done. by rewrite Hlen.
  - rewrite Nat.add_sub. unfold r at 1. rewrite take_app_length.
    by rewrite Hr, <-Hlen, drop_app_length.
Qed.

(** Removing the prefix recovers the string it was inserted into. *)
Lemma strip_prefix (r1 r2 : bytes) :
  " "%char ∉ r1 →
  let r := r1 ++ " "%char :: r2 in
  let t := insert_at r (if decide ("("%char ∈ r1) then 0 else Z.of_nat (length r1) + 1)
             OMNIPROBE_PREFIX in
  match find_char " "%char t with
  | Some a => if decide ("("%char ∈ take a t) then drop 10 t
              else take (a + 1) t ++ drop (a + 11) t
  | None => drop 10 t
  end = r.
Proof.
  intros Hsp r t. destruct (decide ("("%char ∈ r1)) as [Hin|Hout].
  - assert (t = (OMNIPROBE_PREFIX ++ r1) ++ " "%char :: r2) as -> by done.
    rewrite find_char_here, take_app_length.
    + rewrite decide_True by (apply elem_of_app; auto). by rewrite <-app_assoc.
    + rewrite not_elem_of_app. split; [|done]. by apply (bool_decide_unpack _).
  - assert (t = r1 ++ " "%char :: OMNIPROBE_PREFIX ++ r2) as ->.
    { unfold t, insert_at, r.
      replace (Z.to_nat (Z.of_nat (length r1) + 1)) with (S (length r1)) by lia.
      by rewrite take_middle, drop_middle, <-app_assoc. }
    rewrite find_char_here, take_app_length by done.
    rewrite decide_False by done. rewrite Nat.add_1_r, take_middle.
    replace (length r1 + 11)%nat with (S (length r1) + 10)%nat by lia.
    rewrite <-drop_drop, drop_middle. unfold r. by rewrite <-app_assoc.
Qed.

Lemma uninstrument_paren s :
  ")"%char ∈ s → Z.of_nat (length s) + 7 < npos → uninstrument (getInstrumentedName s) = s.
Proof.
  intros Hin Hlen. unfold getInstrumentedName.
  destruct (rfind_char ")"%char s) as [i|] eqn:Hi; [|by apply rfind_char_None in Hi].
  apply rfind_char_split in Hi as (s1&s2&->&<-&Hs2).
  rewrite take_app_length, drop_middle.
  destruct (no_paren_result s1 s2 Hs2) as [Hr Hback]. set (r := s1 ++ _ ++ s2) in *.
  destruct (elem_of_split_first " "%char r) as (r1&r2&Hr12&Hsp).
  { unfold r. rewrite !elem_of_app. right. left. by apply (bool_decide_unpack _). }
  assert (Z.of_nat (length r) < npos) as Hlenr.
  { unfold r. rewrite !length_app in *. simpl in *. lia. }
  rewrite Hr12 in Hlenr |- *.
  rewrite (insert_point r1 r2 Hsp Hlenr). unfold uninstrument.
  destruct (rfind_char ")"%char (insert_at _ _ _)) eqn:Ht.
  - rewrite (strip_prefix r1 r2 Hsp), <-Hr12, Hr. done.
  - exfalso. apply rfind_char_None in Ht. apply Ht.
    assert (")"%char ∈ r1 ++ " "%char :: r2) as Hp.
    { rewrite <-Hr12. unfold r. rewrite !elem_of_app. right. left.
      by apply (bool_decide_unpack _). }
    apply elem_of_insert_at. by left.
Qed.

Lemma drop_prefix s : drop 10 (lit "__amd_crk_" ++ s) = s.
Proof. done. Qed.

(** Appending "Pv" does not create an occurrence of ".kd". *)
Lemma no_sub_kd_Pv s : no_sub (lit ".kd") s → no_sub (lit ".kd") (s ++ lit "Pv").
Proof.
  intros Hs s1 s2 Heq. apply (f_equal reverse) in Heq.
  rewrite !reverse_app in Heq.
  change (reverse (lit "Pv")) with (lit "vP") in Heq.
  change (reverse (lit ".kd")) with (lit "dk.") in Heq.
  destruct (reverse s2) as [|x [|y l]]; [discriminate..|].
  injection Heq as _ _ Heq.
  apply (Hs s1 (reverse l)). rewrite <-(reverse_involutive s).
  by rewrite Heq, !reverse_app, reverse_involutive.
Qed.

Lemma uninstrument_plain s :
  ")"%char ∉ s → uninstrument (getInstrumentedName s) = s.
Proof.
  intros Hno. unfold getInstrumentedName. rewrite (proj2 (rfind_char_None _ s) Hno).
  destruct (rfind_sub (lit ".kd") s) as [p|] eqn:Hp.
  - apply rfind_sub_Some in Hp as (s1&c&u&->&<-&Hst&Hu); [|done].
    assert (insert_at (s1 ++ c :: u) (Z.of_nat (length s1)) (lit "Pv")
            = (s1 ++ lit "Pv") ++ c :: u) as ->.
    { unfold insert_at. rewrite Nat2Z.id, take_app_length, drop_app_length.
      by rewrite <-app_assoc. }
    unfold uninstrument. rewrite (proj2 (rfind_char_None _ _)).
    + rewrite drop_prefix, rfind_sub_last by done.
      rewrite drop_app_length, length_app, Nat.add_sub, <-app_assoc.
      by rewrite take_app_length.
    + apply not_elem_of_app in Hno as [Hs1 Hu'].
      rewrite !not_elem_of_app.
      split_and!; try done; by apply (bool_decide_unpack _).
  - unfold uninstrument. rewrite (proj2 (rfind_char_None _ _)).
    + rewrite drop_prefix, (proj2 (rfind_sub_None (lit ".kd") _)).
      * rewrite length_app, Nat.add_sub. apply take_app_length.
      * by apply no_sub_kd_Pv, rfind_sub_None.
    + rewrite !not_elem_of_app.
      split_and!; try done; by apply (bool_decide_unpack _).
Qed.

(** ** Lemmas on [split] and [roundArgsLength] *)
Lemma split_go_keep d cur s : join d (split_go d true cur s) = cur ++ s.
Proof.
  revert cur. induction s as [|c s IH]; intros cur; simpl; [by rewrite app_nil_r|].
  destruct (aeqb d c) eqn:Hc.
  - apply aeqb_eq in Hc as ->. specialize (IH []).
    destruct (split_go c true [] s) as [|l ls] eqn:Hs; [|by simpl in *; rewrite IH].
    destruct s; simpl in Hs; [done|]. by case_match.
  - rewrite IH. by rewrite <-app_assoc.
Qed.

Lemma split_go_no_delim d keep cur s :
  d ∉ cur → Forall (λ l, d ∉ l) (split_go d keep cur s).
Proof.
  revert cur. induction s as [|c s IH]; intros cur Hcur; simpl.
  { case_match; by repeat constructor. }
  destruct (aeqb d c) eqn:Hc.
  - case_match; [constructor; [done|]|]; apply IH, not_elem_of_nil.
  - apply aeqb_neq in Hc. apply IH.
    rewrite not_elem_of_app, list_elem_of_singleton. auto.
Qed.

Lemma split_go_drop d cur s :
  split_go d false cur s = filter (λ l, l ≠ []) (split_go d true cur s).
Proof.
  revert cur. induction s as [|c s IH]; intros cur; simpl.
  { rewrite filter_cons. by destruct cur. }
  destruct (aeqb d c); [|apply IH].
  rewrite filter_cons, <-IH. by destruct cur.
Qed.

Lemma roundArgsLength_spec n :
  0 ≤ n → n + 7 < 2 ^ 64 →
  n ≤ roundArgsLength n < n + 8 ∧ roundArgsLength n `mod` 8 = 0.
Proof.
  intros Hn Hlt. unfold roundArgsLength, ARG_ALIGN.
  rewrite (wrap_small 64 (n + (8 - 1))) by lia.
  pose proof (Z.div_mod (n + (8 - 1)) 8). pose proof (Z.mod_pos_bound (n + (8 - 1)) 8).
  rewrite wrap_small by lia. split; [lia|]. apply Z_mod_mult.
Qed.

(** ** Properties *)

Lemma instrumented_plain s :
  ")"%char ∉ s → no_sub (lit ".kd") s → getInstrumentedName s = AugmentedName s.
Proof.
  intros Hno Hkd. unfold getInstrumentedName.
  by rewrite (proj2 (rfind_char_None _ s) Hno), (proj2 (rfind_sub_None _ s) Hkd).
Qed.

(** C6. The name the host looks up for the instrumented clone of a kernel is
    the name the compiler pass gave that clone: for a symbol without a
    parameter list, [getInstrumentedName] computes exactly the pass's
    [AugmentedName], and for a kernel descriptor symbol ["<symbol>.kd"] it
    computes the descriptor symbol of the clone. *)
Theorem getInstrumentedName_agrees_with_pass s :
  ")"%char ∉ s →
  (no_sub (lit ".kd") s → getInstrumentedName s = AugmentedName s) ∧
  getInstrumentedName (s ++ lit ".kd") = AugmentedName s ++ lit ".kd".
Proof.
  intros Hno. split; [by apply instrumented_plain|].
  unfold getInstrumentedName. rewrite (proj2 (rfind_char_None _ _)), rfind_sub_here.
  - unfold insert_at, AugmentedName.
    rewrite Nat2Z.id, take_app_length, drop_app_length, <-!app_assoc. done.
  - done.
  - rewrite not_elem_of_app. split; [done|]. by apply (bool_decide_unpack _).
Qed.

Lemma getInstrumentedName_agrees_with_pass_witness :
  (")"%char ∉ lit "_Z6strideP") ∧
  getInstrumentedName (lit "_Z6strideP" ++ lit ".kd")
  = AugmentedName (lit "_Z6strideP") ++ lit ".kd".
Proof.
  assert (")"%char ∉ lit "_Z6strideP") as H by by apply (bool_decide_unpack _).
  split; [exact H|]. exact (proj2 (getInstrumentedName_agrees_with_pass _ H)).
Defined.

(** C5. No two kernels are given the same instrumented name, whatever mix of
    demangled signatures, mangled names and kernel descriptor symbols they
    are; so the lookup by instrumented name never returns the clone of another
    kernel. *)
Theorem getInstrumentedName_inj s t :
  Z.of_nat (length s) + 7 < npos → Z.of_nat (length t) + 7 < npos →
  getInstrumentedName s = getInstrumentedName t → s = t.
Proof.
  intros Hs Ht Heq.
  assert (∀ u, Z.of_nat (length u) + 7 < npos →
            uninstrument (getInstrumentedName u) = u) as Hinv.
  { intros u Hu. destruct (decide (")"%char ∈ u)).
    - by apply uninstrument_paren.
    - by apply uninstrument_plain. }
  rewrite <-(Hinv s Hs), <-(Hinv t Ht). by f_equal.
Qed.

Lemma getInstrumentedName_inj_witness :
  getInstrumentedName (lit "void k(int)") = lit "void __amd_crk_k(int, void*)" ∧
  lit "void k(int)" = lit "void k(int)".
Proof.
  split; [by vm_compute|].
  apply getInstrumentedName_inj; [by vm_compute..|reflexivity].
Defined.

(** [split] with [keepBlankFields] cuts the string at exactly the
    delimiters: joining the fields gives the string back and no field contains
    the delimiter; without it, the fields are the non-empty ones of the
    former. *)
Theorem split_correct s d :
  join d (split s d true) = s ∧
  Forall (λ l, d ∉ l) (split s d true) ∧
  split s d false = filter (λ l, l ≠ []) (split s d true).
Proof.
  split_and!.
  - apply split_go_keep.
  - apply split_go_no_delim, not_elem_of_nil.
  - apply split_go_drop.
Qed.
