(* ===== verification/KernArgs.v ===== *)
(** * Kernel arguments: layout metadata and kernarg rewriting

    [KernelArgHelper] ([src/utils.cc]) reads the argument layout of every
    kernel out of the code-object metadata; [hsaInterceptor::fixupKernArgs]
    ([src/interceptor.cc]) uses that layout to build the kernarg segment of the
    instrumented clone, which takes one more pointer. *)
From S2P Require Import Prelude StdString Names.

(** ** Byte buffers *)
Abbreviation buffer := (list Z).

Fixpoint le_split (n : nat) (v : Z) : buffer :=
  match n with O => [] | S n' => v `mod` 256 :: le_split n' (v / 256) end.
Fixpoint le_combine (bs : buffer) : Z :=
  match bs with [] => 0 | b :: bs' => b + 256 * le_combine bs' end.

Definition sizeof_ptr : Z := 8.

(** [memset(dst, 0, n)], [memcpy(dst + doff, src + soff, n)] and a 64-bit store;
    touching bytes outside a buffer is undefined behaviour. *)
Definition memset_zero (dst : buffer) (n : Z) : res buffer :=
  if n <=? Z.of_nat (length dst) then
    Ok (splice 0 (replicate (Z.to_nat n) 0) dst)
  else Err FUB.

Definition memcpy (dst : buffer) (doff : Z) (src : buffer) (soff n : Z) : res buffer :=
  if (doff + n <=? Z.of_nat (length dst)) && (soff + n <=? Z.of_nat (length src)) then
    Ok (splice (Z.to_nat doff) (take (Z.to_nat n) (drop (Z.to_nat soff) src)) dst)
  else Err FUB.

Definition store64 (dst : buffer) (off v : Z) : res buffer :=
  if off + 8 <=? Z.of_nat (length dst) then
    Ok (splice (Z.to_nat off) (le_split 8 v) dst)
  else Err FUB.

(** ** [arg_descriptor_t] *)
Record arg_descriptor_t := ArgDescriptor {
  explicit_args_length : Z;
  explicit_args_count : Z;
  hidden_args_length : Z;
  kernarg_length : Z;
  private_segment_size : Z;
  group_segment_size : Z;
  clone_hidden_args_length : Z;
}.

#[export] Instance arg_descriptor_eq_dec : EqDecision arg_descriptor_t.
Proof. solve_decision. Defined.

Definition zero_descriptor : arg_descriptor_t := ArgDescriptor 0 0 0 0 0 0 0.

Definition not_null {A} (p : option A) : res A :=
  match p with Some a => Ok a | None => Err FAbort end.

(** [hsaInterceptor::fixupKernArgs]; a pointer is [None] when null. *)
Definition fixupKernArgs (dst src : option buffer) (comms : Z) (desc : arg_descriptor_t)
    : res buffer :=
  let! d := not_null dst in
  let! s := not_null src in
  let! d := memset_zero d (kernarg_length desc) in
  let! d := memcpy d 0 s 0 (u64 (explicit_args_length desc - sizeof_ptr)) in
  let hidden_args_dst := explicit_args_length desc in
  let hidden_args_src := u64 (explicit_args_length desc - sizeof_ptr) in
  let! d :=
    if clone_hidden_args_length desc =? 0 then Ok d
    else
      let! _ := assertb (clone_hidden_args_length desc <=?
                         u64 (kernarg_length desc - explicit_args_length desc)) in
      memcpy d hidden_args_dst s hidden_args_src (clone_hidden_args_length desc) in
  store64 d (u64 (explicit_args_length desc - sizeof_ptr)) comms.

(** ** Code-object metadata

    The comgr library is an interface: a metadata node has a kind, a map node
    can be looked up, a list node has a size and elements, a string node has
    contents; [None] is a status other than success. *)
Inductive md_kind := KIND_MAP | KIND_LIST | KIND_STRING | KIND_NULL.

#[export] Instance md_kind_eq_dec : EqDecision md_kind.
Proof. solve_decision. Defined.

Class Comgr (node : Type) := {
  get_metadata_kind : node → option md_kind;
  metadata_lookup : node → bytes → option node;
  get_metadata_list_size : node → option nat;
  index_list_metadata : node → nat → option node;
  comgr_get_metadata_string : node → option bytes;
}.

(** [CHECK_COMGR(call)] *)
Definition check_comgr {A} (o : option A) : res A :=
  match o with Some a => Ok a | None => Err (FExit 1) end.

Section KernelArgHelper.
Context {node : Type} `{Comgr node}.
(** [kernelDB::demangleName] *)
Context (demangleName : bytes → bytes).

Definition get_metadata_string (n : node) : res bytes :=
  let! kind := check_comgr (get_metadata_kind n) in
  if decide (kind = KIND_STRING) then check_comgr (comgr_get_metadata_string n)
  else Ok [].

(** [std::stoul(get_metadata_string(lookup(map, key)))], the lookup first *)
Definition md_number (n : node) : res Z :=
  let! s := get_metadata_string n in stoul s.

(** One iteration of the loop over the kernel's arguments. *)
Definition accumulate_arg (args : node) (desc : arg_descriptor_t) (j : nat)
    : res arg_descriptor_t :=
  let! parm_map := check_comgr (index_list_metadata args j) in
  let! parm_kind := check_comgr (get_metadata_kind parm_map) in
  if decide (parm_kind = KIND_MAP) then
    let! parm_size := check_comgr (metadata_lookup parm_map (lit ".size")) in
    let! parm_type := check_comgr (metadata_lookup parm_map (lit ".value_kind")) in
    let! parm_offset := check_comgr (metadata_lookup parm_map (lit ".offset")) in
    let! arg_size := md_number parm_size in
    let! arg_offset := md_number parm_offset in
    let! parm_name := get_metadata_string parm_type in
    Ok (if starts_with (lit "hidden_") parm_name then
          ArgDescriptor (explicit_args_length desc) (explicit_args_count desc)
            (u64 (arg_offset + arg_size)) (kernarg_length desc)
            (private_segment_size desc) (group_segment_size desc)
            (clone_hidden_args_length desc)
        else
          ArgDescriptor (u64 (arg_offset + arg_size)) (u64 (explicit_args_count desc + 1))
            (hidden_args_length desc) (kernarg_length desc)
            (private_segment_size desc) (group_segment_size desc)
            (clone_hidden_args_length desc))
  else Ok desc.

(** The last two assignments to the descriptor. *)
Definition finish_descriptor (desc : arg_descriptor_t) : arg_descriptor_t :=
  let explicit := Z.min (roundArgsLength (explicit_args_length desc)) (kernarg_length desc) in
  ArgDescriptor explicit (explicit_args_count desc)
    (u64 (kernarg_length desc - explicit)) (kernarg_length desc)
    (private_segment_size desc) (group_segment_size desc)
    (clone_hidden_args_length desc).

(** The body of the loop over kernels for a node of kind map. *)
Definition kernel_entry (value : node) : res (bytes * arg_descriptor_t) :=
  let! field := check_comgr (metadata_lookup value (lit ".symbol")) in
  let! symbol := get_metadata_string field in
  let strName := demangleName symbol in
  let! args := check_comgr (metadata_lookup value (lit ".args")) in
  let! kind := check_comgr (get_metadata_kind args) in
  let! kernarg_len := check_comgr (metadata_lookup value (lit ".kernarg_segment_size")) in
  let! private_size := check_comgr (metadata_lookup value (lit ".private_segment_fixed_size")) in
  let! group_size := check_comgr (metadata_lookup value (lit ".group_segment_fixed_size")) in
  let! private := md_number private_size in
  let! group := md_number group_size in
  let! len := md_number kernarg_len in
  let desc := ArgDescriptor 0 0 0 len (u32 private) (u32 group) 0 in
  let! desc :=
    if decide (kind = KIND_LIST) then
      let! arg_count := check_comgr (get_metadata_list_size args) in
      res_fold (accumulate_arg args) desc (seq 0 arg_count)
    else Ok desc in
  Ok (strName, finish_descriptor desc).

Definition kernel_step (kernels : node) (kernels_ : gmap bytes arg_descriptor_t) (i : nat)
    : res (gmap bytes arg_descriptor_t) :=
  let! value := check_comgr (index_list_metadata kernels i) in
  let! kind := check_comgr (get_metadata_kind value) in
  if decide (kind = KIND_MAP) then
    let! '(strName, desc) := kernel_entry value in
    Ok (<[strName := desc]> kernels_)
  else Ok kernels_.

(** [KernelArgHelper::computeKernargData]: adds to [kernels_]. *)
Definition computeKernargData (exec_map : node) (kernels_ : gmap bytes arg_descriptor_t)
    : res (gmap bytes arg_descriptor_t) :=
  let! kernels := check_comgr (metadata_lookup exec_map (lit "amdhsa.kernels")) in
  let! size := check_comgr (get_metadata_list_size kernels) in
  res_fold (kernel_step kernels) kernels_ (seq 0 size).

(** [KernelArgHelper::addCodeObject], given the executable's metadata node. *)
Definition helper_addCodeObject (metadata : option node) (kernels_ : gmap bytes arg_descriptor_t)
    : res (gmap bytes arg_descriptor_t) :=
  let! metadata := check_comgr metadata in
  let! kind := check_comgr (get_metadata_kind metadata) in
  if decide (kind = KIND_MAP) then computeKernargData metadata kernels_ else Ok kernels_.
End KernelArgHelper.

(** [KernelArgHelper::getArgDescriptor] *)
Definition helper_getArgDescriptor (kernels_ : gmap bytes arg_descriptor_t) (strName : bytes)
    : option arg_descriptor_t := kernels_ !! strName.

(** ** Lemmas: little-endian words and splices *)
Lemma le_combine_split n v : 0 ≤ v < 256 ^ Z.of_nat n → le_combine (le_split n v) = v.
Proof.
  revert v. induction n as [|n IH]; intros v Hv.
  { simpl in Hv. simpl. lia. }
  simpl le_split. simpl le_combine.
  rewrite Nat2Z.inj_succ, Z.pow_succ_r in Hv by lia.
  rewrite IH; [pose proof (Z.div_mod v 256); lia|].
  split; [apply Z.div_pos; lia|apply Z.div_lt_upper_bound; lia].
Qed.

Lemma length_le_split n v : length (le_split n v) = n.
Proof. revert v. induction n; intros; simpl; auto. Qed.

Lemma le_split_bytes n v : Forall (λ b, 0 ≤ b < 256) (le_split n v).
Proof.
  revert v. induction n; intros v; simpl; constructor; [|done].
  apply Z.mod_pos_bound. lia.
Qed.

Lemma memset_zero_app (a c : buffer) n :
  n = Z.of_nat (length a) → memset_zero (a ++ c) n = Ok (replicate (length a) 0 ++ c).
Proof.
  intros ->. unfold memset_zero.
  rewrite (proj2 (Z.leb_le _ _)) by (rewrite length_app; lia).
  rewrite Nat2Z.id. f_equal. rewrite <-(app_nil_l (a ++ c)).
  apply (splice_app [] a). by rewrite length_replicate.
Qed.

Lemma memcpy_app (a old c s1 b s2 : buffer) doff soff n :
  doff = Z.of_nat (length a) → soff = Z.of_nat (length s1) →
  n = Z.of_nat (length b) → length old = length b →
  memcpy (a ++ old ++ c) doff (s1 ++ b ++ s2) soff n = Ok (a ++ b ++ c).
Proof.
  intros -> -> -> Hold. unfold memcpy.
  rewrite !(proj2 (Z.leb_le _ _)) by (rewrite !length_app; lia). simpl.
  rewrite !Nat2Z.id, drop_app_length, take_app_length. f_equal. by apply splice_app.
Qed.

Lemma store64_app (a old c : buffer) off v :
  off = Z.of_nat (length a) → length old = 8%nat →
  store64 (a ++ old ++ c) off v = Ok (a ++ le_split 8 v ++ c).
Proof.
  intros -> Hold. unfold store64.
  rewrite (proj2 (Z.leb_le _ _)) by (rewrite !length_app; lia).
  rewrite Nat2Z.id. f_equal. apply splice_app. by rewrite length_le_split.
Qed.

(** The rewritten segment, block by block: [ex] are the explicit arguments of
    the original kernel, [hid] its hidden ones; [old] is the part of the
    destination the segment occupies and [tl] what follows it. *)
Lemma fixupKernArgs_blocks (ex hid rest old tl : buffer) (gap : nat) comms desc :
  explicit_args_length desc = Z.of_nat (length ex) + 8 →
  clone_hidden_args_length desc = Z.of_nat (length hid) →
  kernarg_length desc = Z.of_nat (length old) →
  length old = (length ex + 8 + length hid + gap)%nat →
  kernarg_length desc < 2 ^ 64 →
  fixupKernArgs (Some (old ++ tl)) (Some (ex ++ hid ++ rest)) comms desc
  = Ok (ex ++ le_split 8 comms ++ hid ++ replicate gap 0 ++ tl).
Proof.
  intros HE HH HK Hold HKlt. unfold fixupKernArgs. simpl res_bind.
  assert (u64 (explicit_args_length desc - sizeof_ptr) = Z.of_nat (length ex)) as ->.
  { rewrite HE. unfold sizeof_ptr. rewrite wrap_small; lia. }
  rewrite memset_zero_app by done. simpl res_bind.
  rewrite Hold, !replicate_add, <-!app_assoc.
  assert (∀ T S : buffer, memcpy (replicate (length ex) 0 ++ T) 0 (ex ++ S) 0
            (Z.of_nat (length ex)) = Ok (ex ++ T)) as ->.
  { intros T S. apply (memcpy_app [] (replicate (length ex) 0) T [] ex S); try done.
    by rewrite length_replicate. }
  cbn [res_bind]. rewrite HH.
  destruct (Z.eqb_spec (Z.of_nat (length hid)) 0) as [H0|H0].
  { destruct hid; [|simpl in H0; lia]. by apply (store64_app ex (replicate 8 0)). }
  rewrite HE, wrap_small by lia. unfold assertb.
  rewrite (proj2 (Z.leb_le _ _)) by lia. cbn [res_bind].
  rewrite (app_assoc ex (replicate 8 0)).
  rewrite memcpy_app; [|rewrite length_app, length_replicate; lia|done|done
                       |by rewrite length_replicate].
  simpl res_bind. rewrite <-app_assoc. by apply (store64_app ex (replicate 8 0)).
Qed.

(** ** Lemmas: the descriptors [computeKernargData] produces *)
Definition descriptor_ok (d : arg_descriptor_t) : Prop :=
  0 ≤ explicit_args_length d ≤ kernarg_length d ∧ kernarg_length d < 2 ^ 64 ∧
  hidden_args_length d = kernarg_length d - explicit_args_length d ∧
  (explicit_args_length d `mod` 8 = 0 ∨ explicit_args_length d = kernarg_length d) ∧
  clone_hidden_args_length d = 0.

Lemma roundArgsLength_range n :
  0 ≤ roundArgsLength n ∧ roundArgsLength n `mod` 8 = 0.
Proof.
  unfold roundArgsLength, ARG_ALIGN.
  pose proof (wrap_bound 64 (n + (8 - 1)) ltac:(lia)) as Hb.
  set (m := u64 (n + (8 - 1))) in *.
  pose proof (Z.div_mod m 8). pose proof (Z.mod_pos_bound m 8).
  rewrite wrap_small by lia. split; [lia|]. apply Z_mod_mult.
Qed.

Lemma finish_descriptor_ok d :
  0 ≤ kernarg_length d < 2 ^ 64 → clone_hidden_args_length d = 0 →
  descriptor_ok (finish_descriptor d).
Proof.
  intros Hk Hc. unfold descriptor_ok, finish_descriptor; simpl.
  destruct (roundArgsLength_range (explicit_args_length d)) as [Hr Hm].
  set (r := roundArgsLength _) in *.
  rewrite wrap_small by lia. split_and!; try lia; try done.
  destruct (Z.min_spec r (kernarg_length d)) as [[_ ->]|[_ ->]]; auto.
Qed.

Section metadata.
Context {node : Type} `{Comgr node} (demangleName : bytes → bytes).
Implicit Types (n args value : node) (d : arg_descriptor_t).

Lemma md_number_bound n v : md_number n = Ok v → 0 ≤ v < 2 ^ 64.
Proof. intros (s&_&Hs)%res_bind_Ok. by eapply stoul_bound. Qed.

Lemma accumulate_arg_frame args d j d' :
  accumulate_arg args d j = Ok d' →
  kernarg_length d' = kernarg_length d ∧
  clone_hidden_args_length d' = clone_hidden_args_length d.
Proof.
  unfold accumulate_arg.
  intros (m&_&(k&_&Hk)%res_bind_Ok)%res_bind_Ok.
  destruct (decide (k = KIND_MAP)); [|by simplify_eq].
  repeat apply res_bind_Ok in Hk as (?&_&Hk). simplify_eq. by case_match.
Qed.

Lemma kernel_entry_ok value name d :
  kernel_entry demangleName value = Ok (name, d) → descriptor_ok d.
Proof.
  unfold kernel_entry. intros Hk.
  do 9 apply res_bind_Ok in Hk as (?&_&Hk).
  apply res_bind_Ok in Hk as (len&Hlen&Hk). apply md_number_bound in Hlen.
  apply res_bind_Ok in Hk as (d0&Hd0&[= <- <-]).
  assert (kernarg_length d0 = len ∧ clone_hidden_args_length d0 = 0) as [<- ?].
  { destruct (decide _) in Hd0; [|by simplify_eq].
    apply res_bind_Ok in Hd0 as (cnt&_&Hd0). revert Hd0.
    apply (res_fold_inv (λ d, kernarg_length d = len ∧ clone_hidden_args_length d = 0));
      [|done].
    intros j d1 d2 _ [<- <-] Hj. by eapply accumulate_arg_frame. }
  by apply finish_descriptor_ok.
Qed.
End metadata.

(** What a metadata argument node means: its value kind, offset and size. *)
Section argument_views.
Context {node : Type} `{Comgr node}.

Record arg_view := ArgView { av_kind : bytes; av_offset : Z; av_size : Z }.

Definition av_hidden (v : arg_view) : bool := starts_with (lit "hidden_") (av_kind v).
Definition av_end (v : arg_view) : Z := u64 (av_offset v + av_size v).

Definition arg_decodes (args : node) (j : nat) (v : arg_view) : Prop :=
  ∃ m sz ty off,
    index_list_metadata args j = Some m ∧ get_metadata_kind m = Some KIND_MAP ∧
    metadata_lookup m (lit ".size") = Some sz ∧
    metadata_lookup m (lit ".value_kind") = Some ty ∧
    metadata_lookup m (lit ".offset") = Some off ∧
    md_number sz = Ok (av_size v) ∧ md_number off = Ok (av_offset v) ∧
    get_metadata_string ty = Ok (av_kind v).

(** End of the last explicit argument, and their number. *)
Definition explicit_views (vs : list arg_view) : list arg_view :=
  filter (λ v, av_hidden v = false) vs.
Definition explicit_end (d : Z) (vs : list arg_view) : Z :=
  default d (av_end <$> list.last (explicit_views vs)).

Lemma accumulate_arg_view (args : node) d j v :
  arg_decodes args j v →
  accumulate_arg args d j = Ok
    (if av_hidden v then
       ArgDescriptor (explicit_args_length d) (explicit_args_count d)
         (av_end v) (kernarg_length d) (private_segment_size d)
         (group_segment_size d) (clone_hidden_args_length d)
     else
       ArgDescriptor (av_end v) (u64 (explicit_args_count d + 1))
         (hidden_args_length d) (kernarg_length d) (private_segment_size d)
         (group_segment_size d) (clone_hidden_args_length d)).
Proof.
  intros (m&sz&ty&off&Hm&Hk&Hsz&Hty&Hoff&Hsz'&Hoff'&Hty'). unfold accumulate_arg.
  rewrite Hm. cbn [check_comgr res_bind]. rewrite Hk. cbn [check_comgr res_bind].
  rewrite decide_True by done. rewrite Hsz, Hty, Hoff. cbn [check_comgr res_bind].
  rewrite Hsz', Hoff', Hty'. done.
Qed.

Lemma accumulate_args_views (args : node) vs start d :
  (∀ j v, vs !! j = Some v → arg_decodes args (start + j) v) →
  ∃ h, res_fold (accumulate_arg args) d (seq start (length vs)) =
    Ok (ArgDescriptor (explicit_end (explicit_args_length d) vs)
          (foldl (λ c _, u64 (c + 1)) (explicit_args_count d) (explicit_views vs)) h
          (kernarg_length d) (private_segment_size d) (group_segment_size d)
          (clone_hidden_args_length d)).
Proof.
  revert start d. induction vs as [|v vs IH]; intros start d Hvs.
  { exists (hidden_args_length d). by destruct d. }
  assert (arg_decodes args start v) as Hv.
  { specialize (Hvs 0%nat v eq_refl). by rewrite Nat.add_0_r in Hvs. }
  simpl length. simpl seq. cbn [res_fold].
  rewrite (accumulate_arg_view _ d _ _ Hv). cbn [res_bind].
  edestruct (IH (S start)) as [h ->].
  { intros j w Hj. rewrite Nat.add_succ_comm. by apply Hvs. }
  exists h. unfold explicit_end, explicit_views. rewrite filter_cons.
  destruct (av_hidden v); simpl; [done|].
  rewrite last_cons. by destruct (list.last (filter _ vs)).
Qed.
End argument_views.

Record kernel_decodes {node} `{Comgr node} (value : node) (symbol : bytes)
    (vs : list arg_view) (len priv grp : Z) : Prop := {
  kd_symbol : ∃ f, metadata_lookup value (lit ".symbol") = Some f ∧
                   get_metadata_string f = Ok symbol;
  kd_args : ∃ args, metadata_lookup value (lit ".args") = Some args ∧
                    get_metadata_kind args = Some KIND_LIST ∧
                    get_metadata_list_size args = Some (length vs) ∧
                    ∀ j v, vs !! j = Some v → arg_decodes args j v;
  kd_len : ∃ f, metadata_lookup value (lit ".kernarg_segment_size") = Some f ∧
                md_number f = Ok len;
  kd_priv : ∃ f, metadata_lookup value (lit ".private_segment_fixed_size") = Some f ∧
                 md_number f = Ok priv;
  kd_grp : ∃ f, metadata_lookup value (lit ".group_segment_fixed_size") = Some f ∧
                md_number f = Ok grp;
}.

(** ** A concrete metadata tree, for the witnesses *)
Inductive md_tree :=
| TString (s : bytes)
| TList (l : list md_tree)
| TMap (l : list (bytes * md_tree)).

#[export] Instance comgr_tree : Comgr md_tree := {
  get_metadata_kind n := Some match n with
    | TString _ => KIND_STRING | TList _ => KIND_LIST | TMap _ => KIND_MAP end;
  metadata_lookup n k := match n with
    | TMap l => snd <$> List.find (λ p, bool_decide (p.1 = k)) l | _ => None end;
  get_metadata_list_size n := match n with TList l => Some (length l) | _ => None end;
  index_list_metadata n i := match n with TList l => l !! i | _ => None end;
  comgr_get_metadata_string n := match n with TString s => Some s | _ => None end;
}.

Definition tree_arg (kind offset size : string) : md_tree :=
  TMap [(lit ".value_kind", TString (lit kind)); (lit ".offset", TString (lit offset));
        (lit ".size", TString (lit size))].

Definition tree_kernel : md_tree :=
  TMap [(lit ".symbol", TString (lit "k"));
        (lit ".args", TList [tree_arg "global_buffer" "0" "8"; tree_arg "by_value" "8" "4";
                             tree_arg "hidden_block_count_x" "16" "4"]);
        (lit ".kernarg_segment_size", TString (lit "272"));
        (lit ".private_segment_fixed_size", TString (lit "0"));
        (lit ".group_segment_fixed_size", TString (lit "64"))].

Definition tree_code_object : md_tree := TMap [(lit "amdhsa.kernels", TList [tree_kernel])].

(** ** Properties *)

(** Every descriptor [computeKernargData] stores is well formed, given that
    the ones already stored are: the explicit arguments end at a multiple of
    eight or at the end of the segment, never beyond it, and explicit and
    hidden length add up to the segment length without wrap-around. *)
Lemma computeKernargData_wf {node} `{Comgr node} demangleName (exec_map : node) kernels_ m :
  map_Forall (λ _, descriptor_ok) kernels_ →
  computeKernargData demangleName exec_map kernels_ = Ok m →
  map_Forall (λ _, descriptor_ok) m.
Proof.
  intros Hk. unfold computeKernargData. intros (ks&_&Hm)%res_bind_Ok.
  apply res_bind_Ok in Hm as (size&_&Hm). revert Hk Hm. apply res_fold_inv.
  intros i m0 m1 _ Hm0. unfold kernel_step.
  intros (v&_&Hv)%res_bind_Ok. apply res_bind_Ok in Hv as (k&_&Hv).
  destruct (decide (k = KIND_MAP)); [|by simplify_eq].
  apply res_bind_Ok in Hv as ([name d]&Hd&[= <-]).
  apply map_Forall_insert_2; [by eapply kernel_entry_ok|done].
Qed.

Example computeKernargData_example :
  ∃ m, computeKernargData id tree_code_object ∅ = Ok m ∧ m !! lit "k" ≠ None ∧
       map_Forall (λ _, descriptor_ok) m.
Proof.
  eexists. split_and!; [vm_compute; reflexivity|vm_compute; discriminate|].
  apply (computeKernargData_wf id tree_code_object ∅); [apply map_Forall_empty|].
  vm_compute. reflexivity.
Defined.

(** C18. The layout of a kernel as a function of its metadata: the explicit
    length is the end of the last argument that is not hidden, rounded up to
    eight and capped at the segment size; the rest of the segment is hidden;
    the explicit arguments are counted; the fixed segment sizes are truncated
    to 32 bits. *)
Theorem kernel_entry_layout {node} `{Comgr node} demangleName (value : node)
    symbol vs len priv grp :
  kernel_decodes value symbol vs len priv grp →
  ∃ d, kernel_entry demangleName value = Ok (demangleName symbol, d) ∧
    explicit_args_length d = Z.min (roundArgsLength (explicit_end 0 vs)) len ∧
    hidden_args_length d = len - explicit_args_length d ∧
    kernarg_length d = len ∧
    (Z.of_nat (length (explicit_views vs)) < 2 ^ 64 →
     explicit_args_count d = Z.of_nat (length (explicit_views vs))) ∧
    private_segment_size d = u32 priv ∧ group_segment_size d = u32 grp.
Proof.
  intros [(f&Hf&Hsym) (args&Hargs&Hkind&Hcnt&Hvs) (l&Hl&Hlen) (p&Hp&Hpriv) (g&Hg&Hgrp)].
  unfold kernel_entry.
  rewrite Hf. cbn [check_comgr res_bind]. rewrite Hsym. cbn [res_bind].
  rewrite Hargs. cbn [check_comgr res_bind]. rewrite Hkind. cbn [check_comgr res_bind].
  rewrite Hl, Hp, Hg. cbn [check_comgr res_bind]. rewrite Hpriv, Hgrp, Hlen.
  cbn [check_comgr res_bind]. rewrite decide_True, Hcnt by done. cbn [check_comgr res_bind].
  destruct (accumulate_args_views args vs 0
              (ArgDescriptor 0 0 0 len (u32 priv) (u32 grp) 0)) as [h ->].
  { intros j v Hj. by apply Hvs. }
  cbn [res_bind]. eexists. split; [done|]. unfold finish_descriptor; simpl.
  apply md_number_bound in Hlen.
  pose proof (roundArgsLength_range (explicit_end 0 vs)) as [Hr _].
  split_and!; try done; [apply wrap_small; lia|].
  intros Hlt. assert (∀ (ws : list arg_view) c, 0 ≤ c → c + Z.of_nat (length ws) < 2 ^ 64 →
    foldl (λ c _, u64 (c + 1)) c ws = c + Z.of_nat (length ws)) as Hfold.
  { induction ws as [|w ws IH]; intros c Hc Hb; simpl in *; [lia|].
    rewrite wrap_small by lia. rewrite IH; lia. }
  rewrite Hfold; lia.
Qed.

Lemma kernel_entry_layout_witness :
  ∃ d, kernel_entry id tree_kernel = Ok (lit "k", d) ∧
    explicit_args_length d = 16 ∧ hidden_args_length d = 256.
Proof.
  destruct (kernel_entry_layout id tree_kernel (lit "k")
    [ArgView (lit "global_buffer") 0 8; ArgView (lit "by_value") 8 4;
     ArgView (lit "hidden_block_count_x") 16 4] 272 0 64) as (d&Hd&He&Hh&_).
  - split; [eexists; split; reflexivity| |eexists; split; reflexivity..].
    eexists. split_and!; [reflexivity..|].
    intros j v Hj. do 3 (destruct j as [|j]; [injection Hj as <-;
      repeat eexists; reflexivity|]). discriminate.
  - exists d. split_and!; [exact Hd|rewrite He; reflexivity|rewrite Hh, He; reflexivity].
Defined.

(** C2. [fixupKernArgs] builds exactly the kernarg segment the instrumented
    clone expects, and writes nothing else: the original explicit arguments,
    then the 64-bit device pointer, then the original hidden arguments (which
    move up by one pointer), then zeros up to the clone's segment length; bytes
    of the allocation beyond that are left as they were. *)
Theorem fixupKernArgs_correct (dst src : buffer) comms desc :
  let E := Z.to_nat (explicit_args_length desc - 8) in
  let H := Z.to_nat (clone_hidden_args_length desc) in
  8 ≤ explicit_args_length desc → 0 ≤ clone_hidden_args_length desc →
  explicit_args_length desc + clone_hidden_args_length desc ≤ kernarg_length desc →
  kernarg_length desc < 2 ^ 64 →
  kernarg_length desc ≤ Z.of_nat (length dst) →
  (E + H ≤ length src)%nat →
  fixupKernArgs (Some dst) (Some src) comms desc =
    Ok (take E src ++ le_split 8 comms ++ take H (drop E src) ++
        replicate (Z.to_nat (kernarg_length desc) - (E + 8 + H)) 0 ++
        drop (Z.to_nat (kernarg_length desc)) dst).
Proof.
  intros E H HE HH HK HKlt Hdst Hsrc.
  destruct (split_at (Z.to_nat (kernarg_length desc)) dst) as (old&tl&->&Hold); [lia|].
  destruct (split_at E src) as (ex&src'&->&Hex); [lia|].
  rewrite length_app in Hsrc.
  destruct (split_at H src') as (hid&rest&->&Hhid); [lia|].
  rewrite <-Hold at 2. rewrite drop_app_length, <-Hex, take_app_length, drop_app_length.
  rewrite <-Hhid, take_app_length. apply fixupKernArgs_blocks; lia.
Qed.

Lemma fixupKernArgs_correct_witness :
  fixupKernArgs (Some (replicate 30 7)) (Some [1;2;3;4;5;6;7;8;9;10;11;12])
    258 (ArgDescriptor 16 2 8 24 0 0 4)
  = Ok ([1;2;3;4;5;6;7;8] ++ [2;1;0;0;0;0;0;0] ++ [9;10;11;12] ++ [0;0;0;0] ++ replicate 6 7).
Proof.
  apply (fixupKernArgs_correct (replicate 30 7) [1;2;3;4;5;6;7;8;9;10;11;12]
           258 (ArgDescriptor 16 2 8 24 0 0 4)); simpl; lia.
Defined.

(** The cases in which [fixupKernArgs] does not return: a null segment and
    hidden arguments that do not fit behind the clone's explicit ones stop at
    an assertion; a clone without room for the pointer (the subtraction wraps)
    and an original segment shorter than what is copied out of it are
    out-of-bounds accesses. *)
Theorem fixupKernArgs_faults (dst src : buffer) comms desc :
  0 ≤ explicit_args_length desc → 0 ≤ kernarg_length desc ≤ Z.of_nat (length dst) →
  Z.of_nat (length dst) < 2 ^ 63 →
  fixupKernArgs None (Some src) comms desc = Err FAbort ∧
  fixupKernArgs (Some dst) None comms desc = Err FAbort ∧
  (explicit_args_length desc < 8 →
     fixupKernArgs (Some dst) (Some src) comms desc = Err FUB) ∧
  (8 ≤ explicit_args_length desc < 2 ^ 64 →
   Z.of_nat (length src) < explicit_args_length desc - 8 →
     fixupKernArgs (Some dst) (Some src) comms desc = Err FUB) ∧
  (8 ≤ explicit_args_length desc ≤ kernarg_length desc →
   explicit_args_length desc - 8 ≤ Z.of_nat (length src) →
   kernarg_length desc - explicit_args_length desc < clone_hidden_args_length desc →
     fixupKernArgs (Some dst) (Some src) comms desc = Err FAbort).
Proof.
  intros HE HK Hdst.
  assert (memset_zero dst (kernarg_length desc) =
    Ok (splice 0 (replicate (Z.to_nat (kernarg_length desc)) 0) dst)) as Hms.
  { unfold memset_zero. by rewrite (proj2 (Z.leb_le _ _)) by lia. }
  assert (length (splice 0 (replicate (Z.to_nat (kernarg_length desc)) 0) dst)
          = length dst) as Hlen.
  { unfold splice. rewrite !length_app, length_drop, length_replicate. simpl. lia. }
  unfold fixupKernArgs, sizeof_ptr. cbn [not_null res_bind]. rewrite Hms. cbn [res_bind].
  split_and!; try done.
  - intros Hlt. replace (u64 (explicit_args_length desc - 8))
      with (explicit_args_length desc - 8 + 2 ^ 64).
    + unfold memcpy. rewrite Hlen, (proj2 (Z.leb_gt _ _)) by lia. done.
    + unfold wrap. rewrite <-(Z.mod_add _ 1), Z.mod_small; lia.
  - intros [H8 H64] Hsrc. rewrite wrap_small by lia. unfold memcpy.
    rewrite (proj2 (Z.leb_gt _ (Z.of_nat (length src)))) by lia.
    by rewrite andb_false_r.
  - intros HEK Hsrc Hhid. rewrite wrap_small by lia. unfold memcpy at 1.
    rewrite Hlen, !(proj2 (Z.leb_le _ _)) by lia. cbn [andb res_bind].
    rewrite (proj2 (Z.eqb_neq _ _)) by lia.
    rewrite wrap_small, (proj2 (Z.leb_gt _ _)) by lia. done.
Qed.

Lemma fixupKernArgs_faults_witness :
  fixupKernArgs (Some (replicate 16 0)) (Some [1;2;3;4]) 0 (ArgDescriptor 16 1 0 16 0 0 0)
  = Err FUB.
Proof.
  apply (proj1 (proj2 (proj2 (proj2
    (fixupKernArgs_faults (replicate 16 0) [1;2;3;4] 0 (ArgDescriptor 16 1 0 16 0 0 0)
       ltac:(done) ltac:(done) ltac:(done)))))); done.
Defined.
