(* ===== verification/Message.v ===== *)
(** * Messages from instrumented kernels

    What the handlers read of a [dh_comms] message.  The wave header, the
    enumerators and the lane helper come from the [dh_comms] submodule, so they
    are an interface ([DhComms]) with the documented facts the code relies on
    ([DhCommsLaws]); [dh_comms_values] is one concrete instance.  The layout of
    the [user_data] word of an address message is the one the handlers decode.
    The disassembly database ([kernelDB]) is the interface
    [KernelDB]. *)
From S2P Require Import Prelude StdString.

Record wave_header_t := WaveHeader {
  user_type : Z;
  user_data : Z;
  exec : Z;
  timestamp : Z;
  dwarf_fname_hash : Z;
  dwarf_line : Z;
  dwarf_column : Z;
  arch : Z;
  block_idx_x : Z;
  block_idx_y : Z;
  block_idx_z : Z;
  wave_num : Z;
  xcc_id : Z;
  se_id : Z;
  cu_id : Z;
  active_lane_count : Z;
}.

(** A message: its wave header and, per active lane or per wave, one data item
    given as its 64-bit words. *)
Record message_t := Message {
  wave_header : wave_header_t;
  data_item_size : Z;
  data_items : list (list Z);
}.

Definition no_data_items (m : message_t) : Z := Z.of_nat (length (data_items m)).

(** [ *(const uint64_t * )message.data_item(i) ] *)
Definition item_address (item : list Z) : res Z :=
  match item with a :: _ => Ok a | [] => Err FUB end.

(** The item holds a 64-bit word. *)
Definition readable_item (item : list Z) : Prop := ∃ a, item_address item = Ok a ∧ 0 ≤ a < 2 ^ 64.

Lemma readable_items items :
  Forall readable_item items →
  ∃ addrs, Forall2 (λ item a, item_address item = Ok a) items addrs ∧ Forall (λ a, 0 ≤ a < 2 ^ 64) addrs.
Proof.
  induction 1 as [|item items (a & Ha & Hb) _ (addrs & Hf & Hr)]; [by exists []|].
  exists (a :: addrs). by split; constructor.
Qed.

Class DhComms := {
  mt_address : Z;
  mt_time_interval : Z;
  ma_undefined : Z;
  ma_read : Z;
  ma_write : Z;
  ma_read_write : Z;
  as_flat : Z;
  as_global : Z;
  as_gds : Z;
  as_shared : Z;
  as_constant : Z;
  as_scratch : Z;
  as_undefined : Z;
  get_lane_ids_of_active_lanes : Z → list Z;
  get_l2_cache_line_size : Z → Z;
}.

(** Enumerators used as labels of one [switch] are distinct and fit the bit
    fields they are packed in; the lane helper lists the set bits of the
    execution mask; a cache line size is 0 (unknown hardware) or at least 2. *)
Class DhCommsLaws `{DhComms} : Prop := {
  mt_distinct : mt_address ≠ mt_time_interval;
  ma_distinct : NoDup [ma_undefined; ma_read; ma_write; ma_read_write];
  ma_range : Forall (λ k, 0 ≤ k < 4) [ma_undefined; ma_read; ma_write; ma_read_write];
  as_distinct :
    NoDup [as_flat; as_global; as_gds; as_shared; as_constant; as_scratch; as_undefined];
  as_range : Forall (λ k, 0 ≤ k < 16)
    [as_flat; as_global; as_gds; as_shared; as_constant; as_scratch; as_undefined];
  lane_ids_spec e l :
    l ∈ get_lane_ids_of_active_lanes e ↔ 0 ≤ l < 64 ∧ Z.testbit e l = true;
  lane_ids_NoDup e : NoDup (get_lane_ids_of_active_lanes e);
  cache_line_size_spec a :
    get_l2_cache_line_size a = 0 ∨ 2 ≤ get_l2_cache_line_size a < 256;
}.

(** ** The packed [user_data] word of an address message *)
Definition rw_kind_of (user_data : Z) : Z := Z.land user_data 3.
Definition mspace_of (user_data : Z) : Z := Z.land (Z.shiftr user_data 2) 15.
Definition data_size_of (user_data : Z) : Z := Z.land (Z.shiftr user_data 6) 65535.

(** A word with the given fields, for the examples. *)
Definition pack_user_data (rw space size : Z) : Z :=
  Z.lor (Z.lor rw (Z.shiftl space 2)) (Z.shiftl size 6).

Lemma testbit_small x n k : 0 ≤ x < 2 ^ n → n ≤ k → 0 ≤ n → Z.testbit x k = false.
Proof.
  intros Hx Hk Hn. rewrite Z.testbit_eqb by lia. apply Z.eqb_neq.
  rewrite Z.div_small; [done|]. split; [lia|].
  eapply Z.lt_le_trans; [apply Hx|]. apply Z.pow_le_mono_r; lia.
Qed.

Lemma land_shiftr_bits x s w k :
  0 ≤ s → 0 ≤ w → 0 ≤ k →
  Z.testbit (Z.land (Z.shiftr x s) (Z.ones w)) k = Z.testbit x (k + s) && (k <? w).
Proof.
  intros. rewrite Z.land_spec, Z.shiftr_spec by lia.
  rewrite Z.testbit_ones_nonneg by lia. done.
Qed.

(** Unpacking inverts packing, for every field in range. *)
Lemma unpack_pack rw space size :
  0 ≤ rw < 4 → 0 ≤ space < 16 → 0 ≤ size < 65536 →
  rw_kind_of (pack_user_data rw space size) = rw ∧
  mspace_of (pack_user_data rw space size) = space ∧
  data_size_of (pack_user_data rw space size) = size.
Proof.
  intros Hr Hs Hz.
  unfold rw_kind_of, mspace_of, data_size_of, pack_user_data.
  change 3 with (Z.ones 2). change 15 with (Z.ones 4). change 65535 with (Z.ones 16).
  split_and!; apply Z.bits_inj'; intros k Hk.
  - rewrite <-(Z.shiftr_0_r (Z.lor _ _)), land_shiftr_bits by lia.
    rewrite !Z.lor_spec, !Z.shiftl_spec, Z.add_0_r by lia.
    destruct (Z.ltb_spec k 2).
    + rewrite (Z.testbit_neg_r space), (Z.testbit_neg_r size) by lia.
      by rewrite !orb_false_r, andb_true_r.
    + rewrite andb_false_r. symmetry. by apply (testbit_small _ 2); lia.
  - rewrite land_shiftr_bits, !Z.lor_spec, !Z.shiftl_spec by lia.
    rewrite (testbit_small rw 2) by lia. replace (k + 2 - 2) with k by lia.
    destruct (Z.ltb_spec k 4).
    + rewrite (Z.testbit_neg_r size) by lia. by rewrite orb_false_r, andb_true_r.
    + rewrite andb_false_r. symmetry. by apply (testbit_small _ 4); lia.
  - rewrite land_shiftr_bits, !Z.lor_spec, !Z.shiftl_spec by lia.
    rewrite (testbit_small rw 2), (testbit_small space 4) by lia.
    replace (k + 6 - 6) with k by lia.
    destruct (Z.ltb_spec k 16); [by rewrite andb_true_r|].
    rewrite andb_false_r. symmetry. by apply (testbit_small _ 16); lia.
Qed.

Lemma rw_kind_of_bound u : 0 ≤ rw_kind_of u < 4.
Proof. unfold rw_kind_of. rewrite (Z.land_ones _ 2) by lia. by apply Z.mod_pos_bound. Qed.
Lemma data_size_of_bound u : 0 ≤ data_size_of u < 65536.
Proof. unfold data_size_of. rewrite (Z.land_ones _ 16) by lia. by apply Z.mod_pos_bound. Qed.

(** ** The disassembly database *)
Record instruction_t := Instruction {
  inst_ : bytes;
  disassembly_ : bytes;
  line_ : Z;
  column_ : Z;
  path_id_ : Z;
  block_ : Z;   (* address of the basic block it belongs to *)
}.

(** Lookups throw ([Err]) for an unknown kernel, line or path. A basic block is
    identified by its address. *)
Class KernelDB (kdb : Type) := {
  getInstructionsForLine : kdb → bytes → Z → res (list instruction_t);
  getFileName : kdb → bytes → Z → res bytes;
  getBasicBlocks : kdb → bytes → res (list Z);
  getInstructions : kdb → Z → list instruction_t;
}.

(** ** Concrete values, for the examples *)
Definition dh_comms_values : DhComms := {|
  mt_address := 0; mt_time_interval := 1;
  ma_undefined := 0; ma_read := 1; ma_write := 2; ma_read_write := 3;
  as_flat := 0; as_global := 1; as_gds := 2; as_shared := 3; as_constant := 4;
  as_scratch := 5; as_undefined := 15;
  get_lane_ids_of_active_lanes e := filter (λ l, Is_true (Z.testbit e l)) (seqZ 0 64);
  get_l2_cache_line_size a := if a =? 1 then 64 else if a =? 2 then 128 else 0;
|}.

Lemma dh_comms_values_laws : DhCommsLaws (H := dh_comms_values).
Proof.
  split.
  - done.
  - by apply (bool_decide_unpack _).
  - by apply (bool_decide_unpack _).
  - by apply (bool_decide_unpack _).
  - by apply (bool_decide_unpack _).
  - intros e l. simpl. rewrite list_elem_of_filter, elem_of_seqZ, Is_true_true. naive_solver lia.
  - intros e. apply list.NoDup_filter, NoDup_seqZ.
  - intros a. simpl. repeat case_match; lia.
Qed.

(** A disassembly database given by tables: the instructions of each kernel, the
    source paths and the basic blocks of each kernel. *)
Record table_kdb := TableKdb {
  tk_instructions : list (bytes * instruction_t);
  tk_files : list (Z * bytes);
  tk_blocks : list (bytes * list Z);
}.

Definition kernel_db_values : KernelDB table_kdb := {|
  getInstructionsForLine db kernel line :=
    match filter (λ p, p.1 = kernel ∧ line_ p.2 = line) (tk_instructions db) with
    | [] => Err (FThrow (lit "no instructions for line"))
    | l => Ok l.*2
    end;
  getFileName db kernel id :=
    match filter (λ p, p.1 = id) (tk_files db) with
    | p :: _ => Ok p.2
    | [] => Err (FThrow (lit "no such path"))
    end;
  getBasicBlocks db kernel :=
    match filter (λ p, p.1 = kernel) (tk_blocks db) with
    | p :: _ => Ok p.2
    | [] => Err (FThrow (lit "no such kernel"))
    end;
  getInstructions db b := (filter (λ p, block_ p.2 = b) (tk_instructions db)).*2;
|}.
