(* ===== verification/BankConflicts.v ===== *)
(** * LDS bank conflicts

    [conflict_set] of src/src/memory_analysis_handler.cc: which lanes of a
    wavefront are executed in one phase, which dwords they request from each of
    the 32 LDS banks, and how many additional requests that costs.  The theorems
    relate the counting to its meaning: the number of rounds needed when each
    bank serves one dword per round. *)
From S2P Require Import Prelude StdString Message.

Definition no_banks : Z := 32.
Definition bank_ids : list nat := seq 0 32.
Arguments bank_ids : simpl never.

Record conflict_set := ConflictSet { lanes : gset Z; banks : list (gset Z) }.

Definition insert_lanes (ls : gset Z) (fl_pair : Z * Z) : res (gset Z) :=
  let! _ := assertb (fl_pair.1 <? fl_pair.2) in
  Ok (ls ∪ list_to_set (seqZ fl_pair.1 (fl_pair.2 - fl_pair.1))).

Definition new_conflict_set (fl_pairs : list (Z * Z)) : res conflict_set :=
  let! ls := res_fold insert_lanes ∅ fl_pairs in
  Ok (ConflictSet ls (replicate 32 ∅)).

Definition register_access (cs : conflict_set) (lane address : Z) : bool * conflict_set :=
  if decide (lane ∈ lanes cs) then
    let dword := address `div` 4 in
    let bank := dword `mod` no_banks in
    (true, ConflictSet (lanes cs) (alter (λ b, {[ dword ]} ∪ b) (Z.to_nat bank) (banks cs)))
  else (false, cs).

Definition bank_conflict_count (cs : conflict_set) : Z :=
  foldl (λ m b, Z.max m (Z.of_nat (size b))) 1 (banks cs) - 1.

Definition clear_banks (cs : conflict_set) : conflict_set :=
  ConflictSet (lanes cs) ((λ _, ∅) <$> banks cs).

(** The constructor's table: access size, and the lane ranges of each set. *)
Definition conflict_ranges : list (Z * list (list (Z * Z))) :=
  [(1, [[(0, 32)]; [(32, 64)]]);
   (2, [[(0, 32)]; [(32, 64)]]);
   (4, [[(0, 32)]; [(32, 64)]]);
   (8, [[(0, 16)]; [(16, 32)]; [(32, 48)]; [(48, 64)]]);
   (16, [[(0, 4); (20, 24)]; [(4, 8); (16, 20)]; [(8, 12); (28, 32)]; [(12, 16); (24, 28)];
         [(32, 36); (52, 56)]; [(36, 40); (48, 52)]; [(40, 44); (60, 64)]; [(44, 48); (56, 60)]])].

Definition new_conflict_sets (ranges : list (list (Z * Z))) : res (list conflict_set) :=
  res_fold (λ css fl, let! cs := new_conflict_set fl in Ok (css ++ [cs])) [] ranges.

Definition init_conflict_sets : res (gmap Z (list conflict_set)) :=
  res_fold (λ m p, let! css := new_conflict_sets p.2 in Ok (<[p.1 := css]> m)) ∅ conflict_ranges.

(** The loop over the conflict sets of the handler: the first set that holds
    the lane takes the access. *)
Fixpoint register_first (css : list conflict_set) (lane address : Z) : list conflict_set :=
  match css with
  | [] => []
  | cs :: css' =>
      match register_access cs lane address with
      | (true, cs') => cs' :: css'
      | (false, cs') => cs' :: register_first css' lane address
      end
  end.

Definition register_item (data_size : Z) (css : list conflict_set) (x : Z * list Z)
    : res (list conflict_set) :=
  let! address := item_address x.2 in
  let! _ := assertb (address `mod` data_size =? 0) in
  Ok (register_first css x.1 address).

(** Register every lane's access, then sum the counts and clear the banks. *)
Definition count_conflicts (data_size : Z) (css : list conflict_set) (lane_ids : list Z)
    (items : list (list Z)) : res (Z * list conflict_set) :=
  let! css' := res_fold (register_item data_size) css (zip lane_ids items) in
  Ok (foldl (λ n cs, u64 (n + bank_conflict_count cs)) 0 css', clear_banks <$> css').

(** ** Specification

    An access is a lane and the address it requests. *)
Abbreviation access := (Z * Z)%type.

Definition dwords_in (ls : gset Z) (b : nat) (accs : list access) : gset Z :=
  list_to_set ((λ a, a.2 `div` 4) <$>
    filter (λ a, a.1 ∈ ls ∧ (a.2 `div` 4) `mod` no_banks = Z.of_nat b) accs).

Definition conflicts_of (ls : gset Z) (accs : list access) : Z :=
  foldl (λ m b, Z.max m (Z.of_nat (size (dwords_in ls b accs)))) 1 (bank_ids) - 1.

Definition total_conflicts (lss : list (gset Z)) (accs : list access) : Z :=
  foldr (λ ls n, conflicts_of ls accs + n) 0 lss.

(** The accesses of [accs] can be served in [n] rounds, one dword per bank and
    round (lanes that want the same dword share it). *)
Definition served_in (ls : gset Z) (accs : list access) (n : Z) : Prop :=
  ∃ round : Z → Z, ∀ a, a ∈ accs → a.1 ∈ ls →
    0 ≤ round (a.2 `div` 4) < n ∧
    ∀ a', a' ∈ accs → a'.1 ∈ ls → (a.2 `div` 4) `mod` no_banks = (a'.2 `div` 4) `mod` no_banks →
      a.2 `div` 4 ≠ a'.2 `div` 4 → round (a.2 `div` 4) ≠ round (a'.2 `div` 4).

(** ** Lemmas *)
Implicit Types (cs : conflict_set) (css : list conflict_set) (accs : list access).

Lemma foldl_max_le {A} (f : A → Z) l m n :
  foldl (λ m x, Z.max m (f x)) m l ≤ n ↔ m ≤ n ∧ ∀ x, x ∈ l → f x ≤ n.
Proof.
  revert m. induction l as [|x l IH]; intros m; simpl.
  { split; [intros ?; split; [done|]; intros x []%elem_of_nil|by intros []]. }
  rewrite IH. split.
  - intros [Hm Hl]. split; [lia|]. intros y [->|Hy]%elem_of_cons; [lia|auto].
  - intros [Hm Hl]. split; [|intros y Hy; apply Hl; by right].
    pose proof (Hl x ltac:(by left)). lia.
Qed.

Lemma elem_of_dwords_in ls b accs d :
  d ∈ dwords_in ls b accs ↔
  ∃ a, a ∈ accs ∧ a.1 ∈ ls ∧ d = a.2 `div` 4 ∧ d `mod` no_banks = Z.of_nat b.
Proof.
  unfold dwords_in. rewrite elem_of_list_to_set, list_elem_of_fmap. split.
  - intros (a & -> & [[? ?] ?]%list_elem_of_filter). by exists a.
  - intros (a & Ha & Hl & -> & Hm). exists a. split; [done|].
    by apply list_elem_of_filter.
Qed.

Lemma conflicts_of_le ls accs n :
  conflicts_of ls accs ≤ n ↔
  0 ≤ n ∧ ∀ b, (b < 32)%nat → Z.of_nat (size (dwords_in ls b accs)) ≤ n + 1.
Proof.
  unfold conflicts_of. rewrite Z.le_sub_le_add_r, foldl_max_le. split.
  - intros [? H]. split; [lia|]. intros b Hb. apply H, elem_of_seq. lia.
  - intros [? H]. split; [lia|]. intros b Hb%elem_of_seq. apply H. lia.
Qed.

Lemma conflicts_of_nonneg ls accs : 0 ≤ conflicts_of ls accs.
Proof.
  destruct (Z.lt_ge_cases (conflicts_of ls accs) 0) as [H|H]; [|done].
  assert (conflicts_of ls accs ≤ -1) as H1 by lia.
  apply conflicts_of_le in H1. lia.
Qed.

Lemma bank_index d : (Z.to_nat (d `mod` no_banks) < 32)%nat ∧
  Z.of_nat (Z.to_nat (d `mod` no_banks)) = d `mod` no_banks.
Proof. pose proof (Z.mod_pos_bound d no_banks ltac:(done)). unfold no_banks in *. lia. Qed.

Lemma dwords_in_perm ls b accs accs' : accs ≡ₚ accs' → dwords_in ls b accs = dwords_in ls b accs'.
Proof.
  intros Hp. apply set_eq. intros d. rewrite !elem_of_dwords_in.
  by setoid_rewrite Hp.
Qed.

(** *** Rounds *)
Lemma served_in_lower ls accs n b :
  (b < 32)%nat → 0 ≤ n → served_in ls accs n → Z.of_nat (size (dwords_in ls b accs)) ≤ n.
Proof.
  intros Hb Hn [round Hr].
  set (ds := elements (dwords_in ls b accs)).
  assert (length ds = size (dwords_in ls b accs)) as <- by done.
  assert (∀ d, d ∈ ds → ∃ a, a ∈ accs ∧ a.1 ∈ ls ∧ d = a.2 `div` 4 ∧
    d `mod` no_banks = Z.of_nat b) as Hds.
  { intros d Hd%elem_of_elements. by apply elem_of_dwords_in. }
  assert (NoDup (round <$> ds)) as Hnd.
  { apply NoDup_fmap_2_strong; [|apply NoDup_elements].
    intros d d' Hd Hd' Heq. destruct (decide (d = d')) as [|Hne]; [done|].
    destruct (Hds d Hd) as (a & Ha & Hl & -> & Hm), (Hds d' Hd') as (a' & Ha' & Hl' & -> & Hm').
    destruct (Hr a Ha Hl) as [_ Hdist]. exfalso. apply (Hdist a'); congruence. }
  assert (round <$> ds ⊆+ seqZ 0 n) as Hsub.
  { apply NoDup_submseteq; [done|]. intros r (d & -> & Hd)%list_elem_of_fmap.
    destruct (Hds d Hd) as (a & Ha & Hl & -> & _). apply elem_of_seqZ.
    destruct (Hr a Ha Hl). lia. }
  apply submseteq_length in Hsub. rewrite length_fmap, length_seqZ in Hsub. lia.
Qed.

(** A dword is served in the round of its position in its bank. *)
Definition rank_in (d : Z) (ds : list Z) : Z :=
  match list_find (d =.) ds with Some (i, _) => Z.of_nat i | None => 0 end.

Lemma rank_in_spec d ds :
  d ∈ ds → 0 ≤ rank_in d ds < Z.of_nat (length ds) ∧ ds !! Z.to_nat (rank_in d ds) = Some d.
Proof.
  intros Hd. unfold rank_in.
  destruct (list_find_elem_of (d =.) ds d Hd eq_refl) as [[i x] Hi]. rewrite Hi.
  apply list_find_Some in Hi as (Hi & <- & _). rewrite Nat2Z.id. split; [|done].
  apply lookup_lt_Some in Hi. lia.
Qed.

Lemma served_in_upper ls accs n :
  (∀ b, (b < 32)%nat → Z.of_nat (size (dwords_in ls b accs)) ≤ n) → served_in ls accs n.
Proof.
  intros Hsz.
  exists (λ d, rank_in d (elements (dwords_in ls (Z.to_nat (d `mod` no_banks)) accs))).
  assert (∀ a, a ∈ accs → a.1 ∈ ls → a.2 `div` 4 ∈
    elements (dwords_in ls (Z.to_nat ((a.2 `div` 4) `mod` no_banks)) accs)) as Hin.
  { intros a Ha Hl. apply elem_of_elements, elem_of_dwords_in. exists a.
    split_and!; [done..|]. symmetry. apply bank_index. }
  intros a Ha Hl. pose proof (rank_in_spec _ _ (Hin a Ha Hl)) as [Hrk Hat]. split.
  - pose proof (Hsz _ (proj1 (bank_index (a.2 `div` 4)))) as Hb.
    change (length (elements ?X)) with (size X) in Hrk. lia.
  - intros a' Ha' Hl' Hbank Hne Heq. apply Hne.
    pose proof (rank_in_spec _ _ (Hin a' Ha' Hl')) as [_ Hat'].
    rewrite <-Hbank in Hat', Heq. rewrite <-Heq in Hat'. congruence.
Qed.

Lemma served_in_iff ls accs n :
  1 ≤ n → served_in ls accs n ↔ conflicts_of ls accs + 1 ≤ n.
Proof.
  intros Hn. split.
  - intros Hs. apply Z.le_add_le_sub_r, conflicts_of_le. split; [lia|].
    intros b Hb. pose proof (served_in_lower ls accs n b Hb ltac:(lia) Hs). lia.
  - intros Hc%Z.le_add_le_sub_r. apply conflicts_of_le in Hc as [_ Hc].
    apply served_in_upper. intros b Hb. specialize (Hc b Hb). lia.
Qed.

(** *** Registering accesses *)

(** [cs] holds exactly the dwords that [accs] requests from its lanes. *)
Definition holds (accs : list access) (cs : conflict_set) : Prop :=
  banks cs = (λ b, dwords_in (lanes cs) b accs) <$> bank_ids.

Lemma holds_nil cs : banks cs = replicate 32 ∅ → holds [] cs.
Proof. unfold holds. intros ->. done. Qed.

Lemma holds_count accs cs : holds accs cs → bank_conflict_count cs = conflicts_of (lanes cs) accs.
Proof.
  unfold holds, bank_conflict_count, conflicts_of. intros ->.
  assert (∀ m bs, foldl (λ m b, Z.max m (Z.of_nat (size b))) m
      ((λ b, dwords_in (lanes cs) b accs) <$> bs) =
    foldl (λ m b, Z.max m (Z.of_nat (size (dwords_in (lanes cs) b accs)))) m bs) as ->; [|done].
  intros m bs. revert m. induction bs as [|b bs IH]; intros m; [done|]. cbn. apply IH.
Qed.

Lemma register_access_lanes cs lane a : lanes (register_access cs lane a).2 = lanes cs.
Proof. unfold register_access. by case_decide. Qed.

Lemma lookup_bank_ids {A} (f : nat → A) k :
  (f <$> bank_ids) !! k = if decide (k < 32)%nat then Some (f k) else None.
Proof.
  rewrite list_lookup_fmap. unfold bank_ids. case_decide.
  - by rewrite lookup_seq_lt.
  - by rewrite lookup_seq_ge by lia.
Qed.

Lemma dwords_in_snoc ls b accs lane address :
  dwords_in ls b (accs ++ [(lane, address)]) =
  if decide (lane ∈ ls ∧ (address `div` 4) `mod` no_banks = Z.of_nat b)
  then {[ address `div` 4 ]} ∪ dwords_in ls b accs else dwords_in ls b accs.
Proof.
  apply set_eq. intros d. rewrite elem_of_dwords_in.
  setoid_rewrite elem_of_app. setoid_rewrite list_elem_of_singleton.
  case_decide as Hin; rewrite ?elem_of_union, ?elem_of_singleton, elem_of_dwords_in; split.
  - intros (a & [Ha| ->] & ? & ? & ?); [right; eauto|by left].
  - intros [->|(a & ? & ? & ? & ?)]; [|eauto 6].
    exists (lane, address). destruct Hin. cbn. eauto.
  - intros (a & [Ha| ->] & ? & -> & ?); [eauto|]. cbn in *. by destruct Hin.
  - intros (a & ? & ? & ? & ?). eauto 6.
Qed.

Lemma holds_register accs cs lane address :
  holds accs cs → holds (accs ++ [(lane, address)]) (register_access cs lane address).2.
Proof.
  unfold holds, register_access. intros Hb. destruct (bank_index (address `div` 4)) as [Hlt Hof].
  case_decide as Hl; cbn [snd lanes banks]; rewrite Hb; apply list_eq; intros b.
  - rewrite list_lookup_alter, !lookup_bank_ids. rewrite dwords_in_snoc.
    rewrite (decide_True (P := (Z.to_nat _ < 32)%nat)) by done.
    destruct (decide (Z.to_nat _ = b)) as [<-|Hne].
    + rewrite !decide_True by auto. done.
    + case_decide; [|done]. rewrite decide_False; [done|]. intros [_ ?]. lia.
  - rewrite !lookup_bank_ids, dwords_in_snoc. rewrite (decide_False (P := _ ∧ _)); [done|].
    by intros [].
Qed.

(** No lane is in two sets of the list, so stopping at the first is registering
    with all of them. *)
Definition disjoint_lanes (css : list conflict_set) : Prop :=
  ∀ i j (cs cs' : conflict_set) l, css !! i = Some cs → css !! j = Some cs' →
    l ∈ lanes cs → l ∈ lanes cs' → i = j.

Lemma register_none css lane address :
  (∀ cs, cs ∈ css → lane ∉ lanes cs) →
  (λ cs, (register_access cs lane address).2) <$> css = css.
Proof.
  intros H. induction css as [|cs css IH]; [done|]. rewrite fmap_cons, IH.
  - unfold register_access. rewrite decide_False; [done|]. apply H. by left.
  - intros cs' Hcs. apply H. by right.
Qed.

Lemma register_first_all css lane address :
  disjoint_lanes css →
  register_first css lane address = (λ cs, (register_access cs lane address).2) <$> css.
Proof.
  induction css as [|cs css IH]; intros Hd; [done|]. rewrite fmap_cons. cbn [register_first].
  destruct (register_access cs lane address) as [[|] cs'] eqn:Hr; cbn [snd]; f_equal.
  - assert (lane ∈ lanes cs) as Hl by (unfold register_access in Hr; by case_decide).
    rewrite register_none; [done|]. intros c' [j Hj]%list_elem_of_lookup Hin.
    by specialize (Hd 0%nat (S j) cs c' lane eq_refl Hj Hl Hin).
  - apply IH. intros i j c c' l Hi Hj H1 H2.
    specialize (Hd (S i) (S j) c c' l Hi Hj H1 H2). lia.
Qed.

Lemma disjoint_lanes_ext css css' :
  lanes <$> css = lanes <$> css' → disjoint_lanes css → disjoint_lanes css'.
Proof.
  intros Heq Hd i j cs cs' l Hi Hj Hl Hl'.
  assert (∀ k c, css' !! k = Some c → ∃ c0, css !! k = Some c0 ∧ lanes c0 = lanes c) as Hk.
  { intros k c Hk.
    assert ((lanes <$> css) !! k = Some (lanes c)) as Hc
      by (rewrite Heq, list_lookup_fmap, Hk; done).
    rewrite list_lookup_fmap in Hc. apply fmap_Some in Hc as (c0 & ? & ?). eauto. }
  destruct (Hk i cs Hi) as (c & ? & ?), (Hk j cs' Hj) as (c' & ? & ?).
  eapply (Hd i j c c' l); congruence.
Qed.

(** *** Counting a message *)
Definition cleared (css : list conflict_set) : Prop :=
  Forall (λ cs : conflict_set, banks cs = replicate 32 ∅) css.

Lemma clear_banks_id cs n :
  length (banks cs) = n → banks (clear_banks cs) = replicate n ∅.
Proof. intros <-. cbn. by rewrite <-const_fmap with (f := λ _, ∅). Qed.

Lemma register_first_step accs css lane address :
  disjoint_lanes css → Forall (holds accs) css →
  let css' := register_first css lane address in
  lanes <$> css' = lanes <$> css ∧ Forall (holds (accs ++ [(lane, address)])) css'.
Proof.
  intros Hd Hh. cbn. rewrite register_first_all by done. split.
  - rewrite <-list_fmap_compose. apply list_fmap_ext. intros ? cs _. apply register_access_lanes.
  - apply Forall_fmap. eapply list.Forall_impl; [exact Hh|]. intros cs. apply holds_register.
Qed.

Lemma register_items_spec data_size lane_ids items addrs css accs :
  Forall2 (λ item a, item_address item = Ok a) items addrs →
  length lane_ids = length items →
  Forall (λ a, a `mod` data_size = 0) addrs →
  disjoint_lanes css → Forall (holds accs) css →
  ∃ css', res_fold (register_item data_size) css (zip lane_ids items) = Ok css' ∧
    lanes <$> css' = lanes <$> css ∧ Forall (holds (accs ++ zip lane_ids addrs)) css'.
Proof.
  intros Hia. revert lane_ids css accs.
  induction Hia as [|item a items addrs Hi Hia IH];
    intros [|lane lane_ids] css accs Hlen Hal Hd Hh; try done.
  { exists css. by rewrite app_nil_r. }
  apply list.Forall_cons in Hal as [Ha Hal]. cbn [zip zip_with res_fold].
  unfold register_item at 1. cbn [fst snd]. rewrite Hi. cbn [res_bind].
  rewrite (proj2 (Z.eqb_eq _ _) Ha). cbn [assertb res_bind].
  destruct (register_first_step accs css lane a Hd Hh) as [Hl Hh'].
  destruct (IH lane_ids (register_first css lane a) (accs ++ [(lane, a)]))
    as (css' & Hf & Hl' & Hh''); [by injection Hlen|done| |done|].
  { by eapply disjoint_lanes_ext; [symmetry; exact Hl|]. }
  exists css'. split_and!; [exact Hf|congruence|].
  by rewrite <-app_assoc in Hh''.
Qed.

Lemma size_dwords_le ls b accs : (size (dwords_in ls b accs) ≤ length accs)%nat.
Proof.
  unfold dwords_in. etrans; [apply size_list_to_set_le|].
  rewrite length_fmap. apply length_filter.
Qed.

Lemma conflicts_of_bound ls accs : conflicts_of ls accs ≤ Z.of_nat (length accs).
Proof.
  apply conflicts_of_le. split; [lia|]. intros b _. pose proof (size_dwords_le ls b accs). lia.
Qed.

Lemma total_conflicts_bound lss accs :
  0 ≤ total_conflicts lss accs ≤ Z.of_nat (length lss) * Z.of_nat (length accs).
Proof.
  induction lss as [|ls lss IH]; cbn [total_conflicts foldr length]; [lia|].
  pose proof (conflicts_of_nonneg ls accs). pose proof (conflicts_of_bound ls accs).
  unfold total_conflicts in IH. lia.
Qed.

Lemma sum_counts accs css n :
  Forall (holds accs) css → 0 ≤ n →
  n + Z.of_nat (length css) * Z.of_nat (length accs) < 2 ^ 64 →
  foldl (λ n cs, u64 (n + bank_conflict_count cs)) n css =
  n + total_conflicts (lanes <$> css) accs.
Proof.
  intros Hh. revert n. induction Hh as [|cs css Hc Hh IH]; intros n Hn Hb; cbn; [lia|].
  pose proof (conflicts_of_nonneg (lanes cs) accs).
  pose proof (conflicts_of_bound (lanes cs) accs).
  rewrite (holds_count accs cs Hc). cbn [length] in Hb. rewrite wrap_small by lia.
  rewrite IH by lia. unfold total_conflicts. lia.
Qed.

Lemma clear_restores accs css css' :
  cleared css → lanes <$> css' = lanes <$> css → Forall (holds accs) css' →
  clear_banks <$> css' = css.
Proof.
  intros Hc Hl. revert css Hc Hl. induction css' as [|cs' css' IH];
    intros [|cs css] Hc Hl Hh; try done.
  apply list.Forall_cons in Hc as [Hc Hcs]. apply list.Forall_cons in Hh as [Hh Hhs].
  rewrite !fmap_cons in Hl. injection Hl as Hl Hls. rewrite fmap_cons. f_equal; [|by apply IH].
  destruct cs as [ls bs], cs' as [ls' bs']. unfold clear_banks. cbn in *. subst. f_equal.
  unfold holds in Hh. cbn in Hh. rewrite Hh, <-list_fmap_compose. done.
Qed.

Lemma count_conflicts_spec data_size css lane_ids items addrs :
  cleared css → disjoint_lanes css →
  Forall2 (λ item a, item_address item = Ok a) items addrs →
  length lane_ids = length items →
  Forall (λ a, a `mod` data_size = 0) addrs →
  Z.of_nat (length css) * Z.of_nat (length items) < 2 ^ 64 →
  count_conflicts data_size css lane_ids items =
  Ok (total_conflicts (lanes <$> css) (zip lane_ids addrs), css).
Proof.
  intros Hc Hd Hia Hlen Hal Hb. unfold count_conflicts.
  destruct (register_items_spec data_size lane_ids items addrs css []) as (css' & -> & Hl & Hh);
    [done..| |].
  { eapply list.Forall_impl; [exact Hc|]. intros cs. apply holds_nil. }
  cbn [res_bind app] in *. rewrite (clear_restores (zip lane_ids addrs) css) by done.
  assert (length css' = length css) as Hlc
    by (rewrite <-(length_fmap lanes css'), Hl; apply length_fmap).
  assert (length (zip lane_ids addrs) = length items) as Hlz.
  { rewrite length_zip_with. apply Forall2_length in Hia. lia. }
  rewrite (sum_counts (zip lane_ids addrs)), Hl; [done|done|lia|]. rewrite Hlc, Hlz. lia.
Qed.

(** The first address that is not a multiple of the access size ends it. *)
Lemma count_conflicts_abort data_size css lane_ids items addrs :
  Forall2 (λ item a, item_address item = Ok a) items addrs →
  length lane_ids = length items →
  ¬ Forall (λ a, a `mod` data_size = 0) addrs →
  count_conflicts data_size css lane_ids items = Err FAbort.
Proof.
  intros Hia Hlen Hal. unfold count_conflicts.
  assert (res_fold (register_item data_size) css (zip lane_ids items) = Err FAbort) as ->; [|done].
  revert lane_ids css Hlen Hal. induction Hia as [|item a items addrs Hi Hia IH];
    intros [|lane lane_ids] css Hlen Hal; try done; [by destruct Hal|].
  cbn [zip zip_with res_fold]. unfold register_item at 1. cbn [fst snd]. rewrite Hi. cbn [res_bind].
  destruct (Z.eqb_spec (a `mod` data_size) 0) as [Ha|Ha]; [|done]. cbn [assertb res_bind].
  apply IH; [by injection Hlen|]. intros H. apply Hal. by constructor.
Qed.

(** *** The table *)
Definition conflict_table : gmap Z (list conflict_set) :=
  match init_conflict_sets with Ok t => t | Err _ => ∅ end.

Lemma init_conflict_sets_ok : init_conflict_sets = Ok conflict_table.
Proof. vm_compute. reflexivity. Qed.

(** The conflict sets of the header comment: size, and the members of each set. *)
Definition documented_sets (data_size : Z) : list (list Z) :=
  let r a b := seqZ a (b - a + 1) in
  if decide (data_size ∈ [1; 2; 4]) then [r 0 31; r 32 63]
  else if decide (data_size = 8) then [r 0 15; r 16 31; r 32 47; r 48 63]
  else if decide (data_size = 16) then
    [r 0 3 ++ r 20 23; r 4 7 ++ r 16 19; r 8 11 ++ r 28 31; r 12 15 ++ r 24 27;
     r 32 35 ++ r 52 55; r 36 39 ++ r 48 51; r 40 43 ++ r 60 63; r 44 47 ++ r 56 59]
  else [].

Definition pairs_disjoint (css : list conflict_set) : Prop :=
  Forall (λ p, p.1.1 = p.2.1 ∨ lanes p.1.2 ∩ lanes p.2.2 = ∅)
    (cprod (imap (λ i cs, (i, cs)) css) (imap (λ i cs, (i, cs)) css)).

Definition entry_ok (p : Z * list conflict_set) : Prop :=
  p.1 ∈ [1; 2; 4; 8; 16] ∧ (length p.2 ≤ 8)%nat ∧
  Forall (λ cs : conflict_set, banks cs = replicate 32 ∅) p.2 ∧
  pairs_disjoint p.2 ∧
  list_to_set <$> documented_sets p.1 = lanes <$> p.2 ∧
  Forall (λ l, Exists (λ cs : conflict_set, l ∈ lanes cs) p.2) (seqZ 0 64).

Lemma pairs_disjoint_spec css : pairs_disjoint css → disjoint_lanes css.
Proof.
  intros Hp i j cs cs' l Hi Hj Hl Hl'.
  unfold pairs_disjoint in Hp. rewrite list.Forall_forall in Hp.
  destruct (Hp ((i, cs), (j, cs'))) as [|He]; [|done|set_solver].
  apply list_elem_of_cprod. cbn. split; apply elem_of_lookup_imap; eauto.
Qed.

#[local] Instance entry_ok_dec p : Decision (entry_ok p).
Proof. unfold entry_ok, pairs_disjoint. apply _. Defined.

Lemma conflict_table_ok data_size css :
  conflict_table !! data_size = Some css → entry_ok (data_size, css).
Proof.
  intros H%elem_of_map_to_list. revert H. generalize (data_size, css).
  apply list.Forall_forall, (bool_decide_unpack _). vm_compute. exact I.
Qed.

Lemma conflict_table_dom data_size :
  data_size ∈ [1; 2; 4; 8; 16] → is_Some (conflict_table !! data_size).
Proof.
  revert data_size. apply list.Forall_forall, (bool_decide_unpack _). vm_compute. exact I.
Qed.

(** ** Properties *)

(** C19. The handler's counting loop is right for every wavefront: with the
    table of the constructor, for any supported access size, any list of at most
    64 active lanes and any naturally aligned addresses, it returns the sum over
    the conflict sets of (largest number of different dwords requested from one
    bank, at least 1) - 1, the sum does not overflow, and all banks are empty
    again afterwards, so that one message never influences the next. *)
Theorem lds_conflicts_correct data_size css lane_ids items addrs :
  conflict_table !! data_size = Some css →
  Forall2 (λ item a, item_address item = Ok a) items addrs →
  length lane_ids = length items →
  (length items ≤ 64)%nat →
  Forall (λ a, a `mod` data_size = 0) addrs →
  count_conflicts data_size css lane_ids items =
  Ok (total_conflicts (lanes <$> css) (zip lane_ids addrs), css).
Proof.
  intros Ht Hia Hlen H64 Hal.
  destruct (conflict_table_ok _ _ Ht) as (_ & H8 & Hc & Hd & _). cbn [fst snd] in *.
  apply count_conflicts_spec; try done; [by apply pairs_disjoint_spec|].
  assert (Z.of_nat (length css) * Z.of_nat (length items) ≤ 8 * 64) by nia. lia.
Qed.

(** What a conflict count means: a conflict set whose banks were empty and
    that registered the accesses [accs] reports one less than the least number
    of rounds in which the 32 banks can serve them when a bank serves one dword
    per round and lanes wanting the same dword share it. *)
Theorem bank_conflict_count_rounds cs accs n :
  banks cs = replicate 32 ∅ → 1 ≤ n →
  bank_conflict_count
    (foldl (λ c a, (register_access c a.1 a.2).2) cs accs) + 1 ≤ n ↔
  served_in (lanes cs) accs n.
Proof.
  intros Hb Hn.
  assert (∀ accs0 c, holds accs0 c →
    let c' := foldl (λ c a, (register_access c a.1 a.2).2) c accs in
    lanes c' = lanes c ∧ holds (accs0 ++ accs) c') as H.
  { clear. induction accs as [|[l a] accs IH]; intros accs0 c Hc; cbn.
    { by rewrite app_nil_r. }
    destruct (IH (accs0 ++ [(l, a)]) (register_access c l a).2) as [Hl Hh].
    { by apply holds_register. }
    rewrite <-app_assoc in Hh. split; [by rewrite Hl, register_access_lanes|done]. }
  destruct (H [] cs) as [Hl Hh]; [by apply holds_nil|]. cbn in Hl, Hh.
  rewrite (holds_count _ _ Hh), Hl. symmetry. by apply served_in_iff.
Qed.

(** The constructor of the handler never trips its assertion and builds
    exactly the documented table: sizes 1, 2, 4, 8 and 16 and no other; for each
    size the documented sets in order, with empty banks, and every one of the 64
    lanes is in exactly one of them. *)
Theorem conflict_table_partition data_size :
  init_conflict_sets = Ok conflict_table ∧
  (is_Some (conflict_table !! data_size) ↔ data_size ∈ [1; 2; 4; 8; 16]) ∧
  ∀ css, conflict_table !! data_size = Some css →
    cleared css ∧ lanes <$> css = list_to_set <$> documented_sets data_size ∧
    ∀ l, 0 ≤ l < 64 → exists! i, ∃ cs, css !! i = Some cs ∧ l ∈ lanes cs.
Proof.
  split; [apply init_conflict_sets_ok|]. split.
  { split; [|apply conflict_table_dom]. intros [css Ht]. by apply conflict_table_ok in Ht as []. }
  intros css Ht. apply conflict_table_ok in Ht as (_ & _ & Hc & Hd & Hdoc & Hcov). cbn in *.
  split_and!; [done..|]. intros l Hl. rewrite list.Forall_forall in Hcov.
  destruct (proj1 (list.Exists_exists _ _) (Hcov l ltac:(apply elem_of_seqZ; lia)))
    as (cs & [i Hi]%list_elem_of_lookup & Hin).
  exists i. split; [by exists cs|]. intros j (cs' & Hj & Hin').
  by eapply pairs_disjoint_spec.
Qed.

(** Lanes 0 and 1 read different dwords of bank 0, lane 2 shares lane 0's. *)
Lemma lds_conflicts_correct_witness :
  ∃ css, conflict_table !! 4 = Some css ∧
    count_conflicts 4 css [0; 1; 2] [[0]; [128]; [0]] =
      Ok (total_conflicts (lanes <$> css) [(0, 0); (1, 128); (2, 0)], css) ∧
    total_conflicts (lanes <$> css) [(0, 0); (1, 128); (2, 0)] = 1.
Proof.
  destruct (conflict_table_dom 4 ltac:(by apply (bool_decide_unpack _))) as [css Hcss].
  exists css. split; [exact Hcss|]. split.
  - apply (lds_conflicts_correct 4 css [0; 1; 2] [[0]; [128]; [0]] [0; 128; 0]);
      [exact Hcss|by repeat constructor..| |by repeat constructor].
    cbn. lia.
  - apply conflict_table_ok in Hcss as (_ & _ & _ & _ & Hl & _). cbn [fst snd] in Hl.
    rewrite <-Hl. vm_compute. reflexivity.
Defined.

Lemma bank_conflict_count_rounds_witness :
  let cs := ConflictSet {[ 0; 1 ]} (replicate 32 ∅) in
  ¬ served_in (lanes cs) [(0, 0); (1, 128)] 1 ∧ served_in (lanes cs) [(0, 0); (1, 128)] 2.
Proof.
  split.
  - rewrite <-(bank_conflict_count_rounds (ConflictSet {[ 0; 1 ]} (replicate 32 ∅))
      [(0, 0); (1, 128)] 1) by (reflexivity || lia).
    vm_compute. intros H. by apply H.
  - rewrite <-(bank_conflict_count_rounds (ConflictSet {[ 0; 1 ]} (replicate 32 ∅))
      [(0, 0); (1, 128)] 2) by (reflexivity || lia).
    vm_compute. intros H. discriminate H.
Defined.
