(* ===== verification/CacheLines.v ===== *)
(** * L2 cache lines of a global memory access

    [get_dwarf_info] and the cache-line computation of
    [handle_cache_line_count_analysis] in src/src/memory_analysis_handler.cc:
    which access size the disassembly reports for a source location, how many
    cache lines the addresses of a message touch and how many they need. *)
From S2P Require Import Prelude StdString Message.

(** ** Access size from the disassembly *)
Section dwarf.
Context `{DhComms, KernelDB kdb}.
Variable hash : bytes → Z.   (* std::hash<std::string> *)

Record access_size_and_type := AccessSize { as_size : Z; as_type : Z }.

Definition with_type (ty : Z) (l : list (string * Z)) : list (bytes * access_size_and_type) :=
  (λ p, (lit p.1, AccessSize p.2 ty)) <$> l.

Definition instr_size_list : list (bytes * access_size_and_type) :=
  with_type ma_read
    [("global_load_ubyte", 1); ("global_load_sbyte", 1); ("global_load_ubyte_d16", 1);
     ("global_load_ubyte_d16_hi", 1); ("global_load_sbyte_d16", 1);
     ("global_load_sbyte_d16_hi", 1); ("global_load_ushort", 2); ("global_load_sshort", 2);
     ("global_load_short_d16", 2); ("global_load_short_d16_hi", 2);
     ("global_load_dword", 4); ("global_load_dwordx2", 8); ("global_load_dwordx3", 12);
     ("global_load_dwordx4", 16)]%string ++
  with_type ma_write
    [("global_store_byte", 1); ("global_store_byte_d16_hi", 1); ("global_store_short", 2);
     ("global_store_short_d16_hi", 2); ("global_store_dword", 4);
     ("global_store_dwordx2", 8); ("global_store_dwordx3", 12);
     ("global_store_dwordx4", 16)]%string ++
  with_type ma_read
    [("global_load_lds_ubyte", 1); ("global_load_lds_sbyte", 1);
     ("global_load_lds_ushort", 2); ("global_load_lds_sshort", 2);
     ("global_load_lds_dword", 4);
     ("buffer_load_ubyte", 1); ("buffer_load_sbyte", 1); ("buffer_load_ubyte_d16", 1);
     ("buffer_load_ubyte_d16_hi", 1); ("buffer_load_sbyte_d16", 1);
     ("buffer_load_sbyte_d16_hi", 1); ("buffer_load_ushort", 2); ("buffer_load_sshort", 2);
     ("buffer_load_short_d16", 2); ("buffer_load_short_d16_hi", 2);
     ("buffer_load_dword", 4); ("buffer_load_dwordx2", 8); ("buffer_load_dwordx3", 12);
     ("buffer_load_dwordx4", 16)]%string ++
  with_type ma_write
    [("buffer_store_byte", 1); ("buffer_store_byte_d16_hi", 1); ("buffer_store_short", 2);
     ("buffer_store_short_d16_hi", 2); ("buffer_store_dword", 4);
     ("buffer_store_dwordx2", 8); ("buffer_store_dwordx3", 12);
     ("buffer_store_dwordx4", 16)]%string.

Definition instr_size_map : gmap bytes access_size_and_type := list_to_map instr_size_list.

Record dwarf_info_t := DwarfInfo {
  di_fname : bytes;
  di_isa_instruction : bytes;
  di_access_size : Z;
}.
Definition no_dwarf_info : dwarf_info_t := DwarfInfo [] [] 0.

(** The loop over the instructions the database reports for the line. *)
Fixpoint find_instruction (db : kdb) (kernel_name : bytes) (hdr : wave_header_t)
    (instructions : list instruction_t) : res (option dwarf_info_t) :=
  match instructions with
  | [] => Ok None
  | inst :: rest =>
      let! kdb_dwarf_fname := getFileName db kernel_name (path_id_ inst) in
      if (hash kdb_dwarf_fname =? dwarf_fname_hash hdr) && (line_ inst =? dwarf_line hdr) &&
         (column_ inst =? dwarf_column hdr)
      then
        match instr_size_map !! inst_ inst with
        | Some s2u =>
            if as_type s2u =? rw_kind_of (user_data hdr)
            then Ok (Some (DwarfInfo kdb_dwarf_fname (inst_ inst) (as_size s2u)))
            else find_instruction db kernel_name hdr rest
        | None => find_instruction db kernel_name hdr rest
        end
      else find_instruction db kernel_name hdr rest
  end.

Definition get_dwarf_info (hdr : wave_header_t) (kernel_name : bytes) (kdb_p : option kdb)
    : res dwarf_info_t :=
  match kdb_p with
  | None => Ok no_dwarf_info
  | Some db =>
      match (let! instructions := getInstructionsForLine db kernel_name (dwarf_line hdr) in
             find_instruction db kernel_name hdr instructions) with
      | Ok (Some info) => Ok info
      | Ok None => Ok no_dwarf_info
      | Err (FThrow _) => Ok (DwarfInfo [] [] 65535)
      | Err f => Err f
      end
  end.
End dwarf.

(** ** Cache lines touched *)

(** [for (cache_line = cur; cache_line <= last; ++cache_line) insert(cache_line)] *)
Fixpoint insert_lines (fuel : nat) (cur last : Z) (cache_lines : gset Z) : res (gset Z) :=
  if cur <=? last then
    match fuel with
    | O => Err FDiverge
    | S fuel' => insert_lines fuel' (u64 (cur + 1)) last ({[ cur ]} ∪ cache_lines)
    end
  else Ok cache_lines.

Definition lines_of_item (line_size data_size : Z) (cache_lines : gset Z) (item : list Z)
    : res (gset Z) :=
  let! first_byte := item_address item in
  let last_byte := u64 (first_byte + data_size - 1) in
  let first_line := first_byte `div` line_size in
  let last_line := last_byte `div` line_size in
  insert_lines (Z.to_nat (last_line - first_line + 1)) first_line last_line cache_lines.

Definition cache_lines_of (line_size data_size : Z) (items : list (list Z)) : res (gset Z) :=
  res_fold (lines_of_item line_size data_size) ∅ items.

Definition min_cache_lines_needed (line_size data_size no_items : Z) : Z :=
  u64 (no_items * data_size + line_size - 1) `div` line_size.

(** ** Lemmas *)
Implicit Types (s cache_lines : gset Z) (items : list (list Z)) (addrs : list Z).

Lemma insert_lines_spec fuel cur last s :
  0 ≤ cur → last < 2 ^ 64 - 1 → (Z.to_nat (last - cur + 1) ≤ fuel)%nat →
  ∃ s', insert_lines fuel cur last s = Ok s' ∧ ∀ l, l ∈ s' ↔ l ∈ s ∨ cur ≤ l ≤ last.
Proof.
  revert cur s. induction fuel as [|fuel IH]; intros cur s H0 Hl Hf; cbn [insert_lines].
  { destruct (Z.leb_spec cur last); [lia|]. exists s. split; [done|]. intros l. intuition lia. }
  destruct (Z.leb_spec cur last).
  - rewrite wrap_small by lia.
    destruct (IH (cur + 1) ({[ cur ]} ∪ s)) as (s' & Hs' & Hin); [lia..|].
    exists s'. split; [done|]. intros l. rewrite Hin, elem_of_union, elem_of_singleton.
    intuition lia.
  - exists s. split; [done|]. intros l. intuition lia.
Qed.

(** A byte access that does not run past the end of the address space. *)
Definition access_fits (data_size a : Z) : Prop := 0 ≤ a ∧ a + data_size ≤ 2 ^ 64.

Definition touched (line_size data_size : Z) (addrs : list Z) (l : Z) : Prop :=
  ∃ a k, a ∈ addrs ∧ 0 ≤ k < data_size ∧ l = (a + k) `div` line_size.

Lemma line_between line_size a b l :
  0 < line_size → a ≤ b →
  a `div` line_size ≤ l ≤ b `div` line_size ↔ ∃ c, a ≤ c ≤ b ∧ l = c `div` line_size.
Proof.
  intros HL Hab. split.
  - intros [H1 H2]. exists (Z.max a (l * line_size)).
    pose proof (Z.mul_div_le b line_size HL). split; [nia|].
    destruct (Z.max_spec a (l * line_size)) as [[? ->]|[? ->]].
    + by rewrite Z.div_mul by lia.
    + apply Z.le_antisymm; [|done]. rewrite <-(Z.div_mul l line_size) by lia.
      apply Z.div_le_mono; lia.
  - intros (c & Hc & ->). split; apply Z.div_le_mono; lia.
Qed.

Lemma lines_of_item_spec line_size data_size s item a :
  2 ≤ line_size → 1 ≤ data_size → item_address item = Ok a → access_fits data_size a →
  ∃ s', lines_of_item line_size data_size s item = Ok s' ∧
    ∀ l, l ∈ s' ↔ l ∈ s ∨ touched line_size data_size [a] l.
Proof.
  intros HL Hd Hi [Ha0 Hfit]. unfold lines_of_item. rewrite Hi. cbn [res_bind].
  rewrite wrap_small by lia.
  pose proof (Z.div_pos a line_size Ha0 ltac:(lia)).
  assert ((a + data_size - 1) `div` line_size < 2 ^ 64 - 1).
  { apply Z.div_lt_upper_bound; nia. }
  destruct (insert_lines_spec (Z.to_nat ((a + data_size - 1) `div` line_size -
    a `div` line_size + 1)) (a `div` line_size) ((a + data_size - 1) `div` line_size) s)
    as (s' & Hs' & Hin); [lia..|].
  exists s'. split; [done|]. intros l. rewrite Hin, line_between by lia.
  unfold touched. setoid_rewrite list_elem_of_singleton.
  apply or_iff_compat_l. split.
  - intros (c & Hc & ->). exists a, (c - a). split_and!; [done|lia..|]. f_equal. lia.
  - intros (a' & k & -> & Hk & ->). exists (a + k). split; [lia|done].
Qed.

Lemma cache_lines_of_spec line_size data_size items addrs :
  2 ≤ line_size → 1 ≤ data_size →
  Forall2 (λ item a, item_address item = Ok a) items addrs →
  Forall (access_fits data_size) addrs →
  ∃ s, cache_lines_of line_size data_size items = Ok s ∧
    ∀ l, l ∈ s ↔ touched line_size data_size addrs l.
Proof.
  intros HL Hd Hia Hfit. unfold cache_lines_of.
  assert (∀ s0, ∃ s, res_fold (lines_of_item line_size data_size) s0 items = Ok s ∧
    ∀ l, l ∈ s ↔ l ∈ s0 ∨ touched line_size data_size addrs l) as H.
  { induction Hia as [|item a items addrs Hi Hia IH]; intros s0; cbn [res_fold].
    - exists s0. split; [done|]. intros l. split; [by left|]. intros [|(? & ? & []%elem_of_nil & ?)]; done.
    - apply list.Forall_cons in Hfit as [Hf Hfit].
      destruct (lines_of_item_spec line_size data_size s0 item a) as (s1 & -> & H1); [done..|].
      cbn [res_bind]. destruct (IH Hfit s1) as (s & Hs & H2). exists s. split; [done|].
      intros l. rewrite H2, H1. unfold touched. setoid_rewrite elem_of_cons.
      setoid_rewrite elem_of_nil. naive_solver. }
  destruct (H ∅) as (s & Hs & Hin). exists s. split; [done|]. intros l. rewrite Hin. set_solver.
Qed.

(** The loop over the lines ends for any address and size, also when the last byte
    wraps around: no line number is the largest 64-bit one. *)
Lemma cache_lines_total line_size data_size items :
  2 ≤ line_size → Forall readable_item items →
  ∃ s, cache_lines_of line_size data_size items = Ok s.
Proof.
  intros HL Hr. unfold cache_lines_of. generalize (∅ : gset Z). induction Hr as [|item items (a & Ha & Hb) _ IH];
    intros s0; cbn [res_fold]; [by exists s0|].
  unfold lines_of_item at 1. rewrite Ha. cbn [res_bind].
  pose proof (wrap_bound 64 (a + data_size - 1) ltac:(lia)) as Hw. set (last := u64 _) in *.
  destruct (insert_lines_spec (Z.to_nat (last `div` line_size - a `div` line_size + 1))
    (a `div` line_size) (last `div` line_size) s0) as (s1 & -> & _); [apply Z.div_pos; lia| |done|].
  { assert (last `div` line_size < 2 ^ 63); [|lia]. apply Z.div_lt_upper_bound; lia. }
  cbn [res_bind]. apply IH.
Qed.

Lemma ceil_div_le n L m : 0 < L → (n + L - 1) `div` L ≤ m ↔ n ≤ m * L.
Proof.
  intros HL. split.
  - intros H. pose proof (Z.mul_succ_div_gt (n + L - 1) L HL). nia.
  - intros H. apply Z.lt_succ_r, Z.div_lt_upper_bound; nia.
Qed.

(** The bytes accessed. *)
Definition bytes_of (data_size : Z) (addrs : list Z) : list Z :=
  addrs ≫= λ a, seqZ a data_size.

Lemma elem_of_bytes_of data_size addrs b :
  b ∈ bytes_of data_size addrs ↔ ∃ a k, a ∈ addrs ∧ 0 ≤ k < data_size ∧ b = a + k.
Proof.
  unfold bytes_of. rewrite list_elem_of_bind. setoid_rewrite elem_of_seqZ. split.
  - intros (a & Hb & Ha). exists a, (b - a). split_and!; [done|lia..].
  - intros (a & k & ? & ? & ->). exists a. split; [lia|done].
Qed.

Lemma length_bind_seqZ (f : Z → Z) n (l : list Z) :
  Z.of_nat (length (l ≫= λ x, seqZ (f x) n)) = Z.of_nat (length l) * Z.max 0 n.
Proof.
  induction l as [|x l IH]; [done|]. rewrite bind_cons, length_app, length_seqZ. cbn [length]. lia.
Qed.

(** Every line holds at most [line_size] of the bytes. *)
Lemma bytes_le_lines line_size data_size addrs s :
  0 < line_size → NoDup (bytes_of data_size addrs) →
  (∀ l, touched line_size data_size addrs l → l ∈ s) →
  Z.of_nat (length (bytes_of data_size addrs)) ≤ Z.of_nat (size s) * line_size.
Proof.
  intros HL Hnd Hs.
  assert (bytes_of data_size addrs ⊆+
    (elements s ≫= λ l, seqZ (l * line_size) line_size)) as Hsub.
  { apply NoDup_submseteq; [done|]. intros b (a & k & Ha & Hk & ->)%elem_of_bytes_of.
    apply list_elem_of_bind. exists ((a + k) `div` line_size). split.
    - apply elem_of_seqZ. pose proof (Z.div_mod (a + k) line_size ltac:(lia)).
      pose proof (Z.mod_pos_bound (a + k) line_size HL). lia.
    - apply elem_of_elements, Hs. by exists a, k. }
  apply submseteq_length in Hsub.
  pose proof (length_bind_seqZ (λ l, l * line_size) line_size (elements s)) as Hl.
  change (length (elements s)) with (size s) in Hl. lia.
Qed.

(** A consecutive block of bytes. *)
Lemma size_consecutive_lines line_size base n s :
  0 < line_size → 0 < n →
  (∀ l, l ∈ s ↔ ∃ c, base ≤ c ≤ base + n - 1 ∧ l = c `div` line_size) →
  Z.of_nat (size s) = (base + n - 1) `div` line_size - base `div` line_size + 1.
Proof.
  intros HL Hn Hs.
  pose proof (Z.div_le_mono base (base + n - 1) line_size HL ltac:(lia)).
  assert (s = list_to_set (seqZ (base `div` line_size)
    ((base + n - 1) `div` line_size - base `div` line_size + 1))) as ->.
  { apply set_eq. intros l. rewrite elem_of_list_to_set, elem_of_seqZ, Hs, <-line_between by lia.
    lia. }
  rewrite size_list_to_set by apply NoDup_seqZ. rewrite length_seqZ. lia.
Qed.

(** ** Properties *)

(** C27. The cache-line loop always terminates and computes exactly the lines
    touched: for a cache line size of at least 2, a positive access size and
    addresses whose accesses stay inside the 64-bit address space, line [l] is in
    the result iff some byte of some lane's access lies on it.  When no two lanes
    access the same byte, at least [min_cache_lines_needed] lines are used. *)
Theorem cache_lines_exact line_size data_size items addrs :
  2 ≤ line_size < 256 → 1 ≤ data_size →
  Forall2 (λ item a, item_address item = Ok a) items addrs →
  Forall (access_fits data_size) addrs →
  ∃ s, cache_lines_of line_size data_size items = Ok s ∧
    (∀ l, l ∈ s ↔ ∃ a k, a ∈ addrs ∧ 0 ≤ k < data_size ∧ l = (a + k) `div` line_size) ∧
    (NoDup (bytes_of data_size addrs) →
     Z.of_nat (length items) * data_size + line_size < 2 ^ 64 →
     min_cache_lines_needed line_size data_size (Z.of_nat (length items)) ≤ Z.of_nat (size s)).
Proof.
  intros HL Hd Hia Hfit.
  destruct (cache_lines_of_spec line_size data_size items addrs) as (s & Hs & Hin);
    [lia|done..|]. exists s. split_and!; [done..|]. intros Hnd Hov.
  unfold min_cache_lines_needed. rewrite wrap_small by nia. apply ceil_div_le; [lia|].
  pose proof (bytes_le_lines line_size data_size addrs s ltac:(lia) Hnd
    (λ l, proj2 (Hin l))) as Hb.
  unfold bytes_of in Hb. rewrite (length_bind_seqZ (λ a, a)) in Hb.
  apply Forall2_length in Hia. nia.
Qed.

(** Coalesced accesses: when the lanes together access one contiguous block
    of memory starting at [base] (in any lane order), the number of lines used is
    the number needed when [base] is aligned to a line, and never more than one
    above it, which is the excess the handler's heuristic tolerates. *)
Theorem coalesced_lines line_size data_size items addrs base :
  2 ≤ line_size < 256 → 1 ≤ data_size →
  Forall2 (λ item a, item_address item = Ok a) items addrs →
  Forall (access_fits data_size) addrs →
  items ≠ [] → Z.of_nat (length items) * data_size + line_size < 2 ^ 64 →
  bytes_of data_size addrs ≡ₚ seqZ base (Z.of_nat (length items) * data_size) →
  ∃ s, cache_lines_of line_size data_size items = Ok s ∧
    let needed := min_cache_lines_needed line_size data_size (Z.of_nat (length items)) in
    needed ≤ Z.of_nat (size s) ≤ needed + 1 ∧
    (base `mod` line_size = 0 → Z.of_nat (size s) = needed).
Proof.
  intros HL Hd Hia Hfit Hne Hov Hp.
  destruct (cache_lines_of_spec line_size data_size items addrs) as (s & Hs & Hin);
    [lia|done..|]. exists s. split; [done|]. cbn zeta.
  assert (0 < Z.of_nat (length items)) by (destruct items; cbn [length]; [done|lia]).
  set (n := Z.of_nat (length items) * data_size) in *.
  assert (0 < n) by nia.
  assert (Z.of_nat (size s) = (base + n - 1) `div` line_size - base `div` line_size + 1) as Hsz.
  { apply size_consecutive_lines; [lia..|]. intros l. rewrite Hin. split.
    - intros (a & k & Ha & Hk & ->). exists (a + k). split; [|done].
      assert (a + k ∈ bytes_of data_size addrs) as Hb by (apply elem_of_bytes_of; eauto).
      rewrite Hp, elem_of_seqZ in Hb. lia.
    - intros (c & Hc & ->). assert (c ∈ bytes_of data_size addrs) as Hb
        by (rewrite Hp, elem_of_seqZ; lia).
      apply elem_of_bytes_of in Hb as (a & k & ? & ? & ->). by exists a, k. }
  unfold min_cache_lines_needed. fold n. rewrite wrap_small by lia. rewrite Hsz.
  pose proof (Z.div_mod base line_size ltac:(lia)) as E1.
  pose proof (Z.mod_pos_bound base line_size ltac:(lia)) as B1.
  pose proof (Z.div_mod (base + n - 1) line_size ltac:(lia)) as E2.
  pose proof (Z.mod_pos_bound (base + n - 1) line_size ltac:(lia)) as B2.
  pose proof (Z.div_mod (n + line_size - 1) line_size ltac:(lia)) as E3.
  pose proof (Z.mod_pos_bound (n + line_size - 1) line_size ltac:(lia)) as B3.
  split; [split; nia|]. intros Hal. nia.
Qed.

Section dwarf_properties.
Context `{DhComms, KernelDB kdb}.
Variable hash : bytes → Z.

(** An ISA instruction for the message's file, line and column, of known size
    and of the message's kind of access. *)
Definition matches_source (hdr : wave_header_t) (fname : bytes) (inst : instruction_t) : Prop :=
  hash fname = dwarf_fname_hash hdr ∧ line_ inst = dwarf_line hdr ∧
  column_ inst = dwarf_column hdr ∧
  ∃ sz, instr_size_map !! inst_ inst = Some (AccessSize sz (rw_kind_of (user_data hdr))).

Lemma find_instruction_spec db kernel hdr insts (fname : instruction_t → bytes) :
  (∀ i, i ∈ insts → getFileName db kernel (path_id_ i) = Ok (fname i)) →
  match find_instruction hash db kernel hdr insts with
  | Ok (Some info) => ∃ pre i post, insts = pre ++ i :: post ∧
      matches_source hdr (fname i) i ∧
      Forall (λ j, ¬ matches_source hdr (fname j) j) pre ∧
      di_fname info = fname i ∧ di_isa_instruction info = inst_ i ∧
      instr_size_map !! inst_ i =
        Some (AccessSize (di_access_size info) (rw_kind_of (user_data hdr)))
  | Ok None => Forall (λ j, ¬ matches_source hdr (fname j) j) insts
  | Err _ => False
  end.
Proof.
  induction insts as [|i insts IH]; intros Hf; [by apply list.Forall_nil_2|]. cbn [find_instruction].
  rewrite (Hf i) by (by left). cbn [res_bind].
  assert (¬ matches_source hdr (fname i) i → match find_instruction hash db kernel hdr insts with
    | Ok (Some info) => ∃ pre i0 post, i :: insts = pre ++ i0 :: post ∧
        matches_source hdr (fname i0) i0 ∧
        Forall (λ j, ¬ matches_source hdr (fname j) j) pre ∧
        di_fname info = fname i0 ∧ di_isa_instruction info = inst_ i0 ∧
        instr_size_map !! inst_ i0 =
          Some (AccessSize (di_access_size info) (rw_kind_of (user_data hdr)))
    | Ok None => Forall (λ j, ¬ matches_source hdr (fname j) j) (i :: insts)
    | Err _ => False
    end) as Hskip.
  { intros Hno. specialize (IH ltac:(intros j Hj; apply Hf; by right)).
    destruct (find_instruction hash db kernel hdr insts) as [[info|]|]; [|by constructor|done].
    destruct IH as (pre & j & post & -> & Hm & Hpre & Hrest).
    exists (i :: pre), j, post. split; [done|]. split; [exact Hm|].
    split; [apply list.Forall_cons; by split|exact Hrest]. }
  destruct (_ && _) eqn:Hsrc; [|apply Hskip].
  2:{ intros (E1 & E2 & E3 & _). by rewrite E1, E2, E3, !Z.eqb_refl in Hsrc. }
  apply andb_true_iff in Hsrc as [[H1%Z.eqb_eq H2%Z.eqb_eq]%andb_true_iff H3%Z.eqb_eq].
  destruct (instr_size_map !! inst_ i) as [[sz ty]|] eqn:Hsz; cbn [as_type as_size].
  2:{ apply Hskip. intros (_ & _ & _ & ? & ?). congruence. }
  destruct (Z.eqb_spec ty (rw_kind_of (user_data hdr))) as [->|Hty].
  - exists [], i, insts. unfold matches_source. cbn. split_and!; eauto.
  - apply Hskip. intros (_ & _ & _ & ? & ?). congruence.
Qed.

(** Sizes of the table are real sizes, never the sentinels 0 and 0xffff. *)
Lemma instr_size_map_sizes inst s2u :
  instr_size_map !! inst = Some s2u → as_size s2u ∈ [1; 2; 4; 8; 12; 16].
Proof.
  intros Hl. apply elem_of_list_to_map_2 in Hl.
  assert (Forall (λ p, as_size p.2 ∈ [1; 2; 4; 8; 12; 16]) instr_size_list) as Hall.
  { repeat (apply list.Forall_cons; split; [by apply (bool_decide_unpack _)|]).
    apply list.Forall_nil_2. }
  rewrite list.Forall_forall in Hall. by apply (Hall (inst, s2u)).
Qed.

(** The access size taken from the disassembly.  Without a database there is
    no information; if the database knows no instruction for the line (it
    throws), the result is the sentinel 0xffff that makes the handler drop the
    message; otherwise the first instruction that matches the message's file,
    line, column and kind of access determines file, instruction and size, and
    its size can be confused with neither sentinel; with no such instruction the
    size stays 0. *)
Theorem get_dwarf_info_first_match (kdb_p : option kdb) hdr kernel :
  (∀ db i, kdb_p = Some db → is_Ok (getFileName db kernel (path_id_ i))) →
  (∀ db, kdb_p = Some db → ∀ f, getInstructionsForLine db kernel (dwarf_line hdr) = Err f →
    ∃ w, f = FThrow w) →
  ∃ info, get_dwarf_info hash hdr kernel kdb_p = Ok info ∧
    match kdb_p with
    | None => info = no_dwarf_info
    | Some db =>
        match getInstructionsForLine db kernel (dwarf_line hdr) with
        | Err _ => di_access_size info = 65535
        | Ok insts =>
            (∃ pre i post fname, insts = pre ++ i :: post ∧
               getFileName db kernel (path_id_ i) = Ok fname ∧ matches_source hdr fname i ∧
               (∀ j g, j ∈ pre → getFileName db kernel (path_id_ j) = Ok g →
                 ¬ matches_source hdr g j) ∧
               di_fname info = fname ∧ di_isa_instruction info = inst_ i ∧
               di_access_size info ∈ [1; 2; 4; 8; 12; 16]) ∨
            (info = no_dwarf_info ∧
             ∀ j g, j ∈ insts → getFileName db kernel (path_id_ j) = Ok g →
               ¬ matches_source hdr g j)
        end
    end.
Proof.
  intros Hfile Hthrow. destruct kdb_p as [db|]; [|by exists no_dwarf_info].
  specialize (Hthrow db eq_refl). specialize (λ i, Hfile db i eq_refl) as Hok. cbn [get_dwarf_info].
  destruct (getInstructionsForLine db kernel (dwarf_line hdr)) as [insts|f] eqn:Hi;
    cbn [res_bind].
  2:{ destruct (Hthrow f eq_refl) as [w ->]. by eexists. }
  set (fname i := match getFileName db kernel (path_id_ i) with Ok g => g | Err _ => [] end).
  assert (∀ i, getFileName db kernel (path_id_ i) = Ok (fname i)) as Hf.
  { intros i. unfold fname. by destruct (Hok i) as [g ->]. }
  pose proof (find_instruction_spec db kernel hdr insts fname (λ i _, Hf i)) as Hs.
  destruct (find_instruction hash db kernel hdr insts) as [[info|]|]; [| |done].
  - destruct Hs as (pre & i & post & -> & Hm & Hpre & Hn & Hin & Hsz).
    exists info. split; [done|]. left. exists pre, i, post, (fname i).
    do 3 (split; [done|]). split.
    + intros j g Hj Hg. rewrite Hf in Hg. injection Hg as <-.
      rewrite list.Forall_forall in Hpre. by apply Hpre.
    + split_and!; [done..|]. by apply instr_size_map_sizes in Hsz.
  - exists no_dwarf_info. split; [done|]. right. split; [done|]. intros j g Hj Hg.
    rewrite Hf in Hg. injection Hg as <-. rewrite list.Forall_forall in Hs. by apply Hs.
Qed.
End dwarf_properties.

(** ** Witnesses *)

(** Two lanes reading 4 bytes each, at 64 and 124: one cache line of 64 bytes. *)
Lemma cache_lines_exact_witness :
  ∃ s, cache_lines_of 64 4 [[64]; [124]] = Ok s ∧
    (∀ l, l ∈ s ↔ ∃ a k, a ∈ [64; 124] ∧ 0 ≤ k < 4 ∧ l = (a + k) `div` 64) ∧
    (NoDup (bytes_of 4 [64; 124]) → Z.of_nat 2 * 4 + 64 < 2 ^ 64 →
     min_cache_lines_needed 64 4 (Z.of_nat 2) ≤ Z.of_nat (size s)).
Proof.
  apply (cache_lines_exact 64 4 [[64]; [124]] [64; 124]); [lia|lia|by repeat constructor|].
  repeat constructor; cbn; lia.
Defined.

(** Sixteen lanes, descending addresses, one aligned line. *)
Lemma coalesced_lines_witness :
  let addrs := [188; 184; 180; 176; 172; 168; 164; 160; 156; 152; 148; 144; 140; 136; 132; 128] in
  ∃ s, cache_lines_of 64 4 ((λ a, [a]) <$> addrs) = Ok s ∧ Z.of_nat (size s) = 1.
Proof.
  intros addrs.
  destruct (coalesced_lines 64 4 ((λ a, [a]) <$> addrs) addrs 128) as (s & Hs & _ & Heq).
  - lia.
  - lia.
  - by repeat constructor.
  - repeat constructor; cbn; lia.
  - done.
  - vm_compute. reflexivity.
  - apply (bool_decide_unpack _). vm_compute. exact I.
  - exists s. split; [exact Hs|]. rewrite Heq by reflexivity. vm_compute. reflexivity.
Defined.

Lemma get_dwarf_info_first_match_witness :
  let db := TableKdb [(lit "k", Instruction (lit "v_add_u32") [] 7 3 0 0);
                      (lit "k", Instruction (lit "global_load_dwordx4") [] 7 3 0 0)] [] [] in
  let hdr := WaveHeader 0 1 1 0 5 7 3 1 0 0 0 0 0 0 0 1 in
  let KD := {| getInstructionsForLine := @getInstructionsForLine _ kernel_db_values;
               getFileName _ _ _ := Ok (lit "a.cpp");
               getBasicBlocks := @getBasicBlocks _ kernel_db_values;
               getInstructions := @getInstructions _ kernel_db_values |} in
  ∃ info, @get_dwarf_info dh_comms_values _ KD (λ _, 5) hdr (lit "k") (Some db) = Ok info ∧
    di_access_size info = 16.
Proof.
  intros db hdr KD.
  destruct (@get_dwarf_info_first_match dh_comms_values _ KD (λ _, 5) (Some db) hdr (lit "k"))
    as (info & Hi & _).
  - intros db' i _. by eexists.
  - intros db' [= <-] f. vm_compute. congruence.
  - exists info. split; [exact Hi|]. vm_compute in Hi. injection Hi as <-. reflexivity.
Defined.
