(* ===== verification/MemoryAnalysis.v ===== *)
(** * Memory access analysis

    [memory_analysis_handler_t] of src/src/memory_analysis_handler.cc: the
    per-location statistics it keeps and its message handler.  Diagnostics it
    prints when [verbose_] is set do not change its state and are left out.  [trips]:
    the messages that one of its assertions does not let pass. *)
From S2P Require Import Prelude StdString Message BankConflicts CacheLines.

(** ** Data *)
Record memory_accesses_t := MemoryAccesses {
  no_accesses : Z;
  ir_access_size : Z;
  isa_access_size : Z;
  rw_kind : Z;
  isa_instruction : bytes;
}.

Record lds_accesses_t := LdsAccesses {
  lds_base : memory_accesses_t;
  no_bank_conflicts : Z;
}.

Record global_accesses_t := GlobalAccesses {
  global_base : memory_accesses_t;
  min_cache_lines : Z;
  no_cache_lines_used : Z;
}.

(** [std::map<std::string, std::map<uint16_t, std::map<uint16_t, std::vector<T>>>>] *)
Abbreviation file_line_col_access_t T := (gmap bytes (gmap Z (gmap Z (list T)))).

Record mem_state := MemState {
  conflict_sets : gmap Z (list conflict_set);
  global_accesses : file_line_col_access_t global_accesses_t;
  lds_accesses : file_line_col_access_t lds_accesses_t;
  fname_hash_to_fname : gmap Z bytes;
}.

(** The vector a triple index refers to ([operator[]] creates what is missing). *)
Definition accesses_at {T} (m : file_line_col_access_t T) (fname : bytes) (line column : Z)
    : list T :=
  default [] (m !! fname ≫= λ lines, lines !! u16 line ≫= λ cols, cols !! u16 column).

Definition update_accesses {T} (m : file_line_col_access_t T) (fname : bytes)
    (line column : Z) (accesses : list T) : file_line_col_access_t T :=
  let lines := default ∅ (m !! fname) in
  let cols := default ∅ (lines !! u16 line) in
  <[ fname := <[ u16 line := <[ u16 column := accesses ]> cols ]> lines ]> m.

(** [std::find_if] over the vector, then update in place or [push_back]. *)
Fixpoint record_access {T} (same : T → bool) (merge : T → T) (new : T) (accesses : list T)
    : list T :=
  match accesses with
  | [] => [new]
  | x :: rest =>
      if same x then merge x :: rest else x :: record_access same merge new rest
  end.

Definition same_access (a b : memory_accesses_t) : bool :=
  (ir_access_size a =? ir_access_size b) && (isa_access_size a =? isa_access_size b) &&
  (rw_kind a =? rw_kind b).

Definition count_access (a : memory_accesses_t) : memory_accesses_t :=
  MemoryAccesses (u64 (no_accesses a + 1)) (ir_access_size a) (isa_access_size a) (rw_kind a)
    (isa_instruction a).

Definition record_global (new : global_accesses_t) : list global_accesses_t → list global_accesses_t :=
  record_access (λ a, same_access (global_base a) (global_base new))
    (λ a, GlobalAccesses (count_access (global_base a))
            (u64 (min_cache_lines a + min_cache_lines new))
            (u64 (no_cache_lines_used a + no_cache_lines_used new))) new.

Definition record_lds (new : lds_accesses_t) : list lds_accesses_t → list lds_accesses_t :=
  record_access (λ a, same_access (lds_base a) (lds_base new))
    (λ a, LdsAccesses (count_access (lds_base a))
            (u64 (no_bank_conflicts a + no_bank_conflicts new))) new.

(** ** The message handler *)
Section handler.
Context `{DhComms, KernelDB kdb}.
Variable hash : bytes → Z.
Variable kdb_p : option kdb.
Variable kernel_name : bytes.

Definition handle_cache_line_count_analysis (message : message_t) (st : mem_state)
    : res (bool * mem_state) :=
  let hdr := wave_header message in
  let line_size := u8 (get_l2_cache_line_size (arch hdr)) in
  if line_size =? 0 then Ok (false, st) else
  let rw := rw_kind_of (user_data hdr) in
  let ir_data_size := data_size_of (user_data hdr) in
  let! dwarf_info := get_dwarf_info hash hdr kernel_name kdb_p in
  if di_access_size dwarf_info =? 65535 then Ok (true, st) else
  let data_size_corrected :=
    negb (di_access_size dwarf_info =? 0) && negb (di_access_size dwarf_info =? ir_data_size) in
  let data_size :=
    if data_size_corrected then di_access_size dwarf_info else ir_data_size in
  let needed := min_cache_lines_needed line_size data_size (no_data_items message) in
  let! cache_lines := cache_lines_of line_size data_size (data_items message) in
  let used := Z.of_nat (size cache_lines) in
  if data_size_corrected && (used =? u64 (needed + 1)) then Ok (true, st) else
  let fname := di_fname dwarf_info in
  let accesses := accesses_at (global_accesses st) fname (dwarf_line hdr) (dwarf_column hdr) in
  let current_access :=
    GlobalAccesses (MemoryAccesses 1 ir_data_size (di_access_size dwarf_info) rw
                      (di_isa_instruction dwarf_info)) needed used in
  Ok (true, MemState (conflict_sets st)
        (update_accesses (global_accesses st) fname (dwarf_line hdr) (dwarf_column hdr)
           (record_global current_access accesses))
        (lds_accesses st)
        (<[ dwarf_fname_hash hdr := fname ]> (fname_hash_to_fname st))).

Definition unknown_source_file : bytes := lit "<unknown source file>".

Definition handle_bank_conflict_analysis (message : message_t) (st : mem_state)
    : res (bool * mem_state) :=
  let hdr := wave_header message in
  let lane_ids := get_lane_ids_of_active_lanes (exec hdr) in
  let! _ := assertb (no_data_items message =? Z.of_nat (length lane_ids)) in
  let rw := rw_kind_of (user_data hdr) in
  let data_size := data_size_of (user_data hdr) in
  match conflict_sets st !! data_size with
  | None => Ok (false, st)
  | Some css =>
      let! ' (bank_conflicts, css') :=
        count_conflicts data_size css lane_ids (data_items message) in
      let known := default [] (fname_hash_to_fname st !! dwarf_fname_hash hdr) in
      let fname := if decide (known = []) then unknown_source_file else known in
      let accesses := accesses_at (lds_accesses st) fname (dwarf_line hdr) (dwarf_column hdr) in
      let current_access :=
        LdsAccesses (MemoryAccesses 1 data_size 0 rw []) bank_conflicts in
      Ok (true, MemState (<[ data_size := css' ]> (conflict_sets st)) (global_accesses st)
            (update_accesses (lds_accesses st) fname (dwarf_line hdr) (dwarf_column hdr)
               (record_lds current_access accesses))
            (<[ dwarf_fname_hash hdr := known ]> (fname_hash_to_fname st)))
  end.

Definition handle (message : message_t) (st : mem_state) : res (bool * mem_state) :=
  let hdr := wave_header message in
  if negb (user_type hdr =? mt_address) then Ok (false, st) else
  let! _ := assertb (data_item_size message =? 8) in
  let mspace := mspace_of (user_data hdr) in
  if mspace =? as_global then handle_cache_line_count_analysis message st
  else if mspace =? as_shared then handle_bank_conflict_analysis message st
  else Ok (false, st).
End handler.

Definition new_handler : res mem_state :=
  let! css := init_conflict_sets in Ok (MemState css ∅ ∅ ∅).

Definition clear (st : mem_state) : mem_state :=
  MemState (conflict_sets st) ∅ ∅ (fname_hash_to_fname st).

(** ** Lemmas: the per-location vectors *)

(** Two accesses of a location are merged when they agree on this triple. *)
Definition kind_of (a : memory_accesses_t) : Z * Z * Z :=
  (ir_access_size a, isa_access_size a, rw_kind a).

Lemma same_access_kind a b : same_access a b = bool_decide (kind_of a = kind_of b).
Proof.
  unfold same_access, kind_of. apply eq_true_iff_eq.
  rewrite bool_decide_eq_true, !andb_true_iff, !Z.eqb_eq.
  split; [by intros [[-> ->] ->]|by intros [= -> -> ->]].
Qed.

Section records.
Context {T K : Type} `{EqDecision K} (key : T → K).

Fixpoint find_key (k : K) (l : list T) : option T :=
  match l with
  | [] => None
  | x :: l' => if decide (key x = k) then Some x else find_key k l'
  end.

Lemma find_key_record (merge : T → T) new k l :
  (∀ x, key (merge x) = key x) →
  find_key k (record_access (λ x, bool_decide (key x = key new)) merge new l) =
  if decide (k = key new)
  then Some (match find_key k l with Some x => merge x | None => new end)
  else find_key k l.
Proof.
  intros Hm. induction l as [|x l IH]; cbn.
  { repeat (case_decide; simplify_eq); congruence. }
  case_bool_decide as Hx; cbn.
  - rewrite Hm. repeat (case_decide; simplify_eq); congruence.
  - rewrite IH. repeat (case_decide; simplify_eq); congruence.
Qed.

Lemma record_access_keys (merge : T → T) new l :
  (∀ x, key (merge x) = key x) →
  key <$> record_access (λ x, bool_decide (key x = key new)) merge new l =
  if decide (key new ∈ key <$> l) then key <$> l else (key <$> l) ++ [key new].
Proof.
  intros Hm. induction l as [|x l IH]; cbn.
  { rewrite decide_False; [done|]. apply not_elem_of_nil. }
  case_bool_decide as Hx; cbn.
  - rewrite Hm, decide_True; [done|]. rewrite Hx. by left.
  - change (list_fmap T K key ?m) with (key <$> m) in *. rewrite IH.
    case_decide as Hin.
    + rewrite decide_True; [done|]. by right.
    + rewrite decide_False; [done|]. by intros [|]%elem_of_cons.
Qed.

Lemma record_access_NoDup (merge : T → T) new l :
  (∀ x, key (merge x) = key x) → NoDup (key <$> l) →
  NoDup (key <$> record_access (λ x, bool_decide (key x = key new)) merge new l).
Proof.
  intros Hm Hl. rewrite record_access_keys by done. case_decide as Hin; [done|].
  apply list.NoDup_app. split_and!; [done|set_solver|apply NoDup_singleton].
Qed.
End records.

Lemma accesses_at_update {T} (m : file_line_col_access_t T) f l c acc f' l' c' :
  accesses_at (update_accesses m f l c acc) f' l' c' =
  if decide (f' = f ∧ u16 l' = u16 l ∧ u16 c' = u16 c) then acc else accesses_at m f' l' c'.
Proof.
  unfold accesses_at, update_accesses.
  destruct (decide (f' = f)) as [->|Hf].
  2:{ rewrite lookup_insert_ne by done. rewrite decide_False; [done|]. by intros []. }
  rewrite lookup_insert_eq. cbn.
  destruct (decide (u16 l' = u16 l)) as [El|Hl].
  2:{ rewrite lookup_insert_ne by done. rewrite decide_False by naive_solver.
      by destruct (m !! f); cbn; rewrite ?lookup_empty. }
  rewrite El, lookup_insert_eq. cbn.
  destruct (decide (u16 c' = u16 c)) as [Ec|Hc].
  - by rewrite Ec, lookup_insert_eq, decide_True by done.
  - rewrite lookup_insert_ne, decide_False by naive_solver.
    destruct (m !! f) as [lines|]; cbn; [|by rewrite !lookup_empty].
    destruct (lines !! u16 l); cbn; by rewrite ?lookup_empty.
Qed.

Definition global_kind (a : global_accesses_t) : Z * Z * Z := kind_of (global_base a).
Definition lds_kind (a : lds_accesses_t) : Z * Z * Z := kind_of (lds_base a).

(** The statistics kept for a source location and kind of access. *)
Definition global_stat (st : mem_state) (f : bytes) (l c : Z) (k : Z * Z * Z)
    : option global_accesses_t :=
  find_key global_kind k (accesses_at (global_accesses st) f l c).
Definition lds_stat (st : mem_state) (f : bytes) (l c : Z) (k : Z * Z * Z)
    : option lds_accesses_t :=
  find_key lds_kind k (accesses_at (lds_accesses st) f l c).

Lemma record_global_alt new l :
  record_global new l = record_access (λ a, bool_decide (global_kind a = global_kind new))
    (λ a, GlobalAccesses (count_access (global_base a))
            (u64 (min_cache_lines a + min_cache_lines new))
            (u64 (no_cache_lines_used a + no_cache_lines_used new))) new l.
Proof.
  unfold record_global. induction l as [|x l IH]; [done|]. cbn.
  rewrite same_access_kind, IH. done.
Qed.

Lemma record_lds_alt new l :
  record_lds new l = record_access (λ a, bool_decide (lds_kind a = lds_kind new))
    (λ a, LdsAccesses (count_access (lds_base a))
            (u64 (no_bank_conflicts a + no_bank_conflicts new))) new l.
Proof.
  unfold record_lds. induction l as [|x l IH]; [done|]. cbn.
  rewrite same_access_kind, IH. done.
Qed.

(** ** Well-formed states *)
Definition distinct_kinds {T} (base : T → memory_accesses_t) (m : file_line_col_access_t T) : Prop :=
  ∀ f l c, NoDup ((λ a, kind_of (base a)) <$> accesses_at m f l c).

Record wf_state (st : mem_state) : Prop := {
  wf_sets : conflict_sets st = conflict_table;
  wf_global : distinct_kinds global_base (global_accesses st);
  wf_lds : distinct_kinds lds_base (lds_accesses st);
}.

Lemma distinct_kinds_empty {T} (base : T → memory_accesses_t) : distinct_kinds base ∅.
Proof. intros f l c. unfold accesses_at. rewrite lookup_empty. apply NoDup_nil_2. Qed.

Lemma distinct_kinds_update {T} (base : T → memory_accesses_t) m f l c acc :
  distinct_kinds base m → NoDup ((λ a, kind_of (base a)) <$> acc) →
  distinct_kinds base (update_accesses m f l c acc).
Proof.
  intros Hm Hacc f' l' c'. rewrite accesses_at_update. by case_decide.
Qed.

(** ** Correctness of the handler *)
Section handler_correct.
Context `{DC : DhComms, DL : !DhCommsLaws, KD : KernelDB kdb}.
Variable hash : bytes → Z.
Variable kdb_p : option kdb.
Variable kernel_name : bytes.
Implicit Types (m : message_t) (st : mem_state).

Abbreviation dwarf m := (get_dwarf_info hash (wave_header m) kernel_name kdb_p).

(** Every lane's data item holds the address of [addrs] at its position. *)
Definition carries (m : message_t) (addrs : list Z) : Prop :=
  data_item_size m = 8 ∧ Forall2 (λ item a, item_address item = Ok a) (data_items m) addrs.

Definition is_space (m : message_t) (space : Z) : Prop :=
  user_type (wave_header m) = mt_address ∧ mspace_of (user_data (wave_header m)) = space.

(** The size the analysis uses: the ISA's when it is known. *)
Definition effective_size (m : message_t) (info : dwarf_info_t) : Z :=
  if di_access_size info =? 0 then data_size_of (user_data (wave_header m))
  else di_access_size info.

Definition corrected (m : message_t) (info : dwarf_info_t) : Prop :=
  di_access_size info ≠ 0 ∧ di_access_size info ≠ data_size_of (user_data (wave_header m)).

Definition line_size_of (m : message_t) : Z := get_l2_cache_line_size (arch (wave_header m)).

Definition global_needed (m : message_t) (info : dwarf_info_t) : Z :=
  min_cache_lines_needed (line_size_of m) (effective_size m info) (no_data_items m).

(** A global message that can be analysed: known hardware, not folded into
    another instruction, accesses inside the address space. *)
Record global_ok (m : message_t) (info : dwarf_info_t) (addrs : list Z) : Prop := {
  go_space : is_space m as_global;
  go_carries : carries m addrs;
  go_line : line_size_of m ≠ 0;
  go_dwarf : dwarf m = Ok info;
  go_found : di_access_size info ≠ 65535;
  go_size : 1 ≤ effective_size m info;
  go_fits : Forall (access_fits (effective_size m info)) addrs;
}.

Lemma line_size_u8 m : line_size_of m ≠ 0 →
  u8 (get_l2_cache_line_size (arch (wave_header m))) = line_size_of m ∧ 2 ≤ line_size_of m < 256.
Proof.
  intros Hne. unfold line_size_of in *.
  destruct (cache_line_size_spec (arch (wave_header m))) as [?|?]; [done|].
  split; [|done]. apply wrap_small. lia.
Qed.

Lemma effective_size_spec m info :
  (if negb (di_access_size info =? 0) &&
      negb (di_access_size info =? data_size_of (user_data (wave_header m)))
   then di_access_size info else data_size_of (user_data (wave_header m))) =
  effective_size m info.
Proof.
  unfold effective_size. destruct (Z.eqb_spec (di_access_size info) 0); [done|]. cbn.
  by destruct (Z.eqb_spec (di_access_size info) (data_size_of (user_data (wave_header m)))).
Qed.

Lemma as_shared_global : as_shared ≠ as_global.
Proof.
  pose proof as_distinct as Hd. rewrite !list.NoDup_cons in Hd.
  destruct Hd as (_ & Hn & _). intros He. apply Hn. rewrite <-He. right. by left.
Qed.

Lemma handle_dispatch m st :
  user_type (wave_header m) = mt_address → data_item_size m = 8 →
  handle hash kdb_p kernel_name m st =
    if decide (mspace_of (user_data (wave_header m)) = as_global)
    then handle_cache_line_count_analysis hash kdb_p kernel_name m st
    else if decide (mspace_of (user_data (wave_header m)) = as_shared)
    then handle_bank_conflict_analysis m st else Ok (false, st).
Proof.
  intros Ht Hs. unfold handle. rewrite Ht, Hs, Z.eqb_refl. cbn [negb assertb Z.eqb Pos.eqb res_bind].
  destruct (Z.eqb_spec (mspace_of (user_data (wave_header m))) as_global);
    [by rewrite decide_True|rewrite decide_False by done].
  destruct (Z.eqb_spec (mspace_of (user_data (wave_header m))) as_shared);
    [by rewrite decide_True|by rewrite decide_False].
Qed.

(** The two outcomes for an analysable global message. *)
Lemma handle_global_cases m st info addrs :
  global_ok m info addrs →
  ∃ lines, cache_lines_of (line_size_of m) (effective_size m info) (data_items m) = Ok lines ∧
    (∀ l, l ∈ lines ↔ touched (line_size_of m) (effective_size m info) addrs l) ∧
    let used := Z.of_nat (size lines) in
    let drop := bool_decide (corrected m info ∧ used = u64 (global_needed m info + 1)) in
    let hdr := wave_header m in
    handle hash kdb_p kernel_name m st = Ok (true,
      if drop then st else
      MemState (conflict_sets st)
        (update_accesses (global_accesses st) (di_fname info) (dwarf_line hdr) (dwarf_column hdr)
          (record_global (GlobalAccesses (MemoryAccesses 1 (data_size_of (user_data hdr))
              (di_access_size info) (rw_kind_of (user_data hdr)) (di_isa_instruction info))
              (global_needed m info) used)
            (accesses_at (global_accesses st) (di_fname info) (dwarf_line hdr) (dwarf_column hdr))))
        (lds_accesses st) (<[ dwarf_fname_hash hdr := di_fname info ]> (fname_hash_to_fname st))).
Proof.
  intros [[Ht Hs] [Hsz Hia] Hl Hd Hf H1 Hfit].
  destruct (line_size_u8 m Hl) as [Hu HL].
  destruct (cache_lines_of_spec (line_size_of m) (effective_size m info) (data_items m) addrs)
    as (lines & Hc & Hin); [lia|done..|].
  exists lines. do 2 (split; [done|]). cbn zeta.
  rewrite handle_dispatch, decide_True by done. unfold handle_cache_line_count_analysis.
  rewrite Hu, (proj2 (Z.eqb_neq _ _) Hl), Hd. cbn [res_bind].
  rewrite (proj2 (Z.eqb_neq _ _) Hf), effective_size_spec. fold (global_needed m info).
  rewrite Hc. cbn [res_bind].
  assert (negb (di_access_size info =? 0) &&
      negb (di_access_size info =? data_size_of (user_data (wave_header m))) &&
      (Z.of_nat (size lines) =? u64 (global_needed m info + 1)) =
    bool_decide (corrected m info ∧ Z.of_nat (size lines) = u64 (global_needed m info + 1))) as ->.
  { apply eq_true_iff_eq. unfold corrected.
    rewrite bool_decide_eq_true, !andb_true_iff, !negb_true_iff, !Z.eqb_neq, Z.eqb_eq. tauto. }
  by case_bool_decide.
Qed.

Lemma global_stat_update st cs lds fh f l c new f' l' c' k :
  global_stat (MemState cs (update_accesses (global_accesses st) f l c
      (record_global new (accesses_at (global_accesses st) f l c))) lds fh) f' l' c' k =
  if decide (f' = f ∧ u16 l' = u16 l ∧ u16 c' = u16 c ∧ k = global_kind new)
  then Some (match global_stat st f' l' c' k with
             | Some a => GlobalAccesses (count_access (global_base a))
                 (u64 (min_cache_lines a + min_cache_lines new))
                 (u64 (no_cache_lines_used a + no_cache_lines_used new))
             | None => new end)
  else global_stat st f' l' c' k.
Proof.
  unfold global_stat. cbn [global_accesses]. rewrite accesses_at_update.
  destruct (decide (f' = f ∧ u16 l' = u16 l ∧ u16 c' = u16 c)) as [(-> & El & Ec)|Hne].
  - rewrite record_global_alt, find_key_record by done.
    assert (accesses_at (global_accesses st) f l' c' = accesses_at (global_accesses st) f l c)
      as -> by (unfold accesses_at; by rewrite El, Ec).
    destruct (decide (k = _)) as [->|]; [by rewrite decide_True|].
    rewrite decide_False; [done|]. naive_solver.
  - rewrite decide_False; [done|]. naive_solver.
Qed.

Lemma lds_stat_update st cs gl fh f l c new f' l' c' k :
  lds_stat (MemState cs gl (update_accesses (lds_accesses st) f l c
      (record_lds new (accesses_at (lds_accesses st) f l c))) fh) f' l' c' k =
  if decide (f' = f ∧ u16 l' = u16 l ∧ u16 c' = u16 c ∧ k = lds_kind new)
  then Some (match lds_stat st f' l' c' k with
             | Some a => LdsAccesses (count_access (lds_base a))
                 (u64 (no_bank_conflicts a + no_bank_conflicts new))
             | None => new end)
  else lds_stat st f' l' c' k.
Proof.
  unfold lds_stat. cbn [lds_accesses]. rewrite accesses_at_update.
  destruct (decide (f' = f ∧ u16 l' = u16 l ∧ u16 c' = u16 c)) as [(-> & El & Ec)|Hne].
  - rewrite record_lds_alt, find_key_record by done.
    assert (accesses_at (lds_accesses st) f l' c' = accesses_at (lds_accesses st) f l c)
      as -> by (unfold accesses_at; by rewrite El, Ec).
    destruct (decide (k = _)) as [->|]; [by rewrite decide_True|].
    rewrite decide_False; [done|]. naive_solver.
  - rewrite decide_False; [done|]. naive_solver.
Qed.

Definition drops (m : message_t) (info : dwarf_info_t) (used : Z) : Prop :=
  corrected m info ∧ used = u64 (global_needed m info + 1).

(** C21. A global memory access.  For an analysable message the handler succeeds;
    it drops the message exactly when the access size was corrected from the
    disassembly and one line more than needed was touched; otherwise the entry of
    the message's file, line, column, sizes and kind of access, and no other,
    gains one execution, the lines needed and the number of distinct lines
    touched, while LDS statistics and conflict sets stay as they are. *)
Theorem handle_global_statistics m st info addrs :
  global_ok m info addrs →
  ∃ lines st',
    (∀ l, l ∈ lines ↔ touched (line_size_of m) (effective_size m info) addrs l) ∧
    handle hash kdb_p kernel_name m st = Ok (true, st') ∧
    let used := Z.of_nat (size (lines : gset Z)) in
    let hdr := wave_header m in
    let new := GlobalAccesses (MemoryAccesses 1 (data_size_of (user_data hdr))
      (di_access_size info) (rw_kind_of (user_data hdr)) (di_isa_instruction info))
      (global_needed m info) used in
    lds_accesses st' = lds_accesses st ∧ conflict_sets st' = conflict_sets st ∧
    (drops m info used → st' = st) ∧
    (¬ drops m info used → ∀ f l c k, global_stat st' f l c k =
      if decide (f = di_fname info ∧ u16 l = u16 (dwarf_line hdr) ∧
                 u16 c = u16 (dwarf_column hdr) ∧ k = global_kind new)
      then Some (match global_stat st f l c k with
                 | Some a => GlobalAccesses (count_access (global_base a))
                     (u64 (min_cache_lines a + global_needed m info))
                     (u64 (no_cache_lines_used a + used))
                 | None => new end)
      else global_stat st f l c k).
Proof.
  intros Hok. destruct (handle_global_cases m st info addrs Hok) as (lines & _ & Hin & Hh).
  cbn zeta in Hh. exists lines. eexists. split; [done|]. split; [exact Hh|]. cbn zeta.
  case_bool_decide as Hdrop.
  - do 2 (split; [reflexivity|]). split; [done|]. by intros [].
  - do 2 (split; [reflexivity|]). split; [by intros|]. intros _ f l c k.
    rewrite global_stat_update. reflexivity.
Qed.

(** A shared-memory message: one data item per active lane, naturally aligned. *)
Record lds_ok (m : message_t) (addrs : list Z) : Prop := {
  lo_space : is_space m as_shared;
  lo_carries : carries m addrs;
  lo_lanes : length (get_lane_ids_of_active_lanes (exec (wave_header m))) =
             length (data_items m);
  lo_aligned : Forall (λ a, a `mod` data_size_of (user_data (wave_header m)) = 0) addrs;
}.

Definition source_name (st : mem_state) (m : message_t) : bytes :=
  let known := default [] (fname_hash_to_fname st !! dwarf_fname_hash (wave_header m)) in
  if decide (known = []) then unknown_source_file else known.

Lemma lane_ids_length e : (length (get_lane_ids_of_active_lanes e) ≤ 64)%nat.
Proof.
  assert (get_lane_ids_of_active_lanes e ⊆+ seqZ 0 64) as Hs.
  { apply NoDup_submseteq; [apply lane_ids_NoDup|]. intros l Hl%lane_ids_spec.
    apply elem_of_seqZ. lia. }
  by apply submseteq_length in Hs.
Qed.

Lemma handle_lds_cases m st addrs :
  wf_state st → lds_ok m addrs →
  let hdr := wave_header m in
  let size := data_size_of (user_data hdr) in
  handle hash kdb_p kernel_name m st =
    match conflict_table !! size with
    | None => Ok (false, st)
    | Some css =>
        let n := total_conflicts (lanes <$> css)
          (zip (get_lane_ids_of_active_lanes (exec hdr)) addrs) in
        Ok (true, MemState (conflict_sets st) (global_accesses st)
          (update_accesses (lds_accesses st) (source_name st m) (dwarf_line hdr) (dwarf_column hdr)
            (record_lds (LdsAccesses (MemoryAccesses 1 size 0 (rw_kind_of (user_data hdr)) []) n)
              (accesses_at (lds_accesses st) (source_name st m) (dwarf_line hdr) (dwarf_column hdr))))
          (<[ dwarf_fname_hash hdr :=
              default [] (fname_hash_to_fname st !! dwarf_fname_hash hdr) ]>
            (fname_hash_to_fname st)))
    end.
Proof.
  intros Hwf [[Ht Hs] [Hsz Hia] Hlen Hal]. cbn zeta.
  rewrite handle_dispatch, decide_False, decide_True by (congruence || (rewrite Hs; apply as_shared_global)).
  unfold handle_bank_conflict_analysis. rewrite (wf_sets st Hwf).
  rewrite (proj2 (Z.eqb_eq _ _)) by (unfold no_data_items; lia). cbn [assertb res_bind].
  destruct (conflict_table !! _) as [css|] eqn:Hcss; [|done].
  destruct (conflict_table_ok _ _ Hcss) as (_ & H8 & Hc & Hd & _). cbn [fst snd] in *.
  rewrite (count_conflicts_spec _ css _ _ addrs); try done.
  - cbn [res_bind]. rewrite insert_id by done. done.
  - by apply pairs_disjoint_spec.
  - pose proof (lane_ids_length (exec (wave_header m))).
    assert (Z.of_nat (length css) * Z.of_nat (length (data_items m)) ≤ 8 * 64) by nia. lia.
Qed.

(** C20. A shared-memory access.  In a well-formed state the handler rejects an
    unsupported access size without touching its state; for a supported one it
    succeeds, adds one execution and the number of bank conflicts of this very
    message (as specified by [total_conflicts], independent of earlier messages)
    to the entry of the message's file, line, column, size and kind, and changes
    no other statistic. *)
Theorem handle_lds_statistics m st addrs :
  wf_state st → lds_ok m addrs →
  let hdr := wave_header m in
  let size := data_size_of (user_data hdr) in
  (size ∉ [1; 2; 4; 8; 16] → handle hash kdb_p kernel_name m st = Ok (false, st)) ∧
  (∀ css, conflict_table !! size = Some css → ∃ st',
    handle hash kdb_p kernel_name m st = Ok (true, st') ∧
    conflict_sets st' = conflict_sets st ∧ global_accesses st' = global_accesses st ∧
    let n := total_conflicts (lanes <$> css)
      (zip (get_lane_ids_of_active_lanes (exec hdr)) addrs) in
    let new := LdsAccesses (MemoryAccesses 1 size 0 (rw_kind_of (user_data hdr)) []) n in
    ∀ f l c k, lds_stat st' f l c k =
      if decide (f = source_name st m ∧ u16 l = u16 (dwarf_line hdr) ∧
                 u16 c = u16 (dwarf_column hdr) ∧ k = lds_kind new)
      then Some (match lds_stat st f l c k with
                 | Some a => LdsAccesses (count_access (lds_base a)) (u64 (no_bank_conflicts a + n))
                 | None => new end)
      else lds_stat st f l c k).
Proof.
  intros Hwf Hok hdr size. pose proof (handle_lds_cases m st addrs Hwf Hok) as Hh. cbn zeta in Hh.
  fold hdr size in Hh. split.
  - intros Hsz. rewrite Hh. destruct (conflict_table !! size) as [css|] eqn:Hcss; [|done].
    by apply conflict_table_ok in Hcss as [].
  - intros css Hcss. rewrite Hcss in Hh. eexists. split; [exact Hh|].
    do 2 (split; [reflexivity|]). intros n new f l c k. rewrite lds_stat_update. reflexivity.
Qed.

(** The data items of a message whose items are said to be 64-bit words hold
    such words. *)
Definition readable (m : message_t) : Prop :=
  user_type (wave_header m) = mt_address → data_item_size m = 8 → Forall readable_item (data_items m).

(** The messages that violate a check of the handler: an address message whose
    items are not 64-bit words, or one for shared memory that has not one item
    per active lane, or has an address which is not a multiple of the size of the
    access (looked at for the supported sizes only). *)
Definition trips (m : message_t) : Prop :=
  let hdr := wave_header m in
  user_type hdr = mt_address ∧
  (data_item_size m ≠ 8 ∨
   mspace_of (user_data hdr) = as_shared ∧
   (length (data_items m) ≠ length (get_lane_ids_of_active_lanes (exec hdr)) ∨
    data_size_of (user_data hdr) ∈ [1; 2; 4; 8; 16] ∧
    ∃ item a, item ∈ data_items m ∧ item_address item = Ok a ∧
      a `mod` data_size_of (user_data hdr) ≠ 0)).

Lemma wf_new_handler : ∃ st, new_handler = Ok st ∧ wf_state st.
Proof.
  unfold new_handler. rewrite init_conflict_sets_ok. eexists. split; [reflexivity|].
  split; cbn; [done|apply distinct_kinds_empty..].
Qed.

Lemma wf_clear st : wf_state st → wf_state (clear st).
Proof. intros []. split; cbn; [done|apply distinct_kinds_empty..]. Qed.

(** What a step of the handler may do. *)
Definition step_result (m : message_t) (r : res (bool * mem_state)) : Prop :=
  (¬ trips m ∧ ∃ b st', r = Ok (b, st') ∧ wf_state st') ∨ (trips m ∧ r = Err FAbort).

(** The lookups of the database throw [std::runtime_error]s only. *)
Hypothesis lookups_throw : ∀ db name line f,
  getInstructionsForLine db name line = Err f → ∃ e, f = FThrow e.
Hypothesis file_lookups_throw : ∀ db name id f, getFileName db name id = Err f → ∃ e, f = FThrow e.

Lemma find_instruction_throws db hdr insts f :
  find_instruction hash db kernel_name hdr insts = Err f → ∃ e, f = FThrow e.
Proof.
  induction insts as [|i insts IH]; cbn; [done|].
  destruct (getFileName db kernel_name (path_id_ i)) as [fn|f'] eqn:E; cbn.
  - repeat case_match; done || apply IH.
  - intros [= <-]. by eapply file_lookups_throw.
Qed.

Lemma dwarf_ok m : ∃ info, dwarf m = Ok info.
Proof.
  unfold get_dwarf_info. destruct kdb_p as [db|]; [|by eexists].
  destruct (getInstructionsForLine db kernel_name _) as [insts|f] eqn:E; cbn [res_bind].
  - destruct (find_instruction _ _ _ _ _) as [[info|]|f] eqn:Ef; [by eexists..|].
    apply find_instruction_throws in Ef as [e ->]. by eexists.
  - apply lookups_throw in E as [e ->]. by eexists.
Qed.

Lemma global_step m st :
  wf_state st → Forall readable_item (data_items m) →
  ∃ b st', handle_cache_line_count_analysis hash kdb_p kernel_name m st = Ok (b, st') ∧ wf_state st'.
Proof.
  intros Hwf Hr. unfold handle_cache_line_count_analysis. fold (line_size_of m).
  destruct (decide (line_size_of m = 0)) as [H0|H0]; [rewrite H0; by eexists _, _|].
  destruct (line_size_u8 m H0) as [Hu HL]. fold (line_size_of m) in Hu. rewrite Hu.
  rewrite (proj2 (Z.eqb_neq _ _) H0). destruct (dwarf_ok m) as [info ->]. cbn [res_bind].
  destruct (di_access_size info =? 65535); [by eexists _, _|].
  set (size := if (_ : bool) then _ else _).
  destruct (cache_lines_total (line_size_of m) size (data_items m)) as [lines Hl]; [lia|done|].
  rewrite Hl. cbn [res_bind]. case_match; [by eexists _, _|].
  eexists _, _. split; [reflexivity|]. destruct Hwf as [Hw1 Hw2 Hw3]. split; cbn; [done| |done].
  apply distinct_kinds_update; [done|]. rewrite record_global_alt.
  by apply (record_access_NoDup global_kind).
Qed.

Lemma shared_step m st :
  wf_state st → Forall readable_item (data_items m) → is_space m as_shared → data_item_size m = 8 →
  step_result m (handle_bank_conflict_analysis m st).
Proof.
  intros Hwf Hr [Ht Hs] Hsz. destruct (readable_items _ Hr) as (addrs & Hia & _).
  assert (mspace_of (user_data (wave_header m)) ≠ as_global) as Hng
    by (rewrite Hs; apply as_shared_global).
  pose proof Hwf as [Hw1 Hw2 Hw3]. unfold handle_bank_conflict_analysis, step_result. rewrite Hw1.
  set (hdr := wave_header m) in *. set (size := data_size_of (user_data hdr)) in *.
  destruct (Z.eqb_spec (no_data_items m) (Z.of_nat (length (get_lane_ids_of_active_lanes (exec hdr)))))
    as [Hn|Hn]; unfold no_data_items in Hn; cbn [assertb res_bind].
  2:{ right. split; [|done]. split; [done|]. right. split; [done|]. left. fold hdr. lia. }
  destruct (conflict_table !! size) as [css|] eqn:Hcss.
  2:{ left. split; [|by eexists _, _]. intros (_ & [Hx|(_ & [Hx|[Hx _]])]); fold hdr in Hx; [done|lia|].
      destruct (conflict_table_dom _ Hx) as [css Hc]. unfold size in Hcss. congruence. }
  destruct (decide (Forall (λ a, a `mod` size = 0) addrs)) as [Hal|Hal].
  - left. split.
    + intros (_ & [Hx|(_ & [Hx|(_ & item & a & Hin & Ha & Hx)])]); [done|fold hdr in Hx; lia|].
      apply Hx. apply list_elem_of_lookup in Hin as [i Hi].
      destruct (Forall2_lookup_l _ _ _ _ _ Hia Hi) as (a' & Ha' & E). rewrite Ha in E. injection E as <-.
      exact (proj1 (Forall_lookup _ _) Hal _ _ Ha').
    + pose proof (handle_lds_cases m st addrs Hwf) as Hh. cbn zeta in Hh.
      rewrite handle_dispatch, decide_False, decide_True in Hh by done.
      unfold handle_bank_conflict_analysis in Hh. fold hdr size in Hh. rewrite Hw1, Hcss in Hh.
      rewrite (proj2 (Z.eqb_eq _ _)) in Hh by (unfold no_data_items; lia). cbn [assertb res_bind] in Hh.
      rewrite Hh by (split; [done|done|fold hdr; lia|done]).
      eexists _, _. split; [reflexivity|]. split; cbn; [done..|].
      apply distinct_kinds_update; [done|]. rewrite record_lds_alt.
      by apply (record_access_NoDup lds_kind).
  - right. split.
    + split; [done|]. right. split; [done|]. right.
      split; [by apply conflict_table_ok in Hcss as []|].
      apply not_Forall_Exists in Hal; [|intros; apply _].
      apply list.Exists_exists in Hal as (a & Ha & Hx). apply list_elem_of_lookup in Ha as [i Hi].
      destruct (Forall2_lookup_r _ _ _ _ _ Hia Hi) as (item & Hitem & E).
      exists item, a. split_and!; [by eapply list_elem_of_lookup_2|done|done].
    + by rewrite (count_conflicts_abort size css _ _ addrs) by (done || lia).
Qed.

Lemma handle_step m st :
  wf_state st → readable m → step_result m (handle hash kdb_p kernel_name m st).
Proof.
  intros Hwf Hr. destruct (decide (user_type (wave_header m) = mt_address)) as [Ht|Ht].
  2:{ left. split; [by intros [? _]|]. exists false, st. split; [|done]. unfold handle.
      by rewrite (proj2 (Z.eqb_neq _ _) Ht). }
  destruct (decide (data_item_size m = 8)) as [H8|H8].
  2:{ right. split; [by split; [|left]|]. unfold handle.
      by rewrite Ht, Z.eqb_refl, (proj2 (Z.eqb_neq _ _) H8). }
  specialize (Hr Ht H8). rewrite handle_dispatch by done. repeat case_decide.
  - left. split; [|by apply global_step].
    intros (_ & [?|(Hs & _)]); [done|]. apply as_shared_global. congruence.
  - by apply shared_step.
  - left. split; [|by eexists _, _]. by intros (_ & [?|(Hs & _)]).
Qed.

(** The calls the host makes on a handler: [handle] for each message, [clear]
    between dispatches. *)
Definition handler_call (st : mem_state) (c : option message_t) : res mem_state :=
  match c with
  | Some m => let! ' (_, st') := handle hash kdb_p kernel_name m st in Ok st'
  | None => Ok (clear st)
  end.

Lemma handler_run_cases st0 calls :
  wf_state st0 → Forall (λ c, match c with Some m => readable m | None => True end) calls →
  (∃ st, res_fold handler_call st0 calls = Ok st ∧ wf_state st ∧
      ∀ m, Some m ∈ calls → ¬ trips m) ∨
  (∃ before m after st, calls = before ++ Some m :: after ∧
      res_fold handler_call st0 before = Ok st ∧ wf_state st ∧
      (∀ m', Some m' ∈ before → ¬ trips m') ∧ trips m ∧
      handle hash kdb_p kernel_name m st = Err FAbort ∧
      res_fold handler_call st0 calls = Err FAbort).
Proof.
  intros Hwf Hok.
  revert st0 Hwf. induction Hok as [|c calls Hc Hok IH]; intros st0 Hwf; cbn [res_fold].
  { left. exists st0. split_and!; [done..|]. by intros m ?%elem_of_nil. }
  assert ((∃ st1, handler_call st0 c = Ok st1 ∧ wf_state st1 ∧ ∀ m, Some m = c → ¬ trips m) ∨
    ∃ m, c = Some m ∧ trips m ∧ handle hash kdb_p kernel_name m st0 = Err FAbort)
    as [(st1 & E & Hwf1 & Ht)|(m & -> & Ht & E)].
  { destruct c as [m|]; cbn [handler_call].
    - destruct (handle_step m st0 Hwf Hc) as [(Ht & b & st1 & E & Hw)|[Ht E]]; [left|right; by exists m].
      exists st1. rewrite E. split_and!; [done..|]. by intros m' [= ->].
    - left. exists (clear st0). split_and!; [done|by apply wf_clear|done]. }
  - rewrite E. cbn [res_bind].
    destruct (IH st1 Hwf1) as [(st & Hr & Hw & Hno)|(before & m & after & st & -> & Hr & Hw & Hno & Hm & Hh & He)].
    + left. exists st. split_and!; [done..|]. intros m [Hm|Hm]%elem_of_cons; [by apply Ht|by apply Hno].
    + right. exists (c :: before), m, after, st. cbn [res_fold app]. rewrite E. split_and!; try done.
      intros m' [Hm'|Hm']%elem_of_cons; [by apply Ht|by apply Hno].
  - right. exists [], m, calls, st0. cbn [handler_call res_fold app]. rewrite E. split_and!; try done.
    by intros m' ?%elem_of_nil.
Qed.

Lemma run_clear st0 before st :
  res_fold handler_call st0 (before ++ [None]) = Ok st → global_accesses st = ∅ ∧ lds_accesses st = ∅.
Proof. rewrite res_fold_app. by intros (st1&_&[= <-])%res_bind_Ok. Qed.

(** C26. The whole life of a handler.  Whatever messages it is given, with calls of
    [clear] between them (the data items hold the 64-bit words they are said to, and
    the lookups of the database only throw), either each of them passes the checks of the handler
    (the items of an address message are 64-bit words; for shared memory there is
    one per active lane, and for a supported access size each address is a
    multiple of it), all are processed, and the state stays well formed: the
    conflict sets are the constructor's with empty banks, and no location has two
    entries for the same sizes and kind; after a [clear] there is none.  Or some message does not: then those before
    the first such message are processed, and that one ends the process by an
    assertion.  So the handler never reads out of range and never loops. *)
Theorem handler_run_wf calls :
  Forall (λ c, match c with Some m => readable m | None => True end) calls →
  ∃ st0, new_handler = Ok st0 ∧
  ((∃ st, res_fold handler_call st0 calls = Ok st ∧ wf_state st ∧
      (∀ m, Some m ∈ calls → ¬ trips m) ∧
      (∀ before, calls = before ++ [None] → global_accesses st = ∅ ∧ lds_accesses st = ∅)) ∨
   (∃ before m after st, calls = before ++ Some m :: after ∧
      res_fold handler_call st0 before = Ok st ∧ wf_state st ∧
      (∀ m', Some m' ∈ before → ¬ trips m') ∧ trips m ∧
      handle hash kdb_p kernel_name m st = Err FAbort ∧
      res_fold handler_call st0 calls = Err FAbort)).
Proof.
  intros Hok. destruct wf_new_handler as (st0 & Hn & Hwf). exists st0. split; [done|].
  destruct (handler_run_cases st0 calls Hwf Hok) as [(st & Hr & Hw & Ht)|?]; [left|by right].
  exists st. split_and!; [done..|]. intros before ->. by eapply run_clear.
Qed.
End handler_correct.

(** ** Witnesses *)
Section examples.
#[local] Existing Instance dh_comms_values.
#[local] Existing Instance dh_comms_values_laws.
#[local] Existing Instance kernel_db_values.

(** Lanes 0 and 1 of a wave load a dword each from global memory, or from LDS. *)
Definition example_header (space size : Z) : wave_header_t :=
  WaveHeader 0 (pack_user_data 1 space size) 3 0 77 12 5 1 0 0 0 0 0 0 0 2.
Definition global_example : message_t := Message (example_header 1 4) 8 [[256]; [260]].
Definition lds_example : message_t := Message (example_header 3 4) 8 [[0]; [128]].

Lemma handle_global_statistics_witness :
  ∃ st', handle (kdb := table_kdb) (λ _, 0) None (lit "k") global_example
           (MemState conflict_table ∅ ∅ ∅) = Ok (true, st') ∧
    global_stat st' [] 12 5 (4, 0, 1) =
      Some (GlobalAccesses (MemoryAccesses 1 4 0 1 []) 1 1).
Proof.
  destruct (handle_global_statistics (kdb := table_kdb) (λ _, 0) None (lit "k") global_example
    (MemState conflict_table ∅ ∅ ∅) no_dwarf_info [256; 260])
    as (lines & st' & Hlines & Hh & _ & _ & _ & Hst).
  - split.
    + split; reflexivity.
    + split; [reflexivity|repeat constructor].
    + vm_compute. discriminate.
    + reflexivity.
    + vm_compute. discriminate.
    + vm_compute. discriminate.
    + repeat constructor; vm_compute; discriminate.
  - exists st'. split; [exact Hh|]. rewrite Hst; [|intros [[Hc _] _]; by apply Hc].
    rewrite decide_True by (split_and!; reflexivity).
    assert (lines = {[ 4 ]}) as ->.
    { apply set_eq. intros l. rewrite Hlines, elem_of_singleton. split.
      - intros (a & k & Ha & Hk & ->). change (0 ≤ k < 4) in Hk.
        change (line_size_of global_example) with 64. symmetry.
        apply elem_of_cons in Ha as [->|Ha%list_elem_of_singleton].
        + apply (Z.div_unique_pos _ _ _ k); lia.
        + apply (Z.div_unique_pos _ _ _ (k + 4)); lia.
      - intros ->. exists 256, 0. split_and!; [by left|reflexivity|reflexivity|reflexivity]. }
    reflexivity.
Defined.

Lemma handle_lds_statistics_witness :
  ∃ st', handle (kdb := table_kdb) (λ _, 0) None (lit "k") lds_example
           (MemState conflict_table ∅ ∅ ∅) = Ok (true, st') ∧
    lds_stat st' unknown_source_file 12 5 (4, 0, 1) =
      Some (LdsAccesses (MemoryAccesses 1 4 0 1 []) 1).
Proof.
  destruct (conflict_table_dom 4 ltac:(by apply (bool_decide_unpack _))) as [css Hcss].
  destruct (handle_lds_statistics (kdb := table_kdb) (λ _, 0) None (lit "k") lds_example
    (MemState conflict_table ∅ ∅ ∅) [0; 128]) as [_ Hok].
  - split; cbn; [reflexivity|apply distinct_kinds_empty..].
  - split; [split; reflexivity|split; [reflexivity|repeat constructor]|reflexivity|].
    by repeat constructor.
  - destruct (Hok css Hcss) as (st' & Hh & _ & _ & Hst). exists st'. split; [exact Hh|].
    rewrite Hst, decide_True by (split_and!; reflexivity).
    apply conflict_table_ok in Hcss as (_ & _ & _ & _ & Hl & _). cbn [fst snd] in Hl.
    rewrite <-Hl. vm_compute. reflexivity.
Defined.

(** Lane 1 of a wave loads a qword at an address that is only dword aligned. *)
Definition misaligned_example : message_t := Message (example_header 3 8) 8 [[0]; [132]].

Lemma table_kdb_throws db name line f :
  getInstructionsForLine (KernelDB := kernel_db_values) db name line = Err f → ∃ e, f = FThrow e.
Proof. cbn. case_match; intros [= <-]. by eexists. Qed.
Lemma table_kdb_file_throws db name id f :
  getFileName (KernelDB := kernel_db_values) db name id = Err f → ∃ e, f = FThrow e.
Proof. cbn. case_match; intros [= <-]. by eexists. Qed.

Lemma handler_run_wf_witness :
  let run l := match new_handler with
               | Ok st0 => res_fold (handler_call (kdb := table_kdb) (λ _, 0) None (lit "k")) st0 l
               | Err f => Err f
               end in
  (∃ st, run [Some lds_example; None; Some lds_example] = Ok st ∧ wf_state st) ∧
  run [Some lds_example; Some misaligned_example] = Err FAbort.
Proof.
  assert (readable lds_example ∧ readable misaligned_example) as [Hl Hm].
  { split; intros _ _; repeat constructor; eexists; (split; [reflexivity|lia]). }
  assert (trips misaligned_example) as Ht.
  { split; [reflexivity|]. right. split; [reflexivity|]. right. split; [by apply (bool_decide_unpack _)|].
    exists [132], 132. split; [right; by left|]. split; [reflexivity|discriminate]. }
  assert (¬ trips lds_example) as Hnt.
  { intros (_ & [Hx|(_ & [Hx|(_ & item & a & Hin & Ha & Hx)])]); [by apply Hx..|]. apply Hx.
    apply elem_of_cons in Hin as [->|Hin%list_elem_of_singleton]; [|subst item];
      injection Ha as <-; reflexivity. }
  split.
  - destruct (handler_run_wf (kdb := table_kdb) (λ _, 0) None (lit "k") table_kdb_throws
      table_kdb_file_throws [Some lds_example; None; Some lds_example])
      as (st0 & -> & [(st & Hr & Hw & _)|(before & m & after & st & Hl' & _ & _ & _ & Hm' & _)]).
    + repeat apply Forall_cons_2; [exact Hl|exact I|exact Hl|apply list.Forall_nil_2].
    + by exists st.
    + assert (Some m ∈ [Some lds_example; None; Some lds_example]) as Hin.
      { rewrite Hl'. apply elem_of_app. right. by left. }
      repeat (apply elem_of_cons in Hin as [Heq|Hin]; [by simplify_eq|]). by apply elem_of_nil in Hin.
  - destruct (handler_run_wf (kdb := table_kdb) (λ _, 0) None (lit "k") table_kdb_throws
      table_kdb_file_throws [Some lds_example; Some misaligned_example])
      as (st0 & -> & [(st & _ & _ & Hno & _)|(before & m & after & st & _ & _ & _ & _ & _ & _ & He)]).
    + repeat apply Forall_cons_2; [exact Hl|exact Hm|apply list.Forall_nil_2].
    + destruct (Hno misaligned_example); [right; by left|done].
    + exact He.
Defined.
End examples.
