(* ===== verification/Json.v ===== *)
(** * JSON output

    [JSONHelper] (src/src/json_helpers.cc) and the [renderJSON] templates
    (src/inc/json_helpers.h, src/inc/basic_block_analysis.h) build JSON text by
    appending to a stream.  [json_val v t] says that text [t] denotes the JSON
    value [v]; [parse_json] is a reference reader, and [parse_json_complete]
    shows that the grammar is unambiguous.  The reports of the handlers are shown
    to denote the values they should. *)
From S2P Require Import Prelude StdString.

(** ** The builder *)

(** The text [operator<<] writes for a value, given the stream's [std::hex]. *)
Class Stream (T : Type) := stream_out : bool → T → bytes.
#[export] Instance stream_number : Stream Z := λ hex n, if hex then to_hex n else to_dec n.
#[export] Instance stream_string : Stream bytes := λ _ s, s.

Definition quote (s : bytes) : bytes := dquote :: s ++ [dquote].
Definition maybe_quote (quotes : bool) (s : bytes) : bytes := if quotes then quote s else s.
Definition hex_prefix (hex : bool) : bytes := if hex then lit "0x" else [].

(** The state is the text of [ss_]. *)
Definition json_new : bytes := lit "{".
Definition json_restart (ss : bytes) : bytes := lit "{".

(** [std::string::pop_back]; undefined on the empty string. *)
Definition pop_back (s : bytes) : res bytes :=
  match s with [] => Err FUB | _ => Ok (removelast s) end.

Definition addField `{Stream T} (ss name : bytes) (value : T) (quotes hex : bool) : bytes :=
  ss ++ quote name ++ lit ": " ++
  maybe_quote quotes (hex_prefix hex ++ stream_out hex value) ++ lit ",".

Definition addFields `{Stream T} (ss : bytes) (fields : list (bytes * T)) (quotes hex : bool)
    : bytes :=
  foldl (λ ss f, addField ss f.1 f.2 false false) ss fields.

Definition addVector `{Stream T} (ss name : bytes) (items : list T) (quotes hex : bool)
    : res bytes :=
  let! result :=
    pop_back (items ≫= λ item,
      maybe_quote quotes (hex_prefix hex ++ stream_out hex item) ++ lit ",") in
  Ok (ss ++ quote name ++ lit ": [" ++ result ++ lit "],").

Definition appendString (ss str : bytes) : bytes := ss ++ str.

Definition getJSON (ss : bytes) : bytes :=
  (if ends_with (lit ",") ss then removelast ss else ss) ++ lit "}".

(** [renderJSON] over a map or vector of pairs: a comma after every pair but,
    when [omitFinalComma], the last. *)
Fixpoint renderJSON `{Stream T} (fields : list (bytes * T)) (omitFinalComma valueAsString : bool)
    : bytes :=
  match fields with
  | [] => []
  | (name, v) :: rest =>
      quote name ++ lit ": " ++ maybe_quote valueAsString (stream_out false v) ++
      (if negb (bool_decide (rest = [])) || negb omitFinalComma then lit "," else []) ++
      renderJSON rest omitFinalComma valueAsString
  end.

(** ** JSON text *)
Inductive json :=
| JStr (s : bytes)
| JNum (t : bytes)
| JArr (vs : list json)
| JObj (fields : list (bytes * json)).

Definition is_ws (c : ascii) : bool := bool_decide (c ∈ lit " " ++ [newline; tab; ch 13]).

(** A character that stands for itself inside a JSON string. *)
Definition plain_char (c : ascii) : bool :=
  negb (aeqb c dquote) && negb (aeqb c "\") && (32 <=? nat_of_ascii c)%nat.
Definition plain (s : bytes) : Prop := Forall (λ c, plain_char c = true) s.

(** [-]int[.digits][e[+-]digits] *)
Definition digits1 (s : bytes) : bool :=
  match s with [] => false | _ => forallb isdigit s end.
Definition int_ok (s : bytes) : bool :=
  digits1 s && negb (starts_with (lit "0") s && (1 <? length s)%nat).
Definition split_char (p : ascii → bool) (s : bytes) : bytes * option bytes :=
  match find_if p s with Some i => (take i s, Some (drop (S i) s)) | None => (s, None) end.
Definition exponent_ok (e : option bytes) : bool :=
  match e with
  | None => true
  | Some (c :: e') => if aeqb c "+" || aeqb c "-" then digits1 e' else digits1 (c :: e')
  | Some [] => false
  end.
Definition number_ok (s : bytes) : bool :=
  let s := match s with c :: s' => if aeqb c "-" then s' else s | [] => s end in
  let '(mantissa, e) := split_char (λ c, aeqb c "e" || aeqb c "E") s in
  let '(int, frac) := split_char (λ c, aeqb c ".") mantissa in
  int_ok int && (match frac with Some f => digits1 f | None => true end) && exponent_ok e.

Definition number_char (c : ascii) : bool :=
  isdigit c || bool_decide (c ∈ lit "+-.eE").

Inductive json_val : json → bytes → Prop :=
| jv_str s : plain s → json_val (JStr s) (quote s)
| jv_num t : number_ok t = true → Forall (λ c, number_char c = true) t → json_val (JNum t) t
| jv_nil w : Forall (λ c, is_ws c = true) w → json_val (JArr []) (lit "[" ++ w ++ lit "]")
| jv_arr vs t : json_elems vs t → json_val (JArr vs) (lit "[" ++ t ++ lit "]")
| jv_empty w : Forall (λ c, is_ws c = true) w → json_val (JObj []) (lit "{" ++ w ++ lit "}")
| jv_obj fs t : json_members fs t → json_val (JObj fs) (lit "{" ++ t ++ lit "}")
with json_elems : list json → bytes → Prop :=
| je_one v t w1 w2 : json_val v t →
    Forall (λ c, is_ws c = true) w1 → Forall (λ c, is_ws c = true) w2 →
    json_elems [v] (w1 ++ t ++ w2)
| je_cons v t w1 w2 vs ts : json_val v t → json_elems vs ts →
    Forall (λ c, is_ws c = true) w1 → Forall (λ c, is_ws c = true) w2 →
    json_elems (v :: vs) (w1 ++ t ++ w2 ++ lit "," ++ ts)
with json_members : list (bytes * json) → bytes → Prop :=
| jm_one k v t w1 w2 w3 w4 : plain k → json_val v t →
    Forall (λ c, is_ws c = true) w1 → Forall (λ c, is_ws c = true) w2 →
    Forall (λ c, is_ws c = true) w3 → Forall (λ c, is_ws c = true) w4 →
    json_members [(k, v)] (w1 ++ quote k ++ w2 ++ lit ":" ++ w3 ++ t ++ w4)
| jm_cons k v t w1 w2 w3 w4 fs ts : plain k → json_val v t → json_members fs ts →
    Forall (λ c, is_ws c = true) w1 → Forall (λ c, is_ws c = true) w2 →
    Forall (λ c, is_ws c = true) w3 → Forall (λ c, is_ws c = true) w4 →
    json_members ((k, v) :: fs)
      (w1 ++ quote k ++ w2 ++ lit ":" ++ w3 ++ t ++ w4 ++ lit "," ++ ts).

Scheme json_val_mut := Induction for json_val Sort Prop
with json_elems_mut := Induction for json_elems Sort Prop
with json_members_mut := Induction for json_members Sort Prop.
Combined Scheme json_mutind from json_val_mut, json_elems_mut, json_members_mut.

(** ** A reference reader *)
Fixpoint skip_ws (s : bytes) : bytes :=
  match s with c :: s' => if is_ws c then skip_ws s' else s | [] => [] end.

Definition span (p : ascii → bool) (s : bytes) : bytes * bytes :=
  match find_if (λ c, negb (p c)) s with
  | Some i => (take i s, drop i s)
  | None => (s, [])
  end.

(** The body of a string, after its opening quote. *)
Definition read_string (s : bytes) : option (bytes * bytes) :=
  match span plain_char s with
  | (body, c :: rest) => if aeqb c dquote then Some (body, rest) else None
  | (_, []) => None
  end.

Fixpoint read_val (fuel : nat) (s : bytes) : option (json * bytes) :=
  match fuel with O => None | S fuel =>
  match s with
  | [] => None
  | c :: rest =>
      if aeqb c dquote then
        '(body, rest) ← read_string rest; Some (JStr body, rest)
      else if aeqb c "[" then
        match skip_ws rest with
        | [] => None
        | d :: rest' =>
            if aeqb d "]" then Some (JArr [], rest')
            else '(vs, rest) ← read_elems fuel rest; Some (JArr vs, rest)
        end
      else if aeqb c "{" then
        match skip_ws rest with
        | [] => None
        | d :: rest' =>
            if aeqb d "}" then Some (JObj [], rest')
            else '(fs, rest) ← read_members fuel rest; Some (JObj fs, rest)
        end
      else
        let '(t, rest) := span number_char s in
        if number_ok t then Some (JNum t, rest) else None
  end end
with read_elems (fuel : nat) (s : bytes) : option (list json * bytes) :=
  match fuel with O => None | S fuel =>
  '(v, rest) ← read_val fuel (skip_ws s);
  match skip_ws rest with
  | c :: rest =>
      if aeqb c "," then '(vs, rest) ← read_elems fuel rest; Some (v :: vs, rest)
      else if aeqb c "]" then Some ([v], rest) else None
  | [] => None
  end end
with read_members (fuel : nat) (s : bytes) : option (list (bytes * json) * bytes) :=
  match fuel with O => None | S fuel =>
  match skip_ws s with
  | c :: rest =>
      if negb (aeqb c dquote) then None else
      '(k, rest) ← read_string rest;
      match skip_ws rest with
      | c :: rest =>
          if negb (aeqb c ":") then None else
          '(v, rest) ← read_val fuel (skip_ws rest);
          match skip_ws rest with
          | c :: rest =>
              if aeqb c "," then '(fs, rest) ← read_members fuel rest; Some ((k, v) :: fs, rest)
              else if aeqb c "}" then Some ([(k, v)], rest) else None
          | [] => None
          end
      | [] => None
      end
  | [] => None
  end end.

Definition parse_json (s : bytes) : option json :=
  '(v, rest) ← read_val (S (length s)) (skip_ws s);
  match skip_ws rest with [] => Some v | _ => None end.

(** ** Lemmas: reading *)
Abbreviation all_ws w := (Forall (λ c, is_ws c = true) w).

Lemma skip_ws_app w s : all_ws w → skip_ws (w ++ s) = skip_ws s.
Proof. induction 1 as [|c w Hc Hw IH]; cbn; [done|]. by rewrite Hc. Qed.
Lemma skip_ws_stop c s : is_ws c = false → skip_ws (c :: s) = c :: s.
Proof. intros Hc. cbn. by rewrite Hc. Qed.

Lemma span_app p t c rest :
  Forall (λ c, p c = true) t → p c = false → span p (t ++ c :: rest) = (t, c :: rest).
Proof.
  intros Ht Hc. unfold span. rewrite find_if_here; [| |by rewrite Hc].
  - by rewrite take_app_length, drop_app_length.
  - eapply list.Forall_impl; [exact Ht|]. intros d Hd. cbn. by rewrite Hd.
Qed.
Lemma span_all p t : Forall (λ c, p c = true) t → span p t = (t, []).
Proof.
  intros Ht. unfold span. rewrite (proj2 (find_if_None _ t)); [done|].
  eapply list.Forall_impl; [exact Ht|]. intros d Hd. cbn. by rewrite Hd.
Qed.

Lemma read_string_plain k rest : plain k → read_string (k ++ dquote :: rest) = Some (k, rest).
Proof. intros Hk. unfold read_string. by rewrite span_app. Qed.

Definition ends_number (rest : bytes) : Prop :=
  match rest with [] => True | c :: _ => number_char c = false end.

Lemma ws_not_number c : is_ws c = true → number_char c = false.
Proof. destruct c as [[] [] [] [] [] [] [] []]; vm_compute; congruence. Qed.

Lemma ends_number_ws w c rest : all_ws w → number_char c = false → ends_number (w ++ c :: rest).
Proof. intros Hw Hc. destruct Hw as [|d w Hd Hw]; cbn; [done|]. by apply ws_not_number. Qed.

(** The first character of a value. *)
Definition value_start (c : ascii) : Prop :=
  is_ws c = false ∧ aeqb c "]" = false ∧ aeqb c "}" = false.

Lemma number_head t : number_ok t = true → Forall (λ c, number_char c = true) t →
  ∃ c t', t = c :: t' ∧ value_start c ∧ aeqb c dquote = false ∧ aeqb c "[" = false ∧
    aeqb c "{" = false.
Proof.
  intros Hn Ht. destruct t as [|c t]; [done|]. exists c, t. split; [done|].
  apply list.Forall_cons in Ht as [Hc _]. revert Hc.
  destruct c as [[] [] [] [] [] [] [] []]; vm_compute; intros; repeat split; congruence.
Qed.

Lemma value_head v t : json_val v t → ∃ c t', t = c :: t' ∧ value_start c.
Proof.
  intros [s Hs|t' Hn Ht|w _|vs t' _|w _|fs t' _].
  - exists dquote, (s ++ [dquote]). split; [reflexivity|by repeat split].
  - destruct (number_head t' Hn Ht) as (c & t'' & -> & Hc & _). eauto.
  - eexists _, _. split; [reflexivity|by repeat split].
  - eexists _, _. split; [reflexivity|by repeat split].
  - eexists _, _. split; [reflexivity|by repeat split].
  - eexists _, _. split; [reflexivity|by repeat split].
Qed.

Lemma elems_head vs t : json_elems vs t → ∃ c t', skip_ws t = c :: t' ∧ aeqb c "]" = false.
Proof.
  intros [v t' w1 w2 Hv Hw1 Hw2|v t' w1 w2 vs' ts Hv _ Hw1 Hw2];
    destruct (value_head v t' Hv) as (c & t'' & -> & Hws & Hb & _);
    rewrite skip_ws_app by done; cbn; rewrite Hws; eauto.
Qed.

Lemma members_head fs t : json_members fs t → ∃ t', skip_ws t = dquote :: t'.
Proof.
  intros [k v t' w1 w2 w3 w4|k v t' w1 w2 w3 w4]; rewrite skip_ws_app by done; cbn; eauto.
Qed.

Lemma skip_ws_value w v t rest : all_ws w → json_val v t → skip_ws (w ++ t ++ rest) = t ++ rest.
Proof.
  intros Hw Hv. rewrite skip_ws_app by done.
  destruct (value_head v t Hv) as (c & t' & -> & Hc & _). by apply skip_ws_stop.
Qed.

Lemma skip_ws_app_r t c t' rest : skip_ws t = c :: t' → skip_ws (t ++ rest) = c :: t' ++ rest.
Proof.
  induction t as [|d t IH]; cbn; [done|]. destruct (is_ws d); [apply IH|]. by intros [= -> ->].
Qed.

Lemma skip_ws_quote w k rest :
  all_ws w → skip_ws (w ++ quote k ++ rest) = dquote :: k ++ dquote :: rest.
Proof.
  intros Hw. rewrite skip_ws_app by done. unfold quote. cbn [app].
  rewrite skip_ws_stop by done. by rewrite <-app_assoc.
Qed.

Lemma read_complete :
  (∀ v t, json_val v t → ∀ fuel rest, (length t ≤ fuel)%nat → ends_number rest →
    read_val fuel (t ++ rest) = Some (v, rest)) ∧
  (∀ vs t, json_elems vs t → ∀ fuel rest, (length t < fuel)%nat →
    read_elems fuel (t ++ "]"%char :: rest) = Some (vs, rest)) ∧
  (∀ fs t, json_members fs t → ∀ fuel rest, (length t < fuel)%nat →
    read_members fuel (t ++ "}"%char :: rest) = Some (fs, rest)).
Proof.
  apply json_mutind.
  - (* string *) intros s Hs [|fuel] rest Hf _; [cbn in Hf; lia|].
    change (quote s ++ rest) with (dquote :: (s ++ [dquote]) ++ rest). cbn [read_val].
    rewrite aeqb_refl, <-app_assoc. cbn [app]. by rewrite read_string_plain.
  - (* number *) intros t Hn Ht [|fuel] rest Hf Hr; [destruct t; [done|cbn in Hf; lia]|].
    destruct (number_head t Hn Ht) as (c & t' & -> & _ & H1 & H2 & H3).
    assert (span number_char ((c :: t') ++ rest) = (c :: t', rest)) as Hspan.
    { destruct rest as [|d rest]; [rewrite app_nil_r; by apply span_all|by apply span_app]. }
    change ((c :: t') ++ rest) with (c :: (t' ++ rest)) in *. cbn [read_val].
    by rewrite H1, H2, H3, Hspan, Hn.
  - (* [] *) intros w Hw [|fuel] rest Hf _; [cbn in Hf; lia|].
    rewrite <-!app_assoc. cbn. by rewrite skip_ws_app by done.
  - (* array *) intros vs t Ht IH [|fuel] rest Hf _; [cbn in Hf; lia|].
    rewrite length_app, length_app in Hf. cbn in Hf.
    rewrite <-!app_assoc. cbn. destruct (elems_head vs t Ht) as (c & t' & Hc & Hb).
    rewrite (skip_ws_app_r t c t' _ Hc), Hb. by rewrite IH by lia.
  - (* {} *) intros w Hw [|fuel] rest Hf _; [cbn in Hf; lia|].
    rewrite <-!app_assoc. cbn. by rewrite skip_ws_app by done.
  - (* object *) intros fs t Ht IH [|fuel] rest Hf _; [cbn in Hf; lia|].
    rewrite length_app, length_app in Hf. cbn in Hf.
    rewrite <-!app_assoc. cbn. destruct (members_head fs t Ht) as (t' & Hc).
    rewrite (skip_ws_app_r t _ t' _ Hc). cbn. by rewrite IH by lia.
  - (* last element *) intros v t w1 w2 Hv IH Hw1 Hw2 [|fuel] rest Hf; [lia|].
    rewrite !length_app in Hf. rewrite <-!app_assoc. cbn [read_elems].
    rewrite (skip_ws_value w1 v t) by done.
    rewrite IH by (lia || by apply ends_number_ws). cbn.
    by rewrite skip_ws_app by done.
  - (* element *) intros v t w1 w2 vs ts Hv IH Hts IHs Hw1 Hw2 [|fuel] rest Hf; [lia|].
    rewrite !length_app in Hf. cbn in Hf. rewrite <-!app_assoc. cbn [read_elems].
    rewrite (skip_ws_value w1 v t) by done.
    rewrite IH by (lia || by apply ends_number_ws). cbn.
    rewrite skip_ws_app, skip_ws_stop by done. cbn. by rewrite IHs by lia.
  - (* last member *)
    intros k v t w1 w2 w3 w4 Hk Hv IH Hw1 Hw2 Hw3 Hw4 [|fuel] rest Hf; [lia|].
    rewrite !length_app in Hf. cbn in Hf. rewrite <-!app_assoc. cbn [read_members].
    rewrite skip_ws_quote by done. cbn. rewrite read_string_plain by done. cbn.
    rewrite skip_ws_app, skip_ws_stop by done. cbn.
    rewrite (skip_ws_value w3 v t) by done.
    rewrite IH by (lia || by apply ends_number_ws). cbn.
    by rewrite skip_ws_app by done.
  - (* member *)
    intros k v t w1 w2 w3 w4 fs ts Hk Hv IH Hts IHs Hw1 Hw2 Hw3 Hw4 [|fuel] rest Hf; [lia|].
    rewrite !length_app in Hf. cbn in Hf. rewrite <-!app_assoc. cbn [read_members].
    rewrite skip_ws_quote by done. cbn. rewrite read_string_plain by done. cbn.
    rewrite skip_ws_app, skip_ws_stop by done. cbn.
    rewrite (skip_ws_value w3 v t) by done.
    rewrite IH by (lia || by apply ends_number_ws). cbn.
    rewrite skip_ws_app, skip_ws_stop by done. cbn. by rewrite IHs by lia.
Qed.

(** A value between white space. *)
Lemma parse_json_ws w1 v t w2 :
  json_val v t → all_ws w1 → all_ws w2 → parse_json (w1 ++ t ++ w2) = Some v.
Proof.
  intros Hv Hw1 Hw2. unfold parse_json. rewrite (skip_ws_value w1 v t) by done.
  destruct read_complete as [Hr _].
  rewrite (Hr v t Hv).
  - cbn. rewrite <-(app_nil_r w2), skip_ws_app by done. done.
  - rewrite !length_app. lia.
  - destruct Hw2 as [|c w2 Hc _]; cbn; [done|]. by apply ws_not_number.
Qed.

Lemma parse_json_complete v t : json_val v t → parse_json t = Some v.
Proof.
  intros Hv. pose proof (parse_json_ws [] v t [] Hv) as H. rewrite app_nil_r in H. by apply H.
Qed.

Lemma plain_lit s : forallb plain_char (lit s) = true → plain (lit s).
Proof.
  rewrite List.forallb_forall. intros H. apply list.Forall_forall. intros c Hc.
  by apply H, list_elem_of_In.
Qed.

(** ** Lemmas: numbers *)
Lemma digits_go_nonzero fuel n acc :
  0 < n < 10 ^ Z.of_nat (S fuel) →
  ∃ c l, digits_go 10 fuel n acc = c :: l ∧ c ≠ "0"%char.
Proof.
  assert (∀ d, 0 < d < 10 → digit_char d ≠ "0"%char) as Hd.
  { intros d Hd. assert (d ∈ seqZ 1 9) as Hin by (apply elem_of_seqZ; lia). clear Hd. revert d Hin.
    apply list.Forall_forall, (bool_decide_unpack _). vm_compute. exact I. }
  revert n acc. induction fuel as [|f IH]; intros n acc Hn; cbn [digits_go].
  - eexists _, _. split; [done|]. apply Hd. rewrite Z.mod_small; lia.
  - destruct (Z.ltb_spec n 10).
    + eexists _, _. split; [done|]. apply Hd. rewrite Z.mod_small; lia.
    + apply IH. split; [apply Z.div_str_pos; lia|]. apply Z.div_lt_upper_bound; [lia|].
      rewrite <-Z.pow_succ_r by lia. rewrite Nat2Z.inj_succ in Hn |- *. lia.
Qed.

Lemma number_digits s :
  s ≠ [] → Forall (λ c, isdigit c = true) s → (starts_with (lit "0") s = false ∨ length s = 1%nat) →
  number_ok s = true ∧ Forall (λ c, number_char c = true) s.
Proof.
  intros Hne Hs Hz. split.
  2:{ eapply list.Forall_impl; [exact Hs|]. intros c Hc. unfold number_char. by rewrite Hc. }
  assert (∀ p, (∀ c, isdigit c = true → p c = false) → split_char p s = (s, None)) as Hsplit.
  { intros p Hp. unfold split_char. rewrite (proj2 (find_if_None p s)); [done|].
    eapply list.Forall_impl; [exact Hs|]. exact Hp. }
  assert (digits1 s = true) as Hdig.
  { unfold digits1. destruct s as [|c s]; [done|]. apply List.forallb_forall. intros d Hd%list_elem_of_In.
    rewrite list.Forall_forall in Hs. auto. }
  unfold number_ok. assert (match s with c :: s' => if aeqb c "-" then s' else s | [] => s end = s) as ->.
  { destruct s as [|c s]; [done|]. apply list.Forall_cons in Hs as [Hc _].
    revert Hc. by destruct c as [[] [] [] [] [] [] [] []]. }
  rewrite Hsplit; [|by intros [[] [] [] [] [] [] [] []]].
  rewrite Hsplit; [|by intros [[] [] [] [] [] [] [] []]].
  unfold int_ok. rewrite Hdig. cbn [andb exponent_ok].
  destruct Hz as [->| ->]; [done|]. by rewrite andb_false_r.
Qed.

Lemma to_dec_number n : 0 ≤ n → json_val (JNum (to_dec n)) (to_dec n).
Proof.
  intros Hn.
  destruct (number_digits (to_dec n)) as [H1 H2]; [apply to_dec_ne|by apply to_dec_digits| |by constructor].
  destruct (decide (n < 10)) as [Hs|Hs].
  - right. assert (n ∈ seqZ 0 10) as Hin by (apply elem_of_seqZ; lia). clear Hn Hs. revert n Hin.
    apply list.Forall_forall, (bool_decide_unpack _). vm_compute. exact I.
  - left. destruct (digits_go_nonzero (Z.to_nat (Z.log2 n)) n []) as (c & l & Hc & H0).
    { split; [lia|]. by apply dec_fuel. }
    unfold to_dec. rewrite Hc. cbn. by apply andb_false_intro1, aeqb_neq.
Qed.

(** ** Lemmas: building *)

(** The text of a list of fields, each followed by a comma. *)
Definition field_text (f : bytes * json * bytes) : bytes :=
  quote f.1.1 ++ lit ": " ++ f.2 ++ lit ",".
Definition field_ok (f : bytes * json * bytes) : Prop := plain f.1.1 ∧ json_val f.1.2 f.2.

Lemma members_of_fields l :
  l ≠ [] → Forall field_ok l →
  ∃ m, l ≫= field_text = m ++ lit "," ∧ json_members l.*1 m.
Proof.
  intros Hne Hl. induction Hl as [|[[k v] t] l [Hk Hv] Hl IH]; [done|].
  rewrite bind_cons. unfold field_text at 1. cbn [fst snd] in *.
  destruct (decide (l = [])) as [->|Hl0].
  - exists (quote k ++ lit ": " ++ t). split; [by rewrite !app_nil_r, <-!app_assoc|].
    pose proof (jm_one k v t [] [] (lit " ") [] Hk Hv) as Hm.
    rewrite !app_nil_r in Hm. apply Hm; by repeat constructor.
  - destruct (IH Hl0) as (m & -> & Hm). exists (quote k ++ lit ": " ++ t ++ lit "," ++ m).
    split; [by rewrite <-!app_assoc|].
    apply (jm_cons k v t [] [] (lit " ") [] l.*1 m Hk Hv Hm); by repeat constructor.
Qed.

Lemma ends_with_app suffix s : ends_with suffix (s ++ suffix) = true.
Proof.
  unfold ends_with. rewrite length_app.
  replace (length s + length suffix - length suffix)%nat with (length s) by lia.
  rewrite drop_app_length, bool_decide_eq_true_2 by done. apply andb_true_iff. split; [|done].
  apply Nat.leb_le. lia.
Qed.

(** The helper's stream holds exactly the fields [fs]. *)
Definition builds (fs : list (bytes * json)) (ss : bytes) : Prop :=
  ∃ l, fs = l.*1 ∧ Forall field_ok l ∧ ss = lit "{" ++ (l ≫= field_text).

Lemma builds_new : builds [] json_new.
Proof. by exists []. Qed.

Lemma builds_snoc fs ss k v t :
  builds fs ss → plain k → json_val v t → builds (fs ++ [(k, v)]) (ss ++ field_text (k, v, t)).
Proof.
  intros (l & -> & Hl & ->) Hk Hv. exists (l ++ [(k, v, t)]). split_and!.
  - by rewrite fmap_app.
  - apply Forall_app. split; [done|]. by apply Forall_singleton.
  - rewrite bind_app, <-app_assoc. cbn. by rewrite app_nil_r.
Qed.

Lemma builds_field `{Stream T} fs ss name (x : T) quotes hex v :
  builds fs ss → plain name →
  json_val v (maybe_quote quotes (hex_prefix hex ++ stream_out hex x)) →
  builds (fs ++ [(name, v)]) (addField ss name x quotes hex).
Proof. intros. by apply builds_snoc. Qed.

Lemma builds_number fs ss name n :
  builds fs ss → plain name → 0 ≤ n →
  builds (fs ++ [(name, JNum (to_dec n))]) (addField ss name n false false).
Proof. intros. apply builds_field; [done..|]. by apply to_dec_number. Qed.

Lemma builds_string fs ss name (s : bytes) :
  builds fs ss → plain name → plain s →
  builds (fs ++ [(name, JStr s)]) (addField ss name s true false).
Proof. intros. apply builds_field; [done..|]. by constructor. Qed.

Lemma elems_of_texts vs ts :
  ts ≠ [] → Forall2 json_val vs ts →
  ∃ m, ts ≫= (λ t, t ++ lit ",") = m ++ lit "," ∧ json_elems vs m.
Proof.
  intros Hne Hv. induction Hv as [|v t vs ts Hv Hvs IH]; [done|]. rewrite bind_cons.
  destruct (decide (ts = [])) as [->|Hts].
  - inversion Hvs; subst. exists t. split; [by rewrite app_nil_r|].
    pose proof (je_one v t [] [] Hv) as He. rewrite app_nil_r in He. apply He; constructor.
  - destruct (IH Hts) as (m & -> & Hm). exists (t ++ lit "," ++ m).
    split; [by rewrite <-!app_assoc|].
    apply (je_cons v t [] [] vs m Hv Hm); constructor.
Qed.

Lemma pop_back_snoc (s : bytes) c : pop_back (s ++ [c]) = Ok s.
Proof. unfold pop_back. rewrite removelast_last. by destruct s. Qed.

Lemma builds_vector `{Stream T} fs ss name (items : list T) quotes hex vs :
  builds fs ss → plain name → items ≠ [] →
  Forall2 json_val vs
    ((λ x, maybe_quote quotes (hex_prefix hex ++ stream_out hex x)) <$> items) →
  ∃ ss', addVector ss name items quotes hex = Ok ss' ∧ builds (fs ++ [(name, JArr vs)]) ss'.
Proof.
  intros Hb Hn Hne Hvs.
  assert ((λ x, maybe_quote quotes (hex_prefix hex ++ stream_out hex x)) <$> items ≠ []) as Hts
    by (intros ?%fmap_nil_inv; done).
  destruct (elems_of_texts vs _ Hts Hvs) as (m & Hm & He).
  unfold addVector. rewrite list_fmap_bind in Hm.
  change (items ≫= _) with (items ≫= (λ t : bytes, t ++ lit ",") ∘
    (λ x : T, maybe_quote quotes (hex_prefix hex ++ stream_out hex x))) at 1.
  rewrite Hm. change (lit ",") with [","%char] at 1. rewrite pop_back_snoc. cbn [res_bind].
  eexists. split; [reflexivity|].
  assert (ss ++ quote name ++ lit ": [" ++ m ++ lit "]," =
    ss ++ field_text (name, JArr vs, lit "[" ++ m ++ lit "]")) as ->.
  { unfold field_text. cbn. by rewrite <-!app_assoc. }
  apply builds_snoc; [done..|]. by constructor.
Qed.

Lemma builds_getJSON fs ss : builds fs ss → json_val (JObj fs) (getJSON ss).
Proof.
  intros (l & -> & Hl & ->). unfold getJSON.
  destruct (decide (l = [])) as [->|Hne].
  { apply (jv_empty []). constructor. }
  destruct (members_of_fields l Hne Hl) as (m & -> & Hm).
  rewrite app_assoc, ends_with_app. change (lit ",") with [","%char]. rewrite removelast_last.
  rewrite <-app_assoc. by constructor.
Qed.

(** ** Lemmas: objects laid out with white space *)
Record wfield := WField {
  wf_before : bytes; wf_name : bytes; wf_value : json; wf_text : bytes; wf_after : bytes }.

Definition wfield_text (f : wfield) : bytes :=
  wf_before f ++ quote (wf_name f) ++ lit ": " ++ wf_text f ++ wf_after f.
Fixpoint wfields_text (fs : list wfield) : bytes :=
  match fs with
  | [] => []
  | [f] => wfield_text f
  | f :: fs' => wfield_text f ++ lit "," ++ wfields_text fs'
  end.
Definition wobj (fs : list wfield) : bytes := lit "{" ++ wfields_text fs ++ lit "}".
Definition wfield_ok (f : wfield) : Prop :=
  all_ws (wf_before f) ∧ plain (wf_name f) ∧ json_val (wf_value f) (wf_text f) ∧ all_ws (wf_after f).

Lemma wobj_val fs :
  fs ≠ [] → Forall wfield_ok fs →
  json_val (JObj ((λ f, (wf_name f, wf_value f)) <$> fs)) (wobj fs).
Proof.
  intros Hne Hfs. constructor. induction Hfs as [|f fs (H1 & H2 & H3 & H4) Hfs IH]; [done|].
  destruct fs as [|g fs].
  - apply (jm_one (wf_name f) (wf_value f) (wf_text f) (wf_before f) [] (lit " ") (wf_after f));
      [done..|by repeat constructor|by repeat constructor|done].
  - change (wfields_text (f :: g :: fs)) with
      (wfield_text f ++ lit "," ++ wfields_text (g :: fs)).
    pose proof (jm_cons (wf_name f) (wf_value f) (wf_text f) (wf_before f) [] (lit " ") (wf_after f)
      _ _ H2 H3 (IH ltac:(done)) H1 ltac:(by repeat constructor) ltac:(by repeat constructor) H4)
      as Hm.
    unfold wfield_text. rewrite <-!app_assoc. exact Hm.
Qed.

Lemma wobj_denotes v fs :
  v = JObj ((λ f, (wf_name f, wf_value f)) <$> fs) → fs ≠ [] → Forall wfield_ok fs →
  json_val v (wobj fs).
Proof. intros ->. apply wobj_val. Qed.

(** Number, string and object fields. *)
Definition wnum (w k : bytes) (n : Z) (a : bytes) : wfield :=
  WField w k (JNum (to_dec n)) (to_dec n) a.
Definition wstr (w k s a : bytes) : wfield := WField w k (JStr s) (quote s) a.
Definition wsub (w k : bytes) (fs : list wfield) (a : bytes) : wfield :=
  WField w k (JObj ((λ f, (wf_name f, wf_value f)) <$> fs)) (wobj fs) a.

Lemma wnum_ok w k n a :
  all_ws w → plain k → 0 ≤ n → all_ws a → wfield_ok (wnum w k n a).
Proof. intros. repeat split; try done. by apply to_dec_number. Qed.
Lemma wstr_ok w k s a :
  all_ws w → plain k → plain s → all_ws a → wfield_ok (wstr w k s a).
Proof. intros. repeat split; try done. by constructor. Qed.
Lemma wsub_ok w k fs a :
  all_ws w → plain k → fs ≠ [] → Forall wfield_ok fs → all_ws a → wfield_ok (wsub w k fs a).
Proof. intros. repeat split; try done. by apply wobj_val. Qed.

(** Discharges [Forall wfield_ok] for an explicit list of fields. *)
Ltac solve_wfields :=
  repeat first
    [ apply list.Forall_nil_2
    | apply Forall_cons_2
    | apply wnum_ok; [by repeat constructor|by apply plain_lit| |by repeat constructor]
    | apply wstr_ok; [by repeat constructor|by apply plain_lit| |by repeat constructor]
    | apply wsub_ok; [by repeat constructor|by apply plain_lit|done| |by repeat constructor] ];
  try done.

(** Elements joined by a separator of a comma and white space. *)
Fixpoint joined (sep : bytes) (ts : list bytes) : bytes :=
  match ts with [] => [] | [t] => t | t :: ts' => t ++ sep ++ joined sep ts' end.

Lemma joined_elems w vs ts w1 w2 :
  all_ws w → all_ws w1 → all_ws w2 → ts ≠ [] →
  Forall2 (λ v t, ∃ w0 t0, all_ws w0 ∧ t = w0 ++ t0 ∧ json_val v t0) vs ts →
  json_elems vs (w1 ++ joined (lit "," ++ w) ts ++ w2).
Proof.
  intros Hw Hw1 Hw2 Hne Hts. revert w1 Hw1.
  induction Hts as [|v t vs ts (w0 & t0 & Hw0 & -> & Hv) Hts IH]; intros w1 Hw1; [done|].
  destruct Hts as [|v' t' vs ts Hv' Hts].
  - cbn [joined]. rewrite <-app_assoc, app_assoc. apply je_one; [done| |done]. by apply Forall_app.
  - change (joined (lit "," ++ w) ((w0 ++ t0) :: t' :: ts)) with
      ((w0 ++ t0) ++ (lit "," ++ w) ++ joined (lit "," ++ w) (t' :: ts)).
    rewrite <-!app_assoc, (app_assoc w1).
    pose proof (je_cons v t0 (w1 ++ w0) [] _ _ Hv (IH ltac:(done) w Hw)
      ltac:(by apply Forall_app) ltac:(constructor)) as He.
    exact He.
Qed.

Lemma joined_array w vs ts w1 w2 :
  all_ws w → all_ws w1 → all_ws w2 →
  Forall2 (λ v t, ∃ w0 t0, all_ws w0 ∧ t = w0 ++ t0 ∧ json_val v t0) vs ts →
  json_val (JArr vs) (lit "[" ++ (w1 ++ joined (lit "," ++ w) ts ++ w2) ++ lit "]").
Proof.
  intros Hw Hw1 Hw2 Hts. destruct (decide (ts = [])) as [->|Hne].
  - inversion Hts; subst. apply jv_nil. apply Forall_app. split; [done|]. by cbn.
  - apply jv_arr. by apply joined_elems.
Qed.

(** ** Lemmas: [renderJSON] *)
Section render.
Context `{Stream T} (valueAsString : bool).
Implicit Types fields : list (bytes * T).

Definition render_text (f : bytes * T) : bytes :=
  quote f.1 ++ lit ": " ++ maybe_quote valueAsString (stream_out false f.2) ++ lit ",".

Lemma renderJSON_commas fields :
  renderJSON fields false valueAsString = fields ≫= render_text.
Proof.
  induction fields as [|[k v] l IH]; [done|]. cbn [renderJSON]. rewrite IH, orb_true_r, bind_cons.
  unfold render_text. cbn [fst snd]. by rewrite <-!app_assoc.
Qed.

Lemma renderJSON_final fields :
  fields ≠ [] →
  renderJSON fields false valueAsString = renderJSON fields true valueAsString ++ lit ",".
Proof.
  induction fields as [|[k v] l IH]; intros Hne; [done|]. cbn [renderJSON].
  destruct (decide (l = [])) as [->|Hl].
  - cbn [renderJSON negb orb]. rewrite bool_decide_eq_true_2 by done. cbn [negb orb app].
    by rewrite !app_nil_r, <-!app_assoc.
  - rewrite (bool_decide_eq_false_2 _ Hl), IH by done. cbn [negb orb]. by rewrite <-!app_assoc.
Qed.

(** The fields with the JSON values their texts denote. *)
Definition denotes_fields (fields : list (bytes * T)) (vs : list (bytes * json)) : Prop :=
  Forall2 (λ f kv, f.1 = kv.1 ∧ plain f.1 ∧
    json_val kv.2 (maybe_quote valueAsString (stream_out false f.2))) fields vs.

Lemma render_fields fields vs :
  denotes_fields fields vs →
  ∃ l, vs = l.*1 ∧ Forall field_ok l ∧ fields ≫= render_text = l ≫= field_text.
Proof.
  induction 1 as [|[k x] [k' v] fields vs (Hk & Hp & Hv) Hf IH]; [by exists []|].
  destruct IH as (l & -> & Hl & Ht). cbn in *. subst k'.
  exists ((k, v, maybe_quote valueAsString (stream_out false x)) :: l). split_and!; [done| |].
  - by constructor.
  - by rewrite !bind_cons, Ht.
Qed.
End render.

(** ** Properties *)

(** A call on the helper; [OpRaw] adds a field whose text is JSON already. *)
Inductive json_op :=
| OpNumber (name : bytes) (n : Z)
| OpString (name s : bytes)
| OpNumbers (name : bytes) (ns : list Z)
| OpRaw (name text : bytes) (v : json).

Definition run_op (ss : bytes) (op : json_op) : res bytes :=
  match op with
  | OpNumber name n => Ok (addField ss name n false false)
  | OpString name s => Ok (addField ss name s true false)
  | OpNumbers name ns => addVector ss name ns false false
  | OpRaw name text _ => Ok (addField ss name text false false)
  end.

Definition op_field (op : json_op) : bytes * json :=
  match op with
  | OpNumber name n => (name, JNum (to_dec n))
  | OpString name s => (name, JStr s)
  | OpNumbers name ns => (name, JArr ((λ n, JNum (to_dec n)) <$> ns))
  | OpRaw name _ v => (name, v)
  end.

Definition op_ok (op : json_op) : Prop :=
  match op with
  | OpNumber name n => plain name ∧ 0 ≤ n
  | OpString name s => plain name ∧ plain s
  | OpNumbers name ns => plain name ∧ ns ≠ [] ∧ Forall (λ n, 0 ≤ n) ns
  | OpRaw name text v => plain name ∧ json_val v text
  end.

Lemma run_op_builds fs ss op :
  builds fs ss → op_ok op → ∃ ss', run_op ss op = Ok ss' ∧ builds (fs ++ [op_field op]) ss'.
Proof.
  intros Hb. destruct op as [name n|name s|name ns|name text v]; cbn.
  - intros []. eexists. split; [done|]. by apply builds_number.
  - intros []. eexists. split; [done|]. by apply builds_string.
  - intros (? & ? & Hns). apply builds_vector; [done..|]. clear -Hns.
    induction Hns as [|n ns Hn Hns IH]; constructor; [by apply to_dec_number|done].
  - intros []. eexists. split; [done|]. by apply builds_field.
Qed.

(** The JSON helper round-trips: after any sequence of calls that add
    numbers, strings without quotes, backslashes or control characters, non-empty
    number vectors and nested JSON, [getJSON] returns a text that a JSON reader
    turns back into exactly the object with those fields in that order; and an
    empty vector is the one call that is undefined behaviour. *)
Theorem json_helper_roundtrip ops :
  Forall op_ok ops →
  (∃ ss, res_fold run_op json_new ops = Ok ss ∧
     json_val (JObj (op_field <$> ops)) (getJSON ss) ∧
     parse_json (getJSON ss) = Some (JObj (op_field <$> ops))) ∧
  ∀ ss name, run_op ss (OpNumbers name []) = Err FUB.
Proof.
  intros Hops. split; [|done].
  assert (∀ fs ss0, builds fs ss0 → ∃ ss, res_fold run_op ss0 ops = Ok ss ∧
    builds (fs ++ (op_field <$> ops)) ss) as H.
  { induction Hops as [|op ops Hop Hops IH]; intros fs ss0 Hb; cbn.
    { exists ss0. by rewrite app_nil_r. }
    destruct (run_op_builds fs ss0 op Hb Hop) as (ss1 & -> & Hb1). cbn.
    destruct (IH _ _ Hb1) as (ss & Hss & Hbs). exists ss. by rewrite <-app_assoc in Hbs. }
  destruct (H [] json_new builds_new) as (ss & Hss & Hb). exists ss. split; [done|].
  apply builds_getJSON in Hb. split; [done|]. by apply parse_json_complete.
Qed.

(** [renderJSON] between braces, with the final comma omitted, denotes the
    object with exactly the given fields; without omitting it, the same text
    followed by the comma that separates it from what is appended next. *)
Theorem renderJSON_object `{Stream T} (fields : list (bytes * T)) valueAsString vs :
  denotes_fields valueAsString fields vs →
  parse_json (lit "{" ++ renderJSON fields true valueAsString ++ lit "}") = Some (JObj vs) ∧
  (fields ≠ [] → renderJSON fields false valueAsString =
     renderJSON fields true valueAsString ++ lit ",").
Proof.
  intros Hf. split; [|apply renderJSON_final]. apply parse_json_complete.
  destruct (render_fields valueAsString fields vs Hf) as (l & -> & Hl & Ht).
  destruct (decide (fields = [])) as [->|Hne].
  { assert (l = []) as -> by (inversion Hf as [Hn|]; destruct l; done).
    apply (jv_empty []). constructor. }
  assert (l ≠ []) as Hlne by (intros ->; inversion Hf; by subst).
  destruct (members_of_fields l Hlne Hl) as (m & Hm & Hmem).
  rewrite <-renderJSON_commas, renderJSON_final, Hm in Ht by done.
  apply app_inj_2 in Ht as [Ht _]; [|done]. rewrite Ht. by constructor.
Qed.

Lemma json_helper_roundtrip_witness :
  ∃ ss, res_fold run_op json_new
      [OpString (lit "kernel") (lit "foo(int)"); OpNumbers (lit "addresses") [1; 20]] = Ok ss ∧
    parse_json (getJSON ss) = Some (JObj
      [(lit "kernel", JStr (lit "foo(int)"));
       (lit "addresses", JArr [JNum (lit "1"); JNum (lit "20")])]).
Proof.
  destruct (json_helper_roundtrip
    [OpString (lit "kernel") (lit "foo(int)"); OpNumbers (lit "addresses") [1; 20]])
    as [(ss & Hss & _ & Hp) _].
  - repeat apply Forall_cons_2; [| |apply list.Forall_nil_2];
      repeat split; try discriminate; repeat constructor; discriminate.
  - exists ss. split; [exact Hss|exact Hp].
Defined.

Lemma renderJSON_object_witness :
  parse_json (lit "{" ++ renderJSON [(lit "v_add", 3); (lit "s_nop", 2)] true false ++ lit "}") =
  Some (JObj [(lit "v_add", JNum (lit "3")); (lit "s_nop", JNum (lit "2"))]).
Proof.
  apply (renderJSON_object [(lit "v_add", 3); (lit "s_nop", 2)] false
    [(lit "v_add", JNum (lit "3")); (lit "s_nop", JNum (lit "2"))]).
  repeat constructor; apply (to_dec_number 3) || apply (to_dec_number 2); lia.
Defined.
