(* ===== verification/Doubles.v ===== *)
(** * Doubles

    The reports divide counters as IEEE-754 doubles and print them with the
    default format of an output stream ([%g] with six significant digits).  The
    arithmetic is the Standard Library's binary64 specification; printing follows
    the C standard on the exact value of the double, ties to even.  The sign of a
    NaN is not modelled. *)
From Stdlib Require Import SpecFloat.
From S2P Require Import Prelude StdString Json.

Abbreviation double := spec_float.

Definition double_of_Z (z : Z) : double := binary_normalize 53 1024 z 0 false.
Definition ddiv : double → double → double := SFdiv 53 1024.
Definition dmul : double → double → double := SFmul 53 1024.
Definition dsub : double → double → double := SFsub 53 1024.

(** A positive rational [num / den], scaled by a power of ten. *)
Definition scale10 (num den k : Z) : Z * Z :=
  if 0 <=? k then (num * 10 ^ k, den) else (num, den * 10 ^ (- k)).

Definition round_half_even (num den : Z) : Z :=
  let q := num / den in
  let r2 := 2 * (num mod den) in
  if r2 <? den then q
  else if den <? r2 then q + 1
  else if Z.even q then q else q + 1.

(** The decimal exponent: the [k] with [10^k <= num / den < 10^(k+1)]. *)
Definition below_pow10 (num den k : Z) : bool :=
  let '(n, d) := scale10 num den (- k) in n <? d.
Definition decimal_exponent (num den : Z) : Z :=
  match list_find (λ k, below_pow10 num den (k + 1) = true) (seqZ (-330) 660) with
  | Some (_, k) => k
  | None => 330
  end.

(** Six significant digits and their exponent. *)
Definition significand (num den : Z) : Z * Z :=
  let k := decimal_exponent num den in
  let '(n, d) := scale10 num den (5 - k) in
  let s := round_half_even n d in
  if s =? 10 ^ 6 then (10 ^ 5, k + 1) else (s, k).

Definition six_digits (s : Z) : bytes :=
  (λ i, digit_char ((s / 10 ^ i) mod 10)) <$> [5; 4; 3; 2; 1; 0].

Definition strip_zeros (s : bytes) : bytes :=
  match rfind_if (λ c, negb (aeqb c "0")) s with Some i => take (S i) s | None => [] end.

Definition with_fraction (int frac : bytes) : bytes :=
  match strip_zeros frac with [] => int | f => int ++ lit "." ++ f end.

Definition show_exponent (k : Z) : bytes :=
  lit "e" ++ (if k <? 0 then lit "-" else lit "+") ++ pad_left 2 "0" (to_dec (Z.abs k)).

Definition show_positive (num den : Z) : bytes :=
  let '(s, k) := significand num den in
  let ds := six_digits s in
  if (0 <=? k) && (k <? 6) then
    with_fraction (take (Z.to_nat (k + 1)) ds) (drop (Z.to_nat (k + 1)) ds)
  else if (-4 <=? k) && (k <? 0) then
    with_fraction (lit "0") (replicate (Z.to_nat (- k - 1)) "0"%char ++ ds)
  else with_fraction (take 1 ds) (drop 1 ds) ++ show_exponent k.

Definition show_double (x : double) : bytes :=
  match x with
  | S754_zero s => (if s then lit "-" else []) ++ lit "0"
  | S754_infinity s => (if s then lit "-" else []) ++ lit "inf"
  | S754_nan => lit "nan"
  | S754_finite s m e =>
      (if s then lit "-" else []) ++
      (if 0 <=? e then show_positive (Zpos m * 2 ^ e) 1 else show_positive (Zpos m) (2 ^ (- e)))
  end.

#[export] Instance stream_double : Stream double := λ _ x, show_double x.

(** ** A printed finite double is a JSON number *)
Abbreviation all_digits s := (Forall (λ c, isdigit c = true) s).

Lemma digits1_spec s : s ≠ [] → all_digits s → digits1 s = true.
Proof.
  intros Hne Hs. unfold digits1. destruct s as [|c s]; [done|]. apply List.forallb_forall.
  intros d Hd%list_elem_of_In. rewrite list.Forall_forall in Hs. auto.
Qed.

Lemma split_char_none p s : (∀ c, c ∈ s → p c = false) → split_char p s = (s, None).
Proof.
  intros Hp. unfold split_char. rewrite (proj2 (find_if_None p s)); [done|].
  by apply list.Forall_forall.
Qed.
Lemma split_char_here p s c t :
  (∀ d, d ∈ s → p d = false) → p c = true → split_char p (s ++ c :: t) = (s, Some t).
Proof.
  intros Hp Hc. unfold split_char. rewrite find_if_here; [|by apply list.Forall_forall|done].
  rewrite take_app_length. f_equal. f_equal. apply drop_middle.
Qed.

(** The parts of a printed number. *)
Definition frac_text (frac : bytes) : bytes :=
  match frac with [] => [] | f => lit "." ++ f end.

Lemma number_ok_parts (neg : bool) int frac exp :
  int ≠ [] → all_digits int → (starts_with (lit "0") int = false ∨ length int = 1%nat) →
  all_digits frac →
  (exp = [] ∨ ∃ sign ds, exp = "e"%char :: sign :: ds ∧ (sign = "+"%char ∨ sign = "-"%char) ∧
     ds ≠ [] ∧ all_digits ds) →
  let t := (if neg then lit "-" else []) ++ int ++ frac_text frac ++ exp in
  number_ok t = true ∧ Forall (λ c, number_char c = true) t.
Proof.
  intros Hi Hid Hz Hf He. cbn zeta.
  assert (∀ c, isdigit c = true → (aeqb c "e" || aeqb c "E") = false ∧ aeqb c "." = false ∧
    aeqb c "-" = false ∧ aeqb c "+" = false ∧ number_char c = true) as Hdig.
  { by intros [[] [] [] [] [] [] [] []]. }
  assert (∀ l c, all_digits l → c ∈ l → isdigit c = true) as Hin.
  { intros l c Hl. rewrite list.Forall_forall in Hl. apply Hl. }
  assert (∀ l, all_digits l → Forall (λ c, number_char c = true) l) as Hnc.
  { intros l Hl. eapply list.Forall_impl; [exact Hl|]. intros c Hc. by apply Hdig. }
  split.
  2:{ repeat apply Forall_app_2.
      - by destruct neg; repeat constructor.
      - by apply Hnc.
      - unfold frac_text. destruct frac as [|c f]; [constructor|].
        constructor; [done|]. apply Hnc in Hf. exact Hf.
      - destruct He as [->|(sign & ds & -> & [-> | ->] & _ & Hds)]; [constructor|..];
          (constructor; [done|]); (constructor; [done|]); by apply Hnc. }
  set (body := int ++ frac_text frac ++ exp).
  assert (number_ok ((if neg then lit "-" else []) ++ body) =
    let '(mantissa, e) := split_char (λ c, aeqb c "e" || aeqb c "E") body in
    let '(int, frac) := split_char (λ c, aeqb c ".") mantissa in
    int_ok int && (match frac with Some f => digits1 f | None => true end) && exponent_ok e) as ->.
  { destruct neg; [done|]. unfold number_ok. cbn [app].
    destruct body as [|c b] eqn:Hb; [done|].
    destruct int as [|c' int']; [done|]. unfold body in Hb. injection Hb as -> Hb.
    apply list.Forall_cons in Hid as [Hc _].
    by destruct (Hdig c Hc) as (_ & _ & -> & _). }
  assert (split_char (λ c, aeqb c "e" || aeqb c "E") body =
    (int ++ frac_text frac, match exp with _ :: e => Some e | [] => None end)) as ->.
  { unfold body. rewrite app_assoc.
    assert (∀ c, c ∈ int ++ frac_text frac → (aeqb c "e" || aeqb c "E") = false) as Hno.
    { intros c [Hc|Hc]%elem_of_app; [by apply Hdig, (Hin int)|].
      unfold frac_text in Hc. destruct frac as [|f fs]; [by apply elem_of_nil in Hc|].
      apply elem_of_cons in Hc as [->|Hc]; [done|]. by apply Hdig, (Hin (f :: fs)). }
    destruct He as [->|(sign & ds & -> & _)].
    - rewrite app_nil_r. by apply split_char_none.
    - by apply split_char_here. }
  assert (split_char (λ c, aeqb c ".") (int ++ frac_text frac) =
    (int, match frac with [] => None | f => Some f end)) as ->.
  { unfold frac_text. destruct frac as [|f fs].
    - rewrite app_nil_r. apply split_char_none. intros c Hc. by apply Hdig, (Hin int).
    - apply split_char_here; [|done]. intros c Hc. by apply Hdig, (Hin int). }
  apply andb_true_iff. split; [apply andb_true_iff; split|].
  - unfold int_ok. rewrite digits1_spec by done. destruct Hz as [-> | ->]; [done|].
    by rewrite andb_false_r.
  - destruct frac; [done|]. by apply digits1_spec.
  - destruct He as [->|(sign & ds & -> & Hs & Hne & Hds)]; [done|]. unfold exponent_ok.
    replace (aeqb sign "+" || aeqb sign "-") with true by (by destruct Hs as [-> | ->]).
    by apply digits1_spec.
Qed.

Lemma strip_zeros_digits s : all_digits s → all_digits (strip_zeros s).
Proof.
  intros Hs. unfold strip_zeros. destruct (rfind_if _ s); [|constructor]. by apply Forall_take.
Qed.

Lemma with_fraction_text int frac :
  with_fraction int frac = int ++ frac_text (strip_zeros frac).
Proof. unfold with_fraction, frac_text. destruct (strip_zeros frac); [by rewrite app_nil_r|done]. Qed.

Lemma six_digits_digits s : all_digits (six_digits s).
Proof.
  apply Forall_fmap, list.Forall_forall. intros i _. cbn.
  apply digit_char_spec, Z.mod_pos_bound. lia.
Qed.

Lemma digit_char_nonzero d : 0 < d < 10 → digit_char d ≠ "0"%char.
Proof.
  intros Hd. assert (d ∈ seqZ 1 9) as Hin by (apply elem_of_seqZ; lia). clear Hd. revert d Hin.
  apply list.Forall_forall, (bool_decide_unpack _). vm_compute. exact I.
Qed.

Lemma six_digits_head s : 10 ^ 5 ≤ s < 10 ^ 6 → ∃ c l, six_digits s = c :: l ∧ c ≠ "0"%char.
Proof.
  intros Hs. eexists _, _. split; [reflexivity|]. apply digit_char_nonzero.
  assert (1 ≤ s / 10 ^ 5 < 10).
  { split; [apply Z.div_le_lower_bound; lia|apply Z.div_lt_upper_bound; lia]. }
  rewrite Z.mod_small; lia.
Qed.

(** *** The decimal exponent *)
Lemma below_pow10_spec num den k :
  0 < den → below_pow10 num den k = true ↔ num * 10 ^ Z.max 0 (- k) < den * 10 ^ Z.max 0 k.
Proof.
  intros Hd. unfold below_pow10, scale10. destruct (Z.leb_spec 0 (- k)).
  - rewrite (Z.max_r 0 (- k)), Z.ltb_lt by lia. rewrite (Z.max_l 0 k) by lia.
    rewrite Z.pow_0_r. lia.
  - rewrite (Z.max_l 0 (- k)), Z.ltb_lt by lia. rewrite (Z.max_r 0 k), Z.opp_involutive by lia.
    rewrite Z.pow_0_r. lia.
Qed.

(** Within the range of binary64. *)
Definition in_range (num den : Z) : Prop :=
  0 < num ∧ 0 < den ∧ den ≤ num * 10 ^ 330 ∧ num < den * 10 ^ 330.

Lemma decimal_exponent_spec num den :
  in_range num den →
  let k := decimal_exponent num den in
  -330 ≤ k ∧ below_pow10 num den (k + 1) = true ∧ below_pow10 num den k = false.
Proof.
  intros (Hn & Hd & Hlo & Hhi). cbn zeta. unfold decimal_exponent.
  destruct (list_find _ _) as [[i k]|] eqn:Hf.
  - apply list_find_Some in Hf as (Hk & Hb & Hmin).
    apply lookup_seqZ in Hk as [-> Hi].
    split; [lia|]. split; [done|]. destruct i as [|i].
    + apply not_true_iff_false. rewrite below_pow10_spec by done. cbn -[Z.pow Z.mul].
      change (Z.max 0 (- (-330 + Z.of_nat 0))) with 330.
      change (Z.max 0 (-330 + Z.of_nat 0)) with 0. rewrite Z.pow_0_r. lia.
    + apply not_true_iff_false. intros H.
      apply (Hmin i (-330 + Z.of_nat i)); [apply lookup_seqZ; lia|lia|].
      by replace (-330 + Z.of_nat i + 1) with (-330 + Z.of_nat (S i)) by lia.
  - exfalso. apply list_find_None in Hf. rewrite list.Forall_forall in Hf.
    apply (Hf 329); [apply elem_of_seqZ; lia|]. rewrite below_pow10_spec by done.
    change (Z.max 0 (- (329 + 1))) with 0. change (Z.max 0 (329 + 1)) with 330.
    rewrite Z.pow_0_r. lia.
Qed.

(** Scaling by [10^(5-k)] puts the value into [10^5, 10^6). *)
Lemma scale10_bounds num den k :
  0 < num → 0 < den → below_pow10 num den (k + 1) = true → below_pow10 num den k = false →
  let '(n, d) := scale10 num den (5 - k) in 0 < d ∧ d * 10 ^ 5 ≤ n ∧ n < d * 10 ^ 6.
Proof.
  intros Hn Hd H1 H0. apply not_true_iff_false in H0. rewrite below_pow10_spec in H0, H1 by done.
  apply Z.nlt_ge in H0. unfold scale10.
  destruct (Z.leb_spec 0 (5 - k)) as [Hk|Hk]; (split; [try nia|split]).
  - destruct (Z.leb_spec 0 k).
    + rewrite (Z.max_r 0 k), (Z.max_l 0 (- k)) in H0 by lia. rewrite Z.pow_0_r, Z.mul_1_r in H0.
      replace (10 ^ 5) with (10 ^ k * 10 ^ (5 - k)) by (rewrite <-Z.pow_add_r by lia; f_equal; lia).
      pose proof (Z.pow_pos_nonneg 10 (5 - k) ltac:(lia) Hk). nia.
    + rewrite (Z.max_l 0 k), (Z.max_r 0 (- k)) in H0 by lia. rewrite Z.pow_0_r, Z.mul_1_r in H0.
      replace (10 ^ (5 - k)) with (10 ^ 5 * 10 ^ (- k))
        by (rewrite <-Z.pow_add_r by lia; f_equal; lia). nia.
  - destruct (Z.leb_spec 0 (k + 1)).
    + rewrite (Z.max_r 0 (k + 1)), (Z.max_l 0 (- (k + 1))) in H1 by lia. rewrite Z.pow_0_r, Z.mul_1_r in H1.
      replace (10 ^ 6) with (10 ^ (k + 1) * 10 ^ (5 - k))
        by (rewrite <-Z.pow_add_r by lia; f_equal; lia).
      pose proof (Z.pow_pos_nonneg 10 (5 - k) ltac:(lia) Hk). nia.
    + rewrite (Z.max_l 0 (k + 1)), (Z.max_r 0 (- (k + 1))) in H1 by lia. rewrite Z.pow_0_r, Z.mul_1_r in H1.
      replace (10 ^ (5 - k)) with (10 ^ 6 * 10 ^ (- (k + 1)))
        by (rewrite <-Z.pow_add_r by lia; f_equal; lia). nia.
  - rewrite (Z.max_r 0 k), (Z.max_l 0 (- k)) in H0 by lia. rewrite Z.pow_0_r, Z.mul_1_r in H0.
    replace (10 ^ k) with (10 ^ (- (5 - k)) * 10 ^ 5) in H0
      by (rewrite <-Z.pow_add_r by lia; f_equal; lia). rewrite Z.mul_assoc in H0. lia.
  - rewrite (Z.max_r 0 (k + 1)), (Z.max_l 0 (- (k + 1))) in H1 by lia. rewrite Z.pow_0_r, Z.mul_1_r in H1.
    replace (10 ^ (k + 1)) with (10 ^ (- (5 - k)) * 10 ^ 6) in H1
      by (rewrite <-Z.pow_add_r by lia; f_equal; lia). rewrite Z.mul_assoc in H1. lia.
Qed.

Lemma round_half_even_bounds n d a b :
  0 < d → d * a ≤ n → n < d * b → a ≤ round_half_even n d ≤ b.
Proof.
  intros Hd Ha Hb. unfold round_half_even.
  pose proof (Z.div_mod n d ltac:(lia)). pose proof (Z.mod_pos_bound n d Hd).
  assert (a ≤ n / d) by (apply Z.div_le_lower_bound; lia).
  assert (n / d < b) by (apply Z.div_lt_upper_bound; lia).
  repeat case_match; lia.
Qed.

Lemma significand_bounds num den s k :
  in_range num den → significand num den = (s, k) → 10 ^ 5 ≤ s < 10 ^ 6.
Proof.
  intros Hr. destruct (decimal_exponent_spec num den Hr) as (_ & H1 & H0).
  destruct Hr as (Hn & Hd & _). unfold significand.
  pose proof (scale10_bounds num den _ Hn Hd H1 H0) as Hsc.
  destruct (scale10 num den _) as [n d]. destruct Hsc as (Hd' & Hlo & Hhi).
  pose proof (round_half_even_bounds n d _ _ Hd' Hlo Hhi) as Hb.
  destruct (Z.eqb_spec (round_half_even n d) (10 ^ 6)); intros [= <- <-]; lia.
Qed.

(** *** Validity *)
Definition json_number (t : bytes) : Prop :=
  number_ok t = true ∧ Forall (λ c, number_char c = true) t.

Lemma show_exponent_parts k : ∃ sign ds, show_exponent k = "e"%char :: sign :: ds ∧
  (sign = "+"%char ∨ sign = "-"%char) ∧ ds ≠ [] ∧ all_digits ds.
Proof.
  unfold show_exponent. exists (if k <? 0 then "-"%char else "+"%char), (pad_left 2 "0" (to_dec (Z.abs k))).
  split_and!.
  - by destruct (k <? 0).
  - destruct (k <? 0); auto.
  - unfold pad_left. intros [_ H]%app_nil. by apply to_dec_ne in H.
  - unfold pad_left. apply Forall_app_2; [by apply Forall_replicate|apply to_dec_digits; lia].
Qed.

Lemma show_positive_number neg num den :
  in_range num den → json_number ((if neg : bool then lit "-" else []) ++ show_positive num den).
Proof.
  intros Hr. unfold show_positive. destruct (significand num den) as [s k] eqn:Hs.
  apply significand_bounds in Hs as Hb; [|done].
  destruct (six_digits_head s Hb) as (c & l & Hcl & Hc).
  pose proof (six_digits_digits s) as Hd.
  assert (∀ n, all_digits (take n (six_digits s)) ∧ all_digits (drop n (six_digits s))) as Htd.
  { intros n. split; [by apply Forall_take|by apply Forall_drop]. }
  assert (∀ n, (0 < n)%nat → take n (six_digits s) ≠ [] ∧
    starts_with (lit "0") (take n (six_digits s)) = false) as Htake.
  { intros [|n] Hn; [lia|]. rewrite Hcl. cbn [firstn]. split; [done|]. cbn.
    apply andb_false_intro1, aeqb_neq. congruence. }
  destruct ((0 <=? k) && (k <? 6)) eqn:Hk; [|destruct ((-4 <=? k) && (k <? 0)) eqn:Hk'].
  - apply andb_true_iff in Hk as [Hk%Z.leb_le _]. rewrite with_fraction_text.
    pose proof (number_ok_parts neg (take (Z.to_nat (k + 1)) (six_digits s))
      (strip_zeros (drop (Z.to_nat (k + 1)) (six_digits s))) []) as Hp.
    rewrite app_nil_r in Hp. apply Hp; [apply Htake; lia|apply Htd|left; apply Htake; lia| |by left].
    apply strip_zeros_digits, Htd.
  - rewrite with_fraction_text.
    pose proof (number_ok_parts neg (lit "0")
      (strip_zeros (replicate (Z.to_nat (- k - 1)) "0"%char ++ six_digits s)) []) as Hp.
    rewrite app_nil_r in Hp. apply Hp; [done|by repeat constructor|by right| |by left].
    apply strip_zeros_digits, Forall_app_2; [by apply Forall_replicate|done].
  - rewrite with_fraction_text, <-app_assoc.
    apply number_ok_parts; [apply Htake; lia|apply Htd|left; apply Htake; lia| |right].
    + apply strip_zeros_digits, Htd.
    + apply show_exponent_parts.
Qed.

(** Zero, or a finite double of the binary64 format. *)
Definition finite_double (x : double) : Prop :=
  match x with
  | S754_zero _ => True
  | S754_finite _ m e => Zpos m < 2 ^ 53 ∧ -1074 ≤ e ≤ 971
  | _ => False
  end.

Lemma show_double_number x : finite_double x → json_number (show_double x).
Proof.
  destruct x as [s| | |s m e]; cbn [finite_double show_double]; [|done|done|].
  { intros _. destruct s; (split; [done|by repeat constructor]). }
  intros [Hm He]. destruct (Z.leb_spec 0 e); apply show_positive_number.
  - pose proof (Z.pow_pos_nonneg 2 e ltac:(lia) ltac:(lia)).
    pose proof (Z.pow_le_mono_r 2 e 971 ltac:(lia) ltac:(lia)).
    assert (2 ^ 53 * 2 ^ 971 < 10 ^ 330) by (vm_compute; reflexivity).
    assert (1 ≤ 10 ^ 330) by (vm_compute; discriminate). split_and!; nia.
  - pose proof (Z.pow_pos_nonneg 2 (- e) ltac:(lia) ltac:(lia)).
    pose proof (Z.pow_le_mono_r 2 (- e) 1074 ltac:(lia) ltac:(lia)).
    assert (2 ^ 1074 < 10 ^ 330) by (vm_compute; reflexivity).
    assert (2 ^ 53 < 10 ^ 330) by (vm_compute; reflexivity). split_and!; nia.
Qed.

Lemma show_double_val x : finite_double x → json_val (JNum (show_double x)) (show_double x).
Proof. intros [H1 H2]%show_double_number. by constructor. Qed.
