(* ===== verification/MemoryReport.v ===== *)
(** * Reports of the memory access analysis

    [rw2str], [show_line], [getCodeContext], the two text reports and
    [report_json] of src/src/memory_analysis_handler.cc.  Source files, the
    environment, the GPU query and the wall clock are inputs ([host]). *)
From S2P Require Import Prelude StdString Message BankConflicts CacheLines MemoryAnalysis Json.

(** ** Inputs *)
Record host := Host {
  file_contents : bytes → option bytes;      (* std::ifstream *)
  env : bytes → option bytes;                (* std::getenv *)
  hipGetDeviceProperties : option bytes;     (* gcnArchName, when the call succeeds *)
  line_size_of_arch : bytes → Z;             (* gpu_arch_constants, by architecture name *)
  now_text : bytes;                          (* put_time of the local time *)
}.

(** ** Source lines *)
Record line_cache := LineCache { cached_fname : bytes; cached_lines : list bytes }.
Definition empty_cache : line_cache := LineCache [] [].

(** The cached file, reloaded when another file is asked for; then the line. *)
Definition cached_line (h : host) (cache : line_cache) (fname : bytes) (line : Z)
    : option bytes * line_cache :=
  if decide (fname = cached_fname cache) then
    (if (line =? 0) || (Z.of_nat (length (cached_lines cache)) <? line) then None
     else cached_lines cache !! Z.to_nat (line - 1), cache)
  else
    match file_contents h fname with
    | None => (None, LineCache fname [])
    | Some content =>
        let cache' := LineCache fname (getlines newline content) in
        (if (line =? 0) || (Z.of_nat (length (cached_lines cache')) <? line) then None
         else cached_lines cache' !! Z.to_nat (line - 1), cache')
    end.

(** [while ((pos = s.find('\t', pos)) != npos) { s.replace(pos, 1, 8 spaces); pos += 8; }] *)
Definition eight_spaces : bytes := lit "        ".
Arguments eight_spaces : simpl never.
Fixpoint replace_tabs (fuel : nat) (pos : nat) (s : bytes) : res bytes :=
  match find_char_from tab pos s with
  | None => Ok s
  | Some p =>
      match fuel with
      | O => Err FDiverge
      | S fuel' => replace_tabs fuel' (p + 8) (take p s ++ eight_spaces ++ drop (S p) s)
      end
  end.

Definition processed (line : bytes) : res bytes := replace_tabs (length line) 0 line.

Definition show_line (h : host) (cache : line_cache) (fname : bytes) (line column : Z)
    : res (bytes * line_cache) :=
  match cached_line h cache fname line with
  | (None, cache') => Ok ([], cache')
  | (Some l, cache') =>
      let! processed_line := processed l in
      Ok (c_str processed_line ++ [newline] ++
          (if 0 <? column
           then replicate (Z.to_nat (column - 1)) " "%char ++ lit "^" ++ [newline] else []), cache')
  end.

Definition getCodeContext (h : host) (cache : line_cache) (fname : bytes) (line : Z)
    : res (bytes * line_cache) :=
  match cached_line h cache fname line with
  | (None, cache') => Ok ([], cache')
  | (Some l, cache') =>
      let! processed_line := processed l in Ok (trim_set (lit " ") processed_line, cache')
  end.

(** ** Lemmas: tabs *)
Lemma find_char_from_app c (a s : bytes) :
  find_char_from c (length a) (a ++ s) = (λ i, (length a + i)%nat) <$> find_char c s.
Proof. unfold find_char_from. by rewrite drop_app_length. Qed.

Lemma expand_tabs_none s : none_of (aeqb tab) s → expand_tabs s = s.
Proof.
  induction 1 as [|c s Hc Hs IH]; [done|]. unfold expand_tabs in *. rewrite bind_cons, IH.
  assert (aeqb c tab = false) as -> by (apply aeqb_neq; intros ->; by apply aeqb_neq in Hc). done.
Qed.

Lemma expand_tabs_app s t : expand_tabs (s ++ t) = expand_tabs s ++ expand_tabs t.
Proof. apply bind_app. Qed.

Lemma replace_tabs_expand fuel a s :
  (length s ≤ fuel)%nat → replace_tabs fuel (length a) (a ++ s) = Ok (a ++ expand_tabs s).
Proof.
  revert a s. induction fuel as [|fuel IH]; intros a s Hf; cbn [replace_tabs];
    rewrite find_char_from_app; unfold find_char.
  { destruct s; [|cbn in Hf; lia]. done. }
  destruct (find_if (aeqb tab) s) as [i|] eqn:Hi; cbn.
  2:{ apply find_if_None in Hi. by rewrite expand_tabs_none. }
  apply find_if_split in Hi as (s1 & c & s2 & -> & <- & Hc%aeqb_eq & Hs1). subst c.
  rewrite take_app_add, take_app_length.
  replace (S (length a + length s1)) with (length a + S (length s1))%nat by lia.
  rewrite drop_app_add, drop_middle.
  pose proof (IH (a ++ s1 ++ eight_spaces) s2) as IH'.
  rewrite !length_app in IH'. change (length eight_spaces) with 8%nat in IH'.
  repeat rewrite <-app_assoc in IH'. repeat rewrite <-app_assoc.
  rewrite Nat.add_assoc in IH'. rewrite IH'.
  - rewrite expand_tabs_app, (expand_tabs_none s1) by done. done.
  - rewrite length_app in Hf. cbn in Hf. lia.
Qed.

Lemma processed_expand l : processed l = Ok (expand_tabs l).
Proof. apply (replace_tabs_expand (length l) [] l). lia. Qed.

(** The cache never changes what is read, as long as files do not change. *)
Definition cache_ok (h : host) (cache : line_cache) : Prop :=
  cached_lines cache =
    match file_contents h (cached_fname cache) with
    | Some content => getlines newline content
    | None => []
    end.

(** Line [line] (from 1) of a file, if there is one. *)
Definition source_line (h : host) (fname : bytes) (line : Z) : option bytes :=
  content ← file_contents h fname;
  if line =? 0 then None else getlines newline content !! Z.to_nat (line - 1).

Lemma cached_line_correct h cache fname line :
  cache_ok h cache → 0 ≤ line →
  (cached_line h cache fname line).1 = source_line h fname line ∧
  cache_ok h (cached_line h cache fname line).2 .
Proof.
  intros Hc Hl.
  assert (∀ ls : list bytes, (if (line =? 0) || (Z.of_nat (length ls) <? line) then None
    else ls !! Z.to_nat (line - 1)) = if line =? 0 then None else ls !! Z.to_nat (line - 1)) as Hb.
  { intros ls. destruct (Z.eqb_spec line 0); [done|]. cbn. destruct (Z.ltb_spec (Z.of_nat (length ls)) line);
      [|done]. symmetry. apply lookup_ge_None. lia. }
  unfold cached_line, source_line. case_decide as Hf; cbn.
  - subst fname. rewrite Hb. split; [|done]. unfold cache_ok in Hc. rewrite Hc.
    destruct (file_contents h (cached_fname cache)); cbn; [done|]. by destruct (line =? 0).
  - destruct (file_contents h fname) as [content|] eqn:Hfc; cbn.
    + rewrite Hb. split; [done|]. unfold cache_ok. cbn. by rewrite Hfc.
    + split; [done|]. unfold cache_ok. cbn. by rewrite Hfc.
Qed.

(** ** Report text *)
Section reports.
Context `{DC : DhComms}.

Definition rw2str (rw : Z) : bytes :=
  if rw =? ma_undefined then lit "unspecified memory operation"
  else if rw =? ma_read then lit "read"
  else if rw =? ma_write then lit "write"
  else if rw =? ma_read_write then lit "read/write"
  else lit "[coding error: invalid encoding of memory operation type]".

(** The three nested range-for loops visit the accesses in this order. *)
Definition in_order {T} (m : file_line_col_access_t T) : list (bytes * Z * Z * T) :=
  map_items m ≫= λ '(fname, line_col),
    map_items line_col ≫= λ '(line, col_accesses),
      map_items col_accesses ≫= λ '(col, accesses), (λ a, (fname, line, col, a)) <$> accesses.

Definition location_text (fname : bytes) (line col : Z) : bytes :=
  c_str fname ++ lit ":" ++ to_dec line ++ lit ":" ++ to_dec col ++ [newline].

Definition report_bank_conflict_entry (h : host) (verbose : bool)
    (st : bytes * bool * line_cache) (e : bytes * Z * Z * lds_accesses_t)
    : res (bytes * bool * line_cache) :=
  let '(out, found, cache) := st in
  let '(fname, line, col, access) := e in
  if negb verbose && (no_bank_conflicts access =? 0) then Ok st else
  let! ' (shown, cache') := show_line h cache fname line col in
  Ok (out ++ location_text fname line col ++ shown ++
      [tab] ++ rw2str (rw_kind (lds_base access)) ++ lit " of " ++
        to_dec (ir_access_size (lds_base access)) ++ lit " bytes at IR level" ++ [newline] ++
      [tab] ++ lit "executed " ++ to_dec (no_accesses (lds_base access)) ++ lit " times, " ++
        to_dec (no_bank_conflicts access) ++ lit " bank conflicts in total" ++ [newline],
      true, cache').

Definition report_bank_conflicts (h : host) (verbose : bool) (st : mem_state) (cache : line_cache)
    : res (bytes * line_cache) :=
  let! ' (out, found, cache') :=
    res_fold (report_bank_conflict_entry h verbose)
      ([newline] ++ lit "=== Bank conflicts report =========================" ++ [newline],
       false, cache)
      (in_order (lds_accesses st)) in
  Ok (out ++ (if found : bool then [] else lit "No bank conflicts found" ++ [newline]) ++
      lit "=== End of bank conflicts report ====================" ++ [newline], cache').

Definition report_cache_line_entry (h : host) (verbose : bool)
    (st : bytes * bool * line_cache) (e : bytes * Z * Z * global_accesses_t)
    : res (bytes * bool * line_cache) :=
  let '(out, found, cache) := st in
  let '(fname, line, col, access) := e in
  if negb verbose && (no_cache_lines_used access =? min_cache_lines access) then Ok st else
  let! ' (shown, cache') := show_line h cache fname line col in
  Ok (out ++ location_text fname line col ++ shown ++
      [tab] ++ rw2str (rw_kind (global_base access)) ++ lit " of " ++
        to_dec (ir_access_size (global_base access)) ++ lit " bytes at IR level (" ++
        to_dec (isa_access_size (global_base access)) ++ lit " bytes at ISA level: " ++
        quote (c_str (isa_instruction (global_base access))) ++ lit ")" ++ [newline] ++
      [tab] ++ lit "executed " ++ to_dec (no_accesses (global_base access)) ++ lit " times, " ++
        to_dec (min_cache_lines access) ++ lit " cache lines needed, " ++
        to_dec (no_cache_lines_used access) ++ lit " cache lines used" ++ [newline],
      true, cache').

Definition report_cache_line_use (h : host) (verbose : bool) (st : mem_state) (cache : line_cache)
    : res (bytes * line_cache) :=
  let! ' (out, found, cache') :=
    res_fold (report_cache_line_entry h verbose)
      ([newline] ++ lit "=== L2 cache line use report ======================" ++ [newline],
       false, cache)
      (in_order (global_accesses st)) in
  Ok (out ++ (if found : bool then []
              else lit "No excess cache lines used for global memory accesses" ++ [newline]) ++
      lit "=== End of L2 cache line use report ===============" ++ [newline], cache').

(** ** The JSON report *)
Definition nl : bytes := lit "," ++ [newline].

Definition source_location_json (fname : bytes) (line col : Z) : bytes :=
  lit "        {" ++ [newline] ++
  lit "          " ++ quote (lit "source_location") ++ lit ": {" ++ [newline] ++
  lit "            " ++ quote (lit "file") ++ lit ": " ++ quote fname ++ nl ++
  lit "            " ++ quote (lit "line") ++ lit ": " ++ to_dec line ++ nl ++
  lit "            " ++ quote (lit "column") ++ lit ": " ++ to_dec col ++ [newline] ++
  lit "          }" ++ nl.

Definition cache_access_json (fname : bytes) (line col : Z) (context : bytes)
    (access : global_accesses_t) : bytes :=
  source_location_json fname line col ++
  lit "          " ++ quote (lit "code_context") ++ lit ": " ++ quote context ++ nl ++
  lit "          " ++ quote (lit "access_info") ++ lit ": {" ++ [newline] ++
  lit "            " ++ quote (lit "type") ++ lit ": " ++
    quote (rw2str (rw_kind (global_base access))) ++ nl ++
  lit "            " ++ quote (lit "execution_count") ++ lit ": " ++
    to_dec (no_accesses (global_base access)) ++ nl ++
  lit "            " ++ quote (lit "ir_bytes") ++ lit ": " ++
    to_dec (ir_access_size (global_base access)) ++ nl ++
  lit "            " ++ quote (lit "isa_bytes") ++ lit ": " ++
    to_dec (isa_access_size (global_base access)) ++ nl ++
  lit "            " ++ quote (lit "isa_instruction") ++ lit ": " ++
    quote (isa_instruction (global_base access)) ++ nl ++
  lit "            " ++ quote (lit "cache_lines") ++ lit ": {" ++ [newline] ++
  lit "              " ++ quote (lit "needed") ++ lit ": " ++ to_dec (min_cache_lines access) ++ nl ++
  lit "              " ++ quote (lit "used") ++ lit ": " ++
    to_dec (no_cache_lines_used access) ++ [newline] ++
  lit "            }" ++ [newline] ++
  lit "          }" ++ [newline] ++
  lit "        }".

Definition bank_access_json (fname : bytes) (line col : Z) (context : bytes)
    (access : lds_accesses_t) : bytes :=
  source_location_json fname line col ++
  lit "          " ++ quote (lit "code_context") ++ lit ": " ++ quote context ++ nl ++
  lit "          " ++ quote (lit "access_info") ++ lit ": {" ++ [newline] ++
  lit "            " ++ quote (lit "type") ++ lit ": " ++
    quote (rw2str (rw_kind (lds_base access))) ++ nl ++
  lit "            " ++ quote (lit "execution_count") ++ lit ": " ++
    to_dec (no_accesses (lds_base access)) ++ nl ++
  lit "            " ++ quote (lit "ir_bytes") ++ lit ": " ++
    to_dec (ir_access_size (lds_base access)) ++ nl ++
  lit "            " ++ quote (lit "total_conflicts") ++ lit ": " ++
    to_dec (no_bank_conflicts access) ++ [newline] ++
  lit "          }" ++ [newline] ++
  lit "        }".

(** The loop body: a separator before every entry but the first. *)
Definition report_entry {T} (h : host) (text : bytes → Z → Z → bytes → T → bytes)
    (st : bytes * bool * line_cache) (e : bytes * Z * Z * T) : res (bytes * bool * line_cache) :=
  let '(out, first, cache) := st in
  let '(fname, line, col, access) := e in
  let! ' (context, cache') := getCodeContext h cache fname line in
  Ok (out ++ (if first : bool then [] else nl) ++ text fname line col context access, false, cache').

Definition version_of (h : host) : bytes :=
  match file_contents h (lit "VERSION") with
  | None => lit "null"
  | Some content =>
      let version_from_file := default [] (list.head (getlines newline content)) in
      if decide (version_from_file = []) then lit "null" else
      match find_if (λ c, negb (in_set (lit " " ++ [tab; newline; ch 13]) c)) version_from_file with
      | None => lit "null"
      | Some _ => trim_set (lit " " ++ [tab; newline; ch 13]) version_from_file
      end
  end.

(** Architecture and cache line size: defaults when a kernel filter is set. *)
Definition gpu_info (h : host) : bytes * Z :=
  let hasKernelFilter :=
    match env h (lit "LOGDUR_FILTER") with
    | Some kernelFilter => negb (bool_decide (c_str kernelFilter = []))
    | None => false
    end in
  if hasKernelFilter then (lit "unknown", 128) else
  match hipGetDeviceProperties h with
  | None => (lit "unknown", 128)
  | Some gcnArchName =>
      let arch :=
        match find_char ":" gcnArchName with
        | Some colon_pos => take colon_pos gcnArchName
        | None => gcnArchName
        end in
      let size := line_size_of_arch h arch in
      (arch, if size =? 0 then 128 else size)
  end.

Definition json_opening (is_console : bool) (dispatch_id : Z) (has_data : bool) : bytes :=
  if negb is_console && ((dispatch_id =? 1) || ((dispatch_id =? 0) && has_data))
  then lit "[" ++ [newline]
  else if negb (dispatch_id =? 1) && (0 <? dispatch_id) then nl else [].

Definition has_data (st : mem_state) : bool :=
  negb (bool_decide (global_accesses st = ∅)) || negb (bool_decide (lds_accesses st = ∅)).

Definition report_json_object (kernel : bytes) (dispatch_id : Z) (caches conflicts version : bytes)
    (timestamp arch : bytes) (cache_line_size : Z) : bytes :=
  lit "{" ++ [newline] ++
  lit "  " ++ quote (lit "kernel_analysis") ++ lit ": {" ++ [newline] ++
  lit "    " ++ quote (lit "kernel_info") ++ lit ": {" ++ [newline] ++
  lit "      " ++ quote (lit "name") ++ lit ": " ++ quote kernel ++ nl ++
  lit "      " ++ quote (lit "dispatch_id") ++ lit ": " ++ to_dec dispatch_id ++ [newline] ++
  lit "    }" ++ nl ++
  lit "    " ++ quote (lit "cache_analysis") ++ lit ": {" ++ [newline] ++
  lit "      " ++ quote (lit "accesses") ++ lit ": [" ++ [newline] ++
  caches ++
  [newline] ++ lit "      ]" ++ [newline] ++
  lit "    }" ++ nl ++
  lit "    " ++ quote (lit "bank_conflicts") ++ lit ": {" ++ [newline] ++
  lit "      " ++ quote (lit "accesses") ++ lit ": [" ++ [newline] ++
  conflicts ++
  [newline] ++ lit "      ]" ++ [newline] ++
  lit "    }" ++ [newline] ++
  lit "  }" ++ nl ++
  lit "  " ++ quote (lit "metadata") ++ lit ": {" ++ [newline] ++
  lit "    " ++ quote (lit "version") ++ lit ": " ++ quote version ++ nl ++
  lit "    " ++ quote (lit "timestamp") ++ lit ": " ++ quote timestamp ++ nl ++
  lit "    " ++ quote (lit "gpu_info") ++ lit ": {" ++ [newline] ++
  lit "      " ++ quote (lit "architecture") ++ lit ": " ++ quote arch ++ nl ++
  lit "      " ++ quote (lit "cache_line_size") ++ lit ": " ++ to_dec cache_line_size ++ [newline] ++
  lit "    }" ++ [newline] ++
  lit "  }" ++ [newline] ++
  lit "}".

Definition report_json (h : host) (kernel : bytes) (dispatch_id : Z) (is_console : bool)
    (st : mem_state) (cache : line_cache) : res (bytes * line_cache) :=
  let! ' (caches, _, cache1) :=
    res_fold (report_entry h cache_access_json) ([], true, cache) (in_order (global_accesses st)) in
  let! ' (conflicts, _, cache2) :=
    res_fold (report_entry h bank_access_json) ([], true, cache1) (in_order (lds_accesses st)) in
  let '(arch, cache_line_size) := gpu_info h in
  Ok (json_opening is_console dispatch_id (has_data st) ++
      report_json_object kernel dispatch_id caches conflicts (version_of h) (now_text h) arch
        cache_line_size ++
      (if is_console then [newline] else []), cache2).

(** What goes to standard output and to the log file; the two reports keep
    separate line caches. *)
Definition report (h : host) (verbose : bool) (kernel : bytes) (dispatch_id : Z)
    (is_console : bool) (st : mem_state) (shown contexts : line_cache)
    : res (bytes * bytes * line_cache * line_cache) :=
  if bool_decide (env h (lit "LOGDUR_LOG_FORMAT") = Some (lit "json")) then
    let! ' (out, contexts') := report_json h kernel dispatch_id is_console st contexts in
    Ok ([], out, shown, contexts')
  else
    let! ' (out1, shown1) := report_cache_line_use h verbose st shown in
    let! ' (out2, shown2) := report_bank_conflicts h verbose st shown1 in
    Ok (out1 ++ out2, [], shown2, contexts).
End reports.

(** ** Meaning of the JSON report *)
Section meaning.
Context `{DC : DhComms}.
Variable h : host.

(** The trimmed, tab-expanded source line. *)
Definition context_of (fname : bytes) (line : Z) : bytes :=
  match source_line h fname line with
  | Some l => trim_set (lit " ") (expand_tabs l)
  | None => []
  end.

Definition num (n : Z) : json := JNum (to_dec n).

Definition location_value (fname : bytes) (line col : Z) : json :=
  JObj [(lit "file", JStr fname); (lit "line", num line); (lit "column", num col)].

Definition cache_access_value (fname : bytes) (line col : Z) (context : bytes)
    (a : global_accesses_t) : json :=
  JObj [(lit "source_location", location_value fname line col);
        (lit "code_context", JStr context);
        (lit "access_info", JObj
          [(lit "type", JStr (rw2str (rw_kind (global_base a))));
           (lit "execution_count", num (no_accesses (global_base a)));
           (lit "ir_bytes", num (ir_access_size (global_base a)));
           (lit "isa_bytes", num (isa_access_size (global_base a)));
           (lit "isa_instruction", JStr (isa_instruction (global_base a)));
           (lit "cache_lines", JObj [(lit "needed", num (min_cache_lines a));
                                     (lit "used", num (no_cache_lines_used a))])])].

Definition bank_access_value (fname : bytes) (line col : Z) (context : bytes)
    (a : lds_accesses_t) : json :=
  JObj [(lit "source_location", location_value fname line col);
        (lit "code_context", JStr context);
        (lit "access_info", JObj
          [(lit "type", JStr (rw2str (rw_kind (lds_base a))));
           (lit "execution_count", num (no_accesses (lds_base a)));
           (lit "ir_bytes", num (ir_access_size (lds_base a)));
           (lit "total_conflicts", num (no_bank_conflicts a))])].

Definition base_ok (a : memory_accesses_t) : Prop :=
  0 ≤ no_accesses a ∧ 0 ≤ ir_access_size a ∧ 0 ≤ isa_access_size a ∧ plain (isa_instruction a).
Definition location_ok (fname : bytes) (line col : Z) : Prop :=
  plain fname ∧ 0 ≤ line ∧ 0 ≤ col ∧ plain (context_of fname line).

Lemma rw2str_plain rw : plain (rw2str rw).
Proof. unfold rw2str. repeat case_match; by apply plain_lit. Qed.

Ltac same_text :=
  unfold wobj, wnum, wstr, wsub, source_location_json, nl; cbn;
  repeat (rewrite <-app_assoc; cbn); reflexivity.

Definition ws (n : nat) : bytes := newline :: replicate n " "%char.

Definition location_fields (fname : bytes) (line col : Z) : list wfield :=
  [wstr (ws 12) (lit "file") fname []; wnum (ws 12) (lit "line") line [];
   wnum (ws 12) (lit "column") col (ws 10)].

Definition cache_access_fields (fname : bytes) (line col : Z) (context : bytes)
    (a : global_accesses_t) : list wfield :=
  [wsub (ws 10) (lit "source_location") (location_fields fname line col) [];
   wstr (ws 10) (lit "code_context") context [];
   wsub (ws 10) (lit "access_info")
     [wstr (ws 12) (lit "type") (rw2str (rw_kind (global_base a))) [];
      wnum (ws 12) (lit "execution_count") (no_accesses (global_base a)) [];
      wnum (ws 12) (lit "ir_bytes") (ir_access_size (global_base a)) [];
      wnum (ws 12) (lit "isa_bytes") (isa_access_size (global_base a)) [];
      wstr (ws 12) (lit "isa_instruction") (isa_instruction (global_base a)) [];
      wsub (ws 12) (lit "cache_lines")
        [wnum (ws 14) (lit "needed") (min_cache_lines a) [];
         wnum (ws 14) (lit "used") (no_cache_lines_used a) (ws 12)] (ws 10)] (ws 8)].

Lemma cache_access_val fname line col context a :
  plain fname → 0 ≤ line → 0 ≤ col → plain context → base_ok (global_base a) →
  0 ≤ min_cache_lines a → 0 ≤ no_cache_lines_used a →
  ∃ t, json_val (cache_access_value fname line col context a) t ∧
    cache_access_json fname line col context a = lit "        " ++ t.
Proof.
  intros Hf Hl Hc Hx (H1 & H2 & H3 & H4) H5 H6.
  exists (wobj (cache_access_fields fname line col context a)). split.
  - apply wobj_denotes; [reflexivity|done|]. solve_wfields. apply rw2str_plain.
  - unfold cache_access_json. same_text.
Qed.

Definition bank_access_fields (fname : bytes) (line col : Z) (context : bytes)
    (a : lds_accesses_t) : list wfield :=
  [wsub (ws 10) (lit "source_location") (location_fields fname line col) [];
   wstr (ws 10) (lit "code_context") context [];
   wsub (ws 10) (lit "access_info")
     [wstr (ws 12) (lit "type") (rw2str (rw_kind (lds_base a))) [];
      wnum (ws 12) (lit "execution_count") (no_accesses (lds_base a)) [];
      wnum (ws 12) (lit "ir_bytes") (ir_access_size (lds_base a)) [];
      wnum (ws 12) (lit "total_conflicts") (no_bank_conflicts a) (ws 10)] (ws 8)].

Lemma bank_access_val fname line col context a :
  plain fname → 0 ≤ line → 0 ≤ col → plain context → base_ok (lds_base a) →
  0 ≤ no_bank_conflicts a →
  ∃ t, json_val (bank_access_value fname line col context a) t ∧
    bank_access_json fname line col context a = lit "        " ++ t.
Proof.
  intros Hf Hl Hc Hx (H1 & H2 & H3 & H4) H5.
  exists (wobj (bank_access_fields fname line col context a)). split.
  - apply wobj_denotes; [reflexivity|done|]. solve_wfields. apply rw2str_plain.
  - unfold bank_access_json. same_text.
Qed.

Lemma getCodeContext_spec cache fname line :
  cache_ok h cache → 0 ≤ line →
  ∃ cache', getCodeContext h cache fname line = Ok (context_of fname line, cache') ∧
    cache_ok h cache'.
Proof.
  intros Hc Hl. destruct (cached_line_correct h cache fname line Hc Hl) as [H1 H2].
  unfold getCodeContext, context_of. rewrite <-H1.
  destruct (cached_line h cache fname line) as [[l|] cache']; cbn in *.
  - rewrite processed_expand. cbn. by exists cache'.
  - by exists cache'.
Qed.

(** An entry whose text denotes [value]. *)
Definition entry_denotes {T} (text : bytes → Z → Z → bytes → T → bytes)
    (value : bytes → Z → Z → bytes → T → json) (e : bytes * Z * Z * T) : Prop :=
  let '(fname, line, col, a) := e in
  0 ≤ line ∧ ∃ t, json_val (value fname line col (context_of fname line) a) t ∧
    text fname line col (context_of fname line) a = lit "        " ++ t.

Definition entry_value {T} (value : bytes → Z → Z → bytes → T → json) (e : bytes * Z * Z * T)
    : json :=
  let '(fname, line, col, a) := e in value fname line col (context_of fname line) a.

Lemma report_entries_spec {T} text (value : bytes → Z → Z → bytes → T → json) es cache out first :
  cache_ok h cache → Forall (entry_denotes text value) es →
  ∃ ts first' cache',
    res_fold (report_entry h text) (out, first, cache) es =
      Ok (out ++ (if first : bool then [] else if bool_decide (es = []) then [] else nl) ++
          joined nl ts, first', cache') ∧
    cache_ok h cache' ∧
    Forall2 (λ v t, ∃ w0 t0, all_ws w0 ∧ t = w0 ++ t0 ∧ json_val v t0) (entry_value value <$> es) ts.
Proof.
  intros Hc Hes. revert out first cache Hc.
  induction Hes as [|[[[fname line] col] a] es (Hl & t & Hv & Ht) Hes IH]; intros out first cache Hc.
  { exists [], first, cache. split; [|split; [done|constructor]]. rewrite bool_decide_eq_true_2 by done.
    destruct first; cbn; by rewrite app_nil_r. }
  cbn [res_fold]. unfold report_entry at 1.
  destruct (getCodeContext_spec cache fname line Hc Hl) as (cache1 & -> & Hc1). cbn [res_bind].
  destruct (IH (out ++ (if first then [] else nl) ++ text fname line col (context_of fname line) a)
    false cache1 Hc1) as (ts & first' & cache' & -> & Hc' & Hts).
  exists (text fname line col (context_of fname line) a :: ts), first', cache'.
  split; [|split; [done|]].
  - f_equal. f_equal. f_equal. rewrite (bool_decide_eq_false_2 (_ :: _ = [])) by done.
    destruct es as [|e es].
    + inversion Hts; subst. cbn [joined]. rewrite bool_decide_eq_true_2 by done. cbn [app].
      by rewrite !app_nil_r.
    + rewrite bool_decide_eq_false_2 by done. destruct ts as [|t' ts]; [by inversion Hts|].
      cbn [joined]. by rewrite <-!app_assoc.
  - rewrite fmap_cons. constructor; [|done]. exists (lit "        "), t. split; [by repeat constructor|done].
Qed.

Definition report_value (kernel : bytes) (dispatch_id : Z) (st : mem_state) : json :=
  JObj [(lit "kernel_analysis", JObj
    [(lit "kernel_info", JObj [(lit "name", JStr kernel); (lit "dispatch_id", num dispatch_id)]);
     (lit "cache_analysis", JObj [(lit "accesses",
        JArr (entry_value cache_access_value <$> in_order (global_accesses st)))]);
     (lit "bank_conflicts", JObj [(lit "accesses",
        JArr (entry_value bank_access_value <$> in_order (lds_accesses st)))])]);
   (lit "metadata", JObj
    [(lit "version", JStr (version_of h)); (lit "timestamp", JStr (now_text h));
     (lit "gpu_info", JObj [(lit "architecture", JStr (gpu_info h).1);
                            (lit "cache_line_size", num (gpu_info h).2)])])].

Definition array_field (w k : bytes) (vs : list json) (ts : list bytes) (after : bytes) : wfield :=
  WField w k (JArr vs) (lit "[" ++ ([newline] ++ joined nl ts ++ ws 6) ++ lit "]") after.

Lemma array_field_ok w k vs ts after :
  all_ws w → plain k → all_ws after →
  Forall2 (λ v t, ∃ w0 t0, all_ws w0 ∧ t = w0 ++ t0 ∧ json_val v t0) vs ts →
  wfield_ok (array_field w k vs ts after).
Proof.
  intros Hw Hk Ha Hts. split; [done|split; [done|split; [|done]]].
  unfold array_field. cbn [wf_value wf_text]. apply (joined_array [newline]); [by repeat constructor..|done].
Qed.

Lemma report_object_val kernel dispatch_id st tg tl :
  plain kernel → 0 ≤ dispatch_id → plain (version_of h) → plain (now_text h) →
  plain (gpu_info h).1 → 0 ≤ (gpu_info h).2 →
  Forall2 (λ v t, ∃ w0 t0, all_ws w0 ∧ t = w0 ++ t0 ∧ json_val v t0)
    (entry_value cache_access_value <$> in_order (global_accesses st)) tg →
  Forall2 (λ v t, ∃ w0 t0, all_ws w0 ∧ t = w0 ++ t0 ∧ json_val v t0)
    (entry_value bank_access_value <$> in_order (lds_accesses st)) tl →
  json_val (report_value kernel dispatch_id st)
    (report_json_object kernel dispatch_id (joined nl tg) (joined nl tl) (version_of h) (now_text h)
       (gpu_info h).1 (gpu_info h).2).
Proof.
  intros Hk Hd Hv Hn Ha Hs Htg Htl.
  set (fs :=
    [wsub (ws 2) (lit "kernel_analysis")
       [wsub (ws 4) (lit "kernel_info")
          [wstr (ws 6) (lit "name") kernel []; wnum (ws 6) (lit "dispatch_id") dispatch_id (ws 4)] [];
        wsub (ws 4) (lit "cache_analysis")
          [array_field (ws 6) (lit "accesses")
             (entry_value cache_access_value <$> in_order (global_accesses st)) tg (ws 4)] [];
        wsub (ws 4) (lit "bank_conflicts")
          [array_field (ws 6) (lit "accesses")
             (entry_value bank_access_value <$> in_order (lds_accesses st)) tl (ws 4)] (ws 2)] [];
     wsub (ws 2) (lit "metadata")
       [wstr (ws 4) (lit "version") (version_of h) [];
        wstr (ws 4) (lit "timestamp") (now_text h) [];
        wsub (ws 4) (lit "gpu_info")
          [wstr (ws 6) (lit "architecture") (gpu_info h).1 [];
           wnum (ws 6) (lit "cache_line_size") (gpu_info h).2 (ws 4)] (ws 2)] (ws 0)]).
  assert (report_json_object kernel dispatch_id (joined nl tg) (joined nl tl) (version_of h)
    (now_text h) (gpu_info h).1 (gpu_info h).2 = wobj fs) as ->.
  { unfold report_json_object, fs, array_field. generalize (joined nl tg) (joined nl tl). intros jg jl.
    same_text. }
  apply wobj_denotes; [reflexivity|done|]. unfold fs. solve_wfields;
    by (apply array_field_ok; [by repeat constructor|by apply plain_lit|by repeat constructor|]).
Qed.
End meaning.

(** ** Properties *)
Section properties.
Context `{DC : DhComms}.
Variable h : host.

(** No text of the report needs escaping, and no counter is negative. *)
Record report_ok (kernel : bytes) (dispatch_id : Z) (st : mem_state) : Prop := {
  ro_kernel : plain kernel;
  ro_dispatch : 0 ≤ dispatch_id;
  ro_version : plain (version_of h);
  ro_now : plain (now_text h);
  ro_arch : plain (gpu_info h).1;
  ro_size : 0 ≤ (gpu_info h).2;
  ro_global : Forall (λ '(f, l, c, a), location_ok h f l c ∧ base_ok (global_base a) ∧
    0 ≤ min_cache_lines a ∧ 0 ≤ no_cache_lines_used a) (in_order (global_accesses st));
  ro_lds : Forall (λ '(f, l, c, a), location_ok h f l c ∧ base_ok (lds_base a) ∧
    0 ≤ no_bank_conflicts a) (in_order (lds_accesses st));
}.

(** C29. The JSON report denotes the statistics: when no string in it contains a
    quote, a backslash or a control character, the report is an opening (the
    bracket or comma that makes the file a list of dispatches) followed by one
    JSON object, which a JSON reader turns into kernel name, dispatch, one entry
    per accumulated global access and one per LDS access, in order of file, line
    and column, each with its source line, kind, sizes and counters, and the
    metadata. *)
Theorem memory_json_report kernel dispatch_id is_console st cache :
  cache_ok h cache → report_ok kernel dispatch_id st →
  ∃ object cache', report_json h kernel dispatch_id is_console st cache =
    Ok (json_opening is_console dispatch_id (has_data st) ++ object ++
        (if is_console then [newline] else []), cache') ∧
  cache_ok h cache' ∧
  parse_json object = Some (report_value h kernel dispatch_id st).
Proof.
  intros Hc [Hk Hd Hv Hn Ha Hs Hg Hl].
  destruct (report_entries_spec h cache_access_json cache_access_value
    (in_order (global_accesses st)) cache [] true Hc) as (tg & f1 & c1 & Hg1 & Hc1 & Htg).
  { eapply list.Forall_impl; [exact Hg|]. intros [[[f l] c] a] (Hloc & ? & ? & ?).
    destruct Hloc as (? & ? & ? & ?). split; [done|]. by apply cache_access_val. }
  destruct (report_entries_spec h bank_access_json bank_access_value
    (in_order (lds_accesses st)) c1 [] true Hc1) as (tl & f2 & c2 & Hl2 & Hc2 & Htl).
  { eapply list.Forall_impl; [exact Hl|]. intros [[[f l] c] a] (Hloc & ? & ?).
    destruct Hloc as (? & ? & ? & ?). split; [done|]. by apply bank_access_val. }
  unfold report_json. rewrite Hg1. cbn [res_bind app]. rewrite Hl2. cbn [res_bind app].
  destruct (gpu_info h) as [arch size] eqn:Hgpu. eexists _, c2.
  split; [reflexivity|]. split; [done|].
  pose proof (report_object_val h kernel dispatch_id st tg tl Hk Hd Hv Hn) as Hval.
  rewrite Hgpu in Hval. cbn [fst snd] in *. apply parse_json_complete. by apply Hval.
Qed.

(** One call of [getCodeContext] per request, on the shared cache. *)
Definition code_context_request (st : list bytes * line_cache) (rq : bytes * Z)
    : res (list bytes * line_cache) :=
  let! ' (context, cache') := getCodeContext h st.2 rq.1 rq.2 in Ok (st.1 ++ [context], cache').

(** The cache of source lines and the tab-replacing loop are transparent:
    starting from the initial (empty) cache, any sequence of requests terminates
    and returns for each one the requested line of the requested file with every
    tab replaced by eight spaces and outer spaces removed, or the empty string
    when there is no such file or line. *)
Theorem code_contexts_transparent requests :
  file_contents h [] = None → Forall (λ rq : bytes * Z, 0 ≤ rq.2) requests →
  ∃ cache, res_fold code_context_request ([], empty_cache) requests =
    Ok ((λ rq : bytes * Z, context_of h rq.1 rq.2) <$> requests, cache).
Proof.
  intros Hempty Hrq.
  assert (∀ out cache, cache_ok h cache → ∃ cache',
    res_fold code_context_request (out, cache) requests =
    Ok (out ++ ((λ rq : bytes * Z, context_of h rq.1 rq.2) <$> requests), cache')) as H.
  { induction Hrq as [|[f l] rqs Hl Hrqs IH]; intros out cache Hc; cbn [res_fold].
    { exists cache. by rewrite app_nil_r. }
    unfold code_context_request at 1. cbn [fst snd] in *.
    destruct (getCodeContext_spec h cache f l Hc Hl) as (c1 & -> & Hc1). cbn [res_bind].
    destruct (IH (out ++ [context_of h f l]) c1 Hc1) as (c2 & Hc2).
    exists c2. rewrite Hc2. by rewrite <-app_assoc. }
  apply H. unfold cache_ok. cbn. by rewrite Hempty.
Qed.
End properties.

Section examples.
#[local] Existing Instance dh_comms_values.

Definition example_host : host := {|
  file_contents f := if decide (f = lit "a.cpp") then Some (lit "x" ++ [newline; tab] ++ lit "y = *p; ") else None;
  env _ := None;
  hipGetDeviceProperties := Some (lit "gfx90a:sramecc+");
  line_size_of_arch _ := 128;
  now_text := lit "2025-01-01 00:00:00";
|}.

Definition example_state : mem_state :=
  MemState conflict_table
    (update_accesses ∅ (lit "a.cpp") 2 5
       [GlobalAccesses (MemoryAccesses 3 4 16 1 (lit "global_load_dwordx4")) 6 7]) ∅ ∅.

Lemma memory_json_report_witness :
  ∃ object cache', report_json example_host (lit "k") 1 false example_state empty_cache =
      Ok ((lit "[" ++ [newline]) ++ object ++ [], cache') ∧
    parse_json object = Some (report_value example_host (lit "k") 1 example_state).
Proof.
  destruct (memory_json_report example_host (lit "k") 1 false example_state empty_cache)
    as (object & cache' & Hr & _ & Hp).
  - reflexivity.
  - split; try (apply (bool_decide_unpack _); vm_compute; exact I);
      try (vm_compute; discriminate).
  - exists object, cache'. split; [exact Hr|exact Hp].
Defined.

Lemma code_contexts_transparent_witness :
  ∃ cache, res_fold (code_context_request example_host) ([], empty_cache)
      [(lit "a.cpp", 2); (lit "b.cpp", 1); (lit "a.cpp", 9)] =
    Ok ([lit "y = *p;"; []; []], cache).
Proof.
  destruct (code_contexts_transparent example_host
    [(lit "a.cpp", 2); (lit "b.cpp", 1); (lit "a.cpp", 9)]) as (cache & Hc).
  - reflexivity.
  - repeat constructor; discriminate.
  - exists cache. exact Hc.
Defined.
End examples.
