(* ===== verification/MessageLogger.v ===== *)
(** * Message logger

    [message_logger_t] of src/src/message_logger.cc: writes every message to the
    log, as a CSV record and a JSON line.  The state is the text written. *)
From S2P Require Import Prelude StdString Message Json.

Section logger.
Context `{DC : DhComms}.

(** [strKernel_], [dispatch_id_] and [format_csv_]. *)
Record logger := Logger { lg_kernel : bytes; lg_dispatch : Z; lg_csv : bool }.

Definition csv_header : bytes :=
  lit "ADDRESS_MESSAGE,timestamp,kernel,src_line,dispatch,exec_mask,xcc_id,se_id,cu_id,kind,address"
  ++ [newline].

(** The constructor: reads [LOGDUR_LOG_FORMAT], writes the CSV header. *)
Definition new_logger (kernel : bytes) (dispatch_id : Z) (log_format : option bytes)
    : logger * bytes :=
  let csv := negb (bool_decide (log_format = Some (lit "json"))) in
  (Logger kernel dispatch_id csv, if csv then csv_header else []).

Definition handle_header (lg : logger) (hdr : wave_header_t) (json : bytes) : bytes :=
  let json := addField json (lit "kernel_name") (lg_kernel lg) true false in
  let json := addField json (lit "dispatch_id") (lg_dispatch lg) false false in
  let json := addField json (lit "exec") (exec hdr) false false in
  let json := addField json (lit "timestamp") (timestamp hdr) false false in
  let json := addField json (lit "dwarf_line") (dwarf_line hdr) false false in
  let json := addField json (lit "dwarf_column") (dwarf_column hdr) false false in
  let json := addField json (lit "block_idx_x") (block_idx_x hdr) false false in
  let json := addField json (lit "block_idx_y") (block_idx_y hdr) false false in
  let json := addField json (lit "block_idx_z") (block_idx_z hdr) false false in
  let json := addField json (lit "wave_num") (u16 (wave_num hdr)) false false in
  let json := addField json (lit "xcc_id") (u16 (xcc_id hdr)) false false in
  let json := addField json (lit "se_id") (u16 (se_id hdr)) false false in
  let json := addField json (lit "cu_id") (u16 (cu_id hdr)) false false in
  let json := addField json (lit "active_lane_count") (u16 (active_lane_count hdr)) false false in
  let json := addField json (lit "user_type") (u16 (user_type hdr)) false false in
  if user_type hdr =? mt_address then
    let rw := rw_kind_of (user_data hdr) in
    if rw =? ma_undefined then addField json (lit "op_type") (quote (lit "undefined")) false false
    else if rw =? ma_read then addField json (lit "op_type") (quote (lit "read")) false false
    else if rw =? ma_write then addField json (lit "op_type") (quote (lit "write")) false false
    else if rw =? ma_read_write then
      addField json (lit "op_type") (quote (lit "readwrite")) false false
    else json
  else addField json (lit "user_data") (u16 (user_data hdr)) false false.

(** [<< "0x" << std::hex << std::setw(16) << std::setfill('0') << n] *)
Definition hex16 (n : Z) : bytes := lit "0x" ++ pad_left 16 "0" (to_hex n).

(** The addresses, separated by commas and ended by a newline. *)
Fixpoint csv_addresses (addrs : list Z) : bytes :=
  match addrs with
  | [] => []
  | [a] => hex16 a ++ [newline]
  | a :: rest => hex16 a ++ lit "," ++ csv_addresses rest
  end.

Definition item_addresses (m : message_t) : res (list Z) :=
  res_fold (λ addrs item, let! a := item_address item in Ok (addrs ++ [a])) [] (data_items m).

(** Returns what goes to the log at once and the JSON under construction. *)
Definition handle_address_message (lg : logger) (m : message_t) (json : bytes)
    : res (bytes * bytes) :=
  let hdr := wave_header m in
  if negb (user_type hdr =? mt_address) then Ok ([], json) else
  let! _ := assertb (data_item_size m =? 8) in
  let! addrs := item_addresses m in
  if lg_csv lg then
    Ok (lit "ADDRESS_MESSAGE," ++ to_dec (timestamp hdr) ++ lit "," ++ quote (lg_kernel lg) ++
        lit "," ++ to_dec (dwarf_line hdr) ++ lit "," ++ to_dec (lg_dispatch lg) ++ lit "," ++
        hex16 (exec hdr) ++ lit "," ++ to_dec (xcc_id hdr) ++ lit "," ++ to_dec (se_id hdr) ++
        lit "," ++ to_dec (cu_id hdr) ++ lit "," ++ to_dec (rw_kind_of (user_data hdr)) ++
        lit "," ++ csv_addresses addrs, json)
  else if bool_decide (addrs = []) then Ok ([], json)
  else
    let! json' := addVector json (lit "addresses") addrs false false in Ok ([], json').

Definition logger_handle (lg : logger) (m : message_t) (log : bytes) : res (bool * bytes) :=
  let hdr := wave_header m in
  if user_type hdr =? mt_address then
    let json := handle_header lg hdr json_new in
    let! ' (now, json') := handle_address_message lg m json in
    Ok (true, log ++ now ++ getJSON json' ++ [newline])
  else if user_type hdr =? mt_time_interval then Ok (true, log)
  else Ok (true, log ++ getJSON (handle_header lg hdr json_new) ++ [newline]).

(** ** Meaning *)
Definition op_type_of (rw : Z) : bytes :=
  if rw =? ma_undefined then lit "undefined" else if rw =? ma_read then lit "read"
  else if rw =? ma_write then lit "write" else lit "readwrite".

Definition header_value (lg : logger) (hdr : wave_header_t) : list (bytes * json) :=
  let num n := JNum (to_dec n) in
  [(lit "kernel_name", JStr (lg_kernel lg)); (lit "dispatch_id", num (lg_dispatch lg));
   (lit "exec", num (exec hdr)); (lit "timestamp", num (timestamp hdr));
   (lit "dwarf_line", num (dwarf_line hdr)); (lit "dwarf_column", num (dwarf_column hdr));
   (lit "block_idx_x", num (block_idx_x hdr)); (lit "block_idx_y", num (block_idx_y hdr));
   (lit "block_idx_z", num (block_idx_z hdr)); (lit "wave_num", num (u16 (wave_num hdr)));
   (lit "xcc_id", num (u16 (xcc_id hdr))); (lit "se_id", num (u16 (se_id hdr)));
   (lit "cu_id", num (u16 (cu_id hdr)));
   (lit "active_lane_count", num (u16 (active_lane_count hdr)));
   (lit "user_type", num (u16 (user_type hdr)))] ++
  (if user_type hdr =? mt_address
   then [(lit "op_type", JStr (op_type_of (rw_kind_of (user_data hdr))))]
   else [(lit "user_data", num (u16 (user_data hdr)))]).

Record header_ok (lg : logger) (hdr : wave_header_t) : Prop := {
  ho_kernel : plain (lg_kernel lg);
  ho_dispatch : 0 ≤ lg_dispatch lg;
  ho_exec : 0 ≤ exec hdr;
  ho_time : 0 ≤ timestamp hdr;
  ho_line : 0 ≤ dwarf_line hdr;
  ho_column : 0 ≤ dwarf_column hdr;
  ho_x : 0 ≤ block_idx_x hdr;
  ho_y : 0 ≤ block_idx_y hdr;
  ho_z : 0 ≤ block_idx_z hdr;
}.

Lemma item_addresses_spec m addrs :
  Forall2 (λ item a, item_address item = Ok a) (data_items m) addrs →
  item_addresses m = Ok addrs.
Proof.
  unfold item_addresses. intros H.
  assert (∀ l0, res_fold (λ addrs item, let! a := item_address item in Ok (addrs ++ [a])) l0
    (data_items m) = Ok (l0 ++ addrs)) as Hgen; [|apply (Hgen [])].
  induction H as [|item a items addrs Hi H IH]; intros l0; cbn [res_fold]; [by rewrite app_nil_r|].
  rewrite Hi. cbn [res_bind]. rewrite IH. by rewrite <-app_assoc.
Qed.

Context {DL : DhCommsLaws}.

(** The four kinds of access exhaust the two bits. *)
Lemma rw_kind_cases u :
  rw_kind_of u = ma_undefined ∨ rw_kind_of u = ma_read ∨ rw_kind_of u = ma_write ∨
  rw_kind_of u = ma_read_write.
Proof.
  pose proof (rw_kind_of_bound u) as Hb. pose proof ma_distinct as Hd. pose proof ma_range as Hr.
  assert (seqZ 0 4 ⊆+ [ma_undefined; ma_read; ma_write; ma_read_write]) as Hsub.
  { assert ([ma_undefined; ma_read; ma_write; ma_read_write] ⊆+ seqZ 0 4) as Hs.
    { apply NoDup_submseteq; [done|]. intros k Hk. rewrite list.Forall_forall in Hr.
      apply elem_of_seqZ. by apply Hr in Hk. }
    apply submseteq_length_Permutation in Hs; [by rewrite Hs|done]. }
  assert (rw_kind_of u ∈ seqZ 0 4) as Hin by (apply elem_of_seqZ; lia).
  apply (elem_of_submseteq _ _ _ Hin) in Hsub.
  rewrite !elem_of_cons, elem_of_nil in Hsub. tauto.
Qed.

Lemma header_builds lg hdr :
  header_ok lg hdr → builds (header_value lg hdr) (handle_header lg hdr json_new).
Proof.
  intros [H1 H2 H3 H4 H5 H6 H7 H8 H9]. unfold header_value, handle_header.
  set (json15 := addField _ (lit "user_type") _ _ _).
  set (fields15 := [_; _; _; _; _; _; _; _; _; _; _; _; _; _; _]).
  assert (builds fields15 json15) as Hb.
  { unfold fields15, json15.
    repeat match goal with
    | |- builds (?f :: ?fs) _ =>
        let l := eval cbv [rev app] in (rev (f :: fs)) in
        match l with
        | (?k, ?v) :: ?r =>
            let fs' := eval cbv [rev app] in (rev r) in
            change (f :: fs) with (fs' ++ [(k, v)]);
            first [apply builds_number | apply builds_string];
              [|by apply plain_lit|first [done|by apply wrap_bound]]
        end
    end.
    apply builds_new. }
  destruct (user_type hdr =? mt_address).
  - unfold op_type_of. pose proof (rw_kind_cases (user_data hdr)) as Hc.
    assert (∀ s, plain (lit s) → builds (fields15 ++ [(lit "op_type", JStr (lit s))])
      (addField json15 (lit "op_type") (quote (lit s)) false false)) as Hop.
    { intros s Hs. apply builds_field; [done|by apply plain_lit|]. by constructor. }
    destruct (Z.eqb_spec (rw_kind_of (user_data hdr)) ma_undefined); [by apply Hop, plain_lit|].
    destruct (Z.eqb_spec (rw_kind_of (user_data hdr)) ma_read); [by apply Hop, plain_lit|].
    destruct (Z.eqb_spec (rw_kind_of (user_data hdr)) ma_write); [by apply Hop, plain_lit|].
    destruct (Z.eqb_spec (rw_kind_of (user_data hdr)) ma_read_write); [by apply Hop, plain_lit|].
    tauto.
  - apply builds_number; [done|by apply plain_lit|by apply wrap_bound].
Qed.

(** The CSV record of an address message. *)
Definition csv_record (lg : logger) (hdr : wave_header_t) (addrs : list Z) : bytes :=
  lit "ADDRESS_MESSAGE," ++ to_dec (timestamp hdr) ++ lit "," ++ quote (lg_kernel lg) ++ lit "," ++
  to_dec (dwarf_line hdr) ++ lit "," ++ to_dec (lg_dispatch lg) ++ lit "," ++ hex16 (exec hdr) ++
  lit "," ++ to_dec (xcc_id hdr) ++ lit "," ++ to_dec (se_id hdr) ++ lit "," ++
  to_dec (cu_id hdr) ++ lit "," ++ to_dec (rw_kind_of (user_data hdr)) ++ lit "," ++
  csv_addresses addrs.

(** What one message adds to the log.  A time interval adds nothing.  Any
    other message adds one line of JSON, which a JSON reader turns into kernel,
    dispatch and every header field; in JSON format an address message's line
    also lists its addresses, and in CSV format it is preceded by its CSV record
    (so the CSV log contains the JSON lines as well). *)
Theorem logger_line lg m addrs log :
  header_ok lg (wave_header m) →
  (user_type (wave_header m) = mt_address →
   data_item_size m = 8 ∧ Forall2 (λ item a, item_address item = Ok a) (data_items m) addrs ∧
   Forall (λ a, 0 ≤ a) addrs) →
  let hdr := wave_header m in
  if decide (user_type hdr = mt_time_interval) then logger_handle lg m log = Ok (true, log)
  else ∃ line,
    logger_handle lg m log = Ok (true, log ++
      (if decide (user_type hdr = mt_address ∧ lg_csv lg = true)
       then csv_record lg hdr addrs else []) ++ line ++ [newline]) ∧
    parse_json line = Some (JObj (header_value lg hdr ++
      (if decide (user_type hdr = mt_address ∧ lg_csv lg = false ∧ addrs ≠ [])
       then [(lit "addresses", JArr ((λ a, JNum (to_dec a)) <$> addrs))] else []))).
Proof.
  intros Hh Haddr hdr. pose proof (header_builds lg hdr Hh) as Hb.
  pose proof mt_distinct as Hmt. unfold logger_handle. fold hdr.
  destruct (Z.eqb_spec (user_type hdr) mt_address) as [Ht|Ht].
  - destruct (Haddr Ht) as (Hsz & Hia & Hpos).
    rewrite (decide_False (P := user_type hdr = mt_time_interval)) by congruence.
    unfold handle_address_message. fold hdr. rewrite Ht, Z.eqb_refl, Hsz.
    cbn [negb Z.eqb Pos.eqb assertb res_bind].
    rewrite (item_addresses_spec m addrs Hia). cbn [res_bind]. destruct (lg_csv lg).
    + rewrite (decide_True (P := _ ∧ _)), (decide_False (P := _ ∧ _ ∧ _)) by naive_solver.
      eexists. split; [reflexivity|]. rewrite app_nil_r.
      by apply parse_json_complete, builds_getJSON.
    + rewrite (decide_False (P := _ ∧ false = true)) by naive_solver.
      case_bool_decide as Hnil.
      * rewrite decide_False by naive_solver. eexists. split; [reflexivity|].
        rewrite app_nil_r. by apply parse_json_complete, builds_getJSON.
      * rewrite decide_True by naive_solver.
        destruct (builds_vector _ _ (lit "addresses") addrs false false
          ((λ a, JNum (to_dec a)) <$> addrs) Hb) as (json' & -> & Hb'); [by apply plain_lit|done| |].
        { clear -Hpos. induction Hpos as [|a l Ha Hl IH]; constructor; [by apply to_dec_number|done]. }
        cbn [res_bind]. eexists. split; [reflexivity|].
        by apply parse_json_complete, builds_getJSON.
  - rewrite (decide_False (P := _ ∧ lg_csv lg = true)) by naive_solver.
    rewrite (decide_False (P := _ ∧ _ ∧ _)) by naive_solver.
    destruct (Z.eqb_spec (user_type hdr) mt_time_interval) as [Hi|Hi].
    + by rewrite decide_True.
    + rewrite decide_False by done. eexists. split; [reflexivity|]. rewrite app_nil_r.
      by apply parse_json_complete, builds_getJSON.
Qed.
End logger.

Section examples.
#[local] Existing Instance dh_comms_values.
#[local] Existing Instance dh_comms_values_laws.

Definition log_message : message_t :=
  Message (WaveHeader 0 1 3 99 0 12 5 1 0 0 0 0 0 0 0 2) 8 [[4096]; [255]].

Lemma logger_line_witness :
  let lg := Logger (lit "k") 1 false in
  ∃ line, logger_handle lg log_message [] = Ok (true, [] ++ [] ++ line ++ [newline]) ∧
    parse_json line = Some (JObj (header_value lg (wave_header log_message) ++
      [(lit "addresses", JArr [JNum (lit "4096"); JNum (lit "255")])])).
Proof.
  pose proof (logger_line (Logger (lit "k") 1 false) log_message [4096; 255] []) as Hw.
  cbv zeta in Hw. rewrite decide_False in Hw by discriminate.
  rewrite (decide_False (P := _ ∧ lg_csv _ = true)) in Hw by (intros [_ Hc]; discriminate Hc).
  rewrite decide_True in Hw by (split_and!; [reflexivity|reflexivity|discriminate]).
  apply Hw.
  - split; try (vm_compute; discriminate). by apply plain_lit.
  - intros _. split; [reflexivity|]. split; repeat constructor; discriminate.
Defined.
End examples.
