(* ===== verification/BasicBlock.v ===== *)
(** * Basic block analysis

    [basic_block_analysis] of src/src/basic_block_analysis.cc and
    src/inc/basic_block_analysis.h: which compute units ran which waves, how often
    and how long each basic block was executed, and the report.  Keys that the
    code compares with [memcmp] are kept as their object representation; the
    padding bytes of [waveIdentifier_t], which the code never initialises, are an
    input of the handler.  The banner on standard error is left out.  What is charged to a block is stated
    against the list of the messages ([opened], [stays]), not against the state. *)
From S2P Require Import Prelude StdString Message Json Doubles.

(** ** Counting bits *)
Fixpoint count_bits_loop (fuel : nat) (mask count : Z) : res Z :=
  if mask =? 0 then Ok count else
  match fuel with
  | O => Err FDiverge
  | S fuel' => count_bits_loop fuel' (Z.shiftr mask 1) (u32 (count + Z.land mask 1))
  end.
Definition countSetBits (mask : Z) : res Z := count_bits_loop 64 mask 0.

(** ** Data *)
Record blockInfo_t := BlockInfo {
  thread_count_ : Z;
  count_ : Z;
  duration_ : Z;
  dwarf_line_ : Z;
}.

Record wave_state_t := WaveState {
  ws_current_block : Z;
  ws_start_time : Z;
  ws_count : Z;
}.

(** Little-endian object representations. *)
Fixpoint le_bytes (n : nat) (x : Z) : bytes :=
  match n with
  | O => []
  | S n' => ascii_of_nat (Z.to_nat (x mod 256)) :: le_bytes n' (x / 256)
  end.
Fixpoint le_value (s : bytes) : Z :=
  match s with [] => 0 | c :: s' => Z.of_nat (nat_of_ascii c) + 256 * le_value s' end.

Definition workgroup_image (hdr : wave_header_t) : bytes :=
  le_bytes 2 (block_idx_x hdr) ++ le_bytes 2 (block_idx_y hdr) ++ le_bytes 2 (block_idx_z hdr).
Definition wave_image (hdr : wave_header_t) (padding : bytes) : bytes :=
  le_bytes 4 (block_idx_x hdr) ++ le_bytes 4 (block_idx_y hdr) ++ le_bytes 4 (block_idx_z hdr) ++
  le_bytes 1 (wave_num hdr) ++ padding.

Definition wg_x (k : bytes) : Z := le_value (take 2 k).
Definition wg_y (k : bytes) : Z := le_value (take 2 (drop 2 k)).
Definition wg_z (k : bytes) : Z := le_value (drop 4 k).

(** xcc, se, cu, workgroup, and the waves of the workgroup. *)
Abbreviation cu_map := (gmap bytes (gset Z)).
Abbreviation compute_resources_t := (gmap Z (gmap Z (gmap Z cu_map))).

Record bb_state := BBState {
  message_count_ : Z;
  wave_states_ : gmap bytes wave_state_t;
  block_info_ : gmap Z blockInfo_t;
  blocks_seen_ : gset Z;
  compute_resources_ : compute_resources_t;
}.

Definition new_basic_block_analysis : bb_state := BBState 0 ∅ ∅ ∅ ∅.

(** ** Operations *)

(** The cascade of [find]s, level by level. *)
Definition updateComputeResources (hdr : wave_header_t) (res0 : compute_resources_t)
    : compute_resources_t :=
  let wg := workgroup_image hdr in
  let xcc := u16 (xcc_id hdr) in
  let se := u16 (se_id hdr) in
  let cu := u16 (cu_id hdr) in
  let wave := u16 (wave_num hdr) in
  match res0 !! xcc with
  | None => <[xcc := {[ se := {[ cu := {[ wg := {[ wave ]} ]} ]} ]}]> res0
  | Some ses =>
      match ses !! se with
      | None => <[xcc := <[se := {[ cu := {[ wg := {[ wave ]} ]} ]}]> ses]> res0
      | Some cus =>
          match cus !! cu with
          | None => <[xcc := <[se := <[cu := {[ wg := {[ wave ]} ]}]> cus]> ses]> res0
          | Some wgs =>
              match wgs !! wg with
              | None => <[xcc := <[se := <[cu := <[wg := {[ wave ]}]> wgs]> cus]> ses]> res0
              | Some waves =>
                  <[xcc := <[se := <[cu := <[wg := {[ wave ]} ∪ waves]> wgs]> cus]> ses]> res0
              end
          end
      end
  end.

Section handler.
Context `{DC : DhComms, KD : KernelDB kdb}.
Variable kernel_name : bytes.

(** The block of a wave ends: its time and threads are added to its statistics. *)
Definition end_block (hdr : wave_header_t) (threads : Z) (ws : wave_state_t)
    (info : gmap Z blockInfo_t) : gmap Z blockInfo_t :=
  let elapsed := u64 (timestamp hdr - ws_start_time ws) in
  match info !! ws_current_block ws with
  | Some b =>
      <[ws_current_block ws := BlockInfo (u64 (thread_count_ b + threads))
          (u64 (count_ b + ws_count ws)) (u64 (duration_ b + elapsed)) (dwarf_line_ b)]> info
  | None => <[ws_current_block ws := BlockInfo threads 1 elapsed 0]> info
  end.

Definition is_endpgm (instructions : list instruction_t) : bool :=
  match list.last instructions with
  | Some inst => bool_decide (inst_ inst = lit "s_endpgm")
  | None => false
  end.

(** The body of the [try] block, from the database lookup on. *)
Definition enter_basic_block (db : kdb) (padding : bytes) (hdr : wave_header_t) (st : bb_state)
    : res bb_state :=
  let! blocks := getBasicBlocks db kernel_name in
  let block_idx := u32 (user_data hdr) in
  match blocks !! Z.to_nat block_idx with
  | None => Err FAbort   (* assert(block_idx < blocks.size()) *)
  | Some thisBlock =>
      let instructions := getInstructions db thisBlock in
      if bool_decide (instructions = []) then Ok st else
      let seen := list_to_set (block_ <$> instructions) ∪ blocks_seen_ st in
      if user_type hdr =? mt_time_interval then Err FAbort   (* assert(false) *)
      else
        let wave := wave_image hdr padding in
        match wave_states_ st !! wave with
        | Some ws =>
            let! threads := countSetBits (exec hdr) in
            let info := end_block hdr threads ws (block_info_ st) in
            let waves :=
              if is_endpgm instructions then delete wave (wave_states_ st)
              else <[wave := WaveState thisBlock (timestamp hdr) 1]> (wave_states_ st) in
            Ok (BBState (message_count_ st) waves info seen (compute_resources_ st))
        | None =>
            Ok (BBState (message_count_ st)
                  (<[wave := WaveState thisBlock (timestamp hdr) 1]> (wave_states_ st))
                  (block_info_ st) seen (compute_resources_ st))
        end
  end.

Definition bb_handle (kdb_p : option kdb) (padding : bytes) (m : message_t) (st : bb_state)
    : res (bool * bb_state) :=
  match kdb_p with
  | None => Ok (true, st)
  | Some db =>
      let hdr := wave_header m in
      let st1 := BBState (u64 (message_count_ st + 1)) (wave_states_ st) (block_info_ st)
                   (blocks_seen_ st) (updateComputeResources hdr (compute_resources_ st)) in
      match enter_basic_block db padding hdr st1 with
      | Ok st2 => Ok (true, st2)
      | Err (FThrow _) => Ok (false, st1)
      | Err f => Err f
      end
  end.
End handler.

(** ** Lemmas: bits *)
Lemma land_1 x : Z.land x 1 = x mod 2.
Proof. exact (Z.land_ones x 1 ltac:(lia)). Qed.

Definition set_bits (n : nat) (mask : Z) : Z :=
  Z.of_nat (length (filter (λ i, Z.testbit mask i = true) (seqZ 0 (Z.of_nat n)))).

Lemma set_bits_S n mask :
  set_bits (S n) mask = Z.land mask 1 + set_bits n (Z.shiftr mask 1).
Proof.
  unfold set_bits. rewrite Nat2Z.inj_succ, seqZ_cons by lia. rewrite Z.pred_succ.
  assert (∀ k m, length (filter (λ i, Z.testbit mask i = true) (seqZ (Z.succ m) (Z.of_nat k))) =
    length (filter (λ i, Z.testbit (Z.shiftr mask 1) i = true) (seqZ m (Z.of_nat k)))
    ∨ m < 0) as Hsh.
  { intros k m. destruct (Z.lt_ge_cases m 0); [by right|left].
    revert m H. induction k as [|k IH]; intros m Hm; [done|].
    rewrite Nat2Z.inj_succ, (seqZ_cons m), (seqZ_cons (Z.succ m)) by lia.
    rewrite Z.pred_succ, (filter_cons _ m), (filter_cons _ (Z.succ m)), Z.shiftr_spec by lia.
    rewrite Z.add_1_r. specialize (IH (Z.succ m) ltac:(lia)).
    case_decide; cbn [length]; by rewrite IH. }
  destruct (Hsh n 0) as [Hn|]; [|lia]. rewrite filter_cons.
  change (Z.succ 0) with 1 in *.
  assert (Z.land mask 1 = if Z.testbit mask 0 then 1 else 0) as ->.
  { rewrite land_1, Zmod_odd, Z.bit0_odd. done. }
  case_decide as Hd.
  - rewrite Hd. cbn [length]. rewrite Hn. lia.
  - destruct (Z.testbit mask 0); [done|]. rewrite Hn. lia.
Qed.

Lemma count_bits_loop_spec fuel mask count :
  0 ≤ mask < 2 ^ Z.of_nat fuel → 0 ≤ count → count + Z.of_nat fuel < 2 ^ 32 →
  count_bits_loop fuel mask count = Ok (count + set_bits fuel mask).
Proof.
  revert mask count. induction fuel as [|fuel IH]; intros mask count Hm Hc Hb; cbn [count_bits_loop].
  - change (2 ^ Z.of_nat 0) with 1 in Hm. replace mask with 0 by lia.
    change (set_bits 0 0) with 0. cbn. f_equal. lia.
  - assert (0 ≤ Z.land mask 1 ≤ 1) as Hl.
    { rewrite land_1. pose proof (Z.mod_pos_bound mask 2). lia. }
    destruct (Z.eqb_spec mask 0) as [->|Hne].
    + f_equal. unfold set_bits.
      assert (∀ l : list Z, filter (λ i, Z.testbit 0 i = true) l = []) as ->; [|cbn; lia].
      intros l. induction l as [|i l IHl]; [done|]. by rewrite filter_cons_False by (by rewrite Z.bits_0).
    + rewrite wrap_small by lia. rewrite IH; [rewrite set_bits_S; f_equal; lia| |lia|lia].
      rewrite Z.shiftr_div_pow2 by lia. rewrite Nat2Z.inj_succ, Z.pow_succ_r in Hm by lia.
      split; [apply Z.div_pos; lia|]. apply Z.div_lt_upper_bound; lia.
Qed.

Lemma countSetBits_spec mask :
  0 ≤ mask < 2 ^ 64 → countSetBits mask = Ok (set_bits 64 mask).
Proof. intros Hm. unfold countSetBits. by rewrite count_bits_loop_spec. Qed.

Lemma set_bits_bound n mask : 0 ≤ set_bits n mask ≤ Z.of_nat n.
Proof.
  unfold set_bits. split; [lia|]. apply inj_le. etrans; [apply list.length_filter|].
  rewrite length_seqZ. lia.
Qed.

(** ** Lemmas: compute resources *)

(** [wave] of workgroup [wg] ran on this compute unit. *)
Definition ran_on (r : compute_resources_t) (xcc se cu : Z) (wg : bytes) (wave : Z) : Prop :=
  ∃ ses cus wgs waves, r !! xcc = Some ses ∧ ses !! se = Some cus ∧ cus !! cu = Some wgs ∧
    wgs !! wg = Some waves ∧ wave ∈ waves.

(** No level of the nesting is empty. *)
Definition nonempty_levels (r : compute_resources_t) : Prop :=
  ∀ xcc ses, r !! xcc = Some ses → ses ≠ ∅ ∧
    ∀ se cus, ses !! se = Some cus → cus ≠ ∅ ∧
      ∀ cu wgs, cus !! cu = Some wgs → wgs ≠ ∅ ∧
        ∀ wg waves, wgs !! wg = Some waves → waves ≠ ∅.

Definition waves_at (r : compute_resources_t) (xcc se cu : Z) (wg : bytes) : gset Z :=
  default ∅ (default ∅ (default ∅ (default ∅ (r !! xcc) !! se) !! cu) !! wg).

Lemma default_insert `{Countable K} {A} (e : A) (m : gmap K A) k v k' :
  default e (<[k := v]> m !! k') = if decide (k' = k) then v else default e (m !! k').
Proof.
  case_decide as Hk; [by subst; rewrite lookup_insert_eq|by rewrite lookup_insert_ne].
Qed.

Lemma ran_on_waves r xcc se cu wg wave : ran_on r xcc se cu wg wave ↔ wave ∈ waves_at r xcc se cu wg.
Proof.
  unfold ran_on, waves_at. split.
  - intros (ses & cus & wgs & waves & -> & E1 & E2 & E3 & Hin). cbn. rewrite E1. cbn. rewrite E2. cbn.
    by rewrite E3.
  - intros Hin. destruct (r !! xcc) as [ses|] eqn:E0; cbn in Hin; [|by rewrite !lookup_empty in Hin].
    destruct (ses !! se) as [cus|] eqn:E1; cbn in Hin; [|by rewrite !lookup_empty in Hin].
    destruct (cus !! cu) as [wgs|] eqn:E2; cbn in Hin; [|by rewrite !lookup_empty in Hin].
    destruct (wgs !! wg) as [waves|] eqn:E3; cbn in Hin; [|by apply not_elem_of_empty in Hin].
    naive_solver.
Qed.

(** The cascade is one nested insertion. *)
Lemma update_nested hdr r :
  updateComputeResources hdr r =
  let ses := default ∅ (r !! u16 (xcc_id hdr)) in
  let cus := default ∅ (ses !! u16 (se_id hdr)) in
  let wgs := default ∅ (cus !! u16 (cu_id hdr)) in
  let waves := default ∅ (wgs !! workgroup_image hdr) in
  <[u16 (xcc_id hdr) := <[u16 (se_id hdr) := <[u16 (cu_id hdr) :=
     <[workgroup_image hdr := {[ u16 (wave_num hdr) ]} ∪ waves]> wgs]> cus]> ses]> r.
Proof.
  unfold updateComputeResources. cbn zeta.
  assert (∀ x : Z, {[ x ]} ∪ ∅ = ({[ x ]} : gset Z)) as Hu by (intros; set_solver).
  repeat (case_match; cbn; rewrite ?lookup_empty; cbn; rewrite ?Hu; try done).
Qed.

Definition path_of (hdr : wave_header_t) : Z * Z * Z * bytes :=
  (u16 (xcc_id hdr), u16 (se_id hdr), u16 (cu_id hdr), workgroup_image hdr).

Lemma waves_at_update hdr r xcc se cu wg :
  waves_at (updateComputeResources hdr r) xcc se cu wg =
  if decide ((xcc, se, cu, wg) = path_of hdr)
  then {[ u16 (wave_num hdr) ]} ∪ waves_at r xcc se cu wg else waves_at r xcc se cu wg.
Proof.
  rewrite update_nested. unfold waves_at, path_of. cbn zeta. rewrite default_insert.
  destruct (decide (xcc = _)) as [->|]; [|by rewrite decide_False by congruence].
  rewrite default_insert.
  destruct (decide (se = _)) as [->|]; [|by rewrite decide_False by congruence].
  rewrite default_insert.
  destruct (decide (cu = _)) as [->|]; [|by rewrite decide_False by congruence].
  rewrite default_insert.
  destruct (decide (wg = _)) as [->|]; [by rewrite decide_True|by rewrite decide_False by congruence].
Qed.

Lemma nonempty_levels_update hdr r :
  nonempty_levels r → nonempty_levels (updateComputeResources hdr r).
Proof.
  intros Hr. rewrite update_nested. cbn zeta.
  intros xcc ses [[<- <-]|[_ Hs]]%lookup_insert_Some; [|exact (Hr _ _ Hs)].
  split; [apply insert_non_empty|].
  set (ses0 := default ∅ (r !! u16 (xcc_id hdr))).
  intros se cus [[<- <-]|[_ Hc]]%lookup_insert_Some.
  2:{ unfold ses0 in Hc. destruct (r !! u16 (xcc_id hdr)) as [ses'|] eqn:E; cbn in Hc;
        [exact (proj2 (Hr _ _ E) _ _ Hc)|by rewrite lookup_empty in Hc]. }
  split; [apply insert_non_empty|].
  set (cus0 := default ∅ (ses0 !! u16 (se_id hdr))).
  assert (∀ cu wgs, cus0 !! cu = Some wgs → wgs ≠ ∅ ∧
    ∀ wg waves, wgs !! wg = Some waves → waves ≠ ∅) as Hcus.
  { unfold cus0, ses0. intros cu wgs.
    destruct (r !! u16 (xcc_id hdr)) as [ses'|] eqn:E; cbn; [|by rewrite !lookup_empty].
    destruct (ses' !! u16 (se_id hdr)) as [cus'|] eqn:E'; cbn; [|by rewrite lookup_empty].
    destruct (Hr _ _ E) as [_ Hr1]. destruct (Hr1 _ _ E') as [_ Hr2]. apply Hr2. }
  intros cu wgs [[<- <-]|[_ Hw]]%lookup_insert_Some; [|exact (Hcus _ _ Hw)].
  split; [apply insert_non_empty|].
  intros wg waves [[<- <-]|[_ Hwv]]%lookup_insert_Some; [set_solver|].
  destruct (cus0 !! u16 (cu_id hdr)) as [wgs'|] eqn:E; cbn in Hwv;
    [|by rewrite lookup_empty in Hwv]. destruct (Hcus _ _ E) as [_ H2]. by eapply H2.
Qed.

(** The bookkeeping of compute resources is exact: after any sequence of wave
    headers, a wave is listed under a compute unit and workgroup iff some header
    said so, and no level of the nesting (which the report divides by and whose
    last comma it removes) is ever empty. *)
Theorem compute_resources_exact hdrs :
  let r := foldl (λ r hdr, updateComputeResources hdr r) ∅ hdrs in
  nonempty_levels r ∧
  ∀ xcc se cu wg wave, ran_on r xcc se cu wg wave ↔
    ∃ hdr, hdr ∈ hdrs ∧ (xcc, se, cu, wg) = path_of hdr ∧ wave = u16 (wave_num hdr).
Proof.
  cbn zeta.
  assert (∀ r0, nonempty_levels r0 →
    nonempty_levels (foldl (λ r hdr, updateComputeResources hdr r) r0 hdrs) ∧
    ∀ xcc se cu wg wave,
      ran_on (foldl (λ r hdr, updateComputeResources hdr r) r0 hdrs) xcc se cu wg wave ↔
      ran_on r0 xcc se cu wg wave ∨
      ∃ hdr, hdr ∈ hdrs ∧ (xcc, se, cu, wg) = path_of hdr ∧ wave = u16 (wave_num hdr)) as Hgen.
  { induction hdrs as [|hdr hdrs IH]; intros r0 Hr0; cbn [foldl].
    { split; [done|]. intros *. split; [by left|]. intros [|(? & []%elem_of_nil & _)]; done. }
    destruct (IH (updateComputeResources hdr r0)) as [Hne Hran];
      [by apply nonempty_levels_update|]. split; [done|].
    intros *. rewrite Hran, !ran_on_waves, waves_at_update.
    setoid_rewrite elem_of_cons.
    case_decide as Hp; rewrite ?elem_of_union, ?elem_of_singleton; naive_solver. }
  destruct (Hgen ∅) as [Hne Hran].
  { intros xcc ses H. by rewrite lookup_empty in H. }
  split; [done|]. intros *. rewrite Hran, ran_on_waves. unfold waves_at. rewrite lookup_empty. cbn.
  set_solver.
Qed.

(** ** Where the time goes

    The life of the waves, independently of blocks: per active wave the times of
    its first and latest message, the total life of waves that ended, and how many
    messages were not the first of their wave. *)
Record life := Life { active : gmap bytes (Z * Z); closed : Z; followed : Z }.

Definition life_step (l : life) (e : bytes * Z * bool) : life :=
  let '(wave, time, ends) := e in
  match active l !! wave with
  | None => Life (<[wave := (time, time)]> (active l)) (closed l) (followed l)
  | Some (first, _) =>
      if ends then Life (delete wave (active l)) (closed l + (time - first)) (followed l + 1)
      else Life (<[wave := (first, time)]> (active l)) (closed l) (followed l + 1)
  end.

Definition total_life (l : life) : Z :=
  closed l + map_sum ((λ p : Z * Z, p.2 - p.1) <$> active l).

Section conservation.
Context `{DC : DhComms, KD : KernelDB kdb}.
Implicit Types st : bb_state.

(** The event a message is, when its block has instructions. *)
Definition event_of (kernel : bytes) (db : kdb) (x : bytes * message_t) : option (bytes * Z * bool) :=
  let hdr := wave_header x.2 in
  match getBasicBlocks db kernel with
  | Ok blocks =>
      match blocks !! Z.to_nat (u32 (user_data hdr)) with
      | Some b =>
          let instructions := getInstructions db b in
          if bool_decide (instructions = []) then None
          else Some (wave_image hdr x.1, timestamp hdr, is_endpgm instructions)
      | None => None
      end
  | Err _ => None
  end.

Definition bb_run (kernel : bytes) (db : kdb) (st : bb_state) (xs : list (bytes * message_t))
    : res bb_state :=
  res_fold (λ s x, let! ' (_, s') := bb_handle kernel (Some db) x.1 x.2 s in Ok s') st xs.

Record tracks (l : life) (st : bb_state) : Prop := {
  tr_waves : ws_start_time <$> wave_states_ st = snd <$> active l;
  tr_single : map_Forall (λ _ ws, ws_count ws = 1) (wave_states_ st);
  tr_time : u64 (map_sum (duration_ <$> block_info_ st)) = u64 (total_life l);
  tr_count : u64 (map_sum (count_ <$> block_info_ st)) = u64 (followed l);
}.

Lemma end_block_sums hdr threads ws info :
  ws_count ws = 1 →
  u64 (map_sum (duration_ <$> end_block hdr threads ws info)) =
    u64 (map_sum (duration_ <$> info) + (timestamp hdr - ws_start_time ws)) ∧
  u64 (map_sum (count_ <$> end_block hdr threads ws info)) = u64 (map_sum (count_ <$> info) + 1).
Proof.
  intros H1. unfold end_block.
  destruct (info !! ws_current_block ws) as [b|] eqn:Hb; rewrite !fmap_insert, !map_sum_insert;
    rewrite !lookup_fmap, Hb; cbn [fmap option_fmap option_map default from_option duration_ count_]; unfold id.
  - rewrite H1. repeat rewrite wrap_add_r.
    replace (map_sum (duration_ <$> info) - duration_ b +
      (duration_ b + u64 (timestamp hdr - ws_start_time ws)))
      with (map_sum (duration_ <$> info) + u64 (timestamp hdr - ws_start_time ws)) by lia.
    rewrite wrap_add_r. split; f_equal. lia.
  - rewrite wrap_add_r. split; f_equal; unfold id; lia.
Qed.

Lemma life_follow_sum l wave first latest time :
  active l !! wave = Some (first, latest) →
  map_sum ((λ p : Z * Z, p.2 - p.1) <$> active l) =
    (latest - first) + map_sum ((λ p : Z * Z, p.2 - p.1) <$> delete wave (active l)) ∧
  map_sum ((λ p : Z * Z, p.2 - p.1) <$> <[wave := (first, time)]> (active l)) =
    (time - first) + map_sum ((λ p : Z * Z, p.2 - p.1) <$> delete wave (active l)).
Proof.
  intros Hw. split.
  - rewrite (map_sum_delete _ wave (latest - first)); [by rewrite fmap_delete|].
    by rewrite lookup_fmap, Hw.
  - rewrite fmap_insert, map_sum_insert, lookup_fmap, Hw. cbn.
    rewrite (map_sum_delete ((λ p : Z * Z, p.2 - p.1) <$> active l) wave (latest - first));
      [rewrite fmap_delete; lia|]. by rewrite lookup_fmap, Hw.
Qed.

Lemma bb_handle_tracks kernel db x st st' b l :
  0 ≤ exec (wave_header x.2) < 2 ^ 64 →
  bb_handle kernel (Some db) x.1 x.2 st = Ok (b, st') → tracks l st →
  tracks (match event_of kernel db x with Some e => life_step l e | None => l end) st'.
Proof.
  intros He Hh [Hw H1 Ht Hc]. unfold bb_handle, enter_basic_block in Hh. unfold event_of.
  set (hdr := wave_header x.2) in *.
  destruct (getBasicBlocks db kernel) as [blocks|f]; cbn [res_bind] in Hh.
  2:{ destruct f; try done. injection Hh as <- <-. by split. }
  destruct (blocks !! _) as [blk|]; [|done].
  destruct (bool_decide (getInstructions db blk = [])); [by injection Hh as <- <-; split|].
  destruct (user_type hdr =? mt_time_interval); [done|].
  cbn [wave_states_ block_info_] in Hh.
  assert ((ws_start_time <$> wave_states_ st) !! wave_image hdr x.1 =
    (snd <$> active l) !! wave_image hdr x.1) as Hlk by (by rewrite Hw).
  rewrite !lookup_fmap in Hlk. cbn [life_step].
  destruct (wave_states_ st !! wave_image hdr x.1) as [ws|] eqn:Hws.
  - destruct (active l !! wave_image hdr x.1) as [[first latest]|] eqn:Ha; [|done].
    cbn in Hlk. injection Hlk as Hlk.
    rewrite (countSetBits_spec _ He) in Hh. cbn [res_bind] in Hh. injection Hh as <- <-.
    destruct (end_block_sums hdr (set_bits 64 (exec hdr)) ws (block_info_ st)) as [Hd Hn];
      [by eapply H1|].
    destruct (life_follow_sum l _ first latest (timestamp hdr) Ha) as [S1 S2].
    destruct (is_endpgm (getInstructions db blk)); split;
      cbn [wave_states_ block_info_ active closed followed].
    + by rewrite !fmap_delete, Hw.
    + by apply map_Forall_delete.
    + rewrite Hd, <-wrap_add_l, Ht, wrap_add_l. unfold total_life. cbn [active closed]. f_equal. lia.
    + rewrite Hn, <-wrap_add_l, Hc, wrap_add_l. f_equal.
    + by rewrite !fmap_insert, Hw.
    + by apply map_Forall_insert_2.
    + rewrite Hd, <-wrap_add_l, Ht, wrap_add_l. unfold total_life. cbn [active closed]. f_equal. lia.
    + rewrite Hn, <-wrap_add_l, Hc, wrap_add_l. f_equal.
  - destruct (active l !! wave_image hdr x.1) as [[first latest]|] eqn:Ha; [done|].
    injection Hh as <- <-. split; cbn [wave_states_ block_info_ active closed followed].
    + by rewrite !fmap_insert, Hw.
    + by apply map_Forall_insert_2.
    + rewrite Ht. unfold total_life. cbn [active closed].
      rewrite fmap_insert, map_sum_insert, lookup_fmap, Ha. cbn. f_equal. lia.
    + done.
Qed.

Lemma tracks_new : tracks (Life ∅ 0 0) new_basic_block_analysis.
Proof.
  split; [|apply map_Forall_empty|..]; vm_compute; reflexivity.
Qed.

Lemma bb_run_tracks kernel db xs l st st' :
  Forall (λ x, 0 ≤ exec (wave_header x.2) < 2 ^ 64) xs →
  bb_run kernel db st xs = Ok st' → tracks l st →
  tracks (foldl life_step l (omap (event_of kernel db) xs)) st'.
Proof.
  intros Hx. unfold bb_run. revert l st.
  induction Hx as [|x xs Hx Hxs IH]; intros l st; cbn [res_fold].
  { by intros [= <-] Ht. }
  destruct (bb_handle kernel (Some db) x.1 x.2 st) as [[b st1]|] eqn:Hh; cbn [res_bind]; [|done].
  intros Hr Ht. pose proof (bb_handle_tracks kernel db x st st1 b l Hx Hh Ht) as Ht1.
  specialize (IH _ _ Hr Ht1). cbn [omap list_omap]. by destruct (event_of kernel db x).
Qed.

(** *** Block by block

    What a message says when its block has instructions, and what the past
    messages, newest first, say about the wave [w]: the visit it is still in.  A
    visit of a block ending in [s_endpgm] closes the wave it finds open. *)
Record visit := Visit {
  v_wave : bytes; v_block : Z; v_time : Z; v_threads : Z; v_ends : bool }.

Definition visit_of (kernel : bytes) (db : kdb) (x : bytes * message_t) : option visit :=
  let hdr := wave_header x.2 in
  match getBasicBlocks db kernel with
  | Ok blocks =>
      match blocks !! Z.to_nat (u32 (user_data hdr)) with
      | Some b =>
          let instructions := getInstructions db b in
          if bool_decide (instructions = []) then None
          else Some (Visit (wave_image hdr x.1) b (timestamp hdr) (set_bits 64 (exec hdr))
                       (is_endpgm instructions))
      | None => None
      end
  | Err _ => None
  end.

Fixpoint opened (past : list visit) (w : bytes) : option visit :=
  match past with
  | [] => None
  | v :: past' =>
      if decide (v_wave v = w) then
        if v_ends v then match opened past' w with Some _ => None | None => Some v end
        else Some v
      else opened past' w
  end.

(** The intervals spent in block [b], with the threads active when each ended. *)
Fixpoint stays (b : Z) (past : list visit) : list (Z * Z) :=
  match past with
  | [] => []
  | v :: past' =>
      match opened past' (v_wave v) with
      | Some u =>
          if decide (v_block u = b) then (v_time v - v_time u, v_threads v) :: stays b past'
          else stays b past'
      | None => stays b past'
      end
  end.

Definition total (l : list Z) : Z := foldr Z.add 0 l.

Definition tally (cs : list (Z * Z)) : option blockInfo_t :=
  match cs with
  | [] => None
  | _ => Some (BlockInfo (u64 (total (snd <$> cs))) (u64 (Z.of_nat (length cs)))
                 (u64 (total (fst <$> cs))) 0)
  end.

Record ledger (past : list visit) (st : bb_state) : Prop := {
  lg_waves : ∀ w, wave_states_ st !! w = (λ u, WaveState (v_block u) (v_time u) 1) <$> opened past w;
  lg_info : ∀ b, block_info_ st !! b = tally (stays b past);
}.

Lemma tally_cons d n cs :
  0 ≤ n ≤ 64 →
  tally ((d, n) :: cs) = Some
    match tally cs with
    | Some b => BlockInfo (u64 (thread_count_ b + n)) (u64 (count_ b + 1)) (u64 (duration_ b + u64 d))
                  (dwarf_line_ b)
    | None => BlockInfo n 1 (u64 d) 0
    end.
Proof.
  intros Hn. destruct cs as [|c cs]; unfold tally; f_equal.
  - unfold total. cbn. rewrite !Z.add_0_r, (wrap_small 64 n) by lia. done.
  - cbn [thread_count_ count_ duration_ dwarf_line_ fmap list_fmap fst snd length].
    rewrite wrap_add_r, !wrap_add_l. unfold total. cbn [foldr]. f_equal; f_equal; lia.
Qed.

Lemma end_block_ledger hdr ws info past w n :
  0 ≤ n ≤ 64 → ws_count ws = 1 →
  (∀ b, info !! b = tally (stays b past)) →
  (∃ u, opened past w = Some u ∧ v_block u = ws_current_block ws ∧ v_time u = ws_start_time ws) →
  ∀ b blk e, end_block hdr n ws info !! b = tally (stays b (Visit w blk (timestamp hdr) n e :: past)).
Proof.
  intros Hn H1 Hi (u & Hu' & Hb & Ht) b blk e.
  cbn [stays v_wave v_time v_threads]. rewrite Hu', Hb, Ht. unfold end_block. rewrite H1.
  destruct (decide (ws_current_block ws = b)) as [<-|Hne].
  - rewrite tally_cons by done. rewrite <-Hi.
    by destruct (info !! ws_current_block ws); rewrite lookup_insert_eq.
  - rewrite <-Hi. by destruct (info !! ws_current_block ws); rewrite lookup_insert_ne by done.
Qed.

Lemma bb_handle_ledger kernel db x st st' b past :
  0 ≤ exec (wave_header x.2) < 2 ^ 64 →
  bb_handle kernel (Some db) x.1 x.2 st = Ok (b, st') → ledger past st →
  ledger (match visit_of kernel db x with Some v => v :: past | None => past end) st'.
Proof.
  intros He Hh [Hw Hi]. unfold bb_handle, enter_basic_block in Hh. unfold visit_of.
  set (hdr := wave_header x.2) in *.
  destruct (getBasicBlocks db kernel) as [blocks|f]; cbn [res_bind] in Hh.
  2:{ destruct f; try done. injection Hh as <- <-. by split. }
  destruct (blocks !! _) as [blk|]; [|done].
  destruct (bool_decide (getInstructions db blk = [])); [by injection Hh as <- <-; split|].
  destruct (user_type hdr =? mt_time_interval); [done|].
  cbn [wave_states_ block_info_] in Hh.
  destruct (wave_states_ st !! wave_image hdr x.1) as [ws|] eqn:Hws; rewrite Hw in Hws.
  - destruct (opened past (wave_image hdr x.1)) as [u|] eqn:Hu; [|done].
    cbn in Hws. injection Hws as <-.
    rewrite (countSetBits_spec _ He) in Hh. cbn [res_bind] in Hh. injection Hh as <- <-.
    pose proof (set_bits_bound 64 (exec hdr)) as Hn.
    split; cbn [wave_states_ block_info_].
    + intros w. cbn [opened v_wave v_ends]. destruct (decide (wave_image hdr x.1 = w)) as [<-|Hne].
      * rewrite Hu. destruct (is_endpgm (getInstructions db blk));
          [by rewrite lookup_delete_eq|by rewrite lookup_insert_eq].
      * rewrite <-Hw. destruct (is_endpgm (getInstructions db blk));
          [by rewrite lookup_delete_ne|by rewrite lookup_insert_ne].
    + intros b'. apply end_block_ledger; [lia|done|done|]. by exists u.
  - destruct (opened past (wave_image hdr x.1)) as [u|] eqn:Hu; [done|].
    injection Hh as <- <-. split; cbn [wave_states_ block_info_].
    + intros w. cbn [opened v_wave v_ends]. destruct (decide (wave_image hdr x.1 = w)) as [<-|Hne].
      * rewrite lookup_insert_eq, Hu. by destruct (is_endpgm (getInstructions db blk)).
      * by rewrite lookup_insert_ne.
    + intros b'. cbn [stays v_wave]. by rewrite Hu.
Qed.

Lemma ledger_new : ledger [] new_basic_block_analysis.
Proof. split; intros; apply lookup_empty. Qed.

Lemma bb_run_ledger kernel db xs past st st' :
  Forall (λ x, 0 ≤ exec (wave_header x.2) < 2 ^ 64) xs →
  bb_run kernel db st xs = Ok st' → ledger past st →
  ledger (reverse (omap (visit_of kernel db) xs) ++ past) st'.
Proof.
  intros Hx. unfold bb_run. revert past st.
  induction Hx as [|x xs Hx Hxs IH]; intros past st; cbn [res_fold].
  { by intros [= <-] Ht. }
  destruct (bb_handle kernel (Some db) x.1 x.2 st) as [[b st1]|] eqn:Hh; cbn [res_bind]; [|done].
  intros Hr Ht. pose proof (bb_handle_ledger kernel db x st st1 b past Hx Hh Ht) as Ht1.
  specialize (IH _ _ Hr Ht1). cbn [omap list_omap].
  destruct (visit_of kernel db x); [|done]. by rewrite reverse_cons, <-app_assoc.
Qed.

(** A wave's open visit is one of its visits, and not one that closed it. *)
Lemma opened_visit past w u :
  opened past w = Some u →
  ∃ later earlier, past = later ++ u :: earlier ∧ v_wave u = w ∧
    (v_ends u = true → opened earlier w = None).
Proof.
  induction past as [|v past IH]; cbn [opened]; [done|].
  destruct (decide (v_wave v = w)) as [Hv|Hv].
  - destruct (v_ends v) eqn:He; [destruct (opened past w) eqn:Ho; [done|]|];
      intros [= <-]; exists [], past; repeat split; try done; by rewrite He.
  - intros (l & e & -> & ? & ?)%IH. by exists (v :: l), e.
Qed.

Lemma stays_nil b past :
  (∀ later v earlier, past = later ++ v :: earlier → v_block v = b →
     v_ends v = true ∧ is_Some (opened earlier (v_wave v))) →
  stays b past = [].
Proof.
  induction past as [|v past IH]; intros Hb; [done|]. cbn [stays].
  assert (stays b past = []) as ->.
  { apply IH. intros l v' e ->. apply (Hb (v :: l)). done. }
  destruct (opened past (v_wave v)) as [u|] eqn:Ho; [|done].
  destruct (decide (v_block u = b)) as [Hu|]; [|done].
  destruct (opened_visit _ _ _ Ho) as (l & e & -> & Hw & Hc).
  destruct (Hb (v :: l) u e eq_refl Hu) as [He [? Hs]]. rewrite Hw, Hc in Hs; done.
Qed.

(** C28. Each block is charged for the time spent in it, and the total is
    conserved.  After any run of the handler the record of a block is exact: the
    sum (modulo 2^64) of the intervals that start when a wave enters it and end
    with the wave's next message, their number, and the threads active at their
    ends; there is no record if there was no such interval.  The waves remembered
    are those with an open visit, with the block and time of that visit.  Over all
    blocks, the durations sum up to the lives of the waves, each from its first to
    its latest message, and the counts to the messages that were not the first of
    their wave.  A block every visit of which ends its wave (the last
    instruction is [s_endpgm], and the wave was already known) gets no record at all:
    neither time nor count. *)
Theorem block_time_conserved kernel db xs st :
  Forall (λ x : bytes * message_t, 0 ≤ exec (wave_header x.2) < 2 ^ 64) xs →
  bb_run kernel db new_basic_block_analysis xs = Ok st →
  let l := foldl life_step (Life ∅ 0 0) (omap (event_of kernel db) xs) in
  let past := reverse (omap (visit_of kernel db) xs) in
  (∀ b, block_info_ st !! b = tally (stays b past)) ∧
  (∀ w, wave_states_ st !! w = (λ u, WaveState (v_block u) (v_time u) 1) <$> opened past w) ∧
  u64 (map_sum (duration_ <$> block_info_ st)) = u64 (total_life l) ∧
  u64 (map_sum (count_ <$> block_info_ st)) = u64 (followed l) ∧
  ws_start_time <$> wave_states_ st = snd <$> active l ∧
  (∀ b, (∀ later v earlier, past = later ++ v :: earlier → v_block v = b →
           v_ends v = true ∧ is_Some (opened earlier (v_wave v))) →
        block_info_ st !! b = None).
Proof.
  intros Hx Hr l past. destruct (bb_run_tracks _ _ _ _ _ _ Hx Hr tracks_new).
  destruct (bb_run_ledger _ _ _ _ _ _ Hx Hr ledger_new) as [Hw Hi].
  rewrite app_nil_r in Hw, Hi. repeat split; try done.
  intros b Hb. by rewrite Hi, stays_nil.
Qed.

(** The waves are identified by the bytes of [waveIdentifier_t], padding
    included: two messages of the same wave that enter blocks are recognised as
    consecutive, and the first block gets its time, exactly when the padding the
    two objects happen to have is the same; otherwise nothing is recorded. *)
Theorem wave_identity_needs_padding kernel db p1 p2 m1 m2 st :
  Forall (λ m, 0 ≤ exec (wave_header m) < 2 ^ 64) [m1; m2] →
  wave_image (wave_header m1) [] = wave_image (wave_header m2) [] →
  is_Some (event_of kernel db (p1, m1)) → is_Some (event_of kernel db (p2, m2)) →
  bb_run kernel db new_basic_block_analysis [(p1, m1); (p2, m2)] = Ok st →
  map_sum (count_ <$> block_info_ st) `mod` 2 ^ 64 = if decide (p1 = p2) then 1 else 0.
Proof.
  intros Hx Hw [e1 He1] [e2 He2] Hr.
  assert (Forall (λ x : bytes * message_t, 0 ≤ exec (wave_header x.2) < 2 ^ 64)
    [(p1, m1); (p2, m2)]) as Hall.
  { apply list.Forall_cons in Hx as [Hx1 Hx]. apply list.Forall_cons in Hx as [Hx2 _].
    by repeat apply Forall_cons_2; [..|apply list.Forall_nil_2]. }
  destruct (bb_run_tracks kernel db [(p1, m1); (p2, m2)] _ _ _ Hall Hr tracks_new) as [_ _ _ Hc].
  unfold wrap in Hc. rewrite Hc. cbn [omap list_omap]. rewrite He1, He2. cbn [foldl].
  assert (e1.1.1 = wave_image (wave_header m1) p1 ∧ e2.1.1 = wave_image (wave_header m2) p2) as [E1 E2].
  { unfold event_of in He1, He2. repeat case_match; simplify_eq; done. }
  assert (∀ hdr p, wave_image hdr p = wave_image hdr [] ++ p) as Himg.
  { intros hdr p. unfold wave_image. rewrite app_nil_r. by rewrite <-!app_assoc. }
  destruct e1 as [[w1 t1] n1], e2 as [[w2 t2] n2]. cbn [fst snd] in E1, E2. subst w1 w2.
  cbn [life_step active closed followed]. rewrite lookup_empty. cbn [active closed followed].
  case_decide as Hp.
  - subst p2. rewrite (Himg (wave_header m1) p1), (Himg (wave_header m2) p1), Hw, lookup_insert_eq. by destruct n2.
  - rewrite lookup_insert_ne; [done|].
    rewrite (Himg (wave_header m1) p1), (Himg (wave_header m2) p2), Hw. by intros ?%app_inv_head.
Qed.
End conservation.

(** ** Rendering the compute resources *)
Definition wg_text (k : bytes) : bytes :=
  lit "(" ++ to_dec (wg_x k) ++ lit "," ++ to_dec (wg_y k) ++ lit "," ++ to_dec (wg_z k) ++ lit ")".

Definition render_cu (ss : bytes) (cus : Z * cu_map) : res bytes :=
  let ss := ss ++ lit "{" ++ quote (lit "cu_" ++ to_dec cus.1) ++ lit ": [" in
  let ss := ss ++ (map_items cus.2 ≫= λ wgs, quote (wg_text wgs.1) ++ lit ",") in
  let total_waves := foldr (λ wgs n, Z.of_nat (size wgs.2) + n) 0 (map_items cus.2) in
  let! ss := pop_back ss in
  if bool_decide (cus.2 = ∅) then Err FUB else
  Ok (ss ++ lit "]," ++ quote (lit "avg_wave_count") ++ lit ": " ++
      to_dec (total_waves / Z.of_nat (size cus.2)) ++ lit "},").

Definition render_se (ss : bytes) (ses : Z * gmap Z cu_map) : res bytes :=
  let! ss := res_fold render_cu (ss ++ lit "{" ++ quote (lit "se_" ++ to_dec ses.1) ++ lit ": [")
               (map_items ses.2) in
  let! ss := pop_back ss in
  Ok (ss ++ lit "]},").

Definition render_xcc (ss : bytes) (xccs : Z * gmap Z (gmap Z cu_map)) : res bytes :=
  let! ss := res_fold render_se (ss ++ lit "{" ++ quote (lit "xcc_" ++ to_dec xccs.1) ++ lit ": [")
               (map_items xccs.2) in
  let! ss := pop_back ss in
  Ok (ss ++ lit "]},").

Definition renderComputeResources (kernel : bytes) (dispatch_id : Z) (r : compute_resources_t)
    : res bytes :=
  let! ss := res_fold render_xcc
    (lit "{" ++ quote (lit "kernel") ++ lit ": " ++ quote kernel ++ lit ", " ++
     quote (lit "dispatch") ++ lit ": " ++ to_dec dispatch_id ++ lit ", " ++
     quote (lit "resources") ++ lit ":[") (map_items r) in
  let! ss := pop_back ss in
  Ok (ss ++ lit "]}" ++ [newline]).

Definition cu_value (cus : Z * cu_map) : json :=
  JObj [(lit "cu_" ++ to_dec cus.1, JArr ((λ wgs, JStr (wg_text wgs.1)) <$> map_items cus.2));
        (lit "avg_wave_count", JNum (to_dec
          (foldr (λ wgs n, Z.of_nat (size wgs.2) + n) 0 (map_items cus.2) /
           Z.of_nat (size cus.2))))].
Definition se_value (ses : Z * gmap Z cu_map) : json :=
  JObj [(lit "se_" ++ to_dec ses.1, JArr (cu_value <$> map_items ses.2))].
Definition xcc_value (xccs : Z * gmap Z (gmap Z cu_map)) : json :=
  JObj [(lit "xcc_" ++ to_dec xccs.1, JArr (se_value <$> map_items xccs.2))].
Definition resources_value (kernel : bytes) (dispatch_id : Z) (r : compute_resources_t) : json :=
  JObj [(lit "kernel", JStr kernel); (lit "dispatch", JNum (to_dec dispatch_id));
        (lit "resources", JArr (xcc_value <$> map_items r))].

Lemma plain_app s t : plain s → plain t → plain (s ++ t).
Proof. intros. by apply Forall_app. Qed.
Lemma plain_to_dec n : 0 ≤ n → plain (to_dec n).
Proof.
  intros Hn. eapply list.Forall_impl; [by apply to_dec_digits|]. intros c Hc.
  by destruct c as [[] [] [] [] [] [] [] []].
Qed.
Lemma le_value_nonneg s : 0 ≤ le_value s.
Proof. induction s; cbn; lia. Qed.
Lemma wg_text_plain k : plain (wg_text k).
Proof.
  unfold wg_text. repeat apply plain_app; try (by apply plain_lit);
    apply plain_to_dec, le_value_nonneg.
Qed.

Lemma pop_back_comma s : pop_back (s ++ lit ",") = Ok s.
Proof. apply pop_back_snoc. Qed.

(** A loop that appends one JSON value and a comma per element. *)
Lemma comma_loop {A} (body : bytes → A → res bytes) (value : A → json) l ss :
  l ≠ [] →
  (∀ x s, x ∈ l → ∃ t, json_val (value x) t ∧ body s x = Ok (s ++ t ++ lit ",")) →
  ∃ m, res_fold body ss l = Ok (ss ++ m ++ lit ",") ∧ json_elems (value <$> l) m.
Proof.
  intros Hne Hb.
  assert (∃ ts, res_fold body ss l = Ok (ss ++ (ts ≫= λ t, t ++ lit ",")) ∧
    Forall2 json_val (value <$> l) ts) as (ts & Hf & Hts).
  { clear Hne. revert ss. induction l as [|x l IH]; intros ss; cbn [res_fold].
    { exists []. rewrite app_nil_r. split; [done|constructor]. }
    destruct (Hb x ss ltac:(by left)) as (t & Hv & ->). cbn [res_bind].
    destruct (IH ltac:(intros y s Hy; apply Hb; by right) (ss ++ t ++ lit ",")) as (ts & -> & Hts).
    exists (t :: ts). split; [|by constructor]. rewrite bind_cons. by rewrite <-!app_assoc. }
  destruct (elems_of_texts (value <$> l) ts) as (m & Hm & He); [|done|].
  { intros ->. inversion Hts as [Hn|]. by apply Hne, (fmap_nil_inv value). }
  exists m. by rewrite Hf, Hm.
Qed.

Lemma wg_elems (wgs : cu_map) :
  wgs ≠ ∅ →
  ∃ m, (map_items wgs ≫= λ p, quote (wg_text p.1) ++ lit ",") = m ++ lit "," ∧
    json_elems ((λ p, JStr (wg_text p.1)) <$> map_items wgs) m.
Proof.
  intros Hne.
  destruct (elems_of_texts ((λ p, JStr (wg_text p.1)) <$> map_items wgs)
    ((λ p, quote (wg_text p.1)) <$> map_items wgs)) as (m & Hm & He).
  - intros ?%fmap_nil_inv%map_items_nil. done.
  - apply Forall2_fmap_2, Forall_Forall2_diag, list.Forall_forall. intros p _. constructor.
    apply wg_text_plain.
  - exists m. split; [|done]. by rewrite list_fmap_bind in Hm.
Qed.

Lemma array_object k vs m :
  plain k → json_elems vs m → json_val (JObj [(k, JArr vs)]) (lit "{" ++ quote k ++ lit ": [" ++ m ++ lit "]}").
Proof.
  intros Hk He.
  assert (lit "{" ++ quote k ++ lit ": [" ++ m ++ lit "]}" =
    wobj [WField [] k (JArr vs) (lit "[" ++ m ++ lit "]") []]) as ->.
  { unfold wobj, wfields_text, wfield_text. cbn. repeat (rewrite <-app_assoc; cbn). done. }
  apply wobj_denotes; [done|done|]. apply Forall_singleton. split; [constructor|].
  split; [done|]. split; [by apply jv_arr|constructor].
Qed.

Lemma render_cu_val cus ss :
  0 ≤ cus.1 → cus.2 ≠ ∅ →
  ∃ t, json_val (cu_value cus) t ∧ render_cu ss cus = Ok (ss ++ t ++ lit ",").
Proof.
  intros Hc Hne. destruct (wg_elems cus.2 Hne) as (m & Hm & He).
  set (n := foldr (λ wgs n, Z.of_nat (size wgs.2) + n) 0 (map_items cus.2) / Z.of_nat (size cus.2)).
  assert (0 ≤ n) as Hn.
  { apply Z_div_nonneg_nonneg; [|lia]. generalize (map_items cus.2). clear.
    intros l. induction l; cbn; lia. }
  exists (wobj [WField [] (lit "cu_" ++ to_dec cus.1)
                  (JArr ((λ wgs, JStr (wg_text wgs.1)) <$> map_items cus.2)) (lit "[" ++ m ++ lit "]") [];
                wnum [] (lit "avg_wave_count") n []]).
  split.
  - apply wobj_denotes; [done|done|]. apply Forall_cons_2.
    + split; [constructor|]. split; [|split; [by apply jv_arr|constructor]].
      apply plain_app; [by apply plain_lit|by apply plain_to_dec].
    + solve_wfields.
  - unfold render_cu. rewrite Hm. rewrite (app_assoc _ m), pop_back_comma. cbn [res_bind].
    rewrite bool_decide_eq_false_2 by done. fold n. f_equal.
    unfold wobj, wfields_text, wfield_text, wnum. cbn. repeat (rewrite <-app_assoc; cbn). done.
Qed.

(** Nonnegative keys, nothing empty. *)
Definition resources_ok (r : compute_resources_t) : Prop :=
  ∀ xcc ses, r !! xcc = Some ses → 0 ≤ xcc ∧ ses ≠ ∅ ∧
    ∀ se cus, ses !! se = Some cus → 0 ≤ se ∧ cus ≠ ∅ ∧
      ∀ cu wgs, cus !! cu = Some wgs → 0 ≤ cu ∧ wgs ≠ ∅.

Lemma resources_ok_update hdr r :
  resources_ok r → nonempty_levels r → resources_ok (updateComputeResources hdr r).
Proof.
  intros Hr Hne. apply (nonempty_levels_update hdr) in Hne. rewrite update_nested in *. cbn zeta in *.
  assert (∀ x, 0 ≤ u16 x) as H16 by (intros x; by apply wrap_bound).
  intros xcc ses Hs. destruct (Hne _ _ Hs) as [Hses Hne1]. split; [|split; [done|]].
  { apply lookup_insert_Some in Hs as [[<- _]|[_ Hs]]; [done|by apply (Hr xcc ses)]. }
  intros se cus Hc. destruct (Hne1 _ _ Hc) as [Hcus Hne2]. split; [|split; [done|]].
  - apply lookup_insert_Some in Hs as [[<- <-]|[_ Hs]]; [|by apply (Hr xcc ses Hs) in Hc as []].
    apply lookup_insert_Some in Hc as [[<- _]|[_ Hc]]; [done|].
    destruct (r !! _) as [ses0|] eqn:E; cbn in Hc; [|by rewrite lookup_empty in Hc].
    by apply (Hr _ _ E) in Hc as [].
  - intros cu wgs Hw. destruct (Hne2 _ _ Hw) as [Hwgs _]. split; [|done].
    apply lookup_insert_Some in Hs as [[<- <-]|[_ Hs]].
    2:{ destruct (Hr _ _ Hs) as (_ & _ & Hr1). destruct (Hr1 _ _ Hc) as (_ & _ & Hr2).
        by apply Hr2 in Hw as []. }
    apply lookup_insert_Some in Hc as [[<- <-]|[_ Hc]].
    2:{ destruct (r !! _) as [ses0|] eqn:E; cbn in Hc; [|by rewrite lookup_empty in Hc].
        destruct (Hr _ _ E) as (_ & _ & Hr1). destruct (Hr1 _ _ Hc) as (_ & _ & Hr2).
        by apply Hr2 in Hw as []. }
    apply lookup_insert_Some in Hw as [[<- _]|[_ Hw]]; [done|].
    destruct (r !! u16 (xcc_id hdr)) as [ses0|] eqn:E; cbn in Hw; [|by rewrite !lookup_empty in Hw].
    destruct (ses0 !! u16 (se_id hdr)) as [cus0|] eqn:E'; cbn in Hw; [|by rewrite lookup_empty in Hw].
    destruct (Hr _ _ E) as (_ & _ & Hr1). destruct (Hr1 _ _ E') as (_ & _ & Hr2).
    by apply Hr2 in Hw as [].
Qed.

Lemma render_se_val ses ss :
  0 ≤ ses.1 → ses.2 ≠ ∅ → (∀ cu wgs, ses.2 !! cu = Some wgs → 0 ≤ cu ∧ wgs ≠ ∅) →
  ∃ t, json_val (se_value ses) t ∧ render_se ss ses = Ok (ss ++ t ++ lit ",").
Proof.
  intros Hk Hne Hcu. unfold render_se.
  destruct (comma_loop render_cu cu_value (map_items ses.2)
    (ss ++ lit "{" ++ quote (lit "se_" ++ to_dec ses.1) ++ lit ": [")) as (m & -> & He).
  - by rewrite map_items_nil.
  - intros [cu wgs] s Hin%elem_of_map_items. destruct (Hcu _ _ Hin). by apply render_cu_val.
  - cbn [res_bind]. rewrite (app_assoc _ m), pop_back_comma. cbn [res_bind].
    eexists. split; [apply array_object; [|exact He]|].
    + apply plain_app; [by apply plain_lit|by apply plain_to_dec].
    + f_equal. cbn. repeat (rewrite <-app_assoc; cbn). done.
Qed.

Lemma render_xcc_val xccs ss :
  0 ≤ xccs.1 → xccs.2 ≠ ∅ →
  (∀ se cus, xccs.2 !! se = Some cus → 0 ≤ se ∧ cus ≠ ∅ ∧
     ∀ cu wgs, cus !! cu = Some wgs → 0 ≤ cu ∧ wgs ≠ ∅) →
  ∃ t, json_val (xcc_value xccs) t ∧ render_xcc ss xccs = Ok (ss ++ t ++ lit ",").
Proof.
  intros Hk Hne Hse. unfold render_xcc.
  destruct (comma_loop render_se se_value (map_items xccs.2)
    (ss ++ lit "{" ++ quote (lit "xcc_" ++ to_dec xccs.1) ++ lit ": [")) as (m & -> & He).
  - by rewrite map_items_nil.
  - intros [se cus] s Hin%elem_of_map_items. destruct (Hse _ _ Hin) as (? & ? & ?).
    by apply render_se_val.
  - cbn [res_bind]. rewrite (app_assoc _ m), pop_back_comma. cbn [res_bind].
    eexists. split; [apply array_object; [|exact He]|].
    + apply plain_app; [by apply plain_lit|by apply plain_to_dec].
    + f_equal. cbn. repeat (rewrite <-app_assoc; cbn). done.
Qed.

(** The resource report is one line of JSON: when at least one wave was seen
    and no level of the nesting is empty, [renderComputeResources] has no fault,
    and a JSON reader gets back kernel, dispatch and, in order, every XCC, shader
    engine and compute unit with its workgroups and average wave count.  With no
    wave at all the comma-removing step eats the bracket of the empty list, and
    the line is not JSON. *)
Theorem resources_report_json kernel dispatch_id r :
  plain kernel → 0 ≤ dispatch_id → resources_ok r →
  (r ≠ ∅ → ∃ text, renderComputeResources kernel dispatch_id r = Ok text ∧
     parse_json text = Some (resources_value kernel dispatch_id r)) ∧
  (∃ text, renderComputeResources (lit "k") 1 ∅ = Ok text ∧ parse_json text = None).
Proof.
  intros Hk Hd Hr. split; [|eexists; split; vm_compute; reflexivity].
  intros Hne. unfold renderComputeResources.
  destruct (comma_loop render_xcc xcc_value (map_items r)
    (lit "{" ++ quote (lit "kernel") ++ lit ": " ++ quote kernel ++ lit ", " ++
     quote (lit "dispatch") ++ lit ": " ++ to_dec dispatch_id ++ lit ", " ++
     quote (lit "resources") ++ lit ":[")) as (m & -> & He).
  - by rewrite map_items_nil.
  - intros [xcc ses] s Hin%elem_of_map_items. destruct (Hr _ _ Hin) as (? & ? & ?).
    by apply render_xcc_val.
  - cbn [res_bind]. rewrite (app_assoc _ m), pop_back_comma. cbn [res_bind].
    eexists. split; [reflexivity|].
    set (arr := lit "[" ++ m ++ lit "]").
    assert (json_members [(lit "kernel", JStr kernel); (lit "dispatch", JNum (to_dec dispatch_id));
        (lit "resources", JArr (xcc_value <$> map_items r))]
      ([] ++ quote (lit "kernel") ++ [] ++ lit ":" ++ lit " " ++ quote kernel ++ [] ++ lit "," ++
       lit " " ++ quote (lit "dispatch") ++ [] ++ lit ":" ++ lit " " ++ to_dec dispatch_id ++ [] ++
       lit "," ++ lit " " ++ quote (lit "resources") ++ [] ++ lit ":" ++ [] ++ arr ++ [])) as Hm.
    { apply jm_cons; [by apply plain_lit|by constructor| |by repeat constructor..].
      apply jm_cons; [by apply plain_lit|by apply to_dec_number| |by repeat constructor..].
      apply jm_one; [by apply plain_lit|by apply jv_arr|by repeat constructor..]. }
    apply jv_obj in Hm.
    pose proof (parse_json_ws [] _ _ [newline] Hm) as Hp. unfold resources_value.
    rewrite <-Hp by (by repeat constructor). apply (f_equal parse_json). clear.
    unfold arr, quote. cbn [app]. repeat (rewrite <-app_assoc; cbn [app]). reflexivity.
Qed.

(** ** Witnesses *)
Section examples.
#[local] Existing Instance dh_comms_values.
#[local] Existing Instance kernel_db_values.

(** A kernel of two blocks, at addresses 100 and 200; the second one ends it. *)
Definition two_blocks : table_kdb :=
  TableKdb [(lit "k", Instruction (lit "v_add") [] 1 0 0 100);
            (lit "k", Instruction (lit "s_endpgm") [] 2 0 0 200)]
           [(0, lit "a.cpp")] [(lit "k", [100; 200])].

Definition bb_message (block ts : Z) : message_t :=
  Message (WaveHeader 2 block 255 ts 0 0 0 1 7 0 0 3 0 1 2 8) 0 [].

Lemma block_time_conserved_witness :
  match bb_run (lit "k") two_blocks new_basic_block_analysis
          [([], bb_message 0 10); ([], bb_message 0 25); ([], bb_message 1 40)] with
  | Ok st => block_info_ st !! 100 = Some (BlockInfo 16 2 30 0) ∧ block_info_ st !! 200 = None ∧
             u64 (map_sum (duration_ <$> block_info_ st)) = 30 ∧
             u64 (map_sum (count_ <$> block_info_ st)) = 2
  | Err _ => False
  end.
Proof.
  destruct (bb_run (lit "k") two_blocks new_basic_block_analysis
    [([], bb_message 0 10); ([], bb_message 0 25); ([], bb_message 1 40)]) as [st|f] eqn:Hr.
  - destruct (block_time_conserved (lit "k") two_blocks
      [([], bb_message 0 10); ([], bb_message 0 25); ([], bb_message 1 40)] st) as (Hb & _ & Ht & Hc & _).
    + repeat constructor; discriminate.
    + exact Hr.
    + rewrite !Hb, Ht, Hc. vm_compute. repeat split; reflexivity.
  - vm_compute in Hr. discriminate Hr.
Defined.

Lemma wave_identity_needs_padding_witness :
  match bb_run (lit "k") two_blocks new_basic_block_analysis
          [([nul; nul; nul], bb_message 0 10); ([nul; nul; tab], bb_message 0 25)] with
  | Ok st => map_sum (count_ <$> block_info_ st) `mod` 2 ^ 64 = 0
  | Err _ => False
  end.
Proof.
  destruct (bb_run (lit "k") two_blocks new_basic_block_analysis
    [([nul; nul; nul], bb_message 0 10); ([nul; nul; tab], bb_message 0 25)]) as [st|f] eqn:Hr.
  - apply (wave_identity_needs_padding (lit "k") two_blocks [nul; nul; nul] [nul; nul; tab]
      (bb_message 0 10) (bb_message 0 25) st).
    + repeat constructor; discriminate.
    + reflexivity.
    + vm_compute. by eexists.
    + vm_compute. by eexists.
    + exact Hr.
  - vm_compute in Hr. discriminate Hr.
Defined.

Lemma resources_report_json_witness :
  let r := updateComputeResources (wave_header (bb_message 0 10)) ∅ in
  ∃ text, renderComputeResources (lit "k") 1 r = Ok text ∧
    parse_json text = Some (resources_value (lit "k") 1 r).
Proof.
  intros r. apply (resources_report_json (lit "k") 1 r).
  - by apply plain_lit.
  - lia.
  - apply resources_ok_update; intros ? ? H; by rewrite lookup_empty in H.
  - unfold r. rewrite update_nested. apply insert_non_empty.
Defined.
End examples.
