(* ===== verification/BasicBlockReport.v ===== *)
(** * The basic block report

    [report] of src/src/basic_block_analysis.cc: resources, kernel summary and one
    record per block, as CSV or JSON.  [std::sort] leaves the order of equally
    frequent instructions open; the model sorts stably. *)
From Stdlib Require Import SpecFloat.
From S2P Require Import Prelude StdString Message Json Doubles BasicBlock.

(** ** [renderJSON] of inc/basic_block_analysis.h

    The two overloads append to a stream; [it] is what is left between the
    iterator and the end, and the comma depends on whether it has reached it. *)
Section overloads.
Context `{Stream T}.

Fixpoint render_rest (quoted omitFinalComma : bool) (it : list (bytes * T)) (out : bytes) : bytes :=
  match it with
  | [] => out
  | (first, second) :: it =>
      let out := out ++ quote first ++ lit ": " ++ maybe_quote quoted (stream_out false second) in
      let out := if negb (bool_decide (it = [])) || negb omitFinalComma then out ++ lit "," else out in
      render_rest quoted omitFinalComma it out
  end.

(** [is_string]: the type of the values is [std::string]. *)
Definition renderJSON_map (is_string : bool) (fields : gmap bytes T) (out : bytes) (omitFinalComma : bool) : bytes :=
  render_rest is_string omitFinalComma (map_items fields) out.
Definition renderJSON_pairs (fields : list (bytes * T)) (out : bytes) (omitFinalComma valueAsString : bool) : bytes :=
  render_rest valueAsString omitFinalComma fields out.

(** They append what the templates of inc/json_helpers.h print. *)
Lemma render_rest_text quoted omit it out : render_rest quoted omit it out = out ++ renderJSON it omit quoted.
Proof.
  revert out. induction it as [|[k v] it IH]; intros out; cbn [render_rest renderJSON]; [by rewrite app_nil_r|].
  rewrite IH. destruct (_ || _); by rewrite <-!app_assoc.
Qed.
End overloads.

Section report.
Context `{DC : DhComms, KD : KernelDB kdb}.
Variable db : kdb.
Variables (kernel_name strKernel : bytes) (dispatch_id : Z).

(** [1.0 - threads / (count * 64.0)] *)
Definition branchiness (threads count : Z) : double :=
  dsub (double_of_Z 1) (ddiv (double_of_Z threads) (dmul (double_of_Z count) (double_of_Z 64))).

(** The three sums over all blocks. *)
Definition block_sums (info : gmap Z blockInfo_t) : Z * Z * Z :=
  foldl (λ s b, (u64 (s.1.1 + duration_ b.2), u64 (s.1.2 + count_ b.2), u64 (s.2 + thread_count_ b.2)))
    (0, 0, 0) (map_items info).

(** Vector instructions count threads, others count executions. *)
Definition count_instruction (b : blockInfo_t) (counts : gmap bytes Z) (inst : instruction_t)
    : res (gmap bytes Z) :=
  let! _ := getFileName db kernel_name (path_id_ inst) in
  let n := if starts_with (lit "v_") (inst_ inst) then thread_count_ b else count_ b in
  Ok (match counts !! inst_ inst with
      | Some c => <[inst_ inst := u64 (c + n)]> counts
      | None => <[inst_ inst := n]> counts
      end).

Definition by_count (a b : bytes * Z) : Prop := b.2 ≤ a.2.
#[local] Instance by_count_dec : RelDecision by_count.
Proof. intros a b. unfold by_count. apply _. Defined.
Definition sorted_counts (counts : gmap bytes Z) : list (bytes * Z) :=
  merge_sort by_count (map_items counts).

Definition csv_block (file : bytes) (first last : instruction_t) (b : blockInfo_t) (overhead : double)
    : bytes :=
  to_dec (line_ first) ++ lit "," ++ to_dec (line_ last) ++ lit "," ++ to_dec (duration_ b) ++
  lit "," ++ file ++ lit "," ++ show_double (branchiness (thread_count_ b) (count_ b)) ++ lit "," ++
  show_double overhead ++ lit "," ++ to_dec (count_ b) ++ [newline].

Definition json_block (file : bytes) (first last : instruction_t) (b : blockInfo_t)
    (overhead kernel_branchiness : double) (inst_results : list (bytes * Z)) : bytes :=
  let strings : gmap bytes bytes :=
    <[lit "kernel_file_name" := file]> (<[lit "kernel" := strKernel]> ∅) in
  let bigints : gmap bytes Z :=
    <[lit "block_duration" := duration_ b]> (<[lit "block_end_line" := line_ last]>
      (<[lit "block_start_line" := line_ first]> (<[lit "dispatch_id" := dispatch_id]> ∅))) in
  let doubles : gmap bytes double :=
    <[lit "block_count" := double_of_Z (count_ b)]> (<[lit "block_overhead" := overhead]>
      (<[lit "block_branchiness" := branchiness (thread_count_ b) (count_ b)]>
        (<[lit "kernel_branchiness" := kernel_branchiness]> ∅))) in
  let ss := lit "{" in
  let ss := renderJSON_map true strings ss false in
  let ss := renderJSON_map false bigints ss false in
  let ss := renderJSON_map false doubles ss false in
  let ss := ss ++ quote (lit "instructions") ++ lit ": {" in
  let ss := renderJSON_pairs inst_results ss true false in
  ss ++ lit "}" ++ lit "}" ++ [newline].

(** One iteration: the instruction counts go on accumulating over the blocks. *)
Definition report_block (csv : bool) (duration : Z) (kernel_branchiness : double)
    (st : bytes * gmap bytes Z) (p : Z * blockInfo_t) : res (bytes * gmap bytes Z) :=
  let '(out, counts) := st in
  let '(block, b) := p in
  let instructions := getInstructions db block in
  let! counts := res_fold (count_instruction b) counts instructions in
  match instructions, list.last instructions with
  | first :: _, Some last =>
      match getFileName db kernel_name (path_id_ first) with
      | Ok file =>
          let overhead := ddiv (double_of_Z (duration_ b)) (double_of_Z duration) in
          Ok (out ++ (if csv then csv_block file first last b overhead
                      else json_block file first last b overhead kernel_branchiness
                             (sorted_counts counts)), counts)
      | Err (FThrow _) => Ok (out, counts)
      | Err f => Err f
      end
  | _, _ => Err FUB
  end.

Definition csv_summary (kernel_branchiness : double) : bytes :=
  lit "Kernel: " ++ strKernel ++ [newline] ++
  lit "Dispatch: " ++ to_dec dispatch_id ++ [newline] ++
  lit "Branchiness: " ++ show_double kernel_branchiness ++ [newline] ++
  lit "Start Line, End Line, Duration, FileName, Branchiness, Overhead, Count" ++ [newline].

Definition bb_report (csv : bool) (st : bb_state) : res bytes :=
  let! resources := renderComputeResources strKernel dispatch_id (compute_resources_ st) in
  let '(duration, block_exec_count, thread_exec_count) := block_sums (block_info_ st) in
  let kernel_branchiness := branchiness thread_exec_count block_exec_count in
  let! ' (out, _) := res_fold (report_block csv duration kernel_branchiness)
    (resources ++ (if csv then csv_summary kernel_branchiness else []), ∅)
    (map_items (block_info_ st)) in
  Ok out.

(** ** Meaning of a JSON record *)
Definition block_value (file : bytes) (first last : instruction_t) (b : blockInfo_t)
    (overhead kernel_branchiness : double) (inst_results : list (bytes * Z)) : json :=
  JObj [(lit "kernel", JStr strKernel); (lit "kernel_file_name", JStr file);
        (lit "block_duration", JNum (to_dec (duration_ b)));
        (lit "block_end_line", JNum (to_dec (line_ last)));
        (lit "block_start_line", JNum (to_dec (line_ first)));
        (lit "dispatch_id", JNum (to_dec dispatch_id));
        (lit "block_branchiness", JNum (show_double (branchiness (thread_count_ b) (count_ b))));
        (lit "block_count", JNum (show_double (double_of_Z (count_ b))));
        (lit "block_overhead", JNum (show_double overhead));
        (lit "kernel_branchiness", JNum (show_double kernel_branchiness));
        (lit "instructions", JObj ((λ p, (p.1, JNum (to_dec p.2))) <$> inst_results))].

(** The strings need no escaping, the numbers are not negative, and the doubles
    are finite. *)
Record block_ok (file : bytes) (first last : instruction_t) (b : blockInfo_t)
    (overhead kernel_branchiness : double) (inst_results : list (bytes * Z)) : Prop := {
  bo_kernel : plain strKernel;
  bo_file : plain file;
  bo_duration : 0 ≤ duration_ b;
  bo_last : 0 ≤ line_ last;
  bo_first : 0 ≤ line_ first;
  bo_dispatch : 0 ≤ dispatch_id;
  bo_branch : finite_double (branchiness (thread_count_ b) (count_ b));
  bo_count : finite_double (double_of_Z (count_ b));
  bo_overhead : finite_double overhead;
  bo_kernel_branch : finite_double kernel_branchiness;
  bo_insts : Forall (λ p, plain p.1 ∧ 0 ≤ p.2) inst_results;
  bo_some : inst_results ≠ [];
}.

(** The members of a record, in order, with their values and texts; [m] is the
    text of the members of [instructions]. *)
Definition num_field (k : bytes) (z : Z) : bytes * json * bytes := (k, JNum (to_dec z), to_dec z).
Definition double_field (k : bytes) (x : double) : bytes * json * bytes :=
  (k, JNum (show_double x), show_double x).
Definition instruction_fields (inst_results : list (bytes * Z)) : list (bytes * json * bytes) :=
  (λ p, num_field p.1 p.2) <$> inst_results.
Definition scalar_fields file (first last : instruction_t) (b : blockInfo_t) (overhead kb : double)
    : list (bytes * json * bytes) :=
  [(lit "kernel", JStr strKernel, quote strKernel); (lit "kernel_file_name", JStr file, quote file)] ++
  [num_field (lit "block_duration") (duration_ b); num_field (lit "block_end_line") (line_ last);
   num_field (lit "block_start_line") (line_ first); num_field (lit "dispatch_id") dispatch_id] ++
  [double_field (lit "block_branchiness") (branchiness (thread_count_ b) (count_ b));
   double_field (lit "block_count") (double_of_Z (count_ b));
   double_field (lit "block_overhead") overhead; double_field (lit "kernel_branchiness") kb].
Definition instructions_field (inst_results : list (bytes * Z)) (m : bytes) : bytes * json * bytes :=
  (lit "instructions", JObj (instruction_fields inst_results).*1, lit "{" ++ m ++ lit "}").

Lemma instruction_fields_ok file first last b overhead kb inst_results :
  block_ok file first last b overhead kb inst_results → Forall field_ok (instruction_fields inst_results).
Proof.
  intros []. apply Forall_fmap. eapply list.Forall_impl; [exact bo_insts0|]. intros p [Hp Hz].
  split; [done|by apply to_dec_number].
Qed.

Lemma num_field_ok k z : plain (lit k) → 0 ≤ z → field_ok (num_field (lit k) z).
Proof. intros Hk Hz. split; [done|by apply to_dec_number]. Qed.
Lemma double_field_ok k x : plain (lit k) → finite_double x → field_ok (double_field (lit k) x).
Proof. intros Hk Hx. split; [done|by apply show_double_val]. Qed.

Lemma scalar_fields_ok file first last b overhead kb inst_results :
  block_ok file first last b overhead kb inst_results →
  Forall field_ok (scalar_fields file first last b overhead kb).
Proof.
  intros []. unfold scalar_fields. repeat (apply Forall_app_2 || apply Forall_cons_2 || apply list.Forall_nil_2);
    try (apply num_field_ok; [by apply plain_lit|done]);
    try (apply double_field_ok; [by apply plain_lit|done]); (split; [by apply plain_lit|by constructor]).
Qed.

(** The maps of a record, in the order of their keys. *)
Lemma string_items (file kernel : bytes) :
  map_items (<[lit "kernel_file_name" := file]> (<[lit "kernel" := kernel]> (∅ : gmap bytes bytes))) =
  [(lit "kernel", kernel); (lit "kernel_file_name", file)].
Proof. vm_compute. reflexivity. Qed.
Lemma bigint_items (duration end_line start_line id : Z) :
  map_items (<[lit "block_duration" := duration]> (<[lit "block_end_line" := end_line]>
    (<[lit "block_start_line" := start_line]> (<[lit "dispatch_id" := id]> (∅ : gmap bytes Z))))) =
  [(lit "block_duration", duration); (lit "block_end_line", end_line); (lit "block_start_line", start_line);
   (lit "dispatch_id", id)].
Proof. vm_compute. reflexivity. Qed.
Lemma double_items (count overhead branchiness kernel_branchiness : double) :
  map_items (<[lit "block_count" := count]> (<[lit "block_overhead" := overhead]>
    (<[lit "block_branchiness" := branchiness]>
      (<[lit "kernel_branchiness" := kernel_branchiness]> (∅ : gmap bytes double))))) =
  [(lit "block_branchiness", branchiness); (lit "block_count", count); (lit "block_overhead", overhead);
   (lit "kernel_branchiness", kernel_branchiness)].
Proof. vm_compute. reflexivity. Qed.

(** The text of a record is the text of its members. *)
Lemma json_block_text file first last b overhead kb inst_results m m' :
  inst_results ≠ [] →
  instruction_fields inst_results ≫= field_text = m ++ lit "," →
  (scalar_fields file first last b overhead kb ++ [instructions_field inst_results m]) ≫= field_text
    = m' ++ lit "," →
  json_block file first last b overhead kb inst_results = (lit "{" ++ m' ++ lit "}") ++ [newline].
Proof.
  intros Hne Hm Hm'. unfold json_block, renderJSON_map, renderJSON_pairs. cbv zeta.
  rewrite string_items, bigint_items, double_items, !render_rest_text, !renderJSON_commas.
  assert (renderJSON inst_results true false = m) as ->.
  { assert (instruction_fields inst_results ≫= field_text = inst_results ≫= render_text false) as Hi.
    { unfold instruction_fields. by rewrite list_fmap_bind. }
    rewrite Hi, <-renderJSON_commas, renderJSON_final in Hm by done.
    by apply app_inj_2 in Hm as [? _]. }
  assert ([instructions_field inst_results m] ≫= field_text =
    (quote (lit "instructions") ++ lit ": {" ++ m ++ lit "}") ++ lit ",") as Ho.
  { cbn [mbind list_bind]. rewrite app_nil_r. unfold field_text, instructions_field. cbn [fst snd].
    by rewrite <-!app_assoc. }
  unfold scalar_fields in Hm'. rewrite !bind_app, Ho, !app_assoc in Hm'. apply app_inj_2 in Hm' as [Hm' _]; [|done].
  rewrite <-Hm', <-!app_assoc. reflexivity.
Qed.

(** A JSON record of the block report: when names need no escaping and every
    double printed is finite, the line is one JSON object, which a JSON reader
    turns into the block's kernel, file, lines, duration and counters and an
    object with one count per instruction. *)
Theorem json_block_denotes file first last b overhead kb inst_results :
  block_ok file first last b overhead kb inst_results →
  parse_json (json_block file first last b overhead kb inst_results) =
    Some (block_value file first last b overhead kb inst_results).
Proof.
  intros Hok. pose proof (bo_some _ _ _ _ _ _ _ Hok) as Hne.
  destruct (members_of_fields (instruction_fields inst_results)) as (m & Hm & Hmem);
    [by destruct inst_results|by eapply instruction_fields_ok|].
  destruct (members_of_fields (scalar_fields file first last b overhead kb ++ [instructions_field inst_results m]))
    as (m' & Hm' & Hmem'); [done| |].
  { apply Forall_app_2; [by eapply scalar_fields_ok|]. apply Forall_cons_2; [|by apply list.Forall_nil_2].
    split; [by apply plain_lit|by apply jv_obj]. }
  rewrite (json_block_text _ _ _ _ _ _ _ _ _ Hne Hm Hm').
  apply (parse_json_ws [] (block_value file first last b overhead kb inst_results) _ [newline]);
    [|constructor|by repeat constructor].
  assert (block_value file first last b overhead kb inst_results =
    JObj (scalar_fields file first last b overhead kb ++ [instructions_field inst_results m]).*1) as ->.
  { unfold block_value, instructions_field, instruction_fields. cbn. by rewrite <-list_fmap_compose. }
  by apply jv_obj.
Qed.

(** ** The report of a run never faults *)

(** Every block the handler refers to has instructions; resource keys are
    nonnegative and no level is empty. *)
Record bb_wf (st : bb_state) : Prop := {
  bw_waves : map_Forall (λ _ ws, getInstructions db (ws_current_block ws) ≠ []) (wave_states_ st);
  bw_blocks : ∀ k b, block_info_ st !! k = Some b → getInstructions db k ≠ [];
  bw_resources : resources_ok (compute_resources_ st);
}.

Lemma bb_handle_wf padding m st st' b :
  bb_wf st → nonempty_levels (compute_resources_ st) →
  bb_handle kernel_name (Some db) padding m st = Ok (b, st') →
  bb_wf st' ∧ nonempty_levels (compute_resources_ st').
Proof.
  intros [Hw Hb Hr] Hne Hh. unfold bb_handle, enter_basic_block in Hh.
  assert (nonempty_levels (updateComputeResources (wave_header m) (compute_resources_ st))) as Hne'
    by (by apply nonempty_levels_update).
  assert (resources_ok (updateComputeResources (wave_header m) (compute_resources_ st))) as Hr'
    by (by apply resources_ok_update).
  destruct (getBasicBlocks db kernel_name) as [blocks|f]; cbn [res_bind] in Hh.
  2:{ destruct f; try done. injection Hh as <- <-. by split. }
  destruct (blocks !! _) as [blk|]; [|done].
  case_bool_decide as Hi; [by injection Hh as <- <-; split|].
  destruct (user_type _ =? mt_time_interval); [done|]. cbn [wave_states_ block_info_] in Hh.
  destruct (wave_states_ st !! _) as [ws|] eqn:Hws.
  - destruct (countSetBits _) as [threads|f]; cbn [res_bind] in Hh;
      [|destruct f; try done; injection Hh as <- <-; by split].
    injection Hh as <- <-. split; [|done]. split; cbn; [| |done].
    + destruct (is_endpgm _); [by apply map_Forall_delete|by apply map_Forall_insert_2].
    + intros k b'. pose proof (Hw _ _ Hws) as Hcur. cbn in Hcur. unfold end_block.
      destruct (block_info_ st !! ws_current_block ws);
        intros [[<- _]|[_ Hk]]%lookup_insert_Some; [done|by eapply Hb|done|by eapply Hb].
  - injection Hh as <- <-. split; [|done]. split; cbn; [by apply map_Forall_insert_2|done|done].
Qed.

Lemma count_instructions_ok b insts counts :
  (∀ i, is_Ok (getFileName db kernel_name i)) →
  ∃ counts', res_fold (count_instruction b) counts insts = Ok counts'.
Proof.
  intros Hf. revert counts. induction insts as [|i insts IH]; intros counts; cbn; [by eexists|].
  unfold count_instruction at 1. destruct (Hf (path_id_ i)) as [? ->]. cbn. apply IH.
Qed.

(** From message to report: whatever messages a handler with a database has
    processed, its report, in either format, neither divides by zero, nor reads
    an empty instruction list, nor pops from an empty string, as long as the
    database knows the source files. *)
Theorem bb_report_never_faults xs st csv :
  (∀ i, is_Ok (getFileName db kernel_name i)) →
  bb_run kernel_name db new_basic_block_analysis xs = Ok st →
  ∃ text, bb_report csv st = Ok text.
Proof.
  intros Hf Hrun.
  assert (bb_wf st ∧ nonempty_levels (compute_resources_ st)) as [[_ Hb Hr] Hne].
  { unfold bb_run in Hrun. eapply (res_fold_inv (λ s, bb_wf s ∧ nonempty_levels (compute_resources_ s)));
      [| |exact Hrun].
    - intros x s0 s1 _ [Hw Hn] Hx.
      destruct (bb_handle kernel_name (Some db) x.1 x.2 s0) as [[b s]|] eqn:Hh; [|done].
      cbn in Hx. injection Hx as <-. by eapply bb_handle_wf.
    - split; [split; cbn|].
      + apply map_Forall_empty.
      + intros k b Hk. by rewrite lookup_empty in Hk.
      + intros ? ? Hk. by rewrite lookup_empty in Hk.
      + intros ? ? Hk. cbn in Hk. by rewrite lookup_empty in Hk. }
  unfold bb_report.
  assert (∃ t, renderComputeResources strKernel dispatch_id (compute_resources_ st) = Ok t) as [t ->].
  { unfold renderComputeResources. destruct (decide (compute_resources_ st = ∅)) as [->|Hne'].
    - rewrite map_items_empty. cbn [res_fold res_bind]. set (s := _ ++ _).
      assert (∃ x, pop_back s = Ok x) as [x ->] by (by eexists). by eexists.
    - match goal with |- context [res_fold render_xcc ?ss _] =>
        destruct (comma_loop render_xcc xcc_value (map_items (compute_resources_ st)) ss)
          as (m & -> & _) end.
      + by rewrite map_items_nil.
      + intros [xcc ses] s Hin%elem_of_map_items. destruct (Hr _ _ Hin) as (? & ? & ?).
        by apply render_xcc_val.
      + cbn [res_bind]. rewrite (app_assoc _ m), pop_back_comma. by eexists. }
  cbn [res_bind]. destruct (block_sums (block_info_ st)) as [[d c] th].
  match goal with |- context [res_fold ?body ?init ?l] =>
    assert (∀ s, (∀ p, p ∈ l → getInstructions db p.1 ≠ []) → ∃ s', res_fold body s l = Ok s') as H end.
  { generalize (map_items (block_info_ st)). intros l. induction l as [|[k b] l IH]; intros [out counts] Hl;
      cbn [res_fold]; [by eexists|]. unfold report_block at 1.
    destruct (count_instructions_ok b (getInstructions db k) counts Hf) as [counts' ->]. cbn [res_bind].
    assert (getInstructions db k ≠ []) as Hi by (apply (Hl (k, b)); by left).
    destruct (getInstructions db k) as [|i insts]; [done|].
    destruct (list.last (i :: insts)) as [j|] eqn:Hj; [|by apply last_None in Hj].
    destruct (Hf (path_id_ i)) as [file ->]. cbn [res_bind]. apply IH. intros p Hp. apply Hl. by right. }
  match goal with |- context [res_fold ?body ?init _] => destruct (H init) as [[out counts'] ->] end.
  - intros [k b] Hin%elem_of_map_items. by eapply Hb.
  - by eexists.
Qed.
End report.

(** ** Witnesses *)
Section examples.
#[local] Existing Instance dh_comms_values.
#[local] Existing Instance kernel_db_values.

Lemma json_block_denotes_witness :
  let i := Instruction (lit "v_add") [] 7 1 0 100 in
  let b := BlockInfo 40 1 300 0 in
  parse_json (json_block (lit "k") 1 (lit "a.cpp") i i b (ddiv (double_of_Z 300) (double_of_Z 900))
    (branchiness 40 1) [(lit "v_add", 40)]) =
  Some (block_value (lit "k") 1 (lit "a.cpp") i i b (ddiv (double_of_Z 300) (double_of_Z 900))
    (branchiness 40 1) [(lit "v_add", 40)]).
Proof.
  intros i b. apply (json_block_denotes (lit "k") 1 (lit "a.cpp") i i b
    (ddiv (double_of_Z 300) (double_of_Z 900)) (branchiness 40 1) [(lit "v_add", 40)]).
  split; try (by apply plain_lit); try (vm_compute; discriminate);
    try (vm_compute; repeat split; discriminate).
  - apply Forall_singleton. split; [by apply plain_lit|]. vm_compute. discriminate.
Defined.

Definition one_file : KernelDB table_kdb := {|
  getInstructionsForLine := @getInstructionsForLine _ kernel_db_values;
  getFileName _ _ _ := Ok (lit "a.cpp");
  getBasicBlocks := @getBasicBlocks _ kernel_db_values;
  getInstructions := @getInstructions _ kernel_db_values |}.

Lemma bb_report_never_faults_witness :
  match bb_run (KD := one_file) (lit "k") two_blocks new_basic_block_analysis
          [([], bb_message 0 10); ([], bb_message 1 40)] with
  | Ok st => ∃ text, bb_report (KD := one_file) two_blocks (lit "k") (lit "k") 1 true st = Ok text
  | Err _ => False
  end.
Proof.
  destruct (bb_run (KD := one_file) (lit "k") two_blocks new_basic_block_analysis
    [([], bb_message 0 10); ([], bb_message 1 40)]) as [st|f] eqn:Hr.
  - apply (bb_report_never_faults (KD := one_file) two_blocks (lit "k") (lit "k") 1
      [([], bb_message 0 10); ([], bb_message 1 40)] st true).
    + intros i. by eexists.
    + exact Hr.
  - vm_compute in Hr. discriminate Hr.
Defined.
End examples.
