(* ===== verification/BlockText.v ===== *)
(** * The text helpers of the basic-block analysis

    [src/src/basic_block_analysis.cc]: the lines of a source file, two listings side
    by side, the text of a wave's identity and of the compute resources, and a percentile
    of measurements. *)
From Stdlib Require Import SpecFloat.
From S2P Require Import Prelude StdString Names BasicBlock Json Doubles.

(** ** [readFileLines] *)

(** [while (currentLine < startLine - 1 && std::getline(file, line)) ++currentLine;]
    over the lines still to read. *)
Fixpoint skip_lines (startLine currentLine : Z) (file : list bytes) : Z * list bytes :=
  match file with
  | line :: file' =>
      if currentLine <? u32 (startLine - 1) then skip_lines startLine (u32 (currentLine + 1)) file'
      else (currentLine, file)
  | [] => (currentLine, [])
  end.

(** The second loop collects what it reads. *)
Fixpoint take_lines (endLine currentLine : Z) (file : list bytes) : list bytes :=
  match file with
  | line :: file' =>
      if currentLine <? endLine then line :: take_lines endLine (u32 (currentLine + 1)) file' else []
  | [] => []
  end.

(** [content]: the text of the file, if it opens. *)
Definition readFileLines (filename : bytes) (content : option bytes) (startLine endLine : Z)
    : res (list bytes) :=
  if (startLine =? 0) || (endLine <? startLine) then
    Err (FThrow (lit "Invalid line range: startLine must be >= 1 and <= endLine"))
  else
    match content with
    | None => Err (FThrow (lit "Unable to open file: " ++ filename))
    | Some text =>
        let '(currentLine, rest) := skip_lines startLine 0 (getlines newline text) in
        Ok (take_lines endLine currentLine rest)
    end.

Lemma skip_lines_spec n k file :
  Z.of_nat (k + n) < 2 ^ 32 - 1 → 
  skip_lines (Z.of_nat (k + n) + 1) (Z.of_nat k) file =
    (Z.of_nat (k + n `min` length file), drop n file).
Proof.
  revert k file. induction n as [|n IH]; intros k file Hk.
  - destruct file as [|line file]; cbn; [f_equal; lia|].
    rewrite wrap_small by lia. rewrite (proj2 (Z.ltb_ge _ _)) by lia. f_equal. lia.
  - destruct file as [|line file]; cbn [skip_lines length drop]; [f_equal; lia|].
    rewrite wrap_small by lia. rewrite (proj2 (Z.ltb_lt _ _)) by lia.
    rewrite wrap_small by lia. replace (Z.of_nat k + 1) with (Z.of_nat (S k)) by lia.
    replace (k + S n)%nat with (S k + n)%nat by lia. rewrite IH by lia. f_equal. lia.
Qed.

Lemma take_lines_spec n k file :
  Z.of_nat (k + n) < 2 ^ 32 → take_lines (Z.of_nat (k + n)) (Z.of_nat k) file = take n file.
Proof.
  revert k file. induction n as [|n IH]; intros k [|line file] Hk; cbn [take_lines take]; try done.
  - by rewrite (proj2 (Z.ltb_ge _ _)) by lia.
  - rewrite (proj2 (Z.ltb_lt _ _)) by lia. f_equal. rewrite wrap_small by lia.
    replace (Z.of_nat k + 1) with (Z.of_nat (S k)) by lia.
    replace (k + S n)%nat with (S k + n)%nat by lia. apply IH. lia.
Qed.

(** Exactly the lines of the range are read, as many as the file has. *)
Lemma readFileLines_spec filename text startLine endLine :
  1 ≤ startLine ≤ endLine → endLine < 2 ^ 32 - 1 →
  readFileLines filename (Some text) startLine endLine =
    Ok (take (Z.to_nat (endLine - startLine + 1)) (drop (Z.to_nat (startLine - 1)) (getlines newline text))).
Proof.
  intros Hr Hmax. unfold readFileLines.
  rewrite (proj2 (Z.eqb_neq _ _)), (proj2 (Z.ltb_ge _ _)) by lia. cbn [orb].
  set (file := getlines newline text). set (n := Z.to_nat (startLine - 1)).
  pose proof (skip_lines_spec n 0 file ltac:(lia)) as Hs.
  replace (Z.of_nat (0 + n) + 1) with startLine in Hs by lia. change (Z.of_nat 0) with 0 in Hs.
  rewrite Hs. f_equal. destruct (Nat.le_gt_cases n (length file)) as [Hle|Hgt].
  - rewrite Nat.min_l by done.
    replace endLine with (Z.of_nat (n + Z.to_nat (endLine - startLine + 1))) at 1 by lia.
    apply take_lines_spec. lia.
  - by rewrite drop_ge, take_nil by lia.
Qed.

(** ** [printVectorsSideBySide] *)

(** [std::left << std::setw(w)]. *)
Definition pad_right (w : nat) (s : bytes) : bytes := s ++ replicate (w - length s) " "%char.

Definition max_length (vec : list bytes) : nat := foldl (λ n str, n `max` length str)%nat 0%nat vec.

Definition printVectorsSideBySide (vec1 vec2 : list bytes) : bytes :=
  let maxLen1 := max_length vec1 in
  let maxLen2 := max_length vec2 in
  let maxRows := (length vec1 `max` length vec2)%nat in
  seq 0 maxRows ≫= λ i,
    pad_right (maxLen1 + 2) (default [] (vec1 !! i)) ++
    pad_right (maxLen2 + 2) (default [] (vec2 !! i)) ++ [newline].

Lemma max_length_le vec i str : vec !! i = Some str → (length str ≤ max_length vec)%nat.
Proof.
  unfold max_length. generalize 0%nat.
  assert (∀ l n, n ≤ foldl (λ n str, n `max` length (A := ascii) str) n l)%nat as Hge.
  { intros l. induction l as [|s l IH]; intros n; cbn; [done|]. specialize (IH (n `max` length s)%nat). lia. }
  revert i. induction vec as [|s vec IH]; intros [|i] n; cbn; try done.
  - intros [= ->]. specialize (Hge vec (n `max` length str)%nat). lia.
  - apply IH.
Qed.

Lemma default_length vec i : (length (default [] (vec !! i)) ≤ max_length vec)%nat.
Proof. destruct (vec !! i) eqn:E; cbn; [by eapply max_length_le|lia]. Qed.

Lemma pad_right_length w s : (length s ≤ w)%nat → length (pad_right w s) = w.
Proof. intros H. unfold pad_right. rewrite length_app, length_replicate. lia. Qed.

(** The second column starts at the same place in every row. *)
Lemma side_by_side_aligned vec1 vec2 :
  ∃ rows : list (bytes * bytes),
    printVectorsSideBySide vec1 vec2 = (rows ≫= λ r, r.1 ++ r.2 ++ [newline]) ∧
    length rows = (length vec1 `max` length vec2)%nat ∧
    Forall (λ r, length r.1 = max_length vec1 + 2 ∧ length r.2 = max_length vec2 + 2)%nat rows ∧
    ∀ i r, rows !! i = Some r →
      (∃ k, r.1 = default [] (vec1 !! i) ++ replicate k " "%char) ∧
      (∃ k, r.2 = default [] (vec2 !! i) ++ replicate k " "%char).
Proof.
  set (row := λ i, (pad_right (max_length vec1 + 2) (default [] (vec1 !! i)),
                    pad_right (max_length vec2 + 2) (default [] (vec2 !! i)))).
  exists (row <$> seq 0 (length vec1 `max` length vec2)). split_and!.
  - unfold printVectorsSideBySide. generalize (seq 0 (length vec1 `max` length vec2)).
    intros l. induction l as [|i l IH]; [done|]. cbn. rewrite IH. unfold row. cbn. by rewrite <- !(assoc_L (++)).
  - by rewrite length_fmap, length_seq.
  - apply list.Forall_fmap, list.Forall_forall. intros i _. cbn.
    pose proof (default_length vec1 i). pose proof (default_length vec2 i).
    split; apply pad_right_length; lia.
  - intros i r Hr. rewrite list_lookup_fmap in Hr.
    destruct (seq _ _ !! i) as [j|] eqn:E; [|done]. apply lookup_seq in E as [-> _].
    injection Hr as <-. split; by eexists.
Qed.

(** ** [wave_identifier_to_string] *)
Definition wave_identifier_to_string (block_x block_y block_z wave_id : Z) : bytes :=
  lit "(" ++ to_dec block_x ++ lit "," ++ to_dec block_y ++ lit "," ++ to_dec block_z ++ lit ":" ++
  to_dec wave_id ++ lit ")".

(** The number at the head of a text is read off it. *)
Lemma to_dec_app_inj m n c s d t :
  0 ≤ m → 0 ≤ n → isdigit c = false → isdigit d = false →
  to_dec m ++ c :: s = to_dec n ++ d :: t → m = n ∧ c :: s = d :: t.
Proof.
  intros Hm Hn Hc Hd E. apply (f_equal (scan_digits 0)) in E.
  rewrite !scan_to_dec in E by done. cbn in E. rewrite Hc, Hd in E. by injection E as -> -> ->.
Qed.

Lemma wave_text_inj x y z w x' y' z' w' :
  Forall (Z.le 0) [x; y; z; w; x'; y'; z'; w'] →
  wave_identifier_to_string x y z w = wave_identifier_to_string x' y' z' w' →
  x = x' ∧ y = y' ∧ z = z' ∧ w = w'.
Proof.
  intros H E. rewrite !list.Forall_cons in H. destruct_and!.
  unfold wave_identifier_to_string in E. injection E as E.
  apply to_dec_app_inj in E as [-> E]; [|done..]. injection E as E.
  apply to_dec_app_inj in E as [-> E]; [|done..]. injection E as E.
  apply to_dec_app_inj in E as [-> E]; [|done..]. injection E as E.
  by apply to_dec_app_inj in E as [-> _].
Qed.

(** ** [printComputeResources]: [format] is not looked at *)
Definition indent (n : nat) : bytes := replicate n tab.

Definition print_wg (wgs : bytes * gset Z) : bytes :=
  indent 3 ++ lit "WG[" ++ to_dec (wg_x wgs.1) ++ lit "," ++ to_dec (wg_y wgs.1) ++ lit "," ++
  to_dec (wg_z wgs.1) ++ lit "]:" ++ [newline] ++
  indent 4 ++ lit "Wave Count: " ++ to_dec (Z.of_nat (size wgs.2)) ++ [newline].
Definition print_cu (cus : Z * cu_map) : bytes :=
  indent 2 ++ lit "CU[" ++ to_dec cus.1 ++ lit "]:" ++ [newline] ++ (map_items cus.2 ≫= print_wg).
Definition print_se (ses : Z * gmap Z cu_map) : bytes :=
  indent 1 ++ lit "SE[" ++ to_dec ses.1 ++ lit "]:" ++ [newline] ++ (map_items ses.2 ≫= print_cu).
Definition print_xcc (xccs : Z * gmap Z (gmap Z cu_map)) : bytes :=
  lit "XCC[" ++ to_dec xccs.1 ++ lit "]:" ++ [newline] ++ (map_items xccs.2 ≫= print_se).
Definition printComputeResources (r : compute_resources_t) : bytes := map_items r ≫= print_xcc.

(** One wave of one workgroup. *)
Example printComputeResources_one :
  printComputeResources {[0 := {[1 := {[2 := {[lit "a000b0" := {[5; 6]}]}]}]}]} =
    lit "XCC[0]:" ++ [newline] ++ [tab] ++ lit "SE[1]:" ++ [newline] ++ [tab; tab] ++ lit "CU[2]:" ++
    [newline] ++ [tab; tab; tab] ++ lit "WG[12385,12336,12386]:" ++ [newline] ++
    [tab; tab; tab; tab] ++ lit "Wave Count: 2" ++ [newline].
Proof. vm_compute. reflexivity. Qed.

(** ** [calculatePercentile] *)
Definition dadd : double → double → double := SFadd 53 1024.
Definition dle (a b : double) : Prop := SFleb a b = true.
#[export] Instance dle_dec : RelDecision dle.
Proof. intros a b. unfold dle. apply _. Defined.

Definition is_nan (x : double) : bool := match x with S754_nan => true | _ => false end.

(** [static_cast<size_t>]: the value is truncated; one that does not fit is
    undefined. *)
Definition to_size (x : double) : res Z :=
  match x with
  | S754_zero _ => Ok 0
  | S754_finite s m e =>
      let v := if 0 <=? e then Zpos m * 2 ^ e else Zpos m / 2 ^ (- e) in
      if v =? 0 then Ok 0 else if s : bool then Err FUB else if v <? 2 ^ 64 then Ok v else Err FUB
  | S754_infinity _ | S754_nan => Err FUB
  end.

Definition at_index (data : list double) (i : Z) : res double :=
  match data !! Z.to_nat i with Some x => Ok x | None => Err FUB end.

(** The value, and the vector, which is left sorted; [std::sort] is undefined on
    values that [<] does not order. *)
Definition calculatePercentile (data : list double) (percentile : double) : res (double * list double) :=
  match data with
  | [] => Ok (S754_zero false, [])
  | _ =>
      if existsb is_nan data then Err FUB
      else
        let n := Z.of_nat (length data) in
        let data := merge_sort dle data in
        let index := dmul percentile (double_of_Z (n - 1)) in
        let! lower := to_size index in
        let fraction := dsub index (double_of_Z lower) in
        let! low := at_index data lower in
        if SFeqb fraction (S754_zero false) then Ok (low, data)
        else
          let! high := at_index data (lower + 1) in
          Ok (dadd low (dmul fraction (dsub high low)), data)
  end.

(** Nothing is lost by sorting, and without interpolation the result is one of the
    measurements. *)
Lemma calculatePercentile_sorts data percentile x data' :
  calculatePercentile data percentile = Ok (x, data') → data' ≡ₚ data.
Proof.
  unfold calculatePercentile. destruct data as [|d data]; [by intros [= _ <-]|].
  destruct (existsb _ _); [done|]. intros (lower & _ & H)%res_bind_Ok.
  apply res_bind_Ok in H as (low & _ & H). destruct (SFeqb _ _).
  - injection H as _ <-. apply merge_sort_Permutation.
  - apply res_bind_Ok in H as (high & _ & [= _ <-]). apply merge_sort_Permutation.
Qed.

(** Of a single measurement every finite percentile is that measurement. *)
Lemma calculatePercentile_single x percentile :
  is_nan x = false → finite_double percentile →
  calculatePercentile [x] percentile = Ok (x, [x]).
Proof.
  intros Hx Hp. unfold calculatePercentile. cbn [existsb length]. rewrite Hx. cbn [orb].
  change (double_of_Z (Z.of_nat 1 - 1)) with (S754_zero false).
  destruct percentile as [s| | |s m e]; try done; by destruct s.
Qed.

(** The median of three and of four measurements; a percentile above one reads past
    the end. *)
Example calculatePercentile_median :
  let ds := double_of_Z <$> [4; 1; 3] in
  let half := ddiv (double_of_Z 1) (double_of_Z 2) in
  fst <$> (match calculatePercentile ds half with Ok r => Some r | Err _ => None end) = Some (double_of_Z 3) ∧
  fst <$> (match calculatePercentile (double_of_Z 8 :: ds) half with Ok r => Some r | Err _ => None end)
    = Some (ddiv (double_of_Z 7) (double_of_Z 2)) ∧
  calculatePercentile ds (double_of_Z 2) = Err FUB.
Proof. vm_compute. done. Qed.

(** ** [clear]: the kernel's name and dispatch; what was counted stays *)
Definition bb_clear (reported : bytes * Z) : bytes * Z := ([], 0).
