(* ===== verification/ReportLogs.v ===== *)
(** * The streams of the report logs

    Every message handler writes its report to a log named by its location: the
    console, or a file that [setupLogger] opens for appending.  Who opens the
    stream, who flushes and who deletes it differs from handler to handler
    ([src/src/memory_heatmap.cc], [time_interval_handler.cc], [message_logger.cc],
    [memory_analysis_handler.cc], [basic_block_analysis.cc]).  Here the streams are
    a store: a stream keeps what was written to it until it is flushed or deleted,
    except for what its buffer, as large as the library makes it, has no room for.
    The report of the basic blocks can be left by an exception of the database. *)
From S2P Require Import Prelude StdString.

(** ** Streams *)
Inductive log_pointer := Uninitialised | Null | Cout | Stream (id : Z).

(** [st_path]: the file, if it could be opened. *)
Record stream := OpenStream { st_path : option bytes; st_pending : bytes }.
Record world := World { streams_ : gmap Z stream; disk_ : gmap bytes bytes; console_ : bytes; next_ : Z }.

Definition append_file (path : option bytes) (text : bytes) (disk : gmap bytes bytes) : gmap bytes bytes :=
  match path with Some f => <[f := default [] (disk !! f) ++ text]> disk | None => disk end.

Section streams.
Variable can_open : bytes → bool.

(** How much of what a stream keeps and is given it writes to its file by itself. *)
Variable spills : Z → bytes → nat.
Implicit Types (w : world) (p : log_pointer).

(** What the file of a location is to a stream opened there. *)
Definition path_of (location : bytes) : option bytes := if can_open location then Some location else None.

(** [new std::ofstream(location, std::ios::app)] makes the file if there is none. *)
Definition open_stream (location : bytes) w : log_pointer * world :=
  (Stream (next_ w),
   World (<[next_ w := OpenStream (path_of location) []]> (streams_ w))
     (append_file (path_of location) [] (disk_ w)) (console_ w) (next_ w + 1)).

(** [*log_file_ << text] *)
Definition put p (text : bytes) w : res world :=
  match p with
  | Uninitialised | Null => Err FUB
  | Cout => Ok (World (streams_ w) (disk_ w) (console_ w ++ text) (next_ w))
  | Stream i =>
      match streams_ w !! i with
      | Some s =>
          let all := st_pending s ++ text in
          let n := spills i all in
          Ok (World (<[i := OpenStream (st_path s) (drop n all)]> (streams_ w))
                (append_file (st_path s) (take n all) (disk_ w)) (console_ w) (next_ w))
      | None => Err FUB
      end
  end.

(** [std::endl], after its line end *)
Definition flush p w : res world :=
  match p with
  | Uninitialised | Null => Err FUB
  | Cout => Ok w
  | Stream i =>
      match streams_ w !! i with
      | Some s => Ok (World (<[i := OpenStream (st_path s) []]> (streams_ w))
                        (append_file (st_path s) (st_pending s) (disk_ w)) (console_ w) (next_ w))
      | None => Err FUB
      end
  end.

(** [delete log_file_]: of a pointer that was never set or does not come from
    [new], undefined. *)
Definition delete p w : res world :=
  match p with
  | Uninitialised | Cout => Err FUB
  | Null => Ok w
  | Stream i =>
      match streams_ w !! i with
      | Some s => Ok (World (base.delete i (streams_ w))
                        (append_file (st_path s) (st_pending s) (disk_ w)) (console_ w) (next_ w))
      | None => Err FUB
      end
  end.

(** [*log_file_ << text << std::endl]; nothing when there is nothing to say. *)
Definition put_line p (text : bytes) w : res world :=
  match text with [] => Ok w | _ => let! w := put p text w in flush p w end.

(** [printf] *)
Definition print (text : bytes) w : world := World (streams_ w) (disk_ w) (console_ w ++ text) (next_ w).

(** ** The handlers: [location_] and [log_file_] *)
Record log_state := LogState { lg_location : bytes; lg_file : log_pointer }.

Definition on_console (location : bytes) : bool := bool_decide (location = lit "console").

Definition setupLogger (l : log_state) w : log_state * world :=
  if on_console (lg_location l) then (LogState (lg_location l) Cout, w)
  else let '(p, w) := open_stream (lg_location l) w in (LogState (lg_location l) p, w).

(** The end of a report that closes its log. *)
Definition close_log (l : log_state) w : res (log_state * world) :=
  if on_console (lg_location l) then Ok (l, w)
  else let! w := delete (lg_file l) w in Ok (LogState (lg_location l) Null, w).

(** What a handler does with its log when it is made, given a message, asked for
    its report, and destroyed; [text] is what it has to say, [thrown] whether an
    exception leaves the report after that, to be caught by
    [comms_mgr::checkinCommsObject]. *)
Class LogUse := {
  lu_new (location : bytes) : world → res (log_state * world);
  lu_handle (text : bytes) : log_state → world → res (log_state * world);
  lu_report (text : bytes) (thrown : bool) : log_state → world → res (log_state * world);
  lu_destroy : log_state → world → res world;
}.

(** Most constructors do not set the pointer, most handlers only collect. *)
Definition new_unset (location : bytes) w : res (log_state * world) := Ok (LogState location Uninitialised, w).
Definition handle_quietly (text : bytes) (l : log_state) w : res (log_state * world) := Ok (l, w).

(** Only the report of the basic blocks has a call that throws. *)
Definition heatmap_report_log (text : bytes) (thrown : bool) (l : log_state) w : res (log_state * world) :=
  let '(l, w) := setupLogger l w in
  let! w := put (lg_file l) text w in close_log l w.
Definition interval_report_log (text : bytes) (thrown : bool) (l : log_state) w : res (log_state * world) :=
  let '(l, w) := setupLogger l w in let! w := put_line (lg_file l) text w in Ok (l, w).
(** The text report goes to the standard output. *)
Definition analysis_report_log (bFormatJson : bool) (text : bytes) (thrown : bool) (l : log_state) w
    : res (log_state * world) :=
  let '(l, w) := setupLogger l w in
  if bFormatJson then let! w := put (lg_file l) text w in Ok (l, w)
  else Ok (l, print text w).
(** [kdb_p_->getFileName] is outside the [try], for each instruction of a block. *)
Definition block_report_log (kdb_p_ : bool) (text : bytes) (thrown : bool) (l : log_state) w
    : res (log_state * world) :=
  if kdb_p_ then
    let '(l, w) := setupLogger l w in
    let! w := put (lg_file l) text w in
    if thrown then Ok (l, w) else close_log l w
  else Ok (l, w).

Definition new_message_log (header location : bytes) w : res (log_state * world) :=
  let '(l, w) := setupLogger (LogState location Uninitialised) w in
  let! w := put_line (lg_file l) header w in Ok (l, w).
Definition message_log_handle (text : bytes) (l : log_state) w : res (log_state * world) :=
  let! w := put_line (lg_file l) text w in Ok (l, w).
Definition message_log_report (text : bytes) (thrown : bool) (l : log_state) w : res (log_state * world) :=
  Ok (l, print text w).

Definition destroy_deleting (l : log_state) w : res world :=
  if on_console (lg_location l) then Ok w else delete (lg_file l) w.
Definition destroy_keeping (l : log_state) w : res world := Ok w.

Definition heatmap_log : LogUse :=
  {| lu_new := new_unset; lu_handle := handle_quietly; lu_report := heatmap_report_log;
     lu_destroy := destroy_deleting |}.
Definition interval_log : LogUse :=
  {| lu_new := new_unset; lu_handle := handle_quietly; lu_report := interval_report_log;
     lu_destroy := destroy_deleting |}.
Definition analysis_log (bFormatJson : bool) : LogUse :=
  {| lu_new := new_unset; lu_handle := handle_quietly; lu_report := analysis_report_log bFormatJson;
     lu_destroy := destroy_keeping |}.
Definition block_log (kdb_p_ : bool) : LogUse :=
  {| lu_new := new_unset; lu_handle := handle_quietly; lu_report := block_report_log kdb_p_;
     lu_destroy := destroy_keeping |}.
Definition message_log (header : bytes) : LogUse :=
  {| lu_new := new_message_log header; lu_handle := message_log_handle;
     lu_report := message_log_report; lu_destroy := destroy_deleting |}.

(** ** The life of a handler *)
Inductive log_event := Handled (text : bytes) | Reported (text : bytes) (thrown : bool).

Definition log_step (U : LogUse) (lw : log_state * world) (e : log_event) : res (log_state * world) :=
  match e with Handled text => lu_handle text lw.1 lw.2 | Reported text thrown => lu_report text thrown lw.1 lw.2 end.
Definition life (U : LogUse) (location : bytes) (events : list log_event) w : res world :=
  let! lw := lu_new location w in
  let! lw := res_fold (log_step U) lw events in
  lu_destroy lw.1 lw.2.

(** ** What a life leaves behind *)
Definition content w (f : bytes) : bytes := default [] (disk_ w !! f).
Definition fresh_streams w : Prop := ∀ i, next_ w ≤ i → streams_ w !! i = None.
Definition reports (events : list log_event) : list bytes :=
  omap (λ e, match e with Reported t _ => Some t | Handled _ => None end) events.
Definition left_by_exception (e : log_event) : bool :=
  match e with Reported _ thrown => thrown | Handled _ => false end.
Definition thrown_reports (events : list log_event) : nat :=
  length (filter (λ e, left_by_exception e = true) events).
Definition handled (events : list log_event) : list bytes :=
  omap (λ e, match e with Handled t => Some t | Reported _ _ => None end) events.

(** [n] more streams, and [text] at the end of the file of [location]. *)
Record leaves (location : bytes) (n : nat) (text : bytes) w w' : Prop := {
  lf_fresh : fresh_streams w';
  lf_kept : streams_ w ⊆ streams_ w';
  lf_more : size (streams_ w') = (size (streams_ w) + n)%nat;
  lf_file f : content w' f = content w f ++ (if decide (path_of location = Some f) then text else []);
}.

Lemma leaves_nothing location w : fresh_streams w → leaves location 0 [] w w.
Proof. intros H. split; [done|done|lia|]. intros f. case_decide; by rewrite app_nil_r. Qed.

Lemma leaves_trans location n n' text text' w w1 w2 :
  leaves location n text w w1 → leaves location n' text' w1 w2 → leaves location (n + n') (text ++ text') w w2.
Proof.
  intros [_ K M F] [Fr K' M' F']. split; [done|by etrans|lia|].
  intros f. rewrite F', F. case_decide; by rewrite <- app_assoc.
Qed.

Lemma leaves_same_streams location text w w' : leaves location 0 text w w' → streams_ w' = streams_ w.
Proof. intros [_ K M _]. symmetry. apply map_subseteq_size_eq; [done|lia]. Qed.

Lemma content_append path text w f :
  default [] (append_file path text (disk_ w) !! f) = content w f ++ (if decide (path = Some f) then text else []).
Proof.
  unfold append_file, content. destruct path as [g|].
  - destruct (decide (g = f)) as [->|].
    + rewrite lookup_insert_eq, decide_True by done. done.
    + rewrite lookup_insert_ne, decide_False by congruence. by rewrite app_nil_r.
  - rewrite decide_False by done. by rewrite app_nil_r.
Qed.

(** Since [w], [n] streams and [text] were left; besides, stream [i] is open on the
    location with [pending] still to be written. *)
Record holds (location : bytes) (i : Z) (n : nat) (text pending : bytes) w w' : Prop := {
  ho_open : streams_ w' !! i = Some (OpenStream (path_of location) pending);
  ho_new : streams_ w !! i = None;
  ho_leaves : leaves location (S n) text w w';
}.

Lemma holds_open location w :
  fresh_streams w →
  ∃ w', open_stream location w = (Stream (next_ w), w') ∧ holds location (next_ w) 0 [] [] w w'.
Proof.
  intros Hw. eexists. split; [done|]. assert (streams_ w !! next_ w = None) as Hn by (apply Hw; lia).
  split; [apply lookup_insert_eq|done|]. split; cbn.
  - intros i Hi. cbn in Hi |- *. rewrite lookup_insert_ne by lia. apply Hw. lia.
  - by apply insert_subseteq.
  - rewrite map_size_insert_None by done. lia.
  - intros f. unfold content at 1. cbn. rewrite content_append. by repeat case_decide.
Qed.

Lemma update_stream location i n text text' s w w' disk :
  is_Some (streams_ w' !! i) → streams_ w !! i = None → leaves location n text w w' →
  (∀ f, default [] (disk !! f) = content w f ++ (if decide (path_of location = Some f) then text' else [])) →
  leaves location n text' w (World (<[i := s]> (streams_ w')) disk (console_ w') (next_ w')).
Proof.
  intros [s' Hi] Hn [Fr K M _] Hd. split; cbn; [| | |done].
  - intros j Hj. cbn in *. rewrite lookup_insert_ne; [by apply Fr|]. intros ->. by rewrite Fr in Hi.
  - transitivity (base.delete i (streams_ w')).
    + apply map_subseteq_spec. intros j x Hj. rewrite lookup_delete_ne by congruence.
      by eapply lookup_weaken.
    + rewrite <- insert_delete_eq. apply insert_subseteq, lookup_delete_eq.
  - rewrite map_size_insert, Hi. exact M.
Qed.

(** Writing to the file of an open stream. *)
Lemma written location n text pending w w' f :
  leaves location n text w w' →
  default [] (append_file (path_of location) pending (disk_ w') !! f) =
  content w f ++ (if decide (path_of location = Some f) then text ++ pending else []).
Proof.
  intros Hl. rewrite content_append, (lf_file _ _ _ _ _ Hl). case_decide; by rewrite <- app_assoc.
Qed.

Lemma put_holds location i n text pending more w w' :
  holds location i n text pending w w' →
  ∃ w2 out kept, put (Stream i) more w' = Ok w2 ∧ pending ++ more = out ++ kept ∧
    holds location i n (text ++ out) kept w w2.
Proof.
  intros [Ho Hn Hl]. unfold put. rewrite Ho. cbn [st_pending st_path].
  set (all := pending ++ more). eexists _, (take (spills i all) all), (drop (spills i all) all).
  split; [done|]. split; [by rewrite take_drop|].
  split; [apply lookup_insert_eq|done|]. eapply update_stream; [by eexists|done|exact Hl|].
  intros f. by eapply written.
Qed.

Lemma flush_holds location i n text pending w w' :
  holds location i n text pending w w' →
  ∃ w2, flush (Stream i) w' = Ok w2 ∧ holds location i n (text ++ pending) [] w w2.
Proof.
  intros [Ho Hn Hl]. unfold flush. rewrite Ho. eexists. split; [done|].
  split; [apply lookup_insert_eq|done|]. eapply update_stream; [by eexists|done|exact Hl|].
  intros f. by eapply written.
Qed.

Lemma delete_holds location i n text pending w w' :
  holds location i n text pending w w' →
  ∃ w2, delete (Stream i) w' = Ok w2 ∧ leaves location n (text ++ pending) w w2.
Proof.
  intros [Ho Hn Hl]. unfold delete. rewrite Ho. eexists. split; [done|]. destruct (Hl) as [Fr K M _].
  split; cbn.
  - intros j Hj. cbn in *. destruct (decide (j = i)) as [->|]; [apply lookup_delete_eq|].
    rewrite lookup_delete_ne by done. by apply Fr.
  - apply map_subseteq_spec. intros j x Hj. rewrite lookup_delete_ne by congruence.
    by eapply lookup_weaken.
  - rewrite map_size_delete, Ho. lia.
  - intros f. by eapply written.
Qed.

Lemma put_line_holds location i n text pending more w w' :
  holds location i n text pending w w' → pending = [] →
  ∃ w2, put_line (Stream i) more w' = Ok w2 ∧ holds location i n (text ++ more) [] w w2.
Proof.
  intros Hh ->. unfold put_line. destruct more as [|ch more]; [rewrite app_nil_r; by eexists|].
  destruct (put_holds _ _ _ _ _ (ch :: more) _ _ Hh) as (w1&out&kept&->&E&H1). cbn [app] in E.
  destruct (flush_holds _ _ _ _ _ _ _ H1) as (w2&E2&H2). exists w2. cbn [res_bind]. rewrite E2.
  split; [done|]. by rewrite E, app_assoc.
Qed.

Lemma setupLogger_file l w :
  on_console (lg_location l) = false → fresh_streams w →
  ∃ w', setupLogger l w = (LogState (lg_location l) (Stream (next_ w)), w') ∧
    holds (lg_location l) (next_ w) 0 [] [] w w'.
Proof.
  intros Hl Hw. unfold setupLogger. rewrite Hl.
  destruct (holds_open (lg_location l) w Hw) as (w'&->&Hh). by eexists.
Qed.

Lemma holds_after location i n m text text' pending w w1 w2 :
  leaves location n text w w1 → holds location i m text' pending w1 w2 →
  holds location i (n + m) (text ++ text') pending w w2.
Proof.
  intros H1 [Ho Hn H2]. split; [done| |].
  - eapply lookup_weaken_None; [exact Hn|apply H1].
  - replace (S (n + m)) with (n + S m)%nat by lia. by eapply leaves_trans.
Qed.

Lemma leaves_print location n text more w w' : leaves location n text w w' → leaves location n text w (print more w').
Proof. intros []. by split. Qed.
Lemma holds_print location i n text pending more w w' :
  holds location i n text pending w w' → holds location i n text pending w (print more w').
Proof. intros []. split; [done..|]. by apply leaves_print. Qed.

(** *** One report *)
Section report.
Variables (l : log_state) (w : world).
Hypotheses (Hl : on_console (lg_location l) = false) (Hw : fresh_streams w).

Lemma heatmap_report_leaves text thrown :
  ∃ w', heatmap_report_log text thrown l w = Ok (LogState (lg_location l) Null, w') ∧ leaves (lg_location l) 0 text w w'.
Proof.
  unfold heatmap_report_log. destruct (setupLogger_file l w Hl Hw) as (w1&->&H1).
  destruct (put_holds _ _ _ _ _ text _ _ H1) as (w2&out&kept&E&Et&H2). cbn [lg_file]. rewrite E. cbn [res_bind].
  destruct (delete_holds _ _ _ _ _ _ _ H2) as (w3&E3&H3). cbn [app] in Et, H3. rewrite <-Et in H3.
  unfold close_log. cbn [lg_location lg_file]. rewrite Hl, E3. by eexists.
Qed.

Lemma interval_report_holds text thrown :
  ∃ w', interval_report_log text thrown l w = Ok (LogState (lg_location l) (Stream (next_ w)), w') ∧
    holds (lg_location l) (next_ w) 0 text [] w w'.
Proof.
  unfold interval_report_log. destruct (setupLogger_file l w Hl Hw) as (w1&->&H1).
  destruct (put_line_holds _ _ _ _ _ text _ _ H1 eq_refl) as (w2&E&H2). cbn [lg_file]. rewrite E. by eexists.
Qed.

Lemma analysis_report_leaves json text thrown :
  ∃ l' w' out, analysis_report_log json text thrown l w = Ok (l', w') ∧ lg_location l' = lg_location l ∧
    (if json then out `prefix_of` text else out = []) ∧ leaves (lg_location l) 1 out w w'.
Proof.
  unfold analysis_report_log. destruct (setupLogger_file l w Hl Hw) as (w1&->&H1).
  destruct json; [|eexists _, _, []; split_and!; [done..|]; apply leaves_print, H1].
  destruct (put_holds _ _ _ _ _ text _ _ H1) as (w2&out&kept&E&Et&H2). cbn [lg_file]. rewrite E.
  eexists _, _, out. split_and!; [done..|by exists kept|]. apply H2.
Qed.

Lemma block_report_leaves text thrown :
  ∃ l' w' out, block_report_log true text thrown l w = Ok (l', w') ∧ lg_location l' = lg_location l ∧
    (if thrown then out `prefix_of` text else out = text) ∧
    leaves (lg_location l) (if thrown then 1 else 0) out w w'.
Proof.
  unfold block_report_log. destruct (setupLogger_file l w Hl Hw) as (w1&->&H1).
  destruct (put_holds _ _ _ _ _ text _ _ H1) as (w2&out&kept&E&Et&H2). cbn [lg_file]. rewrite E. cbn [res_bind].
  destruct thrown.
  - eexists _, _, out. split_and!; [done..|by exists kept|]. apply H2.
  - destruct (delete_holds _ _ _ _ _ _ _ H2) as (w3&E3&H3). cbn [app] in Et, H3. rewrite <-Et in H3.
    unfold close_log. cbn [lg_location lg_file]. rewrite Hl, E3. by eexists _, _, text.
Qed.
End report.

(** *** All events *)
Lemma fold_log U (counted : log_event → nat) (said : log_event → bytes → Prop)
    (I : nat → bytes → log_state → world → Prop) events :
  (∀ e n t l w, I n t l w →
     ∃ lw out, log_step U (l, w) e = Ok lw ∧ said e out ∧ I (n + counted e)%nat (t ++ out) lw.1 lw.2) →
  ∀ n t l w, I n t l w →
    ∃ lw outs, res_fold (log_step U) (l, w) events = Ok lw ∧ Forall2 said events outs ∧
      I (n + sum_list_with counted events)%nat (t ++ mjoin outs) lw.1 lw.2.
Proof.
  intros Hstep. induction events as [|e events IH]; intros n t l w HI; cbn.
  - exists (l, w), []. rewrite app_nil_r, Nat.add_0_r. split_and!; [done|constructor|done].
  - destruct (Hstep e _ _ _ _ HI) as ([l1 w1]&out&->&Hs&H1). cbn [res_bind fst snd] in H1 |- *.
    destruct (IH _ _ _ _ H1) as (lw&outs&->&Hss&H). exists lw, (out :: outs).
    split; [done|]. split; [by constructor|]. cbn. by rewrite app_assoc, Nat.add_assoc.
Qed.

(** The same, when what is said is known. *)
Lemma fold_log_fun U (counted : log_event → nat) (said : log_event → bytes)
    (I : nat → bytes → log_state → world → Prop) events :
  (∀ e n t l w, I n t l w →
     ∃ lw, log_step U (l, w) e = Ok lw ∧ I (n + counted e)%nat (t ++ said e) lw.1 lw.2) →
  ∀ n t l w, I n t l w →
    ∃ lw, res_fold (log_step U) (l, w) events = Ok lw ∧
      I (n + sum_list_with counted events)%nat (t ++ mjoin (said <$> events)) lw.1 lw.2.
Proof.
  intros Hstep n t l w HI.
  destruct (fold_log U counted (λ e out, out = said e) I events) with (n := n) (t := t) (l := l) (w := w)
    as (lw&outs&E&Hs&H); [|done|].
  - intros e n' t' l' w' (lw&E&H)%(Hstep e). by exists lw, (said e).
  - exists lw. split; [done|]. assert (outs = said <$> events) as <-; [|done].
    clear -Hs. induction Hs as [|e out events outs -> _ IH]; [done|]. cbn. by rewrite IH.
Qed.

Definition counts_report (e : log_event) : nat := match e with Reported _ _ => 1%nat | Handled _ => 0%nat end.
Definition counts_thrown (e : log_event) : nat :=
  match e with Reported _ true => 1%nat | _ => 0%nat end.
Definition says_report (e : log_event) : bytes := match e with Reported t _ => t | Handled _ => [] end.
Definition says_handled (e : log_event) : bytes := match e with Handled t => t | Reported _ _ => [] end.

(** What comes to the file of a report of the basic blocks: all of it, or, when it
    was left by an exception, some of it from its start on. *)
Definition block_said (e : log_event) (out : bytes) : Prop :=
  match e with
  | Handled _ => out = []
  | Reported t thrown => if thrown then out `prefix_of` t else out = t
  end.
Definition analysis_said (json : bool) (e : log_event) (out : bytes) : Prop :=
  match e with
  | Handled _ => out = []
  | Reported t _ => if json then out `prefix_of` t else out = []
  end.

Lemma sum_reports events : sum_list_with counts_report events = length (reports events).
Proof. induction events as [|[] events IH]; cbn; unfold reports in *; lia. Qed.
Lemma sum_thrown events : sum_list_with counts_thrown events = thrown_reports events.
Proof.
  unfold thrown_reports. induction events as [|[|t []] events IH]; [done|..]; rewrite filter_cons; cbn;
    rewrite IH; done.
Qed.
Lemma say_reports events : mjoin (says_report <$> events) = mjoin (reports events).
Proof. induction events as [|[] events IH]; csimpl; by rewrite ?IH. Qed.
Lemma say_handled events : mjoin (says_handled <$> events) = mjoin (handled events).
Proof. induction events as [|[] events IH]; csimpl; by rewrite ?IH. Qed.

(** *** Whole lives *)
Section lives.
Variables (location : bytes) (w0 : world).
Hypotheses (Hloc : on_console location = false) (Hw0 : fresh_streams w0).

Ltac events := intros [more|more thrown] n t l w; cbn [counts_report says_report says_handled log_step lu_handle
  lu_report fst snd]; rewrite ?app_nil_r, ?Nat.add_0_r.

Lemma heatmap_events events :
  ∃ l w, res_fold (log_step heatmap_log) (LogState location Uninitialised, w0) events = Ok (l, w) ∧
    lg_location l = location ∧ leaves location 0 (mjoin (reports events)) w0 w ∧
    lg_file l = match reports events with [] => Uninitialised | _ => Null end.
Proof.
  destruct (fold_log_fun heatmap_log counts_report says_report
    (λ n t l w, lg_location l = location ∧ leaves location 0 t w0 w ∧
       lg_file l = match n with O => Uninitialised | _ => Null end) events) with
    (n := O) (t := [] : bytes) (l := LogState location Uninitialised) (w := w0) as ([l w]&->&E&H&F).
  - events; intros (E&H&F); [by exists (l, w)|]. subst location.
    destruct (heatmap_report_leaves l w Hloc (lf_fresh _ _ _ _ _ H) more thrown) as (w'&E'&H').
    eexists. split; [exact E'|]. split_and!; [done| |by rewrite Nat.add_comm].
    by apply (leaves_trans _ 0 0 _ _ _ _ _ H H').
  - split_and!; [done|by apply leaves_nothing|done].
  - exists l, w. rewrite sum_reports in F. rewrite say_reports in H. split_and!; [done..|].
    by destruct (reports events).
Qed.

Lemma block_events kdb events :
  ∃ l w outs, res_fold (log_step (block_log kdb)) (LogState location Uninitialised, w0) events = Ok (l, w) ∧
    Forall2 block_said events outs ∧
    leaves location (if kdb then thrown_reports events else 0) (if kdb then mjoin outs else []) w0 w.
Proof.
  destruct (fold_log (block_log kdb) counts_thrown block_said
    (λ n t l w, lg_location l = location ∧
       leaves location (if kdb then n else 0) (if kdb then t else []) w0 w) events) with
    (n := O) (t := [] : bytes) (l := LogState location Uninitialised) (w := w0) as ([l w]&outs&->&Hs&_&H).
  - events; intros (E&H); cbn [counts_thrown]; rewrite ?Nat.add_0_r.
    { exists (l, w), []. by rewrite app_nil_r. }
    subst location. cbn [block_log lu_report]. destruct kdb.
    2:{ exists (l, w), more. split_and!; [done| |done..]. cbn. destruct thrown; [by exists []; rewrite app_nil_r|done]. }
    destruct (block_report_leaves l w Hloc (lf_fresh _ _ _ _ _ H) more thrown) as (l'&w'&out&E'&El&Hs&H').
    exists (l', w'), out. split_and!; [exact E'|done|done|].
    destruct thrown; by apply (leaves_trans _ _ _ _ _ _ _ _ H H').
  - split; [done|]. destruct kdb; by apply leaves_nothing.
  - exists l, w, outs. rewrite sum_thrown in H. done.
Qed.

Lemma analysis_events json events :
  ∃ l w outs, res_fold (log_step (analysis_log json)) (LogState location Uninitialised, w0) events = Ok (l, w) ∧
    Forall2 (analysis_said json) events outs ∧
    leaves location (length (reports events)) (mjoin outs) w0 w.
Proof.
  destruct (fold_log (analysis_log json) counts_report (analysis_said json)
    (λ n t l w, lg_location l = location ∧ leaves location n t w0 w) events) with
    (n := O) (t := [] : bytes) (l := LogState location Uninitialised) (w := w0) as ([l w]&outs&->&Hs&_&H).
  - events; intros (E&H); [exists (l, w), []; by rewrite app_nil_r|]. subst location.
    destruct (analysis_report_leaves l w Hloc (lf_fresh _ _ _ _ _ H) json more thrown)
      as (l'&w'&out&E'&El&Hs&H').
    exists (l', w'), out. split_and!; [exact E'|done|done|]. by apply (leaves_trans _ n 1 _ _ _ _ _ H H').
  - split; [done|]. by apply leaves_nothing.
  - exists l, w, outs. by rewrite sum_reports in H.
Qed.

(** After the first report the handler holds the stream of its last one. *)
Lemma interval_events events :
  ∃ l w, res_fold (log_step interval_log) (LogState location Uninitialised, w0) events = Ok (l, w) ∧
    lg_location l = location ∧
    match reports events with
    | [] => lg_file l = Uninitialised
    | _ => ∃ i, lg_file l = Stream i ∧
        holds location i (pred (length (reports events))) (mjoin (reports events)) [] w0 w
    end.
Proof.
  destruct (fold_log_fun interval_log counts_report says_report
    (λ n t l w, lg_location l = location ∧ leaves location n t w0 w ∧
       match n with
       | O => lg_file l = Uninitialised
       | S m => ∃ i, lg_file l = Stream i ∧ holds location i m t [] w0 w
       end) events) with
    (n := O) (t := [] : bytes) (l := LogState location Uninitialised) (w := w0) as ([l w]&->&E&_&F).
  - events; intros (E&H&F); [by exists (l, w)|]. subst location.
    destruct (interval_report_holds l w Hloc (lf_fresh _ _ _ _ _ H) more thrown) as (w'&E'&H').
    pose proof (holds_after _ _ _ _ _ _ _ _ _ _ H H') as Hn. rewrite Nat.add_0_r in Hn.
    eexists. split; [exact E'|]. rewrite Nat.add_1_r. split_and!; [done|apply Hn|]. by eexists.
  - split_and!; [done|by apply leaves_nothing|done].
  - exists l, w. rewrite sum_reports, say_reports in F. split_and!; [done..|].
    by destruct (reports events).
Qed.

Lemma message_events header events :
  ∃ l0 w1 l w i, new_message_log header location w0 = Ok (l0, w1) ∧
    res_fold (log_step (message_log header)) (l0, w1) events = Ok (l, w) ∧
    l = LogState location (Stream i) ∧ holds location i 0 (header ++ mjoin (handled events)) [] w0 w.
Proof.
  unfold new_message_log.
  destruct (setupLogger_file (LogState location Uninitialised) w0 Hloc Hw0) as (w1&->&H1). cbn [lg_file lg_location].
  destruct (put_line_holds _ _ _ _ _ header _ _ H1 eq_refl) as (w2&->&H2).
  destruct (fold_log_fun (message_log header) (λ _, 0%nat) says_handled
    (λ n t l w, l = LogState location (Stream (next_ w0)) ∧ holds location (next_ w0) 0 (header ++ t) [] w0 w)
    events) with
    (n := O) (t := [] : bytes) (l := LogState location (Stream (next_ w0))) (w := w2) as ([l w]&E&El&H).
  - events; intros (->&H).
    + destruct (put_line_holds _ _ _ _ _ more _ _ H eq_refl) as (w'&E'&H'). cbn. unfold message_log_handle.
      cbn [lg_file]. rewrite E'. eexists. split; [done|]. split; [done|]. by rewrite app_assoc.
    + eexists. split; [done|]. split; [done|]. by apply holds_print.
  - split; [done|]. by rewrite app_nil_r.
  - eexists _, _, l, w, (next_ w0). rewrite say_handled in H. by split_and!.
Qed.
End lives.
End streams.

(** On the console: the standard output is never deleted, and no stream or file added. *)
Record quiet w (l : log_state) w' : Prop := {
  qt_location : lg_location l = lit "console";
  qt_streams : streams_ w' = streams_ w;
  qt_disk : disk_ w' = disk_ w;
}.

Lemma console_life (U : LogUse) (P : log_state → Prop) events w :
  (∃ l w', lu_new (lit "console") w = Ok (l, w') ∧ quiet w l w' ∧ P l) →
  (∀ e l w', quiet w l w' → P l →
     ∃ l' w2, log_step U (l, w') e = Ok (l', w2) ∧ quiet w l' w2 ∧ P l') →
  lu_destroy = destroy_deleting ∨ lu_destroy = destroy_keeping →
  ∃ w', life U (lit "console") events w = Ok w' ∧ streams_ w' = streams_ w ∧ disk_ w' = disk_ w.
Proof.
  intros (l & w1 & Hn & Hq & HP) Hstep Hd. unfold life. rewrite Hn. cbn [res_bind].
  destruct (fold_log_fun U (λ _, 0%nat) (λ _, []) (λ _ _ l w', quiet w l w' ∧ P l) events) with
    (n := O) (t := [] : bytes) (l := l) (w := w1) as ([l2 w2] & -> & [El Es Ed] & _); [|done|].
  - intros e n t l' w' [Hq' HP']. destruct (Hstep e _ _ Hq' HP') as (l2 & w2 & E & H). by exists (l2, w2).
  - exists w2. split; [|done]. cbn in El |- *. destruct Hd as [-> | ->]; [|done].
    unfold destroy_deleting. by rewrite El.
Qed.

Lemma console_lives can_open spills events w U :
  U = heatmap_log can_open spills ∨ U = interval_log can_open spills ∨
  (∃ kdb, U = block_log can_open spills kdb) ∨ (∃ json, U = analysis_log can_open spills json) ∨
  (∃ header, U = message_log can_open spills header) →
  ∃ w', life U (lit "console") events w = Ok w' ∧ streams_ w' = streams_ w ∧ disk_ w' = disk_ w.
Proof.
  intros [->|[->|[[kdb ->]|[[json ->]|[header ->]]]]].
  5: { apply (console_life _ (λ l, lg_file l = Cout)); [| |by left].
    - by destruct header; eexists _, _.
    - intros [[|ch t]|t thrown] [loc p] w' Hq Hp; cbn in Hp; subst p; destruct Hq as [E Es Ed]; cbn in E; subst loc;
        eexists _, _; (split; [reflexivity|]); done. }
  1-4: apply (console_life _ (λ _, True)); [by eexists _, _| |by auto].
  1-4: intros [t|[|ch t] []] [loc p] w' [E Es Ed] _; cbn in E; subst loc;
    try (destruct kdb); try (destruct json);
    eexists _, _; (split; [reflexivity|]); (split; [by split|done]).
Qed.

(** C31. The log of a handler whose location is a file, through any messages and
    reports to its destruction, whatever the buffers of the streams write early.
    The heat map closes the stream of every report and the message logger that of
    its constructor: no stream is left open, and everything they said is at the end
    of the file, in order.  So does the basic-block handler for a report that comes
    to its end; one that an exception of the database leaves stays open, and of it
    some text, from its start on, is in the file; without a database it leaves
    nothing.  The interval handler closes the
    stream of its last report only, all of the reports being in the file; one that
    the destructor finds without a report, of the heat map too, is deleted through a
    pointer that was never set.  The memory analysis leaves the stream of every
    report open, and only what the buffer had no room for, some text from its start
    on, is in the file (nothing, when the report is not JSON). *)
Theorem handler_streams can_open spills location events w :
  location ≠ lit "console" → fresh_streams w →
  let n := length (reports events) in
  let text := mjoin (reports events) in
  let lives U k t := ∃ w', life U location events w = Ok w' ∧ leaves can_open location k t w w' in
  (n ≠ O → lives (heatmap_log can_open spills) O text ∧
           lives (interval_log can_open spills) (pred n) text) ∧
  (n = O → life (heatmap_log can_open spills) location events w = Err FUB ∧
           life (interval_log can_open spills) location events w = Err FUB) ∧
  (∃ outs, Forall2 block_said events outs ∧
     lives (block_log can_open spills true) (thrown_reports events) (mjoin outs)) ∧
  lives (block_log can_open spills false) O [] ∧
  (∀ header, lives (message_log can_open spills header) O (header ++ mjoin (handled events))) ∧
  (∀ json, ∃ outs, Forall2 (analysis_said json) events outs ∧
     lives (analysis_log can_open spills json) n (mjoin outs)).
Proof.
  intros Hne Hw. assert (on_console location = false) as Hc by by apply bool_decide_eq_false.
  destruct (heatmap_events can_open spills location w Hc Hw events) as (lh & wh & Eh & Lh & Sh & Fh).
  destruct (interval_events can_open spills location w Hc Hw events) as (li & wi & Ei & Li & Fi).
  unfold life. cbn [lu_new heatmap_log interval_log block_log message_log analysis_log new_unset res_bind].
  cbv zeta. split_and!.
  - intros Hn. split.
    + exists wh. rewrite Eh. split; [|done]. cbn. unfold destroy_deleting. rewrite Lh, Hc, Fh.
      by destruct (reports events).
    + rewrite Ei. destruct (reports events) as [|t ts]; [done|]. destruct Fi as (i & Fi & Hi).
      destruct (delete_holds _ _ _ _ _ _ _ _ Hi) as (w' & Ew & Hl). exists w'. rewrite app_nil_r in Hl.
      split; [|done]. cbn. unfold destroy_deleting. by rewrite Li, Hc, Fi.
  - intros Hn%nil_length_inv. rewrite Hn in Fh, Fi. rewrite Eh, Ei. cbn. unfold destroy_deleting.
    by rewrite Lh, Li, Hc, Fh, Fi.
  - destruct (block_events can_open spills location w Hc Hw true events) as (l & w' & outs & E & Hs & H).
    exists outs. split; [done|]. exists w'. by rewrite E.
  - destruct (block_events can_open spills location w Hc Hw false events) as (l & w' & outs & E & Hs & H).
    exists w'. by rewrite E.
  - intros header. destruct (message_events can_open spills location w Hc Hw header events)
      as (l0 & w1 & l & w' & i & E0 & E & -> & H). rewrite E0. cbn [res_bind]. rewrite E.
    destruct (delete_holds _ _ _ _ _ _ _ _ H) as (w2 & Ew & Hl). exists w2. rewrite app_nil_r in Hl.
    split; [|done]. cbn. unfold destroy_deleting. cbn. by rewrite Hc.
  - intros json. destruct (analysis_events can_open spills location w Hc Hw json events)
      as (l & w' & outs & E & Hs & H).
    exists outs. split; [done|]. exists w'. by rewrite E.
Qed.

(** Streams that keep all, or let the first two characters through. *)
Lemma handler_streams_witness :
  let w := World ∅ {[lit "log" := lit "old "]} [] 0 in
  let events := [Handled (lit "m"); Reported (lit "r1 ") false; Reported (lit "r2") false] in
  let thrown := [Reported (lit "r1 ") false; Reported (lit "r2") true] in
  let keep := λ (i : Z) (all : bytes), 0%nat in
  let spill := λ (i : Z) (all : bytes), 1%nat in
  (∃ w', life (heatmap_log (λ _, true) spill) (lit "log") events w = Ok w' ∧ size (streams_ w') = 0%nat ∧
     content w' (lit "log") = lit "old r1 r2") ∧
  (∃ w', life (analysis_log (λ _, true) keep true) (lit "log") events w = Ok w' ∧ size (streams_ w') = 2%nat) ∧
  (∃ w', life (block_log (λ _, true) keep true) (lit "log") thrown w = Ok w' ∧ size (streams_ w') = 1%nat) ∧
  life (interval_log (λ _, true) keep) (lit "log") [] w = Err FUB ∧
  (λ w', content w' (lit "log")) <$>
    [default w (match life (analysis_log (λ _, true) keep true) (lit "log") events w with Ok w' => Some w' | _ => None end);
     default w (match life (analysis_log (λ _, true) spill true) (lit "log") events w with Ok w' => Some w' | _ => None end);
     default w (match life (block_log (λ _, true) spill true) (lit "log") thrown w with Ok w' => Some w' | _ => None end)] =
    [lit "old "; lit "old rr"; lit "old r1 r"].
Proof.
  intros w events thrown keep spill.
  assert (fresh_streams w) as Hw by (intros i _; apply lookup_empty).
  pose proof (handler_streams (λ _, true) spill (lit "log") events w ltac:(done) Hw) as (H1 & _).
  pose proof (handler_streams (λ _, true) keep (lit "log") events w ltac:(done) Hw) as (_ & _ & _ & _ & _ & H5).
  pose proof (handler_streams (λ _, true) keep (lit "log") thrown w ltac:(done) Hw) as (_ & _ & (outs & _ & H3) & _).
  pose proof (handler_streams (λ _, true) keep (lit "log") [] w ltac:(done) Hw) as (_ & H2 & _).
  destruct H1 as [(w1 & E1 & [_ _ S1 F1]) _]; [done|].
  destruct (H5 true) as (_ & _ & w2 & E2 & [_ _ S2 _]). destruct H3 as (w3 & E3 & [_ _ S3 _]).
  split_and!; [exists w1|exists w2|exists w3|by apply H2|].
  - split_and!; [done| |]; [rewrite S1; reflexivity|rewrite F1; reflexivity].
  - split; [done|]. rewrite S2. reflexivity.
  - split; [done|]. rewrite S3. reflexivity.
  - vm_compute. reflexivity.
Defined.
