(* ===== verification/Heatmap.v ===== *)
(** * Memory heatmap

    [memory_heatmap_t] of src/src/memory_heatmap.cc: counts the accesses to each
    page of memory and reports them. *)
From S2P Require Import Prelude StdString Message Json.

(** [std::map<uint64_t, size_t>] *)
Abbreviation page_counts := (gmap Z Z).

Section heatmap.
Context `{DhComms}.
Variable page_size : Z.

Definition page_of (address : Z) : Z := u64 (address `div` page_size * page_size).

Definition count_page (counts : page_counts) (item : list Z) : res page_counts :=
  let! address := item_address item in
  if page_size =? 0 then Err FUB else
  let page := page_of address in
  Ok (<[ page := u64 (default 0 (counts !! page) + 1) ]> counts).

Definition heatmap_handle (message : message_t) (counts : page_counts)
    : res (bool * page_counts) :=
  if negb (user_type (wave_header message) =? mt_address) then Ok (false, counts) else
  let! _ := assertb (data_item_size message =? 8) in
  let! counts' := res_fold count_page counts (data_items message) in
  Ok (true, counts').

(** [report], for a format and the fields of the handler. *)
Definition page_line (p : Z * Z) : bytes :=
  [tab] ++ lit "page[0x" ++ to_hex p.1 ++ lit ":" ++ to_hex (u64 (p.1 + page_size - 1)) ++
  lit "] " ++ to_dec p.2 ++ lit " accesses" ++ [newline].

Definition page_json (p : Z * Z) : bytes :=
  let thisRange := addField json_new (lit "start_address") p.1 false false in
  let thisRange :=
    addField thisRange (lit "end_address") (u64 (p.1 + page_size - 1)) false false in
  let thisRange := addField thisRange (lit "accesses") p.2 false false in
  getJSON thisRange.

Definition heatmap_report (json_format : bool) (kernel : bytes) (dispatch_id : Z)
    (counts : page_counts) : res bytes :=
  let items := map_items counts in
  if negb json_format then
    Ok ((if bool_decide (items = []) then [] else
           lit "memory heatmap report(" ++ kernel ++ lit "[" ++ to_dec dispatch_id ++ lit "])" ++
           [newline; tab] ++ lit "page size = " ++ to_dec page_size ++ [newline]) ++
        (items ≫= page_line))
  else if bool_decide (items = []) then Ok []
  else
    let json := addField json_new (lit "kernel") kernel true false in
    let json := addField json (lit "dispatch_id") dispatch_id false false in
    let! json := addVector json (lit "pages") (page_json <$> items) false false in
    Ok (getJSON json ++ [newline]).

Definition heatmap_clear (counts : page_counts) : page_counts := ∅.
End heatmap.

(** The format a handler picks up from [LOGDUR_LOG_FORMAT] when constructed. *)
Definition report_format (env : option bytes) : bytes :=
  match env with Some f => f | None => lit "csv" end.
Definition is_json (format : bytes) : bool := bool_decide (format = lit "json").

(** ** Counting *)

(** The addresses of a sequence of messages, address messages only. *)
Definition addresses_of `{DhComms} (ms : list message_t) : list Z :=
  ms ≫= λ m, if user_type (wave_header m) =? mt_address
             then data_items m ≫= λ item, match item with a :: _ => [a] | [] => [] end
             else [].

Definition handle_all `{DhComms} (page_size : Z) (counts : page_counts) (ms : list message_t)
    : res page_counts :=
  res_fold (λ c m, let! ' (_, c') := heatmap_handle page_size m c in Ok c') counts ms.

Definition count_of (p : Z → bool) (l : list Z) : Z :=
  Z.of_nat (length (filter (λ a, p a = true) l)).

(** [counts] holds exactly the page counts of the addresses [l]. *)
Definition counts_match (page_size : Z) (l : list Z) (counts : page_counts) : Prop :=
  ∀ p, counts !! p =
    if decide (count_of (λ a, a `div` page_size * page_size =? p) l = 0) then None
    else Some (count_of (λ a, a `div` page_size * page_size =? p) l).

Definition message_ok `{DhComms} (m : message_t) : Prop :=
  user_type (wave_header m) = mt_address →
  data_item_size m = 8 ∧
  Forall (λ item, ∃ a rest, item = a :: rest ∧ 0 ≤ a < 2 ^ 64) (data_items m).

Lemma count_of_snoc p l a : count_of p (l ++ [a]) = count_of p l + (if p a then 1 else 0).
Proof.
  unfold count_of. rewrite list.filter_app, length_app, Nat2Z.inj_add. f_equal.
  destruct (p a) eqn:Hp.
  - rewrite filter_cons_True by done. done.
  - rewrite filter_cons_False by congruence. done.
Qed.

Lemma count_of_bound p l : 0 ≤ count_of p l ≤ Z.of_nat (length l).
Proof. unfold count_of. split; [lia|]. apply inj_le, list.length_filter. Qed.

Lemma page_of_small page_size a : 0 < page_size → 0 ≤ a < 2 ^ 64 →
  page_of page_size a = a `div` page_size * page_size ∧ 0 ≤ page_of page_size a ≤ a.
Proof.
  intros Hp Ha. pose proof (Z.mul_div_le a page_size Hp). pose proof (Z.div_pos a page_size).
  unfold page_of. rewrite wrap_small by nia. split; [done|]. nia.
Qed.

Lemma count_page_match page_size l counts a rest :
  0 < page_size → 0 ≤ a < 2 ^ 64 → Z.of_nat (length l) + 1 < 2 ^ 64 →
  counts_match page_size l counts →
  ∃ counts', count_page page_size counts (a :: rest) = Ok counts' ∧
    counts_match page_size (l ++ [a]) counts'.
Proof.
  intros Hp Ha Hl Hm. unfold count_page. cbn [item_address res_bind].
  rewrite (proj2 (Z.eqb_neq _ _)) by lia.
  destruct (page_of_small page_size a Hp Ha) as [-> _].
  eexists. split; [reflexivity|]. intros p. rewrite count_of_snoc.
  set (pg := a `div` page_size * page_size).
  pose proof (count_of_bound (λ a, a `div` page_size * page_size =? p) l) as Hb.
  destruct (Z.eqb_spec pg p) as [->|Hne].
  - rewrite lookup_insert_eq, (Hm p). rewrite (decide_False (P := _ + 1 = 0)) by lia. f_equal.
    case_decide as H0; cbn; rewrite ?H0; [done|]. apply wrap_small. lia.
  - rewrite lookup_insert_ne, Z.add_0_r by done. apply Hm.
Qed.

Lemma count_items_match page_size l counts items :
  0 < page_size →
  Forall (λ item, ∃ a rest, item = a :: rest ∧ 0 ≤ a < 2 ^ 64) items →
  Z.of_nat (length l + length items) < 2 ^ 64 →
  counts_match page_size l counts →
  ∃ counts', res_fold (count_page page_size) counts items = Ok counts' ∧
    counts_match page_size
      (l ++ (items ≫= λ item, match item with a :: _ => [a] | [] => [] end)) counts'.
Proof.
  intros Hp Hi. revert l counts. induction Hi as [|item items (a & rest & -> & Ha) Hi IH];
    intros l counts Hl Hm; cbn [res_fold].
  { exists counts. by rewrite app_nil_r. }
  cbn [length] in Hl.
  destruct (count_page_match page_size l counts a rest) as (c1 & -> & Hm1); [done..|lia|done|].
  cbn [res_bind]. destruct (IH (l ++ [a]) c1) as (c2 & H2 & Hm2);
    [rewrite length_app; cbn; lia|done|].
  exists c2. split; [done|]. by rewrite <-app_assoc in Hm2.
Qed.

Lemma length_item_addresses (items : list (list Z)) :
  (length (items ≫= λ item, match item with a :: _ => [a] | [] => [] end) ≤ length items)%nat.
Proof. induction items as [|[|a item] items IH]; cbn in *; lia. Qed.

Section correct.
Context `{DC : DhComms}.

Lemma handle_all_match page_size l counts ms :
  0 < page_size → Forall message_ok ms →
  Z.of_nat (length l + length (ms ≫= data_items)) < 2 ^ 64 →
  counts_match page_size l counts →
  ∃ counts', handle_all page_size counts ms = Ok counts' ∧
    counts_match page_size (l ++ addresses_of ms) counts'.
Proof.
  intros Hp Hms. unfold handle_all. revert l counts.
  induction Hms as [|m ms Hm Hms IH]; intros l counts Hl Hc; cbn [res_fold].
  { exists counts. by rewrite app_nil_r. }
  rewrite bind_cons, length_app in Hl. unfold addresses_of. rewrite bind_cons.
  fold (addresses_of ms). unfold heatmap_handle.
  destruct (Z.eqb_spec (user_type (wave_header m)) mt_address) as [Ht|Ht]; cbn [negb res_bind].
  - destruct (Hm Ht) as [-> Hit]. cbn [Z.eqb Pos.eqb assertb res_bind].
    destruct (count_items_match page_size l counts (data_items m)) as (c1 & -> & Hm1);
      [done..|lia|done|]. cbn [res_bind].
    pose proof (length_item_addresses (data_items m)).
    edestruct IH as (c2 & H2 & Hm2); [|exact Hm1|].
    { rewrite length_app. lia. }
    exists c2. split; [done|]. by rewrite app_assoc.
  - apply IH; [lia|done].
Qed.

(** The heatmap counts correctly: after any sequence of messages (fewer than
    2^64 accesses in all) the handler has no fault, and for every page start [p]
    it holds the number of addresses of the address messages that lie on page
    [p, p + page_size), with no entry for pages never accessed; every key is a
    multiple of the page size. *)
Theorem heatmap_counts page_size ms :
  0 < page_size → Forall message_ok ms → Z.of_nat (length (ms ≫= data_items)) < 2 ^ 64 →
  ∃ counts, handle_all page_size ∅ ms = Ok counts ∧
    ∀ p, counts !! p =
      let n := count_of (λ a, (p <=? a) && (a <? p + page_size)) (addresses_of ms) in
      if decide (p `mod` page_size = 0 ∧ n ≠ 0) then Some n else None.
Proof.
  intros Hp Hms Hl.
  destruct (handle_all_match page_size [] ∅ ms) as (counts & Hh & Hm); [done..|].
  exists counts. split; [done|]. intros p. cbn [app] in Hm. rewrite (Hm p). cbn zeta.
  destruct (decide (p `mod` page_size = 0)) as [H0|H0].
  - assert (∀ a, (a `div` page_size * page_size =? p) = ((p <=? a) && (a <? p + page_size))) as Heq.
    { intros a. apply Z.div_exact in H0; [|lia].
      pose proof (Z.div_mod a page_size ltac:(lia)). pose proof (Z.mod_pos_bound a page_size Hp).
      apply eq_true_iff_eq. rewrite andb_true_iff, Z.eqb_eq, Z.leb_le, Z.ltb_lt.
      split; [lia|]. intros [Hlo Hhi]. assert (a `div` page_size = p `div` page_size) as E; [|nia].
      apply Z.le_antisymm; [|apply Z.div_le_mono; lia].
      apply Z.lt_succ_r, Z.div_lt_upper_bound; nia. }
    assert (count_of (λ a, a `div` page_size * page_size =? p) (addresses_of ms) =
      count_of (λ a, (p <=? a) && (a <? p + page_size)) (addresses_of ms)) as ->.
    { unfold count_of. do 2 f_equal. apply list_filter_iff. intros a. by rewrite Heq. }
    case_decide as Hc; [rewrite decide_False|rewrite decide_True]; naive_solver.
  - rewrite (decide_False (P := _ ∧ _)) by naive_solver. rewrite decide_True; [done|].
    unfold count_of.
    assert (∀ l, filter (λ a, (a `div` page_size * page_size =? p) = true) l = []) as ->;
      [|done].
    intros l. induction l as [|a l IH]; [done|]. rewrite filter_cons_False; [done|].
    intros E%Z.eqb_eq. apply H0. rewrite <-E. apply Z_mod_mult.
Qed.

(** The JSON value of a page's entry. *)
Definition page_value (page_size : Z) (p : Z * Z) : json :=
  JObj [(lit "start_address", JNum (to_dec p.1));
        (lit "end_address", JNum (to_dec (u64 (p.1 + page_size - 1))));
        (lit "accesses", JNum (to_dec p.2))].

Lemma page_json_value page_size p :
  0 ≤ p.1 → 0 ≤ p.2 → json_val (page_value page_size p) (page_json page_size p).
Proof.
  intros H1 H2. unfold page_json, page_value. apply builds_getJSON.
  apply (builds_number [_; _]); [|by apply plain_lit|done].
  apply (builds_number [_]); [|by apply plain_lit|by apply wrap_bound].
  apply (builds_number []); [apply builds_new|by apply plain_lit|done].
Qed.

(** The JSON report of a heatmap: nothing when no page was accessed,
    otherwise one line holding a JSON object that names kernel and dispatch and
    lists, in ascending address order, every page with its first and last address
    and its number of accesses. *)
Theorem heatmap_json_report page_size kernel dispatch_id (counts : page_counts) :
  plain kernel → 0 ≤ dispatch_id → map_Forall (λ p n, 0 ≤ p ∧ 0 ≤ n) counts →
  ∃ text, heatmap_report page_size true kernel dispatch_id counts = Ok text ∧
    (counts = ∅ → text = []) ∧
    (counts ≠ ∅ → parse_json text = Some (JObj
       [(lit "kernel", JStr kernel); (lit "dispatch_id", JNum (to_dec dispatch_id));
        (lit "pages", JArr (page_value page_size <$> map_items counts))]) ∧
     StronglySorted item_le (map_items counts) ∧
     ∀ p n, (p, n) ∈ map_items counts ↔ counts !! p = Some n).
Proof.
  intros Hk Hd Hc. unfold heatmap_report. cbn [negb].
  destruct (decide (counts = ∅)) as [->|Hne].
  { rewrite map_items_empty, bool_decide_eq_true_2 by done. by exists []. }
  rewrite bool_decide_eq_false_2 by (by rewrite map_items_nil).
  destruct (builds_vector (T := bytes) [(lit "kernel", JStr kernel); (lit "dispatch_id", JNum (to_dec dispatch_id))]
    (addField (addField json_new (lit "kernel") kernel true false) (lit "dispatch_id") dispatch_id false false)
    (lit "pages") (page_json page_size <$> map_items counts) false false
    (page_value page_size <$> map_items counts)) as (json & -> & Hb).
  - apply (builds_number [_]); [|by apply plain_lit|done].
    apply (builds_string []); [apply builds_new|by apply plain_lit|done].
  - by apply plain_lit.
  - intros ?%fmap_nil_inv%map_items_nil. done.
  - rewrite <-list_fmap_compose. apply Forall2_fmap_2.
    apply Forall_Forall2_diag, list.Forall_forall. intros [p n] Hin.
    rewrite elem_of_map_items in Hin. destruct (Hc p n Hin). by apply page_json_value.
  - cbn [res_bind]. eexists. split; [reflexivity|]. split; [done|]. intros _.
    split; [|split; [apply map_items_sorted|apply elem_of_map_items]].
    apply (parse_json_ws [] _ _ [newline]); [by apply builds_getJSON|constructor|by repeat constructor].
Qed.
End correct.

Section examples.
#[local] Existing Instance dh_comms_values.

Definition heat_message : message_t :=
  Message (WaveHeader 0 0 3 0 0 0 0 1 0 0 0 0 0 0 0 2) 8 [[4096]; [8191]; [20]].

Lemma heatmap_counts_witness :
  ∃ counts, handle_all 4096 ∅ [heat_message] = Ok counts ∧
    counts !! 4096 = Some 2 ∧ counts !! 0 = Some 1 ∧ counts !! 8192 = None.
Proof.
  destruct (heatmap_counts 4096 [heat_message]) as (counts & Hh & Hc).
  - lia.
  - repeat constructor; repeat eexists; lia.
  - cbn. lia.
  - exists counts. split; [exact Hh|]. rewrite !Hc. repeat split.
Defined.

Lemma heatmap_json_report_witness :
  ∃ text, heatmap_report 4096 true (lit "k") 1 {[ 4096 := 2; 0 := 1 ]} = Ok text ∧
    parse_json text = Some (JObj
      [(lit "kernel", JStr (lit "k")); (lit "dispatch_id", JNum (lit "1"));
       (lit "pages", JArr [page_value 4096 (0, 1); page_value 4096 (4096, 2)])]).
Proof.
  destruct (heatmap_json_report 4096 (lit "k") 1 {[ 4096 := 2; 0 := 1 ]})
    as (text & Ht & _ & Hp).
  - by apply plain_lit.
  - lia.
  - intros p n [[<- <-]|[_ [<- <-]%lookup_singleton_Some]]%lookup_insert_Some; lia.
  - exists text. split; [exact Ht|]. destruct Hp as [Hp _].
    + intros H. apply (f_equal (lookup 4096)) in H. discriminate H.
    + rewrite Hp. reflexivity.
Defined.
End examples.
