(* ===== verification/TimeInterval.v ===== *)
(** * Time intervals

    [time_interval_handler_t] (src/src/time_interval_handler.cc) and
    [time_interval_handler_wrapper] (src/src/time_interval_handler_wrapper.cc):
    the first start, last stop and total of the intervals reported by the waves,
    and the time spent in each basic block. *)
From S2P Require Import Prelude StdString Message Json Doubles.

(** ** The handler *)
Record interval_state := IntervalState {
  first_start_ : Z;
  last_stop_ : Z;
  total_time_ : Z;
  no_intervals_ : Z;
}.

Definition new_interval_handler : interval_state := IntervalState (2 ^ 64 - 1) 0 0 0.

Definition add_interval (st : interval_state) (item : list Z) : res interval_state :=
  match item with
  | start :: stop :: _ =>
      let! _ := assertb (start <=? stop) in
      Ok (IntervalState
            (if start <? first_start_ st then start else first_start_ st)
            (if last_stop_ st <? stop then stop else last_stop_ st)
            (u64 (total_time_ st + (stop - start)))
            (u64 (no_intervals_ st + 1)))
  | _ => Err FUB
  end.

Definition interval_handle `{DhComms} (message : message_t) (st : interval_state)
    : res (bool * interval_state) :=
  if negb (user_type (wave_header message) =? mt_time_interval) then Ok (false, st) else
  let! _ := assertb (data_item_size message =? 16) in
  let! st' := res_fold add_interval st (data_items message) in
  Ok (true, st').

Definition interval_clear (st : interval_state) : interval_state := IntervalState 0 0 0 0.

Definition endl : bytes := [newline].

Definition interval_report (json_format : bool) (st : interval_state) : bytes :=
  if json_format || (no_intervals_ st =? 0) then [] else
  let average_time := ddiv (double_of_Z (total_time_ st)) (double_of_Z (no_intervals_ st)) in
  let span := u64 (last_stop_ st - first_start_ st) in
  lit "time_interval report:" ++ endl ++
  [tab] ++ lit "total time for all " ++ to_dec (no_intervals_ st) ++ lit " intervals: " ++
    to_dec (total_time_ st) ++ endl ++
  [tab] ++ lit "average time per interval: " ++ show_double average_time ++ endl ++
  [tab] ++ lit "first start: " ++ to_dec (first_start_ st) ++ endl ++
  [tab] ++ lit "last stop: " ++ to_dec (last_stop_ st) ++ endl ++
  [tab] ++ lit "time from first start to last stop: " ++ to_dec span ++
  [tab] ++ lit "   (" ++ show_double (ddiv (double_of_Z span) average_time) ++
    lit " times the average interval time)" ++ endl.

(** ** The wrapper that attributes time to basic blocks *)
Record wrapper_state := WrapperState {
  strKernel_ : bytes;
  dispatch_id_ : Z;
  current_block_ : option Z;
  start_time_ : Z;
  block_timings_ : gmap Z Z;
  wrapped_ : interval_state;
}.

Definition new_wrapper (kernel : bytes) (dispatch_id : Z) : wrapper_state :=
  WrapperState kernel dispatch_id None 0 ∅ new_interval_handler.

Section wrapper.
Context `{DC : DhComms, KD : KernelDB kdb}.
Variable kernel_name : bytes.

(** The body of the [try] block. *)
Definition enter_block (db : kdb) (hdr : wave_header_t) (st : wrapper_state) : res wrapper_state :=
  if negb (user_type hdr =? mt_time_interval) then Ok st else
  let! instructions := getInstructionsForLine db kernel_name (dwarf_line hdr) in
  match instructions with
  | [] => Ok st
  | inst :: _ =>
      let elapsed := u64 (timestamp hdr - start_time_ st) in
      let timings :=
        match current_block_ st with
        | Some b =>
            match block_timings_ st !! b with
            | Some t => <[ b := u64 (t + elapsed) ]> (block_timings_ st)
            | None => <[ b := elapsed ]> (block_timings_ st)
            end
        | None => block_timings_ st
        end in
      Ok (WrapperState (strKernel_ st) (dispatch_id_ st) (Some (block_ inst)) (timestamp hdr)
            timings (wrapped_ st))
  end.

Definition wrapper_handle (kdb_p : option kdb) (message : message_t) (st : wrapper_state)
    : res (bool * wrapper_state) :=
  let! st1 :=
    match kdb_p with
    | Some db =>
        match enter_block db (wave_header message) st with
        | Err (FThrow _) => Ok st
        | r => r
        end
    | None => Ok st
    end in
  let! ' (b, w) := interval_handle message (wrapped_ st1) in
  Ok (b, WrapperState (strKernel_ st1) (dispatch_id_ st1) (current_block_ st1) (start_time_ st1)
           (block_timings_ st1) w).

Definition wrapper_clear (st : wrapper_state) : wrapper_state :=
  WrapperState [] 0 (current_block_ st) (start_time_ st) (block_timings_ st)
    (interval_clear (wrapped_ st)).

(** What goes to [std::cerr], then the text of the wrapped handler's report.  The
    wrapped handler is constructed without a location, so that text goes to a
    stream on the empty file name. *)
Definition wrapper_report (json_format : bool) (st : wrapper_state) : bytes * bytes :=
  (lit "omniprobe time_interval report for kernel " ++ strKernel_ st ++ lit " dispatch[" ++
     to_dec (dispatch_id_ st) ++ lit "]" ++ endl,
   interval_report json_format (wrapped_ st)).
End wrapper.

(** ** What the statistics mean *)

(** The intervals carried by a sequence of messages. *)
Definition intervals_of `{DhComms} (ms : list message_t) : list (Z * Z) :=
  ms ≫= λ m, if user_type (wave_header m) =? mt_time_interval
             then data_items m ≫= λ item,
                    match item with a :: b :: _ => [(a, b)] | _ => [] end
             else [].

Definition interval_message_ok `{DhComms} (m : message_t) : Prop :=
  user_type (wave_header m) = mt_time_interval →
  data_item_size m = 16 ∧
  Forall (λ item, ∃ a b rest, item = a :: b :: rest ∧ 0 ≤ a ≤ b ∧ b < 2 ^ 64) (data_items m).

Definition handle_intervals `{DhComms} (st : interval_state) (ms : list message_t)
    : res interval_state :=
  res_fold (λ s m, let! ' (_, s') := interval_handle m s in Ok s') st ms.

(** The state after the intervals [l], starting from minimum [lo]. *)
Record summarises (lo : Z) (l : list (Z * Z)) (st : interval_state) : Prop := {
  sum_first : first_start_ st = foldr Z.min lo l.*1;
  sum_last : last_stop_ st = foldr Z.max 0 l.*2;
  sum_total : total_time_ st = u64 (foldr (λ i n, i.2 - i.1 + n) 0 l);
  sum_count : no_intervals_ st = u64 (Z.of_nat (length l));
}.

Lemma foldr_min_snoc lo l x : foldr Z.min lo (l ++ [x]) = Z.min x (foldr Z.min lo l).
Proof. induction l as [|y l IH]; cbn; [done|]. rewrite IH. lia. Qed.
Lemma foldr_max_snoc lo l x : foldr Z.max lo (l ++ [x]) = Z.max x (foldr Z.max lo l).
Proof. induction l as [|y l IH]; cbn; [done|]. rewrite IH. lia. Qed.
Lemma foldr_span_snoc l (i : Z * Z) :
  foldr (λ i n, i.2 - i.1 + n) 0 (l ++ [i]) = foldr (λ i n, i.2 - i.1 + n) 0 l + (i.2 - i.1).
Proof. induction l as [|y l IH]; cbn; [lia|]. rewrite IH. lia. Qed.

Lemma add_interval_summarises lo l st a b rest :
  a ≤ b → summarises lo l st →
  ∃ st', add_interval st (a :: b :: rest) = Ok st' ∧ summarises lo (l ++ [(a, b)]) st'.
Proof.
  intros Hab [H1 H2 H3 H4]. unfold add_interval. rewrite (proj2 (Z.leb_le _ _) Hab).
  cbn [assertb res_bind]. eexists. split; [reflexivity|].
  split; cbn [first_start_ last_stop_ total_time_ no_intervals_].
  - rewrite fmap_app. change ([(a, b)].*1) with [a]. rewrite foldr_min_snoc, H1. destruct (Z.ltb_spec a (foldr Z.min lo l.*1)); lia.
  - rewrite fmap_app. change ([(a, b)].*2) with [b]. rewrite foldr_max_snoc, H2. destruct (Z.ltb_spec (foldr Z.max 0 l.*2) b); lia.
  - by rewrite foldr_span_snoc, H3, wrap_add_l.
  - rewrite length_app, H4, wrap_add_l. f_equal. cbn. lia.
Qed.

Lemma handle_intervals_summarises `{DhComms} lo l st ms :
  Forall interval_message_ok ms → summarises lo l st →
  ∃ st', handle_intervals st ms = Ok st' ∧ summarises lo (l ++ intervals_of ms) st'.
Proof.
  intros Hms. unfold handle_intervals. revert l st.
  induction Hms as [|m ms Hm Hms IH]; intros l st Hst; cbn [res_fold].
  { exists st. by rewrite app_nil_r. }
  unfold intervals_of. rewrite bind_cons. fold (intervals_of ms). unfold interval_handle.
  destruct (Z.eqb_spec (user_type (wave_header m)) mt_time_interval) as [Ht|Ht];
    cbn [negb res_bind]; [|by apply IH].
  destruct (Hm Ht) as [-> Hit]. cbn [Z.eqb Pos.eqb assertb res_bind].
  assert (∃ st1, res_fold add_interval st (data_items m) = Ok st1 ∧
    summarises lo (l ++ (data_items m ≫= λ item,
      match item with a :: b :: _ => [(a, b)] | _ => [] end)) st1) as (st1 & -> & Hst1).
  { clear Hm Ht IH. revert l st Hst. induction Hit as [|item items (a & b & rest & -> & Ha & Hb) Hit IH];
      intros l st Hst; cbn [res_fold].
    { exists st. by rewrite app_nil_r. }
    destruct (add_interval_summarises lo l st a b rest) as (st1 & -> & Hst1); [lia|done|].
    cbn [res_bind]. destruct (IH _ _ Hst1) as (st2 & Hf & Hst2). exists st2. split; [done|].
    by rewrite <-app_assoc in Hst2. }
  cbn [res_bind]. destruct (IH _ _ Hst1) as (st2 & Hf & Hst2). exists st2. split; [done|].
  by rewrite <-app_assoc in Hst2.
Qed.

(** After construction and any sequence of messages whose intervals have
    start at most stop, the handler has not faulted and holds exactly the
    earliest start, the latest stop, the total of the lengths (modulo 2^64) and the
    number of the intervals of the time-interval messages. *)
Theorem time_intervals_exact `{DhComms} ms :
  Forall interval_message_ok ms →
  ∃ st, handle_intervals new_interval_handler ms = Ok st ∧
    let l := intervals_of ms in
    (∀ i, i ∈ l → first_start_ st ≤ i.1 ∧ i.2 ≤ last_stop_ st) ∧
    (l ≠ [] → first_start_ st ∈ l.*1 ∧ last_stop_ st ∈ l.*2) ∧
    total_time_ st = u64 (foldr (λ i n, i.2 - i.1 + n) 0 l) ∧
    no_intervals_ st = u64 (Z.of_nat (length l)).
Proof.
  intros Hms.
  destruct (handle_intervals_summarises (2 ^ 64 - 1) [] new_interval_handler ms Hms)
    as (st & Hst & [H1 H2 H3 H4]); [by split|]. cbn [app] in *.
  exists st. split; [done|]. cbn zeta.
  assert (Forall (λ i, 0 ≤ i.1 ≤ i.2 ∧ i.2 < 2 ^ 64) (intervals_of ms)) as Hb.
  { clear -Hms. induction Hms as [|m ms Hm Hms IH]; [by apply list.Forall_nil_2|].
    unfold intervals_of. rewrite bind_cons. apply Forall_app. split; [|exact IH].
    destruct (Z.eqb_spec (user_type (wave_header m)) mt_time_interval) as [Ht|Ht];
      [|by apply list.Forall_nil_2].
    destruct (Hm Ht) as [_ Hit].
    induction Hit as [|item items (a & b & rest & -> & Ha & Hb) Hit IHi]; [by apply list.Forall_nil_2|].
    rewrite bind_cons. by constructor. }
  revert H1 H2. generalize (first_start_ st) (last_stop_ st). intros f g -> ->.
  split_and!; [| |done..]; clear -Hb.
  - intros i Hi. induction (intervals_of ms) as [|j l IH]; [by apply elem_of_nil in Hi|].
    apply list.Forall_cons in Hb as [_ Hb]. cbn.
    apply elem_of_cons in Hi as [->|Hi]; [lia|]. specialize (IH Hb Hi). lia.
  - intros Hne. induction (intervals_of ms) as [|j l IH]; [done|].
    apply list.Forall_cons in Hb as [Hj Hb]. cbn.
    destruct (decide (l = [])) as [->|Hl].
    + cbn. rewrite Z.min_l, Z.max_l by lia. split; apply list_elem_of_singleton; done.
    + destruct (IH Hb Hl) as [Hm HM]. split.
      * destruct (Z.min_spec j.1 (foldr Z.min (2 ^ 64 - 1) l.*1)) as [[? ->]|[? ->]];
          [by left|by right].
      * destruct (Z.max_spec j.2 (foldr Z.max 0 l.*2)) as [[? ->]|[? ->]]; [by right|by left].
Qed.

(** [clear] does not restore the constructed state: it sets the first start to
    0, and whatever valid messages follow, it stays 0, so a report after a [clear]
    gives 0 as first start, and counts the span to the last stop from 0. *)
Theorem clear_loses_first_start `{DhComms} st ms :
  Forall interval_message_ok ms →
  ∃ st', handle_intervals (interval_clear st) ms = Ok st' ∧
    first_start_ st' = 0 ∧ first_start_ new_interval_handler ≠ first_start_ (interval_clear st).
Proof.
  intros Hms.
  destruct (handle_intervals_summarises 0 [] (interval_clear st) ms Hms)
    as (st' & Hst & [H1 _ _ _]); [by split|]. cbn [app] in H1.
  exists st'. split; [done|]. split; [|done]. rewrite H1.
  assert (Forall (λ i, 0 ≤ i) (intervals_of ms).*1) as Hb.
  { clear -Hms. induction Hms as [|m ms Hm Hms IH]; [by apply list.Forall_nil_2|].
    unfold intervals_of. rewrite bind_cons, fmap_app. apply Forall_app. split; [|exact IH].
    destruct (Z.eqb_spec (user_type (wave_header m)) mt_time_interval) as [Ht|Ht];
      [|by apply list.Forall_nil_2].
    destruct (Hm Ht) as [_ Hit].
    induction Hit as [|item items (a & b & rest & -> & Ha & Hb) Hit IHi]; [by apply list.Forall_nil_2|].
    rewrite bind_cons, fmap_app. constructor; [cbn; lia|done]. }
  clear -Hb. induction Hb as [|x l Hx Hl IH]; cbn; [done|]. rewrite IH. lia.
Qed.

(** *** Time per basic block *)
Section attribution.
Context `{DC : DhComms, KD : KernelDB kdb}.
Implicit Types st : wrapper_state.

(** The messages that enter a block: time-interval messages whose line has
    instructions in the database. *)
Definition entry_of (kernel_name : bytes) (db : kdb) (m : message_t) : option (Z * Z) :=
  if user_type (wave_header m) =? mt_time_interval then
    match getInstructionsForLine db kernel_name (dwarf_line (wave_header m)) with
    | Ok (inst :: _) => Some (block_ inst, timestamp (wave_header m))
    | _ => None
    end
  else None.

Definition enter (st : wrapper_state) (e : Z * Z) : wrapper_state :=
  let elapsed := u64 (e.2 - start_time_ st) in
  WrapperState (strKernel_ st) (dispatch_id_ st) (Some e.1) e.2
    match current_block_ st with
    | Some b => <[ b := u64 (default 0 (block_timings_ st !! b) + elapsed) ]> (block_timings_ st)
    | None => block_timings_ st
    end (wrapped_ st).

Definition lookups_throw (kernel_name : bytes) (db : kdb) : Prop :=
  ∀ line f, getInstructionsForLine db kernel_name line = Err f → ∃ w, f = FThrow w.

Lemma wrapper_handle_entry kernel_name db m st :
  lookups_throw kernel_name db →
  wrapper_handle kernel_name (Some db) m st =
    let st1 := match entry_of kernel_name db m with Some e => enter st e | None => st end in
    let! ' (b, w) := interval_handle m (wrapped_ st1) in
    Ok (b, WrapperState (strKernel_ st1) (dispatch_id_ st1) (current_block_ st1)
             (start_time_ st1) (block_timings_ st1) w).
Proof.
  intros Hthrow. unfold wrapper_handle, enter_block, entry_of.
  destruct (user_type (wave_header m) =? mt_time_interval); cbn [negb]; [|done].
  destruct (getInstructionsForLine db kernel_name _) as [[|i l]|f] eqn:Hl; cbn [res_bind]; [done| |].
  - unfold enter. destruct (current_block_ st) as [b|]; [|done].
    destruct (block_timings_ st !! b) as [t|]; cbn; [done|]. by rewrite Z.add_0_l, wrap_wrap.
  - destruct (Hthrow _ _ Hl) as [w ->]. done.
Qed.

(** All time up to the last entry is attributed. *)
Definition attributed (t0 : Z) (st : wrapper_state) : Prop :=
  is_Some (current_block_ st) ∧
  u64 (map_sum (block_timings_ st)) = u64 (start_time_ st - t0).

Lemma enter_attributed t0 st e : attributed t0 st → attributed t0 (enter st e).
Proof.
  intros [[b Hb] Hs]. unfold enter. rewrite Hb. split; cbn; [by eexists|].
  rewrite map_sum_insert, wrap_add_r.
  replace (map_sum (block_timings_ st) - default 0 (block_timings_ st !! b) +
    (default 0 (block_timings_ st !! b) + u64 (e.2 - start_time_ st)))
    with (map_sum (block_timings_ st) + u64 (e.2 - start_time_ st)) by lia.
  rewrite wrap_add_r, <-wrap_add_l, Hs, wrap_add_l. f_equal. lia.
Qed.

Definition wrapper_run (kernel_name : bytes) (db : kdb) (st : wrapper_state)
    (ms : list message_t) : res wrapper_state :=
  res_fold (λ s m, let! ' (_, s') := wrapper_handle kernel_name (Some db) m s in Ok s') st ms.

Lemma wrapper_run_entries kernel_name db ms st st' :
  lookups_throw kernel_name db → wrapper_run kernel_name db st ms = Ok st' →
  let st2 := foldl enter st (omap (entry_of kernel_name db) ms) in
  current_block_ st' = current_block_ st2 ∧ start_time_ st' = start_time_ st2 ∧
  block_timings_ st' = block_timings_ st2.
Proof.
  intros Ht. assert (∀ a b e, current_block_ a = current_block_ b →
    start_time_ a = start_time_ b → block_timings_ a = block_timings_ b →
    current_block_ (enter a e) = current_block_ (enter b e) ∧
    start_time_ (enter a e) = start_time_ (enter b e) ∧
    block_timings_ (enter a e) = block_timings_ (enter b e)) as Hent.
  { intros a b e H1 H2 H3. unfold enter. cbn. by rewrite H1, H2, H3. }
  assert (∀ a st', current_block_ a = current_block_ st → start_time_ a = start_time_ st →
    block_timings_ a = block_timings_ st → wrapper_run kernel_name db a ms = Ok st' →
    let st2 := foldl enter st (omap (entry_of kernel_name db) ms) in
    current_block_ st' = current_block_ st2 ∧ start_time_ st' = start_time_ st2 ∧
    block_timings_ st' = block_timings_ st2) as H; [|by apply H].
  revert st. clear st'. unfold wrapper_run.
  induction ms as [|m ms IH]; intros st a st' H1 H2 H3; cbn [res_fold omap list_omap].
  { intros [= <-]. done. }
  rewrite wrapper_handle_entry by done. cbn zeta.
  destruct (entry_of kernel_name db m) as [e|]; cbn zeta iota;
    (destruct (interval_handle m _) as [[b w]|]; cbn [res_bind]; [|done]); intros Hr.
  - destruct (Hent a st e H1 H2 H3) as (E1 & E2 & E3). eapply IH; [..|exact Hr]; done.
  - eapply IH; [..|exact Hr]; done.
Qed.

(** Every tick is attributed to exactly one block: when the first message
    that enters a block carries time [t0], then after any further messages the
    times of all blocks sum up (modulo 2^64) to the time of the latest entry minus
    [t0]. *)
Theorem block_timings_conserve_time kernel_name db kernel dispatch ms st b0 t0 entries :
  lookups_throw kernel_name db →
  wrapper_run kernel_name db (new_wrapper kernel dispatch) ms = Ok st →
  omap (entry_of kernel_name db) ms = (b0, t0) :: entries →
  u64 (map_sum (block_timings_ st)) =
    u64 (default t0 (list.last entries.*2) - t0).
Proof.
  intros Ht Hr He.
  destruct (wrapper_run_entries _ _ _ _ _ Ht Hr) as (_ & Hs & Hb). rewrite He in Hs, Hb.
  cbn [foldl] in Hs, Hb. rewrite Hb. clear Hb Hr He.
  set (st0 := enter (new_wrapper kernel dispatch) (b0, t0)) in *.
  assert (attributed t0 st0) as H0.
  { split; [by eexists|]. unfold st0. cbn. rewrite (map_sum_empty (K := Z)). by rewrite Z.sub_diag. }
  assert (∀ s, attributed t0 s → u64 (map_sum (block_timings_ (foldl enter s entries))) =
    u64 (default (start_time_ s) (list.last entries.*2) - t0)) as H; [|by apply H].
  clear. induction entries as [|e entries IH]; intros s Hs; cbn [foldl].
  { by destruct Hs. }
  rewrite IH by (by apply enter_attributed). do 2 f_equal. cbn.
  destruct entries as [|e' entries]; [done|]. cbn.
  by destruct (list.last (e'.2 :: entries.*2)) eqn:Hl; [|by apply last_None in Hl].
Qed.
End attribution.

Section examples.
#[local] Existing Instance dh_comms_values.
#[local] Existing Instance kernel_db_values.

Definition interval_message (line ts : Z) (items : list (list Z)) : message_t :=
  Message (WaveHeader 1 0 1 ts 0 line 0 1 0 0 0 0 0 0 0 1) 16 items.

Lemma time_intervals_exact_witness :
  ∃ st, handle_intervals new_interval_handler
      [interval_message 1 0 [[10; 25]]; interval_message 1 0 [[5; 7]]] = Ok st ∧
    total_time_ st = 17 ∧ no_intervals_ st = 2.
Proof.
  destruct (time_intervals_exact
    [interval_message 1 0 [[10; 25]]; interval_message 1 0 [[5; 7]]]) as (st & Hst & _ & _ & Ht & Hn).
  - repeat constructor; repeat eexists; lia.
  - exists st. split; [exact Hst|]. rewrite Ht, Hn. vm_compute. split; reflexivity.
Defined.

Lemma clear_loses_first_start_witness :
  ∃ st', handle_intervals (interval_clear new_interval_handler)
      [interval_message 1 0 [[10; 25]]] = Ok st' ∧ first_start_ st' = 0.
Proof.
  destruct (clear_loses_first_start new_interval_handler [interval_message 1 0 [[10; 25]]])
    as (st' & Hst & H0 & _).
  - repeat constructor; repeat eexists; lia.
  - exists st'. split; [exact Hst|exact H0].
Defined.

(** Block 100 is entered at 5 and 30, block 200 at 12. *)
Definition timing_db : table_kdb :=
  TableKdb [(lit "k", Instruction (lit "s_nop") [] 1 0 0 100);
            (lit "k", Instruction (lit "s_nop") [] 2 0 0 200)] [] [].

Definition timing_messages : list message_t :=
  [interval_message 1 5 [[1; 2]]; interval_message 2 12 [[1; 2]]; interval_message 1 30 [[1; 2]]].

Lemma block_timings_conserve_time_witness :
  match wrapper_run (lit "k") timing_db (new_wrapper (lit "k") 1) timing_messages with
  | Ok st => u64 (map_sum (block_timings_ st)) = u64 (30 - 5)
  | Err _ => False
  end.
Proof.
  destruct (wrapper_run (lit "k") timing_db (new_wrapper (lit "k") 1) timing_messages)
    as [st|f] eqn:Hr.
  - apply (block_timings_conserve_time (lit "k") timing_db (lit "k") 1 timing_messages st 100 5
      [(200, 12); (100, 30)]).
    + intros line f. cbn. case_match; [|done]. intros [= <-]. by eexists.
    + exact Hr.
    + vm_compute. reflexivity.
  - vm_compute in Hr. discriminate Hr.
Defined.
End examples.
