(* ===== verification/CoCache.v ===== *)
(** * The code-object cache

    [coCache] ([src/utils.cc], [inc/utils.h]): the tables that lead from a
    kernel of the application to its instrumented clone, and from the clone to
    the layout of its arguments.

    The HSA runtime, the AMD loader, comgr, the file system, [std::regex] and
    the symbol demangler are interfaces: [HsaLoader] has one operation per call
    the cache makes, and [None] is a status other than success. *)
From S2P Require Import Prelude StdString Names KernArgs.

Inductive symbol_kind_t := SYMBOL_VARIABLE | SYMBOL_KERNEL | SYMBOL_INDIRECT_FUNCTION.
#[export] Instance symbol_kind_eq_dec : EqDecision symbol_kind_t.
Proof. solve_decision. Defined.

Inductive load_status_t := LOAD_SUCCESS | LOAD_INCOMPATIBLE_ARGUMENTS | LOAD_ERROR.
Inductive storage_type_t := STORAGE_NONE | STORAGE_FILE | STORAGE_MEMORY.

Class HsaLoader := {
  symbol_kind : Z → option symbol_kind_t;
  symbol_kernel_object : Z → option Z;
  symbol_name : Z → option bytes;
  symbol_kernarg_size : Z → option Z;
  symbol_agent : Z → option Z;
  (** can throw *)
  extractCodeObjects : Z → bytes → res (list bytes);
  file_opens : bytes → bool;
  file_contents : bytes → option bytes;
  executable_create : bytes → option Z;
  code_object_reader_create : bytes → bool;
  load_agent_code_object : Z → Z → bytes → load_status_t;
  executable_freeze : Z → bool;
  iterate_symbols : Z → list Z;
  query_executable : Z → option Z;
  query_host_address : Z → option Z;
  (** the member of the [amd_kernel_code_t] at an address *)
  kernarg_segment_alignment : Z → Z;
  loaded_code_objects : Z → list Z;
  lco_uri_length : Z → option Z;
  lco_uri : Z → option bytes;
  lco_storage_type : Z → option storage_type_t;
  lco_memory : Z → Z * Z;
  lco_file_fd : Z → Z;
  dup : Z → Z;
  fd_size : Z → option Z;
  read_fd : Z → Z → option bytes;
  read_memory : Z → Z → bytes;
  demangleName : bytes → bytes;
  regex_search : bytes → bytes → option bool;
}.

(** [CHECK_STATUS(msg, status)] *)
Definition check_status {A} (status : option A) : res A :=
  match status with Some a => Ok a | None => Err FAbort end.

(** [struct CodeObjectRef] *)
Record CodeObjectRef := CORef { source_file : bytes; co_file : bytes; mangled_name : bytes }.

(** ** State: [class coCache] *)
Record coCache := CoCache {
  filelist_ : list bytes;
  location_ : bytes;
  kernels_ : gmap Z (list Z);
  lookup_map_ : gmap Z (gmap bytes Z);
  arg_map_ : gmap Z (gmap bytes arg_descriptor_t);
  cache_objects_ : gmap Z (Z * bytes);
  alternatives_ : gmap Z (gmap Z Z);
  kernarg_sizes_ : gmap Z Z;
  kernel_co_map_ : gmap Z (gmap bytes CodeObjectRef);
  runtime_kernel_objects_ : gmap Z (gmap bytes Z);
  excluded_executable_cache_ : gmap Z bool;
}.

Definition new_coCache : coCache := CoCache [] [] ∅ ∅ ∅ ∅ ∅ ∅ ∅ ∅ ∅.

(** Assignments to one member. *)
Definition set_files (fs : list bytes) (loc : bytes) (c : coCache) : coCache :=
  CoCache fs loc (kernels_ c) (lookup_map_ c) (arg_map_ c) (cache_objects_ c) (alternatives_ c)
    (kernarg_sizes_ c) (kernel_co_map_ c) (runtime_kernel_objects_ c)
    (excluded_executable_cache_ c).
Definition set_kernels m (c : coCache) : coCache :=
  CoCache (filelist_ c) (location_ c) m (lookup_map_ c) (arg_map_ c) (cache_objects_ c)
    (alternatives_ c) (kernarg_sizes_ c) (kernel_co_map_ c) (runtime_kernel_objects_ c)
    (excluded_executable_cache_ c).
Definition set_lookup_map m (c : coCache) : coCache :=
  CoCache (filelist_ c) (location_ c) (kernels_ c) m (arg_map_ c) (cache_objects_ c)
    (alternatives_ c) (kernarg_sizes_ c) (kernel_co_map_ c) (runtime_kernel_objects_ c)
    (excluded_executable_cache_ c).
Definition set_arg_map m (c : coCache) : coCache :=
  CoCache (filelist_ c) (location_ c) (kernels_ c) (lookup_map_ c) m (cache_objects_ c)
    (alternatives_ c) (kernarg_sizes_ c) (kernel_co_map_ c) (runtime_kernel_objects_ c)
    (excluded_executable_cache_ c).
Definition set_cache_objects m (c : coCache) : coCache :=
  CoCache (filelist_ c) (location_ c) (kernels_ c) (lookup_map_ c) (arg_map_ c) m
    (alternatives_ c) (kernarg_sizes_ c) (kernel_co_map_ c) (runtime_kernel_objects_ c)
    (excluded_executable_cache_ c).
Definition set_alternatives m (c : coCache) : coCache :=
  CoCache (filelist_ c) (location_ c) (kernels_ c) (lookup_map_ c) (arg_map_ c)
    (cache_objects_ c) m (kernarg_sizes_ c) (kernel_co_map_ c) (runtime_kernel_objects_ c)
    (excluded_executable_cache_ c).
Definition set_kernarg_sizes m (c : coCache) : coCache :=
  CoCache (filelist_ c) (location_ c) (kernels_ c) (lookup_map_ c) (arg_map_ c)
    (cache_objects_ c) (alternatives_ c) m (kernel_co_map_ c) (runtime_kernel_objects_ c)
    (excluded_executable_cache_ c).
Definition set_kernel_co_map m (c : coCache) : coCache :=
  CoCache (filelist_ c) (location_ c) (kernels_ c) (lookup_map_ c) (arg_map_ c)
    (cache_objects_ c) (alternatives_ c) (kernarg_sizes_ c) m (runtime_kernel_objects_ c)
    (excluded_executable_cache_ c).
Definition set_runtime_objects m (c : coCache) : coCache :=
  CoCache (filelist_ c) (location_ c) (kernels_ c) (lookup_map_ c) (arg_map_ c)
    (cache_objects_ c) (alternatives_ c) (kernarg_sizes_ c) (kernel_co_map_ c) m
    (excluded_executable_cache_ c).
Definition set_excluded m (c : coCache) : coCache :=
  CoCache (filelist_ c) (location_ c) (kernels_ c) (lookup_map_ c) (arg_map_ c)
    (cache_objects_ c) (alternatives_ c) (kernarg_sizes_ c) (kernel_co_map_ c)
    (runtime_kernel_objects_ c) m.

(** [m[agent][k]], and [auto it = m.find(agent); if (it != m.end())
    it->second[k] = v; else m[agent] = {{k, v}};] *)
Section nested.
Context {K V : Type} `{Countable K}.

Definition lookup2 (m : gmap Z (gmap K V)) (agent : Z) (k : K) : option V :=
  match m !! agent with Some inner => inner !! k | None => None end.

Definition insert2 (m : gmap Z (gmap K V)) (agent : Z) (k : K) (v : V) : gmap Z (gmap K V) :=
  match m !! agent with
  | Some inner => <[agent := <[k := v]> inner]> m
  | None => <[agent := {[k := v]}]> m
  end.
End nested.

Section ops.
Context `{HL : HsaLoader} {node : Type} {CG : Comgr node}.
(** The comgr metadata of the bytes of a code object. *)
Context (comgr_metadata : bytes → option node).

(** [KernelArgHelper(file_name)], reading the file. *)
Definition new_KernelArgHelper (file_name : bytes) : res (gmap bytes arg_descriptor_t) :=
  match file_name with
  | [] => Ok ∅
  | _ =>
      match file_contents file_name with
      | None => Err (FThrow (lit "vector::_M_default_append"))
      | Some buff => helper_addCodeObject demangleName (comgr_metadata buff) ∅
      end
  end.

(** ** Loading files *)
Record loaded_t := Loaded {
  ld_executable : Z; ld_helper : gmap bytes arg_descriptor_t; ld_file : bytes }.

Definition load_code_object (agent : Z) (loaded : list loaded_t) (co : bytes)
    : res (list loaded_t) :=
  if negb (file_opens co) then Ok loaded
  else
    let! executable := check_status (executable_create co) in
    if negb (code_object_reader_create co) then Ok loaded
    else
      match load_agent_code_object executable agent co with
      | LOAD_INCOMPATIBLE_ARGUMENTS => Ok loaded
      | LOAD_ERROR => Err FAbort
      | LOAD_SUCCESS =>
          let! helper := new_KernelArgHelper co in
          Ok (loaded ++ [Loaded executable helper co])
      end.

(** Does the kernel filter let a demangled name through? *)
Definition filter_accepts (strFilter strName : bytes) : res bool :=
  match strFilter with
  | [] => Ok true
  | _ => check_status (regex_search strFilter strName)
  end.

(** What is done with a kernel's name, and a symbol that is no kernel. *)
Definition enter_symbol (name : bytes) (agent : Z) (strFilter : bytes) (l : loaded_t)
    (c : coCache) (sym : Z) : res coCache :=
  let! sym_name := check_status (symbol_name sym) in
  let mangledName := c_str sym_name in
  let strName := demangleName mangledName in
  let! accepted := filter_accepts strFilter strName in
  if negb accepted then Ok c
  else
    let c := match helper_getArgDescriptor (ld_helper l) strName with
             | Some desc => set_arg_map (insert2 (arg_map_ c) agent strName desc) c
             | None => c
             end in
    let c := set_lookup_map (insert2 (lookup_map_ c) agent strName sym) c in
    Ok (set_kernel_co_map (insert2 (kernel_co_map_ c) agent strName
                             (CORef name (ld_file l) mangledName)) c).

Definition add_kernel_symbol (agent sym : Z) (c : coCache) : coCache :=
  set_kernels (<[agent := default [] (kernels_ c !! agent) ++ [sym]]> (kernels_ c)) c.

Definition add_symbol (name : bytes) (agent : Z) (strFilter : bytes) (l : loaded_t)
    (c : coCache) (sym : Z) : res coCache :=
  let! kind := check_status (symbol_kind sym) in
  if decide (kind = SYMBOL_KERNEL) then
    let c := add_kernel_symbol agent sym c in
    let! _ := check_status (symbol_kernel_object sym) in
    enter_symbol name agent strFilter l c sym
  else Ok c.

Definition add_executable (name : bytes) (agent : Z) (strFilter : bytes) (c : coCache)
    (l : loaded_t) : res coCache :=
  let! _ := check_status (if executable_freeze (ld_executable l) then Some () else None) in
  let! c := res_fold (add_symbol name agent strFilter l) c (iterate_symbols (ld_executable l)) in
  Ok (set_cache_objects (<[agent := (ld_executable l, name)]> (cache_objects_ c)) c).

(** [coCache::addFile]; the result is [false] on every path. *)
Definition addFile (name : bytes) (agent : Z) (strFilter : bytes) (c : coCache) : res coCache :=
  let! code_objects := extractCodeObjects agent name in
  match code_objects with
  | [] => Ok c
  | code_object_files =>
      let! loaded := res_fold (load_code_object agent) [] code_object_files in
      res_fold (add_executable name agent strFilter) c loaded
  end.

(** [coCache::setLocation]: [listing] is what [util_get_directory_files] finds
    when [directory] is a directory.  An exception of [addFile] ends the loop; only
    its first half, which does not touch the tables, can throw. *)
Fixpoint add_files (agent : Z) (strFilter : bytes) (files : list bytes) (c : coCache)
    : res coCache :=
  match files with
  | [] => Ok c
  | file :: files' =>
      match addFile file agent strFilter c with
      | Ok c' => add_files agent strFilter files' c'
      | Err (FThrow _) => Ok c
      | Err f => Err f
      end
  end.

Definition setLocation (agent : Z) (directory : bytes) (listing : option (list bytes))
    (strFilter : bytes) (c : coCache) : res (bool * coCache) :=
  let c := set_files [] (location_ c) c in
  match directory with
  | [] => Ok (false, c)
  | _ =>
      let c := set_files (filelist_ c) directory c in
      match listing with
      | None => Ok (false, c)
      | Some files =>
          let hsaco := filter (λ f, ends_with (lit ".hsaco") f = true) files in
          let c := set_files (filelist_ c ++ hsaco) (location_ c) c in
          let! c := add_files agent strFilter (filelist_ c) c in
          Ok (bool_decide (filelist_ c ≠ []), c)
      end
  end.

(** The constructor, which needs the loader's table of functions ([loader_table]: HSA
    has it), and the destructor, which destroys the one executable [cache_objects_]
    has for each agent ([executable_destroy]: HSA does it). *)
Definition coCache_coCache (loader_table : bool) : res coCache :=
  let! _ := check_status (if loader_table then Some () else None) in Ok new_coCache.

Definition destroy_coCache (executable_destroy : Z → bool) (c : coCache) : res (list Z) :=
  res_fold (λ destroyed executable,
      let! _ := check_status (if executable_destroy executable then Some () else None) in
      Ok (destroyed ++ [executable]))
    [] (map_items (cache_objects_ c)).*2.*1.

(** [getKernelCode], [getArgumentAlignment]: the device address is used as it is
    when the loader knows no host address for it. *)
Definition getKernelCode (kernel_object : Z) : Z :=
  match query_host_address kernel_object with
  | Some kernel_code => kernel_code
  | None => kernel_object
  end.
Definition getArgumentAlignment (kernel_object : Z) : Z :=
  kernarg_segment_alignment (getKernelCode kernel_object).

(** [getCodeObjectRef], [getArgSize], [hasKernels] *)
Definition getCodeObjectRef (agent : Z) (name : bytes) (c : coCache) : option CodeObjectRef :=
  lookup2 (kernel_co_map_ c) agent name.

Definition getArgSize (kernel_object : Z) (c : coCache) : Z :=
  default 0 (kernarg_sizes_ c !! kernel_object).

Definition hasKernels (agent : Z) (c : coCache) : bool :=
  bool_decide (is_Some (lookup_map_ c !! agent)).

(** ** Kernels the runtime loads itself *)
Definition registerRuntimeKernel (name : bytes) (symbol kernel_object agent kernarg_size : Z)
    (c : coCache) : coCache :=
  let register (m : gmap Z (gmap bytes Z)) : coCache :=
    let c := set_lookup_map m c in
    let c := set_kernarg_sizes (<[kernel_object := kernarg_size]> (kernarg_sizes_ c)) c in
    set_runtime_objects (insert2 (runtime_kernel_objects_ c) agent name kernel_object) c in
  match lookup_map_ c !! agent with
  | Some inner =>
      match inner !! name with
      | Some _ => c
      | None => register (<[agent := <[name := symbol]> inner]> (lookup_map_ c))
      end
  | None => register (<[agent := {[name := symbol]}]> (lookup_map_ c))
  end.

(** The file a loaded code object was read from, by its URI
    ["file://path#offset=X&size=Y"]. *)
Definition uri_path (lco : Z) : option bytes :=
  match lco_uri_length lco with
  | None => None
  | Some uri_len =>
      if uri_len =? 0 then None
      else
        match lco_uri lco with
        | None => None
        | Some uri =>
            if negb (starts_with (lit "file://") uri) then None
            else
              let path := drop 7 uri in
              Some (match find_char "#"%char path with
                    | Some hash_pos => take hash_pos path
                    | None => path
                    end)
        end
  end.

(** The callback over the loaded code objects stops at the first one whose file
    is excluded. *)
Fixpoint any_excluded (isExcluded : bytes → bool) (lcos : list Z) : bool :=
  match lcos with
  | [] => false
  | lco :: lcos' =>
      match uri_path lco with
      | None => any_excluded isExcluded lcos'
      | Some path => if isExcluded path then true else any_excluded isExcluded lcos'
      end
  end.

Definition isKernelFromExcludedFile (isExcluded : bytes → bool) (kernel_object : Z) (c : coCache)
    : bool * coCache :=
  match query_executable kernel_object with
  | None => (false, c)
  | Some executable =>
      match excluded_executable_cache_ c !! executable with
      | Some b => (b, c)
      | None =>
          let excluded := any_excluded isExcluded (loaded_code_objects executable) in
          (excluded, set_excluded (<[executable := excluded]> (excluded_executable_cache_ c)) c)
      end
  end.

(** ** Argument descriptors *)

(** The bytes of a loaded code object; [None] where the callback skips it. *)
Definition code_object_bytes (lco : Z) : option bytes :=
  match lco_storage_type lco with
  | Some STORAGE_MEMORY =>
      let (base, size) := lco_memory lco in
      if (base =? 0) || (size =? 0) then None else Some (read_memory base size)
  | Some STORAGE_FILE =>
      let fd := lco_file_fd lco in
      if fd <? 0 then None
      else
        let dup_fd := dup fd in
        if dup_fd <? 0 then None
        else
          match fd_size dup_fd with
          | None => None
          | Some size =>
              if size <=? 0 then None
              else
                match read_fd dup_fd size with
                | Some buf => if Z.of_nat (length buf) =? size then Some buf else None
                | None => None
                end
          end
  | Some STORAGE_NONE | None => None
  end.

(** One kernel name of the callback's inner loop. *)
Definition resolve_name (agent : Z) (helper : gmap bytes arg_descriptor_t) (c : coCache)
    (kname : bytes) : coCache :=
  match lookup2 (arg_map_ c) agent kname with
  | Some _ => c
  | None =>
      match helper_getArgDescriptor helper kname with
      | Some desc => set_arg_map (insert2 (arg_map_ c) agent kname desc) c
      | None => c
      end
  end.

Definition resolve_code_object (agent : Z) (c : coCache) (lco : Z) : res coCache :=
  match code_object_bytes lco with
  | None => Ok c
  | Some co_data =>
      let! helper := helper_addCodeObject demangleName (comgr_metadata co_data) ∅ in
      Ok (foldl (resolve_name agent helper) c
            (fst <$> map_items (default ∅ (lookup_map_ c !! agent))))
  end.

(** One missing kernel: its executable, unless it was processed already. *)
Definition resolve_kernel (agent : Z) (st : gset Z * coCache) (kernel_object : Z)
    : res (gset Z * coCache) :=
  let (processed, c) := st in
  match query_executable kernel_object with
  | None => Ok (processed, c)
  | Some executable =>
      if decide (executable ∈ processed) then Ok (processed, c)
      else
        let! c := res_fold (resolve_code_object agent) c (loaded_code_objects executable) in
        Ok ({[executable]} ∪ processed, c)
  end.

Definition missing_kernel_objects (agent : Z) (runtime : gmap bytes Z) (c : coCache) : list Z :=
  snd <$> filter (λ p, lookup2 (arg_map_ c) agent p.1 = None) (map_items runtime).

Definition resolveRuntimeArgDescriptors (agent : Z) (c : coCache) : res (bool * coCache) :=
  match runtime_kernel_objects_ c !! agent with
  | None => Ok (false, c)
  | Some runtime =>
      let! '(_, c) := res_fold (resolve_kernel agent) (∅, c) (missing_kernel_objects agent runtime c) in
      Ok (true, c)
  end.

(** The code objects this goes through, in order. *)
Fixpoint code_objects_of (processed : gset Z) (kernel_objects : list Z) : list Z :=
  match kernel_objects with
  | [] => []
  | kernel_object :: kernel_objects' =>
      match query_executable kernel_object with
      | None => code_objects_of processed kernel_objects'
      | Some executable =>
          if decide (executable ∈ processed) then code_objects_of processed kernel_objects'
          else loaded_code_objects executable ++ code_objects_of ({[executable]} ∪ processed) kernel_objects'
      end
  end.

(** What it has entered when an exception leaves the callback. *)
Definition resolved_so_far (agent : Z) (c : coCache) : coCache :=
  match runtime_kernel_objects_ c !! agent with
  | None => c
  | Some runtime =>
      fold_so_far (resolve_code_object agent) c (code_objects_of ∅ (missing_kernel_objects agent runtime c))
  end.

(** The lookup [getArgDescriptor] makes twice: the descriptor of the clone (or
    of the kernel itself), with the length of the original's hidden arguments. *)
Definition lookup_descriptor (agent : Z) (name : bytes) (instrumented : bool) (c : coCache)
    : option arg_descriptor_t :=
  match arg_map_ c !! agent with
  | None => None
  | Some args =>
      let clone_hidden :=
        if instrumented then
          match args !! name with
          | Some d =>
              if hidden_args_length d =? 0 then 0
              else u64 (kernarg_length d - explicit_args_length d)
          | None => 0
          end
        else 0 in
      let strName := if instrumented then getInstrumentedName name else name in
      match args !! strName with
      | Some d =>
          Some (ArgDescriptor (explicit_args_length d) (explicit_args_count d)
                  (hidden_args_length d) (kernarg_length d) (private_segment_size d)
                  (group_segment_size d) clone_hidden)
      | None => None
      end
  end.

Definition getArgDescriptor (agent : Z) (name : bytes) (instrumented : bool) (c : coCache)
    : res (option arg_descriptor_t * coCache) :=
  match lookup_descriptor agent name instrumented c with
  | Some desc => Ok (Some desc, c)
  | None =>
      let! '(found, c) := resolveRuntimeArgDescriptors agent c in
      Ok (if found then lookup_descriptor agent name instrumented c else None, c)
  end.

(** ** Alternatives *)
Definition findAlternative (symbol : Z) (name : bytes) (c : coCache) : res (Z * coCache) :=
  let! agent := check_status (symbol_agent symbol) in
  let! _ := check_status (symbol_kernarg_size symbol) in
  match lookup2 (lookup_map_ c) agent name with
  | None => Ok (0, c)
  | Some kern =>
      let! alt_kernarg_size := check_status (symbol_kernarg_size kern) in
      let! alt_kernel_object := check_status (symbol_kernel_object kern) in
      Ok (alt_kernel_object,
          match kernarg_sizes_ c !! alt_kernel_object with
          | Some _ => c
          | None => set_kernarg_sizes (<[alt_kernel_object := alt_kernarg_size]> (kernarg_sizes_ c)) c
          end)
  end.

(** The first critical section of [findInstrumentedAlternative]. *)
Definition known_alternative (symbol queue_agent : Z) (c : coCache) : Z * coCache :=
  match alternatives_ c !! queue_agent with
  | Some m => (default 0 (m !! symbol), c)
  | None => (0, set_alternatives (<[queue_agent := ∅]> (alternatives_ c)) c)
  end.

Definition findInstrumentedAlternative (symbol : Z) (name : bytes) (queue_agent : Z) (c : coCache)
    : res (Z * coCache) :=
  let (result, c) := known_alternative symbol queue_agent c in
  if negb (result =? 0) then Ok (result, c)
  else
    let! '(result, c) := findAlternative symbol (getInstrumentedName name) c in
    Ok (result,
        if result =? 0 then c
        else set_alternatives (insert2 (alternatives_ c) queue_agent symbol result) c).
End ops.

(** ** Lemmas: nested maps *)
Section nested_lemmas.
Context {K V : Type} `{Countable K}.
Implicit Types (m : gmap Z (gmap K V)).

Lemma lookup2_insert2 m a k v a' k' :
  lookup2 (insert2 m a k v) a' k' = if decide (a = a' ∧ k = k') then Some v else lookup2 m a' k'.
Proof.
  unfold lookup2, insert2. destruct (m !! a) as [inner|] eqn:Ha.
  - destruct (decide (a = a')) as [<-|Hn]; simplify_map_eq.
    + destruct (decide (k = k')) as [<-|]; case_decide; simplify_map_eq; naive_solver.
    + case_decide; naive_solver.
  - destruct (decide (a = a')) as [<-|Hn]; simplify_map_eq.
    + destruct (decide (k = k')) as [<-|]; case_decide; simplify_map_eq; naive_solver.
    + case_decide; naive_solver.
Qed.

Lemma lookup2_insert2_eq m a k v : lookup2 (insert2 m a k v) a k = Some v.
Proof. rewrite lookup2_insert2. by rewrite decide_True. Qed.

Lemma lookup2_insert2_is_Some m a k v a' k' :
  is_Some (lookup2 m a' k') → is_Some (lookup2 (insert2 m a k v) a' k').
Proof. rewrite lookup2_insert2. case_decide; eauto. Qed.

Lemma lookup2_insert2_Some m a k v a' k' w :
  lookup2 (insert2 m a k v) a' k' = Some w →
  (a = a' ∧ k = k' ∧ v = w) ∨ lookup2 m a' k' = Some w.
Proof. rewrite lookup2_insert2. case_decide; naive_solver. Qed.

Lemma insert2_register m a (inner : gmap K V) k v :
  m !! a = Some inner → <[a := <[k := v]> inner]> m = insert2 m a k v.
Proof. unfold insert2. by intros ->. Qed.

Lemma insert2_fresh m a k v :
  m !! a = None → <[a := {[k := v]}]> m = insert2 m a k v.
Proof. unfold insert2. by intros ->. Qed.
End nested_lemmas.

(** Both branches of [registerRuntimeKernel] add the same entries. *)
Lemma registerRuntimeKernel_unfold name symbol ko agent size c :
  registerRuntimeKernel name symbol ko agent size c =
    match lookup2 (lookup_map_ c) agent name with
    | Some _ => c
    | None =>
        CoCache (filelist_ c) (location_ c) (kernels_ c)
          (insert2 (lookup_map_ c) agent name symbol) (arg_map_ c) (cache_objects_ c)
          (alternatives_ c) (<[ko := size]> (kernarg_sizes_ c)) (kernel_co_map_ c)
          (insert2 (runtime_kernel_objects_ c) agent name ko) (excluded_executable_cache_ c)
    end.
Proof.
  unfold registerRuntimeKernel, lookup2. destruct (lookup_map_ c !! agent) as [inner|] eqn:Ha.
  - destruct (inner !! name); [done|]. by rewrite (insert2_register _ _ _ _ _ Ha).
  - by rewrite (insert2_fresh _ _ _ _ Ha).
Qed.

(** ** The invariant of the tables *)
Section invariant.
Context `{HL : HsaLoader} {node : Type} {CG : Comgr node}.
Context (comgr_metadata : bytes → option node) (isExcluded : bytes → bool).

Record cache_wf (c : coCache) : Prop := {
  cw_alternatives a s ko : lookup2 (alternatives_ c) a s = Some ko →
    ko ≠ 0 ∧ is_Some (kernarg_sizes_ c !! ko);
  cw_runtime a n ko : lookup2 (runtime_kernel_objects_ c) a n = Some ko →
    is_Some (lookup2 (lookup_map_ c) a n) ∧ is_Some (kernarg_sizes_ c !! ko);
  cw_co a n r : lookup2 (kernel_co_map_ c) a n = Some r → is_Some (lookup2 (lookup_map_ c) a n);
  cw_args a n d : lookup2 (arg_map_ c) a n = Some d → descriptor_ok d;
  cw_excluded e b : excluded_executable_cache_ c !! e = Some b →
    b = any_excluded isExcluded (loaded_code_objects e);
}.

Definition helper_ok (helper : gmap bytes arg_descriptor_t) : Prop :=
  map_Forall (λ _, descriptor_ok) helper.

Lemma addCodeObject_ok md helper :
  helper_addCodeObject demangleName md ∅ = Ok helper → helper_ok helper.
Proof.
  unfold helper_addCodeObject. intros (m&_&(k&_&Hm)%res_bind_Ok)%res_bind_Ok.
  destruct (decide (k = KIND_MAP)).
  - eapply computeKernargData_wf; [|exact Hm]. apply map_Forall_empty.
  - simplify_eq. apply map_Forall_empty.
Qed.

Lemma new_KernelArgHelper_ok f helper :
  new_KernelArgHelper comgr_metadata f = Ok helper → helper_ok helper.
Proof.
  destruct f; cbn; [intros [= <-]; apply map_Forall_empty|].
  case_match; [|done]. apply addCodeObject_ok.
Qed.

Lemma new_coCache_wf : cache_wf new_coCache.
Proof. by split; unfold lookup2; cbn; intros *; rewrite ?lookup_empty. Qed.

(** Members the invariant does not mention. *)
Lemma cache_wf_frame c c' :
  alternatives_ c' = alternatives_ c → kernarg_sizes_ c' = kernarg_sizes_ c →
  runtime_kernel_objects_ c' = runtime_kernel_objects_ c → lookup_map_ c' = lookup_map_ c →
  kernel_co_map_ c' = kernel_co_map_ c → arg_map_ c' = arg_map_ c →
  excluded_executable_cache_ c' = excluded_executable_cache_ c →
  cache_wf c → cache_wf c'.
Proof. intros Ha Hs Hr Hl Hco Harg He []. split; rewrite ?Ha, ?Hs, ?Hr, ?Hl, ?Hco, ?Harg, ?He; auto. Qed.

Lemma set_lookup_map_wf c a n sym :
  cache_wf c → cache_wf (set_lookup_map (insert2 (lookup_map_ c) a n sym) c).
Proof.
  intros []. split; cbn; [done|..|done|done].
  - intros * [??]%cw_runtime0. eauto using lookup2_insert2_is_Some.
  - intros * ?%cw_co0. eauto using lookup2_insert2_is_Some.
Qed.

Lemma registerRuntimeKernel_wf name sym ko a size c :
  cache_wf c → cache_wf (registerRuntimeKernel name sym ko a size c).
Proof.
  intros Hwf. rewrite registerRuntimeKernel_unfold.
  destruct (lookup2 (lookup_map_ c) a name) eqn:Hn; [done|]. destruct Hwf.
  split; cbn; [|..|done|done].
  - intros * [??]%cw_alternatives0. rewrite lookup_insert. case_decide; eauto.
  - intros * [(<-&<-&<-)|[??]%cw_runtime0]%lookup2_insert2_Some.
    + rewrite lookup2_insert2_eq, lookup_insert_eq. eauto.
    + rewrite lookup_insert. case_decide; eauto using lookup2_insert2_is_Some.
  - intros * ?%cw_co0. eauto using lookup2_insert2_is_Some.
Qed.

Lemma add_kernel_symbol_wf a sym c : cache_wf c → cache_wf (add_kernel_symbol a sym c).
Proof. by apply cache_wf_frame. Qed.

Lemma enter_symbol_wf name a flt l c sym c' :
  helper_ok (ld_helper l) → cache_wf c → enter_symbol name a flt l c sym = Ok c' → cache_wf c'.
Proof.
  intros Hh Hk. unfold enter_symbol. intros (sn&_&(acc&_&Hc)%res_bind_Ok)%res_bind_Ok.
  destruct (negb acc); [by simplify_eq|]. simplify_eq.
  set (n := demangleName (c_str sn)).
  destruct Hk. unfold helper_getArgDescriptor.
  destruct (ld_helper l !! n) as [desc|] eqn:Hd; split; cbn; try done.
  all: try (intros * [(<-&<-&<-)|?%cw_co0]%lookup2_insert2_Some;
            [by rewrite lookup2_insert2_eq | by apply lookup2_insert2_is_Some]).
  all: try (intros * [??]%cw_runtime0; split; [by apply lookup2_insert2_is_Some|done]).
  intros * [(<-&<-&<-)|?%cw_args0]%lookup2_insert2_Some; [by eapply Hh|done].
Qed.

Lemma add_symbol_wf name a flt l c sym c' :
  helper_ok (ld_helper l) → cache_wf c → add_symbol name a flt l c sym = Ok c' → cache_wf c'.
Proof.
  intros Hh Hwf. unfold add_symbol. intros (k&_&Hc)%res_bind_Ok.
  destruct (decide (k = SYMBOL_KERNEL)); [|by simplify_eq].
  apply res_bind_Ok in Hc as (?&_&Hc). eapply enter_symbol_wf; [done| |done]. by apply add_kernel_symbol_wf.
Qed.

Lemma add_executable_wf name a flt c l c' :
  helper_ok (ld_helper l) → cache_wf c → add_executable name a flt c l = Ok c' → cache_wf c'.
Proof.
  intros Hh Hwf. unfold add_executable. intros (?&_&(c1&Hc&[= <-])%res_bind_Ok)%res_bind_Ok.
  assert (cache_wf c1) by (revert Hc; apply res_fold_inv; eauto using add_symbol_wf).
  by apply (cache_wf_frame c1).
Qed.

Lemma load_code_object_ok a co l0 l1 :
  Forall (λ l, helper_ok (ld_helper l)) l0 →
  load_code_object comgr_metadata a l0 co = Ok l1 → Forall (λ l, helper_ok (ld_helper l)) l1.
Proof.
  intros Hl. unfold load_code_object. case_match; [by intros [= <-]|].
  intros (e&_&Hc)%res_bind_Ok. case_match; [by simplify_eq|].
  destruct (load_agent_code_object e a co); simplify_eq; [|done].
  apply res_bind_Ok in Hc as (h&Hh%new_KernelArgHelper_ok&[= <-]).
  apply Forall_app; split; [done|]. by constructor.
Qed.

Lemma addFile_wf name a flt c c' :
  cache_wf c → addFile comgr_metadata name a flt c = Ok c' → cache_wf c'.
Proof.
  intros Hwf. unfold addFile. intros (files&_&Hfs)%res_bind_Ok. revert Hfs.
  destruct files as [|f fs]; [by intros [= <-]|].
  intros (loaded&Hl&Hc)%res_bind_Ok.
  assert (Forall (λ l, helper_ok (ld_helper l)) loaded) as Hok.
  { revert Hl. apply res_fold_inv; [|by constructor]. intros. by eapply load_code_object_ok. }
  rewrite list.Forall_forall in Hok.
  revert Hc. apply res_fold_inv; eauto using add_executable_wf.
Qed.

Lemma add_files_wf a flt fs c c' :
  cache_wf c → add_files comgr_metadata a flt fs c = Ok c' → cache_wf c'.
Proof.
  revert c. induction fs as [|f fs IH]; intros c Hwf; cbn; [by intros [= <-]|].
  destruct (addFile comgr_metadata f a flt c) as [c1|e] eqn:Hf; [|by destruct e; intros [= <-]].
  eapply IH. by eapply addFile_wf.
Qed.

Lemma setLocation_wf a dir listing flt c b c' :
  cache_wf c → setLocation comgr_metadata a dir listing flt c = Ok (b, c') → cache_wf c'.
Proof.
  intros Hwf. unfold setLocation.
  assert (∀ fs loc c, cache_wf c → cache_wf (set_files fs loc c)) as Hset
    by (intros fs loc c1 ?; by apply (cache_wf_frame c1)).
  destruct dir; [intros [= <- <-]; auto|]. destruct listing as [files|]; [|intros [= <- <-]; auto].
  intros (c1&Hc&[= <- <-])%res_bind_Ok. eapply add_files_wf; [|exact Hc]. auto.
Qed.

Lemma set_excluded_wf c e :
  cache_wf c →
  cache_wf (set_excluded
    (<[e := any_excluded isExcluded (loaded_code_objects e)]> (excluded_executable_cache_ c)) c).
Proof.
  intros []. split; cbn; try done. intros e' b'. rewrite lookup_insert. case_decide; naive_solver.
Qed.

Lemma isKernelFromExcludedFile_spec ko c b c' :
  cache_wf c → isKernelFromExcludedFile isExcluded ko c = (b, c') →
  cache_wf c' ∧
  b = match query_executable ko with
      | Some e => any_excluded isExcluded (loaded_code_objects e)
      | None => false
      end.
Proof.
  intros Hwf. unfold isKernelFromExcludedFile.
  destruct (query_executable ko) as [e|]; [|by intros [= <- <-]].
  destruct (excluded_executable_cache_ c !! e) as [b'|] eqn:He; intros [= <- <-].
  { split; [done|]. by eapply cw_excluded. }
  split; [|done]. by apply set_excluded_wf.
Qed.

Lemma resolve_name_wf a helper c n :
  helper_ok helper → cache_wf c → cache_wf (resolve_name a helper c n).
Proof.
  intros Hh Hwf. unfold resolve_name, helper_getArgDescriptor.
  destruct (lookup2 (arg_map_ c) a n); [done|]. destruct (helper !! n) as [d|] eqn:Hd; [|done].
  destruct Hwf. split; cbn; try done.
  intros * [(<-&<-&<-)|?%cw_args0]%lookup2_insert2_Some; [|done]. by eapply Hh.
Qed.

Lemma resolve_names_wf a helper names c :
  helper_ok helper → cache_wf c → cache_wf (foldl (resolve_name a helper) c names).
Proof.
  intros Hh. revert c. induction names as [|n names IH]; intros c Hwf; [done|].
  cbn. by apply IH, resolve_name_wf.
Qed.

Lemma resolve_code_object_wf a c lco c' :
  cache_wf c → resolve_code_object comgr_metadata a c lco = Ok c' → cache_wf c'.
Proof.
  intros Hwf. unfold resolve_code_object.
  destruct (code_object_bytes lco); [|by intros [= <-]].
  intros (h&Hh%addCodeObject_ok&[= <-])%res_bind_Ok. by apply resolve_names_wf.
Qed.

Lemma resolved_so_far_wf a c : cache_wf c → cache_wf (resolved_so_far comgr_metadata a c).
Proof.
  intros Hwf. unfold resolved_so_far. destruct (runtime_kernel_objects_ c !! a); [|done].
  apply fold_so_far_inv; [|done]. intros. by eapply resolve_code_object_wf.
Qed.

Lemma resolveRuntimeArgDescriptors_wf a c b c' :
  cache_wf c → resolveRuntimeArgDescriptors comgr_metadata a c = Ok (b, c') → cache_wf c'.
Proof.
  intros Hwf. unfold resolveRuntimeArgDescriptors.
  destruct (runtime_kernel_objects_ c !! a); [|by intros [= <- <-]].
  intros ([p c1]&Hc&[= <- <-])%res_bind_Ok.
  change c1 with (p, c1).2. revert Hc. apply (res_fold_inv (λ st, cache_wf st.2)); [|done].
  intros ko [p0 c0] [p2 c2] _ Hc0. unfold resolve_kernel.
  destruct (query_executable ko); [|by intros [= <- <-]].
  case_decide; [by intros [= <- <-]|]. intros (c3&Hc3&[= <- <-])%res_bind_Ok.
  revert Hc3. apply res_fold_inv; [|done]. intros. by eapply resolve_code_object_wf.
Qed.

Lemma getArgDescriptor_wf a n i c d c' :
  cache_wf c → getArgDescriptor comgr_metadata a n i c = Ok (d, c') → cache_wf c'.
Proof.
  intros Hwf. unfold getArgDescriptor. destruct (lookup_descriptor a n i c); [by intros [= <- <-]|].
  intros ([f c1]&Hc&[= <- <-])%res_bind_Ok. by eapply resolveRuntimeArgDescriptors_wf.
Qed.

Lemma findAlternative_wf sym n c r c' :
  cache_wf c → findAlternative sym n c = Ok (r, c') →
  cache_wf c' ∧ (r ≠ 0 → is_Some (kernarg_sizes_ c' !! r)).
Proof.
  intros Hwf. unfold findAlternative. intros (a&_&(?&_&Hc)%res_bind_Ok)%res_bind_Ok.
  destruct (lookup2 (lookup_map_ c) a n) as [kern|]; [|by simplify_eq].
  apply res_bind_Ok in Hc as (sz&_&(ko&_&[= <- <-])%res_bind_Ok).
  destruct (kernarg_sizes_ c !! ko) eqn:Hk; [by split; eauto|].
  split; [|cbn; rewrite lookup_insert_eq; eauto]. destruct Hwf. split; cbn; try done.
  - intros * [??]%cw_alternatives0. rewrite lookup_insert. case_decide; eauto.
  - intros * [??]%cw_runtime0. rewrite lookup_insert. case_decide; eauto.
Qed.

Lemma known_alternative_wf sym q c r c' :
  cache_wf c → known_alternative sym q c = (r, c') →
  cache_wf c' ∧ (r ≠ 0 → is_Some (kernarg_sizes_ c' !! r)).
Proof.
  intros Hwf. unfold known_alternative. destruct (alternatives_ c !! q) as [m|] eqn:Hq.
  - intros [= <- <-]. split; [done|]. intros Hr. destruct (m !! sym) as [ko|] eqn:Hs; [|done].
    eapply cw_alternatives; [done|]. unfold lookup2. rewrite Hq. exact Hs.
  - intros [= <- <-]. split; [|done]. destruct Hwf. split; cbn; try done.
    intros a s ko. unfold lookup2. destruct (decide (q = a)) as [<-|]; simplify_map_eq; [done|].
    apply cw_alternatives0.
Qed.

Lemma findInstrumentedAlternative_wf sym n q c r c' :
  cache_wf c → findInstrumentedAlternative sym n q c = Ok (r, c') →
  cache_wf c' ∧ (r ≠ 0 → is_Some (kernarg_sizes_ c' !! r)).
Proof.
  intros Hwf. unfold findInstrumentedAlternative.
  destruct (known_alternative sym q c) as [r0 c0] eqn:Hkn.
  apply known_alternative_wf in Hkn as [Hwf0 Hr0]; [|done].
  destruct (r0 =? 0); cbn; [|intros [= <- <-]; split; [done|exact Hr0]].
  intros ([r1 c1]&Hfa&[= <- <-])%res_bind_Ok.
  apply findAlternative_wf in Hfa as [Hwf1 Hr1]; [|done].
  destruct (Z.eqb_spec r1 0); [done|]. split; [|auto]. destruct Hwf1. split; cbn; try done.
  intros * [(<-&<-&<-)|?%cw_alternatives0]%lookup2_insert2_Some; auto.
Qed.

(** ** Runs *)
Inductive cache_op :=
| OpAddFile (name : bytes) (agent : Z) (strFilter : bytes)
| OpSetLocation (agent : Z) (directory : bytes) (listing : option (list bytes)) (strFilter : bytes)
| OpRegister (name : bytes) (symbol kernel_object agent kernarg_size : Z)
| OpExcluded (kernel_object : Z)
| OpArgDescriptor (agent : Z) (name : bytes) (instrumented : bool)
| OpAlternative (symbol : Z) (name : bytes)
| OpInstrumented (symbol : Z) (name : bytes) (queue_agent : Z).

Definition cache_step (c : coCache) (op : cache_op) : res coCache :=
  match op with
  | OpAddFile name agent flt => addFile comgr_metadata name agent flt c
  | OpSetLocation agent dir listing flt => res_map snd (setLocation comgr_metadata agent dir listing flt c)
  | OpRegister name sym ko agent size => Ok (registerRuntimeKernel name sym ko agent size c)
  | OpExcluded ko => Ok (isKernelFromExcludedFile isExcluded ko c).2
  | OpArgDescriptor agent name i => res_map snd (getArgDescriptor comgr_metadata agent name i c)
  | OpAlternative sym name => res_map snd (findAlternative sym name c)
  | OpInstrumented sym name q => res_map snd (findInstrumentedAlternative sym name q c)
  end.
End invariant.

(** ** Lemmas: an alternative, once found, is kept *)
Section alternatives.
Context `{HL : HsaLoader} {node : Type} {CG : Comgr node}.
Context (comgr_metadata : bytes → option node) (isExcluded : bytes → bool).

Lemma enter_symbol_alternatives name a flt l c sym c' :
  enter_symbol name a flt l c sym = Ok c' → alternatives_ c' = alternatives_ c.
Proof.
  unfold enter_symbol. intros (sn&_&(acc&_&Hc)%res_bind_Ok)%res_bind_Ok.
  destruct (negb acc); simplify_eq; cbn; [done|]. by case_match.
Qed.

Lemma addFile_alternatives name a flt c c' :
  addFile comgr_metadata name a flt c = Ok c' → alternatives_ c' = alternatives_ c.
Proof.
  unfold addFile. intros (files&_&Hfs)%res_bind_Ok. revert Hfs.
  destruct files as [|f fs]; [by intros [= <-]|].
  intros (loaded&_&Hc)%res_bind_Ok. revert Hc.
  apply (res_fold_inv (λ x, alternatives_ x = alternatives_ c)); [|done].
  intros l c0 c1 _ <-. unfold add_executable.
  intros (?&_&(c2&Hc2&[= <-])%res_bind_Ok)%res_bind_Ok. cbn. revert Hc2.
  apply (res_fold_inv (λ x, alternatives_ x = alternatives_ c0)); [|done].
  intros sym c3 c4 _ <-. unfold add_symbol. intros (k&_&Hc)%res_bind_Ok.
  destruct (decide (k = SYMBOL_KERNEL)); [|by simplify_eq].
  apply res_bind_Ok in Hc as (?&_&Hc%enter_symbol_alternatives). done.
Qed.

Lemma add_files_alternatives a flt fs c c' :
  add_files comgr_metadata a flt fs c = Ok c' → alternatives_ c' = alternatives_ c.
Proof.
  revert c. induction fs as [|f fs IH]; intros c; cbn; [by intros [= <-]|].
  destruct (addFile comgr_metadata f a flt c) as [c1|e] eqn:Hf; [|by destruct e; intros [= <-]].
  intros ->%IH. by eapply addFile_alternatives.
Qed.

Lemma setLocation_alternatives a dir listing flt c b c' :
  setLocation comgr_metadata a dir listing flt c = Ok (b, c') → alternatives_ c' = alternatives_ c.
Proof.
  unfold setLocation. destruct dir; [by intros [= _ <-]|]. destruct listing; [|by intros [= _ <-]].
  intros (c1&Hc%add_files_alternatives&[= _ <-])%res_bind_Ok. exact Hc.
Qed.

Lemma getArgDescriptor_alternatives a n i c d c' :
  getArgDescriptor comgr_metadata a n i c = Ok (d, c') → alternatives_ c' = alternatives_ c.
Proof.
  unfold getArgDescriptor. destruct (lookup_descriptor a n i c); [by intros [= _ <-]|].
  intros ([f c1]&Hc&[= _ <-])%res_bind_Ok. revert Hc. unfold resolveRuntimeArgDescriptors.
  destruct (runtime_kernel_objects_ c !! a); [|by intros [= _ <-]].
  intros ([p c2]&Hc&[= _ <-])%res_bind_Ok. change c2 with (p, c2).2. revert Hc.
  apply (res_fold_inv (λ st, alternatives_ st.2 = alternatives_ c)); [|done].
  intros ko [p0 c0] [p2 c3] _ Hc0. cbn in *. unfold resolve_kernel.
  destruct (query_executable ko); [|by intros [= <- <-]].
  case_decide; [by intros [= <- <-]|]. intros (c4&Hc4&[= <- <-])%res_bind_Ok.
  revert Hc4. apply (res_fold_inv (λ x, alternatives_ x = alternatives_ c)); [|done].
  intros lco c5 c6 _ Hc5. unfold resolve_code_object.
  destruct (code_object_bytes lco); [|by intros [= <-]]. intros (h&_&[= <-])%res_bind_Ok.
  rewrite <-Hc5. generalize (map_items (default ∅ (lookup_map_ c5 !! a))).*1; intros names.
  clear. revert c5. induction names as [|n names IH]; intros c5; [done|]. cbn. rewrite IH.
  unfold resolve_name. by repeat case_match.
Qed.

Lemma findAlternative_alternatives sym n c r c' :
  findAlternative sym n c = Ok (r, c') → alternatives_ c' = alternatives_ c.
Proof.
  unfold findAlternative. intros (a&_&(?&_&Hc)%res_bind_Ok)%res_bind_Ok.
  destruct (lookup2 (lookup_map_ c) a n) as [kern|]; [|by simplify_eq].
  apply res_bind_Ok in Hc as (sz&_&(ko&_&[= _ <-])%res_bind_Ok). by case_match.
Qed.

Lemma known_alternative_lookup sym q c :
  (known_alternative sym q c).1 = default 0 (lookup2 (alternatives_ c) q sym) ∧
  ∀ a s, lookup2 (alternatives_ (known_alternative sym q c).2) a s = lookup2 (alternatives_ c) a s.
Proof.
  unfold known_alternative, lookup2. destruct (alternatives_ c !! q) as [m|] eqn:Hq; [done|].
  split; [done|]. intros a s. cbn. destruct (decide (q = a)) as [<-|]; simplify_map_eq; done.
Qed.

Lemma known_alternative_frame sym q c :
  lookup_map_ (known_alternative sym q c).2 = lookup_map_ c ∧
  kernarg_sizes_ (known_alternative sym q c).2 = kernarg_sizes_ c.
Proof. unfold known_alternative. by case_match. Qed.

Lemma findInstrumented_known sym n q c ko :
  lookup2 (alternatives_ c) q sym = Some ko → ko ≠ 0 →
  ∃ c', findInstrumentedAlternative sym n q c = Ok (ko, c') ∧
        ∀ a s, lookup2 (alternatives_ c') a s = lookup2 (alternatives_ c) a s.
Proof.
  intros Hk Hne. unfold findInstrumentedAlternative.
  destruct (known_alternative_lookup sym q c) as [H1 H2].
  destruct (known_alternative sym q c) as [r c0]. cbn in *. rewrite Hk in H1. cbn in H1. subst r.
  rewrite (proj2 (Z.eqb_neq _ _) Hne). eexists. by split.
Qed.

Lemma findInstrumented_unknown sym n agent q c sz :
  symbol_agent sym = Some agent → symbol_kernarg_size sym = Some sz →
  default 0 (lookup2 (alternatives_ c) q sym) = 0 →
  let c0 := (known_alternative sym q c).2 in
  findInstrumentedAlternative sym n q c =
    let! '(r, c1) :=
      match lookup2 (lookup_map_ c) agent (getInstrumentedName n) with
      | None => Ok (0, c0)
      | Some kern =>
          let! size := check_status (symbol_kernarg_size kern) in
          let! ko := check_status (symbol_kernel_object kern) in
          Ok (ko, match kernarg_sizes_ c !! ko with
                  | Some _ => c0
                  | None => set_kernarg_sizes (<[ko := size]> (kernarg_sizes_ c)) c0
                  end)
      end in
    Ok (r, if r =? 0 then c1 else set_alternatives (insert2 (alternatives_ c1) q sym r) c1).
Proof.
  intros Hag Hsz Hnone c0. unfold findInstrumentedAlternative.
  destruct (known_alternative_lookup sym q c) as [H1 _].
  destruct (known_alternative_frame sym q c) as [H3 H4].
  subst c0. destruct (known_alternative sym q c) as [r0 c0]. cbn in *.
  rewrite Hnone in H1. subst r0. cbn.
  unfold findAlternative. by rewrite Hag, Hsz, H3, H4.
Qed.

Lemma cache_step_alternatives c op c' a s ko :
  lookup2 (alternatives_ c) a s = Some ko → ko ≠ 0 →
  cache_step comgr_metadata isExcluded c op = Ok c' → lookup2 (alternatives_ c') a s = Some ko.
Proof.
  intros Hk Hne. destruct op; cbn.
  - by intros ->%addFile_alternatives.
  - destruct (setLocation _ _ _ _ _ _) as [[??]|] eqn:Hs; [|done].
    intros [= <-]. by apply setLocation_alternatives in Hs as ->.
  - intros [= <-]. rewrite registerRuntimeKernel_unfold. by case_match.
  - intros [= <-]. unfold isKernelFromExcludedFile. by repeat case_match.
  - destruct (getArgDescriptor _ _ _ _ _) as [[??]|] eqn:Hs; [|done].
    intros [= <-]. by apply getArgDescriptor_alternatives in Hs as ->.
  - destruct (findAlternative _ _ _) as [[??]|] eqn:Hs; [|done].
    intros [= <-]. by apply findAlternative_alternatives in Hs as ->.
  - destruct (findInstrumentedAlternative _ _ _ _) as [[r c1]|] eqn:Hs; [|done]. intros [= <-].
    revert Hs. unfold findInstrumentedAlternative.
    destruct (known_alternative_lookup symbol queue_agent c) as [H1 H2].
    destruct (known_alternative symbol queue_agent c) as [r0 c0]. cbn in *.
    destruct (Z.eqb_spec r0 0) as [Hr0|]; cbn; [|by intros [= <- <-]; rewrite H2].
    intros ([r1 c2]&Hf%findAlternative_alternatives&[= _ <-])%res_bind_Ok.
    destruct (r1 =? 0); [by rewrite Hf, H2|]. cbn.
    rewrite lookup2_insert2, decide_False, Hf, H2; [done|]. intros [-> ->].
    rewrite Hk in H1. cbn in H1. congruence.
Qed.
End alternatives.

(** ** A loader for the witnesses: one code object with a kernel and its clone *)
Section examples.
Definition kernel_tree (name args_end len : string) : md_tree :=
  TMap [(lit ".symbol", TString (lit name));
        (lit ".args", TList [TMap [(lit ".size", TString (lit "8"));
                                   (lit ".value_kind", TString (lit "global_buffer"));
                                   (lit ".offset", TString (lit args_end))]]);
        (lit ".kernarg_segment_size", TString (lit len));
        (lit ".private_segment_fixed_size", TString (lit "0"));
        (lit ".group_segment_fixed_size", TString (lit "0"))].

Definition example_metadata (co : bytes) : option md_tree :=
  Some (TMap [(lit "amdhsa.kernels",
    TList [kernel_tree "foo" "0" "16"; kernel_tree "__amd_crk_fooPv" "8" "24"])]).

Definition example_loader : HsaLoader := {|
  symbol_kind _ := Some SYMBOL_KERNEL;
  symbol_kernel_object s := Some (1000 * s);
  symbol_name s := Some (if s =? 2 then lit "__amd_crk_fooPv" else lit "foo");
  symbol_kernarg_size s := Some (if s =? 2 then 24 else 16);
  symbol_agent _ := Some 7;
  extractCodeObjects _ _ := Ok [lit "co"];
  file_opens _ := true;
  file_contents _ := Some (lit "ELF");
  executable_create _ := Some 5;
  code_object_reader_create _ := true;
  load_agent_code_object _ _ _ := LOAD_SUCCESS;
  executable_freeze _ := true;
  iterate_symbols _ := [1; 2];
  query_executable _ := Some 5;
  query_host_address a := Some (a + 4096);
  kernarg_segment_alignment _ := 4;
  loaded_code_objects _ := [9];
  lco_uri_length _ := Some 16;
  lco_uri _ := Some (lit "file:///a/b.so#offset=0&size=4");
  lco_storage_type _ := Some STORAGE_MEMORY;
  lco_memory _ := (4096, 64);
  lco_file_fd _ := -1;
  dup _ := -1;
  fd_size _ := None;
  read_fd _ _ := None;
  read_memory _ _ := lit "ELF";
  demangleName := id;
  regex_search _ _ := Some true;
|}.
End examples.

(** ** Properties *)

(** What the invariant gives the rest of the library: a kernel object handed out as
    an alternative is not null and its argument size is recorded; a descriptor
    handed out by name stays within its segment; and the cached verdict about a
    kernel's file is the one the library filter gives. *)
Lemma cache_wf_sound `{HL : HsaLoader} {node} {CG : Comgr node} comgr_metadata isExcluded c :
  cache_wf isExcluded c →
  (∀ sym name q ko c', findInstrumentedAlternative sym name q c = Ok (ko, c') → ko ≠ 0 →
     is_Some (kernarg_sizes_ c' !! ko)) ∧
  (∀ agent name desc c',
     getArgDescriptor comgr_metadata agent name true c = Ok (Some desc, c') →
     0 ≤ explicit_args_length desc ≤ kernarg_length desc ∧ kernarg_length desc < 2 ^ 64 ∧
     hidden_args_length desc = kernarg_length desc - explicit_args_length desc) ∧
  (∀ ko, (isKernelFromExcludedFile isExcluded ko c).1 =
     match query_executable ko with
     | Some e => any_excluded isExcluded (loaded_code_objects e)
     | None => false
     end).
Proof.
  intros Hwf. split_and!.
  - intros * Hf Hne. by apply (findInstrumentedAlternative_wf _ _ _ _ _ _ _ Hwf Hf).
  - intros agent name desc c' Hd.
    assert (cache_wf isExcluded c' ∧ lookup_descriptor agent name true c' = Some desc)
      as [Hwf' Hl].
    { split; [by eapply getArgDescriptor_wf|]. revert Hd. unfold getArgDescriptor.
      destruct (lookup_descriptor agent name true c) eqn:Hl; [by intros [= <- <-]|].
      intros ([[] c1]&_&[= Hd <-])%res_bind_Ok; done. }
    revert Hl. unfold lookup_descriptor.
    destruct (arg_map_ c' !! agent) as [args|] eqn:Ha; [|done].
    destruct (args !! getInstrumentedName name) as [d|] eqn:Hn; [|done]. intros [= <-]. cbn.
    assert (descriptor_ok d) as (?&?&?&_&_); [|done].
    eapply cw_args; [exact Hwf'|]. unfold lookup2. rewrite Ha. exact Hn.
  - intros ko. destruct (isKernelFromExcludedFile isExcluded ko c) as [b c'] eqn:He.
    by apply isKernelFromExcludedFile_spec in He as [_ ->].
Qed.

(** C17. Looking for the instrumented clone of a kernel: when the table of the
    symbol's agent has an entry under the instrumented name, its kernel object
    is returned and its argument size recorded, and every later request for that
    symbol on that agent, whatever happens to the tables in between, gives the
    same kernel object; when it has none, the answer is 0 and neither the
    kernels nor the sizes change. *)
Theorem instrumented_alternative_kept `{HL : HsaLoader} {node} {CG : Comgr node}
    comgr_metadata isExcluded sym name agent q c :
  symbol_agent sym = Some agent → is_Some (symbol_kernarg_size sym) →
  default 0 (lookup2 (alternatives_ c) q sym) = 0 →
  (∀ kern size ko,
     lookup2 (lookup_map_ c) agent (getInstrumentedName name) = Some kern →
     symbol_kernarg_size kern = Some size → symbol_kernel_object kern = Some ko → ko ≠ 0 →
     ∃ c', findInstrumentedAlternative sym name q c = Ok (ko, c') ∧
       getArgSize ko c' = default size (kernarg_sizes_ c !! ko) ∧
       ∀ ops c'' name', res_fold (cache_step comgr_metadata isExcluded) c' ops = Ok c'' →
         ∃ c3, findInstrumentedAlternative sym name' q c'' = Ok (ko, c3)) ∧
  (lookup2 (lookup_map_ c) agent (getInstrumentedName name) = None →
     ∃ c', findInstrumentedAlternative sym name q c = Ok (0, c') ∧
       lookup_map_ c' = lookup_map_ c ∧ kernarg_sizes_ c' = kernarg_sizes_ c).
Proof.
  intros Hag [sz Hsz] Hnone.
  destruct (known_alternative_frame sym q c) as [H3 H4].
  pose proof (findInstrumented_unknown sym name agent q c sz Hag Hsz Hnone) as Hf. cbn in Hf.
  rewrite Hf. clear Hf. split.
  - intros kern size ko Hl Hks Hko Hne. rewrite Hl, Hks, Hko. cbn.
    rewrite (proj2 (Z.eqb_neq _ _) Hne). eexists. split; [done|]. split.
    { unfold getArgSize. cbn. destruct (kernarg_sizes_ c !! ko) as [n|] eqn:Hs; cbn.
      - by rewrite H4, Hs.
      - by rewrite lookup_insert_eq. }
    intros ops c'' name' Hrun.
    destruct (findInstrumented_known sym name' q c'' ko) as (c3&Hf&_); [|done|by exists c3].
    revert Hrun. apply (res_fold_inv (λ x, lookup2 (alternatives_ x) q sym = Some ko)).
    + intros op x y _ Hx. by apply cache_step_alternatives.
    + cbn. apply lookup2_insert2_eq.
  - intros ->. eexists. split; [done|]. done.
Qed.

Lemma instrumented_alternative_kept_witness :
  match addFile (HL := example_loader) example_metadata (lit "app") 7 [] new_coCache with
  | Ok c => ∃ c', findInstrumentedAlternative (HL := example_loader) 1 (lit "foo") 7 c = Ok (2000, c')
  | Err _ => False
  end.
Proof.
  assert (match addFile (HL := example_loader) example_metadata (lit "app") 7 [] new_coCache with
          | Ok c =>
              (default 0 (lookup2 (alternatives_ c) 7 1) =? 0) &&
              bool_decide (lookup2 (lookup_map_ c) 7 (getInstrumentedName (lit "foo")) = Some 2)
          | Err _ => false
          end = true) as Hc by (vm_compute; reflexivity).
  destruct (addFile _ _ _ _) as [c|]; [|discriminate].
  apply andb_true_iff in Hc as [Ha%Z.eqb_eq Hl%bool_decide_eq_true].
  destruct (proj1 (instrumented_alternative_kept (HL := example_loader) example_metadata
    (λ _, false) 1 (lit "foo") 7 7 c eq_refl (mk_is_Some _ _ eq_refl) Ha) 2 24 2000 Hl)
    as (c'&Hf&_&_); [done|done|done|]. by exists c'.
Defined.

(** C16. The arguments of a clone: when the cache knows the layouts of a kernel
    and of its clone, and the clone's explicit arguments are the kernel's plus
    one pointer, the descriptor it gives makes [fixupKernArgs] build the
    segment the clone expects: the application's explicit arguments, the
    pointer, the application's hidden arguments at their new place, zeros.  When
    the layout of the kernel itself is missing, the hidden arguments of the
    application are not copied: the clone sees zeros in their place. *)
Theorem instrumented_kernargs {node} {CG : Comgr node} `{HL : HsaLoader} comgr_metadata
    agent name c args d1 (ex hid rest old tl : buffer) (gap : nat) comms :
  arg_map_ c !! agent = Some args → args !! getInstrumentedName name = Some d1 →
  explicit_args_length d1 = Z.of_nat (length ex) + 8 →
  kernarg_length d1 = Z.of_nat (length old) → kernarg_length d1 < 2 ^ 64 →
  length old = (length ex + 8 + length hid + gap)%nat →
  ∃ desc, getArgDescriptor comgr_metadata agent name true c = Ok (Some desc, c) ∧
    kernarg_length desc = kernarg_length d1 ∧
    private_segment_size desc = private_segment_size d1 ∧
    group_segment_size desc = group_segment_size d1 ∧
    (∀ d0, args !! name = Some d0 → descriptor_ok d0 →
       explicit_args_length d0 = Z.of_nat (length ex) →
       kernarg_length d0 = Z.of_nat (length ex + length hid) →
       fixupKernArgs (Some (old ++ tl)) (Some (ex ++ hid ++ rest)) comms desc =
         Ok (ex ++ le_split 8 comms ++ hid ++ replicate gap 0 ++ tl)) ∧
    (args !! name = None →
       fixupKernArgs (Some (old ++ tl)) (Some (ex ++ hid ++ rest)) comms desc =
         Ok (ex ++ le_split 8 comms ++ replicate (length hid + gap) 0 ++ tl)).
Proof.
  intros Ha Hi He Hk Hlt Hlen. unfold getArgDescriptor, lookup_descriptor.
  rewrite Ha, Hi. eexists. split; [done|]. split_and!; [done..| |].
  - intros d0 -> (_&_&Hh&_&_) Hex Hkl. apply fixupKernArgs_blocks; cbn; try done.
    rewrite Hh, Hkl, Hex.
    case_match; [apply Z.eqb_eq in H; lia|]. rewrite wrap_small; lia.
  - intros ->. change (hid ++ rest) with ([] ++ hid ++ rest).
    rewrite (fixupKernArgs_blocks ex [] (hid ++ rest) old tl (length hid + gap)); cbn; try done.
    lia.
Qed.

Lemma instrumented_kernargs_witness :
  match addFile (HL := example_loader) example_metadata (lit "app") 7 [] new_coCache with
  | Ok c =>
      ∃ desc, getArgDescriptor (HL := example_loader) example_metadata 7 (lit "foo") true c
                = Ok (Some desc, c) ∧ kernarg_length desc = 24
  | Err _ => False
  end.
Proof.
  assert (match addFile (HL := example_loader) example_metadata (lit "app") 7 [] new_coCache with
          | Ok c =>
              match arg_map_ c !! 7 with
              | Some args =>
                  match args !! getInstrumentedName (lit "foo") with
                  | Some d1 => (explicit_args_length d1 =? 16) && (kernarg_length d1 =? 24)
                  | None => false
                  end
              | None => false
              end
          | Err _ => false
          end = true) as Hc by (vm_compute; reflexivity).
  destruct (addFile _ _ _ _) as [c|]; [|discriminate].
  destruct (arg_map_ c !! 7) as [args|] eqn:Ha; [|discriminate].
  destruct (args !! getInstrumentedName (lit "foo")) as [d1|] eqn:Hd; [|discriminate].
  apply andb_true_iff in Hc as [He%Z.eqb_eq Hk%Z.eqb_eq].
  destruct (instrumented_kernargs (HL := example_loader) example_metadata 7 (lit "foo") c args d1
    (replicate 8 0) (replicate 8 0) [] (replicate 24 0) [] 0 0 Ha Hd) as (desc&Hg&Hl&_);
    [done|done|by rewrite Hk|done|].
  exists desc. split; [exact Hg|by rewrite Hl].
Defined.
