(* ===== verification/Dispatch.v ===== *)
(** * Configuration, dispatch policy, plug-ins and the duration log

    The parts of [src/utils.cc] that decide what a run does:
    [getLogDurConfig] reads the environment, [dispatchController] chooses the
    dispatches that run instrumented, [handlerManager] asks the plug-ins
    ([plugins/]) for message handlers, and [logDuration] writes the duration log
    of a run without instrumentation. *)
From S2P Require Import Prelude StdString Names.

(** ** [getLogDurConfig] *)
Abbreviation config_t := (gmap bytes bytes).

Definition instrumented_value (v : option bytes) : bytes :=
  match v with
  | None => lit "false"
  | Some logDurInstrumented =>
      let tmp := tolower <$> logDurInstrumented in
      if negb (bool_decide (tmp = lit "true")) && negb (bool_decide (tmp = lit "false"))
      then lit "false" else tmp
  end.

Definition getLogDurConfig (getenv : bytes → option bytes) (config : config_t) : config_t :=
  let config := <[lit "LOGDUR_LOG_LOCATION" :=
    default (lit "console") (getenv (lit "LOGDUR_LOG_LOCATION"))]> config in
  let config := <[lit "LOGDUR_KERNEL_CACHE" :=
    default [] (getenv (lit "LOGDUR_KERNEL_CACHE"))]> config in
  let config := <[lit "LOGDUR_INSTRUMENTED" :=
    instrumented_value (getenv (lit "LOGDUR_INSTRUMENTED"))]> config in
  let config := <[lit "LOGDUR_HANDLERS" := default [] (getenv (lit "LOGDUR_HANDLERS"))]> config in
  let config := <[lit "LOGDUR_FILTER" := default [] (getenv (lit "LOGDUR_FILTER"))]> config in
  let config := <[lit "LOGDUR_DISPATCHES" :=
    default [] (getenv (lit "LOGDUR_DISPATCHES"))]> config in
  <[lit "LOGDUR_LIBRARY_FILTER" := default [] (getenv (lit "LOGDUR_LIBRARY_FILTER"))]> config.

(** ** [dispatchController]

    A member the constructor does not initialise is [None]: reading it is
    undefined behaviour.  The random engine is the standard library's; [draw]
    gives the next number of the distribution on [1, 100]. *)
Section controller.
Context {rng : Type} (draw : rng → Z * rng).

Record dispatchController := DispatchController {
  bAllDispatch_ : option bool;
  bRandomDispatch_ : option bool;
  bOneDispatch_ : option bool;
  dispatched_kernels_ : gmap Z bool;
  generator_ : rng;
}.

Definition new_dispatchController (getenv : bytes → option bytes) (seed : rng)
    : dispatchController :=
  let config := getLogDurConfig getenv ∅ in
  match config !! lit "LOGDUR_DISPATCHES" with
  | Some v =>
      if decide (v = lit "random") then
        DispatchController (Some false) (Some true) (Some false) ∅ seed
      else if decide (v = lit "all") then
        DispatchController (Some true) (Some false) (Some false) ∅ seed
      else if decide (v = lit "1") then
        DispatchController (Some false) (Some false) (Some true) ∅ seed
      else DispatchController None None None ∅ seed
  | None => DispatchController (Some true) None None ∅ seed
  end.

Definition read_member (b : option bool) : res bool :=
  match b with Some b => Ok b | None => Err FUB end.

(** [randomDispatcher::canDispatch] *)
Definition random_canDispatch (g : rng) : bool * rng :=
  let (n, g') := draw g in (n =? 1, g').

Definition canDispatch (kernel_object : Z) (d : dispatchController)
    : res (bool * dispatchController) :=
  let! random := read_member (bRandomDispatch_ d) in
  if random then
    let (b, g) := random_canDispatch (generator_ d) in
    Ok (b, DispatchController (bAllDispatch_ d) (bRandomDispatch_ d) (bOneDispatch_ d)
             (dispatched_kernels_ d) g)
  else
    let! one := read_member (bOneDispatch_ d) in
    if one then
      match dispatched_kernels_ d !! kernel_object with
      | None =>
          Ok (true, DispatchController (bAllDispatch_ d) (bRandomDispatch_ d) (bOneDispatch_ d)
                      (<[kernel_object := true]> (dispatched_kernels_ d)) (generator_ d))
      | Some _ => Ok (false, d)
      end
    else Ok (true, d).

(** The answers to a sequence of requests. *)
Fixpoint dispatch_all (d : dispatchController) (kernels : list Z) : res (list bool) :=
  match kernels with
  | [] => Ok []
  | k :: kernels' =>
      let! '(b, d') := canDispatch k d in
      let! bs := dispatch_all d' kernels' in Ok (b :: bs)
  end.

(** What the sequence should be: the first request of every kernel; the draws. *)
Fixpoint first_requests (seen : gset Z) (kernels : list Z) : list bool :=
  match kernels with
  | [] => []
  | k :: kernels' => bool_decide (k ∉ seen) :: first_requests ({[k]} ∪ seen) kernels'
  end.

Fixpoint draws (g : rng) (n : nat) : list bool :=
  match n with
  | O => []
  | S n' => let (x, g') := draw g in (x =? 1) :: draws g' n'
  end.
End controller.
Arguments dispatchController : clear implicits.
Arguments DispatchController {rng} _ _ _ _ _.

(** ** [handlerManager]

    A shared library is opened by the dynamic linker ([None]: [dlopen] failed);
    its [getMessageHandlers] may be missing. *)
Section handlers.
Context {handler : Type}.
Context (dlopen : bytes → option Z) (dlsym : Z → option (bytes → Z → list handler)).

Abbreviation plugins_t := (gmap Z (bytes → Z → list handler)).

Definition set_handler (plugins : plugins_t) (lib : bytes) : res plugins_t :=
  match dlopen (c_str lib) with
  | None => Err (FExit 1)
  | Some handle =>
      Ok (match dlsym handle with Some func => <[handle := func]> plugins | None => plugins end)
  end.

Definition setHandlers (handlers : list bytes) (plugins : plugins_t) : res plugins_t :=
  res_fold set_handler plugins handlers.

(** The constructor with a list; the destructor closes each library in the map. *)
Definition new_handlerManager (handlers : list bytes) : res plugins_t := setHandlers handlers ∅.
Definition destroy_handlerManager (plugins : plugins_t) : list Z := (map_items plugins).*1.

Definition getMessageHandlers (plugins : plugins_t) (strKernel : bytes) (dispatch_id : Z)
    (outHandlers : list handler) : list handler :=
  foldl (λ out p, out ++ p.2 strKernel dispatch_id) outHandlers (map_items plugins).

(** [comms_mgr::setConfig] *)
Definition setConfig (config : config_t) (plugins : plugins_t) : res plugins_t :=
  match config !! lit "LOGDUR_HANDLERS" with
  | Some (c :: cs) => setHandlers (split (c :: cs) ","%char false) plugins
  | _ => Ok plugins
  end.
End handlers.

(** The plug-ins of the repository: each makes handlers that log to
    [LOGDUR_LOG_LOCATION]. *)
Inductive handler_t :=
| BasicBlockAnalysis (kernel : bytes) (dispatch_id : Z) (location : bytes)
| MessageLogger (kernel : bytes) (dispatch_id : Z) (location : bytes)
| MemoryAnalysis (kernel : bytes) (dispatch_id : Z) (location : bytes)
| TimeIntervals (kernel : bytes) (dispatch_id : Z) (location : bytes)
| MemoryHeatmap (kernel : bytes) (dispatch_id : Z) (location : bytes) (page_size : Z).

Definition plugin_location (getenv : bytes → option bytes) : bytes :=
  default (lit "console") (getenv (lit "LOGDUR_LOG_LOCATION")).

Definition basic_block_plugin getenv (kernel : bytes) (dispatch_id : Z) : list handler_t :=
  [BasicBlockAnalysis kernel dispatch_id (plugin_location getenv)].
Definition logger_plugin getenv (kernel : bytes) (dispatch_id : Z) : list handler_t :=
  [MessageLogger kernel dispatch_id (plugin_location getenv)].
Definition memory_analysis_plugin getenv (kernel : bytes) (dispatch_id : Z) : list handler_t :=
  [MemoryAnalysis kernel dispatch_id (plugin_location getenv)].
Definition default_plugin getenv (kernel : bytes) (dispatch_id : Z) : list handler_t :=
  [TimeIntervals kernel dispatch_id (plugin_location getenv);
   MemoryHeatmap kernel dispatch_id (plugin_location getenv) (1024 * 1024)].

(** ** [logDuration]: a sink is the console or a file opened for appending. *)
Inductive sink := Console | LogFile (path : bytes).
#[export] Instance sink_eq_dec : EqDecision sink.
Proof. solve_decision. Defined.

Record logDuration := LogDuration { log_file_ : sink; log_location_ : bytes }.

Definition open_sink (location : bytes) : sink :=
  if decide (location = lit "console") then Console else LogFile location.

Definition new_logDuration : logDuration := LogDuration (open_sink (lit "console")) (lit "console").
Definition new_logDuration_at (location : bytes) : logDuration :=
  LogDuration (open_sink location) location.

Definition log_setLocation (strLocation : bytes) (l : logDuration) : logDuration :=
  let location := match strLocation with [] => lit "/dev/null" | _ => strLocation end in
  LogDuration (open_sink location) location.

(** The destructor: the file it closes. *)
Definition destroy_logDuration (l : logDuration) : option sink :=
  if decide (log_location_ l = lit "console") then None else Some (log_file_ l).

Definition log_headers : bytes := lit "kernel,dispatch,startNs,endNs" ++ [newline].

Definition log_line (kernelName : bytes) (dispatchTime startNs endNs : Z) : bytes :=
  [dquote] ++ kernelName ++ [dquote] ++ lit "," ++ to_dec dispatchTime ++ lit "," ++
  to_dec startNs ++ lit "," ++ to_dec endNs ++ [newline].

(** ** Lemmas *)
Section policy.
Context {rng : Type} (draw : rng → Z * rng).

Lemma config_dispatches getenv config :
  getLogDurConfig getenv config !! lit "LOGDUR_DISPATCHES" =
  Some (default [] (getenv (lit "LOGDUR_DISPATCHES"))).
Proof.
  unfold getLogDurConfig. cbv zeta.
  rewrite lookup_insert_ne by (by apply (bool_decide_unpack _)). apply lookup_insert_eq.
Qed.

Lemma dispatch_all_first (d : dispatchController rng) kernels seen :
  bRandomDispatch_ d = Some false → bOneDispatch_ d = Some true →
  dom (dispatched_kernels_ d) = seen →
  dispatch_all draw d kernels = Ok (first_requests seen kernels).
Proof.
  revert d seen. induction kernels as [|k ks IH]; intros d seen Hr Ho Hs; [done|].
  cbn [dispatch_all first_requests]. unfold canDispatch. rewrite Hr, Ho. cbn.
  destruct (dispatched_kernels_ d !! k) as [b|] eqn:Hk; cbn.
  - rewrite bool_decide_false by (rewrite <-Hs; intros Hn; apply Hn, elem_of_dom; eauto).
    rewrite (IH d seen) by done.
    assert (k ∈ seen) by (rewrite <-Hs; apply elem_of_dom; eauto).
    by replace ({[k]} ∪ seen) with seen by set_solver.
  - rewrite bool_decide_true by (rewrite <-Hs; by apply not_elem_of_dom).
    erewrite IH; [done|done|done|]. cbn. rewrite dom_insert_L. by rewrite Hs.
Qed.

Lemma dispatch_all_random (d : dispatchController rng) kernels :
  bRandomDispatch_ d = Some true →
  dispatch_all draw d kernels = Ok (draws draw (generator_ d) (length kernels)).
Proof.
  revert d. induction kernels as [|k ks IH]; intros d Hr; [done|].
  cbn [dispatch_all length draws]. unfold canDispatch, random_canDispatch. rewrite Hr. cbn.
  destruct (draw (generator_ d)) as [x g]. cbn. by rewrite IH.
Qed.

Lemma dispatch_all_every (d : dispatchController rng) kernels :
  bRandomDispatch_ d = Some false → bOneDispatch_ d = Some false →
  dispatch_all draw d kernels = Ok (replicate (length kernels) true).
Proof.
  intros Hr Ho. induction kernels as [|k ks IH]; [done|].
  cbn [dispatch_all length replicate]. unfold canDispatch. rewrite Hr, Ho. cbn. by rewrite IH.
Qed.
End policy.

(** ** Properties *)

(** C30. The dispatch policy as a function of [LOGDUR_DISPATCHES]: [all] runs
    every dispatch instrumented, [1] exactly the first of every kernel, [random]
    those for which the generator draws a 1, whatever the kernel; with any other
    value, the empty one included, or with the variable unset, the flags are
    never initialised and the first request reads them. *)
Theorem dispatch_policy {rng} (draw : rng → Z * rng) getenv seed kernels :
  let d := new_dispatchController getenv seed in
  let value := default [] (getenv (lit "LOGDUR_DISPATCHES")) in
  (value = lit "all" → dispatch_all draw d kernels = Ok (replicate (length kernels) true)) ∧
  (value = lit "1" → dispatch_all draw d kernels = Ok (first_requests ∅ kernels)) ∧
  (value = lit "random" → dispatch_all draw d kernels = Ok (draws draw seed (length kernels))) ∧
  (value ≠ lit "all" → value ≠ lit "1" → value ≠ lit "random" → kernels ≠ [] →
     dispatch_all draw d kernels = Err FUB).
Proof.
  cbv zeta. unfold new_dispatchController. rewrite config_dispatches.
  set (v := default [] _). split_and!.
  - intros ->. rewrite decide_False, decide_True by (by apply (bool_decide_unpack _)).
    by apply dispatch_all_every.
  - intros ->. rewrite !decide_False, decide_True by (by apply (bool_decide_unpack _)).
    by apply dispatch_all_first.
  - intros ->. rewrite decide_True by done. by apply dispatch_all_random.
  - intros Ha H1 Hr. rewrite !decide_False by done. by destruct kernels.
Qed.

Lemma dispatch_policy_witness :
  dispatch_all (rng := unit) (λ _, (1, tt))
    (new_dispatchController (λ k, if decide (k = lit "LOGDUR_DISPATCHES") then Some (lit "1") else None) tt)
    [5; 6; 5] = Ok [true; true; false].
Proof.
  rewrite (proj1 (proj2 (dispatch_policy (rng := unit) (λ _, (1, tt))
    (λ k, if decide (k = lit "LOGDUR_DISPATCHES") then Some (lit "1") else None) tt [5; 6; 5])));
    vm_compute; reflexivity.
Defined.
