(* ===== verification/Comms.v ===== *)
(** * Device memory and communication objects

    [KernArgAllocator] ([src/utils.cc]) and [hsa_mem_mgr] ([src/hsa_mem_mgr.cc])
    allocate kernarg segments and message buffers from HSA memory pools;
    [comms_mgr] ([src/comms_mgr.cc]) makes the object through which one
    instrumented dispatch sends its messages, with the handlers of the plug-ins
    or two default ones.

    HSA calls are arguments of the operations that make them. *)
From S2P Require Import Prelude StdString Names Dispatch.

(** ** Memory pools, as the iteration callbacks see them *)
Record pool_info := PoolInfo {
  pl_handle : Z;
  pl_global_segment : bool;
  pl_kernarg_init : bool;
  pl_coarse_grained : bool;
  (** [RUNTIME_ALLOC_ALLOWED], [None] when the query fails *)
  pl_alloc_allowed : option bool;
  pl_granule : option Z;
  pl_size : option Z;
}.

(** [KernArgAllocator::KernArgAllocator]: the last kernarg pool of the last CPU
    agent that has one; [None] leaves [pool_] uninitialised. *)
Definition kernarg_pool_of (pool : option Z) (p : pool_info) : option Z :=
  if negb (pl_global_segment p) then pool
  else if pl_kernarg_init p then Some (pl_handle p) else pool.

Definition new_KernArgAllocator (agents : list (bool * list pool_info)) : option Z :=
  foldl (λ pool a, if a.1 : bool then foldl kernarg_pool_of pool a.2 else pool) None agents.

Definition RH_PAGE_MASK : Z := 4095.

(** [(size + mask) & ~mask] on [size_t] *)
Definition round_up_mask (size mask : Z) : Z := Z.land (u64 (size + mask)) (Z.lnot mask).

Section allocator.
(** [hsa_amd_memory_pool_allocate], [hsa_amd_agents_allow_access] *)
Context (pool_allocate : Z → Z → option Z) (allow_access : Z → Z → bool).

(** [KernArgAllocator::allocate]; 0 is the null pointer. *)
Definition allocate (pool size allowed : Z) : Z :=
  let size := round_up_mask size RH_PAGE_MASK in
  match pool_allocate pool size with
  | None => 0
  | Some buffer => if allow_access allowed buffer then buffer else 0
  end.

(** [hsa_mem_mgr::calloc_device_memory]: the block and its size, all zeroed. *)
Definition calloc_device_memory (pool min_alloc_size size : Z) : res (Z * Z) :=
  let mask := u64 (min_alloc_size - 1) in
  let adjusted_size := round_up_mask size mask in
  match pool_allocate pool adjusted_size with
  | None => Err (FThrow (lit "std::bad_alloc"))
  | Some buffer => Ok (buffer, adjusted_size)
  end.

(** ** [hsa_mem_mgr]: what its functions ask of HSA and of [dh_comms] *)
Inductive memory_call :=
| ZeroMemory (p size : Z)
| PoolFree (p : Z)
| CopyMemory (dst src size : Z).

(** [calloc]: a failed allocation is not noticed, the null pointer is zeroed. *)
Definition mem_calloc (pool agent size : Z) : Z * list memory_call :=
  let result := allocate pool size agent in (result, [ZeroMemory result size]).

(** [free] (through [KernArgAllocator::free]) and [free_device_memory]. *)
Definition allocator_free (p : Z) : list memory_call := [PoolFree p].
Definition mem_free (p : Z) : list memory_call := allocator_free p.
Definition free_device_memory (p : Z) : list memory_call := [PoolFree p].

Definition mem_copy (dst src size : Z) : Z * list memory_call := (dst, [CopyMemory dst src size]).

(** [success]: the status of [hsa_memory_copy]. *)
Definition copy_to_device (success : bool) (dst src size : Z) : res Z :=
  if success then Ok dst else Err (FThrow (lit "std::exception")).
End allocator.

(** ** [comms_mgr] *)
Record pool_specs_t := PoolSpecs { agent_ : Z; pool_ : Z; min_alloc_size_ : Z }.

Section comms.
Context {handler : Type}.

Record comms_mgr := CommsMgr {
  mem_mgrs_ : gmap Z pool_specs_t;
  plugins_ : gmap Z (bytes → Z → list handler);
}.

(** The callback of [addAgent] on one pool. *)
Definition usable_pool (agent : Z) (pools : list pool_specs_t) (p : pool_info)
    : res (list pool_specs_t) :=
  if negb (pl_global_segment p) then Ok pools
  else
    match pl_alloc_allowed p with
    | Some true =>
        match pl_granule p, pl_size p with
        | Some granularity, Some _ =>
            Ok (if pl_coarse_grained p
                then pools ++ [PoolSpecs agent (pl_handle p) granularity] else pools)
        | _, _ => Err (FThrow (lit "std::bad_alloc"))
        end
    | _ => Ok pools
    end.

Definition usable_pools (agent : Z) (pools : list pool_info) : res (list pool_specs_t) :=
  res_fold (usable_pool agent) [] pools.

(** One [hsa_mem_mgr] is made for each usable pool; the map keeps one. *)
Definition addAgent (agent : Z) (pools : list pool_info) (m : comms_mgr) : res comms_mgr :=
  let! usable := usable_pools agent pools in
  Ok (CommsMgr (foldl (λ mgrs item, <[agent_ item := item]> mgrs) (mem_mgrs_ m) usable)
        (plugins_ m)).

Fixpoint addAgents (agents : list (Z * list pool_info)) (m : comms_mgr) : res comms_mgr :=
  match agents with
  | [] => Ok m
  | (agent, pools) :: agents' => let! m' := addAgent agent pools m in addAgents agents' m'
  end.

(** [~comms_mgr]: the managers it deletes. *)
Definition destroy_comms_mgr (m : comms_mgr) : list pool_specs_t := (map_items (mem_mgrs_ m)).*2.

Definition growBufferPool (agent count : Z) : bool := false.

(** A [dh_comms] object: its memory, its handlers in order, the kernel it was
    started for.  [set_context] is what [kdb_message_handler_base] handlers get. *)
Record comms_object := CommsObject {
  ob_memory : pool_specs_t;
  ob_handlers : list handler;
  ob_kernel : bytes;
}.

Definition checkoutCommsObject (set_context : bytes → handler → handler)
    (default_handlers : bytes → Z → list handler) (agent : Z) (strKernelName : bytes)
    (dispatch_id : Z) (m : comms_mgr) : option comms_object :=
  match mem_mgrs_ m !! agent with
  | None => None
  | Some mem_mgr =>
      let handlers := getMessageHandlers (plugins_ m) strKernelName dispatch_id [] in
      Some (CommsObject mem_mgr
              (match handlers with
               | [] => default_handlers strKernelName dispatch_id
               | _ => set_context strKernelName <$> handlers
               end) strKernelName)
  end.

(** [checkinCommsObject]: the calls made on the object, in order, and those that
    can throw; the exception is caught, and what follows it is not done. *)
Inductive checkin_call := CallStop | CallReport | CallDeleteHandlers | CallDelete.

Fixpoint checkin_calls (throws : checkin_call → bool) (calls : list checkin_call)
    : list checkin_call :=
  match calls with
  | [] => []
  | c :: calls' => if throws c then [c] else c :: checkin_calls throws calls'
  end.

Definition checkinCommsObject (throws : checkin_call → bool) : bool * list checkin_call :=
  (true, checkin_calls throws [CallStop; CallReport; CallDeleteHandlers; CallDelete]).
End comms.
Arguments comms_mgr : clear implicits.
Arguments comms_object : clear implicits.

(** The two handlers [checkoutCommsObject] makes itself log to the console. *)
Definition default_handlers (strKernelName : bytes) (dispatch_id : Z) : list handler_t :=
  [MemoryHeatmap strKernelName dispatch_id (lit "console") (1024 * 1024);
   TimeIntervals strKernelName dispatch_id (lit "console")].

(** ** Lemmas *)
Lemma round_up_pow2 size k :
  0 ≤ k → round_up_mask size (2 ^ k - 1) = u64 (size + (2 ^ k - 1)) / 2 ^ k * 2 ^ k.
Proof.
  intros Hk. unfold round_up_mask. rewrite <-Z.ldiff_land.
  replace (2 ^ k - 1) with (Z.ones k) at 2 by (rewrite Z.ones_equiv; lia).
  rewrite Z.ldiff_ones_r, Z.shiftl_mul_pow2, Z.shiftr_div_pow2 by done. done.
Qed.

Lemma getMessageHandlers_concat {handler} (plugins : gmap Z (bytes → Z → list handler)) k id out :
  getMessageHandlers plugins k id out =
  out ++ concat ((λ p, p.2 k id) <$> map_items plugins).
Proof.
  unfold getMessageHandlers. generalize (map_items plugins). intros ps. revert out.
  induction ps as [|p ps IH]; intros out; cbn; [by rewrite app_nil_r|].
  by rewrite IH, <-app_assoc.
Qed.

(** ** Properties *)

(** The size of an allocation: rounded up to the page (kernarg segments) or
    to the granule of the pool (device memory, for a granule that is a power of
    two), it is a multiple of the unit, at least what was asked for and less
    than one unit more; a request within one unit of [2^64] wraps to 0. *)
Theorem allocation_rounding size k :
  0 ≤ k < 64 → 0 ≤ size < 2 ^ 64 →
  let unit := 2 ^ k in
  let r := round_up_mask size (u64 (unit - 1)) in
  r `mod` unit = 0 ∧
  (size + (unit - 1) < 2 ^ 64 → size ≤ r < size + unit) ∧
  (2 ^ 64 ≤ size + (unit - 1) → r = 0) ∧
  (k = 12 → u64 (unit - 1) = RH_PAGE_MASK).
Proof.
  intros Hk Hs unit r.
  assert (0 < unit) by (apply Z.pow_pos_nonneg; lia).
  assert (unit ≤ 2 ^ 63) by (apply Z.pow_le_mono_r; lia).
  assert (u64 (unit - 1) = unit - 1) as Hu by (apply wrap_small; lia).
  assert (r = u64 (size + (unit - 1)) / unit * unit) as Hr.
  { unfold r. rewrite Hu. apply round_up_pow2. lia. }
  split_and!.
  - rewrite Hr. apply Z.mod_mul. lia.
  - intros Hlt. rewrite Hr, wrap_small by lia.
    pose proof (Z.div_mod (size + (unit - 1)) unit ltac:(lia)).
    pose proof (Z.mod_pos_bound (size + (unit - 1)) unit ltac:(lia)). lia.
  - intros Hge. rewrite Hr. unfold wrap.
    rewrite <-(Z.mod_add (size + (unit - 1)) (-1)) by lia. rewrite (Z.mod_small _ (2 ^ 64)) by lia.
    rewrite Z.div_small by lia. lia.
  - intros ->. reflexivity.
Qed.

Lemma allocation_rounding_witness :
  round_up_mask 1 4095 `mod` 4096 = 0 ∧ 1 ≤ round_up_mask 1 4095 < 4097.
Proof.
  destruct (allocation_rounding 1 12 ltac:(lia) ltac:(lia)) as (H1&H2&_&_). split.
  - exact H1.
  - apply H2. lia.
Defined.

(** The managers [addAgents] makes, in order. *)
Fixpoint managers_made (agents : list (Z * list pool_info)) : list pool_specs_t :=
  match agents with
  | [] => []
  | (agent, pools) :: agents' =>
      match usable_pools agent pools with Ok l => l ++ managers_made agents' | Err _ => [] end
  end.

Lemma size_distinct `{Countable A} (l : list A) : size (list_to_set l : gset A) = length l ↔ NoDup l.
Proof.
  split; [|apply size_list_to_set]. induction l as [|x l IH]; intros Hs; [constructor|].
  cbn in Hs. pose proof (size_list_to_set_le l) as Hle. destruct (decide (x ∈ l)) as [Hin|Hout].
  - rewrite subseteq_union_1_L in Hs by set_solver. lia.
  - constructor; [done|]. rewrite size_union, size_singleton in Hs by set_solver. apply IH. lia.
Qed.

Lemma mgrs_fold (l : list pool_specs_t) (mgrs : gmap Z pool_specs_t) a :
  foldl (λ mgrs item, <[agent_ item := item]> mgrs) mgrs l !! a =
  match list.last (filter (λ item, agent_ item = a) l) with Some item => Some item | None => mgrs !! a end.
Proof.
  revert mgrs. induction l as [|item l IH]; intros mgrs; [done|]. cbn [foldl]. rewrite IH.
  rewrite filter_cons. destruct (decide (agent_ item = a)) as [<-|Hne].
  - rewrite last_cons. destruct (list.last _); [done|]. apply lookup_insert_eq.
  - destruct (list.last _); [done|]. by rewrite lookup_insert_ne.
Qed.

Lemma addAgents_fold {handler} agents (m m' : comms_mgr handler) :
  addAgents agents m = Ok m' →
  mem_mgrs_ m' = foldl (λ mgrs item, <[agent_ item := item]> mgrs) (mem_mgrs_ m) (managers_made agents).
Proof.
  revert m. induction agents as [|[agent pools] agents IH]; intros m; cbn; [by intros [= <-]|].
  intros (m1 & H1 & H2)%res_bind_Ok. unfold addAgent in H1.
  destruct (usable_pools agent pools) as [l|]; [|done]. injection H1 as <-.
  rewrite (IH _ H2), foldl_app. done.
Qed.

(** The managers a destructor deletes are, for each agent, the last one made for it;
    so all are deleted exactly if no agent has two usable pools or is added
    twice: an earlier manager of the same agent is lost. *)
Theorem managers_deleted {handler} agents plugins (m : comms_mgr handler) :
  addAgents agents (CommsMgr ∅ plugins) = Ok m →
  let made := managers_made agents in
  (∀ item, item ∈ destroy_comms_mgr m ↔ list.last (filter (λ i, agent_ i = agent_ item) made) = Some item) ∧
  (length (destroy_comms_mgr m) = length made ↔ NoDup (agent_ <$> made)).
Proof.
  intros H%addAgents_fold made. cbn in H. fold made in H.
  assert (Hl : ∀ a, mem_mgrs_ m !! a = list.last (filter (λ i, agent_ i = a) made)).
  { intros a. rewrite H, mgrs_fold, lookup_empty. by destruct (list.last _). }
  assert (Hkey : ∀ a item, mem_mgrs_ m !! a = Some item → agent_ item = a).
  { intros a item Hi. rewrite Hl in Hi. apply last_Some_elem_of in Hi.
    by apply list_elem_of_filter in Hi as [? _]. }
  split.
  - intros item. rewrite <- Hl. unfold destroy_comms_mgr. rewrite list_elem_of_fmap. split.
    + intros ([a i] & -> & Hi). apply elem_of_map_items in Hi. cbn. by rewrite (Hkey _ _ Hi).
    + intros Hi. exists (agent_ item, item). by rewrite elem_of_map_items.
  - unfold destroy_comms_mgr. rewrite length_fmap, (Permutation_length (map_items_perm _)), length_map_to_list.
    rewrite <- size_distinct, <- (size_dom (D := gset Z)), <- (length_fmap agent_ made).
    assert (dom (mem_mgrs_ m) = list_to_set (agent_ <$> made)) as ->; [|done].
    apply set_eq. intros a. rewrite elem_of_dom, Hl, elem_of_list_to_set, list_elem_of_fmap. split.
    + intros [item Hi]. apply last_Some_elem_of, list_elem_of_filter in Hi as [<- ?]. by exists item.
    + intros (item & -> & Hin). apply last_is_Some. intros E.
      assert (item ∈ filter (λ i, agent_ i = agent_ item) made) as Hf by (by apply list_elem_of_filter).
      rewrite E in Hf. by apply elem_of_nil in Hf.
Qed.

Lemma managers_deleted_witness :
  let pool h := PoolInfo h true false true (Some true) (Some 4096) (Some 65536) in
  let agents := [(7, [pool 1; pool 2]); (8, [pool 3])] in
  match addAgents agents (CommsMgr (handler := handler_t) ∅ ∅) with
  | Ok m => destroy_comms_mgr m = [PoolSpecs 7 2 4096; PoolSpecs 8 3 4096] ∧
            length (destroy_comms_mgr m) ≠ length (managers_made agents) ∧
            ¬ NoDup (agent_ <$> managers_made agents)
  | Err _ => False
  end.
Proof.
  intros pool agents.
  assert (match addAgents agents (CommsMgr (handler := handler_t) ∅ ∅) with
          | Ok m => destroy_comms_mgr m = [PoolSpecs 7 2 4096; PoolSpecs 8 3 4096] | Err _ => False end) as Hd
    by (vm_compute; reflexivity).
  destruct (addAgents agents _) as [m|] eqn:E; [|exact Hd]. split; [exact Hd|].
  rewrite Hd. split; [vm_compute; discriminate|]. intros Hnd.
  apply (proj2 (managers_deleted _ _ _ E)) in Hnd. rewrite Hd in Hnd. vm_compute in Hnd. discriminate.
Defined.

(** The handlers of a dispatch: an agent without usable device memory gets
    no communication object; otherwise the object has the handlers of every
    plug-in, in the order of the libraries' handles, each with its kernel
    context set, and the two default handlers when no plug-in made one, so that
    no message of an instrumented dispatch is left without a handler. *)
Theorem checkout_handlers (m : comms_mgr handler_t) set_context agent kernel dispatch_id :
  match checkoutCommsObject set_context default_handlers agent kernel dispatch_id m with
  | None => mem_mgrs_ m !! agent = None
  | Some ob =>
      mem_mgrs_ m !! agent = Some (ob_memory ob) ∧ ob_kernel ob = kernel ∧
      let made := concat ((λ p, p.2 kernel dispatch_id) <$> map_items (plugins_ m)) in
      ob_handlers ob = (if decide (made = []) then default_handlers kernel dispatch_id
                        else set_context kernel <$> made) ∧
      ob_handlers ob ≠ []
  end.
Proof.
  unfold checkoutCommsObject. destruct (mem_mgrs_ m !! agent); [|done]. split_and!; [done..| |].
  all: cbn [ob_handlers]; rewrite getMessageHandlers_concat, app_nil_l.
  all: by destruct (concat _).
Qed.
