(* ===== verification/LibraryFilter.v ===== *)
(** * The library filter

    [src/library_filter.cc]: which files are searched for instrumented kernels.
    A JSON file lists glob patterns of files to add, with or without the
    libraries they need, and of files to leave out; the latter are turned into
    regular expressions.

    The file system, [glob(3)] and libelf are arguments.  Of [std::regex], which
    belongs to the language's library, the part that [globToRegex] uses is
    modelled: bracket expression [[^/]], the dot, escaped and plain characters,
    and the star. *)
From S2P Require Import Prelude StdString Names.

(** ** [parseStringArray]: [s] is the text from [pos] on *)
Fixpoint scan_string (s : bytes) : option (bytes * bytes) :=
  match s with
  | [] => None
  | c :: s1 =>
      if aeqb c dquote then Some ([], s1)
      else if aeqb c "\"%char then
        match s1 with
        | d :: s2 => (λ p, (d :: p.1, p.2)) <$> scan_string s2
        | [] => None
        end
      else (λ p, (c :: p.1, p.2)) <$> scan_string s1
  end.

(** The loop over the elements.  Past the end [json[pos]] is the terminating
    NUL, which is none of the expected characters. *)
Fixpoint parse_elements (fuel : nat) (s : bytes) (result : list bytes) : res (bool * list bytes) :=
  match fuel with
  | O => Err FDiverge
  | S fuel' =>
      match s with
      | [] => Ok (false, result)
      | _ =>
          match skip_space s with
          | [] => Ok (false, result)
          | c :: s' =>
              if aeqb c "]"%char then Ok (true, result)
              else if aeqb c ","%char then parse_elements fuel' s' result
              else if negb (aeqb c dquote) then Ok (false, result)
              else
                match scan_string s' with
                | None => Ok (false, result)
                | Some (value, rest) => parse_elements fuel' rest (result ++ [value])
                end
          end
      end
  end.

Definition parseStringArray (s : bytes) (result : list bytes) : res (bool * list bytes) :=
  match skip_space s with
  | c :: s' =>
      if aeqb c "["%char then parse_elements (S (length s')) s' result else Ok (false, result)
  | [] => Ok (false, result)
  end.

Definition findAndParseArray (json key : bytes) (result : list bytes) : res (bool * list bytes) :=
  let searchKey := [dquote] ++ key ++ [dquote] in
  match find_sub searchKey json with
  | None => Ok (true, result)
  | Some pos =>
      let s := drop (pos + length searchKey) json in
      match find_char ":"%char s with
      | None => Ok (false, result)
      | Some colon => parseStringArray (drop (S colon) s) result
      end
  end.

(** ** Regular expressions *)
Inductive atom := AnyChar | NotSlash | Char (c : ascii).

(** An expression is a sequence of atoms, starred or not. *)
Abbreviation regex := (list (atom * bool)).

Definition special_chars : bytes := lit ".+^$()[]{}|\*?".

Definition starred (s : bytes) : bool * bytes :=
  match s with
  | c :: s' => if aeqb c "*"%char then (true, s') else (false, s)
  | [] => (false, [])
  end.

(** [std::regex(s)] for the expressions of the subset. *)
Fixpoint regex_of (fuel : nat) (s : bytes) : option regex :=
  match fuel with
  | O => None
  | S fuel' =>
      let item (a : atom) (rest : bytes) : option regex :=
        let (star, rest) := starred rest in cons (a, star) <$> regex_of fuel' rest in
      match s with
      | [] => Some []
      | c :: s1 =>
          if aeqb c "."%char then item AnyChar s1
          else if aeqb c "["%char then
            if starts_with (lit "^/]") s1 then item NotSlash (drop 3 s1) else None
          else if aeqb c "\"%char then
            match s1 with
            | d :: s2 => if in_set special_chars d then item (Char d) s2 else None
            | [] => None
            end
          else if in_set special_chars c then None
          else item (Char c) s1
      end
  end.

(** In the ECMAScript grammar the dot does not match line terminators. *)
Definition line_terminator (c : ascii) : bool := aeqb c newline || aeqb c (ch 13).

Definition atom_matches (a : atom) (c : ascii) : bool :=
  match a with
  | AnyChar => negb (line_terminator c)
  | NotSlash => negb (aeqb c "/"%char)
  | Char d => aeqb c d
  end.

(** [std::regex_match]: the whole string. *)
Fixpoint regex_match (r : regex) : bytes → bool :=
  match r with
  | [] => λ s, match s with [] => true | _ => false end
  | (a, false) :: r' => λ s,
      match s with c :: s' => atom_matches a c && regex_match r' s' | [] => false end
  | (a, true) :: r' =>
      fix star (s : bytes) : bool :=
        regex_match r' s ||
        match s with c :: s' => atom_matches a c && star s' | [] => false end
  end.

(** ** [globToRegex]: the text it builds, then the expression *)
Definition escaped_chars : bytes := lit ".+^$()[]{}|\".

Fixpoint glob_text (pattern : bytes) : bytes :=
  match pattern with
  | [] => []
  | c :: p1 =>
      if aeqb c "*"%char then
        match p1 with
        | d :: p2 => if aeqb d "*"%char then lit ".*" ++ glob_text p2
                     else lit "[^/]*" ++ glob_text p1
        | [] => lit "[^/]*"
        end
      else if aeqb c "?"%char then lit "[^/]" ++ glob_text p1
      else if in_set escaped_chars c then "\"%char :: c :: glob_text p1
      else c :: glob_text p1
  end.

(** [None] is a [std::regex_error]. *)
Definition globToRegex (pattern : bytes) : option regex :=
  let text := glob_text pattern in regex_of (S (length text)) text.

(** ** [class LibraryFilter] *)
Record LibraryFilter := Filter {
  active_ : bool;
  includePatterns_ : list bytes;
  includeWithDepsPatterns_ : list bytes;
  excludeRegexes_ : list regex;
}.

Definition new_filter : LibraryFilter := Filter false [] [] [].

(** The conversion loop stops at the first pattern that is not accepted. *)
Fixpoint add_excludes (patterns : list bytes) (regexes : list regex) : bool * list regex :=
  match patterns with
  | [] => (true, regexes)
  | p :: patterns' =>
      match globToRegex p with
      | Some r => add_excludes patterns' (regexes ++ [r])
      | None => (false, regexes)
      end
  end.

(** [loadConfig]: [contents] is the text of the file, [None] if it cannot be
    opened. *)
Definition loadConfig (contents : option bytes) (f : LibraryFilter) : res (bool * LibraryFilter) :=
  match contents with
  | None => Ok (false, f)
  | Some json =>
      let! '(ok, include) := findAndParseArray json (lit "include") (includePatterns_ f) in
      let f := Filter (active_ f) include (includeWithDepsPatterns_ f) (excludeRegexes_ f) in
      if negb ok then Ok (false, f)
      else
        let! '(ok, deps) :=
          findAndParseArray json (lit "include_with_deps") (includeWithDepsPatterns_ f) in
        let f := Filter (active_ f) (includePatterns_ f) deps (excludeRegexes_ f) in
        if negb ok then Ok (false, f)
        else
          let! '(ok, excludePatterns) := findAndParseArray json (lit "exclude") [] in
          if negb ok then Ok (false, f)
          else
            let (ok, regexes) := add_excludes excludePatterns (excludeRegexes_ f) in
            let f := Filter (active_ f) (includePatterns_ f) (includeWithDepsPatterns_ f) regexes in
            if ok then Ok (true, Filter true (includePatterns_ f) (includeWithDepsPatterns_ f) regexes)
            else Ok (false, f)
  end.

Fixpoint matchesAnyPattern (path : bytes) (patterns : list regex) : bool :=
  match patterns with
  | [] => false
  | pattern :: patterns' => if regex_match pattern path then true else matchesAnyPattern path patterns'
  end.

Definition isExcluded (f : LibraryFilter) (path : bytes) : bool :=
  if negb (active_ f) then false else matchesAnyPattern path (excludeRegexes_ f).

(** ** Files to include *)
Record elf_section := ElfSection {
  (** [gelf_getshdr] succeeds and the type is [SHT_DYNAMIC] *)
  sc_dynamic : bool;
  (** the entries [gelf_getdyn] gives (tag and value), if the data is there *)
  sc_entries : option (list (option (Z * Z)));
  sc_strings : option bytes;
  sc_size : Z;
  sc_entsize : Z;
}.

Class FileSystem := {
  glob : bytes → list bytes;
  read_prefix : bytes → option bytes;
  path_exists : bytes → bool;
  realpath : bytes → option bytes;
  ld_library_path : option bytes;
  elf_sections : bytes → option (list elf_section);
}.

Definition DT_NULL : Z := 0.
Definition DT_NEEDED : Z := 1.

Section files.
Context `{FS : FileSystem}.

Definition isValidElf (path : bytes) : bool :=
  match read_prefix path with
  | None => false
  | Some magic => bool_decide (take 4 magic = ch 127 :: lit "ELF")
  end.

Definition getIncludedFiles (f : LibraryFilter) : list bytes :=
  foldl (λ result pattern, result ++ filter (λ path, isValidElf path = true) (glob pattern))
    [] (includePatterns_ f).

(** [while ((end = pathStr.find(':', start)) != npos) ...] *)
Fixpoint ld_dirs (fuel : nat) (s : bytes) : res (list bytes) :=
  match find_char ":"%char s with
  | None => Ok (match s with [] => [] | _ => [s] end)
  | Some stop =>
      match fuel with
      | O => Err FDiverge
      | S fuel' =>
          let! dirs := ld_dirs fuel' (drop (S stop) s) in
          Ok (if (0 <? stop)%nat then take stop s :: dirs else dirs)
      end
  end.

Definition standard_dirs : list bytes :=
  [lit "/lib64"; lit "/usr/lib64"; lit "/lib"; lit "/usr/lib"; lit "/usr/local/lib64";
   lit "/usr/local/lib"].

Definition first_existing (libName : bytes) (dirs : list bytes) : bytes :=
  match List.find (λ dir, path_exists (dir ++ lit "/" ++ libName)) dirs with
  | Some dir =>
      let fullPath := dir ++ lit "/" ++ libName in default fullPath (realpath fullPath)
  | None => []
  end.

Definition resolveLibraryPath (libName parentDir : bytes) : res bytes :=
  if starts_with (lit "/") libName then Ok (if path_exists libName then libName else [])
  else
    let! dirs := match ld_library_path with
                 | Some ldPath => ld_dirs (length ldPath) ldPath
                 | None => Ok []
                 end in
    Ok (first_existing libName (parentDir :: standard_dirs ++ dirs)).

(** The loop over the dynamic entries, up to [DT_NULL]. *)
Fixpoint needed_entries (strings parentDir : bytes) (entries : list (option (Z * Z)))
    (deps : list bytes) : res (list bytes) :=
  match entries with
  | [] => Ok deps
  | None :: entries' => needed_entries strings parentDir entries' deps
  | Some (d_tag, d_val) :: entries' =>
      let! deps :=
        if d_tag =? DT_NEEDED then
          if Z.of_nat (length strings) <=? d_val then Err FUB
          else
            match c_str (drop (Z.to_nat d_val) strings) with
            | [] => Ok deps
            | name =>
                let! resolved := resolveLibraryPath name parentDir in
                Ok (if negb (bool_decide (resolved = [])) && isValidElf resolved
                    then deps ++ [resolved] else deps)
            end
        else Ok deps in
      if d_tag =? DT_NULL then Ok deps else needed_entries strings parentDir entries' deps
  end.

(** The first dynamic section whose data and string table are there. *)
Fixpoint dynamic_section (parentDir : bytes) (sections : list elf_section) : res (list bytes) :=
  match sections with
  | [] => Ok []
  | sc :: sections' =>
      if negb (sc_dynamic sc) then dynamic_section parentDir sections'
      else
        match sc_entries sc, sc_strings sc with
        | Some entries, Some strings =>
            if sc_entsize sc =? 0 then Err FUB
            else needed_entries strings parentDir
                   (take (Z.to_nat (sc_size sc / sc_entsize sc)) entries) []
        | _, _ => dynamic_section parentDir sections'
        end
  end.

Definition getElfDependencies (path : bytes) : res (list bytes) :=
  match elf_sections path with
  | None => Ok []
  | Some sections =>
      let parentDir := match rfind_char "/"%char path with
                       | Some lastSlash => take lastSlash path
                       | None => []
                       end in
      dynamic_section parentDir sections
  end.

Definition include_path (result : gset bytes) (path : bytes) : res (gset bytes) :=
  if isValidElf path then
    let! deps := getElfDependencies path in Ok (list_to_set deps ∪ ({[path]} ∪ result))
  else Ok result.

Definition getIncludedFilesWithDeps (f : LibraryFilter) : res (list bytes) :=
  let! result := res_fold (λ result pattern, res_fold include_path result (glob pattern))
                   ∅ (includeWithDepsPatterns_ f) in
  Ok (fst <$> map_items (gset_to_gmap () result)).
End files.

(** ** What a glob pattern means

    [**] is any text without line terminators, [*] any text without a slash,
    [?] one character other than a slash; everything else is itself. *)
Inductive glob_matches : bytes → bytes → Prop :=
| gm_nil : glob_matches [] []
| gm_starstar p a s :
    Forall (λ c, line_terminator c = false) a → glob_matches p s →
    glob_matches ("*"%char :: "*"%char :: p) (a ++ s)
| gm_star p a s :
    list.head p ≠ Some "*"%char → "/"%char ∉ a → glob_matches p s →
    glob_matches ("*"%char :: p) (a ++ s)
| gm_question p c s : c ≠ "/"%char → glob_matches p s → glob_matches ("?"%char :: p) (c :: s)
| gm_char p c s :
    c ≠ "*"%char → c ≠ "?"%char → glob_matches p s → glob_matches (c :: p) (c :: s).

(** ** Lemmas: globs and expressions *)
Fixpoint glob_regex (pattern : bytes) : regex :=
  match pattern with
  | [] => []
  | c :: p1 =>
      if aeqb c "*"%char then
        match p1 with
        | d :: p2 => if aeqb d "*"%char then (AnyChar, true) :: glob_regex p2
                     else (NotSlash, true) :: glob_regex p1
        | [] => [(NotSlash, true)]
        end
      else if aeqb c "?"%char then (NotSlash, false) :: glob_regex p1
      else (Char c, false) :: glob_regex p1
  end.

(** Patterns by the token at their head. *)
Lemma pattern_ind (P : bytes → Prop) :
  P [] → (∀ p, P p → P ("*"%char :: "*"%char :: p)) →
  (∀ p, list.head p ≠ Some "*"%char → P p → P ("*"%char :: p)) →
  (∀ p, P p → P ("?"%char :: p)) →
  (∀ c p, c ≠ "*"%char → c ≠ "?"%char → P p → P (c :: p)) → ∀ p, P p.
Proof.
  intros H0 H2 H1 Hq Hc p.
  remember (length p) as n eqn:Hn. revert p Hn.
  induction (lt_wf n) as [n _ IH]; intros [|c p] ->; [done|].
  assert (P p) as Hp by (by apply (IH (length p)); [cbn; lia|]).
  destruct (decide (c = "*"%char)) as [->|Hn1].
  - destruct p as [|d p]; [by apply H1|].
    destruct (decide (d = "*"%char)) as [->|Hd].
    + apply H2. apply (IH (length p)); [cbn; lia|done].
    + apply H1; [|done]. cbn. congruence.
  - destruct (decide (c = "?"%char)) as [->|]; [by apply Hq|by apply Hc].
Qed.

Lemma glob_text_star p :
  list.head p ≠ Some "*"%char → glob_text ("*"%char :: p) = lit "[^/]*" ++ glob_text p.
Proof.
  destruct p as [|d p]; intros Hd; [done|]. cbn [glob_text].
  assert (aeqb d "*"%char = false) as -> by (apply aeqb_neq; intros ->; by apply Hd). done.
Qed.

Lemma glob_regex_star p :
  list.head p ≠ Some "*"%char → glob_regex ("*"%char :: p) = (NotSlash, true) :: glob_regex p.
Proof.
  destruct p as [|d p]; intros Hd; [done|]. cbn [glob_regex].
  assert (aeqb d "*"%char = false) as -> by (apply aeqb_neq; intros ->; by apply Hd). done.
Qed.

Lemma glob_text_char c p :
  c ≠ "*"%char → c ≠ "?"%char →
  glob_text (c :: p) = (if in_set escaped_chars c then ["\"%char; c] else [c]) ++ glob_text p.
Proof.
  intros H1%aeqb_neq H2%aeqb_neq. cbn [glob_text]. rewrite H1, H2. by case_match.
Qed.

Lemma glob_regex_char c p :
  c ≠ "*"%char → c ≠ "?"%char → glob_regex (c :: p) = (Char c, false) :: glob_regex p.
Proof. intros H1%aeqb_neq H2%aeqb_neq. cbn [glob_regex]. by rewrite H1, H2. Qed.

Lemma starred_glob p : starred (glob_text p) = (false, glob_text p).
Proof.
  induction p as [|p _|p Hp _|p _|c p H1 H2 _] using pattern_ind; try done.
  - by rewrite glob_text_star.
  - rewrite glob_text_char by done. case_match; [done|]. cbn.
    by rewrite (proj2 (aeqb_neq _ _)).
Qed.

Lemma in_special c :
  in_set escaped_chars c = false → c ≠ "*"%char → c ≠ "?"%char → in_set special_chars c = false.
Proof.
  intros He H1 H2. unfold in_set, special_chars, escaped_chars in *.
  apply bool_decide_eq_false. apply bool_decide_eq_false in He.
  cbn in *. intros Hc. apply He. set_solver.
Qed.

(** One step of the parser per token. *)
Lemma regex_of_any fuel s :
  regex_of (S fuel) (lit ".*" ++ s) = cons (AnyChar, true) <$> regex_of fuel s.
Proof. reflexivity. Qed.

Lemma regex_of_not_slash_star fuel s :
  regex_of (S fuel) (lit "[^/]*" ++ s) = cons (NotSlash, true) <$> regex_of fuel s.
Proof. reflexivity. Qed.

Lemma regex_of_not_slash fuel s :
  starred s = (false, s) →
  regex_of (S fuel) (lit "[^/]" ++ s) = cons (NotSlash, false) <$> regex_of fuel s.
Proof.
  intros Hs.
  change (regex_of (S fuel) (lit "[^/]" ++ s))
    with (match starred s return option regex with
          (star, rest) => cons (NotSlash, star) <$> regex_of fuel rest end).
  by rewrite Hs.
Qed.

Lemma regex_of_char fuel c s :
  c ≠ "*"%char → c ≠ "?"%char → starred s = (false, s) →
  regex_of (S fuel) ((if in_set escaped_chars c then ["\"%char; c] else [c]) ++ s) =
  cons (Char c, false) <$> regex_of fuel s.
Proof.
  intros H1 H2 Hs. destruct (in_set escaped_chars c) eqn:He.
  - assert (in_set special_chars c = true) as Hsp.
    { unfold in_set in *. apply bool_decide_eq_true. apply bool_decide_eq_true in He.
      unfold escaped_chars, special_chars in *. cbn in *. set_solver. }
    change (regex_of (S fuel) (["\"%char; c] ++ s))
      with (if in_set special_chars c
            then match starred s return option regex with
                 (star, rest) => cons (Char c, star) <$> regex_of fuel rest end
            else None).
    by rewrite Hsp, Hs.
  - assert (∀ d, in_set escaped_chars d = true → aeqb c d = false) as Hne.
    { intros d Hd. apply aeqb_neq. intros ->. congruence. }
    cbn [regex_of app]. rewrite !Hne by done. rewrite in_special by done. by rewrite Hs.
Qed.

(** The expression a pattern denotes is the one its text parses to. *)
Lemma globToRegex_regex p : globToRegex p = Some (glob_regex p).
Proof.
  unfold globToRegex.
  enough (∀ fuel, (length (glob_text p) < fuel)%nat → regex_of fuel (glob_text p) = Some (glob_regex p))
    as H by (apply H; lia).
  induction p as [|p IH|p Hp IH|p IH|c p H1 H2 IH] using pattern_ind; intros [|fuel]; try lia; intros Hf.
  - done.
  - change (glob_text ("*"%char :: "*"%char :: p)) with (lit ".*" ++ glob_text p) in *.
    rewrite length_app in Hf. cbn in Hf. rewrite regex_of_any, IH by lia. done.
  - rewrite glob_text_star, glob_regex_star by done. rewrite glob_text_star, length_app in Hf by done.
    cbn in Hf. rewrite regex_of_not_slash_star, IH by lia. done.
  - change (glob_text ("?"%char :: p)) with (lit "[^/]" ++ glob_text p) in *.
    rewrite length_app in Hf. cbn in Hf.
    rewrite regex_of_not_slash, IH by (lia || apply starred_glob). done.
  - rewrite glob_text_char, glob_regex_char by done. rewrite glob_text_char, length_app in Hf by done.
    assert (length (glob_text p) < fuel)%nat by (destruct (in_set _ _); cbn in Hf; lia).
    rewrite regex_of_char, IH by (done || apply starred_glob). done.
Qed.

Lemma regex_match_star a r s :
  regex_match ((a, true) :: r) s = true ↔
  ∃ s1 s2, s = s1 ++ s2 ∧ Forall (λ c, atom_matches a c = true) s1 ∧ regex_match r s2 = true.
Proof.
  induction s as [|c s IH].
  - cbn. rewrite orb_false_r. split; [intros Hr; by exists [], []|].
    intros (s1&s2&Hs&_&Hr). by destruct s1, s2.
  - change (regex_match ((a, true) :: r) (c :: s))
      with (regex_match r (c :: s) || (atom_matches a c && regex_match ((a, true) :: r) s)).
    rewrite orb_true_iff, andb_true_iff, IH. split.
    + intros [Hr|(Ha&s1&s2&->&Hs1&Hr)]; [by exists [], (c :: s)|].
      exists (c :: s1), s2. by repeat constructor.
    + intros ([|d s1]&s2&Hs&Hs1&Hr); [left; cbn in Hs; by subst|]. simplify_list_eq.
      apply Forall_cons_1 in Hs1 as [Ha Hs1]. right. split; [done|]. by exists s1, s2.
Qed.

Lemma glob_regex_matches p s : regex_match (glob_regex p) s = true ↔ glob_matches p s.
Proof.
  revert s. induction p as [|p IH|p Hp IH|p IH|c p H1 H2 IH] using pattern_ind; intros s.
  - cbn. split; [destruct s; [constructor|done]|by inversion 1].
  - change (glob_regex ("*"%char :: "*"%char :: p)) with ((AnyChar, true) :: glob_regex p). rewrite regex_match_star.
    split.
    + intros (s1&s2&->&Hs1&Hr). apply gm_starstar; [|by apply IH].
      eapply list.Forall_impl; [exact Hs1|]. intros c. cbn. by intros ?%negb_true_iff.
    + inversion 1 as [|p' a s' Ha Hs|p' a s' Hh| |]; subst; [|done..].
      exists a, s'. split_and!; [done| |by apply IH].
      eapply list.Forall_impl; [exact Ha|]. intros c Hc. cbn. by rewrite Hc.
  - rewrite glob_regex_star, regex_match_star by done. split.
    + intros (s1&s2&->&Hs1&Hr). apply gm_star; [done| |by apply IH].
      intros Hin. rewrite list.Forall_forall in Hs1. by specialize (Hs1 _ Hin).
    + inversion 1 as [|p' a s' Ha Hs|p' a s' Hh Ha Hs| |]; subst; [by cbn in Hp| |done].
      exists a, s'. split_and!; [done| |by apply IH].
      apply list.Forall_forall. intros c Hc. cbn. apply negb_true_iff, aeqb_neq.
      by intros ->.
  - change (glob_regex ("?"%char :: p)) with ((NotSlash, false) :: glob_regex p). cbn. split.
    + destruct s as [|c s]; [done|]. rewrite andb_true_iff, negb_true_iff, aeqb_neq.
      intros [Hc Hr]. constructor; [done|by apply IH].
    + inversion 1 as [| | |p' c s' Hc Hs|]; subst; [|done].
      rewrite (proj2 (aeqb_neq _ _)) by done. by apply IH.
  - rewrite glob_regex_char by done. cbn. split.
    + destruct s as [|d s]; [done|]. rewrite andb_true_iff, aeqb_eq. intros [-> Hr].
      apply gm_char; [done..|by apply IH].
    + inversion 1; subst; try done. rewrite aeqb_refl. by apply IH.
Qed.

(** ** JSON arrays of strings, as the configuration files write them *)
Definition escape (v : bytes) : bytes :=
  v ≫= λ c, if aeqb c dquote || aeqb c "\"%char then ["\"%char; c] else [c].
Definition quoted (v : bytes) : bytes := [dquote] ++ escape v ++ [dquote].

Definition spaces (ws : bytes) : Prop := Forall (λ c, isspace c = true) ws.

(** The text of an array after its opening bracket. *)
Inductive array_tail : bytes → list bytes → Prop :=
| at_close ws rest : spaces ws → array_tail (ws ++ "]"%char :: rest) []
| at_comma ws t l : spaces ws → array_tail t l → array_tail (ws ++ ","%char :: t) l
| at_elem ws v t l : spaces ws → array_tail t l → array_tail (ws ++ quoted v ++ t) (v :: l).

(** ** Lemmas: the array parser *)
Lemma skip_space_app ws c s :
  spaces ws → isspace c = false → skip_space (ws ++ c :: s) = c :: s.
Proof. induction 1 as [|d ws Hd Hws IH]; intros Hc; cbn; [by rewrite Hc|]. by rewrite Hd, IH. Qed.

Lemma skip_space_length s : (length (skip_space s) ≤ length s)%nat.
Proof. induction s as [|c s IH]; cbn; [lia|]. case_match; cbn; lia. Qed.

Lemma scan_string_length n s v rest :
  (length s ≤ n)%nat → scan_string s = Some (v, rest) → (length rest < length s)%nat.
Proof.
  revert s v rest. induction n as [|n IH]; intros [|c s] v rest Hn; cbn in *; try done; [lia|].
  destruct (aeqb c dquote); [intros [= <- <-]; lia|].
  destruct (aeqb c "\"%char); [destruct s as [|d s]; [done|]|].
  all: intros ([v' rest']&Hs&[= -> ->])%fmap_Some.
  all: apply IH in Hs; cbn in *; lia.
Qed.

Lemma scan_string_escape v rest : scan_string (escape v ++ dquote :: rest) = Some (v, rest).
Proof.
  induction v as [|c v IH]; [done|]. unfold escape in *. rewrite bind_cons, <-app_assoc.
  destruct (aeqb c dquote) eqn:Hq; cbn [orb]; [|destruct (aeqb c "\"%char) eqn:Hb].
  - change (scan_string (["\"%char; c] ++ (v ≫= λ c, if aeqb c dquote || aeqb c "\"%char then ["\"%char; c] else [c]) ++ dquote :: rest))
      with ((λ p : bytes * bytes, (c :: p.1, p.2)) <$> scan_string ((v ≫= λ c, if aeqb c dquote || aeqb c "\"%char then ["\"%char; c] else [c]) ++ dquote :: rest)).
    by rewrite IH.
  - change (scan_string (["\"%char; c] ++ (v ≫= λ c, if aeqb c dquote || aeqb c "\"%char then ["\"%char; c] else [c]) ++ dquote :: rest))
      with ((λ p : bytes * bytes, (c :: p.1, p.2)) <$> scan_string ((v ≫= λ c, if aeqb c dquote || aeqb c "\"%char then ["\"%char; c] else [c]) ++ dquote :: rest)).
    by rewrite IH.
  - cbn [app scan_string]. by rewrite Hq, Hb, IH.
Qed.

(** The parser terminates, whatever the text. *)
Lemma parse_elements_total fuel s result :
  (length s < fuel)%nat → is_Ok (parse_elements fuel s result).
Proof.
  revert s result. induction fuel as [|fuel IH]; intros s result Hf; [lia|]. cbn [parse_elements].
  destruct s as [|c0 s0] eqn:Hs; [by eexists|]. rewrite <-Hs in *.
  pose proof (skip_space_length s) as Hl. destruct (skip_space s) as [|c s'] eqn:Hsk; [by eexists|].
  cbn in Hl. destruct (aeqb c "]"%char); [by eexists|].
  destruct (aeqb c ","%char); [apply IH; lia|].
  destruct (negb (aeqb c dquote)); [by eexists|].
  destruct (scan_string s') as [[v rest]|] eqn:Hsc; [|by eexists].
  apply (scan_string_length (length s')) in Hsc; [|done]. apply IH. lia.
Qed.

Lemma findAndParseArray_total json key result : is_Ok (findAndParseArray json key result).
Proof.
  unfold findAndParseArray, parseStringArray. destruct (find_sub _ _); [|by eexists].
  destruct (find_char _ _); [|by eexists]. destruct (skip_space _) as [|c s']; [by eexists|].
  case_match; [|by eexists]. apply parse_elements_total. lia.
Qed.

Lemma parse_array_tail t l fuel result :
  array_tail t l → (length t < fuel)%nat → parse_elements fuel t result = Ok (true, result ++ l).
Proof.
  intros Ht. revert fuel result.
  induction Ht as [ws rest Hws|ws t l Hws Ht IH|ws v t l Hws Ht IH]; intros [|fuel] result Hf; try lia;
    cbn [parse_elements].
  - rewrite skip_space_app by done. destruct (ws ++ "]"%char :: rest) eqn:He; [by destruct ws|].
    cbn. by rewrite app_nil_r.
  - rewrite skip_space_app by done. destruct (ws ++ ","%char :: t) eqn:He; [by destruct ws|].
    cbn. rewrite <-He in Hf. rewrite length_app in Hf. cbn in Hf. apply IH. lia.
  - unfold quoted in *. rewrite <-!app_assoc in *. cbn [app] in *.
    rewrite skip_space_app by done.
    destruct (ws ++ dquote :: escape v ++ dquote :: t) eqn:He; [by destruct ws|].
    rewrite <-He in Hf. rewrite length_app in Hf. cbn in Hf. rewrite length_app in Hf. cbn in Hf.
    change (aeqb dquote "]"%char) with false. change (aeqb dquote ","%char) with false.
    rewrite aeqb_refl. cbn [negb]. rewrite scan_string_escape, IH by lia.
    by rewrite <-app_assoc.
Qed.

Lemma find_sub_None pat s : find_sub pat s = None ↔ no_sub pat s.
Proof.
  induction s as [|c s IH]; cbn.
  - destruct (starts_with pat []) eqn:Hst.
    + apply starts_with_spec in Hst as [t Ht]. split; [done|]. intros Hn. by destruct (Hn [] t).
    + split; [|done]. intros _ s1 s2 Heq. symmetry in Heq. apply app_nil in Heq as [-> [-> ->]%app_nil].
      done.
  - destruct (starts_with pat (c :: s)) eqn:Hst.
    + apply starts_with_spec in Hst as [t Ht]. split; [done|]. intros Hn. by destruct (Hn [] t).
    + rewrite fmap_None, IH. split.
      * intros Hn [|d s1] s2 Heq; [|simplify_list_eq; by apply (Hn s1 s2)].
        assert (starts_with pat (c :: s) = true) by (apply starts_with_spec; by exists s2). congruence.
      * intros Hn s1 s2 ->. by apply (Hn (c :: s1) s2).
Qed.

Lemma find_sub_first pat pre post :
  (∀ s1 s2, pre ++ pat ++ post = s1 ++ pat ++ s2 → (length pre ≤ length s1)%nat) →
  find_sub pat (pre ++ pat ++ post) = Some (length pre).
Proof.
  induction pre as [|c pre IH]; intros Hfirst; cbn [app length].
  - assert (starts_with pat (pat ++ post) = true) as Hst by apply starts_with_app.
    destruct (pat ++ post); cbn; by rewrite Hst.
  - cbn [find_sub]. destruct (starts_with pat (c :: pre ++ pat ++ post)) eqn:Hst.
    + apply starts_with_spec in Hst as [t Ht]. specialize (Hfirst [] t Ht). cbn in Hfirst. lia.
    + rewrite IH; [done|]. intros s1 s2 Heq.
      specialize (Hfirst (c :: s1) s2). cbn in Hfirst. rewrite Heq in Hfirst.
      specialize (Hfirst eq_refl). lia.
Qed.

Lemma add_excludes_all patterns regexes :
  add_excludes patterns regexes = (true, regexes ++ (glob_regex <$> patterns)).
Proof.
  revert regexes. induction patterns as [|p ps IH]; intros rs; [by rewrite app_nil_r|].
  cbn [add_excludes]. rewrite globToRegex_regex, IH. by rewrite <-app_assoc.
Qed.

Lemma matchesAnyPattern_Exists path ps :
  matchesAnyPattern path (glob_regex <$> ps) = true ↔ Exists (λ p, glob_matches p path) ps.
Proof.
  induction ps as [|p ps IH]; cbn; [split; [done|by inversion 1]|].
  rewrite List.Exists_cons, <-IH, <-glob_regex_matches. destruct (regex_match _ _); naive_solver.
Qed.

(** The directories of [LD_LIBRARY_PATH]: its non-empty fields. *)
Lemma ld_dirs_split fuel s :
  (length s ≤ fuel)%nat → ld_dirs fuel s = Ok (split s ":"%char false).
Proof.
  assert (∀ cur s1, ":"%char ∉ s1 → ∀ s2,
    split_go ":"%char false cur (s1 ++ s2) = split_go ":"%char false (cur ++ s1) s2) as Hgo.
  { intros cur s1. revert cur. induction s1 as [|c s1 IH]; intros cur Hn s2; cbn [app split_go].
    - by rewrite app_nil_r.
    - apply not_elem_of_cons in Hn as [Hc Hn]. rewrite (proj2 (aeqb_neq _ _)) by done.
      rewrite IH by done. by rewrite <-app_assoc. }
  revert s. induction fuel as [|fuel IH]; intros s Hf.
  { destruct s; [done|cbn in Hf; lia]. }
  cbn [ld_dirs]. unfold find_char. destruct (find_if (aeqb ":"%char) s) as [stop|] eqn:Hfi.
  - apply find_if_split in Hfi as (s1&c&s2&->&<-&Hc%aeqb_eq&Hn). subst c.
    apply none_of_char in Hn. rewrite drop_middle, take_app_length.
    rewrite length_app in Hf. cbn in Hf. rewrite IH by lia. cbn [res_bind]. unfold split.
    rewrite Hgo by done. cbn [app split_go]. rewrite aeqb_refl. cbn [orb].
    destruct s1; [done|]. done.
  - apply find_if_None, none_of_char in Hfi. unfold split.
    rewrite <-(app_nil_r s) at 2. rewrite Hgo by done. cbn. by destruct s.
Qed.

(** ** Lemmas: the files that are added *)
Section files_lemmas.
Context `{FS : FileSystem}.

Lemma needed_entries_valid strings parent entries deps deps' :
  Forall (λ path, isValidElf path = true) deps →
  needed_entries strings parent entries deps = Ok deps' →
  Forall (λ path, isValidElf path = true) deps'.
Proof.
  revert deps. induction entries as [|[[tag val]|] es IH]; intros deps Hd; cbn [needed_entries].
  - by intros [= <-].
  - intros (d1&Hd1&Hr)%res_bind_Ok.
    assert (Forall (λ path, isValidElf path = true) d1) as Hv.
    { destruct (tag =? DT_NEEDED); [|by simplify_eq].
      destruct (Z.of_nat (length strings) <=? val); [done|].
      destruct (c_str _) as [|c0 name]; [by simplify_eq|].
      apply res_bind_Ok in Hd1 as (resolved&_&[= <-]).
      destruct (negb _ && isValidElf resolved) eqn:Hb; [|done].
      apply andb_true_iff in Hb as [_ Hb]. apply Forall_app; split; [done|]. by constructor. }
    destruct (tag =? DT_NULL); [by simplify_eq|]. by eapply IH.
  - by apply IH.
Qed.

Lemma getElfDependencies_valid path deps :
  getElfDependencies path = Ok deps → Forall (λ p, isValidElf p = true) deps.
Proof.
  unfold getElfDependencies. destruct (elf_sections path) as [scs|]; [|intros [= <-]; constructor].
  generalize (match rfind_char "/"%char path with Some lastSlash => take lastSlash path | None => [] end).
  intros parent. induction scs as [|sc scs IH]; cbn [dynamic_section]; [intros [= <-]; constructor|].
  destruct (negb (sc_dynamic sc)); [done|].
  destruct (sc_entries sc), (sc_strings sc); [|done..]. case_match; [done|].
  apply needed_entries_valid. constructor.
Qed.

Lemma include_path_spec result path result' :
  include_path result path = Ok result' →
  (set_Forall (λ p, isValidElf p = true) result → set_Forall (λ p, isValidElf p = true) result') ∧
  result ⊆ result' ∧
  (isValidElf path = true → ∀ deps, getElfDependencies path = Ok deps →
     path ∈ result' ∧ list_to_set deps ⊆ result').
Proof.
  unfold include_path. destruct (isValidElf path) eqn:Hv; [|by intros [= <-]].
  intros (deps&Hd&[= <-])%res_bind_Ok. pose proof (getElfDependencies_valid _ _ Hd) as Hvd.
  rewrite list.Forall_forall in Hvd. split_and!.
  - intros Hr p [Hp%elem_of_list_to_set|[->%elem_of_singleton|Hp]%elem_of_union]%elem_of_union; auto.
  - set_solver.
  - intros _ deps' Hd'. rewrite Hd in Hd'. injection Hd' as <-. set_solver.
Qed.

Lemma include_paths_spec paths result result' :
  res_fold include_path result paths = Ok result' →
  (set_Forall (λ p, isValidElf p = true) result → set_Forall (λ p, isValidElf p = true) result') ∧
  result ⊆ result' ∧
  ∀ path deps, path ∈ paths → isValidElf path = true → getElfDependencies path = Ok deps →
     path ∈ result' ∧ list_to_set deps ⊆ result'.
Proof.
  revert result. induction paths as [|p ps IH]; intros result; cbn.
  { intros [= <-]. split_and!; [done..|]. by intros ?? ?%not_elem_of_nil. }
  intros (r1&H1&(IH1&IH2&IH3)%IH)%res_bind_Ok. apply include_path_spec in H1 as (H1&H2&H3).
  split_and!; [auto|set_solver|].
  intros path deps [->|Hp]%elem_of_cons Hv Hd; [|by apply IH3].
  destruct (H3 Hv _ Hd). set_solver.
Qed.

Lemma include_patterns_spec patterns result result' :
  res_fold (λ result pattern, res_fold include_path result (glob pattern)) result patterns = Ok result' →
  (set_Forall (λ p, isValidElf p = true) result → set_Forall (λ p, isValidElf p = true) result') ∧
  result ⊆ result' ∧
  ∀ pattern path deps, pattern ∈ patterns → path ∈ glob pattern → isValidElf path = true →
     getElfDependencies path = Ok deps → path ∈ result' ∧ list_to_set deps ⊆ result'.
Proof.
  revert result. induction patterns as [|p ps IH]; intros result; cbn.
  { intros [= <-]. split_and!; [done..|]. by intros ??? ?%not_elem_of_nil. }
  intros (r1&H1&(IH1&IH2&IH3)%IH)%res_bind_Ok. apply include_paths_spec in H1 as (H1&H2&H3).
  split_and!; [auto|set_solver|].
  intros pattern path deps [->|Hp]%elem_of_cons Hg Hv Hd; [|by eapply IH3].
  destruct (H3 _ _ Hg Hv Hd). set_solver.
Qed.

Lemma elem_of_set_items (X : gset bytes) p : p ∈ (map_items (gset_to_gmap () X)).*1 ↔ p ∈ X.
Proof.
  rewrite list_elem_of_fmap. split.
  - intros ([k []]&->&Hk%elem_of_map_items). by apply lookup_gset_to_gmap_Some in Hk as [? _].
  - intros Hp. exists (p, ()). split; [done|]. apply elem_of_map_items.
    by apply lookup_gset_to_gmap_Some.
Qed.
End files_lemmas.

(** A file system for the witness: one library that needs another. *)
Definition example_files : FileSystem := {|
  glob _ := [lit "/opt/a.so"];
  read_prefix _ := Some (ch 127 :: lit "ELF");
  path_exists p := bool_decide (p = lit "/opt/b.so");
  realpath p := Some p;
  ld_library_path := Some (lit "/x::/y");
  elf_sections p :=
    if decide (p = lit "/opt/a.so") then
      Some [ElfSection true (Some [Some (DT_NEEDED, 1); Some (DT_NULL, 0); Some (DT_NEEDED, 1)])
              (Some (nul :: lit "b.so" ++ [nul])) 48 16]
    else Some [];
|}.

(** ** Properties *)

(** C25. The configuration file decides the exclusions: [loadConfig] returns for
    every file; a filter that was not loaded excludes nothing; a loaded one
    excludes exactly the paths that one of the patterns of the [exclude] array
    matches as a glob, [*] and [?] stopping at a slash and [**] at a line
    terminator. *)
Theorem exclude_patterns_are_globs contents :
  ∃ b f, loadConfig contents new_filter = Ok (b, f) ∧
    (b = false → ∀ path, isExcluded f path = false) ∧
    (b = true → ∃ json excludes,
       contents = Some json ∧ findAndParseArray json (lit "exclude") [] = Ok (true, excludes) ∧
       findAndParseArray json (lit "include") [] = Ok (true, includePatterns_ f) ∧
       ∀ path, isExcluded f path = true ↔ Exists (λ p, glob_matches p path) excludes).
Proof.
  unfold loadConfig. destruct contents as [json|]; [|by exists false, new_filter].
  destruct (findAndParseArray_total json (lit "include") []) as [[ok1 l1] H1].
  destruct (findAndParseArray_total json (lit "include_with_deps") []) as [[ok2 l2] H2].
  destruct (findAndParseArray_total json (lit "exclude") []) as [[ok3 l3] H3].
  cbn [new_filter active_ includePatterns_ includeWithDepsPatterns_ excludeRegexes_].
  rewrite H1. cbn [res_bind]. destruct ok1; cbn [negb]; [|by eexists _, _].
  cbn [new_filter active_ includePatterns_ includeWithDepsPatterns_ excludeRegexes_].
  rewrite H2. cbn [res_bind]. destruct ok2; cbn [negb]; [|by eexists _, _].
  rewrite H3. cbn [res_bind]. destruct ok3; cbn [negb]; [|by eexists _, _].
  cbn [excludeRegexes_]. rewrite add_excludes_all. eexists _, _. split; [done|]. split; [done|].
  intros _. exists json, l3. split_and!; [done..|]. intros path. unfold isExcluded.
  cbn [active_ negb excludeRegexes_]. rewrite app_nil_l. apply matchesAnyPattern_Exists.
Qed.

(** C37. Reading back an array: whatever precedes the first occurrence of the
    quoted key, the strings of the array that follows it are appended, in order,
    with their escaped quotes and backslashes restored; a key that does not
    occur leaves the list alone. *)
Theorem array_roundtrip pre key skipped ws t l result :
  let searchKey := [dquote] ++ key ++ [dquote] in
  (∀ post s1 s2, pre ++ searchKey ++ post = s1 ++ searchKey ++ s2 → (length pre ≤ length s1)%nat) →
  ":"%char ∉ skipped → spaces ws → array_tail t l →
  findAndParseArray (pre ++ searchKey ++ skipped ++ ":"%char :: ws ++ "["%char :: t) key result
    = Ok (true, result ++ l) ∧
  (no_sub searchKey pre → findAndParseArray pre key result = Ok (true, result)).
Proof.
  intros searchKey Hfirst Hcolon Hws Ht. split.
  - unfold findAndParseArray. fold searchKey. rewrite find_sub_first by apply Hfirst.
    rewrite drop_app_add, drop_app_length.
    unfold find_char. rewrite find_if_here by (by apply none_of_char || apply aeqb_refl).
    rewrite drop_middle. unfold parseStringArray. rewrite skip_space_app by done.
    rewrite aeqb_refl. apply parse_array_tail; [done|lia].
  - intros Hno. unfold findAndParseArray. fold searchKey.
    by rewrite (proj2 (find_sub_None _ _) Hno).
Qed.

Lemma array_roundtrip_witness :
  findAndParseArray (lit "{" ++ ([dquote] ++ lit "exclude" ++ [dquote]) ++ [] ++
                     ":"%char :: [] ++ "["%char :: ([] ++ quoted (lit "a*") ++ [] ++ "]"%char :: lit "}"))
    (lit "exclude") [] = Ok (true, [] ++ [lit "a*"]).
Proof.
  apply (proj1 (array_roundtrip (lit "{") (lit "exclude") [] [] ([] ++ quoted (lit "a*") ++ [] ++ "]"%char :: lit "}")
    [lit "a*"] []
    ltac:(intros post [|c s1] s2 H; [by vm_compute in H|cbn; lia])
    ltac:(apply not_elem_of_nil) ltac:(by constructor)
    (at_elem [] (lit "a*") _ [] (List.Forall_nil _) (at_close [] (lit "}") (List.Forall_nil _))))).
Defined.

(** The key is searched for as text: a string equal to it that occurs
    earlier, as an element of another array, is taken for the key, and the array
    the file gives under the key is not read. *)
Theorem key_shadowed_by_value :
  let q := λ s, [dquote] ++ lit s ++ [dquote] in
  findAndParseArray (lit "{" ++ q "include" ++ lit ": [" ++ q "exclude" ++ lit "], " ++
                     q "other" ++ lit ": [], " ++ q "exclude" ++ lit ": [" ++ q "**" ++ lit "]}")
    (lit "exclude") [] = Ok (true, []).
Proof. vm_compute. reflexivity. Qed.

(** The files the filter adds are ELF files, the libraries they need
    included, and the list with dependencies has each once, in order. *)
Theorem included_files_valid `{FS : FileSystem} f :
  Forall (λ path, isValidElf path = true) (getIncludedFiles f) ∧
  ∀ files, getIncludedFilesWithDeps f = Ok files →
    Forall (λ path, isValidElf path = true) files ∧ NoDup files ∧
    StronglySorted (λ a b, key_leb a b = true) files ∧
    ∀ pattern path deps, pattern ∈ includeWithDepsPatterns_ f → path ∈ glob pattern →
      isValidElf path = true → getElfDependencies path = Ok deps → path ∈ files ∧ deps ⊆ files.
Proof.
  split.
  - unfold getIncludedFiles. generalize (includePatterns_ f). intros ps.
    assert (∀ acc, Forall (λ path, isValidElf path = true) acc →
      Forall (λ path, isValidElf path = true)
        (foldl (λ result pattern, result ++ filter (λ path, isValidElf path = true) (glob pattern)) acc ps))
      as H; [|apply H; constructor].
    induction ps as [|p ps IH]; intros acc Hacc; [done|]. cbn. apply IH. apply Forall_app; split; [done|].
    apply list.Forall_forall. by intros x [? _]%list_elem_of_filter.
  - intros files. unfold getIncludedFilesWithDeps.
    intros (result&(H1&_&H3)%include_patterns_spec&[= <-])%res_bind_Ok. split_and!.
    + apply list.Forall_forall. intros p Hp%elem_of_set_items. apply H1; [|done].
      by intros ? ?%elem_of_empty.
    + apply NoDup_map_items.
    + pose proof (map_items_sorted (gset_to_gmap () result)) as Hs.
      induction Hs as [|p ps Hs IH Hp]; cbn; constructor; [done|].
      apply List.Forall_map. exact Hp.
    + intros pattern path deps Hpat Hpath Hv Hd. destruct (H3 _ _ _ Hpat Hpath Hv Hd) as [Hin Hdeps].
      split; [by apply elem_of_set_items|]. intros d Hd'. apply elem_of_set_items. set_solver.
Qed.

Lemma included_files_valid_witness :
  match getIncludedFilesWithDeps (FS := example_files) (Filter true [] [lit "/opt/*.so"] []) with
  | Ok files => files = [lit "/opt/a.so"; lit "/opt/b.so"] ∧ NoDup files
  | Err _ => False
  end.
Proof.
  destruct (getIncludedFilesWithDeps _) as [files|] eqn:Hr; [|vm_compute in Hr; discriminate].
  split; [vm_compute in Hr; by injection Hr as <-|].
  apply (proj2 (included_files_valid (FS := example_files) _) files Hr).
Defined.
