(* ===== verification/InstrScope.v ===== *)
(** * The instrumentation scope

    [InstrumentationScope] ([src/instrumentation/InstrumentationCommon.cpp]):
    which source locations the compiler passes instrument, read from the
    environment variables [INSTRUMENTATION_SCOPE] (the text) and
    [INSTRUMENTATION_SCOPE_FILE] (a file of definitions). *)
From S2P Require Import Prelude StdString Names.

(** [trimWhitespace] *)
Definition scope_blanks : bytes := [" "%char; tab; ch 13; newline].
Definition trimWhitespace (s : bytes) : bytes := trim_set scope_blanks s.

Record ScopeEntry := Entry {
  file_pattern : bytes;
  is_full_path : bool;
  ranges : list (Z * Z);
}.

#[export] Instance scope_entry_eq_dec : EqDecision ScopeEntry.
Proof. solve_decision. Defined.

(** The first [':'] that is followed by a digit. *)
Fixpoint colon_digit (s : bytes) : option nat :=
  match s with
  | [] => None
  | c :: s' =>
      if aeqb c ":"%char && match s' with d :: _ => isdigit d | [] => false end
      then Some 0%nat else S <$> colon_digit s'
  end.

(** File pattern and line specifications of a definition. *)
Definition split_definition (definition : bytes) : bytes * bytes :=
  if starts_with (lit ":") definition then ([], drop 1 definition)
  else
    match colon_digit definition with
    | None => (definition, [])
    | Some colon_pos => (take colon_pos definition, drop (S colon_pos) definition)
    end.

(** One trimmed, non-empty line specification; [None] is a syntax error. *)
Definition parse_spec (spec : bytes) : option (Z * Z) :=
  match find_char ":"%char spec with
  | Some range_colon =>
      let start_str := take range_colon spec in
      let end_str := drop (S range_colon) spec in
      match find_char ":"%char end_str with
      | Some _ => None
      | None =>
          let (start_val, rest) := strtoul start_str in
          if negb (bool_decide (rest = [])) then None
          else
            let (end_val, rest) := strtoul end_str in
            if negb (bool_decide (rest = [])) then None
            else if end_val <=? start_val then None
            else Some (u32 start_val, u32 end_val)
      end
  | None =>
      let (line_val, rest) := strtoul spec in
      if negb (bool_decide (rest = [])) then None
      else Some (u32 line_val, u32 (u64 (line_val + 1)))
  end.

(** [while (std::getline(line_stream, spec, ',')) ...] *)
Fixpoint parse_specs (specs : list bytes) (acc : list (Z * Z)) : option (list (Z * Z)) :=
  match specs with
  | [] => Some acc
  | spec :: specs' =>
      match trimWhitespace spec with
      | [] => parse_specs specs' acc
      | spec =>
          match parse_spec spec with
          | Some r => parse_specs specs' (acc ++ [r])
          | None => None
          end
      end
  end.

(** A trimmed, non-empty definition. *)
Definition parse_definition (definition : bytes) : option ScopeEntry :=
  let (file_part, line_part) := split_definition definition in
  match parse_specs (match line_part with [] => [] | _ => getlines ","%char line_part end) [] with
  | Some rs => Some (Entry file_part (starts_with (lit "/") file_part) rs)
  | None => None
  end.

(** [while (std::getline(stream, definition, ';')) ...]: the entries read before
    an error stay. *)
Fixpoint parse_all (definitions : list bytes) (entries : list ScopeEntry) : bool * list ScopeEntry :=
  match definitions with
  | [] => (true, entries)
  | definition :: definitions' =>
      match trimWhitespace definition with
      | [] => parse_all definitions' entries
      | definition =>
          match parse_definition definition with
          | Some entry => parse_all definitions' (entries ++ [entry])
          | None => (false, entries)
          end
      end
  end.

Definition parseDefinitions (input : bytes) (entries : list ScopeEntry) : bool * list ScopeEntry :=
  parse_all (getlines ";"%char input) entries.

(** The loop of [parseFile]. *)
Definition combine_line (combined line : bytes) : bytes :=
  match trimWhitespace line with
  | [] => combined
  | c :: l =>
      if aeqb c "#"%char then combined
      else (match combined with [] => [] | _ => combined ++ lit ";" end) ++ c :: l
  end.

(** [parseFile]: [contents] is [None] when the file cannot be opened. *)
Definition parseFile (contents : option bytes) (entries : list ScopeEntry) : bool * list ScopeEntry :=
  match contents with
  | None => (false, entries)
  | Some text =>
      match foldl combine_line [] (getlines newline text) with
      | [] => (true, entries)
      | combined => parseDefinitions combined entries
      end
  end.

Record InstrumentationScope := Scope { entries_ : list ScopeEntry; active_ : bool }.

(** The constructor; [read] reads the file it is named. *)
Definition new_InstrumentationScope (scope_env scope_file_env : option bytes)
    (read : bytes → option bytes) : InstrumentationScope :=
  match scope_env, scope_file_env with
  | None, None => Scope [] false
  | _, _ =>
      let (ok, entries) := match scope_env with
                           | Some (c :: s) => parseDefinitions (c :: s) []
                           | _ => (true, [])
                           end in
      let (ok, entries) :=
        if ok then match scope_file_env with
                   | Some (c :: s) => parseFile (read (c :: s)) entries
                   | _ => (true, entries)
                   end
        else (false, entries) in
      if ok then Scope entries (negb (bool_decide (entries = []))) else Scope [] false
  end.

Definition entry_file_matches (entry : ScopeEntry) (file : bytes) : bool :=
  match file_pattern entry with
  | [] => true
  | pattern =>
      if is_full_path entry then bool_decide (file = pattern)
      else if (length pattern <=? length file)%nat
           then bool_decide (drop (length file - length pattern) file = pattern) else false
  end.

(** The loop over the entries. *)
Fixpoint matches_any (entries : list ScopeEntry) (file : bytes) (line : Z) : bool :=
  match entries with
  | [] => false
  | entry :: entries' =>
      if negb (entry_file_matches entry file) then matches_any entries' file line
      else
        match ranges entry with
        | [] => true
        | rs =>
            if existsb (λ r, (r.1 <=? line) && (line <? r.2)) rs then true
            else matches_any entries' file line
        end
  end.

Definition matches (scope : InstrumentationScope) (file : bytes) (line : Z) : bool :=
  if negb (active_ scope) then true else matches_any (entries_ scope) file line.

(** ** Writing definitions *)
Definition range_text (r : Z * Z) : bytes :=
  if r.2 =? r.1 + 1 then to_dec r.1 else to_dec r.1 ++ lit ":" ++ to_dec r.2.

Definition entry_text (e : ScopeEntry) : bytes :=
  match ranges e with
  | [] => file_pattern e
  | rs => file_pattern e ++ lit ":" ++ join ","%char (range_text <$> rs)
  end.

Definition scope_text (es : list ScopeEntry) : bytes := join ";"%char (entry_text <$> es).

(** What can be written: a range is a non-empty interval of 32-bit numbers; a
    file pattern has no [';'], does not begin or end with a blank, does not
    begin with a colon and has no colon before a digit. *)
Definition range_ok (r : Z * Z) : Prop := 0 ≤ r.1 < r.2 ∧ r.2 < 2 ^ 32.

Record entry_ok (e : ScopeEntry) : Prop := {
  eo_semicolon : ";"%char ∉ file_pattern e;
  eo_head c : list.head (file_pattern e) = Some c → (c ∉ scope_blanks) ∧ c ≠ ":"%char;
  eo_last c : list.last (file_pattern e) = Some c → c ∉ scope_blanks;
  eo_colon : colon_digit (file_pattern e) = None;
  eo_full : is_full_path e = starts_with (lit "/") (file_pattern e);
  eo_ranges : Forall range_ok (ranges e);
  eo_some : file_pattern e ≠ [] ∨ ranges e ≠ [];
}.

(** ** Lemmas *)
Lemma to_dec_head_digit n : 0 ≤ n → ∃ c s, to_dec n = c :: s ∧ isdigit c = true.
Proof.
  intros Hn. pose proof (to_dec_digits n Hn) as Hd. pose proof (to_dec_ne n).
  destruct (to_dec n) as [|c s]; [done|]. apply Forall_cons_1 in Hd as [? _]. by exists c, s.
Qed.

Lemma range_text_chars r c :
  range_ok r → c ∈ range_text r → isdigit c = true ∨ c = ":"%char.
Proof.
  intros [Hr _]. unfold range_text.
  pose proof (to_dec_digits r.1 ltac:(lia)) as H1. pose proof (to_dec_digits r.2 ltac:(lia)) as H2.
  rewrite list.Forall_forall in H1, H2.
  destruct (r.2 =? r.1 + 1); [auto|].
  intros [?|[->%list_elem_of_singleton|?]%elem_of_app]%elem_of_app; auto.
Qed.

Lemma range_text_head r : range_ok r → ∃ c s, range_text r = c :: s ∧ isdigit c = true.
Proof.
  intros [Hr _]. unfold range_text. destruct (to_dec_head_digit r.1 ltac:(lia)) as (c&s&->&Hc).
  destruct (r.2 =? r.1 + 1); by eexists _, _.
Qed.

Lemma find_char_none c s : c ∉ s → find_char c s = None.
Proof. intros Hn. apply find_if_None. by apply none_of_char. Qed.

Lemma parse_spec_range r : range_ok r → parse_spec (range_text r) = Some r.
Proof.
  intros [Hr Hr2]. unfold parse_spec, range_text. destruct (Z.eqb_spec r.2 (r.1 + 1)) as [He|He].
  - rewrite find_char_none by (by apply to_dec_not_in; [lia|]).
    rewrite strtoul_to_dec by lia. cbn [negb]. rewrite bool_decide_true by done. cbn [negb].
    rewrite (wrap_small 64), !wrap_small by lia. destruct r as [a b]; cbn in *. by subst.
  - unfold lit. cbn [String.list_ascii_of_string app].
    rewrite find_char_here by (by apply to_dec_not_in; [lia|]).
    rewrite drop_middle, take_app_length.
    rewrite find_char_none by (by apply to_dec_not_in; [lia|]).
    rewrite !strtoul_to_dec by lia. rewrite bool_decide_true by done. cbn [negb].
    rewrite (proj2 (Z.leb_gt _ _)) by lia. rewrite !wrap_small by lia. by destruct r.
Qed.

Lemma digit_not_blank c : isdigit c = true → c ∉ scope_blanks.
Proof.
  intros Hd Hin. unfold scope_blanks in Hin.
  repeat (apply elem_of_cons in Hin as [->|Hin]; [by vm_compute in Hd|]).
  by apply not_elem_of_nil in Hin.
Qed.

(** Trimming keeps a piece of text whose two ends are not blanks. *)
Lemma range_text_last r c : range_ok r → list.last (range_text r) = Some c → isdigit c = true.
Proof.
  intros [Hr _] Hl. assert (∀ n s d, 0 ≤ n → list.last (s ++ to_dec n) = Some d → isdigit d = true)
    as Hdig.
  { intros n s d Hn Hd. pose proof (to_dec_digits n Hn) as Hds. rewrite last_app in Hd.
    destruct (list.last (to_dec n)) as [d'|] eqn:Hd'.
    - injection Hd as ->. apply last_Some in Hd' as [l' Hl']. rewrite Hl' in Hds.
      by apply Forall_app in Hds as [_ [? _]%Forall_cons_1].
    - apply last_None in Hd'. by apply to_dec_ne in Hd'. }
  revert Hl. unfold range_text. case_match.
  - apply (Hdig _ []). lia.
  - rewrite app_assoc. apply Hdig. lia.
Qed.

Lemma trim_range r : range_ok r → trimWhitespace (range_text r) = range_text r.
Proof.
  intros Hr. destruct (range_text_head r Hr) as (c&s&Hs&Hc). apply trim_set_id.
  - by rewrite Hs.
  - rewrite Hs. intros d [= <-]. by apply digit_not_blank.
  - intros d Hd. by apply digit_not_blank, (range_text_last r).
Qed.

Lemma parse_specs_ranges rs acc :
  Forall range_ok rs → parse_specs (range_text <$> rs) acc = Some (acc ++ rs).
Proof.
  intros Hrs. revert acc. induction Hrs as [|r rs Hr Hrs IH]; intros acc; [by rewrite app_nil_r|].
  cbn [fmap list_fmap parse_specs]. rewrite trim_range by done.
  destruct (range_text_head r Hr) as (c&s&Hs&_). rewrite Hs, <-Hs, parse_spec_range by done.
  rewrite IH. by rewrite <-app_assoc.
Qed.

Lemma ranges_getlines rs :
  Forall range_ok rs → getlines ","%char (join ","%char (range_text <$> rs)) = range_text <$> rs.
Proof.
  intros Hrs. apply getlines_join. rewrite Forall_fmap. eapply list.Forall_impl; [exact Hrs|].
  intros r Hr. cbn. destruct (range_text_head r Hr) as (c&s&Hs&_). split; [by rewrite Hs|].
  intros Hin. by apply range_text_chars in Hin as [?|?].
Qed.

Lemma colon_digit_app s t :
  colon_digit s = None → (∃ c u, t = c :: u ∧ isdigit c = true) →
  colon_digit (s ++ ":"%char :: t) = Some (length s).
Proof.
  intros Hs (c&u&->&Hc). induction s as [|d s IH]; [cbn; by rewrite Hc|].
  cbn [colon_digit app length] in *.
  destruct (aeqb d ":"%char) eqn:Hd; cbn [andb] in *.
  - destruct s as [|e s]; cbn [app] in *.
    + change (isdigit ":"%char) with false. cbn [andb]. by rewrite IH.
    + destruct (isdigit e); [done|]. rewrite IH; [done|].
      by destruct (colon_digit (e :: s)).
  - rewrite IH; [done|]. by destruct (colon_digit s).
Qed.

Lemma join_head d l ls c s : l = c :: s → list.head (join d (l :: ls)) = Some c.
Proof. intros ->. by destruct ls. Qed.

Lemma join_ranges_head r rs :
  range_ok r → ∃ c u, join ","%char (range_text <$> r :: rs) = c :: u ∧ isdigit c = true.
Proof.
  intros Hr. destruct (range_text_head r Hr) as (c&s&Hs&Hc).
  cbn [fmap list_fmap]. pose proof (join_head ","%char _ (range_text <$> rs) _ _ Hs) as Hj.
  destruct (join _ _) as [|d u]; [done|]. injection Hj as ->. by exists c, u.
Qed.

Lemma parse_entry_text e : entry_ok e → parse_definition (entry_text e) = Some e.
Proof.
  intros [Hs Hh Hl Hc Hf Hr Hsome]. unfold parse_definition, entry_text.
  destruct e as [file full rs]. cbn [file_pattern is_full_path ranges] in *. subst full. destruct rs as [|r rs].
  - destruct Hsome as [Hne|]; [|done]. unfold split_definition.
    destruct file as [|c0 file]; [done|]. destruct (Hh c0 eq_refl) as [_ Hc0].
    assert (starts_with (lit ":") (c0 :: file) = false) as ->.
    { cbn. rewrite (proj2 (aeqb_neq _ _)); [done|congruence]. }
    rewrite Hc. done.
  - assert (Hr' := Hr). apply Forall_cons_1 in Hr' as [Hr0 _].
    destruct (join_ranges_head r rs Hr0) as (d&u&Hj&Hd).
    change (lit ":") with [":"%char]. cbn [app].
    assert (split_definition (file ++ ":"%char :: join ","%char (range_text <$> r :: rs)) =
            (file, join ","%char (range_text <$> r :: rs))) as ->.
    { unfold split_definition. destruct file as [|c0 file]; [done|].
      destruct (Hh c0 eq_refl) as [_ Hc0].
      assert (starts_with (lit ":") ((c0 :: file) ++ ":"%char :: join ","%char (range_text <$> r :: rs))
              = false) as ->.
      { cbn. rewrite (proj2 (aeqb_neq _ _)); [done|congruence]. }
      rewrite colon_digit_app by (done || by exists d, u).
      by rewrite take_app_length, drop_middle. }
    rewrite Hj, <-Hj, ranges_getlines, parse_specs_ranges by done. done.
Qed.


Lemma join_ranges_last r rs c :
  Forall range_ok (r :: rs) → list.last (join ","%char (range_text <$> r :: rs)) = Some c →
  isdigit c = true.
Proof.
  revert r. induction rs as [|r' rs IH]; intros r [Hr Hrs]%Forall_cons_1.
  - by apply range_text_last.
  - change (join ","%char (range_text <$> r :: r' :: rs))
      with (range_text r ++ ","%char :: join ","%char (range_text <$> r' :: rs)).
    rewrite last_app_cons, last_cons.
    destruct (list.last (join _ _)) as [d|] eqn:Hd; [intros [= <-]; by eapply IH|].
    apply last_None in Hd. destruct (join_ranges_head r' rs) as (d&u&Hj&_); [|congruence].
    by apply Forall_cons_1 in Hrs as [? _].
Qed.

Lemma join_ranges_chars rs c :
  Forall range_ok rs → c ∈ join ","%char (range_text <$> rs) →
  isdigit c = true ∨ c = ":"%char ∨ c = ","%char.
Proof.
  induction rs as [|r rs IH]; intros Hrs; [by intros ?%not_elem_of_nil|].
  apply Forall_cons_1 in Hrs as [Hr Hrs]. destruct rs as [|r' rs].
  - intros Hc. apply range_text_chars in Hc; naive_solver.
  - change (join ","%char (range_text <$> r :: r' :: rs))
      with (range_text r ++ ","%char :: join ","%char (range_text <$> r' :: rs)).
    intros [Hc|[->|Hc]%elem_of_cons]%elem_of_app; [|auto|by apply IH].
    apply range_text_chars in Hc; naive_solver.
Qed.

(** A definition as text: not empty, without [';'], its two ends not blanks. *)
Lemma entry_text_spec e :
  entry_ok e → entry_text e ≠ [] ∧ (";"%char ∉ entry_text e) ∧ trimWhitespace (entry_text e) = entry_text e.
Proof.
  intros [Hs Hh Hl Hc Hf Hr Hsome]. unfold entry_text.
  destruct e as [file full rs]. cbn [file_pattern is_full_path ranges] in *.
  destruct rs as [|r rs].
  - destruct Hsome as [Hne|]; [|done]. split_and!; [done..|]. apply trim_set_id; [done| |done].
    intros c Hc'. by apply Hh.
  - change (lit ":") with [":"%char]. cbn [app].
    assert (Hr0 := Hr). apply Forall_cons_1 in Hr0 as [Hr0 _].
    assert (file ++ ":"%char :: join ","%char (range_text <$> r :: rs) ≠ []) as Hne by (by destruct file).
    split_and!; [done| |].
    + rewrite not_elem_of_app, not_elem_of_cons. split_and!; [done..|].
      intros Hin. apply join_ranges_chars in Hin as [?|[?|?]]; done.
    + apply trim_set_id; [done| |].
      * destruct file as [|c0 file]; intros c [= <-]; [by apply (bool_decide_unpack _)|]. by apply Hh.
      * intros c. rewrite last_app_cons, last_cons.
        destruct (list.last (join _ _)) as [d|] eqn:Hd.
        -- intros [= <-]. apply digit_not_blank. by eapply join_ranges_last.
        -- intros [= <-]. by apply (bool_decide_unpack _).
Qed.

Lemma parse_all_entries es acc :
  Forall entry_ok es → parse_all (entry_text <$> es) acc = (true, acc ++ es).
Proof.
  intros Hes. revert acc. induction Hes as [|e es He Hes IH]; intros acc; [by rewrite app_nil_r|].
  destruct (entry_text_spec e He) as (Hne&_&Ht). cbn [fmap list_fmap parse_all]. rewrite Ht.
  destruct (entry_text e) as [|c s] eqn:Hte; [done|]. rewrite <-Hte, parse_entry_text by done.
  rewrite IH. by rewrite <-app_assoc.
Qed.

Lemma parse_scope_text es acc :
  Forall entry_ok es → parseDefinitions (scope_text es) acc = (true, acc ++ es).
Proof.
  intros Hes. unfold parseDefinitions, scope_text. rewrite getlines_join.
  - by apply parse_all_entries.
  - rewrite Forall_fmap. eapply list.Forall_impl; [exact Hes|].
    intros e He. by destruct (entry_text_spec e He) as (?&?&_).
Qed.

Lemma parse_all_error ds1 d ds2 acc :
  (parse_all ds1 acc).1 = true → trimWhitespace d ≠ [] → parse_definition (trimWhitespace d) = None →
  (parse_all (ds1 ++ d :: ds2) acc).1 = false.
Proof.
  intros H1 Hd Hp. revert acc H1. induction ds1 as [|d1 ds1 IH]; intros acc H1; cbn [app parse_all] in *.
  - destruct (trimWhitespace d); [done|]. by rewrite Hp.
  - destruct (trimWhitespace d1) as [|c l]; [by apply IH|].
    destruct (parse_definition (c :: l)); [by apply IH|done].
Qed.

(** The file has the location's path, and the line lies in a range. *)
Definition selects (e : ScopeEntry) (file : bytes) (line : Z) : Prop :=
  (file_pattern e = [] ∨
   (if is_full_path e then file = file_pattern e else ∃ dir, file = dir ++ file_pattern e)) ∧
  (ranges e = [] ∨ ∃ r, r ∈ ranges e ∧ r.1 ≤ line < r.2).

Lemma entry_file_matches_spec e file :
  entry_file_matches e file = true ↔
  file_pattern e = [] ∨
  (if is_full_path e then file = file_pattern e else ∃ dir, file = dir ++ file_pattern e).
Proof.
  unfold entry_file_matches. destruct (file_pattern e) as [|c p] eqn:Hp; [naive_solver|].
  destruct (is_full_path e).
  - rewrite bool_decide_eq_true. naive_solver.
  - destruct (Nat.leb_spec (length (c :: p)) (length file)) as [Hle|Hlt].
    + rewrite bool_decide_eq_true. split.
      * intros Hd. right. exists (take (length file - length (c :: p)) file).
        rewrite <-Hd at 2. by rewrite take_drop.
      * intros [|[dir ->]]; [done|]. rewrite length_app, Nat.add_sub. apply drop_app_length.
    + split; [done|]. intros [|[dir ->]]; [done|]. rewrite length_app in Hlt. lia.
Qed.

Lemma matches_any_spec es file line :
  matches_any es file line = true ↔ Exists (λ e, selects e file line) es.
Proof.
  induction es as [|e es IH]; cbn [matches_any]; [split; [done|by inversion 1]|].
  rewrite List.Exists_cons, <-IH. unfold selects at 1. rewrite <-entry_file_matches_spec.
  destruct (entry_file_matches e file); cbn [negb]; [|naive_solver].
  destruct (ranges e) as [|r rs]; [naive_solver|].
  assert (existsb (λ r, (r.1 <=? line) && (line <? r.2)) (r :: rs) = true ↔
          ∃ r0, r0 ∈ r :: rs ∧ r0.1 ≤ line < r0.2) as Hex.
  { rewrite existsb_exists. split; intros (x&Hx&Hb); exists x.
    - rewrite andb_true_iff in Hb. split; [by apply list_elem_of_In|lia].
    - rewrite andb_true_iff. split; [by apply list_elem_of_In|lia]. }
  destruct (existsb _ _).
  - split; [|done]. intros _. left. split; [done|]. right. by apply Hex.
  - split; [auto|]. intros [[_ [?|Hr]]|?]; [done| |done]. by apply Hex in Hr.
Qed.

(** ** Properties *)

(** C23. Definitions written in the documented syntax are read back, and decide
    what is instrumented: with the text of a non-empty list of entries in the
    environment variable, the scope holds exactly these entries, and a source
    location is instrumented iff one of them selects it, by its full path, by
    the end of its path, or for any file, and by its line ranges if it has
    some. *)
Theorem scope_selects es read file line :
  Forall entry_ok es → es ≠ [] →
  let scope := new_InstrumentationScope (Some (scope_text es)) None read in
  scope = Scope es true ∧
  (matches scope file line = true ↔ Exists (λ e, selects e file line) es).
Proof.
  intros Hes Hne scope.
  assert (scope = Scope es true) as Hsc.
  { unfold scope, new_InstrumentationScope.
    destruct (scope_text es) as [|c s] eqn:Ht.
    - exfalso. destruct es as [|e es]; [done|]. apply Forall_cons_1 in Hes as [He _].
      destruct (entry_text_spec e He) as (Hte&_&_). unfold scope_text in Ht. cbn in Ht.
      destruct (entry_text e); [done|]. by destruct (entry_text <$> es).
    - rewrite <-Ht, parse_scope_text by done. cbn [app].
      by rewrite bool_decide_false by done. }
  split; [done|]. rewrite Hsc. unfold matches. cbn [active_ negb entries_]. apply matches_any_spec.
Qed.

Definition example_scope : list ScopeEntry :=
  [Entry (lit "/src/a.cpp") true [(42, 43); (50, 60)]; Entry (lit "b.cpp") false []].

Lemma example_scope_ok : Forall entry_ok example_scope.
Proof.
  repeat constructor; cbn; try lia; try done; try (by apply (bool_decide_unpack _)).
  all: try (intros ? [= <-]; by apply (bool_decide_unpack _)).
  all: cbn in H; injection H as <-; by apply (bool_decide_unpack _).
Qed.

Lemma scope_selects_witness :
  matches (new_InstrumentationScope (Some (lit "/src/a.cpp:42,50:60;b.cpp")) None (λ _, None))
    (lit "/x/b.cpp") 7 = true.
Proof.
  change (lit "/src/a.cpp:42,50:60;b.cpp") with (scope_text example_scope).
  apply (proj2 (scope_selects example_scope (λ _, None) (lit "/x/b.cpp") 7 example_scope_ok
    ltac:(done))).
  apply List.Exists_cons_tl, List.Exists_cons_hd. split; [|by left]. right. by exists (lit "/x/").
Defined.

(** C40. A syntax error in any definition, after whatever correct ones, turns
    filtering off: every location is instrumented.  A range is checked on 64
    bits but stored on 32: [N:M] with [N < M] is accepted for every [M] below
    [2^64], and when the truncated bounds are no longer in order it selects no
    line. *)
Theorem scope_errors_and_truncation ds1 d ds2 read a b file line :
  (Forall (λ d, d ≠ [] ∧ (";"%char ∉ d)) (ds1 ++ d :: ds2) →
   (parse_all ds1 []).1 = true → trimWhitespace d ≠ [] →
   parse_definition (trimWhitespace d) = None →
   matches (new_InstrumentationScope (Some (join ";"%char (ds1 ++ d :: ds2))) None read) file line
     = true) ∧
  (0 ≤ a < b → b < 2 ^ 64 →
   parse_spec (to_dec a ++ lit ":" ++ to_dec b) = Some (u32 a, u32 b) ∧
   (u32 b ≤ u32 a → ¬ selects (Entry [] false [(u32 a, u32 b)]) file line)).
Proof.
  split.
  - intros Hds H1 Hd Hp. unfold new_InstrumentationScope.
    destruct (join ";"%char (ds1 ++ d :: ds2)) as [|c s] eqn:Hj.
    + exfalso. destruct (ds1 ++ d :: ds2) as [|d0 ds] eqn:Hds0; [by destruct ds1|].
      apply Forall_cons_1 in Hds as [[Hne _] _]. destruct d0; [done|]. by destruct ds.
    + rewrite <-Hj. unfold parseDefinitions. rewrite getlines_join by done.
      pose proof (parse_all_error ds1 d ds2 [] H1 Hd Hp) as Herr.
      destruct (parse_all (ds1 ++ d :: ds2) []) as [ok es]. cbn in Herr. by subst ok.
  - intros Hab Hb. split.
    + unfold parse_spec, lit. cbn [String.list_ascii_of_string app].
      rewrite find_char_here by (by apply to_dec_not_in; [lia|]).
      rewrite drop_middle, take_app_length.
      rewrite find_char_none by (by apply to_dec_not_in; [lia|]).
      rewrite !strtoul_to_dec by lia. rewrite bool_decide_true by done. cbn [negb].
      by rewrite (proj2 (Z.leb_gt _ _)) by lia.
    + intros Hle [_ [?|(r&->%list_elem_of_singleton&Hr)]]; [done|]. cbn in Hr. lia.
Qed.

Lemma scope_errors_and_truncation_witness :
  matches (new_InstrumentationScope (Some (lit "a.cpp;b.cpp:1x")) None (λ _, None)) (lit "c.cpp") 3 = true ∧
  ¬ selects (Entry [] false [(1, 1)]) (lit "c.cpp") 1.
Proof.
  split.
  - apply (proj1 (scope_errors_and_truncation [lit "a.cpp"] (lit "b.cpp:1x") [] (λ _, None) 0 0
                    (lit "c.cpp") 3));
      [|by vm_compute|by vm_compute|by vm_compute].
    repeat constructor; try done; by apply (bool_decide_unpack _).
  - apply (proj2 (proj2 (scope_errors_and_truncation [] [] [] (λ _, None) 1 (2 ^ 32 + 1) (lit "c.cpp") 1)
                    ltac:(lia) ltac:(lia))). vm_compute. discriminate.
Defined.
