(* ===== verification/InstrPasses.v ===== *)
(** * The compiler passes

    [src/instrumentation/AMDGCNSubmitAddressMessages.cpp],
    [AMDGCNSubmitBBStart.cpp], [AMDGCNSubmitBBInterval.cpp] and the part of
    [InstrumentationCommon.cpp] they share.  Each pass clones every kernel of a
    module with one more argument and inserts calls into the clone's blocks, of
    functions that it declares where the module has none of the name.

    A module is as much of the IR as the passes look at; what they insert is the
    sequence of calls they make on the IR builder, in place.  LLVM itself (the
    linker, the data layout, [stripPointerCasts], how a name clash is resolved)
    is a parameter. *)
From S2P Require Import Prelude StdString Names InstrScope.

(** ** The IR *)
Inductive type := PointerType (space : Z) | IntegerType (width : Z) | OtherType (n : Z).
#[export] Instance type_eq_dec : EqDecision type.
Proof. solve_decision. Defined.

(** A value: an argument, the result of a call, the result of anything else. *)
Inductive value :=
| VArgument (n : Z) (t : type)
| VCall (callee : option bytes) (operands : list value) (t : type)
| VOther (n : Z) (t : type).

Definition getType (v : value) : type :=
  match v with VArgument _ t | VCall _ _ t | VOther _ t => t end.

Record DIFile := File { getDirectory : bytes; getFilename : bytes }.
Record DILocation := Loc { getFile : option DIFile; getLine : Z; getColumn : Z }.

Inductive opcode :=
| PHINode (n : Z)
| LoadInst (t : type) (pointer : value)
| StoreInst (v pointer : value)
| CallInst (callee : option bytes) (operands : list value) (t : type)
| OtherInst (n : Z)
| Terminator (n : Z).
Record instruction := Instruction { getOpcode : opcode; getDebugLoc : option DILocation }.

(** ** Calls on the builder

    An operand is a value of the kernel, the pointer argument of the clone, a
    constant, or the result of an earlier call: the [n]-th at the same insertion
    point, or the [n]-th at the start of the block. *)
Inductive operand :=
| OValue (v : value)
| OBuffer
| ONull (space : Z)
| OInt (width n : Z)
| OResult (n : nat)
| OStart (n : nat).

Inductive build :=
| CreatePtrToInt (o : operand) (t : type)
| CreateSExt (o : operand) (t : type)
| CreateAdd (a b : operand)
| CreateIntToPtr (o : operand) (t : type)
| CreateBitCast (o : operand) (t : type)
| CreatePointerCast (o : operand) (t : type)
| CreateAlloca (t : type) (count : Z)
| CreateInBoundsGEP (base : operand) (indices : list operand)
| CreateStore (o pointer : operand)
| CreateCall (callee : bytes) (operands : list operand).

Inductive item := Original (i : instruction) | Inserted (b : build).

Record function := Function {
  getName : bytes;
  isIntrinsic : bool;
  isKernel : bool;
  target_cpu : option bytes;
  getArgs : list (bytes * type);
  getBlocks : list (list instruction);
}.

Record module := Module {
  getTargetTriple : bytes;
  target_cpu_flag : option bytes;
  getFunctions : list function;
}.

(** A clone a pass adds to the module. *)
Record clone := Clone {
  cl_name : bytes;
  cl_isKernel : bool;
  cl_target_cpu : option bytes;
  cl_args : list (bytes * type);
  cl_blocks : list (list item);
}.

(** ** [InstrumentationCommon.cpp] *)
Definition getFullPath (DIL : option DILocation) : bytes :=
  match DIL with
  | None => []
  | Some loc =>
      match getFile loc with
      | None => []
      | Some file =>
          match getDirectory file with
          | [] => getFilename file
          | directory => directory ++ lit "/" ++ getFilename file
          end
      end
  end.

Definition validateAMDGPUTarget (M : module) : bool :=
  bool_decide (getTargetTriple M = lit "amdgcn-amd-amdhsa").

Definition collectGPUKernels (M : module) : list function :=
  foldl (λ kernels F, if isIntrinsic F then kernels else if isKernel F then kernels ++ [F] else kernels)
    [] (getFunctions M).

(** The functions an inserted sequence calls. *)
Definition calls_of (items : list item) : list bytes :=
  omap (λ x, match x with Inserted (CreateCall callee _) => Some callee | _ => None end) items.

(** Their declarations: the types of the parameters, the pointer first. *)
Definition callee_type (callee : bytes) : list type :=
  if decide (callee = lit "v_submit_address") then
    [PointerType 0; PointerType 0; IntegerType 64; IntegerType 32; IntegerType 32; IntegerType 8;
     IntegerType 8; IntegerType 16]
  else if decide (callee = lit "s_submit_wave_header") then
    [PointerType 0; IntegerType 64; IntegerType 32; IntegerType 32; IntegerType 32; IntegerType 32]
  else if decide (callee = lit "s_submit_time_interval") then
    [PointerType 0; PointerType 0; IntegerType 64; IntegerType 32; IntegerType 32; IntegerType 32]
  else [].   (* s_clock64 *)
Definition declaration (callee : bytes) : function :=
  Function callee false false None (pair [] <$> callee_type callee) [].

Definition with_declarations (M : module) (callees : list bytes) : module :=
  Module (getTargetTriple M) (target_cpu_flag M) (getFunctions M ++ (declaration <$> callees)).

Section passes.
(** [dladdr] on the plug-in, the file system, the bitcode reader and the linker;
    [link M D]: is there an error, and what has become of [M]. *)
Context (dli_fname : option bytes) (is_directory exists_ : bytes → bool)
  (read_bitcode : bytes → option module) (link : module → module → bool * module).
(** The name a new function gets in a module that has functions of the given names. *)
Context (uniquify : list bytes → bytes → bytes).
Context (getTypeStoreSize : type → Z) (stripPointerCasts : value → value) (hash : bytes → Z).

(** The architecture: the module's flag, or the first function's attribute. *)
Definition module_arch (M : module) : bytes :=
  match target_cpu_flag M with
  | Some arch => arch
  | None =>
      match list_find (λ F, is_Some (target_cpu F)) (getFunctions M) with
      | Some (_, F) => default [] (target_cpu F)
      | None => []
      end
  end.

Definition getBitcodePath (M : module) : bytes :=
  match dli_fname with
  | None => []
  | Some PluginPath =>
      match rfind_char "/"%char PluginPath with
      | None => []
      | Some LastSlash =>
          match take LastSlash PluginPath with
          | [] => []
          | PluginDir =>
              let SiblingBitcode := PluginDir ++ lit "/../bitcode" in
              let BitcodeDir := if is_directory SiblingBitcode then SiblingBitcode else PluginDir in
              let CodeObjectVersion :=
                match find_sub (lit "triton") PluginPath with Some _ => lit "_co5" | None => lit "_co6" end in
              let arch := match module_arch M with [] => lit "unknown" | arch => arch end in
              let CDNAVersion :=
                if decide (arch = lit "gfx940" ∨ arch = lit "gfx941" ∨ arch = lit "gfx942")
                then lit "_cdna3" else lit "_cdna2" in
              BitcodeDir ++ lit "/dh_comms_dev" ++ CDNAVersion ++ CodeObjectVersion ++ lit ".bc"
          end
      end
  end.

(** Was the device library linked, and the module after. *)
Definition loadAndLinkBitcode (M : module) : bool * module :=
  let BitcodePath := getBitcodePath M in
  if negb (exists_ BitcodePath) then (false, M)
  else
    match read_bitcode BitcodePath with
    | None => (false, M)
    | Some DeviceModule => let (error, M) := link M DeviceModule in (negb error, M)
    end.

(** The clone of a kernel in a module that has functions of the given names. *)
Definition cloneKernelWithExtraArg (OrigKernel : function) (names : list bytes) : clone :=
  Clone (uniquify names (AugmentedName (getName OrigKernel))) (isKernel OrigKernel)
    (target_cpu OrigKernel) (getArgs OrigKernel ++ [([], PointerType 0)])
    ((λ BB : list instruction, Original <$> BB) <$> getBlocks OrigKernel).

(** [getOrInsertFunction]: the module, with a declaration if no function of it, nor
    a clone, has the name. *)
Definition getOrInsertFunction (clones : list clone) (M : module) (callee : bytes) : module :=
  if decide (callee ∈ (getName <$> getFunctions M) ++ (cl_name <$> clones)) then M
  else with_declarations M [callee].

(** The loop over the kernels; [visit] instruments the blocks of a clone and says
    whether it changed anything; the functions it calls are declared where the
    module lacks them. *)
Definition visit_kernel (visit : list (list instruction) → res (list (list item) * bool))
    (st : module * list clone * bool) (I : function) : res (module * list clone * bool) :=
  let '(M, clones, ModifiedCodeGen) := st in
  let NF := cloneKernelWithExtraArg I ((getName <$> getFunctions M) ++ (cl_name <$> clones)) in
  let! ' (blocks, modified) := visit (getBlocks I) in
  let clones := clones ++ [Clone (cl_name NF) (cl_isKernel NF) (cl_target_cpu NF) (cl_args NF) blocks] in
  Ok (foldl (getOrInsertFunction clones) M (blocks ≫= calls_of), clones, ModifiedCodeGen || modified).

(** [runOnModule] of a pass: the module (the device library linked into it, and
    functions declared), the clones added to it, the result. *)
Definition runOnModule (visit : list (list instruction) → res (list (list item) * bool)) (M : module)
    : res (module * list clone * bool) :=
  if negb (validateAMDGPUTarget M) then Ok (M, [], false)
  else
    let (linked, M) := loadAndLinkBitcode M in
    if negb linked then Ok (M, [], false)
    else
      res_fold (visit_kernel visit) (M, [], false) (collectGPUKernels M).

(** ** Messages about memory accesses *)
Definition isAMDGCNBufferLoad (callee : option bytes) : bool :=
  match callee with
  | None => false
  | Some Name =>
      starts_with (lit "llvm.amdgcn.raw.ptr.buffer.load") Name ||
      starts_with (lit "llvm.amdgcn.struct.ptr.buffer.load") Name
  end.

Definition isAMDGCNBufferStore (callee : option bytes) : bool :=
  match callee with
  | None => false
  | Some Name =>
      starts_with (lit "llvm.amdgcn.raw.ptr.buffer.store") Name ||
      starts_with (lit "llvm.amdgcn.struct.ptr.buffer.store") Name
  end.

Definition dbg_file (DL : option DILocation) : bytes :=
  match DL with Some _ => getFullPath DL | None => lit "<unknown source file>" end.
Definition dbg_line (DL : option DILocation) : Z := match DL with Some d => getLine d | None => 0 end.
Definition dbg_column (DL : option DILocation) : Z := match DL with Some d => getColumn d | None => 0 end.

(** [Ptr], the type of the pointer argument, is the flat pointer. *)
Definition Ptr_type : type := PointerType 0.

Definition operand_at (operands : list value) (n : nat) : res value :=
  match operands !! n with Some v => Ok v | None => Err FUB end.

(** The call of [v_submit_address], and the counter after. *)
Definition submit_address (addr : operand) (DL : option DILocation) (access space size : Z) : build :=
  CreateCall (lit "v_submit_address")
    [OBuffer; addr; OInt 64 (hash (dbg_file DL)); OInt 32 (dbg_line DL); OInt 32 (dbg_column DL);
     OInt 8 access; OInt 8 (u8 space); OInt 16 (u16 size)].

Definition InjectBufferInstrumentationFunction (operands : list value) (t : type)
    (DL : option DILocation) (LocationCounter : Z) (IsLoad : bool) : res (list build * Z) :=
  let! BufferDesc := operand_at operands (if IsLoad then 0 else 1) in
  let! Offset := operand_at operands (if IsLoad then 1 else 2) in
  let! OrigPtr :=
    match BufferDesc with
    | VCall (Some callee) ops _ =>
        if starts_with (lit "llvm.amdgcn.make.buffer.rsrc") callee
        then let! p := operand_at ops 0 in Ok (OValue p)
        else Ok (ONull 1)
    | _ => Ok (ONull 1)
    end in
  let address :=
    [CreatePtrToInt OrigPtr (IntegerType 64); CreateSExt (OValue Offset) (IntegerType 64);
     CreateAdd (OResult 0) (OResult 1); CreateIntToPtr (OResult 2) (PointerType 0)] in
  let! DataType :=
    if IsLoad then Ok t else let! v := operand_at operands 0 in Ok (getType v) in
  let (cast, Addr64) :=
    if decide (PointerType 0 = Ptr_type) then ([], OResult 3)
    else ([CreateBitCast (OResult 3) Ptr_type], OResult 4) in
  Ok (address ++ cast ++
      [submit_address Addr64 DL (if IsLoad then 1 else 2) 1 (getTypeStoreSize DataType)],
      u32 (LocationCounter + 1)).

(** For a load or a store; anything else is left alone. *)
Definition InjectInstrumentationFunction (op : opcode) (DL : option DILocation) (LocationCounter : Z)
    : res (list build * Z) :=
  match op with
  | LoadInst t Addr =>
      match getType (stripPointerCasts Addr) with
      | PointerType AddrSpace =>
          Ok ([CreatePointerCast (OValue Addr) Ptr_type;
               submit_address (OResult 0) DL 1 AddrSpace (getTypeStoreSize t)],
              u32 (LocationCounter + 1))
      | _ => Err FUB
      end
  | StoreInst v Addr =>
      match getType (stripPointerCasts Addr) with
      | PointerType AddrSpace =>
          Ok ([CreatePointerCast (OValue Addr) Ptr_type;
               submit_address (OResult 0) DL 2 AddrSpace (getTypeStoreSize (getType v))],
              u32 (LocationCounter + 1))
      | _ => Err FUB
      end
  | _ => Ok ([], LocationCounter)
  end.

(** The scope filter on one instruction. *)
Definition in_scope (scope : InstrumentationScope) (DL : option DILocation) : bool :=
  if negb (active_ scope) then true
  else match DL with
       | None => false
       | Some d => matches scope (getFullPath DL) (getLine d)
       end.

(** One instruction of the clone: what is inserted before it, the counter, and
    whether the module was modified. *)
Definition visit_address (scope : InstrumentationScope) (i : instruction) (LocationCounter : Z)
    : res (list build * Z * bool) :=
  let DL := getDebugLoc i in
  if negb (in_scope scope DL) then Ok ([], LocationCounter, false)
  else
    match getOpcode i with
    | LoadInst _ _ | StoreInst _ _ =>
        let! ' (bs, n) := InjectInstrumentationFunction (getOpcode i) DL LocationCounter in
        Ok (bs, n, true)
    | CallInst callee operands t =>
        if isAMDGCNBufferLoad callee then
          let! ' (bs, n) := InjectBufferInstrumentationFunction operands t DL LocationCounter true in
          Ok (bs, n, true)
        else if isAMDGCNBufferStore callee then
          let! ' (bs, n) := InjectBufferInstrumentationFunction operands t DL LocationCounter false in
          Ok (bs, n, true)
        else Ok ([], LocationCounter, false)
    | _ => Ok ([], LocationCounter, false)
    end.

Fixpoint address_block (scope : InstrumentationScope) (BB : list instruction) (n : Z)
    : res (list item * Z * bool) :=
  match BB with
  | [] => Ok ([], n, false)
  | J :: BB' =>
      let! ' (bs, n, here) := visit_address scope J n in
      let! ' (items, n, later) := address_block scope BB' n in
      Ok ((Inserted <$> bs) ++ Original J :: items, n, here || later)
  end.

Fixpoint address_blocks (scope : InstrumentationScope) (NF : list (list instruction)) (n : Z)
    : res (list (list item) * bool) :=
  match NF with
  | [] => Ok ([], false)
  | BB :: NF' =>
      let! ' (items, n, here) := address_block scope BB n in
      let! ' (rest, later) := address_blocks scope NF' n in
      Ok (items :: rest, here || later)
  end.

(** [AMDGCNSubmitAddressMessage::runOnModule] *)
Definition AMDGCNSubmitAddressMessage (scope : InstrumentationScope) : module → res (module * list clone * bool) :=
  runOnModule (λ NF, address_blocks scope NF 0).

(** ** A message at the start of a block *)
Definition isPHI (i : instruction) : bool := match getOpcode i with PHINode _ => true | _ => false end.

Definition basic_block_start_type : Z := 2.

Definition InjectBlockStart (DL : option DILocation) (LocationCounter : Z) : list build * Z :=
  ([CreateCall (lit "s_submit_wave_header")
      [OBuffer; OInt 64 (hash (dbg_file DL)); OInt 32 (dbg_line DL); OInt 32 (dbg_column DL);
       OInt 32 basic_block_start_type; OInt 32 LocationCounter]],
   u32 (LocationCounter + 1)).

(** Past the PHI nodes. *)
Fixpoint start_block (BB : list instruction) (n : Z) : list item * Z * bool :=
  match BB with
  | [] => ([], n, false)
  | J :: BB' =>
      if isPHI J then
        let '(items, n, modified) := start_block BB' n in (Original J :: items, n, modified)
      else
        let (bs, n) := InjectBlockStart (getDebugLoc J) n in
        ((Inserted <$> bs) ++ (Original <$> BB), n, true)
  end.

Fixpoint start_blocks (NF : list (list instruction)) (n : Z) : list (list item) * bool :=
  match NF with
  | [] => ([], false)
  | BB :: NF' =>
      let '(items, n, here) := start_block BB n in
      let (rest, later) := start_blocks NF' n in
      (items :: rest, here || later)
  end.

Definition AMDGCNSubmitBBStart : module → res (module * list clone * bool) :=
  runOnModule (λ NF, Ok (start_blocks NF 0)).

(** ** The time spent in a block *)
Definition start_clock : list build :=
  [CreateCall (lit "s_clock64") []; CreateAlloca (IntegerType 64) 2;
   CreateInBoundsGEP (OResult 1) [OInt 32 0; OInt 32 0]; CreateStore (OResult 0) (OResult 2)].

(** The source position of a block: that of its first instruction. *)
Definition block_position (firstInst : option instruction) : Z * Z * Z :=
  match firstInst with
  | Some J =>
      match getDebugLoc J with
      | Some DL => (hash (getFullPath (Some DL)), getLine DL, getColumn DL)
      | None => (0, 16777215, 16777215)
      end
  | None => (0, 16777215, 16777215)
  end.

Definition end_clock (position : Z * Z * Z) (bbIndex : Z) : list build :=
  let '(fileHashConst, lineConst, columnConst) := position in
  [CreateCall (lit "s_clock64") []; CreateInBoundsGEP (OStart 1) [OInt 32 0; OInt 32 1];
   CreateStore (OResult 0) (OResult 1); CreatePointerCast (OStart 1) (PointerType 0);
   CreateCall (lit "s_submit_time_interval")
     [OBuffer; OResult 3; OInt 64 fileHashConst; OInt 32 lineConst; OInt 32 columnConst; OInt 32 bbIndex]].

(** One block; without an instruction to insert before, or without a terminator,
    the builder is given a null pointer. *)
Definition interval_block (BB : list instruction) (bbIndex : Z) : res (list item) :=
  let firstInst := list_find (λ J, isPHI J = false) BB in
  match BB, list.last BB with
  | _ :: _, Some (Instruction (Terminator _) _) =>
      let start := match firstInst with Some (k, _) => k | None => 0%nat end in
      let stop := pred (length BB) in
      Ok ((Original <$> take start BB) ++ (Inserted <$> start_clock) ++
          (Original <$> take (stop - start) (drop start BB)) ++
          (Inserted <$> end_clock (block_position (snd <$> firstInst)) bbIndex) ++
          (Original <$> drop stop BB))
  | _, _ => Err FUB
  end.

Fixpoint interval_blocks (NF : list (list instruction)) (bbIndex : Z) : res (list (list item) * bool) :=
  match NF with
  | [] => Ok ([], false)
  | BB :: NF' =>
      let! items := interval_block BB bbIndex in
      let! ' (rest, _) := interval_blocks NF' (u32 (bbIndex + 1)) in
      Ok (items :: rest, true)
  end.

Definition AMDGCNSubmitBBInterval : module → res (module * list clone * bool) :=
  runOnModule (λ NF, interval_blocks NF 0).
End passes.

(** ** What is expected of the passes *)

(** The instructions of a clone's block without what was inserted. *)
Definition erase (items : list item) : list instruction :=
  omap (λ x, match x with Original i => Some i | Inserted _ => None end) items.

Inductive block_with (probe : instruction → list build → Prop) : list instruction → list item → Prop :=
| bw_nil : block_with probe [] []
| bw_cons I bs BB items :
    probe I bs → block_with probe BB items →
    block_with probe (I :: BB) ((Inserted <$> bs) ++ Original I :: items).

Lemma erase_app a b : erase (a ++ b) = erase a ++ erase b.
Proof. apply omap_app. Qed.
Lemma erase_inserted bs : erase (Inserted <$> bs) = [].
Proof. by induction bs. Qed.
Lemma erase_original BB : erase (Original <$> BB) = BB.
Proof. unfold erase. induction BB as [|I BB IH]; [done|]. cbn. f_equal. exact IH. Qed.

Lemma block_with_erase probe BB items : block_with probe BB items → erase items = BB.
Proof.
  induction 1 as [|I bs BB items _ _ IH]; [done|]. rewrite erase_app, erase_inserted. cbn. by f_equal.
Qed.

Lemma block_with_none probe BB : (∀ I, I ∈ BB → probe I []) → block_with probe BB (Original <$> BB).
Proof.
  induction BB as [|I BB IH]; intros Hp; [constructor|]. apply (bw_cons _ I []); [apply Hp; by left|].
  apply IH. intros J HJ. apply Hp. by right.
Qed.

(** A memory access: its kind (1 a load, 2 a store), the address space and the
    type of the data. *)
Inductive accesses (strip : value → value) (I : instruction) : Z → Z → type → Prop :=
| acc_load t p s :
    getOpcode I = LoadInst t p → getType (strip p) = PointerType s → accesses strip I 1 s t
| acc_store v p s :
    getOpcode I = StoreInst v p → getType (strip p) = PointerType s → accesses strip I 2 s (getType v)
| acc_buffer_load callee ops t :
    getOpcode I = CallInst callee ops t → isAMDGCNBufferLoad callee = true → accesses strip I 1 1 t
| acc_buffer_store callee v ops t :
    getOpcode I = CallInst callee (v :: ops) t → isAMDGCNBufferStore callee = true →
    accesses strip I 2 1 (getType v).

(** What LLVM's verifier guarantees: loads and stores go through pointers, and the
    intrinsics have their operands. *)
Definition well_formed (strip : value → value) (I : instruction) : Prop :=
  match getOpcode I with
  | LoadInst _ p | StoreInst _ p => ∃ s, getType (strip p) = PointerType s
  | CallInst callee ops _ =>
      (isAMDGCNBufferLoad callee = true → ∃ desc offset ops', ops = desc :: offset :: ops' ∧
         ∀ c l t, desc = VCall (Some c) l t → starts_with (lit "llvm.amdgcn.make.buffer.rsrc") c = true → l ≠ []) ∧
      (isAMDGCNBufferStore callee = true → ∃ v desc offset ops', ops = v :: desc :: offset :: ops' ∧
         ∀ c l t, desc = VCall (Some c) l t → starts_with (lit "llvm.amdgcn.make.buffer.rsrc") c = true → l ≠ [])
  | _ => True
  end.

Definition in_scope_P (scope : InstrumentationScope) (DL : option DILocation) : Prop :=
  active_ scope = false ∨ ∃ d, DL = Some d ∧ matches scope (getFullPath DL) (getLine d) = true.

Lemma in_scope_spec scope DL : in_scope scope DL = true ↔ in_scope_P scope DL.
Proof.
  unfold in_scope, in_scope_P. destruct (active_ scope); cbn; [|split; [by left|done]].
  destruct DL as [d|]; split; try done.
  - intros Hm. right. by exists d.
  - intros [?|(d'&[= <-]&Hm)]; done.
  - by intros [?|(?&?&?)].
Qed.
#[export] Instance in_scope_P_dec scope DL : Decision (in_scope_P scope DL).
Proof. destruct (in_scope scope DL) eqn:H; [left|right]; rewrite <-in_scope_spec; congruence. Defined.

Lemma starts_with_comparable a b s :
  starts_with a s = true → starts_with b s = true → starts_with a b = true ∨ starts_with b a = true.
Proof.
  revert b s. induction a as [|x a IH]; intros b s; [by left|].
  destruct s as [|y s]; [done|]. destruct b as [|z b]; [by right|]. cbn. unfold aeqb.
  intros [->%bool_decide_eq_true Ha]%andb_true_iff [->%bool_decide_eq_true Hb]%andb_true_iff.
  rewrite bool_decide_true by done. by apply IH with s.
Qed.

Lemma buffer_load_not_store callee : isAMDGCNBufferLoad callee = true → isAMDGCNBufferStore callee = false.
Proof.
  destruct callee as [name|]; [|done]. cbn [isAMDGCNBufferLoad isAMDGCNBufferStore].
  intros Hl. apply not_true_is_false. intros Hs.
  apply orb_true_iff in Hl as [Hl|Hl], Hs as [Hs|Hs];
    destruct (starts_with_comparable _ _ _ Hl Hs) as [H|H]; vm_compute in H; discriminate.
Qed.

Section address.
Context (getTypeStoreSize : type → Z) (stripPointerCasts : value → value) (hash : bytes → Z).

Definition is_call (b : build) : Prop := match b with CreateCall _ _ => True | _ => False end.

(** What has to be right before an instruction. *)
Definition probed (scope : InstrumentationScope) (I : instruction) (bs : list build) : Prop :=
  let DL := getDebugLoc I in
  (∀ kind space t, in_scope_P scope DL → accesses stripPointerCasts I kind space t →
     ∃ computed addr, bs = computed ++ [CreateCall (lit "v_submit_address")
         [OBuffer; addr; OInt 64 (hash (dbg_file DL)); OInt 32 (dbg_line DL); OInt 32 (dbg_column DL);
          OInt 8 kind; OInt 8 (space `mod` 2 ^ 8); OInt 16 (getTypeStoreSize t `mod` 2 ^ 16)]] ∧
       Forall (λ b, ¬ is_call b) computed) ∧
  ((¬ in_scope_P scope DL ∨ ∀ kind space t, ¬ accesses stripPointerCasts I kind space t) → bs = []).


Lemma Inject_buffer (IsLoad : bool) ops t DL n d desc offset :
  (if IsLoad then ops !! 0%nat = Some desc ∧ ops !! 1%nat = Some offset ∧ d = t
   else ∃ v, ops !! 0%nat = Some v ∧ ops !! 1%nat = Some desc ∧ ops !! 2%nat = Some offset ∧ d = getType v) →
  (∀ c l t', desc = VCall (Some c) l t' → starts_with (lit "llvm.amdgcn.make.buffer.rsrc") c = true → l ≠ []) →
  ∃ computed addr,
    InjectBufferInstrumentationFunction getTypeStoreSize hash ops t DL n IsLoad =
      Ok (computed ++ [submit_address hash addr DL (if IsLoad then 1 else 2) 1 (getTypeStoreSize d)], u32 (n + 1)) ∧
    Forall (λ b, ¬ is_call b) computed.
Proof.
  intros Hops Hdesc. unfold InjectBufferInstrumentationFunction, operand_at.
  assert (∃ p, match desc with
    | VCall (Some callee) ops0 _ =>
        if starts_with (lit "llvm.amdgcn.make.buffer.rsrc") callee
        then let! p := (match ops0 !! 0%nat with Some v => Ok v | None => Err FUB end) in Ok (OValue p)
        else Ok (ONull 1)
    | _ => Ok (ONull 1)
    end = Ok p) as [p Hp].
  { destruct desc as [|[c|] l t'|]; try by eexists. destruct (starts_with _ c) eqn:Hc; [|by eexists].
    destruct l as [|v l]; [by destruct (Hdesc c [] t' eq_refl Hc)|]. by eexists. }
  exists [CreatePtrToInt p (IntegerType 64); CreateSExt (OValue offset) (IntegerType 64);
     CreateAdd (OResult 0) (OResult 1); CreateIntToPtr (OResult 2) (PointerType 0)], (OResult 3).
  split; [|repeat constructor; by intros []].
  destruct IsLoad.
  - destruct Hops as (->&->&->). cbn [res_bind]. rewrite Hp. done.
  - destruct Hops as (v&Hv&->&->&->). cbn [res_bind]. rewrite Hp. cbn [res_bind]. by rewrite Hv.
Qed.

Abbreviation visited scope I r :=
  (∃ bs (n' : Z) (m : bool), r = Ok (bs, n', m) ∧ probed scope I bs ∧ (m = true ↔ bs ≠ [])).

Lemma visited_hit scope I computed addr kind space t n :
  in_scope_P scope (getDebugLoc I) →
  (∀ k s t', accesses stripPointerCasts I k s t' → k = kind ∧ s = space ∧ t' = t) →
  accesses stripPointerCasts I kind space t → Forall (λ b, ¬ is_call b) computed →
  visited scope I
    (Ok (computed ++ [submit_address hash addr (getDebugLoc I) kind space (getTypeStoreSize t)], n, true)).
Proof.
  intros Hsc Huniq Hacc Hc. eexists _, _, _. split; [done|]. split; [split|].
  - intros ??? _ (->&->&->)%Huniq. by exists computed, addr.
  - intros [?|Hno]; [done|]. by destruct (Hno _ _ _ Hacc).
  - split; [|done]. intros _. by destruct computed.
Qed.

Lemma visited_miss scope I n :
  (¬ in_scope_P scope (getDebugLoc I) ∨ ∀ k s t, ¬ accesses stripPointerCasts I k s t) →
  visited scope I (Ok ([], n, false)).
Proof.
  intros Hno. eexists _, _, _. split; [done|]. split; [split; [|done]|done].
  intros k s t Hsc Hacc. destruct Hno as [?|Hno]; [done|by destruct (Hno k s t)].
Qed.

Lemma visit_address_spec scope I n :
  well_formed stripPointerCasts I →
  visited scope I (visit_address getTypeStoreSize stripPointerCasts hash scope I n).
Proof.
  intros Hwf. unfold visit_address.
  destruct (in_scope scope (getDebugLoc I)) eqn:Hsc; cbn [negb].
  2: { apply visited_miss. left. intros H%in_scope_spec. congruence. }
  apply in_scope_spec in Hsc. unfold well_formed in Hwf.
  destruct (getOpcode I) as [k|t p|v p|callee ops t|k|k] eqn:Hop;
    try (apply visited_miss; right; intros ??? []; congruence).
  - destruct Hwf as [s Hs]. cbn. rewrite Hs. cbn.
    apply (visited_hit _ _ [_]); [done| |by econstructor|by repeat constructor; intros []].
    intros ??? []; simplify_eq; try congruence. split_and!; congruence.
  - destruct Hwf as [s Hs]. cbn. rewrite Hs. cbn.
    apply (visited_hit _ _ [_]); [done| |by econstructor|by repeat constructor; intros []].
    intros ??? []; simplify_eq; try congruence. split_and!; congruence.
  - destruct Hwf as [Hl Hst]. destruct (isAMDGCNBufferLoad callee) eqn:Hld.
    + destruct (Hl eq_refl) as (desc&offset&ops'&->&Hd).
      destruct (Inject_buffer true (desc :: offset :: ops') t (getDebugLoc I) n t desc offset) as (c&a&->&Hc); [done..|].
      cbn. apply visited_hit; [done| |by econstructor|done]. pose proof (buffer_load_not_store _ Hld).
      intros ??? []; simplify_eq; try congruence; split_and!; congruence.
    + destruct (isAMDGCNBufferStore callee) eqn:Hso.
      * destruct (Hst eq_refl) as (v&desc&offset&ops'&->&Hd).
        destruct (Inject_buffer false (v :: desc :: offset :: ops') t (getDebugLoc I) n (getType v) desc offset)
          as (c&a&->&Hc); [by exists v|done|].
        cbn. apply visited_hit; [done| |by econstructor|done]. intros ??? []; simplify_eq; try congruence; split_and!; congruence.
      * apply visited_miss. right. intros ??? []; simplify_eq; congruence.
Qed.

(** A result that says whether anything was inserted. *)
Definition reports {A} (m : bool) (after before : A) : Prop :=
  (m = false → after = before) ∧ (m = true → after ≠ before).

Lemma address_block_spec scope BB n :
  Forall (well_formed stripPointerCasts) BB →
  ∃ items n' m, address_block getTypeStoreSize stripPointerCasts hash scope BB n = Ok (items, n', m) ∧
    block_with (probed scope) BB items ∧ reports m items (Original <$> BB).
Proof.
  intros Hwf. revert n. induction Hwf as [|I BB HI _ IH]; intros n; cbn [address_block].
  { exists [], n, false. split; [done|]. split; [constructor|by split]. }
  destruct (visit_address_spec scope I n HI) as (bs&n1&m1&->&Hp&Hm1). cbn [res_bind].
  destruct (IH n1) as (items&n2&m2&->&Hb&Hf&Ht). cbn [res_bind].
  eexists _, _, _. split; [done|]. split; [by constructor|].
  destruct bs as [|b bs]; destruct m1; cbn [orb].
  - by destruct (proj1 Hm1 eq_refl).
  - split; cbn; [by intros ->%Hf|]. intros H [= Heq]. by apply Ht.
  - split; [done|]. by intros _ [= ].
  - assert (false = true) by (by apply Hm1). done.
Qed.

Lemma address_blocks_spec scope NF n :
  Forall (Forall (well_formed stripPointerCasts)) NF →
  ∃ blocks m, address_blocks getTypeStoreSize stripPointerCasts hash scope NF n = Ok (blocks, m) ∧
    Forall2 (block_with (probed scope)) NF blocks ∧
    reports m blocks ((λ BB : list instruction, Original <$> BB) <$> NF).
Proof.
  intros Hwf. revert n. induction Hwf as [|BB NF HB _ IH]; intros n; cbn [address_blocks].
  { exists [], false. split; [done|]. split; [constructor|]. by split. }
  destruct (address_block_spec scope BB n HB) as (items&n1&m1&->&Hp&Hf1&Ht1). cbn [res_bind].
  destruct (IH n1) as (blocks&m2&->&Hb&Hf2&Ht2). cbn [res_bind].
  eexists _, _. split; [done|]. split; [by constructor|]. cbn [fmap list_fmap]. split.
  - intros [->%Hf1 ->%Hf2]%orb_false_iff. done.
  - intros Hm [= H1 H2]. apply orb_true_iff in Hm as [Hm|Hm]; [by apply Ht1|by apply Ht2].
Qed.
End address.

(** ** The loop over the kernels *)
Section kernels.
Context (dli_fname : option bytes) (is_directory exists_ : bytes → bool)
  (read_bitcode : bytes → option module) (link : module → module → bool * module).
Context (uniquify : list bytes → bytes → bytes).

(** A clone apart from its name and its blocks. *)
Definition clone_of (K : function) (C : clone) : Prop :=
  cl_args C = getArgs K ++ [([], PointerType 0)] ∧ cl_isKernel C = isKernel K ∧
  cl_target_cpu C = target_cpu K.

(** A function is called in a clone. *)
Definition called_in (clones : list clone) (callee : bytes) : Prop :=
  ∃ C, C ∈ clones ∧ callee ∈ (cl_blocks C ≫= calls_of).

(** What a pass declares: each function once, that the module lacks and a clone
    calls; then nothing called is missing. *)
Record declares_called (M : module) (clones : list clone) (ds : list bytes) : Prop := {
  dc_once : NoDup ds;
  dc_needed callee : callee ∈ ds → callee ∉ getName <$> getFunctions M ∧ called_in clones callee;
  dc_there callee : called_in clones callee →
    callee ∈ (getName <$> getFunctions M) ++ ds ++ (cl_name <$> clones);
}.

Lemma with_declarations_nil M : with_declarations M [] = M.
Proof. unfold with_declarations. cbn. rewrite app_nil_r. by destruct M. Qed.
Lemma with_declarations_app M ds ds' :
  with_declarations (with_declarations M ds) ds' = with_declarations M (ds ++ ds').
Proof. unfold with_declarations. cbn. by rewrite fmap_app, (assoc_L (++)). Qed.
Lemma declared_names M ds :
  getName <$> getFunctions (with_declarations M ds) = (getName <$> getFunctions M) ++ ds.
Proof.
  cbn. rewrite fmap_app. f_equal. induction ds as [|d ds IH]; [done|]. cbn. by f_equal.
Qed.

Lemma getOrInsertFunction_all M clones callees ds :
  NoDup ds → (∀ c, c ∈ ds → c ∉ getName <$> getFunctions M) →
  ∃ ds', foldl (getOrInsertFunction clones) (with_declarations M ds) callees = with_declarations M ds' ∧
    NoDup ds' ∧ (∀ c, c ∈ ds' → c ∉ getName <$> getFunctions M ∧ (c ∈ ds ∨ c ∈ callees)) ∧
    (∀ c, c ∈ ds → c ∈ ds') ∧
    (∀ c, c ∈ callees → c ∈ (getName <$> getFunctions M) ++ ds' ++ (cl_name <$> clones)).
Proof.
  revert ds. induction callees as [|c0 callees IH]; intros ds Hnd Hnew; cbn [foldl].
  { exists ds. split_and!; [done|done|naive_solver|done|by intros c ?%elem_of_nil]. }
  unfold getOrInsertFunction at 2. rewrite declared_names. case_decide as Hin.
  - destruct (IH ds Hnd Hnew) as (ds'&->&H1&H2&H3&H4). exists ds'. split_and!; [done|done| |done|].
    + intros c [? [?|?]]%H2; (split; [done|]); [by left|right; by right].
    + intros c [->|Hc]%elem_of_cons; [|by apply H4]. set_solver.
  - rewrite with_declarations_app. destruct (IH (ds ++ [c0])) as (ds'&->&H1&H2&H3&H4).
    + apply list.NoDup_app. split_and!; [done|set_solver|apply NoDup_singleton].
    + intros c Hc. set_solver.
    + exists ds'. split_and!; [done|done| |set_solver|].
      * intros c [? Hc]%H2. split; [done|]. set_solver.
      * intros c [->|Hc]%elem_of_cons; [|by apply H4]. specialize (H3 c0). set_solver.
Qed.

Lemma visit_kernels_spec visit (P : list (list instruction) → list (list item) → bool → Prop) M Ks cs0 ds0 m0 :
  declares_called M cs0 ds0 →
  (∀ K, K ∈ Ks → ∃ blocks m, visit (getBlocks K) = Ok (blocks, m) ∧ P (getBlocks K) blocks m) →
  ∃ (ds : list bytes) (rs : list (clone * bool)),
    res_fold (visit_kernel uniquify visit) (with_declarations M ds0, cs0, m0) Ks =
      Ok (with_declarations M ds, cs0 ++ rs.*1, m0 || existsb id rs.*2) ∧
    declares_called M (cs0 ++ rs.*1) ds ∧
    Forall2 (λ K r, clone_of K r.1 ∧ P (getBlocks K) (cl_blocks r.1) r.2) Ks rs.
Proof.
  revert cs0 ds0 m0. induction Ks as [|K Ks IH]; intros cs0 ds0 m0 [Ho Hn Ht] Hv.
  { exists ds0, []. cbn. by rewrite app_nil_r, orb_false_r. }
  destruct (Hv K) as (blocks&m&Hvis&HP); [by left|].
  cbn [res_fold]. unfold visit_kernel at 1. rewrite Hvis. cbn [res_bind].
  set (C := Clone _ _ _ _ blocks).
  destruct (getOrInsertFunction_all M (cs0 ++ [C]) (blocks ≫= calls_of) ds0) as (ds1&->&H1&H2&H3&H4);
    [done|by intros c [? _]%Hn|].
  destruct (IH (cs0 ++ [C]) ds1 (m0 || m)) as (ds&rs&Hrun&Hd&Hall).
  { split; [done| |].
    - intros c [? [(_&C'&?&?)%Hn|Hc]]%H2; (split; [done|]);
        [exists C'; split; [set_solver|done]|exists C; split; [set_solver|done]].
    - intros c (C'&[HC'| ->%list_elem_of_singleton]%elem_of_app&Hc); [|by apply H4].
      assert (called_in cs0 c) as Hc'%Ht by by exists C'. rewrite fmap_app. set_solver. }
  { intros K' HK'. apply Hv. by right. }
  exists ds, ((C, m) :: rs). cbn [fmap list_fmap fst snd existsb].
  rewrite <-(assoc_L (++)) in Hrun, Hd. rewrite <-orb_assoc in Hrun.
  split_and!; [exact Hrun|exact Hd|by constructor].
Qed.

Lemma collectGPUKernels_filter M :
  collectGPUKernels M = filter (λ F, isIntrinsic F = false ∧ isKernel F = true) (getFunctions M).
Proof.
  unfold collectGPUKernels.
  assert (∀ l acc, foldl (λ kernels F, if isIntrinsic F then kernels else if isKernel F then kernels ++ [F] else kernels)
    acc l = acc ++ filter (λ F, isIntrinsic F = false ∧ isKernel F = true) l) as H.
  { induction l as [|F l IH]; intros acc; cbn [foldl]; [by rewrite app_nil_r|]. rewrite IH, filter_cons.
    destruct (isIntrinsic F), (isKernel F); case_decide; try intuition congruence.
    by rewrite <-(assoc_L (++)). }
  by rewrite H.
Qed.

Abbreviation run_pass := (runOnModule dli_fname is_directory exists_ read_bitcode link uniquify).
Abbreviation linked := (loadAndLinkBitcode dli_fname is_directory exists_ read_bitcode link).

Lemma runOnModule_spec visit (P : list (list instruction) → list (list item) → bool → Prop) M :
  (∀ K, K ∈ collectGPUKernels (linked M).2 →
     ∃ blocks m, visit (getBlocks K) = Ok (blocks, m) ∧ P (getBlocks K) blocks m) →
  (validateAMDGPUTarget M = false → run_pass visit M = Ok (M, [], false)) ∧
  (validateAMDGPUTarget M = true → (linked M).1 = false → run_pass visit M = Ok ((linked M).2, [], false)) ∧
  (validateAMDGPUTarget M = true → (linked M).1 = true →
     ∃ (ds : list bytes) (rs : list (clone * bool)),
       run_pass visit M = Ok (with_declarations (linked M).2 ds, rs.*1, existsb id rs.*2) ∧
       declares_called (linked M).2 rs.*1 ds ∧
       Forall2 (λ K r, clone_of K r.1 ∧ P (getBlocks K) (cl_blocks r.1) r.2) (collectGPUKernels (linked M).2) rs).
Proof.
  intros Hv. unfold runOnModule. destruct (loadAndLinkBitcode _ _ _ _ _ M) as [l M'] eqn:Hl. cbn [fst snd] in *.
  split_and!; intros ->; [done|intros ->; done|intros ->]. cbn [negb].
  destruct (visit_kernels_spec visit P M' (collectGPUKernels M') [] [] false) as (ds&rs&Hrun&Hd&Hall);
    [|done|].
  { split; [apply NoDup_nil_2|by intros c ?%elem_of_nil|]. by intros c (C&?%elem_of_nil&_). }
  rewrite with_declarations_nil in Hrun. by exists ds, rs.
Qed.
End kernels.

(** ** Blocks *)
Section blocks.
Context (hash : bytes → Z).

(** A block as LLVM has it: PHI nodes first, a terminator last. *)
Definition block_ok (BB : list instruction) : Prop :=
  ∃ body k d, BB = body ++ [Instruction (Terminator k) d].

(** The first instruction that is not a PHI node splits the block. *)
Lemma block_split BB :
  block_ok BB → ∃ phis J rest, BB = phis ++ J :: rest ∧ Forall (λ i, isPHI i = true) phis ∧ isPHI J = false.
Proof.
  intros (body&k&d&->). induction body as [|I body IH].
  - eexists [], _, []. done.
  - destruct (isPHI I) eqn:HI; [|by exists [], I, (body ++ [Instruction (Terminator k) d])].
    destruct IH as (phis&J&rest&Heq&Hp&HJ). exists (I :: phis), J, rest. cbn. rewrite Heq. split_and!; [done|by constructor|done].
Qed.

Definition start_shape (k : Z) (BB : list instruction) (items : list item) : Prop :=
  ∃ phis J rest, BB = phis ++ J :: rest ∧ Forall (λ i, isPHI i = true) phis ∧ isPHI J = false ∧
    let DL := getDebugLoc J in
    items = (Original <$> phis) ++
      Inserted (CreateCall (lit "s_submit_wave_header")
        [OBuffer; OInt 64 (hash (dbg_file DL)); OInt 32 (dbg_line DL); OInt 32 (dbg_column DL);
         OInt 32 2; OInt 32 k]) :: (Original <$> J :: rest).

Definition interval_shape (k : Z) (BB : list instruction) (items : list item) : Prop :=
  ∃ phis J rest T, BB = phis ++ J :: rest ∧ Forall (λ i, isPHI i = true) phis ∧ isPHI J = false ∧
    list.last BB = Some T ∧
    items = (Original <$> phis) ++ (Inserted <$> start_clock) ++ (Original <$> removelast (J :: rest)) ++
      (Inserted <$> end_clock (block_position hash (Some J)) k) ++ [Original T].

(** The blocks of a clone, each with its place in the function. *)
Definition numbered (shape : Z → list instruction → list item → Prop) (NF : list (list instruction))
    (blocks : list (list item)) : Prop :=
  length blocks = length NF ∧
  ∀ (k : nat) BB, NF !! k = Some BB →
    ∃ items, blocks !! k = Some items ∧ erase items = BB ∧ shape (Z.of_nat k) BB items.

Lemma start_block_shape BB n :
  block_ok BB → ∃ items, start_block hash BB n = (items, u32 (n + 1), true) ∧ start_shape n BB items.
Proof.
  intros (phis&J&rest&->&Hp&HJ)%block_split. revert Hp. induction phis as [|I phis IH]; intros Hp.
  - eexists. cbn [app start_block]. rewrite HJ. split; [done|]. by exists [], J, rest.
  - apply list.Forall_cons in Hp as [HI Hp]. destruct (IH Hp) as (items&Hrun&phis'&J'&rest'&Heq&Hp'&HJ'&Hit).
    exists (Original I :: items). cbn [app start_block]. rewrite HI, Hrun. split; [done|].
    exists (I :: phis'), J', rest'. rewrite Heq. split_and!; [done|by constructor|done|by rewrite Hit].
Qed.

Lemma start_shape_erase k BB items : start_shape k BB items → erase items = BB.
Proof.
  intros (phis&J&rest&->&_&_&->). rewrite erase_app, erase_original. cbn. f_equal. f_equal. apply erase_original.
Qed.

Lemma interval_block_shape BB n :
  block_ok BB → ∃ items, interval_block hash BB n = Ok items ∧ interval_shape n BB items.
Proof.
  intros Hok. destruct (block_split BB Hok) as (phis&J&rest&->&Hp&HJ). destruct Hok as (body&k&d&Heq).
  unfold interval_block.
  assert (list_find (λ I, isPHI I = false) (phis ++ J :: rest) = Some (length phis, J)) as Hfind.
  { apply list_find_Some. split_and!; [apply list_lookup_middle; lia|done|].
    intros i y Hy Hi. rewrite lookup_app_l in Hy by done.
    eapply list.Forall_lookup_1 in Hp; [|done]. congruence. }
  assert (list.last (phis ++ J :: rest) = Some (Instruction (Terminator k) d)) as Hlast by (rewrite Heq; apply last_snoc).
  rewrite Hfind.
  assert (phis ++ J :: rest ≠ []) as Hne by (by destruct phis).
  destruct (phis ++ J :: rest) as [|x xs] eqn:HBB; [done|]. rewrite Hlast, <-HBB. cbn [fmap option_fmap option_map snd].
  eexists. split; [done|]. exists phis, J, rest, (Instruction (Terminator k) d). split_and!; [done..|by rewrite HBB|].
  rewrite length_app, take_app_length, drop_app_length. cbn [length].
  replace (pred (length phis + S (length rest)) - length phis)%nat with (length rest) by lia.
  assert (∃ l T, J :: rest = l ++ [T] ∧ length l = length rest ∧ T = Instruction (Terminator k) d) as (l&T&Hl&Hlen&HT).
  { destruct (list.last (J :: rest)) as [T|] eqn:HT; [|by apply last_None in HT].
    apply last_Some in HT as [l Hl]. exists l, T. split_and!; [done| |].
    - apply (f_equal length) in Hl. rewrite length_app in Hl. cbn in Hl. lia.
    - rewrite <-HBB, Hl, (assoc_L (++)), last_snoc in Hlast. congruence. }
  rewrite Hl, removelast_last. rewrite <-Hlen at 1. rewrite take_app_length.
  rewrite drop_app, drop_ge by (rewrite <-Hlen; lia).
  replace (_ - _)%nat with (length l) by lia. rewrite drop_app_length. by rewrite HT.
Qed.

Lemma interval_shape_erase k BB items : interval_shape k BB items → erase items = BB.
Proof.
  intros (phis&J&rest&T&->&_&_&HT&->). rewrite !erase_app, !erase_inserted, !erase_original.
  cbn [app]. f_equal. rewrite last_app_cons in HT. apply last_Some in HT as [l Hl].
  by rewrite Hl, removelast_last.
Qed.
End blocks.

Section numbering.
Context (hash : bytes → Z).

Lemma numbered_cons shape BB NF items blocks (n : nat) :
  (erase items = BB ∧ shape (Z.of_nat n) BB items) →
  (length blocks = length NF ∧ ∀ (k : nat) BB', NF !! k = Some BB' →
     ∃ items', blocks !! k = Some items' ∧ erase items' = BB' ∧ shape (Z.of_nat (S n + k)) BB' items') →
  length (items :: blocks) = length (BB :: NF) ∧ ∀ (k : nat) BB', (BB :: NF) !! k = Some BB' →
     ∃ items', (items :: blocks) !! k = Some items' ∧ erase items' = BB' ∧ shape (Z.of_nat (n + k)) BB' items'.
Proof.
  intros [He Hs] [Hlen Hall]. split; [cbn; lia|]. intros [|k] BB'.
  - cbn. intros [= <-]. exists items. by rewrite Nat.add_0_r.
  - cbn. intros (items'&?&?&?)%Hall. exists items'. by rewrite Nat.add_succ_r.
Qed.

Lemma u32_succ (n : nat) : Z.of_nat (S n) < 2 ^ 32 → u32 (Z.of_nat n + 1) = Z.of_nat (S n).
Proof. intros. rewrite wrap_small by lia. lia. Qed.

Lemma start_blocks_numbered NF (n : nat) :
  Forall block_ok NF → Z.of_nat (n + length NF) < 2 ^ 32 →
  ∃ blocks m, start_blocks hash NF (Z.of_nat n) = (blocks, m) ∧
    length blocks = length NF ∧ ∀ (k : nat) BB, NF !! k = Some BB →
      ∃ items, blocks !! k = Some items ∧ erase items = BB ∧ start_shape hash (Z.of_nat (n + k)) BB items.
Proof.
  intros Hok. revert n. induction Hok as [|BB NF HB _ IH]; intros n Hlt; cbn [start_blocks].
  { by exists [], false. }
  destruct (start_block_shape hash BB (Z.of_nat n) HB) as (items&->&Hs). cbn [length] in Hlt.
  rewrite u32_succ by lia. destruct (IH (S n)) as (blocks&m&->&Hall); [lia|].
  eexists _, _. split; [done|]. apply numbered_cons; [|done]. split; [by eapply start_shape_erase|done].
Qed.

Lemma interval_blocks_numbered NF (n : nat) :
  Forall block_ok NF → Z.of_nat (n + length NF) < 2 ^ 32 →
  ∃ blocks m, interval_blocks hash NF (Z.of_nat n) = Ok (blocks, m) ∧
    length blocks = length NF ∧ ∀ (k : nat) BB, NF !! k = Some BB →
      ∃ items, blocks !! k = Some items ∧ erase items = BB ∧ interval_shape hash (Z.of_nat (n + k)) BB items.
Proof.
  intros Hok. revert n. induction Hok as [|BB NF HB _ IH]; intros n Hlt; cbn [interval_blocks].
  { by exists [], false. }
  destruct (interval_block_shape hash BB (Z.of_nat n) HB) as (items&->&Hs). cbn [length] in Hlt.
  cbn [res_bind]. rewrite u32_succ by lia. destruct (IH (S n)) as (blocks&m&->&Hall); [lia|]. cbn [res_bind].
  eexists _, _. split; [done|]. apply numbered_cons; [|done]. split; [by eapply interval_shape_erase|done].
Qed.
End numbering.

(** ** Properties *)
Section properties.
Context (dli_fname : option bytes) (is_directory exists_ : bytes → bool)
  (read_bitcode : bytes → option module) (link : module → module → bool * module).
Context (uniquify : list bytes → bytes → bytes).
Context (getTypeStoreSize : type → Z) (stripPointerCasts : value → value) (hash : bytes → Z).
Abbreviation linked := (loadAndLinkBitcode dli_fname is_directory exists_ read_bitcode link).

(** C14. The memory-access pass, on a module for the GPU with the device library
    linked in: it always returns, leaves every function of the module as it is,
    declares the functions it calls that the module lacks, and adds one clone for
    each kernel, with the kernel's arguments and a pointer.  A clone's blocks are the kernel's with nothing removed or
    reordered; right before each load, store or buffer access that is in the
    instrumentation scope, and nowhere else, there is one call of
    [v_submit_address] with the pointer, the position of the access, its kind,
    its address space and its size, the latter two reduced to 8 and 16 bits.  The
    pass reports a change exactly when some clone differs from its kernel.  On
    any other module nothing is added. *)
Theorem address_pass_probes_accesses scope M :
  (∀ K, K ∈ collectGPUKernels (linked M).2 → Forall (Forall (well_formed stripPointerCasts)) (getBlocks K)) →
  let pass := AMDGCNSubmitAddressMessage dli_fname is_directory exists_ read_bitcode link uniquify
    getTypeStoreSize stripPointerCasts hash scope M in
  if validateAMDGPUTarget M && (linked M).1 then
    ∃ (ds : list bytes) (rs : list (clone * bool)),
      pass = Ok (with_declarations (linked M).2 ds, rs.*1, existsb id rs.*2) ∧
      declares_called (linked M).2 rs.*1 ds ∧
      Forall2 (λ K r, clone_of K r.1 ∧
        Forall2 (λ BB items, erase items = BB ∧
          block_with (probed getTypeStoreSize stripPointerCasts hash scope) BB items)
          (getBlocks K) (cl_blocks r.1) ∧
        reports r.2 (cl_blocks r.1) ((λ BB : list instruction, Original <$> BB) <$> getBlocks K))
        (collectGPUKernels (linked M).2) rs
  else ∃ M', pass = Ok (M', [], false).
Proof.
  intros Hwf. cbv zeta.
  destruct (runOnModule_spec dli_fname is_directory exists_ read_bitcode link uniquify
    (λ NF, address_blocks getTypeStoreSize stripPointerCasts hash scope NF 0)
    (λ NF blocks m, Forall2 (block_with (probed getTypeStoreSize stripPointerCasts hash scope)) NF blocks ∧
       reports m blocks ((λ BB : list instruction, Original <$> BB) <$> NF)) M) as (H1&H2&H3).
  { intros K HK. by apply address_blocks_spec, Hwf. }
  destruct (validateAMDGPUTarget M) eqn:Hv; [|eexists; by apply H1]. cbn [andb].
  destruct (linked M).1 eqn:Hl; [|eexists; by apply H2].
  destruct (H3 eq_refl eq_refl) as (ds&rs&Hrun&Hd&Hall). exists ds, rs. split; [exact Hrun|]. split; [exact Hd|].
  eapply list.Forall2_impl; [exact Hall|]. cbv beta. intros K r (?&Hb&?). split_and!; [done| |done].
  eapply list.Forall2_impl; [exact Hb|]. intros BB items Hbw. split; [by eapply block_with_erase|done].
Qed.

(** C22. The two block passes, on a module for the GPU with the device library
    linked in, for kernels of fewer than 2^32 blocks each ending in a
    terminator: both return, leave every function as it is, declare the functions
    they call that the module lacks, add one clone for each kernel, and instrument every
    block of it, whatever the instrumentation scope says.  In the clone of the
    block-start pass, the [k]-th block is the kernel's with one message in front
    of its first instruction that is not a PHI node, carrying the position of
    that instruction and the number [k]; in the clone of the interval pass, the
    clock is read there and again in front of the terminator, where a message
    carries the interval, that position and the number [k]. *)
Theorem block_passes_number_blocks M :
  validateAMDGPUTarget M = true → (linked M).1 = true →
  (∀ K, K ∈ collectGPUKernels (linked M).2 →
     Forall block_ok (getBlocks K) ∧ Z.of_nat (length (getBlocks K)) < 2 ^ 32) →
  (∃ (ds : list bytes) (rs : list (clone * bool)),
     AMDGCNSubmitBBStart dli_fname is_directory exists_ read_bitcode link uniquify hash M
       = Ok (with_declarations (linked M).2 ds, rs.*1, existsb id rs.*2) ∧
     declares_called (linked M).2 rs.*1 ds ∧
     Forall2 (λ K r, clone_of K r.1 ∧ numbered (start_shape hash) (getBlocks K) (cl_blocks r.1))
       (collectGPUKernels (linked M).2) rs) ∧
  (∃ (ds : list bytes) (rs : list (clone * bool)),
     AMDGCNSubmitBBInterval dli_fname is_directory exists_ read_bitcode link uniquify hash M
       = Ok (with_declarations (linked M).2 ds, rs.*1, existsb id rs.*2) ∧
     declares_called (linked M).2 rs.*1 ds ∧
     Forall2 (λ K r, clone_of K r.1 ∧ numbered (interval_shape hash) (getBlocks K) (cl_blocks r.1))
       (collectGPUKernels (linked M).2) rs).
Proof.
  intros Hv Hl Hok. split.
  - apply (runOnModule_spec dli_fname is_directory exists_ read_bitcode link uniquify _
      (λ NF blocks _, numbered (start_shape hash) NF blocks) M); [|done..].
    intros K [Hb Hlen]%Hok. destruct (start_blocks_numbered hash (getBlocks K) 0 Hb) as (bl&m&Hs&Hn); [done|].
    exists bl, m. split; [by f_equal|exact Hn].
  - apply (runOnModule_spec dli_fname is_directory exists_ read_bitcode link uniquify _
      (λ NF blocks _, numbered (interval_shape hash) NF blocks) M); [|done..].
    intros K [Hb Hlen]%Hok. exact (interval_blocks_numbered hash (getBlocks K) 0 Hb Hlen).
Qed.

(** The functions of the module during one run. *)
Lemma declarations_grow clones M callees :
  ∃ ds, foldl (getOrInsertFunction clones) M callees = with_declarations M ds.
Proof.
  revert M. induction callees as [|c callees IH]; intros M; cbn [foldl].
  { exists []. by rewrite with_declarations_nil. }
  unfold getOrInsertFunction at 2. case_decide; [apply IH|].
  destruct (IH (with_declarations M [c])) as [ds ->]. exists ([c] ++ ds). apply with_declarations_app.
Qed.

Lemma visit_kernels_grow visit Ks M cs0 m0 M' cs m :
  res_fold (visit_kernel uniquify visit) (M, cs0, m0) Ks = Ok (M', cs, m) →
  ∃ ds, M' = with_declarations M ds.
Proof.
  revert M cs0 m0. induction Ks as [|K Ks IH]; intros M cs0 m0; cbn [res_fold].
  { intros [= <- _ _]. exists []. by rewrite with_declarations_nil. }
  intros ([[M1 cs1] m1]&H1&(ds&->)%IH)%res_bind_Ok. unfold visit_kernel in H1.
  apply res_bind_Ok in H1 as ([blocks mk]&_&[= <- _ _]).
  destruct (declarations_grow (cs0 ++ [Clone (uniquify ((getName <$> getFunctions M) ++ (cl_name <$> cs0))
    (AugmentedName (getName K))) (isKernel K) (target_cpu K) (getArgs K ++ [([], PointerType 0)]) blocks])
    M (blocks ≫= calls_of)) as [ds' E].
  exists (ds' ++ ds). rewrite <-with_declarations_app. f_equal. exact E.
Qed.

Lemma declarations_kernels M ds : collectGPUKernels (with_declarations M ds) = collectGPUKernels M.
Proof.
  rewrite !(collectGPUKernels_filter link). cbn [with_declarations getFunctions]. rewrite list.filter_app.
  induction ds as [|d ds IH]; [by rewrite app_nil_r|].
  rewrite fmap_cons, filter_cons_False by (by intros [_ ?]). exact IH.
Qed.

(** The names of the clones of one run. *)
Lemma clone_names visit M Ks cs0 m0 M' cs m :
  (∀ names n, n ∉ names → uniquify names n = n) →
  res_fold (visit_kernel uniquify visit) (M, cs0, m0) Ks = Ok (M', cs, m) →
  NoDup ((getName <$> getFunctions M') ++ (cl_name <$> cs0) ++ (AugmentedName ∘ getName <$> Ks)) →
  cl_name <$> cs = (cl_name <$> cs0) ++ (AugmentedName ∘ getName <$> Ks).
Proof.
  intros Hu. revert M cs0 m0. induction Ks as [|K Ks IH]; intros M cs0 m0.
  { intros [= _ <- _] _. by rewrite app_nil_r. }
  intros Hrun Hnd. destruct (visit_kernels_grow _ _ _ _ _ _ _ _ Hrun) as [ds HM'].
  cbn [res_fold] in Hrun. apply res_bind_Ok in Hrun as ([[M1 cs1] m1]&H1&H2). unfold visit_kernel in H1.
  apply res_bind_Ok in H1 as ([blocks mk]&_&[= HM1 <- <-]).
  assert (uniquify ((getName <$> getFunctions M) ++ (cl_name <$> cs0)) (AugmentedName (getName K))
          = AugmentedName (getName K)) as HK.
  { apply Hu. rewrite (assoc_L (++)) in Hnd. apply list.NoDup_app in Hnd as (_&Hdis&_).
    intros Hin. apply (Hdis (AugmentedName (getName K))); [|cbn; by left].
    rewrite HM', declared_names. revert Hin. rewrite !elem_of_app. tauto. }
  apply IH in H2.
  - rewrite H2, fmap_app. cbn [fmap list_fmap cl_name cloneKernelWithExtraArg].
    by rewrite HK, <-(assoc_L (++)).
  - rewrite fmap_app. cbn [fmap list_fmap cl_name cloneKernelWithExtraArg].
    rewrite HK, <-(assoc_L (++)). exact Hnd.
Qed.

(** C15. What the compiler pass makes and the run-time library looks for agree.
    When the clones' names are not taken in the module, and LLVM keeps a name
    that is not taken, every pass names its clones, in the order of the kernels,
    with the names under which [getInstrumentedName] has the library look for the
    clone of a symbol without a parameter list. *)
Theorem clones_named_for_host visit M M' clones b :
  (∀ names n, n ∉ names → uniquify names n = n) →
  runOnModule dli_fname is_directory exists_ read_bitcode link uniquify visit M = Ok (M', clones, b) →
  clones ≠ [] →
  NoDup ((getName <$> getFunctions M') ++ (AugmentedName ∘ getName <$> collectGPUKernels M')) →
  (∀ K, K ∈ collectGPUKernels M' → (")"%char ∉ getName K) ∧ no_sub (lit ".kd") (getName K)) →
  cl_name <$> clones = getInstrumentedName ∘ getName <$> collectGPUKernels M'.
Proof.
  intros Hu Hrun Hne Hnd Hnames. unfold runOnModule in Hrun.
  destruct (validateAMDGPUTarget M); cbn [negb] in Hrun; [|congruence].
  destruct (loadAndLinkBitcode _ _ _ _ _ M) as [[] M1]; cbn [negb] in Hrun; [|congruence].
  destruct (visit_kernels_grow _ _ _ _ _ _ _ _ Hrun) as [ds HM'].
  assert (collectGPUKernels M' = collectGPUKernels M1) as HKs by (rewrite HM'; apply declarations_kernels).
  rewrite HKs in Hnd, Hnames |- *.
  apply clone_names in Hrun; [|done|exact Hnd]. rewrite Hrun. cbn [fmap list_fmap app].
  apply list_fmap_ext. intros i K HK%list_elem_of_lookup_2. cbn.
  destruct (Hnames K HK) as [Hp Hkd]. symmetry. by apply instrumented_plain.
Qed.
End properties.

(** ** Witnesses: a kernel with a load in one block and a buffer store in another *)
Section example.
Definition ex_loc (line : Z) : option DILocation := Some (Loc (Some (File (lit "/src") (lit "a.cpp"))) line 5).
Definition ex_arg : value := VArgument 0 (PointerType 1).
Definition ex_kernel : function :=
  Function (lit "foo") false true (Some (lit "gfx942")) [(lit "p", PointerType 1)]
    [[Instruction (PHINode 0) None; Instruction (LoadInst (IntegerType 32) ex_arg) (ex_loc 42);
      Instruction (Terminator 0) None];
     [Instruction (CallInst (Some (lit "llvm.amdgcn.raw.ptr.buffer.store.v4f32"))
        [VOther 1 (OtherType 16); VOther 2 (OtherType 8); VOther 3 (IntegerType 32)] (OtherType 0)) (ex_loc 50);
      Instruction (Terminator 1) None]].
Definition ex_module : module := Module (lit "amdgcn-amd-amdhsa") None [ex_kernel].

Definition ex_fname : option bytes := Some (lit "/lib/plugins/pass.so").
Definition ex_link (M _ : module) : bool * module := (false, M).
Definition ex_uniquify (names : list bytes) (n : bytes) : bytes :=
  if decide (n ∈ names) then n ++ lit ".1" else n.
Definition ex_size (t : type) : Z := match t with IntegerType w => w / 8 | OtherType n => n | PointerType _ => 8 end.
Definition ex_hash (s : bytes) : Z := Z.of_nat (length s).
End example.
Abbreviation ex_linked := (loadAndLinkBitcode ex_fname (λ _, true) (λ _, true) (λ _, Some ex_module) ex_link).

Lemma address_pass_probes_accesses_witness :
  let pass := AMDGCNSubmitAddressMessage ex_fname (λ _, true) (λ _, true) (λ _, Some ex_module) ex_link
    ex_uniquify ex_size id ex_hash (Scope [] false) ex_module in
  (∃ (ds : list bytes) (rs : list (clone * bool)),
    pass = Ok (with_declarations ex_module ds, rs.*1, existsb id rs.*2) ∧ length rs = 1%nat) ∧
  match pass with
  | Ok (M, _, _) => getName <$> getFunctions M = [lit "foo"; lit "v_submit_address"]
  | Err _ => False
  end.
Proof.
  intros pass. unfold pass. clear pass.
  assert (∀ K, K ∈ collectGPUKernels (ex_linked ex_module).2 → Forall (Forall (well_formed id)) (getBlocks K)) as Hwf.
  { intros K ->%list_elem_of_singleton. cbn [getBlocks ex_kernel].
    repeat (apply list.Forall_cons; split); try apply list.Forall_nil; try exact Logic.I.
    - exists 1. reflexivity.
    - split; [intros H; vm_compute in H; discriminate|]. intros _.
      exists (VOther 1 (OtherType 16)), (VOther 2 (OtherType 8)), (VOther 3 (IntegerType 32)), [].
      split; [reflexivity|discriminate]. }
  destruct (address_pass_probes_accesses ex_fname (λ _, true) (λ _, true) (λ _, Some ex_module) ex_link
    ex_uniquify ex_size id ex_hash (Scope [] false) ex_module Hwf) as (ds&rs&Hrun&_&Hall).
  split; [|vm_compute; reflexivity].
  exists ds, rs. split; [exact Hrun|]. symmetry. exact (list.Forall2_length _ _ _ Hall).
Defined.

Lemma ex_blocks_ok K :
  K ∈ collectGPUKernels (ex_linked ex_module).2 →
  Forall block_ok (getBlocks K) ∧ Z.of_nat (length (getBlocks K)) < 2 ^ 32.
Proof.
  intros HK. assert (K = ex_kernel) as -> by (by apply list_elem_of_singleton in HK).
  split; [|reflexivity]. apply Forall_cons_2; [|apply Forall_cons_2; [|apply list.Forall_nil_2]].
  - by exists (removelast (default [] (getBlocks ex_kernel !! 0%nat))), 0, None.
  - by exists (removelast (default [] (getBlocks ex_kernel !! 1%nat))), 1, None.
Qed.

Lemma block_passes_number_blocks_witness :
  ∃ (ds : list bytes) (rs : list (clone * bool)),
    AMDGCNSubmitBBInterval ex_fname (λ _, true) (λ _, true) (λ _, Some ex_module) ex_link ex_uniquify ex_hash
      ex_module = Ok (with_declarations ex_module ds, rs.*1, existsb id rs.*2).
Proof.
  destruct (block_passes_number_blocks ex_fname (λ _, true) (λ _, true) (λ _, Some ex_module) ex_link
    ex_uniquify ex_hash ex_module) as (_&ds&rs&Hrun&_).
  - reflexivity.
  - reflexivity.
  - exact ex_blocks_ok.
  - exists ds, rs. exact Hrun.
Defined.

Lemma clones_named_for_host_witness :
  match AMDGCNSubmitBBStart ex_fname (λ _, true) (λ _, true) (λ _, Some ex_module) ex_link ex_uniquify ex_hash
          ex_module with
  | Ok (_, clones, _) => cl_name <$> clones = [getInstrumentedName (lit "foo")]
  | Err _ => False
  end.
Proof.
  destruct (AMDGCNSubmitBBStart _ _ _ _ _ _ _ _) as [[[M' clones] b]|f] eqn:Hrun;
    [|vm_compute in Hrun; discriminate].
  assert (M' = with_declarations ex_module [lit "s_submit_wave_header"] ∧ clones ≠ []) as [-> Hne].
  { split; [injection Hrun as <- _ _; vm_compute; reflexivity|]. intros ->. vm_compute in Hrun. discriminate. }
  assert (∀ names n, n ∉ names → ex_uniquify names n = n) as Hu.
  { intros names n Hn. unfold ex_uniquify. by destruct (decide (n ∈ names)). }
  apply (clones_named_for_host _ _ _ _ _ _ _ _ _ _ _ Hu Hrun Hne).
  - apply (bool_decide_unpack _). vm_compute. exact Logic.I.
  - intros K ->%list_elem_of_singleton. split; [by apply (bool_decide_unpack _)|].
    apply rfind_sub_None. vm_compute. reflexivity.
Defined.
