(* ===== verification/BitcodeLink.v ===== *)
(** * Bitcode helpers of the passes

    [src/instrumentation/include/utils.h], which the passes include: reading the
    length-prefixed name out of a mangled symbol, naming basic types, loading a
    bitcode file and linking a set of modules from an entry function on.  LLVM's
    modules, their symbol tables and its linker are a class.  [rounds] and
    [linked_from] say which modules are linked, and in which order. *)
From S2P Require Import Prelude StdString.

(** The environment, an unset variable read as the empty string. *)
Definition utils_getenv (env : bytes → option bytes) (name : bytes) : bytes := default [] (env name).

(** ** Mangled names

    A [StringRef&] that a function advances is an argument and a result. *)
Section mangled.
Implicit Types (s : bytes) (n : Z).

Definition INT_MAX : Z := 2 ^ 31 - 1.

(** [n = n*10 + s.front() - '0'], on [int]s: the sum is formed before the
    subtraction. *)
Definition next_number n (c : ascii) : res Z :=
  let ten := n * 10 in
  let sum := ten + Z.of_nat (nat_of_ascii c) in
  if (ten <=? INT_MAX) && (sum <=? INT_MAX) then Ok (sum - 48) else Err FUB.

Fixpoint eat_digits n s : res (Z * bytes) :=
  match s with
  | c :: s' => if isdigit c then let! n' := next_number n c in eat_digits n' s' else Ok (n, s)
  | [] => Ok (n, s)
  end.

Definition eatNumber s : res (Z * bytes) :=
  let! '(n, s') := eat_digits 0 s in
  Ok (if (length s' <? length s)%nat then n else -1, s').

(** An empty [StringRef] is the failure. *)
Definition eatLengthPrefixedName s : res (bytes * bytes) :=
  let! '(Len, s') := eatNumber s in
  Ok (if (Len <=? 0) || (Z.of_nat (length s') <? Len) then ([], s')
      else (take (Z.to_nat Len) s', drop (Z.to_nat Len) s')).

Definition eatTerm s (str : bytes) : bool * bytes :=
  if starts_with str s then (true, drop (length str) s) else (false, s).

Definition getUnmangledName (mangledName : bytes) : res bytes :=
  let '(ok, s) := eatTerm mangledName (lit "_Z") in
  if ok : bool then let! '(name, _) := eatLengthPrefixedName s in Ok name else Ok [].

(** ** Basic types *)
Inductive basic_type := VoidTy | IntNTy (width : Z) | HalfTy | FloatTy | DoubleTy.

#[export] Instance basic_type_eq_dec : EqDecision basic_type.
Proof. solve_decision. Defined.

(** The spellings, in the order they are tried. *)
Definition spellings : list (bytes * basic_type) :=
  [(lit "void", VoidTy); (lit "bool", IntNTy 1);
   (lit "char", IntNTy 8); (lit "unsigned char", IntNTy 8); (lit "uchar", IntNTy 8);
   (lit "short", IntNTy 16); (lit "unsigned short", IntNTy 16); (lit "ushort", IntNTy 16);
   (lit "int", IntNTy 32); (lit "unsigned int", IntNTy 32); (lit "uint", IntNTy 32);
   (lit "long", IntNTy 64); (lit "unsigned long", IntNTy 64); (lit "ulong", IntNTy 64);
   (lit "half", HalfTy); (lit "float", FloatTy); (lit "double", DoubleTy)].

Fixpoint consume_first (table : list (bytes * basic_type)) s : option basic_type * bytes :=
  match table with
  | [] => (None, s)
  | (spelling, ty) :: table' =>
      if starts_with spelling s then (Some ty, drop (length spelling) s) else consume_first table' s
  end.

Definition parseBasicTypeName : bytes → option basic_type * bytes := consume_first spellings.
End mangled.

(** ** LLVM *)

(** What the code reads of a [GlobalValue]; a value without a name has the empty
    one. *)
Record global_value := GlobalValue {
  gv_name : bytes;
  isDeclaration : bool;
  hasLocalLinkage : bool;
  hasDLLImportStorageClass : bool;
}.

Class LlvmModules := {
  module_t : Type;
  getModuleIdentifier : module_t → bytes;
  module_functions : module_t → list global_value;
  module_globals : module_t → list global_value;
  module_aliases : module_t → list global_value;
  (** the module's symbol table *)
  getNamedValue : module_t → bytes → option global_value;
  (** [Linker::linkModules]: the destination afterwards, [None] on an error *)
  linker_link : module_t → module_t → option module_t;
}.

Section link.
Context `{LL : LlvmModules}.
Implicit Types (m : module_t) (ms : list (option module_t)) (U : gset bytes).

(** ** Loading *)

(** What reading a file gives: an error, or its bytes with what [identify_magic]
    and [parseIR] say of them. *)
Inductive file_content :=
| FileError
| FileBytes (is_bitcode : bool) (parsed : option module_t).

(** The module, the message, and what is returned. *)
Definition loadInstrumentationFile (fileName : bytes) (content : file_content)
    (module : option module_t) (errorMsg : bytes) : res (bool * option module_t * bytes) :=
  match content with
  | FileError => Err (FExit 1)
  | FileBytes true None => Err (FExit 1)
  | FileBytes true (Some m) => Ok (true, Some m, errorMsg)
  | FileBytes false _ =>
      Ok (false, module,
          lit "Loading file " ++ fileName ++ lit " Object file as input is currently not supported")
  end.

(** ** Undefined symbols *)
Definition collect (sets : gset bytes * gset bytes) (gv : global_value) : res (gset bytes * gset bytes) :=
  let '(undefined, defined) := sets in
  match gv_name gv with
  | [] => Ok sets
  | name =>
      if isDeclaration gv then Ok ({[name]} ∪ undefined, defined)
      else if hasLocalLinkage gv then Ok sets
      else let! _ := assertb (negb (hasDLLImportStorageClass gv)) in Ok (undefined, {[name]} ∪ defined)
  end.

Definition collect_alias (defined : gset bytes) (gv : global_value) : gset bytes :=
  match gv_name gv with [] => defined | name => {[name]} ∪ defined end.

Definition GetAllUndefinedSymbols m : res (gset bytes) :=
  let! sets := res_fold collect (∅, ∅) (module_functions m) in
  let! '(undefined, defined) := res_fold collect sets (module_globals m) in
  let defined := foldl collect_alias defined (module_aliases m) in
  Ok (filter (λ s, s ∉ defined ∧ starts_with (lit "llvm.") s = false) undefined).

(** ** Linking

    [modules] is a vector of [unique_ptr]s: [None] is a null one.  A destination is
    lost when its link fails, since every caller then returns without it. *)
Definition link_failed_msg m : bytes := lit "Linking module " ++ getModuleIdentifier m ++ lit " failed".

Definition linkTwoModules (Dest Src : module_t) : option module_t * bytes :=
  (linker_link Dest Src, link_failed_msg Src).

(** The loop without an entry function: into the last module. *)
Fixpoint link_all (composite : option module_t) ms (errorMsg : bytes)
    : res (option module_t * list (option module_t) * bytes) :=
  match ms with
  | [] => Ok (composite, [], errorMsg)
  | module :: ms' =>
      match composite, module with
      | Some d, Some s =>
          let '(linked, msg) := linkTwoModules d s in
          match linked with
          | Some c => let! '(r, ms'', msg) := link_all (Some c) ms' msg in Ok (r, None :: ms'', msg)
          | None => Ok (None, None :: ms', lit "Linking archive module with composite failed:" ++ msg)
          end
      | _, _ => Err FUB
      end
  end.

(** The search for the module of the entry function: the module, and the vector
    with its place emptied; or the message. *)
Definition duplicate_entry_msg (entry : bytes) m c : bytes :=
  lit "Function " ++ entry ++ lit " defined in different modules (" ++ getModuleIdentifier m ++
  lit " already defined in: " ++ getModuleIdentifier c ++ lit ")".

Fixpoint find_entry (entry : bytes) (composite : option module_t) ms
    : (option module_t + bytes) * list (option module_t) :=
  match ms with
  | [] => (inl composite, [])
  | None :: ms' => let '(r, ms'') := find_entry entry composite ms' in (r, None :: ms'')
  | Some m :: ms' =>
      match getNamedValue m entry with
      | None => let '(r, ms'') := find_entry entry composite ms' in (r, Some m :: ms'')
      | Some _ =>
          match composite with
          | Some c => (inr (duplicate_entry_msg entry m c), ms)
          | None => let '(r, ms'') := find_entry entry (Some m) ms' in (r, None :: ms'')
          end
      end
  end.

Definition containsUsedSymbols m : bool := bool_decide (is_Some (getNamedValue m (lit "llvm.used"))).

Definition hasRequiredDefinition U m : bool :=
  existsb (λ symbol, match getNamedValue m symbol with
                     | Some gv => negb (isDeclaration gv)
                     | None => false
                     end) (elements U).

(** Both loops over the rest: the modules that are wanted are linked in, their
    places emptied; the last component is [symbolsLinked]. *)
Fixpoint link_wanted (wanted : module_t → bool) (what : bytes) (composite : module_t) ms (errorMsg : bytes)
    (symbolsLinked : bool) : option module_t * list (option module_t) * bytes * bool :=
  match ms with
  | [] => (Some composite, [], errorMsg, symbolsLinked)
  | Some m :: ms' =>
      if wanted m then
        match linkTwoModules composite m with
        | (None, msg) => (None, None :: ms', what ++ msg, symbolsLinked)
        | (Some c, msg) =>
            let '(r, ms'', msg, linked) := link_wanted wanted what c ms' msg true in
            (r, None :: ms'', msg, linked)
        end
      else
        let '(r, ms'', msg, linked) := link_wanted wanted what composite ms' errorMsg symbolsLinked in
        (r, Some m :: ms'', msg, linked)
  | None :: ms' =>
      let '(r, ms'', msg, linked) := link_wanted wanted what composite ms' errorMsg symbolsLinked in
      (r, None :: ms'', msg, linked)
  end.

(** [while (symbolsLinked)]. *)
Fixpoint resolve (fuel : nat) (composite : module_t) ms (errorMsg : bytes)
    : res (option module_t * list (option module_t) * bytes) :=
  match fuel with
  | O => Err FDiverge
  | S fuel' =>
      let! undefinedSymbols := GetAllUndefinedSymbols composite in
      if bool_decide (undefinedSymbols = ∅) then Ok (Some composite, ms, errorMsg)
      else
        match link_wanted (hasRequiredDefinition undefinedSymbols)
                (lit "Linking archive module with composite failed:") composite ms errorMsg false with
        | (Some c, ms', msg, true) => resolve fuel' c ms' msg
        | (r, ms', msg, _) => Ok (r, ms', msg)
        end
  end.

Definition condense ms : list (option module_t) := Some <$> omap id ms.

(** The composite module, the vector afterwards and the message. *)
Definition linkModules ms (entryFunction errorMsg : bytes)
    : res (option module_t * list (option module_t) * bytes) :=
  let! _ := assertb (bool_decide (ms ≠ [])) in
  match entryFunction with
  | [] =>
      let composite := last ms None in
      let! '(r, ms', msg) := link_all composite (removelast ms) errorMsg in
      match r with
      | Some c => Ok (Some c, [], msg)
      | None => Ok (None, ms', msg)
      end
  | _ =>
      match find_entry entryFunction None ms with
      | (inr msg, ms') => Ok (None, ms', msg)
      | (inl None, ms') =>
          Ok (None, ms', lit "Entry function '" ++ entryFunction ++ lit "' not found in module.")
      | (inl (Some c), ms') =>
          match link_wanted containsUsedSymbols
                  (lit "Linking module containing '__attribute__((used))' symbols with composite failed:")
                  c ms' errorMsg false with
          | (None, ms'', msg, _) => Ok (None, ms'', msg)
          | (Some c, ms'', msg, _) =>
              let! '(r, ms3, msg) := resolve (S (length ms'')) c ms'' msg in
              match r with
              | Some c => Ok (Some c, condense ms3, msg)
              | None => Ok (None, ms3, msg)
              end
          end
      end
  end.

(** ** Undefined symbols, characterised *)
Definition declares (l : list global_value) (s : bytes) : Prop :=
  ∃ gv, gv ∈ l ∧ gv_name gv = s ∧ s ≠ [] ∧ isDeclaration gv = true.
Definition defines (l : list global_value) (s : bytes) : Prop :=
  ∃ gv, gv ∈ l ∧ gv_name gv = s ∧ s ≠ [] ∧ isDeclaration gv = false ∧ hasLocalLinkage gv = false.

Lemma collect_step u d gv u' d' :
  collect (u, d) gv = Ok (u', d') → ∀ s,
  (s ∈ u' ↔ s ∈ u ∨ (gv_name gv = s ∧ s ≠ [] ∧ isDeclaration gv = true)) ∧
  (s ∈ d' ↔ s ∈ d ∨
    (gv_name gv = s ∧ s ≠ [] ∧ isDeclaration gv = false ∧ hasLocalLinkage gv = false)).
Proof.
  unfold collect. intros H s.
  destruct (gv_name gv) as [|a n]; [simplify_eq; intuition congruence|].
  destruct (isDeclaration gv), (hasLocalLinkage gv), (hasDLLImportStorageClass gv); simplify_eq/=.
  all: rewrite ?elem_of_union, ?elem_of_singleton; intuition (subst; done).
Qed.

Lemma some_cons {A} (P : A → Prop) x l : (∃ y, y ∈ x :: l ∧ P y) ↔ P x ∨ ∃ y, y ∈ l ∧ P y.
Proof.
  split.
  - intros (y & [->|H]%elem_of_cons & Hy); [by left|by right; exists y].
  - intros [H|(y & H & Hy)]; [exists x|exists y]; (split; [|done]); [left|by right].
Qed.

Lemma declares_cons gv l s :
  declares (gv :: l) s ↔ (gv_name gv = s ∧ s ≠ [] ∧ isDeclaration gv = true) ∨ declares l s.
Proof. exact (some_cons (λ gv, gv_name gv = s ∧ s ≠ [] ∧ isDeclaration gv = true) gv l). Qed.

Lemma defines_cons gv l s :
  defines (gv :: l) s ↔
    (gv_name gv = s ∧ s ≠ [] ∧ isDeclaration gv = false ∧ hasLocalLinkage gv = false) ∨ defines l s.
Proof.
  exact (some_cons (λ gv, gv_name gv = s ∧ s ≠ [] ∧ isDeclaration gv = false ∧
    hasLocalLinkage gv = false) gv l).
Qed.

Lemma collect_all l u d u' d' :
  res_fold collect (u, d) l = Ok (u', d') → ∀ s,
  (s ∈ u' ↔ s ∈ u ∨ declares l s) ∧ (s ∈ d' ↔ s ∈ d ∨ defines l s).
Proof.
  revert u d. induction l as [|gv l IH]; intros u d; cbn.
  - intros [= <- <-] s. unfold declares, defines. split; set_solver.
  - intros ([u1 d1] & H1 & H2)%res_bind_Ok s.
    destruct (collect_step _ _ _ _ _ H1 s) as [Hu Hd], (IH _ _ H2 s) as [Hu' Hd'].
    rewrite Hu', Hu, Hd', Hd, declares_cons, defines_cons. tauto.
Qed.

Lemma collect_aliases l d s :
  s ∈ foldl collect_alias d l ↔ s ∈ d ∨ (s ≠ [] ∧ ∃ gv, gv ∈ l ∧ gv_name gv = s).
Proof.
  revert d. induction l as [|gv l IH]; intros d; cbn; [set_solver|].
  rewrite IH. unfold collect_alias. setoid_rewrite elem_of_cons.
  destruct (gv_name gv) eqn:E; set_unfold; naive_solver.
Qed.

(** The undefined symbols of a module are the names it declares as a function or a
    variable, neither defines with external linkage nor gives to an alias, and that
    are not LLVM's own. *)
Theorem undefined_symbols_exact m U :
  GetAllUndefinedSymbols m = Ok U → ∀ s,
  s ∈ U ↔ declares (module_functions m ++ module_globals m) s ∧
          ¬ defines (module_functions m ++ module_globals m) s ∧
          (∀ gv, gv ∈ module_aliases m → gv_name gv ≠ s) ∧ ¬ (∃ t, s = lit "llvm." ++ t).
Proof.
  unfold GetAllUndefinedSymbols. intros ([u d] & H1 & ([u' d'] & H2 & [= <-])%res_bind_Ok)%res_bind_Ok s.
  assert (H : res_fold collect (∅, ∅) (module_functions m ++ module_globals m) = Ok (u', d')).
  { by rewrite res_fold_app, H1. }
  destruct (collect_all _ _ _ _ _ H s) as [Hu Hd].
  assert (declares (module_functions m ++ module_globals m) s → s ≠ []) as Hne by (intros (? & ?); tauto).
  assert (starts_with (lit "llvm.") s = false ↔ ¬ (∃ t, s = lit "llvm." ++ t)) as Hl.
  { rewrite <- starts_with_spec. by destruct (starts_with _ s). }
  assert ((¬ ∃ gv, gv ∈ module_aliases m ∧ gv_name gv = s) ↔ ∀ gv, gv ∈ module_aliases m → gv_name gv ≠ s) as Ha.
  { split; [eauto|]. intros H' (gv & Hin & E). by apply (H' gv). }
  rewrite elem_of_filter, collect_aliases, Hu, Hd, Hl, <- Ha, !elem_of_empty. tauto.
Qed.

(** It can only fail by its assertions. *)
Lemma undefined_abort m f : GetAllUndefinedSymbols m = Err f → f = FAbort.
Proof.
  assert (H : ∀ gv sets f, collect sets gv = Err f → f = FAbort).
  { intros gv [u d] f'. unfold collect. destruct (gv_name gv); [done|].
    by destruct (isDeclaration gv), (hasLocalLinkage gv), (hasDLLImportStorageClass gv); intros [=]. }
  unfold GetAllUndefinedSymbols. destruct (res_fold _ _ (module_functions m)) as [sets|f1] eqn:E1; cbn.
  - destruct (res_fold _ _ (module_globals m)) as [[u d]|f2] eqn:E2; cbn; [done|].
    intros [= <-]. exact (res_fold_Err (λ f, f = FAbort) _ _ _ _ H E2).
  - intros [= <-]. exact (res_fold_Err (λ f, f = FAbort) _ _ _ _ H E1).
Qed.

(** ** Linking, characterised *)
Fixpoint link_chain (c : module_t) (l : list module_t) : option module_t :=
  match l with
  | [] => Some c
  | m :: l' => match linker_link c m with Some c' => link_chain c' l' | None => None end
  end.

Lemma link_chain_app c c' l l' : link_chain c l = Some c' → link_chain c (l ++ l') = link_chain c' l'.
Proof.
  revert c. induction l as [|m l IH]; intros c; cbn; [by intros [= ->]|].
  destruct (linker_link c m); [apply IH|done].
Qed.

(** The module has a value of that name, and not just a declaration. *)
Definition has_definition m (s : bytes) : Prop :=
  match getNamedValue m s with Some gv => isDeclaration gv = false | None => False end.
Definition provides U m : Prop := set_Exists (has_definition m) U.
Definition has_used m : Prop := is_Some (getNamedValue m (lit "llvm.used")).

#[export] Instance has_definition_dec m s : Decision (has_definition m s).
Proof. unfold has_definition. destruct (getNamedValue m s); apply _. Defined.
#[export] Instance provides_dec U m : Decision (provides U m).
Proof. unfold provides. apply _. Defined.
#[export] Instance has_used_dec m : Decision (has_used m).
Proof. unfold has_used. apply _. Defined.

Lemma hasRequiredDefinition_provides U m : hasRequiredDefinition U m = bool_decide (provides U m).
Proof.
  apply eq_bool_prop_intro. rewrite bool_decide_spec. unfold hasRequiredDefinition, provides, set_Exists.
  rewrite Is_true_true, existsb_exists. setoid_rewrite <-list_elem_of_In. setoid_rewrite elem_of_elements.
  unfold has_definition. split; intros (s & Hs & Hd); exists s; (split; [done|]);
    (destruct (getNamedValue m s) as [gv|]; [by destruct (isDeclaration gv)|done]).
Qed.

(** A pass links the modules that are wanted, in their order, and keeps the others
    in theirs; it fails when one of the links does. *)
Lemma link_wanted_spec wanted (P : module_t → Prop) `{!∀ m, Decision (P m)} what c ms msg b :
  (∀ m, wanted m = bool_decide (P m)) →
  ∃ ms' msg' b', link_wanted wanted what c ms msg b =
      (link_chain c (filter P (omap id ms)), ms', msg', b') ∧
    (is_Some (link_chain c (filter P (omap id ms))) →
     omap id ms' = filter (λ m, ¬ P m) (omap id ms) ∧
     b' = b || bool_decide (filter P (omap id ms) ≠ [])).
Proof.
  intros HP. revert c msg b. induction ms as [|[m|] ms IH]; intros c msg b.
  - exists [], msg, b. cbn. by rewrite orb_false_r.
  - cbn [link_wanted omap list_omap id]. rewrite HP, !filter_cons.
    destruct (decide (P m)) as [Hm|Hm], (decide (¬ P m)) as [Hn|Hn]; try tauto.
    + rewrite bool_decide_eq_true_2 by done. unfold linkTwoModules. cbn [link_chain].
      destruct (linker_link c m) as [c1|] eqn:Hl.
      * destruct (IH c1 (link_failed_msg m) true) as (ms' & msg' & b' & -> & Hr).
        eexists _, _, _. split; [reflexivity|]. intros (Ho & ->)%Hr. cbn. by rewrite Ho, orb_true_r.
      * eexists _, _, _. split; [reflexivity|]. by intros [].
    + rewrite bool_decide_eq_false_2 by done.
      destruct (IH c msg b) as (ms' & msg' & b' & -> & Hr).
      eexists _, _, _. split; [reflexivity|]. intros (Ho & ->)%Hr. cbn. by rewrite Ho.
  - cbn [link_wanted omap list_omap id]. destruct (IH c msg b) as (ms' & msg' & b' & -> & Hr).
    eexists _, _, _. split; [reflexivity|]. intros (Ho & ->)%Hr. cbn. by rewrite Ho.
Qed.

(** The undefined symbols of a module, in terms of its values. *)
Definition undefined_of (c : module_t) U : Prop :=
  is_Ok (GetAllUndefinedSymbols c) ∧ ∀ s,
  s ∈ U ↔ declares (module_functions c ++ module_globals c) s ∧
          ¬ defines (module_functions c ++ module_globals c) s ∧
          (∀ gv, gv ∈ module_aliases c → gv_name gv ≠ s) ∧ ¬ (∃ t, s = lit "llvm." ++ t).

Lemma undefined_of_result c U : GetAllUndefinedSymbols c = Ok U ↔ undefined_of c U.
Proof.
  split.
  - intros H. split; [by exists U|]. by apply undefined_symbols_exact.
  - intros [[U' HU] Hs]. rewrite HU. f_equal. apply set_eq. intros s.
    by rewrite Hs, (undefined_symbols_exact _ _ HU).
Qed.

(** The rounds of the loop: each links the modules that define a symbol the
    composite had not at the start of the round, in their order; the loop is over
    when none does. *)
Inductive rounds : module_t → list module_t → module_t → list module_t → Prop :=
| rounds_done c l U :
    undefined_of c U → filter (provides U) l = [] → rounds c l c l
| rounds_more c l U c1 c' rest :
    undefined_of c U → filter (provides U) l ≠ [] → link_chain c (filter (provides U) l) = Some c1 →
    rounds c1 (filter (λ m, ¬ provides U m) l) c' rest → rounds c l c' rest.

Lemma filter_split_length {A} (P : A → Prop) `{!∀ x, Decision (P x)} l :
  (length (filter P l) + length (filter (λ x, ¬ P x) l) = length l)%nat.
Proof.
  induction l as [|x l IH]; [done|]. rewrite !filter_cons.
  repeat case_decide; cbn; lia || tauto.
Qed.

Lemma filter_none {A} (P : A → Prop) `{!∀ x, Decision (P x)} l :
  filter P l = [] → filter (λ x, ¬ P x) l = l.
Proof.
  induction l as [|x l IH]; [done|]. rewrite !filter_cons.
  destruct (decide (P x)); [done|]. intros E. rewrite decide_True by done. by rewrite IH.
Qed.

(** A round that links something leaves fewer modules, so the fuel is enough; and
    [resolve] is these rounds. *)
Lemma resolve_spec fuel c ms msg :
  (length (omap id ms) < fuel)%nat →
  resolve fuel c ms msg ≠ Err FDiverge ∧
  ∀ c' rest, (∃ ms' msg', resolve fuel c ms msg = Ok (Some c', ms', msg') ∧ omap id ms' = rest) ↔
             rounds c (omap id ms) c' rest.
Proof.
  revert c ms msg. induction fuel as [|fuel IH]; intros c ms msg Hlen; [lia|]. cbn [resolve].
  destruct (GetAllUndefinedSymbols c) as [U|f] eqn:HU; cbn [res_bind].
  2: { split; [intros [= ->]; by apply undefined_abort in HU|]. intros c' rest. split; [by intros (? & ? & ? & _)|].
       intros Hr. assert (∀ U, ¬ undefined_of c U) as Hno by (intros U HX%undefined_of_result; congruence).
       by destruct Hr as [c l U HX|c l U ???? HX]; destruct (Hno U). }
  pose proof (proj1 (undefined_of_result c U) HU) as HU'.
  assert (∀ V, undefined_of c V → V = U) as Huniq by (intros V HV%undefined_of_result; congruence).
  case_bool_decide as HE.
  { split; [done|]. intros c' rest. subst U.
    assert (filter (provides ∅) (omap id ms) = []) as Hf.
    { generalize (omap id ms). intros l. induction l as [|m l IHl]; [done|].
      rewrite filter_cons_False; [done|]. intros (s & Hs & _). by apply not_elem_of_empty in Hs. }
    split.
    - intros (ms' & msg' & [= <- <- _] & <-). by eapply rounds_done.
    - intros Hr. inversion Hr as [? ? V HV|? ? V ? ? ? HV Hne]; subst.
      + by eexists _, _.
      + by rewrite (Huniq V HV) in Hne. }
  destruct (link_wanted_spec (hasRequiredDefinition U) (provides U)
    (lit "Linking archive module with composite failed:") c ms msg false
    (hasRequiredDefinition_provides U)) as (ms1 & msg1 & b1 & -> & Hr).
  set (yes := filter (provides U) (omap id ms)) in *.
  destruct (link_chain c yes) as [c1|] eqn:Hc.
  2: { split; [by destruct b1|]. intros c' rest. split; [by destruct b1; intros (? & ? & ? & _)|].
       intros Hr'. inversion Hr' as [? ? V HV Hnil|? ? V ? ? ? HV Hne Hch]; subst;
         rewrite (Huniq V HV) in *; [by unfold yes in Hc; rewrite Hnil in Hc|]. unfold yes in Hc. congruence. }
  destruct (Hr ltac:(by eexists)) as (Hno & ->). cbn [orb].
  pose proof (filter_split_length (provides U) (omap id ms)) as Hsum. fold yes in Hsum.
  case_bool_decide as Hy.
  - destruct (IH c1 ms1 msg1) as [Hd Hrec].
    { rewrite Hno. destruct yes; [done|]. cbn in Hsum. lia. }
    split; [done|]. intros c' rest. rewrite Hrec, Hno. split.
    + intros HR. by eapply rounds_more.
    + intros HR. inversion HR as [? ? V HV Hnil|? ? V ? ? ? HV Hne Hch HR']; subst;
        rewrite (Huniq V HV) in *; [by destruct Hy|]. unfold yes in Hc. congruence.
  - rewrite Hy in Hc. cbn in Hc. injection Hc as <-.
    rewrite (filter_none _ _ Hy) in Hno. split; [done|]. intros c' rest. split.
    + intros (ms' & msg' & [= <- <- _] & <-). rewrite Hno. by eapply rounds_done.
    + intros HR. inversion HR as [? ? V HV Hnil|? ? V ? ? ? HV Hne Hch HR']; subst.
      * by eexists _, _.
      * by rewrite (Huniq V HV) in Hne.
Qed.

(** *** The entry function *)
Definition named (entry : bytes) m : Prop := is_Some (getNamedValue m entry).

(** With an entry found, the search only looks for a second one. *)
Lemma find_entry_rest entry c ms r ms' :
  find_entry entry (Some c) ms = (inl r, ms') ↔
  r = Some c ∧ ms' = ms ∧ ∀ m, m ∈ omap id ms → ¬ named entry m.
Proof.
  revert r ms'. induction ms as [|[m|] ms IH]; intros r ms'; cbn.
  - split; [intros [= <- <-]; split_and!; [done..|set_solver]|]. by intros (-> & -> & _).
  - destruct (getNamedValue m entry) eqn:Hn.
    { split; [done|]. intros (_ & _ & H). destruct (H m); [by left|]. unfold named. by rewrite Hn. }
    assert (¬ named entry m) as Hm by (unfold named; rewrite Hn; by intros []).
    destruct (find_entry entry (Some c) ms) as [r1 ms1] eqn:E.
    transitivity (r1 = inl r ∧ ms' = Some m :: ms1); [split; [by intros [= -> <-]|by intros [-> ->]]|].
    split.
    + intros [-> ->]. destruct (proj1 (IH r ms1) eq_refl) as (-> & -> & H). split_and!; [done..|].
      by intros m' [->|H']%elem_of_cons; [|apply H].
    + intros (-> & -> & H).
      assert ((r1, ms1) = (inl (Some c), ms)) as [= -> ->]; [|done].
      apply IH. split_and!; [done..|]. intros m' Hm'. apply H. by right.
  - destruct (find_entry entry (Some c) ms) as [r1 ms1] eqn:E.
    transitivity (r1 = inl r ∧ ms' = None :: ms1); [split; [by intros [= -> <-]|by intros [-> ->]]|].
    split.
    + intros [-> ->]. by destruct (proj1 (IH r ms1) eq_refl) as (-> & -> & H).
    + intros (-> & -> & H). by assert ((r1, ms1) = (inl (Some c), ms)) as [= -> ->] by by apply IH.
Qed.

(** The only module with a value of that name, between those before and after it. *)
Definition only_entry (entry : bytes) ms (e : module_t) (others : list module_t) : Prop :=
  ∃ before after, omap id ms = before ++ e :: after ∧ others = before ++ after ∧
    named entry e ∧ ∀ m, m ∈ others → ¬ named entry m.

Lemma find_entry_spec entry ms e others :
  (∃ ms', find_entry entry None ms = (inl (Some e), ms') ∧ omap id ms' = others) ↔
  only_entry entry ms e others.
Proof.
  revert others. induction ms as [|[m|] ms IH]; intros others; cbn.
  - split; [by intros (? & ? & _)|]. by intros ([] & ? & ? & _).
  - destruct (getNamedValue m entry) as [gv|] eqn:Hn.
    + assert (named entry m) as Hm by (unfold named; by rewrite Hn).
      destruct (find_entry entry (Some m) ms) as [r1 ms1] eqn:E. split.
      * intros (ms' & [= -> <-] & <-). apply find_entry_rest in E as ([= ->] & -> & H).
        by exists [], (omap id ms).
      * intros ([|x before] & after & Hl & -> & He & H); cbn in Hl; injection Hl as -> Hl.
        -- subst after.
           assert (find_entry entry (Some e) ms = (inl (Some e), ms)) as E' by (by apply find_entry_rest).
           rewrite E in E'. injection E' as -> ->. by eexists.
        -- destruct (H x); [by left|done].
    + assert (¬ named entry m) as Hm by (unfold named; rewrite Hn; by intros []).
      destruct (find_entry entry None ms) as [r1 ms1] eqn:E. split.
      * intros (ms' & [= -> <-] & <-).
        destruct (proj1 (IH (omap id ms1)) ltac:(by exists ms1)) as (before & after & Hl & Ho & He & H).
        exists (m :: before), after. cbn [omap list_omap id app]. rewrite Hl, Ho. split_and!; [done..|].
        rewrite <-Ho. by intros m' [->|H']%elem_of_cons; [|apply H].
      * intros ([|x before] & after & Hl & -> & He & H); cbn in Hl; injection Hl as -> Hl; [done|].
        destruct (proj2 (IH (before ++ after))) as (ms' & [= -> <-] & Ho).
        { exists before, after. split_and!; [done..|]. intros m' Hm'. apply H. by right. }
        exists (Some x :: ms1). cbn. by rewrite Ho.
  - destruct (find_entry entry None ms) as [r1 ms1] eqn:E. change (only_entry entry (None :: ms) e others) with (only_entry entry ms e others). rewrite <-IH. split.
    + intros (ms' & [= -> <-] & <-). by exists ms1.
    + intros (ms' & [= -> <-] & <-). by exists (None :: ms1).
Qed.

Lemma find_entry_none entry ms :
  (∀ m, m ∈ omap id ms → ¬ named entry m) → find_entry entry None ms = (inl None, ms).
Proof.
  induction ms as [|[m|] ms IH]; cbn; intros H; [done| |].
  - destruct (getNamedValue m entry) eqn:Hn; [destruct (H m); [by left|by unfold named; rewrite Hn]|].
    rewrite IH; [done|]. intros m' Hm'. apply H. by right.
  - by rewrite IH.
Qed.

Lemma link_all_spec d ms msg c :
  (∃ ms' msg', link_all (Some d) ms msg = Ok (Some c, ms', msg')) ↔
  ∃ l, ms = Some <$> l ∧ link_chain d l = Some c.
Proof.
  revert d msg. induction ms as [|[m|] ms IH]; intros d msg; cbn.
  - split; [intros (? & ? & [= <- _ _]); by exists []|]. intros ([|] & H & Hl); [|done].
    cbn in Hl. injection Hl as ->. by eexists _, _.
  - destruct (linker_link d m) as [d'|] eqn:Hl.
    + transitivity (∃ ms' msg', link_all (Some d') ms (link_failed_msg m) = Ok (Some c, ms', msg')).
      { destruct (link_all (Some d') ms _) as [[[r ms1] msg1]|f]; cbn; split; intros (? & ? & H); try done;
          injection H as -> _ _; by eexists _, _. }
      rewrite IH. split.
      * intros (l & -> & Hc). exists (m :: l). cbn. by rewrite Hl.
      * intros ([|m' l] & H & Hc); [done|]. cbn in H, Hc. injection H as -> ->. rewrite Hl in Hc. by exists l.
    + split; [by intros (? & ? & ?)|]. intros ([|m' l] & H & Hc); [done|].
      cbn in H, Hc. injection H as -> ->. by rewrite Hl in Hc.
  - split; [by intros (? & ? & ?)|]. by intros ([] & ? & _).
Qed.

Lemma link_all_no_loop d ms msg : link_all d ms msg ≠ Err FDiverge.
Proof.
  revert d msg. induction ms as [|[m|] ms IH]; intros [d|] msg; cbn; try done.
  destruct (linker_link d m) as [d'|]; [|done].
  destruct (link_all (Some d') ms _) as [[[r ms1] msg1]|f] eqn:E; cbn; [done|].
  intros [= ->]. by apply IH in E.
Qed.

Lemma modules_left ms : (length (omap id ms) ≤ length ms)%nat.
Proof. induction ms as [|[m|] ms IH]; cbn; lia. Qed.

(** What a successful link from an entry function is. *)
Definition linked_from (entry : bytes) ms (c : module_t) (rest : list module_t) : Prop :=
  ∃ e others c1, only_entry entry ms e others ∧
    link_chain e (filter has_used others) = Some c1 ∧
    rounds c1 (filter (λ m, ¬ has_used m) others) c rest.

Lemma link_everything ms msg :
  ms ≠ [] →
  linkModules ms [] msg ≠ Err FDiverge ∧
  ∀ c left, (∃ msg', linkModules ms [] msg = Ok (Some c, left, msg')) ↔
    left = [] ∧ ∃ d l, ms = (Some <$> l) ++ [Some d] ∧ link_chain d l = Some c.
Proof.
  intros Hne. unfold linkModules. rewrite bool_decide_eq_true_2 by done. cbn [assertb res_bind].
  pose proof (app_removelast_last None Hne) as Hms.
  set (r := removelast ms) in *. set (d0 := last ms None) in *. clearbody r d0. subst ms.
  split.
  { destruct (link_all _ _ _) as [[[[c|] ms'] msg']|f] eqn:E; cbn; try done.
    intros [= ->]. by apply link_all_no_loop in E. }
  intros c left.
  transitivity (left = [] ∧ ∃ ms' msg', link_all d0 r msg = Ok (Some c, ms', msg')).
  { destruct (link_all d0 r msg) as [[[[c'|] ms'] msg']|f]; cbn; split.
    - intros (msg'' & [= -> <- _]). split; [done|]. by eexists _, _.
    - intros (-> & ? & ? & [= -> _ _]). by eexists.
    - by intros (? & ?).
    - by intros (_ & ? & ? & ?).
    - by intros (? & ?).
    - by intros (_ & ? & ? & ?). }
  destruct d0 as [d|].
  - rewrite link_all_spec. split; intros (-> & H); (split; [done|]).
    + destruct H as (l & -> & Hc). by exists d, l.
    + destruct H as (d' & l & [-> [= ->]]%app_inj_tail & Hc). by exists l.
  - split; intros (-> & H).
    + destruct H as (ms' & msg' & H). by destruct r.
    + by destruct H as (d' & l & [_ [=]]%app_inj_tail & Hc).
Qed.

Lemma link_from_entry ms a entry msg :
  ms ≠ [] →
  linkModules ms (a :: entry) msg ≠ Err FDiverge ∧
  ∀ c left, (∃ msg', linkModules ms (a :: entry) msg = Ok (Some c, left, msg')) ↔
    ∃ rest, left = Some <$> rest ∧ linked_from (a :: entry) ms c rest.
Proof.
  intros Hne. unfold linkModules. rewrite bool_decide_eq_true_2 by done. cbn [assertb res_bind].
  set (en := a :: entry). pose proof (find_entry_spec en ms) as HE.
  destruct (find_entry en None ms) as [r ms1]. destruct r as [[e|]|em].
  2,3: split; [done|]; intros c left; split; [by intros (? & ?)|];
    intros (rest & _ & e & others & c1 & Ho & _); apply HE in Ho as (? & ? & _); done.
  assert (∀ e' others, only_entry en ms e' others → e' = e ∧ others = omap id ms1) as Huniq.
  { intros e' others (ms' & [= <- <-] & Ho)%HE. done. }
  assert (only_entry en ms e (omap id ms1)) as Hent by (apply HE; by exists ms1). clear HE.
  destruct (link_wanted_spec containsUsedSymbols has_used
    (lit "Linking module containing '__attribute__((used))' symbols with composite failed:")
    e ms1 msg false ltac:(done)) as (ms2 & msg2 & b2 & -> & Hr).
  destruct (link_chain e _) as [c1|] eqn:Hc.
  2: { split; [done|]. intros c left. split; [by intros (? & ?)|].
       intros (rest & _ & e' & others & c1 & [-> ->]%Huniq & Hc' & _). by pose proof (eq_trans (eq_sym Hc) Hc'). }
  destruct (Hr ltac:(by eexists)) as (Hno & _).
  destruct (resolve_spec (S (length ms2)) c1 ms2 msg2) as [Hd Hrec].
  { pose proof (modules_left ms2). lia. }
  rewrite Hno in Hrec. split.
  { destruct (resolve _ _ _ _) as [[[[c2|] ms3] msg3]|f]; cbn; congruence. }
  intros c left.
  transitivity (∃ ms3 msg3, resolve (S (length ms2)) c1 ms2 msg2 = Ok (Some c, ms3, msg3) ∧ left = condense ms3).
  { destruct (resolve _ _ _ _) as [[[[c2|] ms3] msg3]|f]; cbn; split.
    - intros (? & [= -> <- _]). by eexists _, _.
    - intros (? & ? & [= -> <- _] & ->). by eexists.
    - by intros (? & ?).
    - by intros (? & ? & ? & _).
    - by intros (? & ?).
    - by intros (? & ? & ? & _). }
  split.
  - intros (ms3 & msg3 & H & ->). exists (omap id ms3). split; [done|].
    exists e, (omap id ms1), c1. split_and!; [done..|]. apply Hrec. by eexists _, _.
  - intros (rest & -> & e' & others & c1' & [-> ->]%Huniq & Hc' & HR).
    pose proof (eq_trans (eq_sym Hc) Hc') as [= <-]. apply Hrec in HR as (ms3 & msg3 & H & <-).
    by exists ms3, msg3.
Qed.

(** C35. Linking ends, and it returns a module exactly when the links it has to do
    succeed (and no assertion on the symbols of the composite fails), namely these.  Without an entry function, all modules are linked, in
    their order, into the last.  With one, the composite is the only module with a
    value of that name; into it are linked, in their order, the modules with an
    [llvm.used], and then in rounds, as long as there are any, the modules that
    define a symbol which was undefined in the composite when the round began: it
    is declared, not defined there, no alias, and not LLVM's.  No other module is
    linked: the others are left over, in their order.  If no module has a value of
    that name, nothing is linked. *)
Theorem linkModules_links ms entry msg :
  linkModules ms entry msg ≠ Err FDiverge ∧
  (∀ c left, (∃ msg', linkModules ms entry msg = Ok (Some c, left, msg')) ↔
    match entry with
    | [] => left = [] ∧ ∃ d l, ms = (Some <$> l) ++ [Some d] ∧ link_chain d l = Some c
    | _ => ∃ rest, left = Some <$> rest ∧ linked_from entry ms c rest
    end) ∧
  (ms ≠ [] → entry ≠ [] → (∀ m, m ∈ omap id ms → ¬ named entry m) →
    linkModules ms entry msg =
      Ok (None, ms, lit "Entry function '" ++ entry ++ lit "' not found in module.")).
Proof.
  destruct (decide (ms = [])) as [->|Hms].
  { unfold linkModules. rewrite bool_decide_eq_false_2 by (by intros []). cbn. split_and!; [done| |done].
    intros c left. split; [by intros (? & ?)|]. destruct entry; [by intros (_ & ? & [] & ? & _)|].
    by intros (? & _ & ? & ? & ? & ([] & ? & ? & _) & _). }
  destruct entry as [|a entry].
  - destruct (link_everything ms msg Hms). by split_and!.
  - destruct (link_from_entry ms a entry msg Hms) as [Hd Hr]. split_and!; [done..|].
    intros _ _ Hnone. unfold linkModules. rewrite bool_decide_eq_true_2 by done. cbn [assertb res_bind].
    by rewrite (find_entry_none _ _ Hnone).
Qed.
End link.

(** ** Mangled names, characterised *)
Lemma isdigit_code c : isdigit c = true → 48 ≤ Z.of_nat (nat_of_ascii c) ≤ 57.
Proof. unfold isdigit. intros [H1 H2]%andb_prop. apply Nat.leb_le in H1, H2. lia. Qed.

Lemma scan_digits_le n s : 0 ≤ n → n ≤ (scan_digits n s).1.
Proof.
  revert n. induction s as [|c s IH]; intros n Hn; cbn; [done|].
  destruct (isdigit c) eqn:Hc; [|done]. apply isdigit_code in Hc.
  etrans; [|apply IH]; unfold digit_val; lia.
Qed.

(** The sum overflows before the subtraction, so the last 48 values of an [int]
    are not reached. *)
Lemma eat_digits_spec n s :
  0 ≤ n ≤ INT_MAX - 48 →
  eat_digits n s = if (scan_digits n s).1 <=? INT_MAX - 48 then Ok (scan_digits n s) else Err FUB.
Proof.
  revert n. induction s as [|c s IH]; intros n Hn; cbn.
  { by rewrite (proj2 (Z.leb_le _ _)) by lia. }
  destruct (isdigit c) eqn:Hc; [|by rewrite (proj2 (Z.leb_le _ _)) by (cbn; lia)].
  apply isdigit_code in Hc. unfold next_number, digit_val.
  replace (10 * n + (Z.of_nat (nat_of_ascii c) - 48)) with (n * 10 + Z.of_nat (nat_of_ascii c) - 48) by lia.
  destruct (Z.leb_spec (n * 10 + Z.of_nat (nat_of_ascii c)) INT_MAX) as [Hle|Hgt].
  - rewrite (proj2 (Z.leb_le (n * 10) _)) by lia. cbn. apply IH. lia.
  - rewrite andb_false_r. cbn.
    pose proof (scan_digits_le (n * 10 + Z.of_nat (nat_of_ascii c) - 48) s ltac:(lia)).
    by rewrite (proj2 (Z.leb_gt _ _)) by lia.
Qed.

Lemma eatNumber_to_dec n rest :
  0 ≤ n → (∀ c s, rest = c :: s → isdigit c = false) →
  eatNumber (to_dec n ++ rest) = if n <=? INT_MAX - 48 then Ok (n, rest) else Err FUB.
Proof.
  intros Hn Hrest. unfold eatNumber. rewrite eat_digits_spec by (vm_compute; split; congruence).
  rewrite scan_to_dec by done.
  assert (scan_digits n rest = (n, rest)) as ->.
  { destruct rest as [|c s]; [done|]. cbn. by rewrite (Hrest c s eq_refl). }
  cbn [fst]. destruct (n <=? INT_MAX - 48); [|done]. cbn [res_bind].
  rewrite length_app. destruct (to_dec n) eqn:E; [by apply to_dec_ne in E|].
  by rewrite (proj2 (Nat.ltb_lt _ _)) by (cbn; lia).
Qed.

(** C39. A mangled name is read back: from [_Z], the decimal length of a name and the
    name, whatever follows, the name is returned.  For any number: zero and one
    larger than what follows give the empty name, and one more than [INT_MAX - 48]
    is undefined behaviour, although an [int] can hold the next 48. *)
Theorem getUnmangledName_reads n s :
  0 ≤ n → (∀ c t, s = c :: t → isdigit c = false) →
  getUnmangledName (lit "_Z" ++ to_dec n ++ s) =
    (if n <=? INT_MAX - 48 then
       Ok (if (n =? 0) || (Z.of_nat (length s) <? n) then [] else take (Z.to_nat n) s)
     else Err FUB) ∧
  (∀ name rest, s = name ++ rest → name ≠ [] → n = Z.of_nat (length name) → n ≤ INT_MAX - 48 →
     getUnmangledName (lit "_Z" ++ to_dec n ++ s) = Ok name).
Proof.
  intros Hn Hd.
  assert (H : getUnmangledName (lit "_Z" ++ to_dec n ++ s) =
    if n <=? INT_MAX - 48 then
       Ok (if (n =? 0) || (Z.of_nat (length s) <? n) then [] else take (Z.to_nat n) s)
     else Err FUB).
  { unfold getUnmangledName, eatTerm. rewrite starts_with_app.
    change (drop (length (lit "_Z")) (lit "_Z" ++ to_dec n ++ s)) with (to_dec n ++ s).
    unfold eatLengthPrefixedName. rewrite eatNumber_to_dec by done.
    destruct (n <=? INT_MAX - 48); [|done]. cbn [res_bind].
    replace (n <=? 0) with (n =? 0) by (destruct (Z.eqb_spec n 0), (Z.leb_spec n 0); lia || done).
    by destruct ((n =? 0) || _). }
  split; [done|]. intros name rest -> Hne Hlen Hmax. rewrite H, (proj2 (Z.leb_le _ _)) by done.
  rewrite length_app, (proj2 (Z.eqb_neq _ _)), (proj2 (Z.ltb_ge _ _)) by (destruct name; cbn in *; lia || done).
  cbn. by rewrite Hlen, Nat2Z.id, take_app_length.
Qed.

Lemma getUnmangledName_reads_witness :
  getUnmangledName (lit "_Z4kernPfi") = Ok (lit "kern").
Proof.
  refine (proj2 (getUnmangledName_reads 4 (lit "kernPfi") _ _) (lit "kern") (lit "Pfi") _ _ _ _); try done.
  by intros c t [= <- _].
Defined.

(** A basic type is recognised by each of its spellings, whatever follows, and by
    nothing else. *)
Lemma parseBasicTypeName_spec s :
  (∀ spelling ty rest, (spelling, ty) ∈ spellings → s = spelling ++ rest →
     parseBasicTypeName s = (Some ty, rest)) ∧
  ((∀ spelling ty, (spelling, ty) ∈ spellings → starts_with spelling s = false) →
     parseBasicTypeName s = (None, s)).
Proof.
  split.
  - intros spelling ty rest Hin ->. unfold spellings in Hin.
    repeat (apply elem_of_cons in Hin as [[= -> ->]|Hin]; [done|]). by apply elem_of_nil in Hin.
  - intros H. unfold parseBasicTypeName. induction spellings as [|[sp ty] l IH]; [done|]. cbn.
    rewrite (H sp ty) by left. apply IH. intros sp' ty' Hin. by eapply H; right.
Qed.

(** ** An instance: a module is its name and its functions, linking appends *)
Section example.
Definition example_value (l : list global_value) (s : bytes) : option global_value :=
  let same gv := bool_decide (gv_name gv = s) in
  match List.find (λ gv, same gv && negb (isDeclaration gv)) l with
  | Some gv => Some gv
  | None => List.find same l
  end.

Definition example_llvm : LlvmModules := {|
  module_t := bytes * list global_value;
  getModuleIdentifier := fst;
  module_functions := snd;
  module_globals _ := [];
  module_aliases _ := [];
  getNamedValue m := example_value m.2;
  linker_link d m := Some (d.1, d.2 ++ m.2);
|}.

Definition example_def (s : string) : global_value := GlobalValue (lit s) false false false.
Definition example_decl (s : string) : global_value := GlobalValue (lit s) true false false.

(** The entry needs [f], which needs [g]; nobody needs [h]. *)
Definition example_modules : list (option (bytes * list global_value)) :=
  [Some (lit "g.bc", [example_def "g"]); None;
   Some (lit "main.bc", [example_def "kern"; example_decl "f"; example_decl "llvm.trap"]);
   Some (lit "used.bc", [example_def "llvm.used"]);
   Some (lit "h.bc", [example_def "h"; example_decl "g"]);
   Some (lit "f.bc", [example_def "f"; example_decl "g"])].
End example.

Lemma undefined_symbols_exact_witness :
  let m := (lit "main.bc", [example_def "kern"; example_decl "f"; example_decl "llvm.trap"]) in
  match GetAllUndefinedSymbols (LL := example_llvm) m with
  | Ok U => U = {[lit "f"]} ∧ (lit "f" ∈ U → ∀ t, lit "f" ≠ lit "llvm." ++ t)
  | Err _ => False
  end.
Proof.
  intros m. assert (GetAllUndefinedSymbols (LL := example_llvm) m = Ok {[lit "f"]}) as E by (vm_compute; reflexivity).
  rewrite E. split; [done|]. intros Hin t Et.
  apply (proj1 (undefined_symbols_exact (LL := example_llvm) m _ E (lit "f")) Hin). by exists t.
Defined.

Lemma linkModules_links_witness :
  match linkModules (LL := example_llvm) example_modules (lit "kern") [] with
  | Ok (Some c, others, _) =>
      others = [Some (lit "h.bc", [example_def "h"; example_decl "g"])] ∧
      ∃ rest, others = Some <$> rest ∧ linked_from (LL := example_llvm) (lit "kern") example_modules c rest
  | _ => False
  end.
Proof.
  assert (match linkModules (LL := example_llvm) example_modules (lit "kern") [] with
          | Ok (Some c, others, _) => others = [Some (lit "h.bc", [example_def "h"; example_decl "g"])]
          | _ => False
          end) as Hl by (vm_compute; reflexivity).
  destruct (linkModules (LL := example_llvm) example_modules (lit "kern") []) as [[[[c|] others] msg]|] eqn:E; [|destruct Hl|destruct Hl].
  split; [exact Hl|]. destruct (linkModules_links (LL := example_llvm) example_modules (lit "kern") []) as (_ & H & _).
  apply (proj1 (H c others)). exists msg. exact E.
Defined.
