(* ===== verification/ConfigReceiver.v ===== *)
(** * Signed configurations

    [src/src/config_receiver.cc]: a receiver of configurations published on a ZeroMQ
    socket, which returns one only if its signature verifies.  The build leaves the
    file out.  ZeroMQ, nlohmann's JSON and OpenSSL are classes. *)
From S2P Require Import Prelude StdString.

(** What the code uses of nlohmann's [json]. *)
Class JsonLibrary := {
  json : Type;
  (** [json::parse]: the value, or the message of the exception *)
  json_parse : bytes → json + bytes;
  (** the member of that name, if there is one and it is a string *)
  json_string_member : json → bytes → option bytes;
  json_erase : json → bytes → json;
  (** [dump()]: the text, or the message of the exception *)
  json_dump : json → bytes + bytes;
}.

(** What it uses of OpenSSL; [int] results as they are. *)
Class OpenSsl := {
  pkey : Type;
  bio_new_mem_buf : bytes → bool;
  pem_read_pubkey : bytes → option pkey;
  err_error_string : bytes;
  (** what successive calls of [BIO_read] on the base64 filter put in the buffer,
      up to the first one that returns nothing or an error *)
  base64_reads : bytes → list bytes;
  md_ctx_new : bool;
  digest_verify_init : pkey → Z;
  digest_verify_update : bytes → Z;
  digest_verify_final : pkey → bytes → bytes → Z;
}.

Section receiver.
Context `{JL : JsonLibrary} `{SSL : OpenSsl}.

Definition INT_MAX : Z := 2 ^ 31 - 1.

(** [init_public_key]; the constructor keeps the key. *)
Definition init_public_key (public_key_pem : bytes) : res pkey :=
  if negb (bio_new_mem_buf public_key_pem) then
    Err (FThrow (lit "Failed to create BIO for public key"))
  else
    match pem_read_pubkey public_key_pem with
    | None => Err (FThrow (lit "Failed to load public key: " ++ err_error_string))
    | Some public_key => Ok public_key
    end.

(** One turn of the decoding loop: [std::copy] past the end of the vector would be
    undefined. *)
Definition decode_step (st : bytes * Z) (buffer : bytes) : res (bytes * Z) :=
  let '(signature, decoded_len) := st in
  let read_len := Z.of_nat (length buffer) in
  let end_ := decoded_len + read_len in
  if INT_MAX <? end_ then Err FUB
  else
    let signature :=
      if Z.of_nat (length signature) <? end_ then resize (Z.to_nat end_) nul signature else signature in
    if Z.of_nat (length signature) <? end_ then Err FUB
    else Ok (splice (Z.to_nat decoded_len) buffer signature, end_).

Definition decode_signature (signature_b64 : bytes) : res (bytes * Z) :=
  let! '(signature, decoded_len) :=
    res_fold decode_step (resize (length signature_b64) nul [], 0) (base64_reads signature_b64) in
  Ok (resize (Z.to_nat decoded_len) nul signature, decoded_len).

Definition verify_signature (public_key : pkey) (config : json) (signature_b64 : bytes) : res bool :=
  match json_dump config with
  | inr what => Err (FThrow what)
  | inl config_str =>
      let! '(signature, decoded_len) := decode_signature signature_b64 in
      if decoded_len =? 0 then Err (FThrow (lit "Base64 decode failed"))
      else if negb md_ctx_new then Err (FThrow (lit "Failed to create EVP_MD_CTX"))
      else if negb (digest_verify_init public_key =? 0) && negb (digest_verify_update config_str =? 0)
      then Ok (digest_verify_final public_key config_str signature =? 1)
      else Ok false
  end.

(** [receive_config]: [message] is what the socket delivers, part by part. *)
Definition receive_config (public_key : pkey) (message : option (list bytes)) : res json :=
  match message with
  | None => Err (FThrow (lit "Failed to receive message"))
  | Some parts =>
      let msg_str := foldl (λ msg part, msg ++ part) [] parts in
      match json_parse msg_str with
      | inr what => Err (FThrow (lit "JSON parsing failed: " ++ what))
      | inl config =>
          match json_string_member config (lit "signature") with
          | None => Err (FThrow (lit "Missing or invalid signature in JSON"))
          | Some signature_b64 =>
              let config := json_erase config (lit "signature") in
              let! verified := verify_signature public_key config signature_b64 in
              if verified : bool then Ok config
              else Err (FThrow (lit "Signature verification failed"))
          end
      end
  end.

(** ** The decoding loop *)
Lemma decode_step_spec signature n buffer st :
  (n ≤ length signature)%nat → decode_step (signature, Z.of_nat n) buffer = Ok st →
  ∃ signature', st = (signature', Z.of_nat (n + length buffer)) ∧
    (n + length buffer ≤ length signature')%nat ∧
    take (n + length buffer) signature' = take n signature ++ buffer.
Proof.
  intros Hn. unfold decode_step. set (e := Z.of_nat n + Z.of_nat (length buffer)).
  destruct (INT_MAX <? e); [done|].
  set (s := if Z.of_nat (length signature) <? e then _ else signature).
  assert (n + length buffer ≤ length s ∧ take n s = take n signature)%nat as [Hs Ht].
  { unfold s, e. destruct (Z.ltb_spec (Z.of_nat (length signature)) (Z.of_nat n + Z.of_nat (length buffer)));
      [|split; [lia|done]].
    rewrite length_resize. split; [lia|]. rewrite take_resize_le by lia.
    by rewrite resize_le by lia. }
  rewrite (proj2 (Z.ltb_ge _ _)) by (unfold e; lia). intros [= <-].
  exists (splice n buffer s). rewrite Nat2Z.id. split; [f_equal; unfold e; lia|].
  unfold splice. rewrite !length_app, length_take, length_drop. split; [lia|].
  rewrite (assoc_L (++)), take_app_le by (rewrite length_app, length_take; lia).
  by rewrite take_ge, Ht by (rewrite length_app, length_take; lia).
Qed.

Lemma decode_loop chunks signature n st :
  (n ≤ length signature)%nat →
  res_fold decode_step (signature, Z.of_nat n) chunks = Ok st →
  ∃ signature', st = (signature', Z.of_nat (n + length (concat chunks))) ∧
    take (n + length (concat chunks)) signature' = take n signature ++ concat chunks.
Proof.
  revert signature n. induction chunks as [|buffer chunks IH]; intros signature n Hn; cbn.
  - intros [= <-]. exists signature. rewrite Nat.add_0_r, app_nil_r. done.
  - intros (st1 & H1 & H2)%res_bind_Ok.
    destruct (decode_step_spec _ _ _ _ Hn H1) as (s1 & -> & Hl & Ht).
    destruct (IH _ _ Hl H2) as (s2 & -> & Ht2). exists s2.
    rewrite length_app, Nat.add_assoc. split; [done|]. by rewrite Ht2, Ht, (assoc_L (++)).
Qed.

Lemma decode_signature_spec b64 signature n :
  decode_signature b64 = Ok (signature, n) →
  signature = concat (base64_reads b64) ∧ n = Z.of_nat (length signature).
Proof.
  unfold decode_signature. intros ([s m] & H & [= <- <-])%res_bind_Ok.
  destruct (decode_loop _ _ 0 _ (Nat.le_0_l _) H) as (s' & [= -> ->] & Ht). cbn in Ht.
  rewrite Nat2Z.id. cbn.
  rewrite take_0 in Ht. cbn in Ht.
  assert (length (concat (base64_reads b64)) ≤ length s')%nat as Hle.
  { apply (f_equal length) in Ht. rewrite length_take in Ht. lia. }
  rewrite resize_le by done. by rewrite Ht.
Qed.

Lemma decode_step_ok signature n buffer :
  (n ≤ length signature)%nat → Z.of_nat (n + length buffer) ≤ INT_MAX →
  is_Ok (decode_step (signature, Z.of_nat n) buffer).
Proof.
  intros Hn Hmax. unfold decode_step.
  rewrite (proj2 (Z.ltb_ge _ _)) by lia. set (s := if _ <? _ then _ else signature).
  assert (n + length buffer ≤ length s)%nat as Hs.
  { unfold s. destruct (Z.ltb_spec (Z.of_nat (length signature)) (Z.of_nat n + Z.of_nat (length buffer)));
      [rewrite length_resize; lia|lia]. }
  rewrite (proj2 (Z.ltb_ge _ _)) by lia. by eexists.
Qed.

Lemma decode_loop_ok chunks signature n :
  (n ≤ length signature)%nat → Z.of_nat (n + length (concat chunks)) ≤ INT_MAX →
  is_Ok (res_fold decode_step (signature, Z.of_nat n) chunks).
Proof.
  revert signature n. induction chunks as [|buffer chunks IH]; intros signature n Hn; cbn [res_fold concat]; [by eexists|].
  rewrite length_app. intros Hmax.
  destruct (decode_step_ok signature n buffer Hn ltac:(lia)) as [st Hst]. rewrite Hst. cbn [res_bind].
  destruct (decode_step_spec _ _ _ _ Hn Hst) as (s1 & -> & Hl & _). apply IH; [done|lia].
Qed.

(** No chunk is lost, and none is written outside the vector. *)
Lemma decode_signature_ok b64 :
  Z.of_nat (length (concat (base64_reads b64))) ≤ INT_MAX →
  decode_signature b64 = Ok (concat (base64_reads b64), Z.of_nat (length (concat (base64_reads b64)))).
Proof.
  intros Hmax. destruct (decode_signature b64) as [[s n]|f] eqn:E.
  - by destruct (decode_signature_spec _ _ _ E) as [-> ->].
  - unfold decode_signature in E.
    destruct (decode_loop_ok (base64_reads b64) (resize (length b64) nul []) 0 (Nat.le_0_l _) Hmax) as [[s n] Hok].
    change (Z.of_nat 0) with 0 in Hok. by rewrite Hok in E.
Qed.

(** OpenSSL accepts the signature of a text under a key. *)
Definition accepted (public_key : pkey) (text signature : bytes) : Prop :=
  md_ctx_new = true ∧ digest_verify_init public_key ≠ 0 ∧ digest_verify_update text ≠ 0 ∧
  digest_verify_final public_key text signature = 1.

(** Where a message is a JSON value with a signature of the rest of it. *)
Definition signed_by (public_key : pkey) (parts : list bytes) (config : json) : Prop :=
  ∃ parsed b64 text,
    json_parse (concat parts) = inl parsed ∧
    json_string_member parsed (lit "signature") = Some b64 ∧
    config = json_erase parsed (lit "signature") ∧ json_dump config = inl text ∧
    concat (base64_reads b64) ≠ [] ∧ accepted public_key text (concat (base64_reads b64)).

Lemma parts_concat (parts : list bytes) : foldl (λ msg part, msg ++ part) [] parts = concat parts.
Proof.
  assert (∀ acc, foldl (λ msg part : bytes, msg ++ part) acc parts = acc ++ concat parts) as H; [|apply H].
  induction parts as [|p parts IH]; intros acc; cbn; [by rewrite app_nil_r|].
  by rewrite IH, (assoc_L (++)).
Qed.

Lemma verify_signature_true public_key config b64 :
  verify_signature public_key config b64 = Ok true →
  ∃ text, json_dump config = inl text ∧ concat (base64_reads b64) ≠ [] ∧
    accepted public_key text (concat (base64_reads b64)).
Proof.
  unfold verify_signature. destruct (json_dump config) as [text|what]; [|done].
  intros ([s n] & Hs & H)%res_bind_Ok. destruct (decode_signature_spec _ _ _ Hs) as [-> ->].
  destruct (Z.eqb_spec (Z.of_nat (length (concat (base64_reads b64)))) 0) as [|Hne]; [done|].
  destruct md_ctx_new eqn:Hc; [|done]. cbn in H.
  destruct (Z.eqb_spec (digest_verify_init public_key) 0); [done|].
  destruct (Z.eqb_spec (digest_verify_update text) 0); [done|]. injection H as H%Z.eqb_eq.
  exists text. split; [done|]. split; [by intros E; rewrite E in Hne|]. done.
Qed.

(** C36. A configuration is returned exactly if the parts of the message together are
    JSON with a string member [signature], whose base64 decoding, all chunks of it
    in their order, is not empty and is accepted as a signature of the text of what
    is returned: the configuration without that member.  (For the converse the
    decoded signature must fit an [int].) *)
Theorem config_is_signed public_key message config :
  (receive_config public_key message = Ok config →
     ∃ parts, message = Some parts ∧ signed_by public_key parts config) ∧
  (∀ parts, message = Some parts → signed_by public_key parts config →
     (∀ b64, Z.of_nat (length (concat (base64_reads b64))) ≤ INT_MAX) →
     receive_config public_key message = Ok config).
Proof.
  split.
  - unfold receive_config. destruct message as [parts|]; [|done]. rewrite parts_concat.
    destruct (json_parse (concat parts)) as [parsed|] eqn:Hp; [|done].
    destruct (json_string_member parsed (lit "signature")) as [b64|] eqn:Hm; [|done].
    intros ([] & Hv & H)%res_bind_Ok; [|done]. injection H as <-.
    exists parts. split; [done|]. destruct (verify_signature_true _ _ _ Hv) as (text & Ht & Hne & Hacc).
    by exists parsed, b64, text.
  - intros parts -> (parsed & b64 & text & Hp & Hm & -> & Ht & Hne & Hc & Hi & Hu & Hf) Hmax.
    unfold receive_config. rewrite parts_concat, Hp, Hm. unfold verify_signature.
    rewrite Ht, (decode_signature_ok _ (Hmax b64)). cbn [res_bind].
    rewrite (proj2 (Z.eqb_neq _ _)) by (by destruct (concat (base64_reads b64))).
    rewrite Hc, Hf. cbn.
    by rewrite (proj2 (Z.eqb_neq _ _) Hi), (proj2 (Z.eqb_neq _ _) Hu).
Qed.
End receiver.

(** ** An instance: the text after the signature, which is the text reversed *)
Section example.
Definition example_json : JsonLibrary := {|
  json := bytes * bytes;
  json_parse s := inl (take 3 s, drop 3 s);
  json_string_member j _ := Some j.1;
  json_erase j _ := ([], j.2);
  json_dump j := inl j.2;
|}.

Definition example_ssl : OpenSsl := {|
  pkey := unit;
  bio_new_mem_buf _ := true;
  pem_read_pubkey _ := Some ();
  err_error_string := [];
  base64_reads s := [take 2 s; drop 2 (take 3 s)];
  md_ctx_new := true;
  digest_verify_init _ := 1;
  digest_verify_update _ := 1;
  digest_verify_final _ text s := if decide (s = reverse text) then 1 else 0;
|}.
End example.

Lemma config_is_signed_witness :
  receive_config (JL := example_json) (SSL := example_ssl) () (Some [lit "cb"; lit "aabc"])
    = Ok ([], lit "abc") ∧
  ∃ parts, Some [lit "cb"; lit "aabc"] = Some parts ∧
    signed_by (JL := example_json) (SSL := example_ssl) () parts ([], lit "abc").
Proof.
  assert (receive_config (JL := example_json) (SSL := example_ssl) () (Some [lit "cb"; lit "aabc"])
    = Ok ([], lit "abc")) as E by (vm_compute; reflexivity).
  split; [exact E|].
  exact (proj1 (config_is_signed (JL := example_json) (SSL := example_ssl) () _ _) E).
Defined.
