(* ===== verification/PyHandler.v ===== *)
(** * The Python message handler

    [src/src/pyHandler.cc] calls functions of a Python module through the C API.  The
    API is not part of the program: a function is modelled by the calls it makes,
    with the interpreter's answers as arguments.  What each call does to the
    references the C++ code owns is what the API's documentation says: a new
    reference is owned by the caller, [PyTuple_SetItem] takes one over from it,
    [PyDict_SetItemString] does not, [Py_DECREF] gives one back. *)
From S2P Require Import Prelude StdString.

(** ** Calls *)
Inductive py_call :=
| Py_Initialize
| Py_Finalize
| PyErr_Print
| PyImport_ImportModule (name : bytes) (result : option Z)
| PyObject_GetAttrString (module : Z) (attribute : bytes) (result : option Z)
| PyDict_New (result : option Z)
| PyLong_FromUnsignedLong (value : Z) (result : option Z)
| PyDict_SetItemString (dict : Z) (key : bytes) (value : option Z)
| PyTuple_New (size : Z) (result : option Z)
| PyTuple_SetItem (tuple : option Z) (position item : Z)
| PyObject_CallObject (function : Z) (arguments : option Z) (result : option Z)
| Py_DECREF (object : Z).

(** What a function did before it returned, threw, or did something undefined. *)
Definition traced (A : Type) : Type := list py_call * res A.

(** ** The handler *)
Record pythonMessageHandler := PythonMessageHandler {
  pModule_ : Z;
  pAddressFunc_ : Z;
  pTimingFunc_ : Z;
}.

(** The function of that name: an attribute that is callable. *)
Record attribute := Attribute { at_object : option Z; at_callable : bool }.

Definition find_function (module : Z) (name : bytes) (a : attribute) (calls : list py_call)
    : list py_call * option Z :=
  let calls := calls ++ [PyObject_GetAttrString module name (at_object a)] in
  match at_object a with
  | Some f => if at_callable a then (calls, Some f) else (calls ++ [PyErr_Print], None)
  | None => (calls ++ [PyErr_Print], None)
  end.

(** The constructor; [running], [starts]: [Py_IsInitialized] before and after
    [Py_Initialize]. *)
Definition new_pythonMessageHandler (module_name : bytes) (running starts : bool) (module : option Z)
    (address_function timing_function : attribute) : traced pythonMessageHandler :=
  let calls := if running then [] else [Py_Initialize] in
  if negb running && negb starts then (calls, Err (FThrow (lit "Python initialization failed!")))
  else
    let calls := calls ++ [PyImport_ImportModule (c_str module_name) module] in
    match module with
    | None => (calls ++ [PyErr_Print; Py_Finalize], Err (FThrow (lit "Failed to load Python module!")))
    | Some m =>
        match find_function m (lit "handleAddressMessage") address_function calls with
        | (calls, None) => (calls, Err (FThrow (lit "Failed to find handleAddressMessage!")))
        | (calls, Some f) =>
            match find_function m (lit "handleTimeMessage") timing_function calls with
            | (calls, None) => (calls, Err (FThrow (lit "Failed to find handleTimeMessage!")))
            | (calls, Some g) => (calls, Ok (PythonMessageHandler m f g))
            end
        end
    end.

(** The destructor; a handler that was built has no null member. *)
Definition destroy_handler (h : pythonMessageHandler) : list py_call :=
  [Py_DECREF (pAddressFunc_ h); Py_DECREF (pTimingFunc_ h); Py_DECREF (pModule_ h); Py_Finalize].

(** ** Messages *)
Record py_answers := PyAnswers {
  an_dict : option Z;
  an_number : option Z;
  an_tuple : option Z;
  an_result : option Z;
}.

(** Both kinds of message: a dictionary with one number, as the only argument.  A
    null value for the dictionary and [Py_DECREF] of a null pointer are undefined. *)
Definition send_message (function : Z) (key what : bytes) (value : Z) (an : py_answers) : traced unit :=
  match an_dict an with
  | None => ([PyDict_New None; PyErr_Print],
             Err (FThrow (lit "Failed to create python dictionary in " ++ what)))
  | Some pDict =>
      let calls :=
        [PyDict_New (Some pDict);
         PyLong_FromUnsignedLong value (an_number an);
         PyDict_SetItemString pDict key (an_number an);
         PyTuple_New 1 (an_tuple an);
         PyTuple_SetItem (an_tuple an) 0 pDict;
         PyObject_CallObject function (an_tuple an) (an_result an)] ++
        match an_result an with None => [PyErr_Print] | Some pValue => [Py_DECREF pValue] end in
      match an_number an, an_tuple an with
      | Some _, Some pArgs => (calls ++ [Py_DECREF pArgs; Py_DECREF pDict], Ok ())
      | _, _ => (calls, Err FUB)
      end
  end.

Definition addressMessage (h : pythonMessageHandler) (address : Z) (an : py_answers) : traced unit :=
  send_message (pAddressFunc_ h) (lit "address") (lit "addressMessage") address an.
Definition timingMessage (h : pythonMessageHandler) (time : Z) (an : py_answers) : traced unit :=
  send_message (pTimingFunc_ h) (lit "elapsed_time") (lit "timingMessage") time an.

(** ** Ownership, as documented *)
Definition one (o x : Z) : Z := if decide (x = o) then 1 else 0.
Definition one_of (o : Z) (x : option Z) : Z := match x with Some x => one o x | None => 0 end.

(** How a call changes the number of references to [o] the code owns. *)
Definition owned_by_call (o : Z) (c : py_call) : Z :=
  match c with
  | PyImport_ImportModule _ r | PyObject_GetAttrString _ _ r | PyDict_New r
  | PyLong_FromUnsignedLong _ r | PyTuple_New _ r | PyObject_CallObject _ _ r => one_of o r
  | PyTuple_SetItem _ _ item => - one o item
  | Py_DECREF object => - one o object
  | Py_Initialize | Py_Finalize | PyErr_Print | PyDict_SetItemString _ _ _ => 0
  end.

Definition owned (o : Z) (calls : list py_call) : Z := foldr (λ c n, owned_by_call o c + n) 0 calls.

Lemma owned_app o calls calls' : owned o (calls ++ calls') = owned o calls + owned o calls'.
Proof.
  unfold owned. induction calls as [|c calls IH]; cbn [app foldr]; [lia|]. rewrite IH. lia.
Qed.

Lemma send_message_owned function key what value an calls :
  send_message function key what value an = (calls, Ok ()) →
  ∃ d n, an_dict an = Some d ∧ an_number an = Some n ∧ ∀ o, owned o calls = one o n - one o d.
Proof.
  unfold send_message. destruct (an_dict an) as [d|]; [|done].
  destruct (an_number an) as [n|]; [|done]. destruct (an_tuple an) as [t|]; [|done]. intros [= <-].
  exists d, n. split_and!; [done..|]. intros o. destruct (an_result an) as [v|]; cbn; lia.
Qed.

(** The messages a handler was given. *)
Inductive message_kind := AddressMessage (address : Z) | TimingMessage (time : Z).
Definition handle_message (h : pythonMessageHandler) (m : message_kind) (an : py_answers) : traced unit :=
  match m with AddressMessage a => addressMessage h a an | TimingMessage t => timingMessage h t an end.

Fixpoint handle_messages (h : pythonMessageHandler) (ms : list (message_kind * py_answers)) : traced unit :=
  match ms with
  | [] => ([], Ok ())
  | (m, an) :: ms' =>
      match handle_message h m an with
      | (calls, Ok _) => let '(calls', r) := handle_messages h ms' in (calls ++ calls', r)
      | (calls, Err f) => (calls, Err f)
      end
  end.

Definition dicts (ms : list (message_kind * py_answers)) : list Z := omap (λ m, an_dict m.2) ms.
Definition numbers (ms : list (message_kind * py_answers)) : list Z := omap (λ m, an_number m.2) ms.
Definition occurrences (o : Z) (l : list Z) : Z := foldr (λ x n, one o x + n) 0 l.

Lemma handle_messages_owned h ms calls :
  handle_messages h ms = (calls, Ok ()) →
  ∀ o, owned o calls = occurrences o (numbers ms) - occurrences o (dicts ms).
Proof.
  revert calls. induction ms as [|[m an] ms IH]; intros calls; cbn [handle_messages].
  - by intros [= <-].
  - destruct (handle_message h m an) as [c [[]|f]] eqn:Hm; [|done].
    destruct (handle_messages h ms) as [c' r] eqn:Hms. intros [= <- ->] o.
    assert (∃ d n, an_dict an = Some d ∧ an_number an = Some n ∧ ∀ o, owned o c = one o n - one o d)
      as (d & n & Hd & Hn & Hc) by (destruct m; by eapply send_message_owned).
    rewrite owned_app, (IH _ eq_refl o), Hc. unfold numbers, dicts. cbn. rewrite Hn, Hd.
    unfold occurrences. cbn. lia.
Qed.

(** C32. The references of a handler that was built, given any messages and destroyed:
    those to the module and its two functions are given back; but each message,
    whether the Python function succeeds or not, gives back one reference to its
    dictionary more than it owns, since the tuple took it over, and keeps one to
    its number, which the dictionary did not take over. *)
Theorem handler_references module_name running starts module fa ft h calls ms calls' :
  new_pythonMessageHandler module_name running starts module fa ft = (calls, Ok h) →
  handle_messages h ms = (calls', Ok ()) →
  ∀ o, owned o (calls ++ calls' ++ destroy_handler h) =
       occurrences o (numbers ms) - occurrences o (dicts ms).
Proof.
  intros Hnew Hms o. rewrite !owned_app, (handle_messages_owned _ _ _ Hms o).
  assert (owned o calls + owned o (destroy_handler h) = 0) as E; [|lia].
  unfold new_pythonMessageHandler, find_function in Hnew.
  destruct module as [m|]; [|by destruct running, starts].
  destruct fa as [[f|] []], ft as [[g|] []]; destruct running, starts; simplify_eq/=; unfold owned; cbn; lia.
Qed.

(** A constructor that fails after the import keeps what it got: no destructor runs. *)
Lemma failed_handler_keeps module_name running starts m fa ft calls what :
  new_pythonMessageHandler module_name running starts (Some m) fa ft = (calls, Err (FThrow what)) →
  (running || starts) = true →
  ∀ o, owned o calls = one o m + one_of o (at_object fa) +
    (if at_callable fa && bool_decide (is_Some (at_object fa)) then one_of o (at_object ft) else 0).
Proof.
  unfold new_pythonMessageHandler, find_function. intros H Hr o.
  destruct fa as [[f|] []], ft as [[g|] []]; destruct running, starts; simplify_eq/=; unfold owned; cbn; lia.
Qed.

(** Every handler's destructor stops the one interpreter, also for the others. *)
Definition interpreter_after (running : bool) (calls : list py_call) : bool :=
  foldl (λ r c, match c with Py_Initialize => true | Py_Finalize => false | _ => r end) running calls.

Lemma destructor_stops_interpreter running h : interpreter_after running (destroy_handler h) = false.
Proof. done. Qed.

Lemma handler_references_witness :
  let '(calls, r) := new_pythonMessageHandler (lit "m") false true (Some 1) (Attribute (Some 2) true)
                       (Attribute (Some 3) true) in
  let '(calls', _) := handle_messages (PythonMessageHandler 1 2 3)
    [(AddressMessage 64, PyAnswers (Some 10) (Some 11) (Some 12) (Some 13));
     (TimingMessage 5, PyAnswers (Some 20) (Some 21) (Some 22) None)] in
  r = Ok (PythonMessageHandler 1 2 3) ∧
  owned 10 (calls ++ calls' ++ destroy_handler (PythonMessageHandler 1 2 3)) = -1 ∧
  owned 1 (calls ++ calls' ++ destroy_handler (PythonMessageHandler 1 2 3)) = 0.
Proof.
  pose proof (handler_references (lit "m") false true (Some 1) (Attribute (Some 2) true)
    (Attribute (Some 3) true) (PythonMessageHandler 1 2 3) _
    [(AddressMessage 64, PyAnswers (Some 10) (Some 11) (Some 12) (Some 13));
     (TimingMessage 5, PyAnswers (Some 20) (Some 21) (Some 22) None)] _ eq_refl eq_refl) as H.
  split; [reflexivity|]. rewrite !H. split; reflexivity.
Defined.
