(* ===== verification/HostHelpers.v ===== *)
(** * Files and clocks of the host

    [isFileNewer] ([src/src/utils.cc]), [getRecentFiles] ([src/src/reconfigure.cc]) and
    [timeHelper] ([src/src/timehelper.h]).  What the file system and the clocks
    answer are arguments; times are counts of nanoseconds of the clock they are
    read from. *)
From S2P Require Import Prelude StdString.

(** ** [isFileNewer]: [write_time] of the file clock, unless it cannot be read *)
Definition isFileNewer (timestamp : Z) (write_time : option Z) (file_now system_now : Z) : bool :=
  match write_time with
  | Some fileTime => timestamp <? fileTime - file_now + system_now
  | None => false
  end.

(** Read at one instant, the two clocks cancel: the file's time on the system
    clock is compared. *)
Lemma isFileNewer_spec timestamp fileTime file_now epoch :
  isFileNewer timestamp (Some fileTime) file_now (file_now + epoch) = true ↔ timestamp < fileTime + epoch.
Proof. unfold isFileNewer. rewrite Z.ltb_lt. lia. Qed.

(** ** [getRecentFiles] *)
Inductive directory_entry :=
| EntryError
| Entry (filename : bytes) (regular : option bool) (write_time : option Z).

(** [duration_cast<seconds>] truncates. *)
Definition to_seconds (ns : Z) : Z := Z.quot ns (10 ^ 9).

(** The loop; an exception of the file system ends it, and what was found is
    returned. *)
Fixpoint recent_files (timeThreshold : Z) (entries : list directory_entry) : list bytes :=
  match entries with
  | [] | EntryError :: _ | Entry _ None _ :: _ | Entry _ (Some true) None :: _ => []
  | Entry _ (Some false) _ :: entries' => recent_files timeThreshold entries'
  | Entry filename (Some true) (Some lastWriteTime) :: entries' =>
      if timeThreshold <? to_seconds lastWriteTime
      then filename :: recent_files timeThreshold entries' else recent_files timeThreshold entries'
  end.

Definition getRecentFiles (directory : option (list directory_entry)) (timeThreshold : Z) : list bytes :=
  match directory with None => [] | Some entries => recent_files timeThreshold entries end.

Definition is_recent (timeThreshold : Z) (e : directory_entry) : option bytes :=
  match e with
  | Entry filename (Some true) (Some t) => if timeThreshold <? to_seconds t then Some filename else None
  | _ => None
  end.
Definition readable (e : directory_entry) : Prop :=
  match e with Entry _ (Some true) (Some _) | Entry _ (Some false) _ => True | _ => False end.

(** The readable entries in front are filtered; the rest is not looked at. *)
Lemma getRecentFiles_spec timeThreshold front rest :
  Forall readable front → (∀ e rest', rest = e :: rest' → ¬ readable e) →
  getRecentFiles (Some (front ++ rest)) timeThreshold = omap (is_recent timeThreshold) front.
Proof.
  intros Hf Hr. cbn. induction Hf as [|e front He _ IH]; cbn.
  - destruct rest as [|e rest']; [done|]. specialize (Hr e rest' eq_refl).
    destruct e as [|name [[]|] [t|]]; cbn in *; done || by destruct Hr.
  - destruct e as [|name [[]|] [t|]]; cbn in He |- *; try done. rewrite IH. by destruct (_ <? _).
Qed.

(** The threshold counts from the epoch of [time_t], the file's time from that of
    the file clock: one that begins [epoch] seconds after it hides the files
    written less than [epoch] seconds after the threshold. *)
Lemma getRecentFiles_epoch filename written epoch timeThreshold :
  0 ≤ timeThreshold → written ≤ timeThreshold + epoch →
  getRecentFiles (Some [Entry filename (Some true) (Some ((written - epoch) * 10 ^ 9))]) timeThreshold = [].
Proof.
  intros Ht Hw. cbn. unfold to_seconds. rewrite Z.quot_mul by lia.
  by rewrite (proj2 (Z.ltb_ge _ _)) by lia.
Qed.

(** ** [timeHelper] *)
Record timeHelper := TimeHelper {
  ts_start : Z * Z;
  steady_start : Z;
}.

Definition new_timeHelper (monotonic : Z * Z) (steady_now : Z) : timeHelper :=
  TimeHelper monotonic steady_now.
Definition reset (monotonic : Z * Z) (steady_now : Z) (t : timeHelper) : timeHelper :=
  TimeHelper monotonic steady_now.
Definition getStartTime (t : timeHelper) : Z := u64 ((ts_start t).1 * 1000000000 + (ts_start t).2).
Definition getElapsedNanos (steady_now : Z) (t : timeHelper) : Z := u64 (steady_now - steady_start t).
Definition getElapsedMicros (steady_now : Z) (t : timeHelper) : Z :=
  u64 (Z.quot (steady_now - steady_start t) 1000).

(** On a clock that never runs backwards the elapsed time does not wrap, and the
    microseconds are the nanoseconds, rounded down. *)
Lemma elapsed_spec steady_now t :
  steady_start t ≤ steady_now → steady_now - steady_start t < 2 ^ 64 →
  getElapsedNanos steady_now t = steady_now - steady_start t ∧
  getElapsedMicros steady_now t = getElapsedNanos steady_now t / 1000.
Proof.
  intros Hle Hlt. unfold getElapsedMicros, getElapsedNanos. rewrite (wrap_small 64 (_ - _)) by lia.
  split; [done|]. rewrite Z.quot_div_nonneg by lia. apply wrap_small. split.
  - apply Z.div_pos; lia.
  - apply Z.div_lt_upper_bound; lia.
Qed.
