(* ===== verification/Interceptor.v ===== *)
(** * The packet interceptor

    [hsaInterceptor] ([src/interceptor.cc], [inc/interceptor.h]): every packet an
    application submits to a queue passes through [doPackets]; a kernel dispatch
    gets a completion signal of the interceptor's pool and, in an instrumented
    run, the clone of its kernel with rewritten arguments.  [signalCompleted]
    undoes all of it when the kernel is done.

    The state is the interceptor's members together with a trace of the calls it
    makes on the outside world; the answers of the outside world are arguments.
    Operations run in a monad of state and faults: an exception keeps the state
    changes made before it. *)
From S2P Require Import Prelude StdString Names KernArgs CoCache Dispatch Comms LibraryFilter.

(** ** Packets *)
Record packet := Packet {
  (** the first 32-bit word: header and setup *)
  pk_header : Z;
  (** work-group and grid sizes, reserved words *)
  pk_geometry : list Z;
  pk_private_segment_size : Z;
  pk_group_segment_size : Z;
  pk_kernel_object : Z;
  pk_kernarg_address : Z;
  pk_completion_signal : Z;
}.

#[export] Instance packet_eq_dec : EqDecision packet.
Proof. solve_decision. Defined.

Definition HSA_PACKET_HEADER_TYPE : Z := 0.
Definition header_type_mask : Z := 2 ^ 8 - 1.
Definition HSA_PACKET_TYPE_KERNEL_DISPATCH : Z := 2.

Definition getHeaderType (p : packet) : Z :=
  Z.land (Z.shiftr (pk_header p) HSA_PACKET_HEADER_TYPE) header_type_mask.

Definition config_at (config : config_t) (key : string) : bytes := default [] (config !! lit key).

Definition SIGPOOL_INCREMENT : nat := 8.

(** ** Members *)
Record kernel_info := KernelInfo {
  ki_signal : Z;
  ki_name : bytes;
  ki_agent : Z;
  ki_comms_obj : option Z;
  ki_start : Z;
}.

Record ld_kernel_descriptor := LdKernel {
  ld_name : bytes;
  ld_symbol : Z;
  ld_agent : Z;
  ld_kernarg_size : Z;
}.
Definition no_kernel : ld_kernel_descriptor := LdKernel [] 0 0 0.

(** Calls on the outside world. *)
Inductive event :=
| SignalCreated (sig : Z)
| SignalSubtract (sig : Z)
| SignalStore (sig value : Z)
| KernargAllocated (ptr : Z)
| KernargFreed (ptr : Z)
| CommsCheckedOut (obj : Z) (kernel : bytes) (dispatch_id : Z)
| CommsCheckedIn (obj : Z)
| CodeObjectScanned (agent : Z) (file : bytes)
| Logged (destination : sink) (line : bytes)
| Intercepted (original rewritten : packet)
| Written (p : packet)
| BatchDropped.
#[export] Instance event_eq_dec : EqDecision event.
Proof. solve_decision. Defined.

Record interceptor (rng handler : Type) := Interceptor {
  queues_ : gmap Z Z;
  pending_signals_ : gmap Z kernel_info;
  sig_pool_ : list Z;
  kernel_objects_ : gmap Z ld_kernel_descriptor;
  pending_kernargs_ : gmap Z Z;
  dispatch_count_ : Z;
  kernel_cache_ : coCache;
  dispatcher_ : dispatchController rng;
  (** code objects a kernel database has scanned; [None]: a null pointer *)
  kdbs_ : gmap Z (option (list bytes));
  comms_mgr_ : comms_mgr handler;
  (** [allocator_.pool_] *)
  kernarg_pool_ : Z;
  config_ : config_t;
  library_filter_ : LibraryFilter;
  run_instrumented_ : bool;
  (** kernarg segments, by address *)
  memory_ : gmap Z buffer;
  trace_ : list event;
  log_ : logDuration;
  shutting_down_ : bool;
}.
Arguments Interceptor {rng handler} _ _ _ _ _ _ _ _ _ _ _ _ _ _ _ _ _ _.
Arguments queues_ {rng handler} _.
Arguments pending_signals_ {rng handler} _.
Arguments sig_pool_ {rng handler} _.
Arguments kernel_objects_ {rng handler} _.
Arguments pending_kernargs_ {rng handler} _.
Arguments dispatch_count_ {rng handler} _.
Arguments kernel_cache_ {rng handler} _.
Arguments dispatcher_ {rng handler} _.
Arguments kdbs_ {rng handler} _.
Arguments comms_mgr_ {rng handler} _.
Arguments kernarg_pool_ {rng handler} _.
Arguments config_ {rng handler} _.
Arguments library_filter_ {rng handler} _.
Arguments run_instrumented_ {rng handler} _.
Arguments memory_ {rng handler} _.
Arguments trace_ {rng handler} _.
Arguments log_ {rng handler} _.
Arguments shutting_down_ {rng handler} _.

(** Assignments to one member. *)
Section members.
Context {rng handler : Type}.
Implicit Types (st : interceptor rng handler).
Definition set_queues x st : interceptor rng handler :=
  Interceptor x (pending_signals_ st) (sig_pool_ st) (kernel_objects_ st) (pending_kernargs_
    st) (dispatch_count_ st) (kernel_cache_ st) (dispatcher_ st) (kdbs_ st) (comms_mgr_ st)
    (kernarg_pool_ st) (config_ st) (library_filter_ st) (run_instrumented_ st) (memory_ st)
    (trace_ st) (log_ st) (shutting_down_ st).
Definition set_pending_signals x st : interceptor rng handler :=
  Interceptor (queues_ st) x (sig_pool_ st) (kernel_objects_ st) (pending_kernargs_ st)
    (dispatch_count_ st) (kernel_cache_ st) (dispatcher_ st) (kdbs_ st) (comms_mgr_ st)
    (kernarg_pool_ st) (config_ st) (library_filter_ st) (run_instrumented_ st) (memory_ st)
    (trace_ st) (log_ st) (shutting_down_ st).
Definition set_sig_pool x st : interceptor rng handler :=
  Interceptor (queues_ st) (pending_signals_ st) x (kernel_objects_ st) (pending_kernargs_
    st) (dispatch_count_ st) (kernel_cache_ st) (dispatcher_ st) (kdbs_ st) (comms_mgr_ st)
    (kernarg_pool_ st) (config_ st) (library_filter_ st) (run_instrumented_ st) (memory_ st)
    (trace_ st) (log_ st) (shutting_down_ st).
Definition set_kernel_objects x st : interceptor rng handler :=
  Interceptor (queues_ st) (pending_signals_ st) (sig_pool_ st) x (pending_kernargs_ st)
    (dispatch_count_ st) (kernel_cache_ st) (dispatcher_ st) (kdbs_ st) (comms_mgr_ st)
    (kernarg_pool_ st) (config_ st) (library_filter_ st) (run_instrumented_ st) (memory_ st)
    (trace_ st) (log_ st) (shutting_down_ st).
Definition set_pending_kernargs x st : interceptor rng handler :=
  Interceptor (queues_ st) (pending_signals_ st) (sig_pool_ st) (kernel_objects_ st) x
    (dispatch_count_ st) (kernel_cache_ st) (dispatcher_ st) (kdbs_ st) (comms_mgr_ st)
    (kernarg_pool_ st) (config_ st) (library_filter_ st) (run_instrumented_ st) (memory_ st)
    (trace_ st) (log_ st) (shutting_down_ st).
Definition set_dispatch_count x st : interceptor rng handler :=
  Interceptor (queues_ st) (pending_signals_ st) (sig_pool_ st) (kernel_objects_ st)
    (pending_kernargs_ st) x (kernel_cache_ st) (dispatcher_ st) (kdbs_ st) (comms_mgr_ st)
    (kernarg_pool_ st) (config_ st) (library_filter_ st) (run_instrumented_ st) (memory_ st)
    (trace_ st) (log_ st) (shutting_down_ st).
Definition set_kernel_cache x st : interceptor rng handler :=
  Interceptor (queues_ st) (pending_signals_ st) (sig_pool_ st) (kernel_objects_ st)
    (pending_kernargs_ st) (dispatch_count_ st) x (dispatcher_ st) (kdbs_ st) (comms_mgr_
    st) (kernarg_pool_ st) (config_ st) (library_filter_ st) (run_instrumented_ st) (memory_
    st) (trace_ st) (log_ st) (shutting_down_ st).
Definition set_dispatcher x st : interceptor rng handler :=
  Interceptor (queues_ st) (pending_signals_ st) (sig_pool_ st) (kernel_objects_ st)
    (pending_kernargs_ st) (dispatch_count_ st) (kernel_cache_ st) x (kdbs_ st) (comms_mgr_
    st) (kernarg_pool_ st) (config_ st) (library_filter_ st) (run_instrumented_ st) (memory_
    st) (trace_ st) (log_ st) (shutting_down_ st).
Definition set_kdbs x st : interceptor rng handler :=
  Interceptor (queues_ st) (pending_signals_ st) (sig_pool_ st) (kernel_objects_ st)
    (pending_kernargs_ st) (dispatch_count_ st) (kernel_cache_ st) (dispatcher_ st) x
    (comms_mgr_ st) (kernarg_pool_ st) (config_ st) (library_filter_ st) (run_instrumented_
    st) (memory_ st) (trace_ st) (log_ st) (shutting_down_ st).
Definition set_comms_mgr x st : interceptor rng handler :=
  Interceptor (queues_ st) (pending_signals_ st) (sig_pool_ st) (kernel_objects_ st)
    (pending_kernargs_ st) (dispatch_count_ st) (kernel_cache_ st) (dispatcher_ st) (kdbs_
    st) x (kernarg_pool_ st) (config_ st) (library_filter_ st) (run_instrumented_ st)
    (memory_ st) (trace_ st) (log_ st) (shutting_down_ st).
Definition set_config x st : interceptor rng handler :=
  Interceptor (queues_ st) (pending_signals_ st) (sig_pool_ st) (kernel_objects_ st)
    (pending_kernargs_ st) (dispatch_count_ st) (kernel_cache_ st) (dispatcher_ st) (kdbs_
    st) (comms_mgr_ st) (kernarg_pool_ st) x (library_filter_ st) (run_instrumented_ st)
    (memory_ st) (trace_ st) (log_ st) (shutting_down_ st).
Definition set_library_filter x st : interceptor rng handler :=
  Interceptor (queues_ st) (pending_signals_ st) (sig_pool_ st) (kernel_objects_ st)
    (pending_kernargs_ st) (dispatch_count_ st) (kernel_cache_ st) (dispatcher_ st) (kdbs_
    st) (comms_mgr_ st) (kernarg_pool_ st) (config_ st) x (run_instrumented_ st) (memory_
    st) (trace_ st) (log_ st) (shutting_down_ st).
Definition set_run_instrumented x st : interceptor rng handler :=
  Interceptor (queues_ st) (pending_signals_ st) (sig_pool_ st) (kernel_objects_ st)
    (pending_kernargs_ st) (dispatch_count_ st) (kernel_cache_ st) (dispatcher_ st) (kdbs_
    st) (comms_mgr_ st) (kernarg_pool_ st) (config_ st) (library_filter_ st) x (memory_ st)
    (trace_ st) (log_ st) (shutting_down_ st).
Definition set_memory x st : interceptor rng handler :=
  Interceptor (queues_ st) (pending_signals_ st) (sig_pool_ st) (kernel_objects_ st)
    (pending_kernargs_ st) (dispatch_count_ st) (kernel_cache_ st) (dispatcher_ st) (kdbs_
    st) (comms_mgr_ st) (kernarg_pool_ st) (config_ st) (library_filter_ st)
    (run_instrumented_ st) x (trace_ st) (log_ st) (shutting_down_ st).
Definition set_trace x st : interceptor rng handler :=
  Interceptor (queues_ st) (pending_signals_ st) (sig_pool_ st) (kernel_objects_ st)
    (pending_kernargs_ st) (dispatch_count_ st) (kernel_cache_ st) (dispatcher_ st) (kdbs_
    st) (comms_mgr_ st) (kernarg_pool_ st) (config_ st) (library_filter_ st)
    (run_instrumented_ st) (memory_ st) x (log_ st) (shutting_down_ st).
Definition set_log x st : interceptor rng handler :=
  Interceptor (queues_ st) (pending_signals_ st) (sig_pool_ st) (kernel_objects_ st)
    (pending_kernargs_ st) (dispatch_count_ st) (kernel_cache_ st) (dispatcher_ st) (kdbs_
    st) (comms_mgr_ st) (kernarg_pool_ st) (config_ st) (library_filter_ st)
    (run_instrumented_ st) (memory_ st) (trace_ st) x (shutting_down_ st).
Definition set_shutting_down x st : interceptor rng handler :=
  Interceptor (queues_ st) (pending_signals_ st) (sig_pool_ st) (kernel_objects_ st)
    (pending_kernargs_ st) (dispatch_count_ st) (kernel_cache_ st) (dispatcher_ st) (kdbs_
    st) (comms_mgr_ st) (kernarg_pool_ st) (config_ st) (library_filter_ st)
    (run_instrumented_ st) (memory_ st) (trace_ st) (log_ st) x.
End members.

(** ** The monad: state that survives faults *)
Section monad.
Context {rng handler : Type}.
Abbreviation state := (interceptor rng handler).

Definition M (A : Type) : Type := state → state * res A.

#[export] Instance M_ret : MRet M := λ A a st, (st, Ok a).
#[export] Instance M_bind : MBind M := λ A B k m st,
  match m st with
  | (st', Ok a) => k a st'
  | (st', Err f) => (st', Err f)
  end.

Definition gets {A} (f : state → A) : M A := λ st, (st, Ok (f st)).
Definition modify (f : state → state) : M unit := λ st, (f st, Ok ()).
Definition fail {A} (f : fault) : M A := λ st, (st, Err f).
Definition lift {A} (r : res A) : M A := λ st, (st, r).
Definition emit (e : event) : M unit := modify (λ st, set_trace (trace_ st ++ [e]) st).

(** An operation of the code-object cache. *)
Definition with_cache {A} (op : coCache → res (A * coCache)) : M A := λ st,
  match op (kernel_cache_ st) with
  | Ok (a, c) => (set_kernel_cache c st, Ok a)
  | Err f => (st, Err f)
  end.
End monad.
Arguments M : clear implicits.

(** ** The outside world during one call *)
Record answers := Answers {
  (** [hsa_signal_create], call by call; [None] is an error status *)
  an_signals : list (option Z);
  an_pool_allocate : Z → Z → option Z;
  an_allow_access : Z → Z → bool;
  (** what the new segment contains *)
  an_contents : buffer;
  (** the communication object made by [new], and its device resource *)
  an_comms : Z;
  an_dev_rsrc : Z;
  (** does the agent's kernel database know the kernel, given what it scanned? *)
  an_hasKernel : Z → list bytes → bytes → bool;
  (** an exception out of [scanCodeObject] *)
  an_scan : option bytes;
  (** [CLOCK_MONOTONIC], in nanoseconds *)
  an_now : Z;
}.

Section interceptor.
Context {rng handler : Type} (draw : rng → Z * rng).
Context (set_context : bytes → handler → handler) (handlers_by_default : bytes → Z → list handler).
Context `{HL : HsaLoader} {node : Type} {CG : Comgr node} (comgr_metadata : bytes → option node).
Context `{FS : FileSystem} (dlopen : bytes → option Z) (dlsym : Z → option (bytes → Z → list handler)).
Abbreviation state := (interceptor rng handler).
Abbreviation run := (M rng handler).

(** ** [fixupPacket] *)

(** Eight signals for an empty pool. *)
Fixpoint grow_pool (n : nat) (signals : list (option Z)) : run unit :=
  match n with
  | O => mret ()
  | S n' =>
      match signals with
      | Some s :: signals' =>
          _ ← emit (SignalCreated s);
          _ ← modify (λ st, set_sig_pool (sig_pool_ st ++ [s]) st);
          grow_pool n' signals'
      | _ => fail FAbort
      end
  end.

Definition take_signal (an : answers) : run Z :=
  pool ← gets sig_pool_;
  _ ← match pool with
      | [] => grow_pool SIGPOOL_INCREMENT (an_signals an)
      | _ => mret ()
      end;
  pool ← gets sig_pool_;
  match list.last pool with
  | Some sig => _ ← modify (set_sig_pool (removelast pool)); mret sig
  | None => fail FUB
  end.

(** [queues_[queue]] *)
Definition queue_agent (queue : Z) : run Z :=
  q ← gets (λ st, queues_ st !! queue);
  match q with
  | Some agent => mret agent
  | None => _ ← modify (λ st, set_queues (<[queue := 0]> (queues_ st)) st); mret 0
  end.

(** [kdbs_[agent].get()] *)
Definition agent_kdb (agent : Z) : run (option (list bytes)) :=
  k ← gets (λ st, kdbs_ st !! agent);
  match k with
  | Some kdb => mret kdb
  | None => _ ← modify (λ st, set_kdbs (<[agent := None]> (kdbs_ st)) st); mret None
  end.

(** [kernel_objects_[kernel_object]] *)
Definition kernel_at (kernel_object : Z) : run ld_kernel_descriptor :=
  k ← gets (λ st, kernel_objects_ st !! kernel_object);
  match k with
  | Some kd => mret kd
  | None =>
      _ ← modify (λ st, set_kernel_objects (<[kernel_object := no_kernel]> (kernel_objects_ st)) st);
      mret no_kernel
  end.

Definition alternative_for (kd : ld_kernel_descriptor) (agent : Z) : run Z :=
  instrumented ← gets run_instrumented_;
  if instrumented : bool
  then with_cache (findInstrumentedAlternative (ld_symbol kd) (ld_name kd) agent)
  else with_cache (findAlternative (ld_symbol kd) (ld_name kd)).

Definition may_dispatch (alt : Z) : run bool :=
  instrumented ← gets run_instrumented_;
  if instrumented : bool then
    d ← gets dispatcher_;
    '(b, d) ← lift (canDispatch draw alt d);
    _ ← modify (set_dispatcher d); mret b
  else mret false.

(** [kdb->scanCodeObject], unless the kernel is known already. *)
Definition scan_for (an : answers) (agent : Z) (name : bytes) (kdb : option (list bytes)) : run unit :=
  match kdb with
  | None => mret ()
  | Some scanned =>
      if an_hasKernel an agent scanned name then mret ()
      else
        ref ← gets (λ st, getCodeObjectRef agent name (kernel_cache_ st));
        match ref with
        | None => mret ()
        | Some coRef =>
            _ ← emit (CodeObjectScanned agent (co_file coRef));
            match an_scan an with
            | Some what => fail (FThrow what)
            | None => modify (λ st, set_kdbs (<[agent := Some (scanned ++ [co_file coRef])]> (kdbs_ st)) st)
            end
        end
  end.

(** [allocator_.allocate]: a null result is not tested by the caller. *)
Definition allocate_kernargs (an : answers) (size agent : Z) : run Z :=
  pool ← gets kernarg_pool_;
  let p := allocate (an_pool_allocate an) (an_allow_access an) pool size agent in
  _ ← emit (KernargAllocated p);
  let segment := resize (Z.to_nat (round_up_mask size RH_PAGE_MASK)) 0 (an_contents an) in
  _ ← modify (λ st, if p =? 0 then st else set_memory (<[p := segment]> (memory_ st)) st);
  mret p.

Definition segment_at (st : state) (p : Z) : option buffer :=
  if p =? 0 then None else Some (default [] (memory_ st !! p)).

(** [comms_mgr_.checkoutCommsObject], then [get_dev_rsrc_ptr] on the result. *)
Definition checkout (an : answers) (agent : Z) (name : bytes) (dispatch_id : Z) : run Z :=
  m ← gets comms_mgr_;
  match checkoutCommsObject set_context handlers_by_default agent name dispatch_id m with
  | None => fail FUB
  | Some _ => _ ← emit (CommsCheckedOut (an_comms an) name dispatch_id); mret (an_comms an)
  end.

Definition write_kernargs (an : answers) (dst src : Z) (args : arg_descriptor_t) : run unit :=
  st ← gets (λ st, st);
  b ← lift (fixupKernArgs (segment_at st dst) (segment_at st src) (an_dev_rsrc an) args);
  modify (set_memory (<[dst := b]> (memory_ st))).

(** [kernel_cache_.getArgDescriptor]: what it entered before an exception stays. *)
Definition find_descriptor (agent : Z) (name : bytes) (instrumented : bool) : run (option arg_descriptor_t) := λ st,
  match getArgDescriptor comgr_metadata agent name instrumented (kernel_cache_ st) with
  | Ok (desc, c) => (set_kernel_cache c st, Ok desc)
  | Err f => (set_kernel_cache (resolved_so_far comgr_metadata agent (kernel_cache_ st)) st, Err f)
  end.

(** The branch that runs the clone. *)
Definition instrument_dispatch (an : answers) (sig : Z) (packet dispatch : packet)
    (kd : ld_kernel_descriptor) (agent alt dispatch_id : Z) : run (Interceptor.packet * option Z) :=
  size ← gets (λ st, getArgSize alt (kernel_cache_ st));
  _ ← lift (assertb (negb (size =? 0)));
  instrumented ← gets run_instrumented_;
  args ← find_descriptor agent (ld_name kd) instrumented;
  match args with
  | None => fail FAbort
  | Some args =>
      new_kernargs ← allocate_kernargs an (kernarg_length args) agent;
      kdb ← agent_kdb agent;
      _ ← scan_for an agent (ld_name kd) kdb;
      comms ← checkout an agent (ld_name kd) dispatch_id;
      _ ← write_kernargs an new_kernargs (pk_kernarg_address packet) args;
      _ ← modify (λ st, set_pending_kernargs (<[sig := new_kernargs]> (pending_kernargs_ st)) st);
      mret (Packet (pk_header dispatch) (pk_geometry dispatch) (private_segment_size args)
              (group_segment_size args) alt new_kernargs (pk_completion_signal dispatch), Some comms)
  end.

(** The search for an alternative kernel. *)
Definition choose_kernel (an : answers) (sig : Z) (packet : packet) (queue dispatch_id : Z)
    : run (Interceptor.packet * option Z) :=
  agent ← queue_agent queue;
  has ← gets (λ st, hasKernels agent (kernel_cache_ st));
  if has : bool then
    kd ← gets (λ st, kernel_objects_ st !! pk_kernel_object packet);
    match kd with
    | None => mret (packet, None)
    | Some kd =>
        alt ← alternative_for kd agent;
        if alt =? 0 then mret (packet, None)
        else
          ok ← may_dispatch alt;
          if ok : bool then instrument_dispatch an sig packet packet kd agent alt dispatch_id
          else mret (packet, None)
    end
  else mret (packet, None).

Definition fixupPacket (an : answers) (packet : packet) (queue dispatch_id : Z)
    : run Interceptor.packet :=
  sig ← take_signal an;
  '(dispatch, comms) ← choose_kernel an sig packet queue dispatch_id;
  kd ← kernel_at (pk_kernel_object packet);
  agent ← queue_agent queue;
  _ ← modify (λ st, set_pending_signals
        (<[sig := KernelInfo (pk_completion_signal dispatch) (ld_name kd) agent comms (an_now an)]>
           (pending_signals_ st)) st);
  let dispatch := Packet (pk_header dispatch) (pk_geometry dispatch)
    (pk_private_segment_size dispatch) (pk_group_segment_size dispatch)
    (pk_kernel_object dispatch) (pk_kernarg_address dispatch) sig in
  _ ← emit (Intercepted packet dispatch);
  mret dispatch.

(** ** [doPackets]: one packet, then the loop; an exception ends the batch. *)
Definition do_packet (an : answers) (queue : Z) (packet : packet) : run unit :=
  if getHeaderType packet =? HSA_PACKET_TYPE_KERNEL_DISPATCH then
    id ← gets (λ st, u64 (dispatch_count_ st + 1));
    _ ← modify (set_dispatch_count id);
    dispatch ← fixupPacket an packet queue id;
    emit (Written dispatch)
  else emit (Written packet).

Fixpoint packet_loop (queue : Z) (packets : list (packet * answers)) : run unit :=
  match packets with
  | [] => mret ()
  | (p, an) :: packets' => _ ← do_packet an queue p; packet_loop queue packets'
  end.

Definition doPackets (queue : Z) (packets : list (packet * answers)) : run unit := λ st,
  match packet_loop queue packets st with
  | (st', Err (FThrow _)) => emit BatchDropped st'
  | r => r
  end.

(** ** [signalCompleted] *)
Definition signalCompleted (sig startNs endNs : Z) : run unit :=
  info ← gets (λ st, pending_signals_ st !! sig);
  match info with
  | None => mret ()
  | Some ki =>
      _ ← modify (λ st, set_pending_signals (delete sig (pending_signals_ st)) st);
      _ ← (if ki_signal ki =? 0 then mret () else emit (SignalSubtract (ki_signal ki)));
      instrumented ← gets run_instrumented_;
      _ ← (if instrumented : bool then mret ()
           else log ← gets log_;
                emit (Logged (log_file_ log) (log_line (ki_name ki) (ki_start ki) startNs endNs)));
      _ ← emit (SignalStore sig 1);
      ka ← gets (λ st, pending_kernargs_ st !! sig);
      _ ← match ka with
          | Some p =>
              _ ← emit (KernargFreed p);
              modify (λ st, set_pending_kernargs (delete sig (pending_kernargs_ st)) st)
          | None => mret ()
          end;
      _ ← modify (λ st, set_sig_pool (sig_pool_ st ++ [sig]) st);
      match ki_comms_obj ki with
      | Some obj => emit (CommsCheckedIn obj)
      | None => mret ()
      end
  end.

(** ** Queues and kernels *)

(** [addQueue]; [profiling]: the profiler could be enabled. *)
Definition addQueue (profiling : bool) (queue agent : Z) : run unit :=
  _ ← lift (assertb profiling);
  modify (λ st, set_queues (<[queue := agent]> (queues_ st)) st).

Definition addKernel (kernelObject : Z) (name : bytes) (symbol agent kernarg_size : Z) : run unit :=
  known ← gets (λ st, kernel_objects_ st !! kernelObject);
  match known with
  | Some _ => mret ()
  | None =>
      let demangled := demangleName (c_str name) in
      let thisName := match demangled with [] => name | _ => demangled end in
      _ ← modify (λ st, set_kernel_objects
            (<[kernelObject := LdKernel thisName symbol agent kernarg_size]> (kernel_objects_ st)) st);
      instrumented ← gets run_instrumented_;
      filter ← gets library_filter_;
      if instrumented : bool then
        excluded ← (if active_ filter
                    then with_cache (λ c, Ok (isKernelFromExcludedFile (isExcluded filter) kernelObject c))
                    else mret false);
        if excluded : bool then mret ()
        else modify (λ st, set_kernel_cache
               (registerRuntimeKernel thisName symbol kernelObject agent kernarg_size (kernel_cache_ st)) st)
      else mret ()
  end.

(** The hook on [hsa_executable_symbol_get_info] for the kernel object of a
    symbol: the answers of the original function to the queries the hook makes;
    a status error for the name is reported, for the rest it aborts. *)
Definition hook_kernel_object (symbol kernelObject : Z) (name_length : option Z)
    (name : option bytes) (kernarg_size agent : option Z) : run unit :=
  match name_length, name with
  | Some _, Some name =>
      size ← lift (check_status kernarg_size);
      agent ← lift (check_status agent);
      addKernel kernelObject (c_str name) symbol agent size
  | _, _ => mret ()
  end.

(** [coCache::addFile] once the hooks are installed: its query for the kernel
    object of a symbol goes through the hook, which registers the kernel in the
    middle of the call. *)
Definition on_cache (op : coCache → res coCache) : run unit :=
  with_cache (λ c, res_map (λ c', ((), c')) (op c)).

Definition add_symbol_hooked (name : bytes) (agent : Z) (strFilter : bytes) (l : loaded_t) (sym : Z)
    : run unit :=
  kind ← lift (check_status (symbol_kind sym));
  if decide (kind = SYMBOL_KERNEL) then
    _ ← on_cache (λ c, Ok (add_kernel_symbol agent sym c));
    kernel_object ← lift (check_status (symbol_kernel_object sym));
    let sym_name := symbol_name sym in
    _ ← hook_kernel_object sym kernel_object ((λ n, Z.of_nat (length n)) <$> sym_name) sym_name
          (symbol_kernarg_size sym) (symbol_agent sym);
    on_cache (λ c, enter_symbol name agent strFilter l c sym)
  else mret ().

Fixpoint add_symbols_hooked (name : bytes) (agent : Z) (strFilter : bytes) (l : loaded_t) (syms : list Z)
    : run unit :=
  match syms with
  | [] => mret ()
  | sym :: syms' =>
      _ ← add_symbol_hooked name agent strFilter l sym;
      add_symbols_hooked name agent strFilter l syms'
  end.

Fixpoint add_executables_hooked (name : bytes) (agent : Z) (strFilter : bytes) (loaded : list loaded_t)
    : run unit :=
  match loaded with
  | [] => mret ()
  | l :: loaded' =>
      _ ← lift (check_status (if executable_freeze (ld_executable l) then Some () else None));
      _ ← add_symbols_hooked name agent strFilter l (iterate_symbols (ld_executable l));
      _ ← on_cache (λ c, Ok (set_cache_objects (<[agent := (ld_executable l, name)]> (cache_objects_ c)) c));
      add_executables_hooked name agent strFilter loaded'
  end.

Definition addFile_hooked (name : bytes) (agent : Z) (strFilter : bytes) : run unit :=
  code_objects ← lift (extractCodeObjects agent name);
  match code_objects with
  | [] => mret ()
  | code_object_files =>
      loaded ← lift (res_fold (load_code_object comgr_metadata agent) [] code_object_files);
      add_executables_hooked name agent strFilter loaded
  end.

(** [addCodeObject], for a code object that appeared in the kernel cache. *)
Fixpoint add_code_object (name : bytes) (gpus : list Z) : run unit :=
  match gpus with
  | [] => mret ()
  | agent :: gpus' =>
      strFilter ← gets (λ st, default [] (config_ st !! lit "LOGDUR_FILTER"));
      _ ← addFile_hooked name agent strFilter;
      _ ← modify (λ st, match kdbs_ st !! agent with
                        | Some _ => st
                        | None => set_kdbs (<[agent := Some []]> (kdbs_ st)) st
                        end);
      add_code_object name gpus'
  end.

Definition addCodeObject (name : bytes) (gpus : list Z) : run unit :=
  match name with [] => mret () | _ => add_code_object name gpus end.

(** ** The constructor *)

(** What the process looks like when the tool is loaded. *)
Record environment := Environment {
  (** has HSA the functions of the loader? *)
  env_loader_table : bool;
  env_getenv : bytes → option bytes;
  (** text of the library filter's file, if it opens *)
  env_filter_file : option bytes;
  (** [hsa_signal_create], call by call *)
  env_signals : list (option Z);
  (** [hsa_iterate_agents]: the GPUs, unless it fails *)
  env_gpus : option (list Z);
  env_pools : Z → list pool_info;
  (** [readlink("/proc/self/exe")], [dl_iterate_phdr], the kernel cache directory *)
  env_exe : option bytes;
  env_phdrs : list (option bytes);
  env_cache_dir : option (list bytes);
}.

Definition getExecutablePath (env : environment) : bytes := default [] (env_exe env).

Definition getSharedLibraries (env : environment) (libraries : list bytes) : list bytes :=
  libraries ++ omap (λ name, match name with Some (c :: cs) => Some (c :: cs) | _ => None end) (env_phdrs env).

(** The files whose kernels a GPU's cache gets at startup. *)
Definition startup_files (env : environment) (filter : LibraryFilter) : res (list bytes) :=
  let files := getSharedLibraries env [getExecutablePath env] in
  if active_ filter then
    let! deps := getIncludedFilesWithDeps filter in
    Ok (files ++ getIncludedFiles filter ++ deps)
  else Ok files.

(** [addFile] in a [try] whose [catch] drops the exception. *)
Definition try_addFile (agent : Z) (strFilter file : bytes) : run unit := λ st,
  match addFile comgr_metadata file agent strFilter (kernel_cache_ st) with
  | Ok c => (set_kernel_cache c st, Ok ())
  | Err (FThrow _) => (st, Ok ())
  | Err f => (st, Err f)
  end.

Fixpoint add_startup_files (agent : Z) (strFilter : bytes) (files : list bytes) : run unit :=
  match files with
  | [] => mret ()
  | file :: files' =>
      f ← gets library_filter_;
      _ ← (if active_ f && isExcluded f file then mret ()
           else try_addFile agent strFilter file);
      add_startup_files agent strFilter files'
  end.

Definition start_agent (env : environment) (agent : Z) : run unit :=
  config ← gets config_;
  let cacheLocation := config_at config "LOGDUR_KERNEL_CACHE" in
  let strFilter := config_at config "LOGDUR_FILTER" in
  _ ← match cacheLocation with
      | _ :: _ =>
          _ ← with_cache (setLocation comgr_metadata agent cacheLocation (env_cache_dir env) strFilter);
          mret ()
      | [] =>
          f ← gets library_filter_;
          files ← lift (startup_files env f);
          _ ← modify (λ st, set_kdbs (<[agent := Some []]> (kdbs_ st)) st);
          add_startup_files agent strFilter files
      end;
  m ← gets comms_mgr_;
  m ← lift (addAgent agent (env_pools env agent) m);
  modify (set_comms_mgr m).

Fixpoint start_agents (env : environment) (gpus : list Z) : run unit :=
  match gpus with
  | [] => mret ()
  | agent :: gpus' => _ ← start_agent env agent; start_agents env gpus'
  end.

(** The members before the body of the constructor runs. *)
Definition blank (env : environment) (seed : rng) (pool : Z) (mgr : comms_mgr handler) : state :=
  Interceptor ∅ ∅ [] ∅ ∅ 0 new_coCache (new_dispatchController (env_getenv env) seed) ∅ mgr pool ∅
    new_filter false ∅ [] new_logDuration false.

Definition start (env : environment) : run unit :=
  c ← lift (coCache_coCache (env_loader_table env));
  _ ← modify (set_kernel_cache c);
  let config := getLogDurConfig (env_getenv env) ∅ in
  _ ← modify (set_config config);
  m ← gets comms_mgr_;
  plugins ← lift (setConfig dlopen dlsym config (plugins_ m));
  _ ← modify (set_comms_mgr (CommsMgr (mem_mgrs_ m) plugins));
  _ ← modify (λ st, set_log (log_setLocation (config_at config "LOGDUR_LOG_LOCATION") (log_ st)) st);
  f ← gets library_filter_;
  f ← match config_at config "LOGDUR_LIBRARY_FILTER" with
      | [] => mret f
      | _ => '(_, f) ← lift (loadConfig (env_filter_file env) f); mret f
      end;
  _ ← modify (set_library_filter f);
  let instrumented := bool_decide (config_at config "LOGDUR_INSTRUMENTED" = lit "true") in
  _ ← modify (set_run_instrumented instrumented);
  _ ← (if instrumented then mret ()
       else log ← gets log_; emit (Logged (log_file_ log) log_headers));
  _ ← grow_pool SIGPOOL_INCREMENT (env_signals env);
  if instrumented then
    match env_gpus env with Some gpus => start_agents env gpus | None => mret () end
  else mret ().

(** ** Shutdown and the signal thread *)
Definition shuttingdown (st : state) : bool := shutting_down_ st.
Definition shutdown : run unit := modify (set_shutting_down true).
Definition hasPendingSignals (st : state) : bool := bool_decide (pending_signals_ st ≠ ∅).

(** [getPendingSignals]: the keys of the map, in order. *)
Definition getPendingSignals (st : state) (outSigs : list Z) : bool * list Z :=
  let outSigs := outSigs ++ (map_items (pending_signals_ st)).*1 in
  (bool_decide (outSigs ≠ []), outSigs).

(** Where the thread of [signal_runner] is: at the test of the outer loop, in the
    inner one with the rest of the signals to look at, or finished. *)
Inductive runner := AtTest | InPass (curr_sigs : list Z) | Exited.

(** One step; [value]: what [signalWait] returns for a signal when its timeout is
    over or its value is 0, and the kernel's start and end times. *)
Definition signal_runner (value : Z → Z) (times : Z → Z * Z) (r : runner) : run runner :=
  match r with
  | Exited => mret Exited
  | AtTest =>
      down ← gets shuttingdown;
      if down : bool then mret Exited
      else
        p ← gets (λ st, getPendingSignals st []);
        mret (if p.1 : bool then InPass p.2 else AtTest)
  | InPass [] =>
      p ← gets (λ st, getPendingSignals st []);
      mret (if p.1 : bool then InPass p.2 else AtTest)
  | InPass (sig :: curr_sigs) =>
      _ ← (if value sig =? 0 then signalCompleted sig (times sig).1 (times sig).2 else mret ());
      mret (InPass curr_sigs)
  end.

(** [ensure_shutdown]'s wait: [pending i] is what [hasPendingSignals] returns the
    [i]-th time; the result counts the sleeps of a millisecond. *)
Fixpoint wait_for_drain (fuel : nat) (pending : nat → bool) (wait_count : nat) : nat :=
  match fuel with
  | O => wait_count
  | S fuel' => if pending wait_count then wait_for_drain fuel' pending (S wait_count) else wait_count
  end.
Definition ensure_shutdown (pending : nat → bool) : nat := wait_for_drain 1000 pending 0.
End interceptor.

(** ** Reasoning about runs

    [wp m Q E st]: run from [st], [m] ends in [Q], or throws in [E]; other faults
    end the process. *)
Section wp.
Context {rng handler : Type}.
Abbreviation state := (interceptor rng handler).
Abbreviation run := (M rng handler).

Definition wp {A} (m : run A) (Q : A → state → Prop) (E : state → Prop) (st : state) : Prop :=
  match m st with
  | (st', Ok a) => Q a st'
  | (st', Err (FThrow _)) => E st'
  | _ => True
  end.

Lemma wp_ret {A} (a : A) (Q : A → state → Prop) E st : Q a st → wp (mret a) Q E st.
Proof. done. Qed.

Lemma wp_bind {A B} (m : run A) (k : A → run B) Q E st :
  wp m (λ a, wp (k a) Q E) E st → wp (m ≫= k) Q E st.
Proof.
  unfold wp, mbind, M_bind. destruct (m st) as [st' [a|f]]; [done|]. by destruct f.
Qed.

Lemma wp_mono {A} (m : run A) (Q Q' : A → state → Prop) E st :
  wp m Q E st → (∀ a st', Q a st' → Q' a st') → wp m Q' E st.
Proof. unfold wp. intros Hm HQ. repeat case_match; auto. Qed.

Lemma wp_gets {A} (f : state → A) (Q : A → state → Prop) E st : Q (f st) st → wp (gets f) Q E st.
Proof. done. Qed.
Lemma wp_modify f (Q : unit → state → Prop) E st : Q () (f st) → wp (modify f) Q E st.
Proof. done. Qed.
Lemma wp_emit e (Q : unit → state → Prop) E st :
  Q () (set_trace (trace_ st ++ [e]) st) → wp (emit e) Q E st.
Proof. done. Qed.
Lemma wp_lift {A} (r : res A) (Q : A → state → Prop) (E : state → Prop) st :
  (∀ a, r = Ok a → Q a st) → E st → wp (lift r) Q E st.
Proof. intros HQ HE. unfold wp, lift. destruct r as [a|[]]; auto. Qed.
Lemma wp_fail {A} f (Q : A → state → Prop) (E : state → Prop) st : E st → wp (fail f) Q E st.
Proof. intros HE. unfold wp, fail. by destruct f. Qed.
Lemma wp_cache {A} (op : coCache → res (A * coCache)) (Q : A → state → Prop) (E : state → Prop) st :
  (∀ a c, op (kernel_cache_ st) = Ok (a, c) → Q a (set_kernel_cache c st)) → E st →
  wp (with_cache op) Q E st.
Proof. intros HQ HE. unfold wp, with_cache. destruct (op _) as [[a c]|[]]; auto. Qed.
End wp.

(** ** Operations that change only some members *)
Section within.
Context {rng handler : Type}.
Abbreviation state := (interceptor rng handler).
Abbreviation run := (M rng handler).
Context (R : state → state → Prop).

(** Whatever the outcome, the operation stays within [R]. *)
Definition within {A} (m : run A) : Prop := ∀ st, R st (m st).1.

Lemma within_Ok {A} (m : run A) st st' a : within m → m st = (st', Ok a) → R st st'.
Proof. intros Hm He. specialize (Hm st). by rewrite He in Hm. Qed.

Context {HR : PreOrder R}.
Lemma within_ret {A} (a : A) : within (mret a).
Proof. intros st. reflexivity. Qed.
Lemma within_bind {A B} (m : run A) (k : A → run B) :
  within m → (∀ a, within (k a)) → within (m ≫= k).
Proof.
  intros Hm Hk st. unfold mbind, M_bind. pose proof (Hm st) as H1.
  destruct (m st) as [st1 [a|f]]; [|done]. etrans; [exact H1|apply Hk].
Qed.
Lemma within_gets {A} (f : state → A) : within (gets f).
Proof. intros st. reflexivity. Qed.
Lemma within_fail {A} f : within (fail f : run A).
Proof. intros st. reflexivity. Qed.
Lemma within_lift {A} (r : res A) : within (lift r : run A).
Proof. intros st. reflexivity. Qed.
Lemma within_modify f : (∀ st, R st (f st)) → within (modify f).
Proof. intros Hf st. apply Hf. Qed.
Lemma within_cache {A} (op : coCache → res (A * coCache)) :
  (∀ st c, R st (set_kernel_cache c st)) → within (with_cache op).
Proof. intros Hc st. unfold with_cache. destruct (op _) as [[??]|]; [apply Hc|reflexivity]. Qed.
Lemma within_find_descriptor `{HL : HsaLoader} {node : Type} {CG : Comgr node} (comgr_metadata : bytes → option node)
    agent name instrumented :
  (∀ st c, R st (set_kernel_cache c st)) → within (find_descriptor comgr_metadata agent name instrumented).
Proof. intros Hc st. unfold find_descriptor. destruct (getArgDescriptor _ _ _ _ _) as [[??]|]; apply Hc. Qed.
End within.

Create HintDb within.
#[export] Hint Extern 0 (within ?R (mret _)) => apply (within_ret R) : within.
#[export] Hint Extern 0 (within ?R (gets _)) => apply (within_gets R) : within.
#[export] Hint Extern 0 (within ?R (fail _)) => apply (within_fail R) : within.
#[export] Hint Extern 0 (within ?R (lift _)) => apply (within_lift R) : within.

(** Goes through an operation, call by call; what is left is one assignment. *)
Ltac within_step :=
  match goal with
  | |- within _ (mbind _ _) => apply within_bind; [typeclasses eauto| |intros ?]
  | |- within _ (match ?x with _ => _ end) => destruct x
  | |- within _ (emit _) => unfold emit
  | |- _ => solve [eauto with within]
  | |- within _ (modify _) => apply within_modify; intros ?; repeat case_match
  | |- within _ (with_cache _) => apply within_cache; [typeclasses eauto|intros ? ?]
  | |- within _ (find_descriptor _ _ _ _) => apply within_find_descriptor; intros ? ?
  end.
Ltac within := repeat within_step; try done.
