(* ===== verification/PacketText.v ===== *)
(** * Packets and argument segments as text

    The debugging aids of [src/src/interceptor.cc]: [packetToText], [test_pointers]
    and the two [dumpKernArgs], with the header accessors of [inc/interceptor.h].
    [packet] is [Interceptor]'s: its first word holds header and setup, its geometry
    the work-group sizes and the grid sizes. *)
From S2P Require Import Prelude StdString KernArgs Interceptor.

Definition HSA_PACKET_HEADER_SCACQUIRE_FENCE_SCOPE : Z := 9.
Definition HSA_PACKET_HEADER_SCRELEASE_FENCE_SCOPE : Z := 11.
Definition HSA_FENCE_SCOPE_AGENT : Z := 1.
Definition HSA_FENCE_SCOPE_SYSTEM : Z := 2.

Definition getHeaderReleaseScope (p : packet) : Z :=
  Z.land (Z.shiftr (pk_header p) HSA_PACKET_HEADER_SCRELEASE_FENCE_SCOPE) 3.
Definition getHeaderAcquireScope (p : packet) : Z :=
  Z.land (Z.shiftr (pk_header p) HSA_PACKET_HEADER_SCACQUIRE_FENCE_SCOPE) 3.

Definition fence_scope_text (scope : Z) (otherwise : bytes) : bytes :=
  if negb (Z.land scope HSA_FENCE_SCOPE_AGENT =? 0) then lit "HSA_FENCE_SCOPE_AGENT"
  else if negb (Z.land scope HSA_FENCE_SCOPE_SYSTEM =? 0) then lit "HSA_FENCE_SCOPE_SYSTEM"
  else otherwise.

Definition setup (p : packet) : Z := Z.shiftr (pk_header p) 16.
Definition geometry (p : packet) (i : nat) : Z := default 0 (pk_geometry p !! i).
Definition hex_line (label : string) (z : Z) : bytes :=
  tab :: lit label ++ lit "0x" ++ to_hex z ++ [newline].

(** A pointer is printed with its own [0x], after the one of the label. *)
Definition pointer_text (p : Z) : bytes := if p =? 0 then lit "0" else lit "0x" ++ to_hex p.

Definition packetToText (p : packet) : bytes :=
  if getHeaderType p =? HSA_PACKET_TYPE_KERNEL_DISPATCH then
    lit "Dispatch Packet" ++ [newline] ++
    tab :: lit "Release Scope: " ++
    fence_scope_text (getHeaderReleaseScope p) (to_hex (getHeaderReleaseScope p)) ++ [newline] ++
    tab :: lit "Acquire Scope: " ++ fence_scope_text (getHeaderAcquireScope p) (lit "UNKNOWN") ++ [newline] ++
    hex_line "setup: " (setup p) ++
    hex_line "workgroup_size_x: " (geometry p 0) ++
    hex_line "workgroup_size_y: " (geometry p 1) ++
    hex_line "workgroup_size_z: " (geometry p 2) ++
    hex_line "grid_size_x: " (geometry p 3) ++
    hex_line "grid_size_y: " (geometry p 4) ++
    hex_line "grid_size_z: " (geometry p 5) ++
    hex_line "private_segment_size: " (pk_private_segment_size p) ++
    hex_line "group_segment_size: " (pk_group_segment_size p) ++
    hex_line "kernel_object: " (pk_kernel_object p) ++
    tab :: lit "kernarg_address: 0x" ++ pointer_text (pk_kernarg_address p) ++ [newline] ++
    hex_line "completion_signal " (pk_completion_signal p)
  else lit "Unsupported packet type" ++ [newline].

(** ** Argument segments *)

(** A difference of pointers. *)
Definition offset_text (z : Z) : bytes := if z <? 0 then lit "-" ++ to_dec (- z) else to_dec z.

(** The offsets [fixupKernArgs] uses. *)
Definition test_pointers (desc : arg_descriptor_t) : bytes :=
  lit "src length for explicit args: " ++ to_dec (u64 (explicit_args_length desc - 8)) ++ [newline] ++
  lit "Dst offset for hidden args: " ++ to_dec (explicit_args_length desc) ++ [newline] ++
  lit "Src offset for hidden args: " ++ offset_text (explicit_args_length desc - 8) ++ [newline].

(** The 32-bit words of a segment, whole ones only. *)
Fixpoint words (segment : list Z) : list Z :=
  match segment with
  | a :: b :: c :: d :: rest => (a + 2 ^ 8 * b + 2 ^ 16 * c + 2 ^ 24 * d) :: words rest
  | _ => []
  end.

Definition word_text (w : Z) : bytes := pad_left 8 "0"%char (to_hex w).

(** The loop over both segments from word [i] on; reading past the end of either is
    undefined. *)
Fixpoint dump_pairs (bound i : Z) (src dst : list Z) : res bytes :=
  if i <? bound then
    match src, dst with
    | s :: src', d :: dst' =>
        let! text := dump_pairs bound (i + 1) src' dst' in
        Ok (word_text s ++ [tab] ++ word_text d ++ [newline] ++ text)
    | _, _ => Err FUB
    end
  else Ok [].

Definition word_at (ws : list Z) (i : Z) : res Z :=
  match ws !! Z.to_nat i with Some w => Ok w | None => Err FUB end.

Definition dumpKernArgs (dst src : list Z) (desc : arg_descriptor_t) : res bytes :=
  let wordcount := u32 (kernarg_length desc / 4) in
  let! pairs := dump_pairs (u32 (wordcount - 2)) 0 (words src) (words dst) in
  let! w1 := word_at (words dst) (u32 (wordcount - 2)) in
  let! w2 := word_at (words dst) (u32 (wordcount - 1)) in
  Ok (lit "dumpKernelArgs: Compare 2 segments with largest segment size " ++ to_dec (kernarg_length desc) ++
      [newline] ++ pairs ++ [tab; tab] ++ word_text w1 ++ [newline] ++ [tab; tab] ++ word_text w2 ++ [newline]).

Fixpoint dump_words (bound i : Z) (ws : list Z) : res bytes :=
  if i <? bound then
    match ws with
    | w :: ws' => let! text := dump_words bound (i + 1) ws' in Ok (word_text w ++ [newline] ++ text)
    | [] => Err FUB
    end
  else Ok [].

Definition dumpKernArgs_single (args : list Z) (size : Z) : res bytes :=
  let! text := dump_words (u32 size / 4) 0 (words args) in
  Ok (lit "dumpKernelArgs: Single kernarg segment of size " ++ to_dec size ++ [newline] ++ text).

(** ** What the dump reads *)
Lemma words_length segment : length (words segment) = (length segment / 4)%nat.
Proof.
  remember (length segment) as n eqn:Hn. revert segment Hn.
  induction n as [n IH] using lt_wf_ind. intros segment ->.
  destruct segment as [|a [|b [|c [|d rest]]]]; try done. cbn [words length].
  rewrite (IH (length rest)) by (cbn; lia || done).
  replace (S (S (S (S (length rest))))) with (length rest + 1 * 4)%nat by lia.
  by rewrite Nat.div_add, Nat.add_1_r by done.
Qed.

Lemma dump_pairs_ok bound i src dst :
  0 ≤ i ≤ bound →
  is_Ok (dump_pairs bound i src dst) ↔
    bound - i ≤ Z.of_nat (length src) ∧ bound - i ≤ Z.of_nat (length dst).
Proof.
  revert i dst. induction src as [|s src IH]; intros i dst Hi; cbn;
    destruct (Z.ltb_spec i bound) as [Hlt|Hge].
  - split; [by intros []|lia].
  - split; [lia|by eexists].
  - destruct dst as [|d dst]; cbn; [split; [by intros []|lia]|].
    specialize (IH (i + 1) dst ltac:(lia)). split.
    + intros [t (x & Hx & _)%res_bind_Ok]. destruct IH as [IH _]. specialize (IH (ex_intro _ x Hx)). lia.
    + intros Hb. destruct IH as [_ IH]. destruct IH as [x ->]; [lia|]. by eexists.
  - split; [lia|by eexists].
Qed.

(** The comparing dump stays within its segments exactly if the clone's segment has
    at least two words and both are long enough; a segment of less than eight
    bytes makes the bound of its loop wrap around. *)
Lemma dumpKernArgs_bounds dst src desc :
  0 ≤ kernarg_length desc < 2 ^ 34 → Z.of_nat (length src) < 2 ^ 32 →
  is_Ok (dumpKernArgs dst src desc) ↔
    8 ≤ kernarg_length desc ∧ kernarg_length desc / 4 ≤ Z.of_nat (length dst / 4) ∧
    kernarg_length desc / 4 - 2 ≤ Z.of_nat (length src / 4).
Proof.
  intros Hk Hsrc. set (n := kernarg_length desc / 4).
  assert (0 ≤ n < 2 ^ 32) as Hn by (unfold n; split; [apply Z.div_pos|apply Z.div_lt_upper_bound]; lia).
  assert (2 ≤ n ↔ 8 ≤ kernarg_length desc) as Hn2.
  { unfold n. pose proof (Z.div_mod (kernarg_length desc) 4). pose proof (Z.mod_pos_bound (kernarg_length desc) 4).
    lia. }
  assert (u32 n = n) as Hu by (apply wrap_small; lia).
  assert (0 ≤ u32 (n - 2)) as Hb by (apply wrap_bound; lia).
  pose proof (dump_pairs_ok (u32 (n - 2)) 0 (words src) (words dst) ltac:(lia)) as Hp.
  rewrite !words_length in Hp. unfold dumpKernArgs. fold n. rewrite Hu.
  pose proof (Nat.Div0.mul_div_le (length src) 4) as Hdiv.
  destruct (Z.le_gt_cases 2 n) as [Hge|Hlt].
  - rewrite (wrap_small 32 (n - 2)), (wrap_small 32 (n - 1)) in * by lia. split.
    + intros [t (x & Hx & Hw)%res_bind_Ok]. apply res_bind_Ok in Hw as (w1 & H1 & (w2 & H2 & _)%res_bind_Ok).
      destruct Hp as [Hp _]. specialize (Hp (ex_intro _ x Hx)).
      unfold word_at in H2. destruct (words dst !! Z.to_nat (n - 1)) as [w|] eqn:E; [|done].
      apply lookup_lt_Some in E. rewrite words_length in E. lia.
    + intros (_ & Hd & Hs). destruct Hp as [_ Hp]. destruct Hp as [x ->]; [lia|]. cbn [res_bind].
      unfold word_at.
      destruct (lookup_lt_is_Some_2 (words dst) (Z.to_nat (n - 2))) as [w1 ->]; [rewrite words_length; lia|].
      destruct (lookup_lt_is_Some_2 (words dst) (Z.to_nat (n - 1))) as [w2 ->]; [rewrite words_length; lia|].
      by eexists.
  - split; [|lia]. intros [t (x & Hx & _)%res_bind_Ok]. destruct Hp as [Hp _].
    specialize (Hp (ex_intro _ x Hx)).
    assert (2 ^ 32 - 2 ≤ u32 (n - 2)) as Hw; [|lia].
    unfold wrap. rewrite <- (Z.mod_add (n - 2) 1) by lia. rewrite Z.mod_small by lia. lia.
Qed.

(** A dispatch with system scopes, one dimension of 64 threads. *)
Example packetToText_dispatch :
  take 98 (packetToText (Packet (2 + 2 ^ 10 + 2 ^ 12) [64; 1; 1; 4096; 1; 1] 0 0 1000 4096 18)) =
    lit "Dispatch Packet" ++ [newline] ++ tab :: lit "Release Scope: HSA_FENCE_SCOPE_SYSTEM" ++ [newline] ++
    tab :: lit "Acquire Scope: HSA_FENCE_SCOPE_SYSTEM" ++ [newline; tab] ++ lit "set".
Proof. vm_compute. reflexivity. Qed.
