(* ===== verification/Registration.v ===== *)
(** * Concurrent registration of kernels

    [addKernel] ([src/interceptor.cc]) takes the interceptor's lock for its first
    half only; [isKernelFromExcludedFile] and [registerRuntimeKernel]
    ([src/utils.cc]) each take the cache's.  Several application threads can be
    inside [addKernel] at once.  Here each critical section is one step, and the
    steps of any number of threads interleave: the result is that of the calls made
    one after the other, in some order. *)
From S2P Require Import Prelude StdString Names KernArgs CoCache Dispatch Comms LibraryFilter Interceptor.

Section registration.
Context {rng handler : Type} `{HL : HsaLoader}.
Abbreviation state := (interceptor rng handler).
Abbreviation run := (M rng handler).
Implicit Types (st : state).

(** ** One thread *)
Record request := Request {
  rq_object : Z;
  rq_name : bytes;
  rq_symbol : Z;
  rq_agent : Z;
  rq_size : Z;
}.

(** Where a thread is; [this_name] is its local variable, [executable] and
    [excluded] those of [isKernelFromExcludedFile]. *)
Inductive position :=
| AtStart
| AtCheck (this_name : bytes)
| AtStore (this_name : bytes) (executable : Z) (excluded : bool)
| AtRegister (this_name : bytes)
| AtEnd.

(** The name a kernel is registered under. *)
Definition thisName (name : bytes) : bytes :=
  let demangled := demangleName (c_str name) in match demangled with [] => name | _ => demangled end.

(** The critical section a thread is at, and the code up to the next one. *)
Definition thread_step (rq : request) (p : position) : run position :=
  match p with
  | AtStart =>
      known ← gets (λ st, kernel_objects_ st !! rq_object rq);
      match known with
      | Some _ => mret AtEnd
      | None =>
          let n := thisName (rq_name rq) in
          _ ← modify (λ st, set_kernel_objects
                (<[rq_object rq := LdKernel n (rq_symbol rq) (rq_agent rq) (rq_size rq)]>
                   (kernel_objects_ st)) st);
          instrumented ← gets run_instrumented_;
          filter ← gets library_filter_;
          mret (if instrumented : bool then if active_ filter then AtCheck n else AtRegister n else AtEnd)
      end
  | AtCheck n =>
      match query_executable (rq_object rq) with
      | None => mret (AtRegister n)
      | Some executable =>
          cached ← gets (λ st, excluded_executable_cache_ (kernel_cache_ st) !! executable);
          filter ← gets library_filter_;
          mret (match cached with
                | Some true => AtEnd
                | Some false => AtRegister n
                | None => AtStore n executable
                            (any_excluded (isExcluded filter) (loaded_code_objects executable))
                end)
      end
  | AtStore n executable excluded =>
      _ ← modify (λ st, set_kernel_cache
            (set_excluded (<[executable := excluded]> (excluded_executable_cache_ (kernel_cache_ st)))
               (kernel_cache_ st)) st);
      mret (if excluded : bool then AtEnd else AtRegister n)
  | AtRegister n =>
      _ ← modify (λ st, set_kernel_cache
            (registerRuntimeKernel n (rq_symbol rq) (rq_object rq) (rq_agent rq) (rq_size rq)
               (kernel_cache_ st)) st);
      mret AtEnd
  | AtEnd => mret AtEnd
  end.

Definition add_kernel (rq : request) : run unit :=
  addKernel (rq_object rq) (rq_name rq) (rq_symbol rq) (rq_agent rq) (rq_size rq).

Fixpoint add_kernels (rqs : list request) : run unit :=
  match rqs with [] => mret () | rq :: rqs' => _ ← add_kernel rq; add_kernels rqs' end.

(** ** Many threads *)
Abbreviation thread := (request * position)%type.

Inductive threads_step : list thread * state → list thread * state → Prop :=
| one_thread ts i rq p p' st st' :
    ts !! i = Some (rq, p) → p ≠ AtEnd → thread_step rq p st = (st', Ok p') →
    threads_step (ts, st) (<[i := (rq, p')]> ts, st').

Definition starting (rqs : list request) : list thread := (λ rq, (rq, AtStart)) <$> rqs.
Definition all_done (ts : list thread) : Prop := Forall (λ t, t.2 = AtEnd) ts.

(** ** The members the calls write *)
Section run.
Variable st0 : state.
Abbreviation instr := (run_instrumented_ st0).
Abbreviation filt := (library_filter_ st0).
Implicit Types (K : gmap Z ld_kernel_descriptor) (C : coCache) (X : gmap Z bool)
  (rq : request) (p : position) (i j : nat) (ts : list thread).

Definition placed K C : state := set_kernel_cache C (set_kernel_objects K st0).
Definition kernel_of (rq : request) : ld_kernel_descriptor :=
  LdKernel (thisName (rq_name rq)) (rq_symbol rq) (rq_agent rq) (rq_size rq).
Definition excl (executable : Z) : bool :=
  any_excluded (isExcluded filt) (loaded_code_objects executable).
Definition reg (rq : request) C : coCache :=
  registerRuntimeKernel (thisName (rq_name rq)) (rq_symbol rq) (rq_object rq) (rq_agent rq) (rq_size rq) C.

(** What the second half of [addKernel] does to the cache. *)
Definition second_half (rq : request) C : coCache :=
  if instr then
    if active_ filt then
      let '(excluded, C') := isKernelFromExcludedFile (isExcluded filt) (rq_object rq) C in
      if excluded then C' else reg rq C'
    else reg rq C
  else C.

Abbreviation cached C := (excluded_executable_cache_ C).

Lemma add_kernel_known rq K C :
  is_Some (K !! rq_object rq) → add_kernel rq (placed K C) = (placed K C, Ok ()).
Proof. intros [d H]. unfold add_kernel, addKernel, gets, mbind, M_bind. cbn. by rewrite H. Qed.

Lemma add_kernel_fresh rq K C :
  K !! rq_object rq = None →
  add_kernel rq (placed K C) = (placed (<[rq_object rq := kernel_of rq]> K) (second_half rq C), Ok ()).
Proof.
  intros H. unfold add_kernel, addKernel, second_half, gets, mbind, M_bind. cbn. rewrite H.
  fold (thisName (rq_name rq)). unfold modify, mret, M_ret. cbn.
  destruct instr eqn:Hi; [|done]. destruct (active_ filt) eqn:Ha; [|done].
  unfold with_cache. cbn.
  by destruct (isKernelFromExcludedFile _ _ _) as [[] C'].
Qed.

Lemma add_kernels_app rqs rqs' K C K' C' :
  add_kernels rqs (placed K C) = (placed K' C', Ok ()) →
  add_kernels (rqs ++ rqs') (placed K C) = add_kernels rqs' (placed K' C').
Proof.
  revert K C. induction rqs as [|rq rqs IH]; intros K C; cbn.
  - intros E. by assert (placed K C = placed K' C') as -> by exact (f_equal fst E).
  - unfold mbind, M_bind. destruct (K !! rq_object rq) as [d|] eqn:E.
    + rewrite add_kernel_known by done. apply IH.
    + rewrite add_kernel_fresh by done. apply IH.
Qed.

Lemma add_kernels_known rqs K C :
  Forall (λ rq, is_Some (K !! rq_object rq)) rqs →
  add_kernels rqs (placed K C) = (placed K C, Ok ()).
Proof.
  induction 1 as [|rq rqs H _ IH]; [done|]. cbn. unfold mbind, M_bind.
  by rewrite add_kernel_known.
Qed.

(** *** The exclusion cache and the rest of the cache *)
Lemma set_excluded_same C : set_excluded (cached C) C = C.
Proof. by destruct C. Qed.

Lemma reg_set_excluded rq X C : reg rq (set_excluded X C) = set_excluded X (reg rq C).
Proof.
  unfold reg, registerRuntimeKernel. cbn.
  destruct (lookup_map_ C !! rq_agent rq) as [inner|]; [|done].
  by destruct (inner !! thisName (rq_name rq)).
Qed.

Lemma reg_cached rq C : cached (reg rq C) = cached C.
Proof. rewrite <- (set_excluded_same C) at 1. by rewrite reg_set_excluded. Qed.

Lemma set_excluded_over X Y C D : C = set_excluded Y D → set_excluded X C = set_excluded X D.
Proof. by intros ->. Qed.

(** The verdict a query reaches, and what it leaves. *)
Definition verdict (X : gmap Z bool) (executable : Z) : bool := default (excl executable) (X !! executable).

Lemma second_half_filtered rq C e :
  instr = true → active_ filt = true → query_executable (rq_object rq) = Some e →
  second_half rq C =
    set_excluded (<[e := verdict (cached C) e]> (cached C))
      (if verdict (cached C) e then C else reg rq C).
Proof.
  intros Hi Ha Hq. unfold second_half, isKernelFromExcludedFile, verdict. rewrite Hi, Ha, Hq.
  destruct (cached C !! e) as [b|] eqn:Hb; cbn.
  - rewrite insert_id by done. destruct b; [by rewrite set_excluded_same|].
    by rewrite <- (reg_cached rq C), set_excluded_same.
  - destruct (excl e) eqn:He; unfold excl in He; rewrite He; [done|]. apply reg_set_excluded.
Qed.

(** *** The steps, branch by branch *)
Inductive moves (rq : request) K C : position → gmap Z ld_kernel_descriptor → coCache → position → Prop :=
| mv_known : is_Some (K !! rq_object rq) → moves rq K C AtStart K C AtEnd
| mv_plain :
    K !! rq_object rq = None → instr = false →
    moves rq K C AtStart (<[rq_object rq := kernel_of rq]> K) C AtEnd
| mv_claim :
    K !! rq_object rq = None → instr = true →
    moves rq K C AtStart (<[rq_object rq := kernel_of rq]> K) C
      (if active_ filt then AtCheck (thisName (rq_name rq)) else AtRegister (thisName (rq_name rq)))
| mv_unknown n : query_executable (rq_object rq) = None → moves rq K C (AtCheck n) K C (AtRegister n)
| mv_cached n e (b : bool) :
    query_executable (rq_object rq) = Some e → cached C !! e = Some b →
    moves rq K C (AtCheck n) K C (if b then AtEnd else AtRegister n)
| mv_compute n e :
    query_executable (rq_object rq) = Some e → cached C !! e = None →
    moves rq K C (AtCheck n) K C (AtStore n e (excl e))
| mv_store n e (b : bool) :
    moves rq K C (AtStore n e b) K (set_excluded (<[e := b]> (cached C)) C)
      (if b then AtEnd else AtRegister n)
| mv_register :
    moves rq K C (AtRegister (thisName (rq_name rq))) K (reg rq C) AtEnd.

Definition named (rq : request) (p : position) : Prop :=
  match p with AtCheck n | AtStore n _ _ | AtRegister n => n = thisName (rq_name rq) | _ => True end.

Lemma thread_step_moves rq p p' K C st' :
  named rq p → p ≠ AtEnd → thread_step rq p (placed K C) = (st', Ok p') →
  ∃ K' C', st' = placed K' C' ∧ moves rq K C p K' C' p'.
Proof.
  intros Hn Hend. destruct p as [|n|n e b|n|]; try done; cbn in Hn; subst; unfold thread_step, gets, mbind, M_bind, modify.
  - cbn. destruct (K !! rq_object rq) as [d|] eqn:E.
    + intros [= <- <-]. exists K, C. split; [done|]. by constructor.
    + intros [= <- <-]. exists (<[rq_object rq := kernel_of rq]> K), C. split; [done|].
      destruct instr eqn:Hi; [by apply mv_claim|by apply mv_plain].
  - destruct (query_executable (rq_object rq)) as [e|] eqn:E; cbn.
    + destruct (cached C !! e) as [b|] eqn:Hb; intros [= <- <-]; exists K, C; (split; [done|]).
      * assert (H := mv_cached rq K C (thisName (rq_name rq)) e b E Hb). by destruct b.
      * by apply mv_compute.
    + intros [= <- <-]. exists K, C. split; [done|]. by constructor.
  - intros [= <- <-]. exists K, (set_excluded (<[e := b]> (cached C)) C). split; [done|]. constructor.
  - intros [= <- <-]. exists K, (reg rq C). split; [done|]. constructor.
Qed.

(** ** The invariant *)

(** Claimed but not finished. *)
Definition flying (p : position) : bool :=
  match p with AtCheck _ | AtStore _ _ _ | AtRegister _ => true | _ => false end.

(** What a thread knows where it is. *)
Definition knows X (rq : request) (p : position) : Prop :=
  match p with
  | AtStart | AtEnd => True
  | AtCheck n => n = thisName (rq_name rq) ∧ instr = true ∧ active_ filt = true
  | AtStore n e b =>
      n = thisName (rq_name rq) ∧ instr = true ∧ active_ filt = true ∧
      query_executable (rq_object rq) = Some e ∧ b = excl e ∧ (X !! e = None ∨ X !! e = Some b)
  | AtRegister n =>
      n = thisName (rq_name rq) ∧ instr = true ∧
      (active_ filt = true → ∀ e, query_executable (rq_object rq) = Some e → X !! e = Some false)
  end.

Definition finished (ts : list thread) : list request :=
  omap (λ t : thread, match t.2 with AtEnd => Some t.1 | _ => None end) ts.

Lemma insert_middle (ts : list thread) i t t' :
  ts !! i = Some t → ∃ l r, ts = l ++ t :: r ∧ <[i := t']> ts = l ++ t' :: r.
Proof.
  intros H. exists (take i ts), (drop (S i) ts). split; [by rewrite take_drop_middle|].
  rewrite <- (take_drop_middle ts i t H) at 1. rewrite insert_app_r_alt.
  - assert (i < length ts)%nat by (eapply lookup_lt_Some; exact H).
    by rewrite length_take, Nat.min_l, Nat.sub_diag by lia.
  - rewrite length_take. lia.
Qed.

Lemma finished_step ts i rq p p' :
  ts !! i = Some (rq, p) → p ≠ AtEnd →
  finished (<[i := (rq, p')]> ts) ≡ₚ (match p' with AtEnd => [rq] | _ => [] end) ++ finished ts.
Proof.
  intros H Hp. destruct (insert_middle ts i (rq, p) (rq, p') H) as (l & r & -> & ->).
  unfold finished. rewrite !omap_app. cbn.
  destruct p, p'; try done; cbn; by rewrite Permutation_middle.
Qed.

Lemma requests_step ts i rq p p' : ts !! i = Some (rq, p) → (<[i := (rq, p')]> ts).*1 = ts.*1.
Proof.
  intros H. destruct (insert_middle ts i (rq, p) (rq, p') H) as (l & r & -> & ->).
  by rewrite !fmap_app.
Qed.

Lemma finished_starting rqs : finished (starting rqs) = [].
Proof. induction rqs; [done|exact IHrqs]. Qed.

Lemma requests_starting rqs : (starting rqs).*1 = rqs.
Proof. induction rqs as [|rq rqs IH]; [done|]. by cbn; f_equal. Qed.

Lemma finished_done ts : all_done ts → finished ts = ts.*1.
Proof.
  induction 1 as [|[rq p] ts Hp _ IH]; [done|]. cbn in *. subst. cbn. by f_equal.
Qed.

(** [won] is the order of the calls that claimed their kernel and finished, [lost]
    are those that found it known; [Ks] and [Cs] are the members after the calls of
    [won], one after the other. *)
Record sim K0 C0 (ts : list thread) K C (won lost : list request) Ks Cs : Prop := Sim {
  sim_run : add_kernels won (placed K0 C0) = (placed Ks Cs, Ok ());
  sim_finished : won ++ lost ≡ₚ finished ts;
  sim_cache : C = set_excluded (cached C) Cs;
  sim_sub : cached Cs ⊆ cached C;
  sim_extra : ∀ e b, cached Cs !! e = None → cached C !! e = Some b →
    b = excl e ∧ active_ filt = true ∧
    ∃ i rq n, ts !! i = Some (rq, AtRegister n) ∧ query_executable (rq_object rq) = Some e;
  sim_flying : ∀ i rq p, ts !! i = Some (rq, p) → flying p = true →
    Ks !! rq_object rq = None ∧ K !! rq_object rq = Some (kernel_of rq) ∧
    ∀ j rq' p', ts !! j = Some (rq', p') → flying p' = true →
      rq_object rq' = rq_object rq → j = i;
  sim_knows : ∀ i rq p, ts !! i = Some (rq, p) → knows (cached C) rq p;
  sim_objects : ∀ o, K !! o = Ks !! o ∨
    ∃ i rq p, ts !! i = Some (rq, p) ∧ flying p = true ∧ rq_object rq = o;
  sim_lost : Forall (λ rq, is_Some (K !! rq_object rq)) lost;
}.

Lemma sim_start K C rqs : sim K C (starting rqs) K C [] [] K C.
Proof.
  assert (H : ∀ i rq p, starting rqs !! i = Some (rq, p) → p = AtStart).
  { intros i rq p E. unfold starting in E. rewrite list_lookup_fmap in E. by destruct (rqs !! i); simplify_eq/=. }
  split; try done.
  - by rewrite finished_starting.
  - by rewrite set_excluded_same.
  - intros e b E1 E2. congruence.
  - intros i rq p E Hf. by rewrite (H _ _ _ E) in Hf.
  - intros i rq p E. by rewrite (H _ _ _ E).
  - intros o. by left.
Qed.

(** When every thread is at its end, nothing is left between the two runs. *)
Lemma sim_done K0 C0 ts K C won lost Ks Cs :
  sim K0 C0 ts K C won lost Ks Cs → all_done ts →
  add_kernels (won ++ lost) (placed K0 C0) = (placed K C, Ok ()) ∧ won ++ lost ≡ₚ ts.*1.
Proof.
  intros [Hrun Hfin Hc Hsub Hextra Hfly Hknow Hobj Hlost] Hdone.
  assert (Hend : ∀ i rq p, ts !! i = Some (rq, p) → p = AtEnd).
  { intros i rq p E. unfold all_done in Hdone. rewrite list.Forall_forall in Hdone.
    apply (Hdone (rq, p)). by eapply list_elem_of_lookup_2. }
  assert (K = Ks) as ->.
  { apply map_eq. intros o. destruct (Hobj o) as [H|(i & rq & p & E & Hp & _)]; [done|].
    by rewrite (Hend _ _ _ E) in Hp. }
  assert (cached C = cached Cs) as HX.
  { apply map_eq. intros e. destruct (cached Cs !! e) as [b|] eqn:E.
    - by apply (lookup_weaken _ _ _ _ E).
    - destruct (cached C !! e) as [b|] eqn:E'; [|done].
      destruct (Hextra _ _ E E') as (_ & _ & i & rq & n & Hi & _). by apply Hend in Hi. }
  rewrite HX, set_excluded_same in Hc. subst C. split.
  - erewrite add_kernels_app by exact Hrun. by apply add_kernels_known.
  - by rewrite Hfin, finished_done.
Qed.

(** ** The steps keep the invariant *)
Definition grows X X' : Prop := X ⊆ X' ∧ ∀ e b, X' !! e = Some b → X !! e = Some b ∨ b = excl e.

Lemma grows_refl X : grows X X.
Proof. split; [done|]. intros e b H. by left. Qed.

Lemma grows_insert X e : X !! e = None ∨ X !! e = Some (excl e) → grows X (<[e := excl e]> X).
Proof.
  intros H. split.
  - destruct H as [H|H]; [by apply insert_subseteq|by rewrite insert_id].
  - intros e' b E. destruct (decide (e = e')) as [->|Hne].
    + rewrite lookup_insert_eq in E. right. congruence.
    + rewrite lookup_insert_ne in E by done. by left.
Qed.

Lemma knows_grows X X' rq p : grows X X' → knows X rq p → knows X' rq p.
Proof.
  intros [Hsub Hnew]. destruct p as [|n|n e b|n|]; cbn; try done.
  - intros (-> & ? & ? & ? & -> & H). repeat split; try done.
    destruct (X' !! e) as [b|] eqn:E; [|by left]. right. f_equal.
    destruct (Hnew _ _ E) as [E'|?]; [|done]. destruct H; congruence.
  - intros (-> & ? & H). repeat split; try done. intros Ha e He.
    exact (lookup_weaken _ _ _ _ (H Ha e He) Hsub).
Qed.

Lemma thread_lookup ts i j t t' :
  <[i := t]> ts !! j = Some t' → (j = i ∧ t' = t) ∨ (j ≠ i ∧ ts !! j = Some t').
Proof. intros H. apply list_lookup_insert_Some in H as [(-> & -> & _)|[Hne H]]; [by left|right; split; congruence]. Qed.

Lemma thread_written ts i t t' : ts !! i = Some t → <[i := t']> ts !! i = Some t'.
Proof. intros H. apply list_lookup_insert_eq. by eapply lookup_lt_Some. Qed.

Section step.
Context {K0 C0 ts K C won lost Ks Cs} (S : sim K0 C0 ts K C won lost Ks Cs).
Context {i : nat} {rq : request} {p : position} (Hi : ts !! i = Some (rq, p)).

(** A thread that claimed its kernel goes on. *)
Lemma sim_move p' X' :
  flying p = true → (∀ n, p ≠ AtRegister n) → flying p' = true →
  grows (cached C) X' → knows X' rq p' →
  (∀ e b, cached C !! e = None → X' !! e = Some b →
     active_ filt = true ∧ (∃ n, p' = AtRegister n) ∧ query_executable (rq_object rq) = Some e) →
  sim K0 C0 (<[i := (rq, p')]> ts) K (set_excluded X' C) won lost Ks Cs.
Proof using S Hi.
  intros Hp Hreg Hp' Hg Hk' Hnew. destruct S as [Hrun Hfin Hc Hsub Hextra Hfly Hknow Hobj Hlost].
  split; try done.
  - rewrite Hfin. symmetry. rewrite (finished_step ts i rq p p' Hi) by (by destruct p). by destruct p'.
  - cbn. by rewrite Hc at 1.
  - cbn. by transitivity (cached C); [|apply Hg].
  - cbn. intros e b E E'. destruct (cached C !! e) as [b'|] eqn:EC.
    + destruct (Hextra e b' E EC) as (-> & Ha & j & rq' & n & Hj & Hq).
      assert (b = excl e) as -> by (pose proof (lookup_weaken _ _ _ _ EC (proj1 Hg)); congruence).
      repeat split; try done. exists j, rq', n. split; [|done].
      rewrite list_lookup_insert_ne; [done|]. intros ->. rewrite Hi in Hj. simplify_eq. by destruct (Hreg n).
    + destruct (Hnew e b EC E') as (Ha & [n ->] & Hq).
      split; [by destruct (proj2 Hg e b E') as [?|?]; [congruence|]|]. split; [done|].
      exists i, rq, n. split; [by eapply thread_written|done].
  - intros j rq' q Hj Hq. apply thread_lookup in Hj as [[-> [= -> ->]]|[Hne Hj]].
    + destruct (Hfly _ _ _ Hi Hp) as (H1 & H2 & H3). repeat split; try done.
      intros k rq'' q' Hk Hq' Ho. apply thread_lookup in Hk as [[-> _]|[_ Hk]]; [done|by eapply H3].
    + destruct (Hfly _ _ _ Hj Hq) as (H1 & H2 & H3). repeat split; try done.
      intros k rq'' q' Hk Hq' Ho. apply thread_lookup in Hk as [[-> [= -> ->]]|[_ Hk]]; by eapply H3.
  - cbn. intros j rq' q Hj. apply thread_lookup in Hj as [[-> [= -> ->]]|[Hne Hj]]; [done|].
    eapply knows_grows; [done|by eapply Hknow].
  - intros o. destruct (Hobj o) as [H|(j & rq' & q & Hj & Hq & Ho)]; [by left|right].
    destruct (decide (i = j)) as [->|Hne].
    + rewrite Hi in Hj. simplify_eq. exists j, rq', p'. split; [by eapply thread_written|done].
    + exists j, rq', q. by rewrite list_lookup_insert_ne.
Qed.

(** A thread that claimed its kernel finishes: its call is the next of the order. *)
Lemma sim_finish C' :
  flying p = true →
  C' = set_excluded (cached C') (second_half rq Cs) →
  cached Cs ⊆ cached (second_half rq Cs) → cached (second_half rq Cs) ⊆ cached C' →
  grows (cached C) (cached C') →
  (∀ e b, cached (second_half rq Cs) !! e = None → cached C' !! e = Some b →
     cached C !! e = Some b ∧ (active_ filt = true → query_executable (rq_object rq) ≠ Some e)) →
  sim K0 C0 (<[i := (rq, AtEnd)]> ts) K C' (won ++ [rq]) lost
    (<[rq_object rq := kernel_of rq]> Ks) (second_half rq Cs).
Proof using S Hi.
  intros Hp HC Hsub1 Hsub2 Hg Hnew. destruct S as [Hrun Hfin Hc Hsub Hextra Hfly Hknow Hobj Hlost].
  destruct (Hfly _ _ _ Hi Hp) as (HKs & HK & Hdist).
  split; try done.
  - erewrite add_kernels_app by exact Hrun. cbn. unfold mbind, M_bind. by rewrite add_kernel_fresh.
  - rewrite (finished_step ts i rq p AtEnd Hi) by (by destruct p). rewrite <- Hfin. cbn.
    rewrite <- (assoc_L (++)). cbn. by rewrite <- Permutation_middle.
  - intros e b E E'. destruct (Hnew e b E E') as [EC Hq].
    assert (cached Cs !! e = None) as ECs by (by eapply lookup_weaken_None).
    destruct (Hextra e b ECs EC) as (-> & Ha & j & rq' & n & Hj & Hq').
    repeat split; try done. exists j, rq', n. split; [|done].
    rewrite list_lookup_insert_ne; [done|]. intros ->. rewrite Hi in Hj. simplify_eq. by destruct (Hq Ha).
  - intros j rq' q Hj Hq. apply thread_lookup in Hj as [[-> [= -> ->]]|[Hne Hj]]; [done|].
    destruct (Hfly _ _ _ Hj Hq) as (H1 & H2 & H3). split; [|split; [done|]].
    + rewrite lookup_insert_ne; [done|]. intros Ho. apply Hne. by eapply Hdist.
    + intros k rq'' q' Hk Hq' Ho. apply thread_lookup in Hk as [[-> [= -> ->]]|[_ Hk]]; [done|by eapply H3].
  - intros j rq' q Hj. apply thread_lookup in Hj as [[-> [= -> ->]]|[Hne Hj]]; [done|].
    eapply knows_grows; [done|by eapply Hknow].
  - intros o. destruct (decide (rq_object rq = o)) as [<-|Ho].
    + left. by rewrite lookup_insert_eq.
    + rewrite lookup_insert_ne by done.
      destruct (Hobj o) as [H|(j & rq' & q & Hj & Hq & Ho')]; [by left|right].
      exists j, rq', q. rewrite list_lookup_insert_ne; [done|]. intros ->. rewrite Hi in Hj. by simplify_eq.
Qed.

(** A thread that finds its kernel known is done. *)
Lemma sim_lose :
  p = AtStart → is_Some (K !! rq_object rq) →
  sim K0 C0 (<[i := (rq, AtEnd)]> ts) K C won (lost ++ [rq]) Ks Cs.
Proof using S Hi.
  intros Hp HK. destruct S as [Hrun Hfin Hc Hsub Hextra Hfly Hknow Hobj Hlost]. subst p.
  assert (Hother : ∀ j rq' q, <[i := (rq, AtEnd)]> ts !! j = Some (rq', q) → flying q = true → ts !! j = Some (rq', q)).
  { intros j rq' q Hj Hq. apply thread_lookup in Hj as [[-> [= -> ->]]|[_ Hj]]; done. }
  split; try done.
  - rewrite (finished_step ts i rq AtStart AtEnd Hi) by done. rewrite <- Hfin. cbn.
    rewrite (assoc_L (++)). by rewrite <- Permutation_cons_append.
  - intros e b E E'. destruct (Hextra e b E E') as (-> & Ha & j & rq' & n & Hj & Hq').
    repeat split; try done. exists j, rq', n. split; [|done].
    rewrite list_lookup_insert_ne; [done|]. intros ->. by simplify_eq.
  - intros j rq' q Hj Hq. destruct (Hfly _ _ _ (Hother _ _ _ Hj Hq) Hq) as (H1 & H2 & H3).
    repeat split; try done. intros k rq'' q' Hk Hq' Ho. by eapply H3; [apply Hother| |].
  - intros j rq' q Hj. apply thread_lookup in Hj as [[-> [= -> ->]]|[Hne Hj]]; [done|by eapply Hknow].
  - intros o. destruct (Hobj o) as [H|(j & rq' & q & Hj & Hq & Ho)]; [by left|right].
    exists j, rq', q. rewrite list_lookup_insert_ne; [done|]. intros ->. by simplify_eq.
  - apply list.Forall_app. split; [done|by repeat constructor].
Qed.

(** A new kernel, claimed by a thread that will go on. *)
Lemma sim_claim p' :
  p = AtStart → K !! rq_object rq = None → flying p' = true → knows (cached C) rq p' →
  sim K0 C0 (<[i := (rq, p')]> ts) (<[rq_object rq := kernel_of rq]> K) C won lost Ks Cs.
Proof using S Hi.
  intros Hp HK Hp' Hk'. destruct S as [Hrun Hfin Hc Hsub Hextra Hfly Hknow Hobj Hlost]. subst p.
  assert (Hnew : ∀ j rq' q, ts !! j = Some (rq', q) → flying q = true → rq_object rq' ≠ rq_object rq).
  { intros j rq' q Hj Hq Ho. destruct (Hfly _ _ _ Hj Hq) as (_ & E & _). rewrite Ho in E. congruence. }
  assert (HKs : Ks !! rq_object rq = None).
  { destruct (Hobj (rq_object rq)) as [H|(j & rq' & q & Hj & Hq & Ho)]; [congruence|]. by destruct (Hnew _ _ _ Hj Hq). }
  split; try done.
  - rewrite Hfin. symmetry. rewrite (finished_step ts i rq AtStart p' Hi) by done. by destruct p'.
  - intros e b E E'. destruct (Hextra e b E E') as (-> & Ha & j & rq' & n & Hj & Hq').
    repeat split; try done. exists j, rq', n. split; [|done].
    rewrite list_lookup_insert_ne; [done|]. intros ->. by simplify_eq.
  - intros j rq' q Hj Hq. apply thread_lookup in Hj as [[-> [= -> ->]]|[Hne Hj]].
    + rewrite lookup_insert_eq. repeat split; try done.
      intros k rq'' q' Hk Hq' Ho. apply thread_lookup in Hk as [[-> _]|[_ Hk]]; [done|].
      by destruct (Hnew _ _ _ Hk Hq').
    + destruct (Hfly _ _ _ Hj Hq) as (H1 & H2 & H3). pose proof (Hnew _ _ _ Hj Hq) as Ho.
      rewrite lookup_insert_ne by done. repeat split; try done.
      intros k rq'' q' Hk Hq' Ho'. apply thread_lookup in Hk as [[-> [= -> ->]]|[_ Hk]]; [by destruct Ho|by eapply H3].
  - intros j rq' q Hj. apply thread_lookup in Hj as [[-> [= -> ->]]|[Hne Hj]]; [done|by eapply Hknow].
  - intros o. destruct (decide (rq_object rq = o)) as [<-|Ho].
    + right. exists i, rq, p'. split; [by eapply thread_written|done].
    + rewrite lookup_insert_ne by done.
      destruct (Hobj o) as [H|(j & rq' & q & Hj & Hq & Ho')]; [by left|right].
      exists j, rq', q. rewrite list_lookup_insert_ne; [done|]. intros ->. by simplify_eq.
  - eapply list.Forall_impl; [exact Hlost|]. intros rq' [d Hd]. cbn.
    destruct (decide (rq_object rq = rq_object rq')) as [<-|Ho].
    + rewrite lookup_insert_eq. by eexists.
    + rewrite lookup_insert_ne by done. by eexists.
Qed.

(** The verdict of the call is the one the cache already shows, and where it
    shows none, the one a thread computes. *)
Lemma verdict_agrees e :
  verdict (cached Cs) e = default (excl e) (cached C !! e) ∧
  grows (cached C) (<[e := verdict (cached Cs) e]> (cached C)).
Proof using S.
  destruct S as [_ _ _ Hsub Hextra _ _ _ _]. unfold verdict.
  destruct (cached Cs !! e) as [b|] eqn:E; cbn.
  - rewrite (lookup_weaken _ _ _ _ E Hsub). split; [done|].
    rewrite insert_id by (by eapply lookup_weaken). apply grows_refl.
  - destruct (cached C !! e) as [b|] eqn:E'; cbn.
    + destruct (Hextra e b E E') as [-> _]. split; [done|]. apply grows_insert. by right.
    + split; [done|]. apply grows_insert. by left.
Qed.

Lemma sim_finish_filtered e :
  flying p = true → instr = true → active_ filt = true → query_executable (rq_object rq) = Some e →
  let v := default (excl e) (cached C !! e) in
  sim K0 C0 (<[i := (rq, AtEnd)]> ts) K
    (set_excluded (<[e := v]> (cached C)) (if v then C else reg rq C)) (won ++ [rq]) lost
    (<[rq_object rq := kernel_of rq]> Ks) (second_half rq Cs).
Proof using S Hi.
  intros Hp Hin Ha Hq v. destruct (verdict_agrees e) as [Hv Hg]. fold v in Hv.
  assert (HC := sim_cache _ _ _ _ _ _ _ _ _ S). assert (Hsub := sim_sub _ _ _ _ _ _ _ _ _ S).
  rewrite Hv in Hg. assert (E := second_half_filtered rq Cs e Hin Ha Hq). rewrite Hv in E.
  assert (HX : cached (second_half rq Cs) = <[e := v]> (cached Cs)) by (by rewrite E).
  eapply sim_finish; try done.
  - cbn. rewrite E. destruct v; cbn; [exact (set_excluded_over _ _ _ _ HC)|].
    apply (set_excluded_over _ (cached C)). by rewrite HC at 1; rewrite reg_set_excluded.
  - rewrite HX. unfold v. destruct (cached Cs !! e) as [b|] eqn:Eb.
    + rewrite (lookup_weaken _ _ _ _ Eb Hsub). cbn. by rewrite insert_id.
    + by apply insert_subseteq.
  - rewrite HX. cbn. by apply insert_mono.
  - intros e' b E1 E2. rewrite HX in E1. cbn in E2.
    destruct (decide (e = e')) as [->|Hne]; [by rewrite lookup_insert_eq in E1|].
    rewrite lookup_insert_ne in E2 by done. split; [done|congruence].
Qed.

Lemma sim_finish_open :
  flying p = true → instr = true → (active_ filt = true → query_executable (rq_object rq) = None) →
  sim K0 C0 (<[i := (rq, AtEnd)]> ts) K (reg rq C) (won ++ [rq]) lost
    (<[rq_object rq := kernel_of rq]> Ks) (second_half rq Cs).
Proof using S Hi.
  intros Hp Hin Hq.
  assert (HC := sim_cache _ _ _ _ _ _ _ _ _ S). assert (Hsub := sim_sub _ _ _ _ _ _ _ _ _ S).
  assert (E : second_half rq Cs = reg rq Cs).
  { unfold second_half, isKernelFromExcludedFile. rewrite Hin. destruct (active_ filt); [|done]. by rewrite Hq. }
  assert (HX : cached (second_half rq Cs) = cached Cs) by (by rewrite E, reg_cached).
  eapply sim_finish; try done; rewrite ?HX, ?reg_cached; try done.
  - rewrite E. rewrite HC at 1. by rewrite reg_set_excluded.
  - apply grows_refl.
  - intros e b _ H. split; [done|]. intros Ha. by rewrite (Hq Ha).
Qed.

(** Nothing is instrumented: the first half is the whole call. *)
Lemma sim_plain :
  p = AtStart → K !! rq_object rq = None → instr = false →
  sim K0 C0 (<[i := (rq, AtEnd)]> ts) (<[rq_object rq := kernel_of rq]> K) C (won ++ [rq]) lost
    (<[rq_object rq := kernel_of rq]> Ks) Cs.
Proof using S Hi.
  intros Hp HK Hin. destruct S as [Hrun Hfin Hc Hsub Hextra Hfly Hknow Hobj Hlost]. subst p.
  assert (Hnone : ∀ j rq' q, ts !! j = Some (rq', q) → flying q = false).
  { intros j rq' q Hj. pose proof (Hknow _ _ _ Hj) as Hk. destruct q; try done; cbn in Hk; destruct_and?; congruence. }
  assert (HKs : K = Ks).
  { apply map_eq. intros o. destruct (Hobj o) as [H|(j & rq' & q & Hj & Hq & _)]; [done|].
    by rewrite (Hnone _ _ _ Hj) in Hq. }
  split; try done.
  - erewrite add_kernels_app by exact Hrun. cbn. unfold mbind, M_bind.
    rewrite add_kernel_fresh by (by rewrite <- HKs). unfold second_half. by rewrite Hin.
  - rewrite (finished_step ts i rq AtStart AtEnd Hi) by done. rewrite <- Hfin. cbn.
    rewrite <- (assoc_L (++)). cbn. by rewrite <- Permutation_middle.
  - intros e b E E'. destruct (Hextra e b E E') as (_ & _ & j & rq' & n & Hj & _).
    by apply Hnone in Hj.
  - intros j rq' q Hj Hq. apply thread_lookup in Hj as [[-> [= -> ->]]|[_ Hj]]; [done|].
    by rewrite (Hnone _ _ _ Hj) in Hq.
  - intros j rq' q Hj. apply thread_lookup in Hj as [[-> [= -> ->]]|[Hne Hj]]; [done|by eapply Hknow].
  - intros o. left. by rewrite HKs.
  - eapply list.Forall_impl; [exact Hlost|]. intros rq' [d Hd]. cbn.
    destruct (decide (rq_object rq = rq_object rq')) as [<-|Ho].
    + rewrite lookup_insert_eq. by eexists.
    + rewrite lookup_insert_ne by done. by eexists.
Qed.

End step.

(** Every step keeps the invariant. *)
Lemma sim_step {K0 C0 ts K C won lost Ks Cs} (S : sim K0 C0 ts K C won lost Ks Cs) {i rq p}
    (Hi : ts !! i = Some (rq, p)) p' K' C' :
  p ≠ AtEnd → moves rq K C p K' C' p' →
  ∃ won' lost' Ks' Cs', sim K0 C0 (<[i := (rq, p')]> ts) K' C' won' lost' Ks' Cs'.
Proof.
  intros Hend Hmv. pose proof (sim_knows _ _ _ _ _ _ _ _ _ S _ _ _ Hi) as Hk.
  inversion Hmv; subst; cbn in Hk.
  - do 4 eexists. by apply (sim_lose S Hi).
  - do 4 eexists. by apply (sim_plain S Hi).
  - exists won, lost, Ks, Cs. apply (sim_claim S Hi); try done.
    + by destruct (active_ filt).
    + by destruct (active_ filt) eqn:Ha; cbn; repeat split; rewrite ?Ha.
  - destruct Hk as (-> & Hin & Ha). exists won, lost, Ks, Cs.
    rewrite <- (set_excluded_same C') at 1. apply (sim_move S Hi); try done.
    + apply grows_refl.
    + cbn. repeat split; [done|]. intros _ e He. congruence.
    + congruence.
  - destruct Hk as (-> & Hin & Ha). destruct b.
    + do 4 eexists. pose proof (sim_finish_filtered S Hi e eq_refl Hin Ha H) as Hs. cbn in Hs.
      rewrite H0 in Hs. cbn in Hs. by rewrite insert_id, set_excluded_same in Hs.
    + exists won, lost, Ks, Cs. rewrite <- (set_excluded_same C') at 1. apply (sim_move S Hi); try done.
      * apply grows_refl.
      * cbn. repeat split; [done|]. intros _ e' He. congruence.
      * congruence.
  - destruct Hk as (-> & Hin & Ha). exists won, lost, Ks, Cs.
    rewrite <- (set_excluded_same C') at 1. apply (sim_move S Hi); try done.
    + apply grows_refl.
    + cbn. repeat split; try done. by left.
    + congruence.
  - destruct Hk as (-> & Hin & Ha & Hq & -> & HX).
    assert (Hd : default (excl e) (cached C !! e) = excl e) by (by destruct HX as [->| ->]).
    destruct (excl e) eqn:Hx.
    + do 4 eexists. pose proof (sim_finish_filtered S Hi e eq_refl Hin Ha Hq) as Hs. cbn in Hs.
      rewrite Hx, Hd in Hs. exact Hs.
    + exists won, lost, Ks, Cs. apply (sim_move S Hi); try done.
      * rewrite <- Hx. apply grows_insert. by rewrite Hx.
      * cbn. repeat split; [done|]. intros _ e' He. simplify_eq. by rewrite lookup_insert_eq.
      * intros e' b E E'. destruct (decide (e = e')) as [->|Hne]; [by eauto|].
        rewrite lookup_insert_ne in E' by done. congruence.
  - destruct Hk as (_ & Hin & HX). do 4 eexists.
    destruct (active_ filt) eqn:Ha; [destruct (query_executable (rq_object rq)) as [e|] eqn:Hq|].
    + pose proof (sim_finish_filtered S Hi e eq_refl Hin Ha Hq) as Hs. cbn in Hs.
      rewrite (HX eq_refl e eq_refl) in Hs. cbn in Hs.
      rewrite insert_id in Hs by (by apply HX).
      by rewrite <- (reg_cached rq C), set_excluded_same in Hs.
    + by apply (sim_finish_open S Hi).
    + apply (sim_finish_open S Hi); [done..|congruence].
Qed.

Lemma sim_steps K0 C0 x y :
  rtc threads_step x y → ∀ K C won lost Ks Cs, x.2 = placed K C → sim K0 C0 x.1 K C won lost Ks Cs →
  ∃ K' C' won' lost' Ks' Cs', y.2 = placed K' C' ∧ sim K0 C0 y.1 K' C' won' lost' Ks' Cs'.
Proof.
  induction 1 as [|x y z Hxy _ IH]; intros K C won lost Ks Cs Hst S; [by eauto 10|].
  destruct Hxy as [ts i rq p p' st st' Hi Hp Ht]. cbn in *. subst st.
  assert (Hn : named rq p).
  { pose proof (sim_knows _ _ _ _ _ _ _ _ _ S _ _ _ Hi) as Hk. destruct p; cbn in *; tauto. }
  destruct (thread_step_moves rq p p' K C st' Hn Hp Ht) as (K' & C' & -> & Hmv).
  destruct (sim_step S Hi p' K' C' Hp Hmv) as (won' & lost' & Ks' & Cs' & S').
  by eapply IH.
Qed.

(** *** Every thread gets to its end *)
Definition sections_left (p : position) : nat :=
  match p with AtStart => 4 | AtCheck _ => 3 | AtStore _ _ _ => 2 | AtRegister _ => 1 | AtEnd => 0 end.
Definition total (ts : list thread) : nat := sum_list ((λ t : thread, sections_left t.2) <$> ts).

Lemma total_done ts : total ts = O → all_done ts.
Proof.
  induction ts as [|[rq p] ts IH]; [constructor|]. unfold total. cbn. fold (total ts). intros H.
  constructor; [by destruct p|apply IH; lia].
Qed.

Lemma thread_step_ok rq p st :
  p ≠ AtEnd → ∃ st' p', thread_step rq p st = (st', Ok p') ∧ (sections_left p' < sections_left p)%nat.
Proof.
  intros Hp. destruct p as [|n|n e b|n|]; try done; unfold thread_step, gets, mbind, M_bind, modify.
  - destruct (kernel_objects_ st !! rq_object rq); do 2 eexists; (split; [reflexivity|]); cbn; [lia|].
    destruct (run_instrumented_ st), (active_ (library_filter_ st)); cbn; lia.
  - destruct (query_executable (rq_object rq)) as [e|]; do 2 eexists; (split; [reflexivity|]); cbn; [|lia].
    destruct (excluded_executable_cache_ (kernel_cache_ st) !! e) as [[]|]; cbn; lia.
  - do 2 eexists. split; [reflexivity|]. destruct b; cbn; lia.
  - do 2 eexists. split; [reflexivity|]. cbn. lia.
Qed.

Lemma steps_requests x y : rtc threads_step x y → y.1.*1 = x.1.*1.
Proof.
  induction 1 as [|x y z Hxy _ IH]; [done|]. rewrite IH. destruct Hxy. cbn. by eapply requests_step.
Qed.

Lemma can_finish ts st : ∃ ts' st', rtc threads_step (ts, st) (ts', st') ∧ all_done ts'.
Proof.
  assert (Hd : ∀ t : thread, {t.2 = AtEnd} + {t.2 ≠ AtEnd}) by (intros [? []]; (by left) || by right).
  remember (total ts) as n eqn:Hn. revert ts st Hn.
  induction n as [n IH] using lt_wf_ind. intros ts st ->.
  destruct (Forall_Exists_dec _ Hd ts) as [Hall|Hex]; [by exists ts, st|].
  apply list.Exists_exists in Hex as ([rq p] & Hin & Hp). apply list_elem_of_lookup in Hin as [i Hi].
  destruct (thread_step_ok rq p st Hp) as (st' & p' & Ht & Hlt).
  destruct (IH (total (<[i := (rq, p')]> ts))) with (ts := <[i := (rq, p')]> ts) (st := st')
    as (ts'' & st'' & Hrtc & Hdone); [|done|].
  - destruct (insert_middle ts i (rq, p) (rq, p') Hi) as (l & r & -> & ->).
    unfold total. rewrite !fmap_app, !sum_list_with_app. cbn. lia.
  - exists ts'', st''. split; [|done]. eapply rtc_l; [|exact Hrtc]. by econstructor.
Qed.
End run.

(** C13. Registrations are atomic: when threads inside [addKernel] interleave their
    critical sections in any order, the members they leave are those of the calls
    made one after the other in some order, each call once; and from any point the
    threads can run to their ends, no section of one waiting for another. *)
Theorem registrations_linearize rqs st ts st' :
  rtc threads_step (starting rqs, st) (ts, st') →
  (all_done ts → ∃ order, order ≡ₚ rqs ∧ add_kernels order st = (st', Ok ())) ∧
  (∃ ts'' st'', rtc threads_step (ts, st') (ts'', st'') ∧ all_done ts'').
Proof.
  intros H. split; [|apply can_finish]. intros Hdone.
  assert (Hrqs : ts.*1 = rqs) by (etrans; [exact (steps_requests _ _ H)|apply requests_starting]).
  assert (st = placed st (kernel_objects_ st) (kernel_cache_ st)) as E by (by destruct st).
  rewrite E. rewrite E in H at 1.
  destruct (sim_steps st _ _ _ _ H _ _ _ _ _ _ eq_refl (sim_start st _ _ rqs))
    as (K & C & won & lost & Ks & Cs & Est & S).
  cbn in Est. subst st'. destruct (sim_done _ _ _ _ _ _ _ _ _ _ S Hdone) as [Hrun Hperm].
  exists (won ++ lost). split; [|done]. rewrite Hperm. cbn. by rewrite Hrqs.
Qed.

(** A schedule, as the indices of the threads that move. *)
Fixpoint follow (schedule : list nat) (x : list thread * state) : option (list thread * state) :=
  match schedule with
  | [] => Some x
  | i :: schedule' =>
      match x.1 !! i with
      | Some (rq, p) =>
          match thread_step rq p x.2 with
          | (st', Ok p') =>
              if bool_decide (sections_left p = O) then None
              else follow schedule' (<[i := (rq, p')]> x.1, st')
          | (_, Err _) => None
          end
      | None => None
      end
  end.

Lemma follow_steps schedule x y : follow schedule x = Some y → rtc threads_step x y.
Proof.
  revert x. induction schedule as [|i schedule IH]; intros [ts st]; cbn -[thread_step].
  - intros [= ->]. done.
  - destruct (ts !! i) as [[rq p]|] eqn:Hi; [|done].
    destruct (thread_step rq p st) as [st' [p'|f]] eqn:Ht; [|done].
    case_bool_decide as Hp; [done|]. intros H. eapply rtc_l; [|by apply IH].
    econstructor; [done| |done]. by intros ->.
Qed.
End registration.

(** Two threads register one object, and a third one another kernel of the same
    executable: the second returns at once, the others both compute the verdict
    on the executable, and the third overtakes the first. *)
Section example.
Definition ex_filtering : interceptor Z handler_t :=
  Interceptor ∅ ∅ [] ∅ ∅ 0 new_coCache (new_dispatchController (λ _, None) 0) ∅ (CommsMgr ∅ ∅) 3 ∅
    (Filter true [] [] []) true ∅ [] new_logDuration false.
Definition ex_requests : list request :=
  [Request 1000 (lit "foo") 1 7 16; Request 1000 (lit "foo") 1 7 16; Request 2000 (lit "bar") 2 7 24].
Definition ex_schedule : list nat := [0; 2; 1; 0; 2; 2; 0; 2; 0]%nat.
Definition ex_end := follow (HL := example_loader) ex_schedule (starting ex_requests, ex_filtering).
End example.

Lemma registrations_linearize_witness :
  match ex_end with
  | Some (ts, st') =>
      all_done ts ∧ ∃ order, order ≡ₚ ex_requests ∧
        add_kernels (HL := example_loader) order ex_filtering = (st', Ok ())
  | None => False
  end.
Proof.
  assert (match ex_end with Some (ts, _) => total ts = O | None => False end) as Hd
    by (vm_compute; reflexivity).
  destruct ex_end as [[ts st']|] eqn:E; [|done]. pose proof (total_done ts Hd) as Hdone.
  split; [done|].
  exact (proj1 (registrations_linearize ex_requests ex_filtering ts st'
    (follow_steps (HL := example_loader) ex_schedule _ _ E)) Hdone).
Defined.
