(* ===== verification/Sections.v ===== *)
(** * Critical sections

    The operations of the interceptor are called by several threads: those of the
    application, the signal thread and the cache watcher.  Two mutexes order them,
    [hsaInterceptor::mutex_] and [coCache::mutex_] (the third, of [comms_mgr], is
    only taken under the first, around calls that are one action here).  A program
    is a tree of actions on the interceptor, with the points where a lock is taken
    and given back; threads interleave between any two of them.  This file has the
    programs, their interleavings, the logic the invariants are proved in, and the
    two facts that hold of every program that takes the locks in order: a thread
    that runs alone gets to its end, and threads never wait for each other in a
    circle. *)
From S2P Require Import Prelude StdString Names KernArgs CoCache Dispatch Comms LibraryFilter Interceptor.

Inductive lock := InterceptorLock | CacheLock.
#[export] Instance lock_eq_dec : EqDecision lock.
Proof. solve_decision. Defined.
#[export] Instance lock_countable : Countable lock.
Proof.
  apply (inj_countable' (λ l, match l with InterceptorLock => true | CacheLock => false end)
    (λ b : bool, if b then InterceptorLock else CacheLock)). by intros [].
Defined.

Section programs.
Context {rng handler : Type}.
Abbreviation state := (interceptor rng handler).
Abbreviation run := (M rng handler).
Implicit Types (st : state).

(** ** Equality of computations

    The same result in the same state; a fault that ends the process leaves none. *)
Definition ends_process (f : fault) : Prop := match f with FThrow _ => False | _ => True end.
Definition same_outcome {A} (x y : state * res A) : Prop :=
  x = y ∨ ∃ f, ends_process f ∧ x.2 = Err f ∧ y.2 = Err f.

#[export] Instance run_equiv A : Equiv (run A) := λ m m', ∀ st, same_outcome (m st) (m' st).
#[export] Instance run_equivalence A : Equivalence (≡@{run A}).
Proof.
  split.
  - intros m st. by left.
  - intros m m' H st. destruct (H st) as [->|(f&?&?&?)]; [by left|right; by exists f].
  - intros m1 m2 m3 H1 H2 st. destruct (H1 st) as [->|(f&Hf&E1&E2)]; [done|].
    destruct (H2 st) as [<-|(f'&?&E2'&E3)]; right; exists f; split_and!; congruence.
Qed.
#[export] Instance bind_proper A B : Proper (pointwise_relation A (≡) ==> (≡) ==> (≡)) (mbind (M := run) (A := A) (B := B)).
Proof.
  intros k k' Hk m m' Hm st. unfold mbind, M_bind. destruct (Hm st) as [->|(f&Hf&E&E')].
  - destruct (m' st) as [st' [a|f]]; [apply Hk|by left].
  - right. exists f. destruct (m st), (m' st). cbn in *. by subst.
Qed.

Lemma bind_assoc {A B C} (m : run A) (k : A → run B) (k' : B → run C) :
  (m ≫= k) ≫= k' ≡ m ≫= λ a, k a ≫= k'.
Proof. intros st. left. unfold mbind, M_bind. by destruct (m st) as [st' []]. Qed.
Lemma bind_ret {A} (m : run A) : m ≫= mret ≡ m.
Proof. intros st. left. unfold mbind, M_bind, mret, M_ret. by destruct (m st) as [st' []]. Qed.
Lemma equiv_Ok {A} (m m' : run A) st st' a : m ≡ m' → m st = (st', Ok a) → m' st = (st', Ok a).
Proof. intros H E. destruct (H st) as [<-|(f&_&?&_)]; [done|]. by rewrite E in *. Qed.
Lemma equiv_throw {A} (m m' : run A) st st' what :
  m ≡ m' → m st = (st', Err (FThrow what)) → m' st = (st', Err (FThrow what)).
Proof. intros H E. destruct (H st) as [<-|(f&Hf&E'&_)]; [done|]. rewrite E in E'. by simplify_eq/=. Qed.

(** ** Programs *)

(** [ok]: what the outside world promises of the state the action runs in. *)
Inductive prog (A : Type) : Type :=
| Ret (a : A)
| Act {B : Type} (ok : state → Prop) (m : run B) (k : B → prog A)
| Acquire (l : lock) (k : prog A)
| Release (l : lock) (k : prog A).
#[global] Arguments Ret {A} a.
#[global] Arguments Act {A B} ok m k.
#[global] Arguments Acquire {A} l k.
#[global] Arguments Release {A} l k.

#[export] Instance prog_ret : MRet prog := @Ret.
Fixpoint prog_bind_def {A B} (k : A → prog B) (p : prog A) : prog B :=
  match p with
  | Ret a => k a
  | Act ok m k' => Act ok m (λ b, prog_bind_def k (k' b))
  | Acquire l p' => Acquire l (prog_bind_def k p')
  | Release l p' => Release l (prog_bind_def k p')
  end.
#[export] Instance prog_bind : MBind prog := λ A B k p, prog_bind_def k p.

Definition act {A} (m : run A) : prog A := Act (λ _, True) m Ret.
(** [lock_guard<std::mutex> lock(mutex_)] and the rest of its block *)
Definition with_lock {A} (l : lock) (p : prog A) : prog A := Acquire l (p ≫= λ a, Release l (Ret a)).
Definition locked {A} (l : lock) (m : run A) : prog A := with_lock l (act m).

(** ** A thread on its own *)
Fixpoint run_prog {A} (p : prog A) : run A :=
  match p with
  | Ret a => mret a
  | Act _ m k => m ≫= λ b, run_prog (k b)
  | Acquire _ k | Release _ k => run_prog k
  end.

Lemma run_ret {A} (a : A) : run_prog (mret a) ≡ mret a.
Proof. done. Qed.
Lemma run_bind {A B} (p : prog A) (k : A → prog B) :
  run_prog (p ≫= k) ≡ run_prog p ≫= λ a, run_prog (k a).
Proof.
  induction p as [a|B' ok m k' IH|l p IH|l p IH]; [done| |exact IH|exact IH].
  change (run_prog (Act ok m k' ≫= k)) with (m ≫= λ b, run_prog (k' b ≫= k)).
  cbn [run_prog]. rewrite bind_assoc. f_equiv. intros b. apply IH.
Qed.
Lemma run_act {A} (m : run A) : run_prog (act m) ≡ m.
Proof. apply bind_ret. Qed.
Lemma run_with_lock {A} l (p : prog A) : run_prog (with_lock l p) ≡ run_prog p.
Proof. cbn [run_prog with_lock]. rewrite run_bind. apply bind_ret. Qed.
Lemma run_locked {A} l (m : run A) : run_prog (locked l m) ≡ m.
Proof. unfold locked. by rewrite run_with_lock, run_act. Qed.
End programs.
Arguments prog : clear implicits.

(** ** Threads *)
Section threads.
Context {rng handler : Type}.
Abbreviation state := (interceptor rng handler).
Abbreviation run := (M rng handler).
Abbreviation prog := (prog rng handler).
Implicit Types (st : state) (l : lock) (i j : nat).

(** [catches]: what a thread that catches exceptions does with one. *)
Record thread := Thread { body : prog unit; catches : option (state → state) }.
Record config := Config { threads : list thread; owners : gmap lock nat; shared : state }.

(** A thread that ends gives back what its [lock_guard]s hold. *)
Definition unlock (i : nat) (own : gmap lock nat) : gmap lock nat := filter (λ p, p.2 ≠ i) own.

Lemma unlock_lookup i own l j : unlock i own !! l = Some j ↔ own !! l = Some j ∧ j ≠ i.
Proof. unfold unlock. by rewrite map_lookup_filter_Some. Qed.

Context (spawns : thread → Prop) (outside : state → state → Prop).

(** Any other fault of an action ends the process. *)
Inductive config_step : config → config → Prop :=
| step_begin ts own st t :
    spawns t → config_step (Config ts own st) (Config (ts ++ [t]) own st)
| step_act ts own st i {B} ok (m : run B) k c st' b :
    ts !! i = Some (Thread (Act ok m k) c) → ok st → m st = (st', Ok b) →
    config_step (Config ts own st) (Config (<[i := Thread (k b) c]> ts) own st')
| step_throw ts own st i {B} ok (m : run B) k handle st' what :
    ts !! i = Some (Thread (Act ok m k) (Some handle)) → ok st → m st = (st', Err (FThrow what)) →
    config_step (Config ts own st)
      (Config (<[i := Thread (Ret ()) (Some handle)]> ts) (unlock i own) (handle st'))
| step_acquire ts own st i l k c :
    ts !! i = Some (Thread (Acquire l k) c) → own !! l = None →
    config_step (Config ts own st) (Config (<[i := Thread k c]> ts) (<[l := i]> own) st)
| step_release ts own st i l k c :
    ts !! i = Some (Thread (Release l k) c) → own !! l = Some i →
    config_step (Config ts own st) (Config (<[i := Thread k c]> ts) (delete l own) st)
| step_outside ts own st st' :
    outside st st' → config_step (Config ts own st) (Config ts own st').

Definition holds (x : config) l i : bool := bool_decide (owners x !! l = Some i).

(** ** The logic

    [I] holds always, [J] whenever the interceptor's lock is free.  While a thread
    holds that lock the others keep to [near], else to [far]. *)
Record discipline := Discipline {
  always : state → Prop;
  at_rest : state → Prop;
  near : relation state;
  far : relation state;
  near_preorder : PreOrder near;
  far_preorder : PreOrder far;
  near_far st st' : near st st' → far st st';
  rest_near st st' : at_rest st → near st st' → always st' → at_rest st';
  outside_near st st' : outside st st' → always st → near st st' ∧ always st';
}.

Section logic.
Variable D : discipline.
Abbreviation I := (always D).
Abbreviation J := (at_rest D).

(** What others may do to a thread that does or does not hold the lock, and what
    the thread itself may do. *)
Definition rely (h : bool) : relation state := if h then near D else far D.
Definition guar (h : bool) : relation state := if h then far D else near D.

Lemma rely_refl h st : rely h st st.
Proof. destruct h; [apply (near_preorder D)|apply (far_preorder D)]. Qed.
Lemma rely_trans h st1 st2 st3 : rely h st1 st2 → rely h st2 st3 → rely h st1 st3.
Proof. destruct h; [apply (near_preorder D)|apply (far_preorder D)]. Qed.
Lemma near_rely h st st' : near D st st' → rely h st st'.
Proof. destruct h; [done|apply near_far]. Qed.

(** [safe c h p Q st]: from [st], holding the lock or not, [p] keeps the discipline
    whatever the others do, and ends in [Q]. *)
Fixpoint safe {A} (c : option (state → state)) (h : bool) (p : prog A) (Q : bool → A → state → Prop)
    (st : state) : Prop :=
  ∀ st1, rely h st st1 → I st1 →
  match p with
  | Ret a => Q h a st1
  | Act ok m k =>
      ok st1 →
      match m st1 with
      | (st', Ok b) => I st' ∧ guar h st1 st' ∧ safe c h (k b) Q st'
      | (st', Err (FThrow _)) =>
          match c with
          | Some handle => I (handle st') ∧ guar h st1 (handle st') ∧ (h = true → J (handle st'))
          | None => True
          end
      | _ => True
      end
  | Acquire InterceptorLock k => h = false ∧ (J st1 → safe c true k Q st1)
  | Release InterceptorLock k => h = true ∧ J st1 ∧ safe c false k Q st1
  | Acquire CacheLock k | Release CacheLock k => safe c h k Q st1
  end.

Lemma safe_rely {A} c h (p : prog A) Q st st' : safe c h p Q st → rely h st st' → safe c h p Q st'.
Proof.
  intros Hs Hr. destruct p; intros st1 Hr1 HI1; apply (Hs st1); by eauto using rely_trans.
Qed.

Lemma safe_here {A} c h (p : prog A) Q st :
  (∀ st1, rely h st st1 → I st1 → safe c h p Q st1) → safe c h p Q st.
Proof.
  intros H. destruct p; intros st1 Hr HI1; by apply (H st1 Hr HI1 st1 (rely_refl _ _) HI1).
Qed.

Definition done_free (h : bool) (_ : unit) (_ : state) : Prop := h = false.

(** ** The invariant of configurations *)
Record disciplined (x : config) : Prop := {
  ds_always : I (shared x);
  ds_rest : owners x !! InterceptorLock = None → J (shared x);
  ds_owner l i : owners x !! l = Some i → is_Some (threads x !! i);
  ds_safe i t : threads x !! i = Some t →
    safe (catches t) (holds x InterceptorLock i) (body t) done_free (shared x);
}.

(** The thread [i] moves, the others see no more than their rely. *)
Lemma disciplined_move x i t t' own' st' :
  disciplined x → threads x !! i = Some t → I st' →
  (∀ l j, own' !! l = Some j → is_Some (threads x !! j)) →
  (own' !! InterceptorLock = None → J st') →
  (∀ j, j ≠ i → (own' !! InterceptorLock = Some j ↔ owners x !! InterceptorLock = Some j)) →
  guar (holds x InterceptorLock i) (shared x) st' →
  safe (catches t') (bool_decide (own' !! InterceptorLock = Some i)) (body t') done_free st' →
  disciplined (Config (<[i := t']> (threads x)) own' st').
Proof.
  intros [HI HJ Ho Hs] Hi HI' Hown HJ' Hothers Hg Hs'. split; cbn; [done|done| |].
  - intros l j Hj. apply Hown in Hj as [tj Hj]. destruct (decide (i = j)) as [<-|].
    + rewrite list_lookup_insert_eq by (by eapply lookup_lt_Some). by eexists.
    + rewrite list_lookup_insert_ne by done. by eexists.
  - intros j tj Hj. destruct (decide (i = j)) as [<-|Hne].
    { rewrite list_lookup_insert_eq in Hj by (by eapply lookup_lt_Some). by simplify_eq. }
    rewrite list_lookup_insert_ne in Hj by done. unfold holds. cbn.
    rewrite (bool_decide_ext _ _ (Hothers j (not_eq_sym Hne))).
    eapply safe_rely; [by apply Hs|]. unfold holds in *.
    destruct (decide (owners x !! InterceptorLock = Some i)) as [Hi'|Hi'].
    + rewrite bool_decide_true in Hg by done. rewrite bool_decide_false by congruence. exact Hg.
    + rewrite bool_decide_false in Hg by done. by apply near_rely.
Qed.

Lemma disciplined_step x y :
  (∀ t st, spawns t → safe (catches t) false (body t) done_free st) →
  disciplined x → config_step x y → disciplined y.
Proof.
  intros Hspawn Hx Hstep. pose proof Hx as [HI HJ Ho Hs].
  destruct Hstep as [ts own st t Ht|ts own st i B ok m k c st' b Hi Hok Hm
    |ts own st i B ok m k handle st' what Hi Hok Hm|ts own st i l k c Hi Hl|ts own st i l k c Hi Hl|ts own st st' Hout];
    cbn in *.
  - split; cbn; [done|done| |].
    + intros l i Hl. apply Ho in Hl as [t' Hl]. rewrite lookup_app_l by (by eapply lookup_lt_Some). by eexists.
    + intros i t' Hi. unfold holds. cbn. destruct (decide (i < length ts)%nat) as [Hlt|Hge].
      * rewrite lookup_app_l in Hi by done. by apply Hs.
      * rewrite bool_decide_false by (intros [? ?%lookup_lt_Some]%Ho; done).
        rewrite lookup_app_r in Hi by lia. apply list_lookup_singleton_Some in Hi as [_ <-]. by apply Hspawn.
  - pose proof (Hs i _ Hi st (rely_refl _ _) HI Hok) as Hsafe. rewrite Hm in Hsafe. destruct Hsafe as (HI'&Hg&Hk).
    apply (disciplined_move (Config ts own st) i _ (Thread (k b) c) own st' Hx Hi HI'); [done| |done..].
    intros Hn. apply (rest_near D st); [by apply HJ| |done].
    unfold holds in Hg. by rewrite bool_decide_false in Hg by (cbn; congruence).
  - pose proof (Hs i _ Hi st (rely_refl _ _) HI Hok) as Hsafe. rewrite Hm in Hsafe. destruct Hsafe as (HI'&Hg&HJ').
    assert (unlock i own !! InterceptorLock ≠ Some i) as Hnot by (intros [_ ?]%unlock_lookup; done).
    apply (disciplined_move (Config ts own st) i _ (Thread (Ret ()) (Some handle)) _ (handle st') Hx Hi HI').
    + intros l j [Hl _]%unlock_lookup. by eapply Ho.
    + intros Hn. unfold holds in *. cbn in *. case_bool_decide as Hi'; [by apply HJ'|].
      apply (rest_near D st); [|done..]. apply HJ. apply eq_None_not_Some. intros [j Hj].
      destruct (decide (j = i)) as [->|]; [done|].
      assert (unlock i own !! InterceptorLock = Some j) by (by apply unlock_lookup). congruence.
    + intros j Hj. rewrite unlock_lookup. naive_solver.
    + done.
    + rewrite bool_decide_false by done. by intros st1 _ _.
  - pose proof (Hs i _ Hi st (rely_refl _ _) HI) as Hsafe. unfold holds in *. cbn in *.
    assert (∀ l' j, <[l:=i]> own !! l' = Some j → is_Some (ts !! j)) as Hown.
    { intros l' j [[-> <-]|[_ Hj]]%lookup_insert_Some; [by eexists|by eapply Ho]. }
    destruct l.
    + destruct Hsafe as [_ Hk].
      apply (disciplined_move (Config ts own st) i _ (Thread k c) _ st Hx Hi HI); cbn.
      * done.
      * by rewrite lookup_insert_eq.
      * intros j Hj. rewrite lookup_insert_eq. naive_solver.
      * unfold holds. cbn. rewrite bool_decide_false by congruence. apply (near_preorder D).
      * rewrite lookup_insert_eq, bool_decide_true by done. by apply Hk, HJ.
    + apply (disciplined_move (Config ts own st) i _ (Thread k c) _ st Hx Hi HI); cbn.
      * done.
      * by rewrite lookup_insert_ne by done.
      * intros j Hj. by rewrite lookup_insert_ne by done.
      * unfold guar. destruct (holds _ _ _); [apply (far_preorder D)|apply (near_preorder D)].
      * by rewrite lookup_insert_ne by done.
  - pose proof (Hs i _ Hi st (rely_refl _ _) HI) as Hsafe. unfold holds in *. cbn in *.
    assert (∀ l' j, delete l own !! l' = Some j → is_Some (ts !! j)) as Hown.
    { intros l' j [_ Hj]%lookup_delete_Some. by eapply Ho. }
    destruct l.
    + destruct Hsafe as (_&HJ'&Hk).
      apply (disciplined_move (Config ts own st) i _ (Thread k c) _ st Hx Hi HI); cbn.
      * done.
      * done.
      * intros j Hj. rewrite lookup_delete_eq. naive_solver.
      * unfold holds. cbn. rewrite bool_decide_true by done. apply (far_preorder D).
      * by rewrite lookup_delete_eq.
    + apply (disciplined_move (Config ts own st) i _ (Thread k c) _ st Hx Hi HI); cbn.
      * done.
      * by rewrite lookup_delete_ne by done.
      * intros j Hj. by rewrite lookup_delete_ne by done.
      * unfold guar. destruct (holds _ _ _); [apply (far_preorder D)|apply (near_preorder D)].
      * by rewrite lookup_delete_ne by done.
  - destruct (outside_near D st st' Hout HI) as [Hn HI']. split; cbn; [done| |done|].
    + intros Hf. by eapply (rest_near D); [apply HJ| |].
    + intros i t Hi. eapply safe_rely; [by apply Hs|]. by apply near_rely.
Qed.

Lemma disciplined_steps x y :
  (∀ t st, spawns t → safe (catches t) false (body t) done_free st) →
  rtc config_step x y → disciplined x → disciplined y.
Proof. induction 2; eauto using disciplined_step. Qed.

Lemma disciplined_start st : I st → J st → disciplined (Config [] ∅ st).
Proof. by intros; split. Qed.

(** ** Rules *)
Lemma safe_ret {A} c h (a : A) Q st :
  (∀ st1, rely h st st1 → I st1 → Q h a st1) → safe c h (mret a) Q st.
Proof. done. Qed.

Lemma safe_bind {A B} c h (p : prog A) (k : A → prog B) Q st :
  safe c h p (λ h' a, safe c h' (k a) Q) st → safe c h (p ≫= k) Q st.
Proof.
  revert h st. induction p as [a|B' ok m k' IH|l p IH|l p IH]; intros h st Hs.
  - apply safe_here. exact Hs.
  - intros st1 Hr HI1 Hok. pose proof (Hs st1 Hr HI1 Hok) as H.
    destruct (m st1) as [st' [b|[]]]; [|done..]. destruct H as (?&?&?). split_and!; [done..|]. by apply IH.
  - intros st1 Hr HI1. pose proof (Hs st1 Hr HI1) as H. destruct l; [|by apply IH].
    destruct H as [? H]. split; [done|]. intros HJ1. by apply IH, H.
  - intros st1 Hr HI1. pose proof (Hs st1 Hr HI1) as H. destruct l; [|by apply IH].
    destruct H as (?&?&?). split_and!; [done..|]. by apply IH.
Qed.

Lemma safe_mono {A} c h (p : prog A) (Q Q' : bool → A → state → Prop) st :
  safe c h p Q st → (∀ h' a st', I st' → Q h' a st' → Q' h' a st') → safe c h p Q' st.
Proof.
  intros Hs HQ. revert h st Hs. induction p as [a|B' ok m k' IH|l p IH|l p IH]; intros h st Hs st1 Hr HI1;
    pose proof (Hs st1 Hr HI1) as H.
  - by apply HQ.
  - intros Hok. specialize (H Hok). destruct (m st1) as [st' [b|[]]]; [|done..]. naive_solver.
  - destruct l; naive_solver.
  - destruct l; naive_solver.
Qed.

(** A postcondition that what the others do does not change. *)
Definition settled {A} (Q : bool → A → state → Prop) : Prop :=
  ∀ h a st st', Q h a st → rely h st st' → I st' → Q h a st'.
(** What an exception has to leave. *)
Definition caught (c : option (state → state)) (h : bool) st st' : Prop :=
  match c with
  | Some handle => I (handle st') ∧ guar h st (handle st') ∧ (h = true → J (handle st'))
  | None => True
  end.

Lemma safe_Act {A B} c h ok (m : run B) (k : B → prog A) Q st :
  (∀ st1, rely h st st1 → I st1 → ok st1 →
     wp m (λ b st', I st' ∧ guar h st1 st' ∧ safe c h (k b) Q st') (caught c h st1) st1) →
  safe c h (Act ok m k) Q st.
Proof.
  intros Hm st1 Hr HI1 Hok. specialize (Hm st1 Hr HI1 Hok). unfold wp in Hm.
  by destruct (m st1) as [st' [b|[]]].
Qed.

Lemma safe_act {A} c h (m : run A) Q st :
  settled Q →
  (∀ st1, rely h st st1 → I st1 → wp m (λ a st', I st' ∧ guar h st1 st' ∧ Q h a st') (caught c h st1) st1) →
  safe c h (act m) Q st.
Proof.
  intros HQ Hm. apply safe_Act. intros st1 Hr HI1 _. eapply wp_mono; [by apply Hm|].
  intros a st' (?&?&Ha). split_and!; [done..|]. intros st2 Hr2 HI2. by eapply HQ.
Qed.

Lemma safe_cache_lock {A} c h (p : prog A) Q st :
  settled Q → safe c h p Q st → safe c h (with_lock CacheLock p) Q st.
Proof.
  intros HQ Hp st1 Hr HI1. apply safe_bind. eapply safe_mono; [by eapply safe_rely|].
  intros h' a st' HI' Ha st2 Hr2 HI2 st3 Hr3 HI3. eapply HQ; [by eapply HQ|done..].
Qed.

Lemma safe_interceptor_lock {A} c (p : prog A) Q st :
  settled Q →
  (∀ st1, far D st st1 → I st1 → J st1 →
     safe c true p (λ h a st', h = true ∧ ∀ st2, near D st' st2 → I st2 → J st2 ∧ Q false a st2) st1) →
  safe c false (with_lock InterceptorLock p) Q st.
Proof.
  intros HQ Hp st1 Hr HI1. split; [done|]. intros HJ1. apply safe_bind.
  eapply safe_mono; [by apply Hp|]. intros h a st' _ [-> Ha] st2 Hr2 HI2.
  destruct (Ha st2 Hr2 HI2) as [HJ2 HQ2]. split_and!; [done..|]. intros st3 Hr3 HI3. by eapply HQ.
Qed.
End logic.

(** ** Programs of which every action stays within a relation

    They take the cache's lock at most. *)
Fixpoint quiet {A} (R : relation state) (p : prog A) : Prop :=
  match p with
  | Ret _ => True
  | Act _ m k => within R m ∧ ∀ b, quiet R (k b)
  | Acquire l k | Release l k => l = CacheLock ∧ quiet R k
  end.

Lemma quiet_bind {A B} R (p : prog A) (k : A → prog B) :
  quiet R p → (∀ a, quiet R (k a)) → quiet R (p ≫= k).
Proof.
  intros Hp Hk. induction p as [a|B' ok m k' IH|l p IH|l p IH]; cbn in *; [apply Hk|..];
    destruct Hp as [H Hp]; (split; [exact H|]); [intros b; by apply IH|by apply IH..].
Qed.
Lemma quiet_act {A} R (m : run A) : within R m → quiet R (act m).
Proof. by intros. Qed.
Lemma quiet_cache_lock {A} R (p : prog A) : quiet R p → quiet R (with_lock CacheLock p).
Proof. intros Hp. split; [done|]. by apply quiet_bind. Qed.
Lemma quiet_locked {A} R (m : run A) : within R m → quiet R (locked CacheLock m).
Proof. intros Hm. by apply quiet_cache_lock, quiet_act. Qed.

(** The same with any locks. *)
Fixpoint acts {A} (R : relation state) (p : prog A) : Prop :=
  match p with
  | Ret _ => True
  | Act _ m k => within R m ∧ ∀ b, acts R (k b)
  | Acquire _ k | Release _ k => acts R k
  end.

Lemma acts_bind {A B} R (p : prog A) (k : A → prog B) : acts R p → (∀ a, acts R (k a)) → acts R (p ≫= k).
Proof.
  intros Hp Hk. induction p as [a|B' ok m k' IH|l p IH|l p IH]; cbn in *; [apply Hk| |by apply IH..].
  destruct Hp as [Hm Hp]. split; [done|]. intros b. by apply IH.
Qed.
Lemma acts_quiet {A} R (p : prog A) : quiet R p → acts R p.
Proof.
  induction p as [a|B ok m k IH|l p IH|l p IH]; cbn; [done| |by intros [_ H]; apply IH..].
  intros [Hm Hk]. split; [done|]. intros b. by apply IH.
Qed.
Lemma acts_act {A} R (m : run A) : within R m → acts R (act m).
Proof. by intros. Qed.
Lemma acts_lock {A} R l (p : prog A) : acts R p → acts R (with_lock l p).
Proof. intros Hp. by apply (acts_bind R p). Qed.
Lemma acts_locked {A} R l (m : run A) : within R m → acts R (locked l m).
Proof. intros Hm. by apply acts_lock, acts_act. Qed.

(** Threads that keep to [R], also when they catch an exception. *)
Definition thread_acts (R : relation state) (t : thread) : Prop :=
  acts R (body t) ∧ match catches t with Some handle => ∀ st, R st (handle st) | None => True end.

Lemma config_acts R x y :
  PreOrder R → (∀ t, spawns t → thread_acts R t) → (∀ st st', outside st st' → R st st') →
  Forall (thread_acts R) (threads x) → config_step x y →
  R (shared x) (shared y) ∧ Forall (thread_acts R) (threads y).
Proof.
  intros HR Hspawn Hout Hall Hstep.
  destruct Hstep as [ts own st t Ht|ts own st i B ok m k c st' b Hi _ Hm|ts own st i B ok m k handle st' what Hi _ Hm
    |ts own st i l k c Hi _|ts own st i l k c Hi _|ts own st st' H]; cbn in *;
    try (pose proof (Forall_lookup_1 _ _ _ _ Hall Hi) as [Hb Hc]; cbn in Hb, Hc).
  - split; [done|]. apply list.Forall_app. split; [done|]. constructor; [by apply Hspawn|done].
  - destruct Hb as [Hm' Hk]. specialize (Hm' st). rewrite Hm in Hm'. split; [exact Hm'|].
    apply Forall_insert; [done|]. split; [apply Hk|exact Hc].
  - destruct Hb as [Hm' _]. specialize (Hm' st). rewrite Hm in Hm'. split; [by etrans; [exact Hm'|apply Hc]|].
    apply Forall_insert; [done|]. by split.
  - split; [done|]. apply Forall_insert; [done|]. by split.
  - split; [done|]. apply Forall_insert; [done|]. by split.
  - split; [by apply Hout|done].
Qed.

(** Actions that the others do not notice keep what they do not change. *)
Lemma safe_quiet D {A} c h (p : prog A) (P : state → Prop) (Q : bool → A → state → Prop) st :
  (∀ st st', always D st → near D st st' → always D st') →
  (∀ st st', P st → rely D h st st' → always D st' → P st') →
  (∀ st st', P st → near D st st' → always D st' → caught D c h st st') →
  (∀ a st', P st' → always D st' → Q h a st') →
  quiet (near D) p → P st → safe D c h p Q st.
Proof.
  intros HI HP Hc HQ. revert st. induction p as [a|B ok m k IH|l p IH|l p IH]; intros st Hq HPst st1 Hr HI1.
  - apply HQ; [by eapply HP|done].
  - intros _. destruct Hq as [Hm Hk]. specialize (Hm st1).
    assert (P st1) as HP1 by (by eapply HP).
    destruct (m st1) as [st' [b|[]]] eqn:E; try done; cbn in Hm.
    + assert (always D st') by (by eapply HI). split_and!; [done| |].
      * destruct h; [by apply near_far|done].
      * apply IH; [apply Hk|]. eapply HP; [exact HP1|by apply near_rely|done].
    + specialize (Hc st1 st' HP1 Hm (HI _ _ HI1 Hm)). exact Hc.
  - destruct Hq as [-> Hq]. apply IH; [done|]. by eapply HP.
  - destruct Hq as [-> Hq]. apply IH; [done|]. by eapply HP.
Qed.

(** A short section under the interceptor's lock, of such an action. *)
Lemma safe_quick D {A} c (m : run A) (Q : bool → A → state → Prop) st :
  (∀ st st', always D st → near D st st' → always D st') →
  (∀ st st', near D st st' → always D st' → caught D c false st st') →
  (∀ a st', always D st' → Q false a st') →
  within (near D) m → safe D c false (locked InterceptorLock m) Q st.
Proof.
  intros HI Hc HQ Hm st1 Hr HI1. split; [done|]. intros HJ1 st2 Hr2 HI2 _.
  assert (at_rest D st2) as HJ2 by (by eapply (rest_near D)).
  specialize (Hm st2). destruct (m st2) as [st3 [a|[]]]; try done; cbn in Hm.
  - assert (always D st3) as HI3 by (by eapply HI). split_and!; [done|by apply near_far|].
    intros st4 Hr4 HI4. assert (at_rest D st4) as HJ4.
    { eapply (rest_near D); [|exact Hr4|done]. by eapply (rest_near D). }
    split_and!; [done..|]. intros st5 Hr5 HI5. by apply HQ.
  - specialize (Hc st2 st3 Hm (HI _ _ HI2 Hm)). unfold caught in Hc. destruct c as [handle|]; [|done].
    destruct Hc as (Hc1&Hc2&_). split_and!; [done|by apply near_far|intros _]. by eapply (rest_near D).
Qed.

(** ** The order of the locks *)

(** [p], from holding the locks [hs] to holding [hs']; the cache's is taken last.
    [asks]: [p] may rely on promises. *)
Fixpoint ordered {A} (asks : bool) (hs : bool * bool) (p : prog A) (hs' : bool * bool) : Prop :=
  match p with
  | Ret _ => hs = hs'
  | Act ok _ k => (asks = true ∨ ∀ st, ok st) ∧ ∀ b, ordered asks hs (k b) hs'
  | Acquire InterceptorLock k => hs = (false, false) ∧ ordered asks (true, false) k hs'
  | Acquire CacheLock k => hs.2 = false ∧ ordered asks (hs.1, true) k hs'
  | Release InterceptorLock k => hs = (true, false) ∧ ordered asks (false, false) k hs'
  | Release CacheLock k => hs.2 = true ∧ ordered asks (hs.1, false) k hs'
  end.

Lemma ordered_bind {A B} asks hs hs1 hs' (p : prog A) (k : A → prog B) :
  ordered asks hs p hs1 → (∀ a, ordered asks hs1 (k a) hs') → ordered asks hs (p ≫= k) hs'.
Proof.
  intros Hp Hk. revert hs Hp. induction p as [a|B' ok m k' IH|l p IH|l p IH]; cbn; intros hs Hp.
  - subst. apply Hk.
  - destruct Hp as [Hok Hp]. split; [done|]. intros b. by apply IH.
  - destruct l; destruct Hp; split; auto.
  - destruct l; destruct Hp; split; auto.
Qed.

Lemma ordered_act {A} asks hs (m : run A) : ordered asks hs (act m) hs.
Proof. split; [by right|done]. Qed.
Lemma ordered_interceptor {A} asks (p : prog A) :
  ordered asks (true, false) p (true, false) →
  ordered asks (false, false) (with_lock InterceptorLock p) (false, false).
Proof. intros Hp. split; [done|]. by eapply ordered_bind. Qed.
Lemma ordered_cache {A} asks hi (p : prog A) :
  ordered asks (hi, true) p (hi, true) → ordered asks (hi, false) (with_lock CacheLock p) (hi, false).
Proof. intros Hp. split; [done|]. by eapply ordered_bind. Qed.

(** The locks of one thread. *)
Definition held_by (x : config) (i : nat) : bool * bool := (holds x InterceptorLock i, holds x CacheLock i).
Definition well_ordered (x : config) : Prop :=
  (∀ l i, owners x !! l = Some i → is_Some (threads x !! i)) ∧
  ∀ i t, threads x !! i = Some t → ordered true (held_by x i) (body t) (false, false).

(** The thread has a next action, and it is not waiting for a lock. *)
Definition can_move (x : config) (i : nat) : Prop :=
  match threads x !! i with
  | Some (Thread (Act _ _ _) _) | Some (Thread (Release _ _) _) => True
  | Some (Thread (Acquire l _) _) => owners x !! l = None
  | Some (Thread (Ret _) _) | None => False
  end.
Definition finished_thread (t : thread) : bool := match body t with Ret _ => true | _ => false end.

Lemma well_ordered_can_move x :
  well_ordered x → Forall (λ t, finished_thread t = true) (threads x) ∨ ∃ i, can_move x i.
Proof.
  intros [Ho Ht]. unfold can_move.
  assert (∀ i, owners x !! CacheLock = Some i → ∃ j, can_move x j) as Hcache.
  { intros i Hi. exists i. unfold can_move. destruct (Ho _ _ Hi) as [[p c] Hp]. pose proof (Ht i _ Hp) as H. rewrite Hp.
    unfold held_by, holds in H. rewrite (bool_decide_true (owners x !! CacheLock = Some i)) in H by done.
    destruct p as [[]|B ok m k|[] k|l k]; cbn in H; try done; by destruct H. }
  destruct (owners x !! CacheLock) as [i|] eqn:Hc; [right; by eapply Hcache|].
  destruct (owners x !! InterceptorLock) as [i|] eqn:Hi.
  { right. exists i. destruct (Ho _ _ Hi) as [[p c] Hp]. pose proof (Ht i _ Hp) as H. rewrite Hp.
    unfold held_by, holds in H. rewrite (bool_decide_true (owners x !! InterceptorLock = Some i)) in H by done.
    destruct p as [[]|B ok m k|[] k|l k]; cbn in H; try done; by destruct H. }
  destruct (decide (Forall (λ t, finished_thread t = true) (threads x))) as [Hf|Hf]; [by left|right].
  apply not_Forall_Exists in Hf; [|apply _]. apply list.Exists_exists in Hf as ([p c]&Hin&Hp).
  apply list_elem_of_lookup in Hin as [j Hj]. exists j. rewrite Hj. destruct p as [a|B ok m k|[] k|l k].
  all: done || by destruct Hp.
Qed.

Lemma held_insert x i t st j :
  held_by (Config (<[i := t]> (threads x)) (owners x) st) j = held_by x j.
Proof. done. Qed.

(** The thread [i] moves. *)
Lemma well_ordered_move x i t t' own' st' :
  well_ordered x → threads x !! i = Some t →
  (∀ l j, own' !! l = Some j → is_Some (threads x !! j)) →
  (∀ l j, j ≠ i → own' !! l = Some j ↔ owners x !! l = Some j) →
  let x' := Config (<[i := t']> (threads x)) own' st' in
  ordered true (held_by x' i) (body t') (false, false) → well_ordered x'.
Proof.
  intros [Ho Ht] Hi Hown Hothers x' Ht'. split; cbn.
  - intros l j Hj. apply Hown in Hj as [tj Hj]. destruct (decide (i = j)) as [<-|].
    + rewrite list_lookup_insert_eq by (by eapply lookup_lt_Some). by eexists.
    + rewrite list_lookup_insert_ne by done. by eexists.
  - intros j tj Hj. destruct (decide (i = j)) as [<-|Hne].
    { rewrite list_lookup_insert_eq in Hj by (by eapply lookup_lt_Some). by simplify_eq. }
    rewrite list_lookup_insert_ne in Hj by done. unfold held_by, holds. cbn.
    rewrite !(bool_decide_ext _ _ (Hothers _ j (not_eq_sym Hne))). by apply Ht.
Qed.

Lemma well_ordered_step x y :
  (∀ t, spawns t → ordered true (false, false) (body t) (false, false)) →
  well_ordered x → config_step x y → well_ordered y.
Proof.
  intros Hspawn Hx Hstep. pose proof Hx as [Ho Ht].
  destruct Hstep as [ts own st t Hsp|ts own st i B ok m k c st' b Hi Hok Hm
    |ts own st i B ok m k handle st' what Hi Hok Hm|ts own st i l k c Hi Hl|ts own st i l k c Hi Hl|ts own st st' Hout];
    cbn in *; try pose proof (Ht i _ Hi) as H.
  - split; cbn.
    + intros l i Hl. apply Ho in Hl as [t' Hl]. rewrite lookup_app_l by (by eapply lookup_lt_Some). by eexists.
    + intros i t' Hi. unfold held_by, holds. cbn. destruct (decide (i < length ts)%nat) as [Hlt|Hge].
      * rewrite lookup_app_l in Hi by done. by apply Ht.
      * rewrite !bool_decide_false by (intros [? ?%lookup_lt_Some]%Ho; done).
        rewrite lookup_app_r in Hi by lia. apply list_lookup_singleton_Some in Hi as [_ <-]. by apply Hspawn.
  - apply (well_ordered_move (Config ts own st) i _ (Thread (k b) c) own st' Hx Hi); [done|done|]. apply H.
  - apply (well_ordered_move (Config ts own st) i _ (Thread (Ret ()) (Some handle)) _ (handle st') Hx Hi).
    + intros l j [Hl _]%unlock_lookup. by eapply Ho.
    + intros l j Hj. rewrite unlock_lookup. naive_solver.
    + unfold held_by, holds. cbn. rewrite !bool_decide_false by (rewrite unlock_lookup; naive_solver). done.
  - apply (well_ordered_move (Config ts own st) i _ (Thread k c) _ st Hx Hi).
    + intros l' j [[-> <-]|[_ Hj]]%lookup_insert_Some; [by eexists|by eapply Ho].
    + intros l' j Hj. cbn. rewrite lookup_insert_Some. split; [naive_solver|]. intros Hj'. right. naive_solver.
    + unfold held_by, holds in *. cbn in *. destruct l; destruct H as [[=] H].
      * rewrite lookup_insert_eq, lookup_insert_ne, bool_decide_true by done. congruence.
      * rewrite lookup_insert_eq, lookup_insert_ne, (bool_decide_true (Some i = Some i)) by done. exact H.
  - apply (well_ordered_move (Config ts own st) i _ (Thread k c) _ st Hx Hi).
    + intros l' j [_ Hj]%lookup_delete_Some. by eapply Ho.
    + intros l' j Hj. cbn. rewrite lookup_delete_Some. split; [naive_solver|]. intros Hj'. split; [|done]. naive_solver.
    + unfold held_by, holds in *. cbn in *. destruct l; destruct H as [[=] H].
      * rewrite lookup_delete_eq, lookup_delete_ne by done. rewrite bool_decide_false by done. congruence.
      * rewrite lookup_delete_eq, lookup_delete_ne by done. rewrite (bool_decide_false (None = Some i)) by done. exact H.
  - split; [done|]. intros i t Hi. by apply Ht.
Qed.

Lemma well_ordered_steps x y :
  (∀ t, spawns t → ordered true (false, false) (body t) (false, false)) →
  rtc config_step x y → well_ordered x → well_ordered y.
Proof. induction 2; eauto using well_ordered_step. Qed.

Lemma well_ordered_start st : well_ordered (Config [] ∅ st).
Proof. by split. Qed.

(** ** A thread that runs alone *)

(** What the outside world promises along the run. *)
Fixpoint promised {A} (p : prog A) st : Prop :=
  match p with
  | Ret _ => True
  | Act ok m k => ok st ∧ match m st with (st', Ok b) => promised (k b) st' | _ => True end
  | Acquire _ k | Release _ k => promised k st
  end.

Lemma promised_bind {A B} (p : prog A) (k : A → prog B) st :
  promised p st → (∀ st' a, run_prog p st = (st', Ok a) → promised (k a) st') → promised (p ≫= k) st.
Proof.
  revert st. induction p as [a|B' ok m k' IH|l p IH|l p IH]; intros st Hp Hk; [by apply Hk| |by apply IH..].
  destruct Hp as [Hok Hm]. split; [done|]. destruct (m st) as [st1 [b|]] eqn:E; [|done].
  apply IH; [done|]. intros st2 a E2. apply Hk. cbn. unfold mbind, M_bind. by rewrite E.
Qed.
Lemma ordered_promised {A} hs hs' (p : prog A) st : ordered false hs p hs' → promised p st.
Proof.
  revert hs st. induction p as [a|B ok m k IH|l p IH|l p IH]; intros hs st Hp; [done| |destruct l, Hp; by eapply IH..].
  destruct Hp as [[|Hok] Hp]; [done|]. split; [done|]. destruct (m st) as [st' []]; [|done]. by eapply IH.
Qed.
Lemma promised_act {A} (m : run A) st : promised (act m) st.
Proof. split; [done|]. by destruct (m st) as [st' []]. Qed.
Lemma promised_with_lock {A} l (p : prog A) st : promised p st → promised (with_lock l p) st.
Proof. intros Hp. by apply promised_bind. Qed.

(** Only [i] owns locks, and these. *)
Definition owns (own : gmap lock nat) (i : nat) (hs : bool * bool) : Prop :=
  own !! InterceptorLock = (if hs.1 then Some i else None) ∧ own !! CacheLock = (if hs.2 then Some i else None).

Lemma owns_none own i : owns own i (false, false) → own = ∅.
Proof. intros [Hi Hc]. apply map_eq. intros []; by rewrite lookup_empty. Qed.

Lemma unlock_owns own i hs : owns own i hs → unlock i own = ∅.
Proof.
  intros [Hi Hc]. apply map_eq. intros l. rewrite lookup_empty. apply eq_None_not_Some.
  intros [j [Hj Hne]%unlock_lookup]. destruct l, hs as [[] []]; cbn in *; congruence.
Qed.

Lemma owns_acquire asks own i hs hs' l (k : prog unit) :
  owns own i hs → ordered asks hs (Acquire l k) hs' →
  own !! l = None ∧ ∃ hs1, owns (<[l := i]> own) i hs1 ∧ ordered asks hs1 k hs'.
Proof.
  intros [HI HC] Hord. unfold owns. destruct l; destruct Hord as [Hhs Hord].
  - subst hs. split; [done|]. exists (true, false). by rewrite lookup_insert_eq, lookup_insert_ne.
  - rewrite Hhs in HC. split; [done|]. exists (hs.1, true). by rewrite lookup_insert_eq, lookup_insert_ne.
Qed.

Lemma owns_release asks own i hs hs' l (k : prog unit) :
  owns own i hs → ordered asks hs (Release l k) hs' →
  own !! l = Some i ∧ ∃ hs1, owns (base.delete l own) i hs1 ∧ ordered asks hs1 k hs'.
Proof.
  intros [HI HC] Hord. unfold owns. destruct l; destruct Hord as [Hhs Hord].
  - subst hs. split; [done|]. exists (false, false). by rewrite lookup_delete_eq, lookup_delete_ne.
  - rewrite Hhs in HC. split; [done|]. exists (hs.1, false). by rewrite lookup_delete_eq, lookup_delete_ne.
Qed.

(** It gets to its end, or to the exception, with all locks given back. *)
Definition gets_to_end ts own st i c (st' : state) : Prop :=
  rtc config_step (Config ts own st) (Config (<[i := Thread (Ret ()) c]> ts) ∅ st').
Definition alone_result ts own st i c (st' : state) (r : res unit) : Prop :=
  match r with
  | Ok _ => gets_to_end ts own st i c st'
  | Err (FThrow _) => ∀ handle, c = Some handle → gets_to_end ts own st i c (handle st')
  | Err _ => True
  end.

Lemma alone_after ts own st i c p own1 st1 st' r :
  config_step (Config ts own st) (Config (<[i := Thread p c]> ts) own1 st1) →
  alone_result (<[i := Thread p c]> ts) own1 st1 i c st' r → alone_result ts own st i c st' r.
Proof.
  intros Hstep. assert (∀ st2, gets_to_end (<[i := Thread p c]> ts) own1 st1 i c st2 → gets_to_end ts own st i c st2) as Hgo.
  { unfold gets_to_end. intros st2. rewrite list_insert_insert_eq. by apply rtc_l. }
  unfold alone_result. destruct r as [|[]]; auto.
Qed.

Lemma runs_alone asks (p : prog unit) : ∀ ts i c own st hs st' r,
  ts !! i = Some (Thread p c) → owns own i hs → ordered asks hs p (false, false) → promised p st →
  run_prog p st = (st', r) → alone_result ts own st i c st' r.
Proof.
  induction p as [[]|B ok m k IH|l p IH|l p IH]; intros ts i c own st hs st' r Hi Hown Hord Hpr Hrun.
  - injection Hrun as <- <-. cbn. unfold gets_to_end. rewrite (owns_none own i) by (by cbn in Hord; subst).
    by rewrite list_insert_id.
  - destruct Hpr as [Hok Hpr]. cbn in Hrun. unfold mbind, M_bind in Hrun.
    destruct (m st) as [st1 [b|f]] eqn:E.
    + eapply alone_after; [by eapply step_act|]. eapply IH; [|done|apply Hord|done..].
      apply list_lookup_insert_eq. by eapply lookup_lt_Some.
    + injection Hrun as <- <-. destruct f as [| |what| |]; try done. intros handle ->. unfold gets_to_end.
      rewrite <- (unlock_owns own i hs) by done. apply rtc_once. by eapply step_throw.
  - destruct (owns_acquire _ _ _ _ _ _ _ Hown Hord) as (Hl & hs1 & Hown1 & Hord1).
    eapply alone_after; [by apply (step_acquire ts own st i l p)|]. eapply IH; [|done..].
    apply list_lookup_insert_eq. by eapply lookup_lt_Some.
  - destruct (owns_release _ _ _ _ _ _ _ Hown Hord) as (Hl & hs1 & Hown1 & Hord1).
    eapply alone_after; [by apply (step_release ts own st i l p)|]. eapply IH; [|done..].
    apply list_lookup_insert_eq. by eapply lookup_lt_Some.
Qed.
End threads.

(** ** Threads that go on: no new ones begin, and nothing happens outside *)
Section going_on.
Context {rng handler : Type}.
Abbreviation config := (config (rng := rng) (handler := handler)).
Abbreviation thread := (thread (rng := rng) (handler := handler)).
Implicit Types (x y : config) (t : thread) (ts : list thread).

Definition goes_on : relation config := config_step (λ _, False) (λ _ _, False).

(** What a step makes of a thread; an exception leaves nothing to do. *)
Definition next_of : relation thread := λ t' t,
  match body t with
  | Ret _ => False
  | Act _ _ k => (∃ b, t' = Thread (k b) (catches t)) ∨ t' = Thread (Ret ()) (catches t)
  | Acquire _ k | Release _ k => t' = Thread k (catches t)
  end.

Lemma next_wf : well_founded next_of.
Proof.
  intros [p c]. induction p as [a|B ok m k IH|l p IH|l p IH]; constructor; intros t Ht; cbn in Ht.
  - done.
  - destruct Ht as [[b ->]| ->]; [apply IH|by constructor].
  - by subst.
  - by subst.
Qed.

Definition one_of : relation (list thread) := λ ts' ts,
  ∃ i t t', ts !! i = Some t ∧ next_of t' t ∧ ts' = <[i := t']> ts.

Lemma one_of_wf : well_founded one_of.
Proof.
  intros ts. induction ts as [|t ts IHts]; [constructor; by intros ? (?&?&?&?&_)|].
  revert ts IHts. induction (next_wf t) as [t _ IHt]. intros ts Hts. induction Hts as [ts Hts IHts].
  constructor. intros ts' (i&t1&t'&Hi&Hnext&->). destruct i as [|i]; cbn in *.
  - simplify_eq. apply IHt; [done|by constructor].
  - apply IHts. by exists i, t1, t'.
Qed.

Lemma goes_on_one x y : goes_on x y → one_of (threads y) (threads x).
Proof.
  assert (∀ ts i t t', ts !! i = Some t → next_of t' t → one_of (<[i := t']> ts) ts) as H
    by (intros; by eexists _, _, _).
  destruct 1; try done; (eapply H; [eassumption|]); cbn; eauto.
Qed.

Lemma goes_on_terminates x : Acc (flip goes_on) x.
Proof.
  remember (threads x) as ts eqn:E. revert x E. induction (one_of_wf ts) as [ts _ IH].
  intros x ->. constructor. intros y Hy. by eapply IH; [apply goes_on_one|].
Qed.

(** The next action of the thread ends the process, or the outside world owes
    what it promised. *)
Definition at_fault x (i : nat) : Prop :=
  match threads x !! i with
  | Some (Thread (Act ok m _) c) =>
      ok (shared x) →
      match m (shared x) with
      | (_, Ok _) => False
      | (_, Err (FThrow _)) => c = None
      | (_, Err _) => True
      end
  | _ => False
  end.

Lemma stopped_at_fault x i :
  well_ordered x → (∀ y, ¬ goes_on x y) → can_move x i → at_fault x i.
Proof.
  intros [_ Ht] Hstop. unfold can_move, at_fault. destruct x as [ts own st]; cbn in *.
  destruct (ts !! i) as [[[a|B ok m k|l p|l p] c]|] eqn:Hi; try done.
  - intros _ Hok. destruct (m st) as [st' [b|[]]] eqn:Hm; try done.
    + by eapply Hstop, step_act.
    + destruct c as [handle|]; [|done]. exfalso. by eapply Hstop, step_throw.
  - intros Hl. by eapply Hstop, step_acquire.
  - intros _. eapply Hstop, step_release; [done|]. specialize (Ht _ _ Hi).
    unfold held_by, holds in Ht. cbn in Ht. destruct l; destruct Ht as [E _].
    + injection E as E _. by apply bool_decide_eq_true in E.
    + by apply bool_decide_eq_true in E.
Qed.

Lemma all_finished_unlocked x :
  well_ordered x → Forall (λ t, finished_thread t = true) (threads x) → owners x = ∅.
Proof.
  intros [Ho Ht] Hall. apply map_eq. intros l. rewrite lookup_empty. apply eq_None_not_Some. intros [i Hl].
  destruct (Ho _ _ Hl) as [t Hi]. specialize (Ht _ _ Hi). rewrite list.Forall_forall in Hall.
  specialize (Hall t (list_elem_of_lookup_2 _ _ _ Hi)). destruct t as [[] c]; try done. cbn in Ht.
  unfold held_by, holds in Ht. injection Ht as H1 H2.
  apply bool_decide_eq_false in H1, H2. by destruct l.
Qed.

Lemma stopped x :
  well_ordered x → (∀ y, ¬ goes_on x y) →
  (Forall (λ t, finished_thread t = true) (threads x) ∧ owners x = ∅) ∨ ∃ i, at_fault x i.
Proof.
  intros Hx Hstop. destruct (well_ordered_can_move x Hx) as [Hall|[i Hi]].
  - left. split; [done|]. by apply all_finished_unlocked.
  - right. exists i. by apply stopped_at_fault.
Qed.

Lemma well_ordered_goes_on x y : rtc goes_on x y → well_ordered x → well_ordered y.
Proof. by apply well_ordered_steps. Qed.
End going_on.
