(* ===== verification/Calls.v ===== *)
(** * The calls, section by section

    The operations of [Interceptor.v] as programs: where [src/src/interceptor.cc] and
    [src/src/utils.cc] take and give back a mutex, and the actions in between.
    The two agree on a call that nobody interrupts ([calls_are_their_sections]). *)
From S2P Require Import Prelude StdString Names KernArgs CoCache Dispatch Comms LibraryFilter Interceptor Registration Sections.

Definition created : list event → list Z :=
  omap (λ e, match e with SignalCreated s => Some s | _ => None end).

Section calls.
Context {rng handler : Type} (draw : rng → Z * rng).
Context (set_context : bytes → handler → handler) (handlers_by_default : bytes → Z → list handler).
Context `{HL : HsaLoader} {node : Type} {CG : Comgr node} (comgr_metadata : bytes → option node).
Abbreviation state := (interceptor rng handler).
Abbreviation run := (M rng handler).
Abbreviation prog := (prog rng handler).
Implicit Types (st : state).

(** HSA does not hand out a signal that exists already. *)
Definition fresh_signals (an : answers) st : Prop :=
  NoDup (omap id (an_signals an)) ∧
  Forall (λ s, s ∉ created (trace_ st)) (omap id (an_signals an)).

(** ** The code-object cache *)
Definition read_cache {A} (f : coCache → A) : run A := gets (λ st, f (kernel_cache_ st)).
Definition write_cache (f : coCache → coCache) : run unit := modify (λ st, set_kernel_cache (f (kernel_cache_ st)) st).

(** [findInstrumentedAlternative]; its own accesses to [alternatives_] take no lock. *)
Definition findInstrumentedAlternative_sections (symbol : Z) (name : bytes) (queue_agent : Z) : prog Z :=
  result ← act (with_cache (λ c, Ok (known_alternative symbol queue_agent c)));
  if negb (result =? 0) then mret result
  else
    result ← locked CacheLock (with_cache (findAlternative symbol (getInstrumentedName name)));
    if result =? 0 then mret 0
    else
      _ ← act (write_cache (λ c, set_alternatives (insert2 (alternatives_ c) queue_agent symbol result) c));
      mret result.

Definition resolve_code_object_sections (agent lco : Z) : prog unit :=
  match code_object_bytes lco with
  | None => mret ()
  | Some co_data =>
      helper ← act (lift (helper_addCodeObject demangleName (comgr_metadata co_data) ∅));
      locked CacheLock (write_cache (λ c, foldl (resolve_name agent helper) c
        (fst <$> map_items (default ∅ (lookup_map_ c !! agent)))))
  end.

Fixpoint resolve_code_objects_sections (agent : Z) (lcos : list Z) : prog unit :=
  match lcos with
  | [] => mret ()
  | lco :: lcos' => _ ← resolve_code_object_sections agent lco; resolve_code_objects_sections agent lcos'
  end.

Fixpoint resolve_kernels_sections (agent : Z) (processed : gset Z) (kernel_objects : list Z) : prog unit :=
  match kernel_objects with
  | [] => mret ()
  | kernel_object :: kernel_objects' =>
      match query_executable kernel_object with
      | None => resolve_kernels_sections agent processed kernel_objects'
      | Some executable =>
          if decide (executable ∈ processed) then resolve_kernels_sections agent processed kernel_objects'
          else
            _ ← resolve_code_objects_sections agent (loaded_code_objects executable);
            resolve_kernels_sections agent ({[executable]} ∪ processed) kernel_objects'
      end
  end.

Definition resolveRuntimeArgDescriptors_sections (agent : Z) : prog bool :=
  missing ← locked CacheLock (read_cache (λ c,
    match runtime_kernel_objects_ c !! agent with
    | Some runtime => Some (missing_kernel_objects agent runtime c)
    | None => None
    end));
  match missing with
  | None => mret false
  | Some kernel_objects => _ ← resolve_kernels_sections agent ∅ kernel_objects; mret true
  end.

Definition getArgDescriptor_sections (agent : Z) (name : bytes) (instrumented : bool)
    : prog (option arg_descriptor_t) :=
  desc ← locked CacheLock (read_cache (lookup_descriptor agent name instrumented));
  match desc with
  | Some desc => mret (Some desc)
  | None =>
      found ← resolveRuntimeArgDescriptors_sections agent;
      if found : bool then locked CacheLock (read_cache (lookup_descriptor agent name instrumented))
      else mret None
  end.

(** ** Packets: [fixupPacket] holds the interceptor's lock throughout. *)
Definition alternative_for_sections (kd : ld_kernel_descriptor) (agent : Z) : prog Z :=
  instrumented ← act (gets run_instrumented_);
  if instrumented : bool
  then findInstrumentedAlternative_sections (ld_symbol kd) (ld_name kd) agent
  else locked CacheLock (with_cache (findAlternative (ld_symbol kd) (ld_name kd))).

Definition scan_for_sections (an : answers) (agent : Z) (name : bytes) (kdb : option (list bytes)) : prog unit :=
  match kdb with
  | None => mret ()
  | Some scanned =>
      if an_hasKernel an agent scanned name then mret ()
      else
        ref ← locked CacheLock (read_cache (getCodeObjectRef agent name));
        match ref with
        | None => mret ()
        | Some coRef =>
            act (_ ← emit (CodeObjectScanned agent (co_file coRef));
                 match an_scan an with
                 | Some what => fail (FThrow what)
                 | None => modify (λ st, set_kdbs (<[agent := Some (scanned ++ [co_file coRef])]> (kdbs_ st)) st)
                 end)
        end
  end.

Definition instrument_dispatch_sections (an : answers) (sig : Z) (packet dispatch : packet)
    (kd : ld_kernel_descriptor) (agent alt dispatch_id : Z) : prog (Interceptor.packet * option Z) :=
  size ← locked CacheLock (read_cache (getArgSize alt));
  _ ← act (lift (assertb (negb (size =? 0))));
  instrumented ← act (gets run_instrumented_);
  args ← getArgDescriptor_sections agent (ld_name kd) instrumented;
  match args with
  | None => act (fail FAbort)
  | Some args =>
      new_kernargs ← act (allocate_kernargs an (kernarg_length args) agent);
      kdb ← act (agent_kdb agent);
      _ ← scan_for_sections an agent (ld_name kd) kdb;
      comms ← act (checkout set_context handlers_by_default an agent (ld_name kd) dispatch_id);
      _ ← act (write_kernargs an new_kernargs (pk_kernarg_address packet) args);
      _ ← act (modify (λ st, set_pending_kernargs (<[sig := new_kernargs]> (pending_kernargs_ st)) st));
      mret (Packet (pk_header dispatch) (pk_geometry dispatch) (private_segment_size args)
              (group_segment_size args) alt new_kernargs (pk_completion_signal dispatch), Some comms)
  end.

(** [hasKernels] reads [lookup_map_] without the cache's lock. *)
Definition choose_kernel_sections (an : answers) (sig : Z) (packet : packet) (queue dispatch_id : Z)
    : prog (Interceptor.packet * option Z) :=
  agent ← act (queue_agent queue);
  has ← act (read_cache (hasKernels agent));
  if has : bool then
    kd ← act (gets (λ st, kernel_objects_ st !! pk_kernel_object packet));
    match kd with
    | None => mret (packet, None)
    | Some kd =>
        alt ← alternative_for_sections kd agent;
        if alt =? 0 then mret (packet, None)
        else
          ok ← act (may_dispatch draw alt);
          if ok : bool then instrument_dispatch_sections an sig packet packet kd agent alt dispatch_id
          else mret (packet, None)
    end
  else mret (packet, None).

Definition fixupPacket_sections (an : answers) (packet : packet) (queue dispatch_id : Z)
    : prog Interceptor.packet :=
  with_lock InterceptorLock (
    sig ← Act (fresh_signals an) (take_signal an) mret;
    '(dispatch, comms) ← choose_kernel_sections an sig packet queue dispatch_id;
    act (kd ← kernel_at (pk_kernel_object packet);
         agent ← queue_agent queue;
         _ ← modify (λ st, set_pending_signals
               (<[sig := KernelInfo (pk_completion_signal dispatch) (ld_name kd) agent comms (an_now an)]>
                  (pending_signals_ st)) st);
         let dispatch := Packet (pk_header dispatch) (pk_geometry dispatch)
           (pk_private_segment_size dispatch) (pk_group_segment_size dispatch)
           (pk_kernel_object dispatch) (pk_kernarg_address dispatch) sig in
         _ ← emit (Intercepted packet dispatch);
         mret dispatch)).

(** [++dispatch_count_] is atomic; the packet is written without a lock. *)
Definition do_packet_sections (an : answers) (queue : Z) (packet : packet) : prog unit :=
  if getHeaderType packet =? HSA_PACKET_TYPE_KERNEL_DISPATCH then
    id ← act (id ← gets (λ st, u64 (dispatch_count_ st + 1)); _ ← modify (set_dispatch_count id); mret id);
    dispatch ← fixupPacket_sections an packet queue id;
    act (emit (Written dispatch))
  else act (emit (Written packet)).

Fixpoint packet_loop_sections (queue : Z) (packets : list (packet * answers)) : prog unit :=
  match packets with
  | [] => mret ()
  | (p, an) :: packets' => _ ← do_packet_sections an queue p; packet_loop_sections queue packets'
  end.

(** ** Kernels and files *)

(** [addKernel] after its first section; each of the others takes the cache's lock. *)
Fixpoint later_sections (n : nat) (rq : request) (p : position) : prog unit :=
  match n with
  | O => mret ()
  | S n' =>
      match p with
      | AtEnd => mret ()
      | _ => p ← locked CacheLock (thread_step rq p); later_sections n' rq p
      end
  end.
Definition addKernel_sections (rq : request) : prog unit :=
  p ← locked InterceptorLock (thread_step rq AtStart); later_sections 3 rq p.

Definition hook_sections (symbol kernelObject : Z) (name_length : option Z)
    (name : option bytes) (kernarg_size agent : option Z) : prog unit :=
  match name_length, name with
  | Some _, Some name =>
      size ← act (lift (check_status kernarg_size));
      agent ← act (lift (check_status agent));
      addKernel_sections (Request kernelObject (c_str name) symbol agent size)
  | _, _ => mret ()
  end.

Definition enter_symbol_sections (name : bytes) (agent : Z) (strFilter : bytes) (l : loaded_t) (sym : Z)
    : prog unit :=
  sym_name ← act (lift (check_status (symbol_name sym)));
  let mangledName := c_str sym_name in
  let strName := demangleName mangledName in
  accepted ← act (lift (filter_accepts strFilter strName));
  if negb accepted then mret ()
  else
    _ ← match helper_getArgDescriptor (ld_helper l) strName with
        | Some desc =>
            locked CacheLock (write_cache (λ c, set_arg_map (insert2 (arg_map_ c) agent strName desc) c))
        | None => mret ()
        end;
    locked CacheLock (write_cache (λ c,
      let c := set_lookup_map (insert2 (lookup_map_ c) agent strName sym) c in
      set_kernel_co_map (insert2 (kernel_co_map_ c) agent strName (CORef name (ld_file l) mangledName)) c)).

Definition add_symbol_sections (name : bytes) (agent : Z) (strFilter : bytes) (l : loaded_t) (sym : Z)
    : prog unit :=
  kind ← act (lift (check_status (symbol_kind sym)));
  if decide (kind = SYMBOL_KERNEL) then
    _ ← locked CacheLock (write_cache (add_kernel_symbol agent sym));
    kernel_object ← act (lift (check_status (symbol_kernel_object sym)));
    let sym_name := symbol_name sym in
    _ ← hook_sections sym kernel_object ((λ n, Z.of_nat (length n)) <$> sym_name) sym_name
          (symbol_kernarg_size sym) (symbol_agent sym);
    enter_symbol_sections name agent strFilter l sym
  else mret ().

Fixpoint add_symbols_sections (name : bytes) (agent : Z) (strFilter : bytes) (l : loaded_t) (syms : list Z)
    : prog unit :=
  match syms with
  | [] => mret ()
  | sym :: syms' =>
      _ ← add_symbol_sections name agent strFilter l sym;
      add_symbols_sections name agent strFilter l syms'
  end.

Fixpoint add_executables_sections (name : bytes) (agent : Z) (strFilter : bytes) (loaded : list loaded_t)
    : prog unit :=
  match loaded with
  | [] => mret ()
  | l :: loaded' =>
      _ ← act (lift (check_status (if executable_freeze (ld_executable l) then Some () else None)));
      _ ← add_symbols_sections name agent strFilter l (iterate_symbols (ld_executable l));
      _ ← locked CacheLock (write_cache (λ c,
            set_cache_objects (<[agent := (ld_executable l, name)]> (cache_objects_ c)) c));
      add_executables_sections name agent strFilter loaded'
  end.

Definition addFile_sections (name : bytes) (agent : Z) (strFilter : bytes) : prog unit :=
  code_objects ← act (lift (extractCodeObjects agent name));
  match code_objects with
  | [] => mret ()
  | code_object_files =>
      loaded ← act (lift (res_fold (load_code_object comgr_metadata agent) [] code_object_files));
      add_executables_sections name agent strFilter loaded
  end.

Fixpoint add_code_object_sections (name : bytes) (gpus : list Z) : prog unit :=
  match gpus with
  | [] => mret ()
  | agent :: gpus' =>
      strFilter ← act (gets (λ st, default [] (config_ st !! lit "LOGDUR_FILTER")));
      _ ← addFile_sections name agent strFilter;
      _ ← locked InterceptorLock (modify (λ st, match kdbs_ st !! agent with
                        | Some _ => st
                        | None => set_kdbs (<[agent := Some []]> (kdbs_ st)) st
                        end));
      add_code_object_sections name gpus'
  end.

(** ** The calls *)
Inductive call :=
| SubmitPackets (queue : Z) (packets : list (packet * answers))
| SignalCompleted (sig startNs endNs : Z)
| AddQueue (profiling : bool) (queue agent : Z)
| KernelObjectQueried (symbol kernelObject : Z) (name_length : option Z) (name : option bytes)
    (kernarg_size agent : option Z)
| AddCodeObject (name : bytes) (gpus : list Z)
| Shutdown.

(** [try] with a [catch] that does [handle]. *)
Definition catching (handle : option (state → state)) (m : run unit) : run unit := λ st,
  match m st with
  | (st', Err (FThrow what)) =>
      match handle with Some handle => (handle st', Ok ()) | None => (st', Err (FThrow what)) end
  | r => r
  end.

(** The call with its [catch], as [Interceptor.v] has it. *)
Definition call_run (c : call) : run unit :=
  match c with
  | SubmitPackets queue packets => doPackets draw set_context handlers_by_default comgr_metadata queue packets
  | SignalCompleted sig s e => signalCompleted sig s e
  | AddQueue profiling queue agent => catching (Some id) (addQueue profiling queue agent)
  | KernelObjectQueried symbol ko len name size agent =>
      catching (Some id) (hook_kernel_object symbol ko len name size agent)
  | AddCodeObject name gpus => addCodeObject comgr_metadata name gpus
  | Shutdown => shutdown
  end.

Definition call_body (c : call) : prog unit :=
  match c with
  | SubmitPackets queue packets => packet_loop_sections queue packets
  | SignalCompleted sig s e => locked InterceptorLock (signalCompleted sig s e)
  | AddQueue profiling queue agent =>
      _ ← act (lift (assertb profiling));
      locked InterceptorLock (modify (λ st, set_queues (<[queue := agent]> (queues_ st)) st))
  | KernelObjectQueried symbol ko len name size agent => hook_sections symbol ko len name size agent
  | AddCodeObject name gpus => match name with [] => mret () | _ => add_code_object_sections name gpus end
  | Shutdown => act shutdown
  end.

(** What the [catch] of [doPackets] leaves; those of [hsa_queue_create] and
    [hsa_executable_symbol_get_info] only print. *)
Definition drop_batch (st : state) : state := set_trace (trace_ st ++ [BatchDropped]) st.
Definition call_catches (c : call) : option (state → state) :=
  match c with
  | SubmitPackets _ _ => Some drop_batch
  | AddQueue _ _ _ | KernelObjectQueried _ _ _ _ _ _ => Some id
  | SignalCompleted _ _ _ | AddCodeObject _ _ | Shutdown => None
  end.

Definition call_thread (c : call) : thread := Thread (call_body c) (call_catches c).
Definition run_thread (t : thread) : run unit := catching (catches t) (run_prog (body t)).

(** ** A call that nobody interrupts *)
Lemma run_step {A B} (p : prog A) (m : run A) (k : A → prog B) (k' : A → run B) :
  run_prog p ≡ m → (∀ a, run_prog (k a) ≡ k' a) → run_prog (p ≫= k) ≡ m ≫= k'.
Proof. intros Hp Hk. rewrite run_bind, Hp. f_equiv. intros a. apply Hk. Qed.

Create HintDb sections discriminated.
Hint Resolve run_act run_locked : sections.
Hint Extern 1 (run_prog (mret _) ≡ mret _) => apply run_ret : sections.

(** One statement after the other; each branch of a test on its own. *)
Ltac sections :=
  repeat first
    [ progress cbn [run_prog] | match goal with |- ∀ _, _ => intros ? end | reflexivity
    | apply run_step; [solve [auto with sections]|]
    | solve [auto with sections]
    | case_match ].

(** The statements that read, then compute, then write. *)
Lemma run_locked_bind {A B} l (m : run A) (k : A → prog B) :
  run_prog (locked l m ≫= k) ≡ m ≫= λ a, run_prog (k a).
Proof. by rewrite run_bind, run_locked. Qed.
Lemma run_act_bind {A B} (m : run A) (k : A → prog B) : run_prog (act m ≫= k) ≡ m ≫= λ a, run_prog (k a).
Proof. by rewrite run_bind, run_act. Qed.

Lemma findAlternative_ends symbol name c f : findAlternative symbol name c = Err f → ends_process f.
Proof.
  unfold findAlternative. destruct (symbol_agent symbol); cbn; [|by intros [= <-]].
  destruct (symbol_kernarg_size symbol); cbn; [|by intros [= <-]].
  destruct (lookup2 _ _ _) as [kern|]; [|done]. destruct (symbol_kernarg_size kern); cbn; [|by intros [= <-]].
  destruct (symbol_kernel_object kern); cbn; [done|by intros [= <-]].
Qed.

Ltac go := repeat (unfold with_cache, read_cache, write_cache, mbind, M_bind, prog_bind, lift, gets, modify; cbn).

Lemma run_findInstrumentedAlternative symbol name queue_agent :
  run_prog (findInstrumentedAlternative_sections symbol name queue_agent) ≡
  with_cache (findInstrumentedAlternative symbol name queue_agent).
Proof.
  intros st. unfold findInstrumentedAlternative_sections, findInstrumentedAlternative. go.
  destruct (known_alternative symbol queue_agent (kernel_cache_ st)) as [r c]. go.
  destruct (negb (r =? 0)); [by left|]. go.
  destruct (findAlternative symbol (getInstrumentedName name) c) as [[r' c']|f] eqn:Hf; go.
  - left. destruct (Z.eqb_spec r' 0) as [->|]; done.
  - right. exists f. split; [by eapply findAlternative_ends|done].
Qed.

(** Loading the code objects one after the other, up to the first that faults. *)
Definition resolve_list (agent : Z) (lcos : list Z) : run unit := λ st,
  match res_fold (resolve_code_object comgr_metadata agent) (kernel_cache_ st) lcos with
  | Ok c => (set_kernel_cache c st, Ok ())
  | Err f => (set_kernel_cache (fold_so_far (resolve_code_object comgr_metadata agent) (kernel_cache_ st) lcos) st,
              Err f)
  end.

Lemma set_kernel_cache_same st : set_kernel_cache (kernel_cache_ st) st = st.
Proof. by destruct st. Qed.

Lemma resolve_list_app agent l1 l2 :
  resolve_list agent (l1 ++ l2) ≡ resolve_list agent l1 ≫= λ _, resolve_list agent l2.
Proof.
  intros st. left. unfold resolve_list, mbind, M_bind. rewrite res_fold_app, fold_so_far_app.
  by destruct (res_fold _ _ l1) as [c|f].
Qed.

Lemma run_resolve_code_object agent lco :
  run_prog (resolve_code_object_sections agent lco) ≡ resolve_list agent [lco].
Proof.
  intros st. left. unfold resolve_code_object_sections, resolve_list. cbn. unfold resolve_code_object.
  destruct (code_object_bytes lco) as [data|]; go; [|by rewrite set_kernel_cache_same].
  destruct (helper_addCodeObject _ _ _); cbn; [done|by rewrite set_kernel_cache_same].
Qed.

Lemma run_resolve_code_objects agent lcos :
  run_prog (resolve_code_objects_sections agent lcos) ≡ resolve_list agent lcos.
Proof.
  induction lcos as [|lco lcos IH]; cbn [resolve_code_objects_sections].
  - intros st. left. unfold resolve_list. cbn. by rewrite set_kernel_cache_same.
  - rewrite run_bind, run_resolve_code_object. change (lco :: lcos) with ([lco] ++ lcos).
    rewrite resolve_list_app. f_equiv. intros _. exact IH.
Qed.

Lemma run_resolve_kernels agent processed kos :
  run_prog (resolve_kernels_sections agent processed kos) ≡ resolve_list agent (code_objects_of processed kos).
Proof.
  revert processed. induction kos as [|ko kos IH]; intros processed; cbn [resolve_kernels_sections code_objects_of].
  - intros st. left. unfold resolve_list. cbn. by rewrite set_kernel_cache_same.
  - destruct (query_executable ko) as [e|]; [|apply IH]. case_decide; [apply IH|].
    rewrite run_bind, run_resolve_code_objects, resolve_list_app. f_equiv. intros _. apply IH.
Qed.

(** The nested loop of [CoCache.v] goes through the same list. *)
Lemma resolve_kernels_flat agent processed kos c :
  res_map snd (res_fold (resolve_kernel comgr_metadata agent) (processed, c) kos) =
  res_fold (resolve_code_object comgr_metadata agent) c (code_objects_of processed kos).
Proof.
  revert processed c. induction kos as [|ko kos IH]; intros processed c; cbn [res_fold code_objects_of]; [done|].
  unfold resolve_kernel at 1. destruct (query_executable ko) as [e|]; [|apply IH].
  case_decide; cbn [res_bind]; [apply IH|]. rewrite res_fold_app.
  destruct (res_fold _ c (loaded_code_objects e)); cbn [res_bind]; [apply IH|done].
Qed.

Definition resolve_run (agent : Z) : run bool := λ st,
  match resolveRuntimeArgDescriptors comgr_metadata agent (kernel_cache_ st) with
  | Ok (found, c) => (set_kernel_cache c st, Ok found)
  | Err f => (set_kernel_cache (resolved_so_far comgr_metadata agent (kernel_cache_ st)) st, Err f)
  end.

Lemma run_resolveRuntimeArgDescriptors agent :
  run_prog (resolveRuntimeArgDescriptors_sections agent) ≡ resolve_run agent.
Proof.
  unfold resolveRuntimeArgDescriptors_sections. rewrite run_locked_bind.
  transitivity (missing ← read_cache (λ c,
      match runtime_kernel_objects_ c !! agent with
      | Some runtime => Some (missing_kernel_objects agent runtime c)
      | None => None
      end);
    match missing with
    | None => mret false
    | Some kos => _ ← resolve_list agent (code_objects_of ∅ kos); mret true
    end : run bool).
  { f_equiv. intros [kos|]; [|done]. rewrite run_bind, run_resolve_kernels. done. }
  intros st. left. unfold resolve_run, resolveRuntimeArgDescriptors, resolved_so_far. go.
  destruct (runtime_kernel_objects_ (kernel_cache_ st) !! agent) as [runtime|]; go;
    [|by rewrite set_kernel_cache_same].
  unfold resolve_list. rewrite <- resolve_kernels_flat.
  by destruct (res_fold _ _ _) as [[processed c]|f].
Qed.

Lemma run_getArgDescriptor agent name instrumented :
  run_prog (getArgDescriptor_sections agent name instrumented) ≡ find_descriptor comgr_metadata agent name instrumented.
Proof.
  unfold getArgDescriptor_sections. rewrite run_locked_bind.
  transitivity (desc ← read_cache (lookup_descriptor agent name instrumented);
    match desc with
    | Some desc => mret (Some desc)
    | None => found ← resolve_run agent;
        if found : bool then read_cache (lookup_descriptor agent name instrumented) else mret None
    end : run (option arg_descriptor_t)).
  { f_equiv. intros [d|]; [done|]. rewrite run_bind, run_resolveRuntimeArgDescriptors. f_equiv. by intros []. }
  intros st. left. unfold resolve_run, find_descriptor, getArgDescriptor. go.
  destruct (lookup_descriptor agent name instrumented (kernel_cache_ st)) as [d|]; go;
    [by rewrite set_kernel_cache_same|].
  by destruct (resolveRuntimeArgDescriptors _ _ _) as [[[] c]|f].
Qed.
Hint Resolve run_getArgDescriptor run_findInstrumentedAlternative : sections.

(** *** Packets *)
Lemma run_alternative_for kd agent :
  run_prog (alternative_for_sections kd agent) ≡ alternative_for kd agent.
Proof. unfold alternative_for_sections, alternative_for. sections. Qed.
Hint Resolve run_alternative_for : sections.

Lemma run_scan_for an agent name kdb : run_prog (scan_for_sections an agent name kdb) ≡ scan_for an agent name kdb.
Proof. unfold scan_for_sections, scan_for. sections. Qed.
Hint Resolve run_scan_for : sections.

Lemma run_instrument_dispatch an sig p dispatch kd agent alt id :
  run_prog (instrument_dispatch_sections an sig p dispatch kd agent alt id) ≡
  instrument_dispatch set_context handlers_by_default comgr_metadata an sig p dispatch kd agent alt id.
Proof. unfold instrument_dispatch_sections, instrument_dispatch. sections. Qed.
Hint Resolve run_instrument_dispatch : sections.

Lemma run_choose_kernel an sig p queue id :
  run_prog (choose_kernel_sections an sig p queue id) ≡
  choose_kernel draw set_context handlers_by_default comgr_metadata an sig p queue id.
Proof. unfold choose_kernel_sections, choose_kernel. sections. Qed.
Hint Resolve run_choose_kernel : sections.

Lemma run_fixupPacket an p queue id :
  run_prog (fixupPacket_sections an p queue id) ≡
  fixupPacket draw set_context handlers_by_default comgr_metadata an p queue id.
Proof.
  unfold fixupPacket_sections, fixupPacket. rewrite run_with_lock.
  apply run_step; [apply bind_ret|]. intros sig. apply run_step; [apply run_choose_kernel|].
  intros [dispatch comms]. apply run_act.
Qed.
Hint Resolve run_fixupPacket : sections.

Lemma run_do_packet an queue p :
  run_prog (do_packet_sections an queue p) ≡
  do_packet draw set_context handlers_by_default comgr_metadata an queue p.
Proof.
  unfold do_packet_sections, do_packet. destruct (_ =? _); [|apply run_act].
  transitivity (id ← (id ← gets (λ st, u64 (dispatch_count_ st + 1)); _ ← modify (set_dispatch_count id); mret id);
    dispatch ← fixupPacket draw set_context handlers_by_default comgr_metadata an p queue id;
    emit (Written dispatch)).
  - apply run_step; [apply run_act|]. intros id. apply run_step; [apply run_fixupPacket|].
    intros dispatch. apply run_act.
  - rewrite bind_assoc. f_equiv. intros id. by rewrite bind_assoc.
Qed.
Hint Resolve run_do_packet : sections.

Lemma run_packet_loop queue packets :
  run_prog (packet_loop_sections queue packets) ≡
  packet_loop draw set_context handlers_by_default comgr_metadata queue packets.
Proof.
  induction packets as [|[p an] packets IH]; [done|].
  apply run_step; [apply run_do_packet|]. intros _. exact IH.
Qed.

(** *** Kernels and files *)
Lemma run_addKernel rq :
  run_prog (addKernel_sections rq) ≡
  addKernel (rq_object rq) (rq_name rq) (rq_symbol rq) (rq_agent rq) (rq_size rq).
Proof.
  intros st. left. unfold addKernel_sections, addKernel. go.
  destruct (kernel_objects_ st !! rq_object rq); [done|]. go. fold (thisName (rq_name rq)).
  destruct (run_instrumented_ st); [|done]. destruct (active_ (library_filter_ st)); go; [|done].
  unfold isKernelFromExcludedFile. destruct (query_executable (rq_object rq)) as [e|]; go; [|done].
  destruct (excluded_executable_cache_ (kernel_cache_ st) !! e) as [[]|]; go; [by destruct st|done|].
  by destruct (any_excluded _ _).
Qed.

Lemma run_hook symbol ko len name size agent :
  run_prog (hook_sections symbol ko len name size agent) ≡ hook_kernel_object symbol ko len name size agent.
Proof.
  unfold hook_sections, hook_kernel_object. destruct len, name; try done.
  apply run_step; [apply run_act|]. intros s. apply run_step; [apply run_act|]. intros a. apply run_addKernel.
Qed.
Hint Resolve run_hook : sections.

Lemma run_enter_symbol name agent flt l sym :
  run_prog (enter_symbol_sections name agent flt l sym) ≡ on_cache (λ c, enter_symbol name agent flt l c sym).
Proof.
  intros st. left. unfold enter_symbol_sections, on_cache, enter_symbol. go.
  destruct (symbol_name sym) as [n|]; go; [|done].
  destruct (filter_accepts flt (demangleName (c_str n))) as [[]|]; go; [|by rewrite set_kernel_cache_same|done].
  by destruct (helper_getArgDescriptor _ _).
Qed.
Hint Resolve run_enter_symbol : sections.

Lemma run_on_cache (f : coCache → coCache) l :
  run_prog (locked l (write_cache f)) ≡ on_cache (λ c, Ok (f c)).
Proof. intros st. by left. Qed.
Hint Resolve run_on_cache : sections.

Lemma run_add_symbol name agent flt l sym :
  run_prog (add_symbol_sections name agent flt l sym) ≡ add_symbol_hooked name agent flt l sym.
Proof. unfold add_symbol_sections, add_symbol_hooked. sections. Qed.
Hint Resolve run_add_symbol : sections.

Lemma run_add_symbols name agent flt l syms :
  run_prog (add_symbols_sections name agent flt l syms) ≡ add_symbols_hooked name agent flt l syms.
Proof. induction syms as [|sym syms IH]; [done|]. apply run_step; [apply run_add_symbol|]. intros _. exact IH. Qed.
Hint Resolve run_add_symbols : sections.

Lemma run_add_executables name agent flt loaded :
  run_prog (add_executables_sections name agent flt loaded) ≡ add_executables_hooked name agent flt loaded.
Proof.
  induction loaded as [|l loaded IH]; [done|]. cbn [add_executables_sections add_executables_hooked]. sections.
Qed.
Hint Resolve run_add_executables : sections.

Lemma run_addFile name agent flt :
  run_prog (addFile_sections name agent flt) ≡ addFile_hooked comgr_metadata name agent flt.
Proof. unfold addFile_sections, addFile_hooked. sections. Qed.
Hint Resolve run_addFile : sections.

Lemma run_add_code_object name gpus :
  run_prog (add_code_object_sections name gpus) ≡ add_code_object comgr_metadata name gpus.
Proof. induction gpus as [|agent gpus IH]; [done|]. cbn [add_code_object_sections add_code_object]. sections. Qed.

(** The same without the [catch]. *)
Definition uncaught (c : call) : run unit :=
  match c with
  | SubmitPackets queue packets => packet_loop draw set_context handlers_by_default comgr_metadata queue packets
  | AddQueue profiling queue agent => addQueue profiling queue agent
  | KernelObjectQueried symbol ko len name size agent => hook_kernel_object symbol ko len name size agent
  | _ => call_run c
  end.

Lemma run_call_body c : run_prog (call_body c) ≡ uncaught c.
Proof.
  destruct c as [queue packets|sig s e|profiling queue agent|symbol ko len name size agent|name gpus|];
    cbn [call_body uncaught call_run].
  - apply run_packet_loop.
  - apply run_locked.
  - unfold addQueue. sections.
  - apply run_hook.
  - destruct name; [done|]. apply run_add_code_object.
  - apply run_act.
Qed.

#[local] Instance catching_proper handle : Proper ((≡) ==> (≡)) (catching handle).
Proof.
  intros m m' H st. unfold catching. destruct (H st) as [->|(f&Hf&E1&E2)]; [by left|right].
  exists f. destruct (m st), (m' st). cbn in *. subst. by destruct f.
Qed.

Lemma catching_uncaught c : catching (call_catches c) (uncaught c) ≡ call_run c.
Proof.
  intros st. left. unfold catching. destruct c; cbn [call_catches uncaught call_run];
    try done; unfold doPackets, catching; repeat case_match; simplify_eq; done.
Qed.

(** A call that nobody interrupts, run section by section, has the outcome that
    its definition gives: the same result and the same state, or the same fault
    that ends the process. *)
Theorem calls_are_their_sections c : run_thread (call_thread c) ≡ call_run c.
Proof. unfold run_thread. cbn [body catches call_thread]. by rewrite run_call_body, catching_uncaught. Qed.

(** ** What the actions of the calls have in common

    A relation that holds between the state before and after each primitive action
    holds before and after every action of a call. *)
Section actions.
Context (R : relation state) {HR : PreOrder R}.

Record primitive : Prop := {
  pr_cache st c : R st (set_kernel_cache c st);
  pr_register rq : within R (thread_step rq AtStart);
  pr_kernel_at ko : within R (kernel_at ko);
  pr_queues st m : dom (queues_ st) ⊆ dom m → R st (set_queues m st);
  pr_kdbs st m : R st (set_kdbs m st);
  pr_dispatcher st d : R st (set_dispatcher d st);
  pr_pool st l : R st (set_sig_pool l st);
  pr_event st e : R st (set_trace (trace_ st ++ [e]) st);
  pr_memory st m : R st (set_memory m st);
  pr_kernargs st m : R st (set_pending_kernargs m st);
  pr_signals st sig ki : R st (set_pending_signals (<[sig := ki]> (pending_signals_ st)) st);
  pr_count st n : R st (set_dispatch_count n st);
  pr_down st : R st (set_shutting_down true st);
}.
End actions.

Create HintDb acts discriminated.

(** *** Programs that take the cache's lock only *)
Section cache_programs.
Context (R : relation state) {HR : PreOrder R}.
Context (Hcache : ∀ st c, R st (set_kernel_cache c st)).

(** One statement after the other; each branch of a test on its own. *)
Ltac quiet :=
  unfold read_cache, write_cache;
  repeat first
    [ match goal with |- ∀ _, _ => intros ? end | exact I
    | solve [auto with acts nocore]
    | simple apply quiet_locked
    | simple apply quiet_act
    | simple apply quiet_bind
    | match goal with |- within _ _ => solve [within; apply Hcache] end
    | case_match ].

Lemma quiet_findInstrumentedAlternative symbol name agent :
  quiet R (findInstrumentedAlternative_sections symbol name agent).
Proof. unfold findInstrumentedAlternative_sections. quiet. Qed.
Lemma quiet_resolve_code_object agent lco : quiet R (resolve_code_object_sections agent lco).
Proof. unfold resolve_code_object_sections. quiet. Qed.
Hint Resolve quiet_findInstrumentedAlternative quiet_resolve_code_object : acts.
Lemma quiet_resolve_code_objects agent lcos : quiet R (resolve_code_objects_sections agent lcos).
Proof. induction lcos; cbn [resolve_code_objects_sections]; quiet. Qed.
Hint Resolve quiet_resolve_code_objects : acts.
Lemma quiet_resolve_kernels agent processed kos : quiet R (resolve_kernels_sections agent processed kos).
Proof. revert processed. induction kos; intros processed; cbn [resolve_kernels_sections]; quiet. Qed.
Hint Resolve quiet_resolve_kernels : acts.
Lemma quiet_getArgDescriptor agent name instrumented : quiet R (getArgDescriptor_sections agent name instrumented).
Proof. unfold getArgDescriptor_sections, resolveRuntimeArgDescriptors_sections. quiet. Qed.
Lemma quiet_alternative_for kd agent : quiet R (alternative_for_sections kd agent).
Proof. unfold alternative_for_sections. quiet. Qed.

Lemma within_thread_step rq p : p ≠ AtStart → within R (thread_step rq p).
Proof. intros Hp. destruct p; unfold thread_step; [done|..]; within; apply Hcache. Qed.
Lemma quiet_later_sections n rq p : within R (thread_step rq AtStart) → quiet R (later_sections n rq p).
Proof.
  intros Hstart. revert p. induction n as [|n IH]; intros p; cbn [later_sections]; [exact I|].
  assert (quiet R (p ← locked CacheLock (thread_step rq p); later_sections n rq p)) as H;
    [|by destruct p; first [exact H|exact I]].
  apply quiet_bind; [|exact IH]. apply quiet_locked.
  destruct p; [done|by apply within_thread_step..].
Qed.
Lemma quiet_enter_symbol name agent flt l sym : quiet R (enter_symbol_sections name agent flt l sym).
Proof. unfold enter_symbol_sections. quiet. Qed.
End cache_programs.

(** *** All of them *)
Section all_programs.
Context (R : relation state) {HR : PreOrder R} (HP : primitive R).
Hint Resolve quiet_findInstrumentedAlternative quiet_getArgDescriptor quiet_alternative_for quiet_later_sections
  quiet_enter_symbol : acts.
Hint Resolve pr_register pr_kernel_at : acts.
Hint Extern 1 (R _ _) => first
  [ apply (pr_cache R HP) | apply (pr_kdbs R HP) | apply (pr_dispatcher R HP) | apply (pr_pool R HP)
  | apply (pr_event R HP) | apply (pr_memory R HP) | apply (pr_kernargs R HP) | apply (pr_signals R HP)
  | apply (pr_count R HP) | apply (pr_down R HP) | apply (pr_queues R HP); cbn; rewrite ?dom_insert_L; set_solver ] : acts.

(** One statement after the other; each branch of a test on its own. *)
Ltac acts :=
  unfold read_cache, write_cache;
  repeat first
    [ match goal with |- ∀ _, _ => intros ? end | exact I
    | solve [auto with acts nocore]
    | simple apply acts_quiet; solve [auto with acts nocore]
    | simple apply acts_locked
    | simple apply acts_lock
    | simple apply acts_act
    | simple apply acts_bind
    | match goal with |- acts _ (Act _ _ _) => split end
    | match goal with |- within _ _ => solve [within; auto with acts nocore] end
    | case_match ].

Lemma within_grow_pool n signals : within R (grow_pool n signals : run unit).
Proof. revert signals. induction n as [|n IH]; intros signals; cbn [grow_pool]; within; auto with acts nocore. Qed.
Lemma within_take_signal an : within R (take_signal an : run Z).
Proof. pose proof within_grow_pool. unfold take_signal. within; auto with acts nocore. Qed.
Hint Resolve within_take_signal : acts.
Hint Extern 0 (within R (kernel_at _)) => apply (pr_kernel_at R HP) : within.

Lemma acts_packet_loop queue packets : acts R (packet_loop_sections queue packets).
Proof.
  induction packets as [|[pk an] packets IH]; [done|]. apply acts_bind; [|by intros _].
  unfold do_packet_sections, fixupPacket_sections, choose_kernel_sections, queue_agent,
    instrument_dispatch_sections, may_dispatch, allocate_kernargs, agent_kdb,
    scan_for_sections, checkout, write_kernargs. acts.
Qed.
Lemma acts_hook symbol ko len name size agent : acts R (hook_sections symbol ko len name size agent).
Proof. unfold hook_sections, addKernel_sections. acts. Qed.
Hint Resolve acts_hook : acts.
Lemma acts_add_symbols name agent flt l syms : acts R (add_symbols_sections name agent flt l syms).
Proof. induction syms; cbn [add_symbols_sections]; unfold add_symbol_sections; acts. Qed.
Hint Resolve acts_add_symbols : acts.
Lemma acts_add_executables name agent flt loaded : acts R (add_executables_sections name agent flt loaded).
Proof. induction loaded; cbn [add_executables_sections]; acts. Qed.
Hint Resolve acts_add_executables : acts.
Lemma acts_add_code_object name gpus : acts R (add_code_object_sections name gpus).
Proof. induction gpus; cbn [add_code_object_sections]; unfold addFile_sections; acts. Qed.

(** [signalCompleted] takes something away. *)
Lemma call_acts c :
  match c with SignalCompleted sig s e => within R (signalCompleted sig s e : run unit) | _ => True end →
  thread_acts R (call_thread c).
Proof.
  intros Hc. split; [|by destruct c; cbn; try done; intros st; first [apply (pr_event R HP)|reflexivity]].
  cbn [call_thread body]. destruct c as [queue packets|sig s e|profiling queue agent|symbol ko len name size agent|name gpus|];
    cbn [call_body].
  - apply acts_packet_loop.
  - by apply acts_locked.
  - acts.
  - apply acts_hook.
  - destruct name; [done|]. apply acts_add_code_object.
  - unfold shutdown. acts.
Qed.
End all_programs.

(** ** The locks are taken in order *)
Create HintDb order discriminated.
Hint Resolve ordered_act : order.

(** One statement after the other; each branch of a test on its own. *)
Ltac order :=
  repeat first
    [ match goal with |- ∀ _, _ => intros ? end | reflexivity
    | solve [auto with order nocore]
    | simple apply ordered_cache
    | simple apply ordered_interceptor
    | match goal with |- ordered true _ (Act _ _ _) _ => split; [by left|]; intros b end
    | eapply ordered_bind
    | case_match ].

Lemma ordered_locked_cache {A} asks hi (m : run A) : ordered asks (hi, false) (locked CacheLock m) (hi, false).
Proof. apply ordered_cache, ordered_act. Qed.
Lemma ordered_locked_interceptor {A} asks (m : run A) :
  ordered asks (false, false) (locked InterceptorLock m) (false, false).
Proof. apply ordered_interceptor, ordered_act. Qed.
Hint Resolve ordered_locked_cache ordered_locked_interceptor : order.

Lemma ordered_findInstrumentedAlternative asks hi symbol name agent :
  ordered asks (hi, false) (findInstrumentedAlternative_sections symbol name agent) (hi, false).
Proof. unfold findInstrumentedAlternative_sections. order. Qed.

Lemma ordered_resolve_code_object asks hi agent lco :
  ordered asks (hi, false) (resolve_code_object_sections agent lco) (hi, false).
Proof. unfold resolve_code_object_sections. order. Qed.
Hint Resolve ordered_findInstrumentedAlternative ordered_resolve_code_object : order.

Lemma ordered_resolve_code_objects asks hi agent lcos :
  ordered asks (hi, false) (resolve_code_objects_sections agent lcos) (hi, false).
Proof. induction lcos; cbn [resolve_code_objects_sections]; order. Qed.
Hint Resolve ordered_resolve_code_objects : order.

Lemma ordered_resolve_kernels asks hi agent processed kos :
  ordered asks (hi, false) (resolve_kernels_sections agent processed kos) (hi, false).
Proof. revert processed. induction kos; intros processed; cbn [resolve_kernels_sections]; order. Qed.
Hint Resolve ordered_resolve_kernels : order.

Lemma ordered_resolveRuntimeArgDescriptors asks hi agent :
  ordered asks (hi, false) (resolveRuntimeArgDescriptors_sections agent) (hi, false).
Proof. unfold resolveRuntimeArgDescriptors_sections. order. Qed.
Hint Resolve ordered_resolveRuntimeArgDescriptors : order.

Lemma ordered_getArgDescriptor asks hi agent name instrumented :
  ordered asks (hi, false) (getArgDescriptor_sections agent name instrumented) (hi, false).
Proof. unfold getArgDescriptor_sections. order. Qed.
Hint Resolve ordered_getArgDescriptor : order.

Lemma ordered_choose_kernel asks hi an sig p queue id :
  ordered asks (hi, false) (choose_kernel_sections an sig p queue id) (hi, false).
Proof.
  unfold choose_kernel_sections, alternative_for_sections, instrument_dispatch_sections, scan_for_sections. order.
Qed.
Hint Resolve ordered_choose_kernel : order.

Lemma ordered_do_packet an queue p :
  ordered true (false, false) (do_packet_sections an queue p) (false, false).
Proof.
  unfold do_packet_sections, fixupPacket_sections. order.
Qed.
Hint Resolve ordered_do_packet : order.

Lemma ordered_packet_loop queue packets :
  ordered true (false, false) (packet_loop_sections queue packets) (false, false).
Proof. induction packets as [|[p an] packets IH]; cbn [packet_loop_sections]; order. Qed.

Lemma ordered_later_sections asks n rq p : ordered asks (false, false) (later_sections n rq p) (false, false).
Proof. revert p. induction n as [|n IH]; intros p; cbn [later_sections]; order. Qed.
Hint Resolve ordered_later_sections : order.

Lemma ordered_hook asks symbol ko len name size agent :
  ordered asks (false, false) (hook_sections symbol ko len name size agent) (false, false).
Proof. unfold hook_sections, addKernel_sections. order. Qed.
Hint Resolve ordered_hook : order.

Lemma ordered_add_symbol asks name agent flt l sym :
  ordered asks (false, false) (add_symbol_sections name agent flt l sym) (false, false).
Proof. unfold add_symbol_sections, enter_symbol_sections. order. Qed.
Hint Resolve ordered_add_symbol : order.

Lemma ordered_add_symbols asks name agent flt l syms :
  ordered asks (false, false) (add_symbols_sections name agent flt l syms) (false, false).
Proof. induction syms; cbn [add_symbols_sections]; order. Qed.
Hint Resolve ordered_add_symbols : order.

Lemma ordered_add_executables asks name agent flt loaded :
  ordered asks (false, false) (add_executables_sections name agent flt loaded) (false, false).
Proof. induction loaded; cbn [add_executables_sections]; order. Qed.
Hint Resolve ordered_add_executables : order.

Lemma ordered_add_code_object asks name gpus :
  ordered asks (false, false) (add_code_object_sections name gpus) (false, false).
Proof. unfold addFile_sections. induction gpus; cbn [add_code_object_sections]; unfold addFile_sections; order. Qed.

(** Only submissions rely on a promise. *)
Lemma ordered_plain asks c :
  match c with SubmitPackets _ _ => asks = true | _ => True end →
  ordered asks (false, false) (call_body c) (false, false).
Proof.
  destruct c; cbn [call_body]; intros Hc;
    [subst; apply ordered_packet_loop|apply ordered_locked_interceptor|order|apply ordered_hook
    |destruct name; [done|apply ordered_add_code_object]|order].
Qed.
Lemma ordered_call c : ordered true (false, false) (call_body c) (false, false).
Proof. apply ordered_plain. by destruct c. Qed.

(** The threads of the runtime and of the application. *)
Definition called (t : thread) : Prop := ∃ c, t = call_thread c.
Lemma ordered_called t : called t → ordered true (false, false) (body t) (false, false).
Proof. intros [c ->]. apply ordered_call. Qed.

(** ** A call on its own, among the configurations *)
Lemma fixupPacket_promised an queue p id st :
  fresh_signals an st → promised (fixupPacket_sections an p queue id) st.
Proof.
  intros Hf. apply promised_with_lock, promised_bind.
  - split; [done|]. by destruct (take_signal an st) as [st' []].
  - intros st1 sig _. apply promised_bind; [exact (ordered_promised _ _ _ _ (ordered_choose_kernel false true an sig p queue id))|].
    intros st2 [dispatch comms] _. apply promised_act.
Qed.

Lemma submission_promised queue p an st :
  fresh_signals an st → promised (call_body (SubmitPackets queue [(p, an)])) st.
Proof.
  intros Hf. cbn [call_body packet_loop_sections]. apply promised_bind; [|done].
  unfold do_packet_sections. case_match; [|apply promised_act].
  apply promised_bind; [apply promised_act|]. intros st1 id Hid.
  apply promised_bind; [|intros st2 d _; apply promised_act]. apply fixupPacket_promised.
  assert (trace_ st1 = trace_ st) as E; [|by unfold fresh_signals; rewrite E].
  unfold act, gets, modify, mret, M_ret, mbind, M_bind in Hid. cbn in Hid. by injection Hid as <- _.
Qed.

Lemma call_promised c st :
  match c with SubmitPackets _ _ => False | _ => True end → promised (call_body c) st.
Proof. intros Hc. eapply (ordered_promised (false, false)), ordered_plain. by destruct c. Qed.

Lemma call_alone spawns outside ts c st st' r :
  promised (call_body c) st → uncaught c st = (st', r) →
  alone_result spawns outside (ts ++ [call_thread c]) ∅ st (length ts) (call_catches c) st' r.
Proof.
  intros Hp Hr.
  assert (run_prog (call_body c) st = (st', r) ∨ ∃ f, ends_process f ∧ r = Err f) as [Hrun|(f&Hf&->)].
  { destruct (run_call_body c st) as [E|(f&Hf&_&E)]; [left; congruence|right].
    rewrite Hr in E. by exists f. }
  - eapply (runs_alone spawns outside true); [| |apply ordered_call|exact Hp|exact Hrun].
    + by rewrite list_lookup_middle.
    + split; apply lookup_empty.
  - by destruct f.
Qed.

End calls.

(** ** Two calls, of which one waits for the other *)
Definition ex_empty : interceptor Z handler_t :=
  Interceptor ∅ ∅ [] ∅ ∅ 0 new_coCache (new_dispatchController (λ _, None) 0) ∅ (CommsMgr ∅ ∅) 0 ∅
    new_filter false ∅ [] new_logDuration false.

Lemma two_calls_wait :
  ∃ x, rtc (config_step (called (HL := example_loader) (rng := Z) (λ g, (g, g)) (λ _ h, h) default_handlers
              example_metadata) (λ _ _, False)) (Config [] ∅ ex_empty) x ∧
    owners x = {[InterceptorLock := 0%nat]} ∧ ¬ can_move x 1.
Proof.
  eexists. split.
  - eapply rtc_l; [apply step_begin; by exists (AddQueue true 3 7)|].
    eapply rtc_l; [apply step_begin; by exists (SignalCompleted 1 0 0)|].
    eapply rtc_l; [apply (step_act _ _ _ _ _ 0%nat (λ _, True) (lift (assertb true))); reflexivity || done|].
    eapply rtc_l; [by apply (step_acquire _ _ _ _ _ 0%nat InterceptorLock)|]. apply rtc_refl.
  - split; [done|]. intros H. cbn in H. by rewrite lookup_insert_eq in H.
Qed.

