(* ===== verification/CacheWatcher.v ===== *)
(** * The watcher of the kernel cache

    [cache_watcher] ([src/interceptor.cc]) is a thread that watches the directory of
    the kernel cache with inotify and loads every code object that is moved into it;
    [util_get_directory_files] and [util_is_directory] ([src/utils.cc]) are the
    listing it starts from.

    What [read] gives is bytes: the loop over the buffer decodes them.  Answers of
    the kernel are arguments, one record per event; [history] is what the events
    bring, under the names that the watches have at the time. *)
From S2P Require Import Prelude StdString Names KernArgs CoCache Dispatch Comms LibraryFilter Interceptor.

(** ** Listing a directory *)
Class Directories := {
  (** [st_mode] of [stat], and the names [readdir] gives *)
  stat_mode : bytes → option Z;
  readdir : bytes → option (list bytes);
}.

Definition S_IFMT : Z := 0xf000.
Definition S_IFREG : Z := 0x8000.
Definition S_IFDIR : Z := 0x4000.
Definition S_ISDIR (mode : Z) : bool := Z.land mode S_IFMT =? S_IFDIR.
(** [mode & bit] as a condition *)
Definition mode_has (mode bit : Z) : bool := negb (Z.land mode bit =? 0).

Section listing.
Context `{DIRS : Directories}.

Definition util_is_directory (path : bytes) : bool :=
  match stat_mode path with None => false | Some mode => mode_has mode S_IFDIR end.

(** One entry; a mode with both bits gives the path twice. *)
Definition entry_paths (path : bytes) (includeDirectories : bool) (d_name : bytes) : list bytes :=
  if bool_decide (d_name = lit ".") || bool_decide (d_name = lit "..") then []
  else
    let full_path := (if util_ends_with_substring path (lit "/") then path else path ++ lit "/") ++ d_name in
    match stat_mode full_path with
    | None => []
    | Some mode =>
        (if mode_has mode S_IFREG then [full_path] else []) ++
        (if mode_has mode S_IFDIR && includeDirectories then [full_path] else [])
    end.

Definition util_get_directory_files (path : bytes) (includeDirectories : bool) : list bytes :=
  if util_is_directory path then
    match readdir path with
    | None => []
    | Some names => names ≫= entry_paths path includeDirectories
    end
  else [].
End listing.

(** ** Events *)
Definition IN_MODIFY : Z := 0x2.
Definition IN_MOVED_FROM : Z := 0x40.
Definition IN_MOVED_TO : Z := 0x80.
Definition IN_CREATE : Z := 0x100.
Definition IN_DELETE : Z := 0x200.

Definition event_size : Z := 16.
Definition i32 (x : Z) : Z := u32 (x + 2 ^ 31) - 2 ^ 31.

Definition byte_of (c : ascii) : Z := Z.of_nat (nat_of_ascii c).
Definition char_of (b : Z) : ascii := ascii_of_nat (Z.to_nat b).

Record inotify_event := INotifyEvent {
  ev_wd : Z;
  ev_mask : Z;
  ev_cookie : Z;
  ev_len : Z;
  (** the C string at [name] *)
  ev_name : bytes;
}.

(** [(struct inotify_event * ) &buffer[i]]; reading behind what [read] wrote is
    reading uninitialised memory. *)
Definition event_at (buffer : KernArgs.buffer) (i : Z) : res inotify_event :=
  let bs := drop (Z.to_nat i) buffer in
  if Z.of_nat (length bs) <? event_size then Err FUB
  else
    let word k := le_combine (take 4 (drop k bs)) in
    Ok (INotifyEvent (i32 (word 0%nat)) (word 4%nat) (word 8%nat) (word 12%nat)
          (c_str (char_of <$> drop 16 bs))).

(** What the kernel answers while one event is handled. *)
Record watch_answers := WatchAnswers {
  (** [st_mode], if [stat] succeeds *)
  wa_stat : bytes → option Z;
  (** what the uninitialised [path_stat] holds *)
  wa_stale : Z;
  wa_add_watch : bytes → option Z;
}.

Section watcher.
Context {rng handler : Type}.
Context `{HL : HsaLoader} {node : Type} {CG : Comgr node} (comgr_metadata : bytes → option node).
Abbreviation run := (M rng handler).
Abbreviation watch_map := (gmap Z bytes).

(** [watch_map[wd]] *)
Definition watch_at (wd : Z) (m : watch_map) : bytes * watch_map :=
  match m !! wd with Some dir => (dir, m) | None => ([], <[wd := []]> m) end.

(** An exception that leaves a thread's function ends the process. *)
Definition uncaught {A} (m : run A) : run A := λ st,
  match m st with
  | (st', Err (FThrow _)) => (st', Err FAbort)
  | r => r
  end.

Definition add_watch (an : watch_answers) (path : bytes) (m : watch_map) : watch_map :=
  match wa_add_watch an path with Some wd => <[wd := path]> m | None => m end.

Definition handle_event (an : watch_answers) (gpus : list Z) (event : inotify_event) (m : watch_map)
    : run watch_map :=
  let has flag := mode_has (ev_mask event) flag in
  if ev_len event =? 0 then mret m
  else if has IN_CREATE then
    let '(dir, m) := watch_at (ev_wd event) m in
    let strNewDirectory := dir ++ lit "/" ++ ev_name event in
    if S_ISDIR (default (wa_stale an) (wa_stat an strNewDirectory))
    then mret (add_watch an strNewDirectory m)
    else mret m
  else if has IN_DELETE then mret m
  else if has IN_MODIFY then mret m
  else if has IN_MOVED_FROM then mret m
  else if has IN_MOVED_TO then
    let '(dir, m) := watch_at (ev_wd event) m in
    let strFileName := dir ++ lit "/" ++ ev_name event in
    if ends_with (lit ".hsaco") strFileName then
      _ ← uncaught (addCodeObject comgr_metadata strFileName gpus);
      mret m
    else mret m
  else mret m.

(** [while (i < length)]: [n] counts the events, for the answers. *)
Fixpoint read_events (fuel : nat) (an : nat → watch_answers) (gpus : list Z) (buffer : KernArgs.buffer)
    (n : nat) (i : Z) (m : watch_map) : run watch_map :=
  match fuel with
  | O => fail FDiverge
  | S fuel' =>
      if i <? Z.of_nat (length buffer) then
        event ← lift (event_at buffer i);
        m ← handle_event (an n) gpus event m;
        read_events fuel' an gpus buffer (S n) (i32 (i + (event_size + ev_len event))) m
      else mret m
  end.

(** ** The thread *)
Inductive watcher := WStart | WIdle | WTest (m : watch_map) | WExited.

(** One pass of the thread's loops: what [inotify_init], the watches of the start,
    [select] and [read] give. *)
Inductive select_answer := SelectError | SelectTimeout | SelectRead (buffer : option KernArgs.buffer).

Record thread_answers := ThreadAnswers {
  ta_init : bool;
  ta_watches : nat → watch_answers;
  ta_select : select_answer;
  ta_gpus : list Z;
}.

(** The watches of the start: those of the sub-directories, then the cache's own. *)
Definition start_watches `{DIRS : Directories} (an : nat → watch_answers) (dir : bytes)
    : option watch_map :=
  let files := util_get_directory_files dir true in
  let m := foldl (λ m '(n, entry),
             if util_is_directory entry then add_watch (an n) entry m else m)
             ∅ (imap pair files) in
  match wa_add_watch (an (length files)) dir with
  | Some wd => Some (<[wd := dir]> m)
  | None => None
  end.

Definition cache_watcher `{DIRS : Directories} (ta : thread_answers) (w : watcher) : run watcher :=
  match w with
  | WExited => mret WExited
  | WStart =>
      config ← gets config_;
      match config_at config "LOGDUR_KERNEL_CACHE" with
      | [] => mret WIdle
      | dir =>
          if ta_init ta then
            mret (match start_watches (ta_watches ta) dir with Some m => WTest m | None => WIdle end)
          else fail (FExit 1)
      end
  | WIdle =>
      down ← gets shuttingdown;
      mret (if down : bool then WExited else WIdle)
  | WTest m =>
      down ← gets shuttingdown;
      if down : bool then mret WExited
      else
        match ta_select ta with
        | SelectError | SelectTimeout => mret (WTest m)
        | SelectRead None => fail (FExit 1)
        | SelectRead (Some buffer) =>
            m ← read_events (S (length buffer)) (ta_watches ta) (ta_gpus ta) buffer 0 0 m;
            mret (WTest m)
        end
  end.
End watcher.

(** ** What the kernel writes

    An event for a name in a watched directory; the name is followed by a NUL and
    padding.  The loss of a watch is reported without a name. *)
Inductive change := CCreate | CDelete | CModify | CMovedFrom | CMovedTo | CIgnored.

Definition change_bit (c : change) : Z :=
  match c with
  | CCreate => IN_CREATE | CDelete => IN_DELETE | CModify => IN_MODIFY
  | CMovedFrom => IN_MOVED_FROM | CMovedTo => IN_MOVED_TO | CIgnored => 0x8000
  end.

Record kernel_event := KernelEvent {
  ke_wd : Z;
  ke_change : change;
  ke_isdir : bool;
  ke_cookie : Z;
  ke_name : bytes;
  ke_pad : nat;
}.

Definition ke_mask (e : kernel_event) : Z :=
  change_bit (ke_change e) + (if ke_isdir e then 0x40000000 else 0).
Definition ke_field (e : kernel_event) : KernArgs.buffer :=
  match ke_name e with [] => [] | name => (byte_of <$> name) ++ replicate (S (ke_pad e)) 0 end.

Definition encode_event (e : kernel_event) : KernArgs.buffer :=
  le_split 4 (u32 (ke_wd e)) ++ le_split 4 (ke_mask e) ++ le_split 4 (ke_cookie e) ++
  le_split 4 (Z.of_nat (length (ke_field e))) ++ ke_field e.
Definition encode_events (evs : list kernel_event) : KernArgs.buffer := evs ≫= encode_event.

Record event_ok (e : kernel_event) : Prop := {
  eo_wd : -2 ^ 31 ≤ ke_wd e < 2 ^ 31;
  eo_cookie : 0 ≤ ke_cookie e < 2 ^ 32;
  eo_name : nul ∉ ke_name e;
  eo_named : ke_name e = [] ↔ ke_change e = CIgnored;
}.

(** [1024 * (event_size + 16)] *)
Definition buf_len : Z := 1024 * (event_size + 16).

Lemma i32_small x : -2 ^ 31 ≤ x < 2 ^ 31 → i32 x = x.
Proof. intros Hx. unfold i32. rewrite wrap_small by lia. lia. Qed.

Lemma i32_u32 x : -2 ^ 31 ≤ x < 2 ^ 31 → i32 (u32 x) = x.
Proof. intros Hx. unfold i32. rewrite wrap_add_l. by apply i32_small. Qed.

Lemma char_of_byte c : char_of (byte_of c) = c.
Proof. unfold char_of, byte_of. by rewrite Nat2Z.id, ascii_nat_embedding. Qed.

Lemma c_str_field name k rest :
  nul ∉ name → c_str (char_of <$> (byte_of <$> name) ++ replicate (S k) 0 ++ rest) = name.
Proof.
  intros Hn. rewrite fmap_app, <-list_fmap_compose.
  replace (char_of ∘ byte_of <$> name) with name.
  2: { rewrite <-(list_fmap_id name) at 1. apply list_fmap_ext. intros i c _. symmetry. apply char_of_byte. }
  change (char_of <$> replicate (S k) 0 ++ rest) with (nul :: (char_of <$> replicate k 0 ++ rest)).
  unfold c_str, find_char. rewrite find_if_here.
  - apply take_app_length.
  - apply list.Forall_forall. intros c Hc. apply aeqb_neq. by intros <-.
  - apply aeqb_refl.
Qed.

Lemma event_at_word a b c d rest k :
  (k < 4)%nat →
  le_combine (take 4 (drop (4 * k) (le_split 4 a ++ le_split 4 b ++ le_split 4 c ++ le_split 4 d ++ rest)))
  = le_combine (le_split 4 (nth k [a; b; c; d] 0)).
Proof. intros Hk. by destruct k as [|[|[|[|]]]]; [..|lia]. Qed.

Lemma ke_mask_bound e : 0 ≤ ke_mask e < 256 ^ Z.of_nat 4.
Proof. unfold ke_mask. destruct (ke_change e), (ke_isdir e); vm_compute; split; congruence. Qed.

(** The loop reads an event where the kernel wrote one. *)
Lemma event_at_encode pre e rest :
  event_ok e → Z.of_nat (length (ke_field e)) ≤ buf_len →
  ∃ name, event_at (pre ++ encode_event e ++ rest) (Z.of_nat (length pre)) =
    Ok (INotifyEvent (ke_wd e) (ke_mask e) (ke_cookie e) (Z.of_nat (length (ke_field e))) name) ∧
    (ke_name e ≠ [] → name = ke_name e).
Proof.
  intros [] Hlen. unfold event_at. rewrite Nat2Z.id, drop_app_length. unfold encode_event.
  rewrite <-!(assoc_L (++)). set (tl := ke_field e ++ rest).
  rewrite (proj2 (Z.ltb_ge _ _)) by (rewrite !length_app, !length_le_split; unfold event_size; lia).
  cbv beta zeta.
  rewrite (event_at_word _ _ _ _ _ 0), (event_at_word _ _ _ _ _ 1), (event_at_word _ _ _ _ _ 2),
    (event_at_word _ _ _ _ _ 3) by lia.
  cbn [nth]. rewrite !le_combine_split, i32_u32 by first [done | apply ke_mask_bound | unfold buf_len, event_size in *;
    change (256 ^ Z.of_nat 4) with (2 ^ 32); first [lia | apply wrap_bound; lia]].
  eexists. split; [done|]. intros Hne. change (drop 16 _) with tl. unfold tl, ke_field.
  destruct (ke_name e) as [|c0 name] eqn:Hn; [done|]. rewrite <-(assoc_L (++)). by apply c_str_field.
Qed.

(** ** What the watcher makes of the events *)

(** [/] is no byte of the suffix, so the path ends with it when the name does. *)
Lemma hsaco_path dir name :
  ends_with (lit ".hsaco") (dir ++ lit "/" ++ name) = ends_with (lit ".hsaco") name.
Proof.
  unfold ends_with. set (n := length name). rewrite !length_app. cbn [lit length String.list_ascii_of_string].
  fold n. destruct (Nat.leb_spec 6 n) as [Hn|Hn].
  - rewrite (proj2 (Nat.leb_le _ _)) by lia. cbn [andb]. f_equal.
    replace (length dir + (1 + n) - 6)%nat with (length dir + S (n - 6))%nat by lia.
    by rewrite drop_app_add.
  - cbn [andb]. apply andb_false_iff. destruct (Nat.leb_spec 6 (length dir + (1 + n))) as [Hp|]; [right|by left].
    apply bool_decide_eq_false. intros Hd. assert ("/"%char ∈ lit ".hsaco") as Hin.
    { change (lit ".hsaco") with [".";"h";"s";"a";"c";"o"]%char in *. rewrite <-Hd.
      rewrite drop_app_le by lia. apply elem_of_app. right. by left. }
    revert Hin. change (¬ ("/"%char ∈ lit ".hsaco")). by apply (bool_decide_unpack _).
Qed.

Section refinement.
Context {rng handler : Type}.
Context `{HL : HsaLoader} {node : Type} {CG : Comgr node} (comgr_metadata : bytes → option node).
Abbreviation run := (M rng handler).
Abbreviation watch_map := (gmap Z bytes).
Implicit Types (m : watch_map).

(** The names of the watched directories, none for a descriptor that is not known. *)
Definition dir_of m (wd : Z) : bytes := default [] (m !! wd).

(** The path of the file an event is about. *)
Definition event_path (d : Z → bytes) (e : kernel_event) : bytes := d (ke_wd e) ++ lit "/" ++ ke_name e.

(** A code object moved into a watched directory. *)
Definition arrival (d : Z → bytes) (e : kernel_event) : option bytes :=
  match ke_change e with
  | CMovedTo => if ends_with (lit ".hsaco") (ke_name e) then Some (event_path d e) else None
  | _ => None
  end.

(** A directory created in a watched directory, if its watch is granted.  The
    descriptor is a new one, or, when the path leads to a directory that is watched
    already (a symbolic link), the one it has. *)
Definition new_watch (an : watch_answers) (d : Z → bytes) (e : kernel_event) : option (Z * bytes) :=
  match ke_change e with
  | CCreate =>
      if S_ISDIR (default (wa_stale an) (wa_stat an (event_path d e)))
      then (λ wd, (wd, event_path d e)) <$> wa_add_watch an (event_path d e) else None
  | _ => None
  end.

(** A descriptor is known by the path it was granted for last. *)
Definition latest (grants : list (Z * bytes)) (d : Z → bytes) (wd : Z) : bytes :=
  foldl (λ dir g, if decide (g.1 = wd) then g.2 else dir) (d wd) grants.

(** What a run of events brings: the watches granted and the code objects, each
    under the names of its time. *)
Fixpoint history (an : nat → watch_answers) (n : nat) (d : Z → bytes) (evs : list kernel_event)
    : list (Z * bytes) * list bytes :=
  match evs with
  | [] => ([], [])
  | e :: evs' =>
      let grant := option_list (new_watch (an n) d e) in
      let '(grants, paths) := history an (S n) (latest grant d) evs' in
      (grant ++ grants, option_list (arrival d e) ++ paths)
  end.

(** Loading a list of code objects, one after the other. *)
Fixpoint load_all (gpus : list Z) (paths : list bytes) : run unit :=
  match paths with
  | [] => mret ()
  | path :: paths' => _ ← uncaught (addCodeObject comgr_metadata path gpus); load_all gpus paths'
  end.

Definition event_of (e : kernel_event) (name : bytes) : inotify_event :=
  INotifyEvent (ke_wd e) (ke_mask e) (ke_cookie e) (Z.of_nat (length (ke_field e))) name.

Lemma field_nil e : (Z.of_nat (length (ke_field e)) =? 0) = bool_decide (ke_name e = []).
Proof.
  unfold ke_field. destruct (ke_name e); [done|]. rewrite length_app. cbn. by apply Z.eqb_neq.
Qed.

Lemma dir_of_insert m wd path wd' :
  dir_of (<[wd := path]> m) wd' = if decide (wd = wd') then path else dir_of m wd'.
Proof. unfold dir_of. rewrite lookup_insert. by case_decide. Qed.

Lemma watch_at_dir wd m :
  ∃ m1, watch_at wd m = (dir_of m wd, m1) ∧ ∀ wd', dir_of m1 wd' = dir_of m wd'.
Proof.
  unfold watch_at. destruct (m !! wd) as [dir|] eqn:E; eexists; (split; [unfold dir_of; by rewrite E|]); [done|].
  intros wd'. rewrite dir_of_insert. case_decide; [subst; unfold dir_of; by rewrite E|done].
Qed.

(** One event: at most one file is loaded, at most one watch is added. *)
Lemma handle_event_of an gpus e name m :
  event_ok e → (ke_name e ≠ [] → name = ke_name e) →
  ∃ m', (∀ wd, dir_of m' wd = latest (option_list (new_watch an (dir_of m) e)) (dir_of m) wd) ∧
  ∀ st, handle_event comgr_metadata an gpus (event_of e name) m st =
    (load_all gpus (option_list (arrival (dir_of m) e)) ≫= λ _, mret m') st.
Proof.
  intros [] Hname. unfold handle_event, event_of. cbn [ev_len ev_mask ev_wd ev_name].
  rewrite field_nil. unfold arrival, new_watch, event_path.
  destruct (watch_at_dir (ke_wd e) m) as (m1&Hw&Hm1). rewrite Hw.
  destruct (decide (ke_name e = [])) as [Hn|Hn].
  { rewrite bool_decide_true by done. rewrite (proj1 eo_named0 Hn). by exists m. }
  rewrite bool_decide_false, (Hname Hn) by done. unfold ke_mask.
  destruct (ke_change e), (ke_isdir e);
    repeat match goal with |- context [mode_has ?a ?b] =>
      let v := eval vm_compute in (mode_has a b) in change (mode_has a b) with v end; cbv iota;
    cbn [option_list]; try (by exists m).
  1,2: destruct (S_ISDIR _); [|by exists m1]; unfold add_watch;
    destruct (wa_add_watch an _) as [wd|]; [|by exists m1]; eexists; (split; [|reflexivity]);
    intros wd'; rewrite dir_of_insert; unfold latest; cbn; by rewrite Hm1.
  all: rewrite hsaco_path; destruct (ends_with _ _); [|by exists m1]; exists m1; (split; [done|]);
    intros st; cbn; unfold mbind, M_bind; by destruct (uncaught _ st) as [? [[]|]].
Qed.

Lemma load_all_app gpus ps qs (k : unit → run watch_map) st :
  (load_all gpus (ps ++ qs) ≫= k) st = (load_all gpus ps ≫= λ _, load_all gpus qs ≫= k) st.
Proof.
  revert st. induction ps as [|p ps IH]; intros st; [done|]. cbn [app load_all].
  unfold mbind, M_bind in *. by destruct (uncaught _ st) as [? [[]|]].
Qed.

Lemma latest_ext grants d d' wd : d wd = d' wd → latest grants d wd = latest grants d' wd.
Proof. unfold latest. by intros ->. Qed.

Lemma latest_app grants grants' d wd :
  latest (grants ++ grants') d wd = latest grants' (latest grants d) wd.
Proof. apply foldl_app. Qed.

Lemma history_ext an n d d' evs : (∀ wd, d wd = d' wd) → history an n d evs = history an n d' evs.
Proof.
  revert n d d'. induction evs as [|e evs IH]; intros n d d' Hd; [done|]. cbn [history].
  assert (event_path d e = event_path d' e) as Hp by (unfold event_path; by rewrite Hd).
  unfold new_watch, arrival. rewrite Hp.
  rewrite (IH (S n) _ _ (λ wd, latest_ext _ _ _ wd (Hd wd))). done.
Qed.

Lemma length_encode_event e : length (encode_event e) = (16 + length (ke_field e))%nat.
Proof. unfold encode_event. rewrite !length_app, !length_le_split. lia. Qed.

Lemma length_events evs : (length evs ≤ length (encode_events evs))%nat.
Proof.
  induction evs as [|e evs IH]; [done|].
  change (encode_events (e :: evs)) with (encode_event e ++ encode_events evs).
  rewrite length_app, length_encode_event. cbn [length]. lia.
Qed.

(** [m'] is [m] with the descriptors known by the paths last granted. *)
Lemma read_events_loads an gpus fuel evs n pre m :
  Forall event_ok evs →
  Z.of_nat (length (pre ++ encode_events evs)) ≤ buf_len → (length evs < fuel)%nat →
  ∃ m', (∀ wd, dir_of m' wd = latest (history an n (dir_of m) evs).1 (dir_of m) wd) ∧
    ∀ st, read_events comgr_metadata fuel an gpus (pre ++ encode_events evs) n (Z.of_nat (length pre)) m st =
      (load_all gpus (history an n (dir_of m) evs).2 ≫= λ _, mret m') st.
Proof.
  revert fuel n pre m. induction evs as [|e evs IH]; intros [|fuel] n pre m Hk Hlen Hf;
    cbn [length] in *; try lia.
  { exists m. split; [done|]. intros st. cbn [encode_events]. rewrite app_nil_r.
    cbn [read_events]. by rewrite Z.ltb_irrefl. }
  apply Forall_cons_1 in Hk as [He Hk]. change (encode_events (e :: evs)) with (encode_event e ++ encode_events evs) in *.
  rewrite (assoc_L (++)) in Hlen. pose proof Hlen as Hlen'. rewrite !length_app, length_encode_event in Hlen'.
  destruct (event_at_encode pre e (encode_events evs)) as (name&Hev&Hname); [done|lia|].
  destruct (handle_event_of (an n) gpus e name m He Hname) as (m1&Hm1&Hone).
  destruct (IH fuel (S n) (pre ++ encode_event e) m1) as (m'&Hm'&Hrun); [done..|lia|].
  exists m'. cbn [history]. rewrite (history_ext _ _ _ _ _ Hm1) in Hm', Hrun.
  destruct (history an (S n) _ evs) as [grants paths]. cbn [fst snd] in *. split.
  - intros wd. rewrite Hm', latest_app. by apply latest_ext.
  - intros st. cbn [read_events]. rewrite (proj2 (Z.ltb_lt _ _))
      by (rewrite !length_app, length_encode_event; lia).
    rewrite Hev. change (INotifyEvent _ _ _ _ _) with (event_of e name). rewrite load_all_app.
    specialize (Hone st). unfold mbind, M_bind, lift in *. rewrite Hone.
    destruct (load_all _ _ st) as [st1 [[]|]]; [|done].
    cbn [mret M_ret]. rewrite <-Hrun, (assoc_L (++)). unfold event_of. cbn [ev_len].
    replace (i32 _) with (Z.of_nat (length (pre ++ encode_event e))); [done|].
    unfold buf_len, event_size in *. rewrite i32_small, length_app, length_encode_event by lia.
    lia.
Qed.

Lemma latest_kept grants d wd : (∀ g, g ∈ grants → g.1 ≠ wd) → latest grants d wd = d wd.
Proof.
  revert d. induction grants as [|g grants IH]; intros d Hg; [done|].
  change (latest grants (latest [g] d) wd = d wd). rewrite IH by (intros g' Hin; apply Hg; by right).
  unfold latest. cbn. rewrite decide_False; [done|]. apply Hg. by left.
Qed.

(** C33. The watcher of the kernel cache.  Given the bytes the kernel wrote for any
    sequence of events that fits the buffer, and whatever [stat] leaves behind when it fails, the watcher
    loads exactly the code objects moved into the watched directories, in order and
    each once for every GPU, and nothing else.  Their paths are those of the
    directories at the time of the event.  A directory created in a watched one is
    watched from then on under its path, if the kernel grants the watch; a directory
    is known by its path until its descriptor is granted for another one, which the
    kernel does for a symbolic link to it: then its name is forgotten. *)
Theorem cache_watcher_loads an gpus evs m :
  Forall event_ok evs → Z.of_nat (length (encode_events evs)) ≤ buf_len →
  let grants := (history an 0 (dir_of m) evs).1 in
  ∃ m', (∀ wd, dir_of m' wd = latest grants (dir_of m) wd) ∧
    (∀ wd, (∀ g, g ∈ grants → g.1 ≠ wd) → dir_of m' wd = dir_of m wd) ∧
    (∀ before wd path after, grants = before ++ (wd, path) :: after →
       (∀ g, g ∈ after → g.1 ≠ wd) → dir_of m' wd = path) ∧
    ∀ st, read_events comgr_metadata (S (length (encode_events evs))) an gpus (encode_events evs) 0 0 m st =
      (load_all gpus (history an 0 (dir_of m) evs).2 ≫= λ _, mret m') st.
Proof.
  intros Hk Hlen grants. pose proof (length_events evs).
  destruct (read_events_loads an gpus (S (length (encode_events evs))) evs 0 [] m)
    as (m'&Hm'&Hrun); [done..|lia|].
  exists m'. fold grants in Hm'. split_and!; [exact Hm'| | |exact Hrun].
  - intros wd Hg. rewrite Hm'. by apply latest_kept.
  - intros before wd path after Hg Ha. rewrite Hm', Hg, cons_middle, !latest_app, latest_kept by done.
    unfold latest. cbn. by rewrite decide_True.
Qed.
End refinement.

(** ** A directory made in the cache, a link to the cache in it, then code objects
    moved into the cache *)
Definition example_watches (n : nat) : watch_answers :=
  WatchAnswers (λ path, if decide (path ∈ [lit "/c/sub"; lit "/c/sub/up"]) then Some 0x41ed else None) 0
    (λ path, if decide (path = lit "/c/sub") then Some 2 else
             if decide (path = lit "/c/sub/up") then Some 1 else None).
Definition example_events : list kernel_event :=
  [KernelEvent 1 CCreate true 0 (lit "sub") 12; KernelEvent 1 CMovedTo false 7 (lit "k.hsaco") 0;
   KernelEvent 2 CCreate true 0 (lit "up") 13; KernelEvent 1 CMovedTo false 8 (lit "l.hsaco") 0].

Lemma cache_watcher_loads_witness :
  ∃ m', dir_of m' 2 = lit "/c/sub" ∧ dir_of m' 1 = lit "/c/sub/up" ∧
    ∀ st : interceptor Z handler_t,
      read_events (HL := example_loader) example_metadata 113 example_watches [7]
        (encode_events example_events) 0 0 {[1 := lit "/c"]} st =
      (load_all (HL := example_loader) example_metadata [7] [lit "/c/k.hsaco"; lit "/c/sub/up/l.hsaco"]
         ≫= λ _, mret m') st.
Proof.
  destruct (cache_watcher_loads (rng := Z) (handler := handler_t) (HL := example_loader) example_metadata
    example_watches [7] example_events {[1 := lit "/c"]})
    as (m'&Hm'&_&_&Hrun).
  - repeat constructor; cbn; try done; try (apply (bool_decide_unpack _); vm_compute; exact Logic.I);
      first [by eexists | lia].
  - vm_compute. discriminate.
  - exists m'. split_and!; [rewrite Hm'; vm_compute; reflexivity..|].
    intros st. specialize (Hrun st).
    assert (S (length (encode_events example_events)) = 113%nat) as Hf by (vm_compute; reflexivity).
    assert ((history example_watches 0 (dir_of {[1 := lit "/c"]}) example_events).2 =
      [lit "/c/k.hsaco"; lit "/c/sub/up/l.hsaco"]) as Ha by (vm_compute; reflexivity).
    rewrite Hf, Ha in Hrun. exact Hrun.
Defined.
