(* ===== verification/Bookkeeping.v ===== *)
(** * The books of the interceptor

    Every signal, kernarg segment and communication object the interceptor obtains
    is somewhere: the calls of [Calls.v] keep the books, and when nothing is pending
    everything has been given back.  Any number of threads are inside their calls at
    once, and interleave between any two critical sections. *)
From S2P Require Import Prelude StdString Names KernArgs CoCache Dispatch Comms LibraryFilter Interceptor Registration Sections Calls.

(** ** The books

    What the trace says was created, allocated, checked out and submitted, and
    where the members have it. *)
Definition allocated : list event → list Z :=
  omap (λ e, match e with KernargAllocated p => Some p | _ => None end).
Definition freed : list event → list Z :=
  omap (λ e, match e with KernargFreed p => Some p | _ => None end).
Definition checked_out : list event → list Z :=
  omap (λ e, match e with CommsCheckedOut c _ _ => Some c | _ => None end).
Definition checked_in : list event → list Z :=
  omap (λ e, match e with CommsCheckedIn c => Some c | _ => None end).
(** The application's own completion signals: those of the dispatches taken, and
    those decremented on its behalf. *)
Definition app_signal (s : Z) : option Z := if s =? 0 then None else Some s.
Definition submitted : list event → list Z :=
  omap (λ e, match e with Intercepted o _ => app_signal (pk_completion_signal o) | _ => None end).
Definition subtracted : list event → list Z :=
  omap (λ e, match e with SignalSubtract s => Some s | _ => None end).

Section books.
Context {rng handler : Type}.
Abbreviation state := (interceptor rng handler).
Implicit Types (st : state).

Definition pending_list st : list (Z * kernel_info) := map_to_list (pending_signals_ st).
Definition pending_keys st : list Z := (pending_list st).*1.
Definition pending_comms st : list Z := omap (λ p, ki_comms_obj p.2) (pending_list st).
Definition pending_apps st : list Z := omap (λ p, app_signal (ki_signal p.2)) (pending_list st).
Definition pending_segments st : list Z := (map_to_list (pending_kernargs_ st)).*2.

(** [sigs], [kas] and [cms] are in hand: taken from a pool or obtained, and not
    yet entered; [own]: the signals in hand that have a segment entered. *)
Context {dropped : Prop}.
Record books (sigs kas cms : list Z) (own : gset Z) st : Prop := {
  bk_signals : created (trace_ st) ≡ₚ sig_pool_ st ++ pending_keys st ++ sigs;
  bk_distinct : NoDup (created (trace_ st));
  bk_kernargs : allocated (trace_ st) ≡ₚ freed (trace_ st) ++ pending_segments st ++ kas;
  bk_owner : dom (pending_kernargs_ st) ⊆ dom (pending_signals_ st) ∪ own;
  bk_comms : checked_out (trace_ st) ≡ₚ checked_in (trace_ st) ++ pending_comms st ++ cms;
  bk_apps : submitted (trace_ st) ≡ₚ subtracted (trace_ st) ++ pending_apps st;
  bk_dropped : dropped → BatchDropped ∈ trace_ st;
}.

Ltac keep_dropped :=
  try (let H := fresh in intros H; rewrite ?elem_of_app; first [by auto | left; by auto]).

(** Members and events the books do not mention. *)
Lemma books_frame sigs kas cms own st st' :
  sig_pool_ st' = sig_pool_ st → pending_signals_ st' = pending_signals_ st →
  pending_kernargs_ st' = pending_kernargs_ st → trace_ st' = trace_ st →
  books sigs kas cms own st → books sigs kas cms own st'.
Proof.
  intros Hp Hs Hk Ht []. unfold pending_keys, pending_segments, pending_comms, pending_apps, pending_list in *.
  split; unfold pending_keys, pending_segments, pending_comms, pending_apps, pending_list;
    rewrite ?Hp, ?Hs, ?Hk, ?Ht; done.
Qed.

Definition other_event (e : event) : Prop :=
  match e with
  | SignalStore _ _ | CodeObjectScanned _ _ | Logged _ _ | Written _ | BatchDropped => True
  | _ => False
  end.

Lemma books_event sigs kas cms own e st :
  other_event e → books sigs kas cms own st → books sigs kas cms own (set_trace (trace_ st ++ [e]) st).
Proof.
  intros He []. split; cbn; unfold created, allocated, freed, checked_out, checked_in, submitted, subtracted in *;
    rewrite ?omap_app; keep_dropped; destruct e; try done; cbn; by rewrite ?app_nil_r.
Qed.

(** What the books do not see. *)
Definition unseen st st' : Prop :=
  sig_pool_ st' = sig_pool_ st ∧ pending_signals_ st' = pending_signals_ st ∧
  pending_kernargs_ st' = pending_kernargs_ st ∧
  ∃ evs, trace_ st' = trace_ st ++ evs ∧ Forall other_event evs.
#[export] Instance unseen_preorder : PreOrder unseen.
Proof.
  split.
  - intros st. split_and!; [done..|]. exists []. by rewrite app_nil_r.
  - intros st1 st2 st3 (E1&E2&E3&evs&E4&H) (F1&F2&F3&evs'&F4&H'). split_and!; [congruence..|].
    exists (evs ++ evs'). rewrite F4, E4, (assoc_L (++)). split; [done|]. by apply list.Forall_app.
Qed.

Lemma event_unseen e st : other_event e → unseen st (set_trace (trace_ st ++ [e]) st).
Proof. intros He. split_and!; [done..|]. exists [e]. split; [done|]. by constructor. Qed.

Lemma books_unseen sigs kas cms own st st' :
  unseen st st' → books sigs kas cms own st → books sigs kas cms own st'.
Proof.
  intros (Hp&Hs&Hk&evs&Ht&Hev) Hb.
  assert (books sigs kas cms own (set_trace (trace_ st ++ evs) st)) as Hb'.
  { clear Ht. induction evs as [|e evs IH] using rev_ind.
    - rewrite app_nil_r. by eapply books_frame; [..|exact Hb].
    - apply list.Forall_app in Hev as [Hevs [He _]%Forall_cons_1].
      pose proof (books_event _ _ _ _ _ _ He (IH Hevs)) as H. cbn in H. rewrite <- (assoc_L (++)) in H.
      by eapply books_frame; [..|exact H]. }
  by eapply books_frame; [..|exact Hb'].
Qed.

Lemma books_created sigs kas cms own s st :
  s ∉ created (trace_ st) → books sigs kas cms own st →
  books sigs kas cms own (set_sig_pool (sig_pool_ st ++ [s]) (set_trace (trace_ st ++ [SignalCreated s]) st)).
Proof.
  intros Hs []. unfold created, allocated, freed, checked_out, checked_in, submitted, subtracted in *.
  split; cbn; unfold created, allocated, freed, checked_out, checked_in, submitted, subtracted;
    rewrite ?omap_app; cbn; rewrite ?app_nil_r; keep_dropped; try done.
  - rewrite bk_signals0. change (pending_keys (set_sig_pool _ _)) with (pending_keys st). solve_Permutation.
  - apply list.NoDup_app. split_and!; [done| |repeat constructor; apply not_elem_of_nil].
    intros x Hx ->%list_elem_of_singleton. done.
Qed.

Lemma books_take sigs kas cms own sig st :
  list.last (sig_pool_ st) = Some sig → books sigs kas cms own st →
  books (sig :: sigs) kas cms own (set_sig_pool (removelast (sig_pool_ st)) st).
Proof.
  intros Hl []. split; try done. cbn.
  apply last_Some in Hl as [pool Hpool]. rewrite Hpool, removelast_last.
  rewrite bk_signals0, Hpool. change (pending_keys (set_sig_pool _ _)) with (pending_keys st).
  solve_Permutation.
Qed.

Lemma books_allocate sigs kas cms own p st :
  books sigs kas cms own st →
  books sigs (p :: kas) cms own (set_trace (trace_ st ++ [KernargAllocated p]) st).
Proof.
  intros []. unfold created, allocated, freed, checked_out, checked_in, submitted, subtracted in *.
  split; cbn; unfold created, allocated, freed, checked_out, checked_in, submitted, subtracted;
    rewrite ?omap_app; cbn; rewrite ?app_nil_r; keep_dropped; try done.
  rewrite bk_kernargs0. change (pending_segments (set_trace _ _)) with (pending_segments st).
  solve_Permutation.
Qed.

Lemma books_checkout sigs kas cms own c n d st :
  books sigs kas cms own st →
  books sigs kas (c :: cms) own (set_trace (trace_ st ++ [CommsCheckedOut c n d]) st).
Proof.
  intros []. unfold created, allocated, freed, checked_out, checked_in, submitted, subtracted in *.
  split; cbn; unfold created, allocated, freed, checked_out, checked_in, submitted, subtracted;
    rewrite ?omap_app; cbn; rewrite ?app_nil_r; keep_dropped; try done.
  rewrite bk_comms0. change (pending_comms (set_trace _ _)) with (pending_comms st).
  solve_Permutation.
Qed.

(** The signal in hand is not pending. *)
Lemma books_in_hand sig sigs kas cms own st :
  books (sig :: sigs) kas cms own st → (sig ∉ sigs) ∧ (sig ∉ dom (pending_signals_ st)).
Proof.
  intros []. rewrite bk_signals0 in bk_distinct0.
  apply list.NoDup_app in bk_distinct0 as (_&_&Hnd).
  apply list.NoDup_app in Hnd as (_&Hdis&Hs). apply list.NoDup_cons in Hs as [Hs _].
  split; [done|]. rewrite elem_of_dom. intros [ki Hki].
  apply (Hdis sig); [|left]. unfold pending_keys, pending_list.
  apply list_elem_of_fmap. exists (sig, ki). split; [done|]. by apply elem_of_map_to_list.
Qed.

Lemma books_enter_kernargs sig sigs p kas cms own st :
  sig ∉ own → books (sig :: sigs) (p :: kas) cms own st →
  books (sig :: sigs) kas cms ({[sig]} ∪ own)
    (set_pending_kernargs (<[sig := p]> (pending_kernargs_ st)) st).
Proof.
  intros Hown Hb. pose proof (books_in_hand _ _ _ _ _ _ Hb) as [_ Hpend]. destruct Hb. split; try done; cbn.
  - rewrite bk_kernargs0. unfold pending_segments. cbn. rewrite map_to_list_insert.
    + cbn. solve_Permutation.
    + apply not_elem_of_dom. set_solver.
  - rewrite dom_insert_L. set_solver.
Qed.

(** The dispatch is entered among the pending ones. *)
Lemma books_enter_signal sig sigs kas cms own ki original rewritten st :
  (match ki_comms_obj ki with Some c => ∃ cms', cms = c :: cms' | None => True end) →
  ki_signal ki = pk_completion_signal original →
  books (sig :: sigs) kas cms own st →
  books sigs kas (match ki_comms_obj ki with Some _ => tail cms | None => cms end) (own ∖ {[sig]})
    (set_trace (trace_ st ++ [Intercepted original rewritten])
       (set_pending_signals (<[sig := ki]> (pending_signals_ st)) st)).
Proof.
  intros Hc Hki Hb. pose proof (books_in_hand _ _ _ _ _ _ Hb) as [_ Hpend%not_elem_of_dom].
  destruct Hb.
  unfold created, allocated, freed, checked_out, checked_in, submitted, subtracted in *.
  split; cbn; unfold created, allocated, freed, checked_out, checked_in, submitted, subtracted;
    rewrite ?omap_app; cbn; rewrite ?app_nil_r; keep_dropped; try done.
  - rewrite bk_signals0. unfold pending_keys, pending_list. cbn.
    rewrite map_to_list_insert by done. cbn. solve_Permutation.
  - rewrite dom_insert_L. intros x Hx%bk_owner0. destruct (decide (x = sig)); set_solver.
  - rewrite bk_comms0. unfold pending_comms, pending_list. cbn. rewrite map_to_list_insert by done. cbn.
    destruct (ki_comms_obj ki) as [c|]; [|done]. destruct Hc as [cms' ->]. cbn. solve_Permutation.
  - rewrite bk_apps0. unfold pending_apps, pending_list. cbn. rewrite map_to_list_insert by done. cbn.
    rewrite Hki. destruct (app_signal _); cbn; [solve_Permutation|by rewrite app_nil_r].
Qed.

Lemma pending_delete sig ki st :
  pending_signals_ st !! sig = Some ki →
  pending_list st ≡ₚ (sig, ki) :: map_to_list (delete sig (pending_signals_ st)).
Proof. intros. symmetry. by apply map_to_list_delete. Qed.

Lemma segments_delete sig st :
  pending_segments st ≡ₚ
  option_list (pending_kernargs_ st !! sig) ++ (map_to_list (delete sig (pending_kernargs_ st))).*2.
Proof.
  unfold pending_segments. destruct (pending_kernargs_ st !! sig) as [p|] eqn:Hp; cbn.
  - by rewrite <-(map_to_list_delete _ sig p) by done.
  - by rewrite delete_id.
Qed.

(** The end of a kernel: everything entered for its signal is given back. *)
Lemma books_complete sigs kas cms own sig ki evs st st' :
  pending_signals_ st !! sig = Some ki →
  sig_pool_ st' = sig_pool_ st ++ [sig] →
  pending_signals_ st' = delete sig (pending_signals_ st) →
  pending_kernargs_ st' = delete sig (pending_kernargs_ st) →
  trace_ st' = trace_ st ++ evs →
  created evs = [] → allocated evs = [] → checked_out evs = [] → submitted evs = [] →
  freed evs = option_list (pending_kernargs_ st !! sig) →
  checked_in evs = option_list (ki_comms_obj ki) →
  subtracted evs = option_list (app_signal (ki_signal ki)) →
  books sigs kas cms own st → books sigs kas cms own st'.
Proof.
  intros Hki Hpool Hps Hpk Htr Hcr Hal Hco Hsu Hfr Hci Hsb [].
  pose proof (pending_delete _ _ _ Hki) as Hpend. pose proof (segments_delete sig st) as Hseg.
  unfold created, allocated, freed, checked_out, checked_in, submitted, subtracted in *.
  split; unfold created, allocated, freed, checked_out, checked_in, submitted, subtracted;
    rewrite ?Htr, ?omap_app, ?Hcr, ?Hal, ?Hco, ?Hsu, ?Hfr, ?Hci, ?Hsb, ?app_nil_r; keep_dropped; try done.
  - rewrite bk_signals0, Hpool. unfold pending_keys. rewrite Hpend.
    unfold pending_list. rewrite Hps. cbn. solve_Permutation.
  - rewrite bk_kernargs0, Hseg. unfold pending_segments. rewrite Hpk. solve_Permutation.
  - rewrite Hps, Hpk, !dom_delete_L. set_solver.
  - rewrite bk_comms0. unfold pending_comms. rewrite Hpend. unfold pending_list. rewrite Hps. cbn.
    destruct (ki_comms_obj ki); cbn; [solve_Permutation|by rewrite app_nil_r].
  - rewrite bk_apps0. unfold pending_apps. rewrite Hpend. unfold pending_list. rewrite Hps. cbn.
    destruct (app_signal (ki_signal ki)); cbn; [solve_Permutation|by rewrite app_nil_r].
Qed.
End books.

(** ** The operations keep the books *)
Section triples.
Context {rng handler : Type} (draw : rng → Z * rng).
Context (set_context : bytes → handler → handler) (handlers_by_default : bytes → Z → list handler).
Context `{HL : HsaLoader} {node : Type} {CG : Comgr node} (comgr_metadata : bytes → option node).
Abbreviation state := (interceptor rng handler).
Implicit Types (st : state).
Context {dropped : Prop}.
Abbreviation books := (books (dropped := dropped)).

(** Some signals, segments and objects may be out of the books. *)
Definition spilled st : Prop :=
  ∃ sigs kas cms own, books sigs kas cms own st ∧ own ⊆ list_to_set sigs.

Lemma books_spilled sigs kas cms own st :
  own ⊆ list_to_set sigs → books sigs kas cms own st → spilled st.
Proof. intros. by exists sigs, kas, cms, own. Qed.

(** One call of an operation in a sequence, from a state that satisfies [H]. *)
Ltac call_op L H := apply wp_bind; eapply wp_mono; [eapply L; [..|exact H]; done|cbv beta].
Ltac frame_books := by eapply books_frame; [..|eassumption].

Lemma wp_grow_pool n signals sigs kas cms own st :
  own ⊆ list_to_set sigs →
  NoDup (omap id signals) → Forall (λ s, s ∉ created (trace_ st)) (omap id signals) →
  books sigs kas cms own st →
  wp (grow_pool n signals) (λ _, books sigs kas cms own) spilled st.
Proof.
  intros Hown. revert signals st. induction n as [|n IH]; intros signals st Hnd Hfr Hb; [done|].
  cbn [grow_pool]. destruct signals as [|[s|] signals]; cbn [omap list_omap id] in *.
  1, 3: apply wp_fail; by eapply books_spilled.
  apply list.NoDup_cons in Hnd as [Hs Hnd]. apply Forall_cons_1 in Hfr as [Hs' Hfr].
  apply wp_bind, wp_emit, wp_bind, wp_modify.
  apply (IH signals (set_sig_pool (sig_pool_ st ++ [s]) (set_trace (trace_ st ++ [SignalCreated s]) st)));
    [done| |by apply (books_created sigs kas cms own s st)].
  cbn. apply list.Forall_forall. intros x Hx. rewrite list.Forall_forall in Hfr.
  unfold created. rewrite omap_app. rewrite not_elem_of_app. split; [by apply Hfr|].
  cbn. intros ->%list_elem_of_singleton. done.
Qed.

Lemma wp_take_signal an sigs kas cms own st :
  own ⊆ list_to_set sigs → fresh_signals an st → books sigs kas cms own st →
  wp (take_signal an) (λ sig, books (sig :: sigs) kas cms own) spilled st.
Proof.
  intros Hown [Hnd Hfr] Hb. unfold take_signal. apply wp_bind, wp_gets, wp_bind.
  apply (wp_mono _ (λ _, books sigs kas cms own)).
  { destruct (sig_pool_ st); [by apply wp_grow_pool|by apply wp_ret]. }
  intros _ st1 Hb1. apply wp_bind, wp_gets.
  destruct (list.last (sig_pool_ st1)) as [sig|] eqn:Hl.
  - apply wp_bind, wp_modify, wp_ret. by apply books_take.
  - apply wp_fail. by eapply books_spilled.
Qed.

Lemma wp_with_cache {A} (op : coCache → res (A * coCache)) sigs kas cms own st :
  own ⊆ list_to_set sigs → books sigs kas cms own st →
  wp (with_cache op) (λ _, books sigs kas cms own) spilled st.
Proof.
  intros Hown Hb. apply wp_cache; [|by eapply books_spilled]. intros a c _. frame_books.
Qed.

Lemma wp_allocate_kernargs an size agent sigs kas cms own st :
  books sigs kas cms own st →
  wp (allocate_kernargs an size agent) (λ p, books sigs (p :: kas) cms own) spilled st.
Proof.
  intros Hb. unfold allocate_kernargs. apply wp_bind, wp_gets, wp_bind, wp_emit, wp_bind, wp_modify, wp_ret.
  set (p := allocate _ _ _ _ _). set (st' := set_trace _ st).
  assert (books sigs (p :: kas) cms own st') as Hb' by by apply books_allocate.
  destruct (p =? 0); [done|]. frame_books.
Qed.

Lemma wp_checkout an agent name id sigs kas cms own st :
  own ⊆ list_to_set sigs → books sigs kas cms own st →
  wp (checkout set_context handlers_by_default an agent name id)
     (λ c, books sigs kas (c :: cms) own) spilled st.
Proof.
  intros Hown Hb. unfold checkout. apply wp_bind, wp_gets.
  destruct (checkoutCommsObject _ _ _ _ _ _); [|apply wp_fail; by eapply books_spilled].
  apply wp_bind, wp_emit, wp_ret. by apply books_checkout.
Qed.

Lemma wp_signalCompleted sig s e sigs kas cms own st :
  books sigs kas cms own st →
  wp (signalCompleted sig s e) (λ _, books sigs kas cms own) spilled st.
Proof.
  intros Hb. unfold signalCompleted. apply wp_bind, wp_gets.
  destruct (pending_signals_ st !! sig) as [ki|] eqn:Hki; [|done].
  assert (∀ st' evs,
    sig_pool_ st' = sig_pool_ st ++ [sig] →
    pending_signals_ st' = delete sig (pending_signals_ st) →
    pending_kernargs_ st' = delete sig (pending_kernargs_ st) →
    trace_ st' = trace_ st ++ evs →
    created evs = [] ∧ allocated evs = [] ∧ checked_out evs = [] ∧ submitted evs = [] ∧
    freed evs = option_list (pending_kernargs_ st !! sig) ∧
    checked_in evs = option_list (ki_comms_obj ki) ∧
    subtracted evs = option_list (app_signal (ki_signal ki)) → books sigs kas cms own st') as Hend.
  { intros st' evs ? ? ? ? (?&?&?&?&?&?&?). by eapply books_complete. }
  unfold app_signal in Hend.
  apply wp_bind, wp_modify, wp_bind.
  destruct (ki_signal ki =? 0).
  all: first [apply wp_ret|apply wp_emit]; apply wp_bind, wp_gets, wp_bind; cbn [run_instrumented_ set_pending_signals set_trace].
  all: destruct (run_instrumented_ st);
    [apply wp_ret|apply wp_bind, wp_gets, wp_emit]; apply wp_bind, wp_emit, wp_bind, wp_gets.
  all: cbn [pending_kernargs_ set_trace set_pending_signals].
  all: destruct (pending_kernargs_ st !! sig) as [p|] eqn:Hp; apply wp_bind;
    [apply wp_bind, wp_emit, wp_modify|apply wp_ret]; apply wp_bind, wp_modify.
  all: destruct (ki_comms_obj ki); [apply wp_emit|apply wp_ret].
  all: eapply Hend; [done|done|first [done|symmetry; by apply delete_id]|cbn; rewrite <-?app_assoc; done|done].
Qed.

(** *** The constructor *)
Context `{FS : FileSystem} (dlopen : bytes → option Z) (dlsym : Z → option (bytes → Z → list handler)).

Lemma wp_add_startup_files agent strFilter files sigs kas cms own st :
  own ⊆ list_to_set sigs → books sigs kas cms own st →
  wp (add_startup_files comgr_metadata agent strFilter files) (λ _, books sigs kas cms own) spilled st.
Proof.
  intros Hown. revert st. induction files as [|file files IH]; intros st Hb; [by apply wp_ret|].
  cbn [add_startup_files]. apply wp_bind, wp_gets, wp_bind.
  apply (wp_mono _ (λ _, books sigs kas cms own)); [|intros _ st'; apply IH].
  case_match; [by apply wp_ret|]. unfold try_addFile, wp. destruct (addFile _ _ _ _ _) as [c|[]]; try done.
  frame_books.
Qed.

Lemma wp_start_agents env gpus sigs kas cms own st :
  own ⊆ list_to_set sigs → books sigs kas cms own st →
  wp (start_agents comgr_metadata env gpus) (λ _, books sigs kas cms own) spilled st.
Proof.
  intros Hown. revert st. induction gpus as [|agent gpus IH]; intros st Hb; [by apply wp_ret|].
  cbn [start_agents]. apply wp_bind, (wp_mono _ (λ _, books sigs kas cms own)); [|intros _ st'; apply IH].
  unfold start_agent. apply wp_bind, wp_gets, wp_bind, (wp_mono _ (λ _, books sigs kas cms own)).
  - destruct (config_at _ _).
    + apply wp_bind, wp_gets, wp_bind, wp_lift; [intros files _|by eapply books_spilled].
      apply wp_bind, wp_modify, wp_add_startup_files; [done|]. frame_books.
    + call_op (wp_with_cache (A := bool)) Hb. intros _ st1 Hb1. by apply wp_ret.
  - intros _ st1 Hb1. apply wp_bind, wp_gets, wp_bind, wp_lift; [|by eapply books_spilled].
    intros m _. apply wp_modify. frame_books.
Qed.

Lemma books_blank env (seed : rng) pool (mgr : comms_mgr handler) :
  ¬ dropped → books [] [] [] ∅ (blank env seed pool mgr).
Proof.
  split; cbn; try done.
  - constructor.
Qed.

Lemma wp_start env (seed : rng) pool (mgr : comms_mgr handler) :
  ¬ dropped → NoDup (omap id (env_signals env)) →
  wp (start comgr_metadata dlopen dlsym env) (λ _, books [] [] [] ∅) spilled
     (blank env seed pool mgr).
Proof.
  intros Hdr Hnd. unfold start. pose proof (books_blank env seed pool mgr Hdr) as Hb0.
  set (st0 := blank env seed pool mgr) in *. assert (trace_ st0 = []) as Ht0 by done. clearbody st0.
  assert (∅ ⊆ list_to_set (C := gset Z) (@nil Z)) as Hown by done.
  apply wp_bind, wp_lift; [intros c _|by apply (books_spilled [] [] [] ∅)].
  apply wp_bind, wp_modify, wp_bind, wp_modify, wp_bind, wp_gets, wp_bind, wp_lift; [intros plugins _|].
  2: { eapply books_spilled; [done|]. frame_books. }
  apply wp_bind, wp_modify, wp_bind, wp_modify, wp_bind, wp_gets.
  match goal with |- wp _ _ _ ?s => set (st1 := s) end.
  assert (books [] [] [] ∅ st1) as Hb1 by frame_books. assert (trace_ st1 = []) as Ht1 by done. clearbody st1.
  apply wp_bind, (wp_mono _ (λ _ st, books [] [] [] ∅ st ∧ trace_ st = [])).
  { destruct (config_at _ _); [by apply wp_ret|]. apply wp_bind, wp_lift; [|by apply (books_spilled [] [] [] ∅)].
    intros [? f] _. by apply wp_ret. }
  intros f st2 [Hb2 Ht2]. apply wp_bind, wp_modify, wp_bind, wp_modify, wp_bind.
  match goal with |- wp _ _ _ ?s => set (st3 := s) end.
  assert (books [] [] [] ∅ st3) as Hb3 by frame_books. assert (trace_ st3 = []) as Ht3 by done. clearbody st3.
  apply (wp_mono _ (λ _ st, books [] [] [] ∅ st ∧ created (trace_ st) = [])).
  { case_match; [apply wp_ret; by rewrite Ht3|]. apply wp_bind, wp_gets, wp_emit.
    split; [by apply books_event|]. cbn. by rewrite Ht3. }
  intros _ st4 [Hb4 Ht4]. apply wp_bind, (wp_mono _ (λ _, books [] [] [] ∅)).
  { apply wp_grow_pool; [done..| |done]. rewrite Ht4. apply list.Forall_forall. intros x _. apply not_elem_of_nil. }
  intros _ st5 Hb5. case_match; [|by apply wp_ret]. destruct (env_gpus env); [|by apply wp_ret].
  by apply wp_start_agents.
Qed.
End triples.

(** ** Calls of many threads

    What the application's threads, the cache watcher and the signal thread do at
    once: [books] describes the state whenever the interceptor's lock is free, and
    what the thread that holds it has in hand; without it nothing is done that the
    books see. *)
Section runs.
Context {rng handler : Type} (draw : rng → Z * rng).
Context (set_context : bytes → handler → handler) (handlers_by_default : bytes → Z → list handler).
Context `{HL : HsaLoader} {node : Type} {CG : Comgr node} (comgr_metadata : bytes → option node).
Context `{FS : FileSystem} (dlopen : bytes → option Z) (dlsym : Z → option (bytes → Z → list handler)).
Abbreviation state := (interceptor rng handler).
Abbreviation prog := (prog rng handler).
Abbreviation run := (M rng handler).
Implicit Types (st : state).

(** What a dropped batch had in hand stays out of the books. *)
Definition accounted st : Prop :=
  books (dropped := False) [] [] [] ∅ st ∨
  spilled (dropped := True) st.

Lemma accounted_unseen st st' : accounted st → unseen st st' → accounted st'.
Proof.
  intros [Hb|(sigs&kas&cms&own&Hb&Hown)] Hu; [left|right; eapply books_spilled; [exact Hown|]];
    by eapply books_unseen.
Qed.

(** The application and its kernels write to the kernarg segments. *)
Definition application st st' : Prop := ∃ m, st' = set_memory m st.

Lemma application_unseen st st' : application st st' → unseen st st'.
Proof. intros [m ->]. split_and!; [done..|]. exists []. by rewrite app_nil_r. Qed.

Program Definition bookkeeping : discipline application := {|
  always _ := True;
  at_rest := accounted;
  near := unseen;
  far _ _ := True;
|}.
Next Obligation. by split. Qed.
Next Obligation. done. Qed.
Next Obligation. eauto using accounted_unseen. Qed.
Next Obligation. intros st st' H _. by split; [apply application_unseen|]. Qed.
Abbreviation safe := (safe application bookkeeping).

(** *** Without the lock *)
Definition gentle (c : option (state → state)) : Prop :=
  match c with Some handle => ∀ st, unseen st (handle st) | None => True end.
Definition free {A} c (p : prog A) : Prop := ∀ st, safe c false p (λ h _ _, h = false) st.

Lemma drop_batch_unseen st : unseen st (drop_batch st).
Proof. by apply event_unseen. Qed.
Lemma call_gentle c : gentle (call_catches c).
Proof. destruct c; cbn; try done; intros st; apply drop_batch_unseen. Qed.

Lemma free_ret {A} c (a : A) : free c (mret a).
Proof. by intros st st1 _ _. Qed.
Lemma free_bind {A B} c (p : prog A) (k : A → prog B) : free c p → (∀ a, free c (k a)) → free c (p ≫= k).
Proof. intros Hp Hk st. apply safe_bind. eapply safe_mono; [apply Hp|]. intros h a st' _ ->. apply Hk. Qed.
Lemma free_quiet {A} c (p : prog A) : gentle c → quiet unseen p → free c p.
Proof.
  intros Hc Hq st. apply (safe_quiet _ bookkeeping _ _ _ (λ _, True)); try done.
  intros st1 st2 _ Hu _. unfold caught. destruct c as [handle|]; [|done]. split_and!; [done| |done].
  cbn. etrans; [exact Hu|apply Hc].
Qed.
Lemma free_act {A} c (m : run A) : gentle c → within unseen m → free c (act m).
Proof. intros Hc Hm. by apply free_quiet, quiet_act. Qed.
Lemma free_quick {A} c (m : run A) : gentle c → within unseen m → free c (locked InterceptorLock m).
Proof.
  intros Hc Hm st. apply safe_quick; try done.
  intros st1 st2 Hu _. unfold caught. destruct c as [handle|]; [|done]. split_and!; [done| |done].
  cbn. etrans; [exact Hu|apply Hc].
Qed.

(** *** With the lock *)

(** [p], run by the thread that holds the lock, in a call that drops its batch on
    an exception or has no handler. *)
Definition drops (c : option (state → state)) : Prop := c = None ∨ c = Some drop_batch.
Definition held {A} (P : state → Prop) (p : prog A) (Q : A → state → Prop) : Prop :=
  ∀ c st, drops c → P st → safe c true p (λ h a st', h = true ∧ Q a st') st.
Definition stable (P : state → Prop) : Prop := ∀ st st', P st → unseen st st' → P st'.

Lemma spilled_dropped {dropped : Prop} st : spilled (dropped := dropped) st → accounted (drop_batch st).
Proof.
  intros (sigs&kas&cms&own&Hb&Hown). right. apply (books_event _ _ _ _ BatchDropped) in Hb; [|done].
  exists sigs, kas, cms, own. split; [|done]. destruct Hb. split; try done.
  intros _. cbn. apply elem_of_app. right. by left.
Qed.

Lemma held_bind {A B} P (p : prog A) (k : A → prog B) R Q :
  held P p R → (∀ a, held (R a) (k a) Q) → held P (p ≫= k) Q.
Proof.
  intros Hp Hk c st Hc HP. apply safe_bind. eapply safe_mono; [by apply Hp|].
  intros h a st' _ [-> HR]. by apply Hk.
Qed.

Lemma held_Act {A} {dropped : Prop} (P ok : state → Prop) (m : run A) (Q : A → state → Prop) :
  stable P → (∀ a, stable (Q a)) →
  (∀ st, P st → ok st → wp m Q (spilled (dropped := dropped)) st) →
  held P (Act ok m mret) Q.
Proof.
  intros HsP HsQ Hm c st Hc HP. apply safe_Act. intros st1 Hr _ Hok.
  assert (P st1) as HP1 by (by eapply HsP). specialize (Hm st1 HP1 Hok). unfold wp in *.
  destruct (m st1) as [st2 [a|[]]]; try done.
  - split_and!; [done..|]. intros st3 Hr3 _. split; [done|]. by eapply HsQ.
  - destruct Hc as [->| ->]; [done|]. cbn. split_and!; [done..|]. intros _. by eapply spilled_dropped.
Qed.
Lemma held_act {A} {dropped : Prop} (P : state → Prop) (m : run A) (Q : A → state → Prop) :
  stable P → (∀ a, stable (Q a)) → (∀ st, P st → wp m Q (spilled (dropped := dropped)) st) → held P (act m) Q.
Proof. intros. eapply held_Act; [done..|]. intros st HP _. eauto. Qed.

Lemma held_quiet {A} {dropped : Prop} (P : state → Prop) (p : prog A) :
  stable P → (∀ st, P st → spilled (dropped := dropped) st) → quiet unseen p → held P p (λ _, P).
Proof.
  intros HsP Hsp Hq c st Hc HP.
  apply (safe_quiet _ bookkeeping _ _ _ P); try done.
  - intros st1 st2 HP1 Hu _. by eapply HsP.
  - intros st1 st2 HP1 Hu _. destruct Hc as [->| ->]; [done|]. cbn. split_and!; [done..|].
    intros _. eapply spilled_dropped, Hsp, HsP; [exact HP1|exact Hu].
Qed.

Lemma stable_books {dropped : Prop} sigs kas cms own : stable (books (dropped := dropped) sigs kas cms own).
Proof. intros st st' Hb Hu. by eapply books_unseen. Qed.
Hint Resolve stable_books : core.

(** The thread takes over the books and leaves them as they were. *)
Lemma free_held {A} c (p : prog A) :
  drops c →
  (∀ (dropped : Prop) sigs kas cms own, own ⊆ list_to_set sigs →
     held (books (dropped := dropped) sigs kas cms own) p (λ _, books (dropped := dropped) sigs kas cms own)) →
  free c (with_lock InterceptorLock p).
Proof.
  intros Hc Hp st. apply safe_interceptor_lock; [by intros ????|]. intros st1 _ _ Hacc.
  destruct Hacc as [Hb|(sigs&kas&cms&own&Hb&Hown)].
  - eapply safe_mono; [by apply (Hp False [] [] [] ∅)|].
    intros h a st' _ [-> Hb']. split; [done|]. intros st2 Hr _. split; [left|done].
    exact (books_unseen _ _ _ _ _ _ Hr Hb').
  - eapply safe_mono; [by apply (Hp True sigs kas cms own)|].
    intros h a st' _ [-> Hb']. split; [done|]. intros st2 Hr _. split; [right|done].
    eapply books_spilled; [done|]. exact (books_unseen _ _ _ _ _ _ Hr Hb').
Qed.

(** *** Most actions the books do not see *)
Create HintDb quiet discriminated.

Ltac unseen := within; try (by apply event_unseen); try (split_and!; [done..|]; exists []; by rewrite app_nil_r).
(** One statement after the other; each branch of a test on its own. *)
Ltac quiet :=
  unfold read_cache, write_cache;
  repeat first
    [ match goal with |- ∀ _, _ => intros ? end | exact I
    | solve [auto with quiet nocore]
    | simple apply quiet_locked
    | simple apply quiet_act
    | simple apply quiet_bind
    | match goal with |- within _ _ => solve [unseen] end
    | case_match ].

Lemma unseen_cache st c : unseen st (set_kernel_cache c st).
Proof. split_and!; [done..|]. exists []. by rewrite app_nil_r. Qed.
Hint Resolve unseen_cache quiet_getArgDescriptor quiet_alternative_for quiet_enter_symbol : quiet.
Hint Extern 0 (PreOrder _) => apply _ : quiet.
Lemma quiet_scan_for an agent name kdb : quiet unseen (scan_for_sections an agent name kdb : prog unit).
Proof. unfold scan_for_sections. quiet. Qed.
Hint Resolve quiet_scan_for : quiet.

Lemma unseen_queue_agent queue : within unseen (queue_agent queue : run Z).
Proof. unfold queue_agent. unseen. Qed.
Lemma unseen_kernel_at ko : within unseen (kernel_at ko : run _).
Proof. unfold kernel_at. unseen. Qed.
Lemma unseen_agent_kdb agent : within unseen (agent_kdb agent : run _).
Proof. unfold agent_kdb. unseen. Qed.
Lemma unseen_may_dispatch alt : within unseen (may_dispatch draw alt : run bool).
Proof. unfold may_dispatch. unseen. Qed.
Lemma unseen_write_kernargs an dst src args : within unseen (write_kernargs an dst src args : run unit).
Proof. unfold write_kernargs. unseen. Qed.
Hint Resolve unseen_queue_agent unseen_kernel_at unseen_agent_kdb unseen_may_dispatch unseen_write_kernargs : within.

(** *** Packets *)
Section packet.
Context {dropped : Prop}.
Abbreviation books := (books (dropped := dropped)).

(** What the search for an alternative leaves in hand. *)
Definition chosen (sig : Z) (sigs kas cms : list Z) (own : gset Z) (original : packet)
    (r : packet * option Z) st : Prop :=
  pk_completion_signal r.1 = pk_completion_signal original ∧
  match r.2 with
  | Some c => books (sig :: sigs) kas (c :: cms) ({[sig]} ∪ own) st
  | None => books (sig :: sigs) kas cms own st
  end.
Context (sigs kas cms : list Z) (own : gset Z) (Hown : own ⊆ list_to_set sigs).
Abbreviation spilled := (spilled (dropped := dropped)).

Lemma in_hand_spilled sig kas' cms' st : books (sig :: sigs) kas' cms' own st → spilled st.
Proof. apply books_spilled. set_solver. Qed.

(** With a signal in hand, and what [kas'] and [cms'] add to it. *)
Abbreviation in_hand sig kas' cms' := (books (sig :: sigs) (kas' ++ kas) (cms' ++ cms) own).

Lemma held_books_quiet {A} sig kas' cms' (p : prog A) :
  quiet unseen p → held (in_hand sig kas' cms') p (λ _, in_hand sig kas' cms').
Proof. intros Hp. apply (held_quiet (dropped := dropped)); [by auto|by apply in_hand_spilled|done]. Qed.

Lemma stable_chosen sig p r : stable (chosen sig sigs kas cms own p r).
Proof. intros st st' [Hp Hb] Hu. split; [done|]. destruct (r.2); by eapply books_unseen. Qed.

Ltac next := eapply held_bind; [by apply held_books_quiet; quiet|cbv beta].

Lemma held_instrument_dispatch an sig p kd agent alt id :
  sig ∉ own →
  held (in_hand sig [] [])
    (instrument_dispatch_sections set_context handlers_by_default comgr_metadata an sig p p kd agent alt id)
    (chosen sig sigs kas cms own p).
Proof.
  intros Hsig. unfold instrument_dispatch_sections. next. intros size. next. intros _. next. intros instr.
  next. intros [args|].
  2: { intros c st Hc Hb. apply safe_Act. by intros. }
  eapply held_bind.
  { apply (held_act (dropped := dropped) _ _ (λ ka, in_hand sig [ka] [])); [by auto..|].
    intros st Hb. by apply wp_allocate_kernargs. }
  intros ka. next. intros kdb. next. intros _. eapply held_bind.
  { apply (held_act (dropped := dropped) _ _ (λ c, in_hand sig [ka] [c])); [by auto..|].
    intros st Hb. apply wp_checkout; [set_solver|done]. }
  intros comms. next. intros _. eapply held_bind.
  { apply (held_act (dropped := dropped) _ _ (λ _, books (sig :: sigs) kas (comms :: cms) ({[sig]} ∪ own))); [by auto..|].
    intros st Hb. apply wp_modify. by apply books_enter_kernargs. }
  intros _ c st Hc Hb. apply safe_ret. intros st1 Hr _. split; [done|]. split; [done|].
  exact (books_unseen _ _ _ _ _ _ Hr Hb).
Qed.

Lemma held_unchosen sig p :
  held (in_hand sig [] []) (mret (p, None)) (chosen sig sigs kas cms own p).
Proof.
  intros c st Hc Hb. apply safe_ret. intros st1 Hr _. split; [done|]. split; [done|].
  exact (books_unseen _ _ _ _ _ _ Hr Hb).
Qed.

Lemma held_choose_kernel an sig p queue id :
  sig ∉ own →
  held (in_hand sig [] [])
    (choose_kernel_sections draw set_context handlers_by_default comgr_metadata an sig p queue id)
    (chosen sig sigs kas cms own p).
Proof.
  intros Hsig. unfold choose_kernel_sections. next. intros agent. next. intros [|]; [|apply held_unchosen].
  next. intros [kd|]; [|apply held_unchosen]. next. intros alt. destruct (alt =? 0); [apply held_unchosen|].
  next. intros [|]; [by apply held_instrument_dispatch|apply held_unchosen].
Qed.

Lemma wp_enter an sig p queue dispatch comms st :
  sig ∉ own → chosen sig sigs kas cms own p (dispatch, comms) st →
  wp (kd ← kernel_at (pk_kernel_object p);
      agent ← queue_agent queue;
      _ ← modify (λ st, set_pending_signals
            (<[sig := KernelInfo (pk_completion_signal dispatch) (ld_name kd) agent comms (an_now an)]>
               (pending_signals_ st)) st);
      let dispatch := Packet (pk_header dispatch) (pk_geometry dispatch)
        (pk_private_segment_size dispatch) (pk_group_segment_size dispatch)
        (pk_kernel_object dispatch) (pk_kernarg_address dispatch) sig in
      _ ← emit (Intercepted p dispatch);
      mret dispatch) (λ _, books sigs kas cms own) spilled st.
Proof.
  intros Hsig [Hcs Hb]. cbn [fst snd] in *. set (own2 := match comms with Some _ => {[sig]} ∪ own | None => own end).
  set (cms2 := match comms with Some c => c :: cms | None => cms end).
  assert (books (sig :: sigs) kas cms2 own2 st) as Hb2 by (by destruct comms).
  assert (∀ A (m : run A) st', within unseen m → books (sig :: sigs) kas cms2 own2 st' →
    wp m (λ _, books (sig :: sigs) kas cms2 own2) spilled st') as Hkeep.
  { intros A m st' Hm Hb'. specialize (Hm st'). unfold wp. destruct (m st') as [st2 [a|[]]]; try done; cbn in Hm.
    - by eapply books_unseen.
    - eapply books_spilled; [|by eapply books_unseen]. unfold own2. destruct comms; set_solver. }
  apply wp_bind. eapply wp_mono; [apply Hkeep; [auto with within|exact Hb2]|]. intros kd st3 Hb3.
  apply wp_bind. eapply wp_mono; [apply Hkeep; [auto with within|exact Hb3]|]. intros agent st4 Hb4.
  apply wp_bind, wp_modify, wp_bind, wp_emit, wp_ret.
  pose proof (λ rw, books_enter_signal (dropped := dropped) sig sigs kas cms2 own2
    (KernelInfo (pk_completion_signal dispatch) (ld_name kd) agent comms (an_now an)) p rw st4) as Hent.
  cbn [ki_comms_obj ki_signal] in Hent.
  assert (own2 ∖ {[sig]} = own) as Heq by (unfold own2; destruct comms; set_solver).
  rewrite Heq in Hent. unfold cms2 in *. destruct comms as [c|]; apply Hent; try done; by eexists.
Qed.

Lemma held_fixupPacket an p queue id :
  held (books sigs kas cms own)
    (sig ← Act (fresh_signals an) (take_signal an) mret;
     '(dispatch, comms) ← choose_kernel_sections draw set_context handlers_by_default comgr_metadata an sig p queue id;
     act (kd ← kernel_at (pk_kernel_object p);
          agent ← queue_agent queue;
          _ ← modify (λ st, set_pending_signals
                (<[sig := KernelInfo (pk_completion_signal dispatch) (ld_name kd) agent comms (an_now an)]>
                   (pending_signals_ st)) st);
          let dispatch := Packet (pk_header dispatch) (pk_geometry dispatch)
            (pk_private_segment_size dispatch) (pk_group_segment_size dispatch)
            (pk_kernel_object dispatch) (pk_kernarg_address dispatch) sig in
          _ ← emit (Intercepted p dispatch);
          mret dispatch)) (λ _, books sigs kas cms own).
Proof.
  apply (held_bind _ _ _ (λ sig st, sig ∉ own ∧ in_hand sig [] [] st)).
  { apply (held_Act (dropped := dropped)); [by auto| |].
    - intros sig st st' [Hs Hb] Hu. split; [done|]. by eapply books_unseen.
    - intros st Hb Hok. eapply wp_mono; [by apply wp_take_signal|]. intros sig st1 Hb1. split; [|done].
      destruct (books_in_hand _ _ _ _ _ _ Hb1) as [Hs _]. intros Hin. apply Hown in Hin. set_solver. }
  intros sig c st Hc [Hsig Hb]. revert c st Hc Hb. apply (held_bind _ _ _ (chosen sig sigs kas cms own p)).
  { by apply held_choose_kernel. }
  intros [dispatch comms]. apply (held_act (dropped := dropped)); [apply stable_chosen|by auto|].
  intros st. by apply wp_enter.
Qed.
End packet.

(** *** Calls *)
Lemma free_do_packet c an queue p :
  drops c → gentle c →
  free c (do_packet_sections draw set_context handlers_by_default comgr_metadata an queue p).
Proof.
  intros Hc Hg. unfold do_packet_sections. case_match; [|apply free_act; [done|unseen]].
  apply free_bind; [apply free_act; [done|unseen]|]. intros id.
  apply free_bind; [|intros d; apply free_act; [done|unseen]].
  apply free_held; [done|]. intros dropped sigs kas cms own Hown. by apply held_fixupPacket.
Qed.

Lemma free_packet_loop c queue packets :
  drops c → gentle c →
  free c (packet_loop_sections draw set_context handlers_by_default comgr_metadata queue packets).
Proof.
  intros Hc Hg. induction packets as [|[p an] packets IH]; [apply free_ret|].
  apply free_bind; [by apply free_do_packet|]. by intros _.
Qed.

Lemma free_hook c symbol ko len name size agent :
  gentle c → free c (hook_sections symbol ko len name size agent).
Proof.
  intros Hc. unfold hook_sections. destruct len; [|apply free_ret]. destruct name; [|apply free_ret].
  apply free_bind; [apply free_act; [done|unseen]|]. intros s.
  apply free_bind; [apply free_act; [done|unseen]|]. intros a.
  apply free_bind; [apply free_quick; [done|unfold thread_step; unseen]|]. intros p.
  apply free_quiet; [done|]. apply quiet_later_sections; [apply _|apply unseen_cache|unfold thread_step; unseen].
Qed.

Lemma free_add_symbols c name agent flt l syms :
  gentle c → free c (add_symbols_sections name agent flt l syms).
Proof.
  intros Hc. induction syms as [|sym syms IH]; [apply free_ret|]. apply free_bind; [|by intros _].
  unfold add_symbol_sections. apply free_bind; [apply free_act; [done|unseen]|]. intros kind.
  case_match; [|apply free_ret]. apply free_bind; [apply free_quiet; [done|quiet]|]. intros _.
  apply free_bind; [apply free_act; [done|unseen]|]. intros ko.
  apply free_bind; [by apply free_hook|]. intros _. apply free_quiet; [done|].
  apply quiet_enter_symbol; [apply _|apply unseen_cache].
Qed.

Lemma free_addFile c name agent flt : gentle c → free c (addFile_sections comgr_metadata name agent flt).
Proof.
  intros Hc. unfold addFile_sections. apply free_bind; [apply free_act; [done|unseen]|].
  intros [|file files]; [apply free_ret|]. apply free_bind; [apply free_act; [done|unseen]|]. intros loaded.
  induction loaded as [|l loaded IH]; [apply free_ret|]. cbn [add_executables_sections].
  apply free_bind; [apply free_act; [done|unseen]|]. intros _.
  apply free_bind; [by apply free_add_symbols|]. intros _.
  apply free_bind; [apply free_quiet; [done|quiet]|]. by intros _.
Qed.

Lemma free_add_code_object c name gpus : gentle c → free c (add_code_object_sections comgr_metadata name gpus).
Proof.
  intros Hc. induction gpus as [|agent gpus IH]; [apply free_ret|]. cbn [add_code_object_sections].
  apply free_bind; [apply free_act; [done|unseen]|]. intros flt.
  apply free_bind; [by apply free_addFile|]. intros _.
  apply free_bind; [apply free_quick; [done|unseen]|]. by intros _.
Qed.

Abbreviation called := (called draw set_context handlers_by_default comgr_metadata).

Lemma called_free t : called t → free (catches t) (body t).
Proof.
  intros [c ->]. pose proof (call_gentle c) as Hg. cbn [catches body call_thread].
  destruct c as [queue packets|sig s e|profiling queue agent|symbol ko len name size agent|name gpus|];
    cbn [call_body].
  - apply free_packet_loop; [by right|done].
  - apply free_held; [by left|]. intros dropped sigs kas cms own Hown.
    apply (held_act (dropped := dropped)); [by auto..|]. intros st Hb. by apply wp_signalCompleted.
  - apply free_bind; [apply free_act; [done|unseen]|]. intros _. apply free_quick; [done|unseen].
  - by apply free_hook.
  - destruct name; [apply free_ret|]. by apply free_add_code_object.
  - apply free_act; [done|]. unfold shutdown. unseen.
Qed.

(** ** Reachable states *)
Abbreviation config := (config (rng := rng) (handler := handler)).
Definition calls_step : relation config := config_step called application.

(** The constructor ran; calls began, and went on, in any order. *)
Definition running (x : config) : Prop :=
  ∃ env seed pool mgr st0,
    NoDup (omap id (env_signals env)) ∧
    start comgr_metadata dlopen dlsym env (blank env seed pool mgr) = (st0, Ok ()) ∧
    rtc calls_step (Config [] ∅ st0) x.
(** No thread is between taking a lock and giving it back. *)
Definition reachable st : Prop := ∃ ts, running (Config ts ∅ st).

Lemma running_more x y : running x → rtc calls_step x y → running y.
Proof.
  intros (env&seed&pool&mgr&st0&Hnd&Hst&Hrtc) Hm. exists env, seed, pool, mgr, st0. split_and!; [done..|]. by etrans.
Qed.

Lemma reachable_start env seed pool mgr st :
  NoDup (omap id (env_signals env)) →
  start comgr_metadata dlopen dlsym env (blank env seed pool mgr) = (st, Ok ()) → reachable st.
Proof. intros Hnd Hst. by exists [], env, seed, pool, mgr, st. Qed.

Lemma reachable_more st st' :
  reachable st → (∀ ts, ∃ ts', rtc calls_step (Config ts ∅ st) (Config ts' ∅ st')) → reachable st'.
Proof. intros [ts Hr] Hm. destruct (Hm ts) as [ts' Hm']. exists ts'. by eapply running_more. Qed.

Lemma start_accounted env seed pool mgr st :
  NoDup (omap id (env_signals env)) →
  start comgr_metadata dlopen dlsym env (blank env seed pool mgr) = (st, Ok ()) → accounted st.
Proof.
  intros Hnd Hst. left. pose proof (wp_start (dropped := False) comgr_metadata dlopen dlsym env seed pool mgr
    (λ H, H) Hnd) as Hwp. unfold wp in Hwp. by rewrite Hst in Hwp.
Qed.

Lemma running_accounted x : running x → owners x !! InterceptorLock = None → accounted (shared x).
Proof.
  intros (env&seed&pool&mgr&st0&Hnd&Hst&Hrtc).
  eapply (disciplined_steps _ _ bookkeeping) in Hrtc as [_ Hrest _ _];
    [exact Hrest|intros t st1 Ht; by apply called_free|].
  apply disciplined_start; [done|]. by eapply start_accounted.
Qed.
Lemma reachable_accounted st : reachable st → accounted st.
Proof. intros [ts Hr]. by apply (running_accounted _ Hr). Qed.

(** *** Whole calls

    One call of an operation, from where no lock is held. *)
Abbreviation one_packet := (do_packet draw set_context handlers_by_default comgr_metadata).

Inductive step st : state → Prop :=
| step_packet queue p an st' :
    fresh_signals an st → one_packet an queue p st = (st', Ok ()) → step st st'
| step_dropped queue p an what st' :
    fresh_signals an st → one_packet an queue p st = (st', Err (FThrow what)) → step st (drop_batch st')
| step_completed sig startNs endNs st' :
    signalCompleted sig startNs endNs st = (st', Ok ()) → step st st'
| step_queue profiling queue agent st' :
    addQueue profiling queue agent st = (st', Ok ()) → step st st'
| step_symbol symbol kernelObject length name size agent st' :
    hook_kernel_object symbol kernelObject length name size agent st = (st', Ok ()) → step st st'
| step_code_object name gpus st' :
    addCodeObject comgr_metadata name gpus st = (st', Ok ()) → step st st'
| step_shutdown st' : shutdown st = (st', Ok ()) → step st st'
| step_memory m : step st (set_memory m st).

Abbreviation uncaught := (uncaught draw set_context handlers_by_default comgr_metadata).
Abbreviation call_body := (call_body draw set_context handlers_by_default comgr_metadata).

Lemma reachable_call st c st' r :
  reachable st → promised (call_body c) st → uncaught c st = (st', r) →
  match r with
  | Ok _ => reachable st'
  | Err (FThrow _) => ∀ handle, call_catches c = Some handle → reachable (handle st')
  | Err _ => True
  end.
Proof.
  intros Hr Hp Hm.
  assert (∀ ts, alone_result called application
    (ts ++ [call_thread draw set_context handlers_by_default comgr_metadata c]) ∅ st (length ts) (call_catches c) st' r)
    as Halone by (intros ts; by apply call_alone).
  assert (∀ st2, (∀ ts, ∃ ts', rtc calls_step
      (Config (ts ++ [call_thread draw set_context handlers_by_default comgr_metadata c]) ∅ st) (Config ts' ∅ st2)) →
    reachable st2) as Hgo.
  { intros st2 H. apply (reachable_more st); [done|]. intros ts. destruct (H ts) as [ts' H'].
    exists ts'. eapply rtc_l; [|exact H']. apply step_begin. by exists c. }
  destruct r as [[]|[]]; try done.
  - apply Hgo. intros ts. eexists. apply (Halone ts).
  - intros handle Hh. apply Hgo. intros ts. eexists. by apply (Halone ts).
Qed.

Lemma reachable_plain st c st' :
  match c with SubmitPackets _ _ => False | _ => True end →
  reachable st → uncaught c st = (st', Ok ()) → reachable st'.
Proof. intros Hc Hr Hm. by apply (reachable_call st c st' (Ok ()) Hr (call_promised _ _ _ _ c st Hc)). Qed.

Lemma reachable_step st st' : reachable st → step st st' → reachable st'.
Proof.
  intros Hr Hs.
  assert (∀ queue p an st1 r, one_packet an queue p st = (st1, r) →
    uncaught (SubmitPackets queue [(p, an)]) st = (st1, r)) as Hone.
  { intros queue p an st1 r E. cbn. unfold mbind, M_bind. rewrite E. by destruct r as [[]|]. }
  destruct Hs as [queue p an st' Hf H|queue p an what st' Hf H|sig s e st' H|profiling queue agent st' H
    |symbol ko len name size agent st' H|name gpus st' H|st' H|m].
  - apply Hone in H. by apply (reachable_call _ _ _ _ Hr (submission_promised _ _ _ _ _ _ _ _ Hf) H).
  - apply Hone in H. by apply (reachable_call _ _ _ _ Hr (submission_promised _ _ _ _ _ _ _ _ Hf) H).
  - by apply (reachable_plain st (SignalCompleted sig s e)).
  - by apply (reachable_plain st (AddQueue profiling queue agent)).
  - by apply (reachable_plain st (KernelObjectQueried symbol ko len name size agent)).
  - by apply (reachable_plain st (AddCodeObject name gpus)).
  - by apply (reachable_plain st Shutdown).
  - apply (reachable_more st); [done|]. intros ts. exists ts. apply rtc_once, step_outside. by exists m.
Qed.

Lemma reachable_steps st st' : rtc step st st' → reachable st → reachable st'.
Proof. induction 1; eauto using reachable_step. Qed.

Lemma outcome {A} (m : M rng handler A) st st' a :
  st' = (m st).1 → (m st).2 = Ok a → m st = (st', Ok a).
Proof. intros ->. by destruct (m st) as [? ?]; intros [= ->]. Qed.

(** C1. Whatever the application submitted, and however the critical sections of
    submissions, completions, registrations and loadings interleaved: whenever the
    interceptor's lock is free, no kernel is pending and no batch was dropped, every
    signal the interceptor created is back in its pool, every kernarg segment it
    allocated has been freed exactly as often as it was allocated, every
    communication object has been checked in, and the application's own completion
    signals have been decremented exactly once for each of their dispatches. *)
Theorem everything_given_back ts own st :
  running (Config ts own st) → own !! InterceptorLock = None →
  pending_signals_ st = ∅ → BatchDropped ∉ trace_ st →
  sig_pool_ st ≡ₚ created (trace_ st) ∧
  pending_kernargs_ st = ∅ ∧
  freed (trace_ st) ≡ₚ allocated (trace_ st) ∧
  checked_in (trace_ st) ≡ₚ checked_out (trace_ st) ∧
  subtracted (trace_ st) ≡ₚ submitted (trace_ st).
Proof.
  intros Hr Hfree Hpend Hnd. pose proof (running_accounted _ Hr Hfree) as Hacc. cbn [shared] in Hacc.
  destruct Hacc as [[]|(?&?&?&?&[]&_)]; [|by exfalso; auto].
  unfold pending_keys, pending_comms, pending_apps, pending_list in *.
  rewrite Hpend, dom_empty_L in bk_owner0. rewrite Hpend, map_to_list_empty in *. cbn in *.
  rewrite !app_nil_r in *.
  assert (pending_kernargs_ st = ∅) as Hk by (apply dom_empty_inv_L; set_solver).
  unfold pending_segments in *. rewrite Hk, map_to_list_empty in *. cbn in *. by rewrite app_nil_r in *.
Qed.

(** C7. Whenever the interceptor's lock is free, dropped batches or not: no signal
    is at once in the pool and pending, nor twice in either; no segment is freed and
    no object is checked in more often than it was obtained; an application's signal
    is never decremented more often than its dispatches were taken; and a segment
    waits for a signal that is pending or was lost with a dropped batch. *)
Theorem nothing_given_back_twice ts held_locks st :
  running (Config ts held_locks st) → held_locks !! InterceptorLock = None →
  NoDup (sig_pool_ st ++ pending_keys st) ∧
  freed (trace_ st) ++ pending_segments st ⊆+ allocated (trace_ st) ∧
  checked_in (trace_ st) ++ pending_comms st ⊆+ checked_out (trace_ st) ∧
  submitted (trace_ st) ≡ₚ subtracted (trace_ st) ++ pending_apps st ∧
  ∀ s, s ∈ dom (pending_kernargs_ st) → s ∈ dom (pending_signals_ st) ∨
    (BatchDropped ∈ trace_ st ∧ s ∉ sig_pool_ st).
Proof.
  intros Hr Hfree. pose proof (running_accounted _ Hr Hfree) as Hacc. cbn [shared] in Hacc.
  assert (∃ sigs kas cms own, books (dropped := False) sigs kas cms own st ∧ own ⊆ list_to_set sigs ∧
    (sigs = [] ∨ BatchDropped ∈ trace_ st)) as (sigs&kas&cms&own&Hb&Hown&Hdr).
  { destruct Hacc as [Hb|(sigs&kas&cms&own&Hb&Hown)].
    - exists [], [], [], ∅. split_and!; [done..|by left].
    - exists sigs, kas, cms, own. split_and!; [|done|right; by apply Hb]. destruct Hb; by split. }
  destruct Hb. rewrite bk_signals0 in bk_distinct0. rewrite (assoc_L (++)) in bk_distinct0.
  pose proof bk_distinct0 as [Hnd [Hdis _]]%list.NoDup_app.
  split_and!.
  - done.
  - rewrite bk_kernargs0, (assoc_L (++)). apply submseteq_inserts_r. done.
  - rewrite bk_comms0, (assoc_L (++)). apply submseteq_inserts_r. done.
  - done.
  - intros s Hs. apply bk_owner0 in Hs. apply elem_of_union in Hs as [Hs|Hs]; [by left|right].
    apply Hown, elem_of_list_to_set in Hs. destruct Hdr as [->|Hdr]; [by apply not_elem_of_nil in Hs|].
    split; [done|]. intros Hp. apply (Hdis s); [|done]. apply elem_of_app. by left.
Qed.
End runs.

(** ** A run for the witnesses: one instrumented dispatch, from start to end *)
Section example.
Definition example_env (mode : string) : environment := {|
  env_loader_table := true;
  env_getenv k := if decide (k = lit "LOGDUR_INSTRUMENTED") then Some (lit mode)
                  else if decide (k = lit "LOGDUR_DISPATCHES") then Some (lit "all") else None;
  env_filter_file := None;
  env_signals := Some <$> [11; 12; 13; 14; 15; 16; 17; 18];
  env_gpus := Some [7];
  env_pools _ := [PoolInfo 77 true false true (Some true) (Some 4096) (Some 65536)];
  env_exe := Some (lit "app");
  env_phdrs := [None; Some []];
  env_cache_dir := None;
|}.

Definition example_answers : answers := {|
  an_signals := [];
  an_pool_allocate _ _ := Some 8192;
  an_allow_access _ _ := true;
  an_contents := replicate 4096 255;
  an_comms := 500;
  an_dev_rsrc := 600;
  an_hasKernel _ _ _ := false;
  an_scan := None;
  an_now := 1;
|}.

Definition example_packet : packet := Packet 2 [64; 1; 1] 0 0 1000 4000 90.

Abbreviation ex_state := (interceptor Z handler_t).
Abbreviation ex_packet :=
  (do_packet (HL := example_loader) (rng := Z) (λ g, (g, g)) (λ _ h, h) default_handlers example_metadata).

Definition ex_start : M Z handler_t unit :=
  start (HL := example_loader) (FS := example_files) example_metadata (λ _, None) (λ _, None)
    (example_env "true").
Definition ex0 : ex_state := (ex_start (blank (example_env "true") 0 3 (CommsMgr ∅ ∅))).1.
Definition ex1 : ex_state := (addQueue true 3 7 ex0).1.
Definition ex2 : ex_state :=
  (hook_kernel_object (HL := example_loader) 1 1000 (Some 3) (Some (lit "foo")) (Some 16) (Some 7) ex1).1.
Definition ex3 : ex_state := set_memory {[4000 := replicate 16 1]} ex2.
Definition ex4 : ex_state := (ex_packet example_answers 3 example_packet ex3).1.
Definition ex5 : ex_state := (signalCompleted 18 5 6 ex4).1.
End example.

Lemma ex5_reachable :
  reachable (HL := example_loader) (FS := example_files) (λ g : Z, (g, g)) (λ _ h, h) default_handlers
    example_metadata (λ _, None) (λ _, None) ex5.
Proof.
  apply (reachable_steps _ _ _ _ _ _ ex0).
  2: { apply (reachable_start _ _ _ _ _ _ (example_env "true") 0 3 (CommsMgr ∅ ∅)).
       - by apply (bool_decide_unpack _).
       - apply outcome; [reflexivity|vm_compute; reflexivity]. }
  - eapply rtc_l; [apply (step_queue _ _ _ _ _ true 3 7 ex1), outcome; [reflexivity|vm_compute; reflexivity]|].
    eapply rtc_l.
    { apply (step_symbol _ _ _ _ _ 1 1000 (Some 3) (Some (lit "foo")) (Some 16) (Some 7) ex2), outcome;
        [reflexivity|vm_compute; reflexivity]. }
    eapply rtc_l; [apply (step_memory _ _ _ _ _ {[4000 := replicate 16 1]})|]. fold ex3.
    eapply rtc_l.
    { apply (step_packet _ _ _ _ _ 3 example_packet example_answers ex4).
      - split; [constructor|]. apply list.Forall_nil_2.
      - apply outcome; [reflexivity|vm_compute; reflexivity]. }
    eapply rtc_l; [|apply rtc_refl].
    apply (step_completed _ _ _ _ _ 18 5 6 ex5), outcome; [reflexivity|vm_compute; reflexivity].
Qed.

Lemma everything_given_back_witness :
  freed (trace_ ex5) ≡ₚ allocated (trace_ ex5) ∧ allocated (trace_ ex5) = [8192] ∧
  subtracted (trace_ ex5) ≡ₚ submitted (trace_ ex5) ∧ submitted (trace_ ex5) = [90].
Proof.
  destruct ex5_reachable as [ts Hr].
  destruct (everything_given_back (HL := example_loader) (FS := example_files) _ _ _ _ _ _ ts ∅ ex5 Hr)
    as (_&_&Hf&_&Hs).
  - reflexivity.
  - apply (bool_decide_unpack _). vm_compute. exact I.
  - intros Hd. assert (bool_decide (BatchDropped ∈ trace_ ex5) = false) as Hn by (vm_compute; reflexivity).
    apply bool_decide_eq_false in Hn. exact (Hn Hd).
  - split; [exact Hf|]. split; [vm_compute; reflexivity|]. split; [exact Hs|vm_compute; reflexivity].
Defined.

Lemma nothing_given_back_twice_witness : NoDup (sig_pool_ ex5 ++ pending_keys ex5).
Proof.
  destruct ex5_reachable as [ts Hr].
  exact (proj1 (nothing_given_back_twice (HL := example_loader) (FS := example_files) _ _ _ _ _ _ ts ∅ ex5
    Hr eq_refl)).
Defined.
