(* ===== verification/ExitPath.v ===== *)
(** * [exit] from inside a call

    [CHECK_COMGR] ([src/utils.cc]) ends the process with [exit], which runs
    [ensure_shutdown] ([src/interceptor.cc]) on the thread that failed, with the locks
    that thread holds: [exit] does not unwind.  Here are the exit handler as a
    program, the point of a call where it starts, and what becomes of it: inside a
    submission the handler asks for the interceptor's lock, which its own thread has,
    and the process never ends. *)
From S2P Require Import Prelude StdString Names KernArgs CoCache Dispatch Comms LibraryFilter Interceptor Registration Sections Calls Bookkeeping.

Section handler.
Context {rng handler : Type}.
Abbreviation state := (interceptor rng handler).
Abbreviation run := (M rng handler).
Abbreviation prog := (prog rng handler).
Abbreviation config := (config (rng := rng) (handler := handler)).
Abbreviation thread := (thread (rng := rng) (handler := handler)).
Implicit Types (x y z : config) (t : thread) (st : state).

(** ** The handler *)
Definition hasPendingSignals_section : prog bool := locked InterceptorLock (gets hasPendingSignals).

(** The loop, with [waits] rounds left. *)
Fixpoint drain_sections (waits : nat) : prog unit :=
  pending ← hasPendingSignals_section;
  if pending : bool then
    match waits with O => mret () | S waits' => drain_sections waits' end
  else mret ().

Definition ensure_shutdown_sections : prog unit := _ ← act shutdown; drain_sections 1000.

(** On its own it does what [ensure_shutdown] is for. *)
Lemma run_drain waits : run_prog (drain_sections waits) ≡ (mret () : run unit).
Proof.
  induction waits as [|waits IH]; cbn [drain_sections];
    (rewrite run_bind; unfold hasPendingSignals_section; rewrite run_locked; intros st;
     unfold mbind, M_bind, gets; destruct (hasPendingSignals st)).
  1, 2, 4: by left.
  exact (IH st).
Qed.
Lemma run_ensure_shutdown : run_prog ensure_shutdown_sections ≡ (shutdown : run unit).
Proof.
  unfold ensure_shutdown_sections. rewrite run_bind, run_act. intros st. exact (run_drain 1000 (shutdown st).1).
Qed.

Lemma ordered_drain waits : ordered true (false, false) (drain_sections waits) (false, false).
Proof.
  induction waits as [|waits IH]; cbn [drain_sections]; (eapply ordered_bind;
    [apply ordered_interceptor, ordered_act|]); intros []; done.
Qed.
Lemma ordered_ensure_shutdown : ordered true (false, false) ensure_shutdown_sections (false, false).
Proof. eapply ordered_bind; [apply ordered_act|]. intros _. apply ordered_drain. Qed.

(** ** Where it starts

    The next action of thread [i] exits; the handler takes the thread's place. *)
Inductive exits (code : Z) : config → nat → config → Prop :=
| exits_at ts own st i {B} ok (m : run B) k c st' :
    ts !! i = Some (Thread (Act ok m k) c) → ok st → m st = (st', Err (FExit code)) →
    exits code (Config ts own st) i (Config (<[i := Thread ensure_shutdown_sections None]> ts) own st').

(** *** With no lock: the handler gets to its end *)
Lemma exit_without_locks code x i y :
  well_ordered x → held_by x i = (false, false) → exits code x i y → well_ordered y.
Proof.
  intros Hx Hh He. destruct He as [ts own st i B ok m k c st' Hi _ _].
  apply (well_ordered_move (Config ts own st) i _ (Thread ensure_shutdown_sections None) own st' Hx Hi); [apply Hx|done|].
  unfold held_by, holds in *. cbn in *. rewrite Hh. apply ordered_ensure_shutdown.
Qed.

(** *** With the interceptor's lock: it waits for itself *)
Definition asks_lock (p : prog unit) : Prop := match p with Acquire InterceptorLock _ => True | _ => False end.
Definition about_to_ask (p : prog unit) : Prop :=
  match p with Act _ _ k => ∀ b, asks_lock (k b) | _ => asks_lock p end.

Definition self_waiting (i : nat) x : Prop :=
  owners x !! InterceptorLock = Some i ∧
  ∃ t, threads x !! i = Some t ∧ catches t = None ∧ about_to_ask (body t).

Lemma exit_self_waiting code x i y :
  owners x !! InterceptorLock = Some i → exits code x i y → self_waiting i y.
Proof.
  intros Ho He. destruct He as [ts own st i B ok m k c st' Hi _ _]. split; [done|]. cbn.
  eexists. split; [apply list_lookup_insert_eq; by eapply lookup_lt_Some|]. split; [done|]. by intros [].
Qed.

Lemma about_to_ask_unfinished t : about_to_ask (body t) → finished_thread t = false.
Proof. by destruct t as [[| | |] c]. Qed.

(** Another thread moves. *)
Lemma self_waiting_other i j x t' own' st' :
  self_waiting i x → i ≠ j → own' !! InterceptorLock = Some i →
  self_waiting i (Config (<[j := t']> (threads x)) own' st').
Proof.
  intros (_&t&Hi&Ht) Hne Ho. split; [done|]. exists t. cbn. by rewrite list_lookup_insert_ne.
Qed.

Lemma self_waiting_step spawns outside i x y :
  self_waiting i x → config_step spawns outside x y → self_waiting i y.
Proof.
  intros Hw Hstep. pose proof Hw as (Ho&t&Hi&Hc&Ht).
  destruct Hstep as [ts own st t1 _|ts own st j B ok m k c st' b Hj _ _|ts own st j B ok m k handle st' what Hj _ _
    |ts own st j l k c Hj Hl|ts own st j l k c Hj Hl|ts own st st' _]; cbn in *.
  - split; [done|]. exists t. cbn. by rewrite lookup_app_l by (by eapply lookup_lt_Some).
  - destruct (decide (i = j)) as [<-|Hne]; [|by apply (self_waiting_other i j (Config ts own st))].
    assert (t = Thread (Act ok m k) c) as -> by congruence. cbn in Hc, Ht. split; [done|]. cbn.
    eexists. split; [apply list_lookup_insert_eq; by eapply lookup_lt_Some|]. split; [done|].
    specialize (Ht b). unfold about_to_ask. cbn. by destruct (k b).
  - destruct (decide (i = j)) as [<-|Hne].
    { assert (t = Thread (Act ok m k) (Some handle)) as -> by congruence. done. }
    apply (self_waiting_other i j (Config ts own st)); [done..|]. apply unlock_lookup. by split.
  - destruct (decide (i = j)) as [<-|Hne].
    { assert (t = Thread (Acquire l k) c) as -> by congruence. cbn in Ht. destruct l; [congruence|done]. }
    apply (self_waiting_other i j (Config ts own st)); [done..|]. rewrite lookup_insert_ne; [done|congruence].
  - destruct (decide (i = j)) as [<-|Hne].
    { assert (t = Thread (Release l k) c) as -> by congruence. done. }
    apply (self_waiting_other i j (Config ts own st)); [done..|]. rewrite lookup_delete_ne; [done|congruence].
  - done.
Qed.

Lemma self_waiting_steps spawns outside i x y :
  rtc (config_step spawns outside) x y → self_waiting i x → self_waiting i y.
Proof. induction 1; eauto using self_waiting_step. Qed.

(** ** Which calls exit, and where *)
Definition never_exits {A} (m : run A) : Prop := ∀ st st' code, m st ≠ (st', Err (FExit code)).

(** [p], from holding the interceptor's lock or not, exits only while it holds it. *)
Fixpoint exits_held {A} (h : bool) (p : prog A) (h' : bool) : Prop :=
  match p with
  | Ret _ => h = h'
  | Act _ m k => (h = true ∨ never_exits m) ∧ ∀ b, exits_held h (k b) h'
  | Acquire InterceptorLock k => h = false ∧ exits_held true k h'
  | Release InterceptorLock k => h = true ∧ exits_held false k h'
  | Acquire CacheLock k | Release CacheLock k => exits_held h k h'
  end.

Lemma in_lock_bind {A B} h h1 h' (p : prog A) (k : A → prog B) :
  exits_held h p h1 → (∀ a, exits_held h1 (k a) h') → exits_held h (p ≫= k) h'.
Proof.
  intros Hp Hk. revert h Hp. induction p as [a|B' ok m k' IH|[] p IH|[] p IH]; cbn; intros h Hp.
  - subst. apply Hk.
  - destruct Hp as [Hok Hp]. split; [done|]. intros b. by apply IH.
  - destruct Hp. auto.
  - auto.
  - destruct Hp. auto.
  - auto.
Qed.
Lemma in_lock_act {A} h (m : run A) : never_exits m → exits_held h (act m) h.
Proof. intros Hm. split; [by right|done]. Qed.
Lemma in_lock_inside {A} ok (m : run A) (k : A → prog unit) :
  (∀ b, exits_held true (k b) true) → exits_held true (Act ok m k) true.
Proof. intros Hk. split; [by left|done]. Qed.
Lemma in_lock_interceptor {A} (p : prog A) : exits_held true p true → exits_held false (with_lock InterceptorLock p) false.
Proof. intros Hp. split; [done|]. by eapply in_lock_bind. Qed.
Lemma in_lock_cache {A} h (m : run A) : never_exits m → exits_held h (locked CacheLock m) h.
Proof. intros Hm. split; [by right|done]. Qed.

(** A program that leaves the interceptor's lock alone. *)
Lemma in_lock_quiet {A} R (p : prog A) : quiet R p → exits_held true p true.
Proof.
  induction p as [a|B ok m k IH|l p IH|l p IH]; cbn; [done| |by intros [-> Hp]; apply IH..].
  intros [_ Hk]. split; [by left|]. intros b. apply IH, Hk.
Qed.
End handler.

(** ** The calls *)
Section calls.
Context {rng handler : Type} (draw : rng → Z * rng).
Context (set_context : bytes → handler → handler) (handlers_by_default : bytes → Z → list handler).
Context `{HL : HsaLoader} {node : Type} {CG : Comgr node} (comgr_metadata : bytes → option node).
Abbreviation state := (interceptor rng handler).
Abbreviation run := (M rng handler).
Abbreviation prog := (prog rng handler).
Abbreviation config := (config (rng := rng) (handler := handler)).
Abbreviation called := (called draw set_context handlers_by_default comgr_metadata).
Abbreviation call_body := (call_body draw set_context handlers_by_default comgr_metadata).
Abbreviation call_thread := (call_thread draw set_context handlers_by_default comgr_metadata).
Implicit Types (x y z : config) (st : state).

Lemma never_ret {A} (a : A) : never_exits (mret a : run A).
Proof. by intros st st' code. Qed.
Lemma never_gets {A} (f : state → A) : never_exits (gets f : run A).
Proof. by intros st st' code. Qed.
Lemma never_modify f : never_exits (modify f : run unit).
Proof. by intros st st' code. Qed.
Lemma never_check {A} (a : option A) : never_exits (lift (check_status a) : run A).
Proof. intros st st' code. by destruct a. Qed.
Lemma never_assert b : never_exits (lift (assertb b) : run unit).
Proof. intros st st' code. by destruct b. Qed.
Lemma never_bind {A B} (m : run A) (k : A → run B) :
  never_exits m → (∀ a, never_exits (k a)) → never_exits (m ≫= k).
Proof.
  intros Hm Hk st st' code. unfold mbind, M_bind. destruct (m st) as [st1 [a|f]] eqn:E; [apply Hk|].
  intros [= -> ->]. by eapply Hm.
Qed.

Create HintDb held discriminated.
Hint Resolve never_ret never_gets never_modify never_check never_assert : held.

(** One statement after the other; each branch of a test on its own. *)
Ltac held :=
  unfold read_cache, write_cache;
  repeat first
    [ match goal with |- ∀ _, _ => intros ? end | reflexivity
    | solve [auto with held nocore]
    | simple apply never_bind
    | simple apply in_lock_cache
    | simple apply in_lock_interceptor
    | match goal with |- exits_held true (act _) _ => split; [by left|intros ?] end
    | match goal with |- exits_held true (Act _ _ _) _ => split; [by left|intros ?] end
    | simple apply in_lock_act
    | eapply in_lock_bind
    | case_match ].

(** Nothing is asked of the cache's programs here but to leave the other lock alone. *)
Definition anything : relation state := λ _ _, True.
#[local] Instance anything_preorder : PreOrder anything.
Proof. by split. Qed.
Lemma anything_cache st c : anything st (set_kernel_cache c st).
Proof. done. Qed.

Lemma in_lock_alternative kd agent : exits_held true (alternative_for_sections kd agent : prog _) true.
Proof. eapply in_lock_quiet, (quiet_alternative_for anything), anything_cache. Qed.
Lemma in_lock_getArgDescriptor agent name instrumented :
  exits_held true (getArgDescriptor_sections comgr_metadata agent name instrumented : prog _) true.
Proof. eapply in_lock_quiet, (quiet_getArgDescriptor comgr_metadata anything), anything_cache. Qed.
Hint Resolve in_lock_alternative in_lock_getArgDescriptor : held.

Lemma in_lock_packet_loop queue packets :
  exits_held false (packet_loop_sections draw set_context handlers_by_default comgr_metadata queue packets) false.
Proof.
  induction packets as [|[pk an] packets IH]; [done|]. cbn [packet_loop_sections]. eapply in_lock_bind; [|by intros _].
  unfold do_packet_sections, fixupPacket_sections, choose_kernel_sections, instrument_dispatch_sections,
    scan_for_sections, emit. held.
Qed.

Lemma never_thread_step rq p : never_exits (thread_step rq p : run position).
Proof. unfold thread_step. destruct p; held. Qed.
Hint Resolve never_thread_step : held.
Lemma in_lock_later n rq p : exits_held false (later_sections n rq p : prog unit) false.
Proof. revert p. induction n as [|n IH]; intros p; cbn [later_sections]; held. Qed.
Hint Resolve in_lock_later : held.
Lemma in_lock_hook symbol ko len name size agent :
  exits_held false (hook_sections symbol ko len name size agent : prog unit) false.
Proof. unfold hook_sections, addKernel_sections, locked. held. Qed.

(** All but the loading of files; those are the calls with a [catch], and the
    completion of a signal. *)
Lemma in_lock_call c : (∀ name gpus, c ≠ AddCodeObject name gpus) → exits_held false (call_body c) false.
Proof.
  destruct c as [queue packets|sig s e|profiling queue agent|symbol ko len name size agent|name gpus|];
    intros Hc; cbn [Calls.call_body]; [apply in_lock_packet_loop| | |apply in_lock_hook|by destruct (Hc name gpus)|];
    unfold locked, shutdown; held.
Qed.

(** *** In every state that the calls bring about *)
Definition exits_inside x : Prop :=
  (∀ l i, owners x !! l = Some i → is_Some (threads x !! i)) ∧
  ∀ i t, threads x !! i = Some t → is_Some (catches t) →
    exits_held (holds x InterceptorLock i) (body t) false.

(** The thread [i] moves. *)
Lemma exits_inside_move x i t t' own' st' :
  exits_inside x → threads x !! i = Some t →
  (∀ l j, own' !! l = Some j → is_Some (threads x !! j)) →
  (∀ j, j ≠ i → own' !! InterceptorLock = Some j ↔ owners x !! InterceptorLock = Some j) →
  (is_Some (catches t') → exits_held (bool_decide (own' !! InterceptorLock = Some i)) (body t') false) →
  exits_inside (Config (<[i := t']> (threads x)) own' st').
Proof.
  intros [Ho Ht] Hi Hown Hothers Ht'. split; cbn.
  - intros l j Hj. apply Hown in Hj as [tj Hj]. destruct (decide (i = j)) as [<-|].
    + rewrite list_lookup_insert_eq by (by eapply lookup_lt_Some). by eexists.
    + rewrite list_lookup_insert_ne by done. by eexists.
  - intros j tj Hj Hc. destruct (decide (i = j)) as [<-|Hne].
    { rewrite list_lookup_insert_eq in Hj by (by eapply lookup_lt_Some). simplify_eq. by apply Ht'. }
    rewrite list_lookup_insert_ne in Hj by done. unfold holds. cbn.
    rewrite (bool_decide_ext _ _ (Hothers j (not_eq_sym Hne))). by apply Ht.
Qed.

Lemma exits_inside_step outside x y : exits_inside x → config_step called outside x y → exits_inside y.
Proof.
  intros Hx Hstep. pose proof Hx as [Ho Ht].
  destruct Hstep as [ts own st t Hsp|ts own st i B ok m k c st' b Hi Hok Hm
    |ts own st i B ok m k handle st' what Hi Hok Hm|ts own st i l k c Hi Hl|ts own st i l k c Hi Hl|ts own st st' Hout];
    cbn in *; try pose proof (Ht i _ Hi) as H.
  - split; cbn.
    + intros l i Hl. apply Ho in Hl as [t' Hl]. rewrite lookup_app_l by (by eapply lookup_lt_Some). by eexists.
    + intros i t' Hi Hc. unfold holds. cbn. destruct (decide (i < length ts)%nat) as [Hlt|Hge].
      * rewrite lookup_app_l in Hi by done. by apply Ht.
      * rewrite bool_decide_false by (intros [? ?%lookup_lt_Some]%Ho; done).
        rewrite lookup_app_r in Hi by lia. apply list_lookup_singleton_Some in Hi as [_ <-].
        destruct Hsp as [q ->]. apply in_lock_call. intros name gpus ->. by destruct Hc.
  - apply (exits_inside_move (Config ts own st) i _ (Thread (k b) c) own st' Hx Hi); [done|done|].
    intros Hc. by apply H.
  - apply (exits_inside_move (Config ts own st) i _ (Thread (Ret ()) (Some handle)) _ (handle st') Hx Hi).
    + intros l j [Hl _]%unlock_lookup. by eapply Ho.
    + intros j Hj. rewrite unlock_lookup. naive_solver.
    + intros _. cbn. rewrite bool_decide_false by (rewrite unlock_lookup; naive_solver). done.
  - apply (exits_inside_move (Config ts own st) i _ (Thread k c) _ st Hx Hi).
    + intros l' j [[-> <-]|[_ Hj]]%lookup_insert_Some; [by eexists|by eapply Ho].
    + intros j Hj. cbn. rewrite lookup_insert_Some. split; [naive_solver|]. intros Hj'. right. naive_solver.
    + intros Hc. specialize (H Hc). unfold holds in H. cbn in H. destruct l.
      * rewrite lookup_insert_eq, bool_decide_true by done. by destruct H.
      * by rewrite lookup_insert_ne by done.
  - apply (exits_inside_move (Config ts own st) i _ (Thread k c) _ st Hx Hi).
    + intros l' j [_ Hj]%lookup_delete_Some. by eapply Ho.
    + intros j Hj. cbn. rewrite lookup_delete_Some. split; [naive_solver|]. intros Hj'. split; [|done]. naive_solver.
    + intros Hc. specialize (H Hc). unfold holds in H. cbn in H. destruct l.
      * rewrite lookup_delete_eq, bool_decide_false by done. by destruct H.
      * by rewrite lookup_delete_ne by done.
  - split; [done|]. intros i t Hi. by apply Ht.
Qed.

Lemma exits_inside_steps outside x y : rtc (config_step called outside) x y → exits_inside x → exits_inside y.
Proof. induction 1; eauto using exits_inside_step. Qed.

Lemma exits_with_lock code x i y t :
  exits_inside x → threads x !! i = Some t → is_Some (catches t) → exits code x i y →
  owners x !! InterceptorLock = Some i.
Proof.
  intros [_ Ht] Hi Hc He. destruct He as [ts own st i B ok m k c st' Hi' _ Hm]. cbn in *.
  specialize (Ht i _ Hi Hc). simplify_eq. cbn in Ht. destruct Ht as [[Hh|Hn] _]; [|by apply Hn in Hm].
  unfold holds in Hh. by apply bool_decide_eq_true in Hh.
Qed.

(** C10. [exit] in the middle of a call.  In every state that the calls of any number
    of threads bring about, interleaved in any way: if a submission, a queue or a
    symbol query ends the process with [exit] (the metadata of a code object cannot
    be read), its thread has the interceptor's lock, and the exit handler that runs
    on it asks for that lock: it never gets it, whatever the other threads do and
    whatever calls begin, so the process does not end, and no other thread gets the
    lock any more. *)
Theorem exit_inside_call_hangs outside st0 code x i t y :
  rtc (config_step called outside) (Config [] ∅ st0) x →
  threads x !! i = Some t → is_Some (catches t) → exits code x i y →
  ∀ z, rtc (config_step called outside) y z →
    (∃ t', threads z !! i = Some t' ∧ finished_thread t' = false) ∧
    ∀ j k c, threads z !! j = Some (Thread (Acquire InterceptorLock k) c) → ¬ can_move z j.
Proof.
  intros Hx Hi Hc He z Hz.
  assert (exits_inside x) as Hin by (eapply exits_inside_steps; [exact Hx|by split]).
  pose proof (exits_with_lock _ _ _ _ _ Hin Hi Hc He) as Ho.
  destruct (self_waiting_steps _ _ _ _ _ Hz (exit_self_waiting _ _ _ _ Ho He)) as (Ho'&t'&Ht'&_&Hask).
  split; [exists t'; split; [done|by apply about_to_ask_unfinished]|].
  intros j k c Hj. unfold can_move. rewrite Hj. congruence.
Qed.
End calls.

(** ** A thread moved by hand *)
Section advance.
Context {rng handler : Type}.
Abbreviation state := (interceptor rng handler).
Abbreviation run := (M rng handler).
Abbreviation prog := (prog rng handler).
Abbreviation config := (config (rng := rng) (handler := handler)).
Implicit Types (x y : config) (st : state).

(** As far as the thread [i] gets: to its end, a lock it has to wait for, or a fault. *)
Fixpoint advance {A} (i : nat) (p : prog A) (own : gmap lock nat) (st : state) : prog A * gmap lock nat * state :=
  match p with
  | Ret _ => (p, own, st)
  | Act ok m k => match m st with (st', Ok b) => advance i (k b) own st' | _ => (p, own, st) end
  | Acquire l k => if decide (own !! l = None) then advance i k (<[l := i]> own) st else (p, own, st)
  | Release l k => if decide (own !! l = Some i) then advance i k (delete l own) st else (p, own, st)
  end.

Definition advanced (i : nat) (ts : list thread) (p : prog unit) c own st : config :=
  let '(p', own', st') := advance i p own st in Config (<[i := Thread p' c]> ts) own' st'.

Lemma advance_steps spawns outside i (p : prog unit) : ∀ ts c own st,
  ts !! i = Some (Thread p c) → promised p st →
  rtc (config_step spawns outside) (Config ts own st) (advanced i ts p c own st).
Proof.
  unfold advanced. induction p as [a|B ok m k IH|l p IH|l p IH]; intros ts c own st Hi Hp; cbn [advance].
  - by rewrite list_insert_id.
  - destruct Hp as [Hok Hp]. destruct (m st) as [st' [b|f]] eqn:E; [|by rewrite list_insert_id].
    eapply rtc_l; [by eapply step_act|]. specialize (IH b (<[i := Thread (k b) c]> ts) c own st').
    destruct (advance i (k b) own st') as [[p' own'] st'']. rewrite list_insert_insert_eq in IH. apply IH; [|done].
    apply list_lookup_insert_eq. by eapply lookup_lt_Some.
  - case_decide; [|by rewrite list_insert_id]. eapply rtc_l; [by apply (step_acquire _ _ ts own st i l p c)|].
    specialize (IH (<[i := Thread p c]> ts) c (<[l := i]> own) st).
    destruct (advance i p (<[l := i]> own) st) as [[p' own'] st'']. rewrite list_insert_insert_eq in IH.
    apply IH; [|done]. apply list_lookup_insert_eq. by eapply lookup_lt_Some.
  - case_decide; [|by rewrite list_insert_id]. eapply rtc_l; [by apply (step_release _ _ ts own st i l p c)|].
    specialize (IH (<[i := Thread p c]> ts) c (delete l own) st).
    destruct (advance i p (delete l own) st) as [[p' own'] st'']. rewrite list_insert_insert_eq in IH.
    apply IH; [|done]. apply list_lookup_insert_eq. by eapply lookup_lt_Some.
Qed.

Lemma advance_promised i (p : prog unit) : ∀ own st,
  promised p st → let '(p', _, st') := advance i p own st in promised p' st'.
Proof.
  induction p as [a|B ok m k IH|l p IH|l p IH]; intros own st Hp; cbn [advance]; [done| |case_decide; [by apply IH|done]..].
  destruct (m st) as [st' [b|f]] eqn:E; [|done]. apply IH. destruct Hp as [_ Hp]. by rewrite E in Hp.
Qed.

Definition exits_now (p : prog unit) (st : state) : option Z :=
  match p with Act _ m _ => match (m st).2 with Err (FExit code) => Some code | _ => None end | _ => None end.

Lemma exits_now_exits ts own st i (p : prog unit) c code :
  ts !! i = Some (Thread p c) → promised p st → exits_now p st = Some code → ∃ y, exits code (Config ts own st) i y.
Proof.
  intros Hi Hp He. destruct p as [a|B ok m k|l p|l p]; try done. destruct Hp as [Hok _]. cbn in He.
  destruct (m st) as [st' [b|[]]] eqn:E; try done. injection He as <-. eexists. by econstructor.
Qed.

(** A thread that is first to run, up to where it exits. *)
Lemma first_exits spawns outside (t : thread) st code :
  spawns t → promised (body t) st → exits_now (advance 0 (body t) ∅ st).1.1 (advance 0 (body t) ∅ st).2 = Some code →
  ∃ x y t', rtc (config_step spawns outside) (Config [] ∅ st) x ∧ threads x !! 0%nat = Some t' ∧ catches t' = catches t ∧
    exits code x 0 y.
Proof.
  intros Hs Hp He. destruct t as [p c]. cbn in *.
  pose proof (advance_steps spawns outside 0 p [Thread p c] c ∅ st eq_refl Hp) as Hsteps.
  pose proof (advance_promised 0 p ∅ st Hp) as Hp'. unfold advanced in Hsteps.
  destruct (advance 0 p ∅ st) as [[p' own'] st'].
  destruct (exits_now_exits [Thread p' c] own' st' 0 p' c code eq_refl Hp' He) as [y Hy].
  exists (Config [Thread p' c] own' st'), y, (Thread p' c). split_and!; [|done..].
  eapply rtc_l; [by apply (step_begin _ _ [] ∅ st (Thread p c))|]. exact Hsteps.
Qed.
End advance.

(** ** A submission whose code object has no metadata

    An instance without files of its own; the application loads a kernel and its clone. *)
Definition ex_env : environment := Environment true
  (env_getenv (example_env "true")) None (env_signals (example_env "true")) (Some []) (env_pools (example_env "true"))
  None [] None.
Definition no_metadata (co : bytes) : option md_tree := None.
Definition ex_queried : interceptor Z handler_t :=
  (start (HL := example_loader) (FS := example_files) no_metadata (λ _, None) (λ _, None) ex_env
     (blank ex_env 0 3 (CommsMgr ∅ ∅))).1.
Definition ex_loaded : interceptor Z handler_t :=
  (hook_kernel_object (HL := example_loader) 2 2000 (Some 15) (Some (lit "__amd_crk_fooPv")) (Some 24) (Some 7)
    (hook_kernel_object (HL := example_loader) 1 1000 (Some 3) (Some (lit "foo")) (Some 16) (Some 7)
      (addQueue true 3 7 ex_queried).1).1).1.
Definition ex_submission : call := SubmitPackets 3 [(example_packet, example_answers)].
Abbreviation ex_called := (called (HL := example_loader) (λ g : Z, (g, g)) (λ _ h, h) default_handlers no_metadata).

Lemma ex_exits : ∃ x y t,
  rtc (config_step ex_called (λ _ _, False)) (Config [] ∅ ex_loaded) x ∧ threads x !! 0%nat = Some t ∧
  catches t = Some drop_batch ∧ exits 1 x 0 y.
Proof.
  apply (first_exits ex_called (λ _ _, False) (call_thread (HL := example_loader) (λ g : Z, (g, g)) (λ _ h, h)
    default_handlers no_metadata ex_submission) ex_loaded 1).
  - by exists ex_submission.
  - apply submission_promised. split; [constructor|]. apply list.Forall_nil_2.
  - vm_compute. reflexivity.
Qed.

Lemma exit_inside_call_hangs_witness : ∃ (y : config (rng := Z) (handler := handler_t)) t',
  threads y !! 0%nat = Some t' ∧ finished_thread t' = false.
Proof.
  destruct ex_exits as (x&y&t&Hx&Ht&Hc&He). exists y.
  destruct (exit_inside_call_hangs (HL := example_loader) (λ g : Z, (g, g)) (λ _ h, h) default_handlers no_metadata
    (λ _ _, False) ex_loaded 1 x 0 t y) with (z := y) as [(t'&Ht'&Hf) _].
  - exact Hx.
  - exact Ht.
  - exists drop_batch. exact Hc.
  - exact He.
  - apply rtc_refl.
  - exists t'. split; [exact Ht'|exact Hf].
Defined.
