(* ===== verification/PacketRewrite.v ===== *)
(** * What happens to a packet

    [doPackets] hands every packet to the queue, in order, and rewrites only the
    dispatches; a dispatch keeps its geometry and gets a completion signal of the
    interceptor's and, in an instrumented run, the clone of its kernel with
    arguments built from its own.  The file also says when the signal thread has
    completed everything, and which dispatches are never instrumented. *)
From S2P Require Import Prelude StdString Names KernArgs CoCache Dispatch Comms LibraryFilter Interceptor Registration Sections Calls Bookkeeping.

(** ** Operations that neither write packets nor change the mode *)
Definition written : list event → list packet :=
  omap (λ e, match e with Written p => Some p | _ => None end).

(** The packets written and the mode. *)
Definition same_view {rng handler} (st st' : interceptor rng handler) : Prop :=
  written (trace_ st') = written (trace_ st) ∧ run_instrumented_ st' = run_instrumented_ st.
#[export] Instance same_view_preorder {rng handler} : PreOrder (@same_view rng handler).
Proof. split; [by split|]. intros ??? [??] [??]. split; congruence. Qed.

Lemma same_view_event {rng handler} (st : interceptor rng handler) e :
  (∀ p, e ≠ Written p) → same_view st (set_trace (trace_ st ++ [e]) st).
Proof.
  intros He. split; [|done]. cbn. unfold written. rewrite omap_app. cbn.
  destruct e; rewrite ?app_nil_r; try done. by destruct (He p).
Qed.
#[export] Hint Extern 1 (same_view _ (set_trace _ _)) => (apply same_view_event; done) : within.
Ltac inert := within; try (apply same_view_event; congruence).

(** The members the rewriting of a packet depends on. *)
Definition same_tables {rng handler} (st st' : interceptor rng handler) : Prop :=
  kernel_objects_ st' = kernel_objects_ st ∧ kernel_cache_ st' = kernel_cache_ st ∧
  memory_ st' = memory_ st ∧ run_instrumented_ st' = run_instrumented_ st ∧
  pending_kernargs_ st' = pending_kernargs_ st ∧ pending_signals_ st' = pending_signals_ st ∧
  ∀ q, default 0 (queues_ st' !! q) = default 0 (queues_ st !! q).
#[export] Instance same_tables_preorder {rng handler} : PreOrder (@same_tables rng handler).
Proof.
  split; [done|]. intros ??? (?&?&?&?&?&?&?) (?&?&?&?&?&?&?). unfold same_tables. split_and!; congruence.
Qed.

Section inert_ops.
Context {rng handler : Type} (draw : rng → Z * rng).
Context (set_context : bytes → handler → handler) (handlers_by_default : bytes → Z → list handler).
Context `{HL : HsaLoader} {node : Type} {CG : Comgr node} (comgr_metadata : bytes → option node).
Abbreviation run := (M rng handler).

Lemma inert_grow_pool n signals : within same_view (grow_pool n signals : run unit).
Proof. revert signals. induction n as [|n IH]; intros signals; cbn [grow_pool]; inert. Qed.
Lemma inert_queue_agent queue : within same_view (queue_agent queue : run Z).
Proof. unfold queue_agent. inert. Qed.
Lemma inert_agent_kdb agent : within same_view (agent_kdb agent : run _).
Proof. unfold agent_kdb. inert. Qed.
Lemma inert_kernel_at ko : within same_view (kernel_at ko : run _).
Proof. unfold kernel_at. inert. Qed.
Hint Resolve inert_grow_pool inert_queue_agent inert_agent_kdb inert_kernel_at : within.

Lemma inert_take_signal an : within same_view (take_signal an : run Z).
Proof. unfold take_signal. inert. Qed.
Lemma inert_alternative_for kd agent : within same_view (alternative_for kd agent : run Z).
Proof. unfold alternative_for. inert. Qed.
Lemma inert_may_dispatch alt : within same_view (may_dispatch draw alt : run bool).
Proof. unfold may_dispatch. inert. Qed.
Lemma inert_scan_for an agent name kdb : within same_view (scan_for an agent name kdb : run unit).
Proof. unfold scan_for. inert. Qed.
Lemma inert_allocate_kernargs an size agent : within same_view (allocate_kernargs an size agent : run Z).
Proof. unfold allocate_kernargs. inert. Qed.
Lemma inert_checkout an agent name id :
  within same_view (checkout set_context handlers_by_default an agent name id : run Z).
Proof. unfold checkout. inert. Qed.
Lemma inert_write_kernargs an dst sr args : within same_view (write_kernargs an dst sr args : run unit).
Proof. unfold write_kernargs. inert. Qed.
Hint Resolve inert_take_signal inert_alternative_for inert_may_dispatch inert_scan_for
  inert_allocate_kernargs inert_checkout inert_write_kernargs : within.

Lemma inert_choose_kernel an sig p queue id :
  within same_view (choose_kernel draw set_context handlers_by_default comgr_metadata an sig p queue id).
Proof. unfold choose_kernel, instrument_dispatch. inert. Qed.
Hint Resolve inert_choose_kernel : within.

Lemma inert_fixupPacket an p queue id :
  within same_view (fixupPacket draw set_context handlers_by_default comgr_metadata an p queue id).
Proof. unfold fixupPacket. inert. Qed.
End inert_ops.

(** Loading a code object: the hook for each of its kernels, and the cache. *)
Section loading.
Context {rng handler : Type} `{HL : HsaLoader} {node : Type} {CG : Comgr node}.
Context (comgr_metadata : bytes → option node).
Abbreviation state := (interceptor rng handler).
Abbreviation run := (M rng handler).
Context (R : state → state → Prop) {HR : PreOrder R}.
Context (Hhook : ∀ symbol ko len name size agent,
  within R (hook_kernel_object symbol ko len name size agent : run unit)).
Context (Hcache : ∀ st c, R st (set_kernel_cache c st)) (Hkdbs : ∀ st k, R st (set_kdbs k st)).
Hint Resolve Hhook : within.
Ltac load := within; try apply Hcache.

Lemma within_addFile_hooked name agent flt : within R (addFile_hooked comgr_metadata name agent flt : run unit).
Proof.
  assert (∀ l syms, within R (add_symbols_hooked name agent flt l syms : run unit)) as Hsyms.
  { intros l syms. induction syms as [|sym syms IH]; cbn [add_symbols_hooked];
      unfold add_symbol_hooked, on_cache; load. }
  assert (∀ loaded, within R (add_executables_hooked name agent flt loaded : run unit)) as Hexe.
  { intros loaded. induction loaded as [|l loaded IH]; cbn [add_executables_hooked]; unfold on_cache; load. }
  unfold addFile_hooked. load.
Qed.
Hint Resolve within_addFile_hooked : within.

Lemma within_addCodeObject name gpus : within R (addCodeObject comgr_metadata name gpus : run unit).
Proof.
  unfold addCodeObject. destruct name as [|c name]; [load|].
  induction gpus as [|agent gpus IH]; cbn [add_code_object]; load.
Qed.
End loading.

(** ** One dispatch *)
Lemma bind_Ok {rng handler A B} (m : M rng handler A) (k : A → M rng handler B) st st' b :
  (m ≫= k) st = (st', Ok b) → ∃ a st1, m st = (st1, Ok a) ∧ k a st1 = (st', Ok b).
Proof. unfold mbind, M_bind. destruct (m st) as [st1 [a|f]]; [|done]. intros. by exists a, st1. Qed.

(** Takes a successful run apart, call by call. *)
Ltac calls H :=
  repeat match type of H with
  | @mbind _ _ _ _ _ _ _ = (_, Ok _) =>
      let a := fresh "a" in let st := fresh "st" in let Hc := fresh "Hcall" in
      apply bind_Ok in H as (a&st&Hc&H); calls Hc
  | @mret _ _ _ _ _ = (_, Ok _) => unfold mret, M_ret in H; first [injection H as <- <-|injection H as <-]
  | gets _ _ = (_, Ok _) => unfold gets in H; first [injection H as <- <-|injection H as <-]
  | modify _ _ = (_, Ok _) => unfold modify in H; first [injection H as <- <-|injection H as <-]
  | emit _ _ = (_, Ok _) => unfold emit, modify in H; first [injection H as <- <-|injection H as <-]
  end; try (cbv beta in H).

Section tables.
Context {rng handler : Type} (draw : rng → Z * rng).
Context (set_context : bytes → handler → handler) (handlers_by_default : bytes → Z → list handler).
Abbreviation run := (M rng handler).

Lemma tables_grow_pool n signals : within same_tables (grow_pool n signals : run unit).
Proof. revert signals. induction n as [|n IH]; intros signals; cbn [grow_pool]; within. Qed.
Lemma tables_queue_agent queue : within same_tables (queue_agent queue : run Z).
Proof.
  intros st. unfold queue_agent, gets, modify, mbind, M_bind. cbn.
  destruct (queues_ st !! queue) as [agent|] eqn:Hq; [done|]. split_and!; try done. cbn. intros q.
  destruct (decide (q = queue)) as [->|]; [by rewrite lookup_insert_eq, Hq|by rewrite lookup_insert_ne].
Qed.
Lemma tables_agent_kdb agent : within same_tables (agent_kdb agent : run _).
Proof. unfold agent_kdb. within. Qed.
Lemma tables_may_dispatch alt : within same_tables (may_dispatch draw alt : run bool).
Proof. unfold may_dispatch. within. Qed.
Lemma tables_scan_for an agent name kdb : within same_tables (scan_for an agent name kdb : run unit).
Proof. unfold scan_for. within. Qed.
Lemma tables_checkout an agent name id :
  within same_tables (checkout set_context handlers_by_default an agent name id : run Z).
Proof. unfold checkout. within. Qed.
Hint Resolve tables_grow_pool : within.
Lemma tables_take_signal an : within same_tables (take_signal an : run Z).
Proof. unfold take_signal. within. Qed.

Lemma queue_agent_Ok queue st st' agent :
  queue_agent queue st = (st', Ok agent) → agent = default 0 (queues_ (rng := rng) (handler := handler) st !! queue).
Proof.
  unfold queue_agent. intros H. calls H. destruct (queues_ st !! queue); by calls H.
Qed.
End tables.

Section rewrite.
Context {rng handler : Type} (draw : rng → Z * rng).
Context (set_context : bytes → handler → handler) (handlers_by_default : bytes → Z → list handler).
Context `{HL : HsaLoader} {node : Type} {CG : Comgr node} (comgr_metadata : bytes → option node).
Abbreviation state := (interceptor rng handler).
Implicit Types (st : state).

(** Same kernel, same arguments, same segment sizes. *)
Definition same_kernel (p d : packet) : Prop :=
  pk_kernel_object d = pk_kernel_object p ∧ pk_kernarg_address d = pk_kernarg_address p ∧
  pk_private_segment_size d = pk_private_segment_size p ∧
  pk_group_segment_size d = pk_group_segment_size p.

(** The clone of the kernel registered for [p] on [agent], found by name in the
    cache, with the sizes of its descriptor and with the segment that
    [fixupKernArgs] makes of the application's; [memory'] is the memory after. *)
Record runs_clone (an : answers) (agent : Z) (p d : packet) st (memory' : gmap Z buffer) : Prop := {
  rc_mode : run_instrumented_ st = true;
  rc_kernel : ∃ kd args c1 c2 b,
    kernel_objects_ st !! pk_kernel_object p = Some kd ∧
    findInstrumentedAlternative (ld_symbol kd) (ld_name kd) agent (kernel_cache_ st)
      = Ok (pk_kernel_object d, c1) ∧
    getArgDescriptor comgr_metadata agent (ld_name kd) true c1 = Ok (Some args, c2) ∧
    pk_private_segment_size d = private_segment_size args ∧
    pk_group_segment_size d = group_segment_size args ∧
    let segment := resize (Z.to_nat (round_up_mask (kernarg_length args) RH_PAGE_MASK)) 0 (an_contents an) in
    let memory := <[pk_kernarg_address d := segment]> (memory_ st) in
    fixupKernArgs (Some segment) (segment_at (set_memory memory st) (pk_kernarg_address p))
      (an_dev_rsrc an) args = Ok b ∧
    memory' = <[pk_kernarg_address d := b]> memory;
  rc_object : pk_kernel_object d ≠ 0;
  rc_address : pk_kernarg_address d ≠ 0;
}.

Lemma tables_clone an agent p d st st1 m :
  same_tables st st1 → runs_clone an agent p d st1 m → runs_clone an agent p d st m.
Proof.
  intros (Hk&Hc&Hm&Hr&_) [H1 (kd&args&c1&c2&b&H)]. split; [congruence|..]; [|done|done].
  exists kd, args, c1, c2, b. unfold segment_at in *. cbn [memory_ set_memory] in *.
  by rewrite <-Hk, <-Hc, <-Hm.
Qed.

(** What the search for the clone gives. *)
Definition chooses (an : answers) (agent sig : Z) (p : packet) st (r : packet * option Z) st' : Prop :=
  pk_header r.1 = pk_header p ∧ pk_geometry r.1 = pk_geometry p ∧
  pk_completion_signal r.1 = pk_completion_signal p ∧
  kernel_objects_ st' = kernel_objects_ st ∧ pending_signals_ st' = pending_signals_ st ∧
  match r.2 with
  | None => same_kernel p r.1 ∧ memory_ st' = memory_ st ∧ pending_kernargs_ st' = pending_kernargs_ st
  | Some c =>
      c = an_comms an ∧ runs_clone an agent p r.1 st (memory_ st') ∧
      pending_kernargs_ st' = <[sig := pk_kernarg_address r.1]> (pending_kernargs_ st)
  end.

Lemma fixupKernArgs_dst src comms args b : fixupKernArgs None src comms args ≠ Ok b.
Proof. unfold fixupKernArgs. by destruct src. Qed.

Lemma lift_Ok {A} (r : res A) st st' a : lift r st = (st', Ok a) → st' = st ∧ r = Ok a.
Proof. unfold lift. by intros [= <- ->]. Qed.

Lemma with_cache_Ok {A} (op : coCache → res (A * coCache)) st st' a :
  with_cache op st = (st', Ok a) → ∃ c, op (kernel_cache_ st) = Ok (a, c) ∧ st' = set_kernel_cache c st.
Proof. unfold with_cache. destruct (op _) as [[a' c]|]; [|done]. intros [= <- <-]. by exists c. Qed.

Lemma find_descriptor_Ok agent name instrumented st st' desc :
  find_descriptor comgr_metadata agent name instrumented st = (st', Ok desc) →
  ∃ c, getArgDescriptor comgr_metadata agent name instrumented (kernel_cache_ st) = Ok (desc, c) ∧
    st' = set_kernel_cache c st.
Proof.
  unfold find_descriptor. destruct (getArgDescriptor _ _ _ _ _) as [[d c]|]; [|done]. intros [= <- <-]. by exists c.
Qed.

Lemma allocate_Ok an size agent st st' q :
  allocate_kernargs an size agent st = (st', Ok q) →
  ∃ st1, same_tables st st1 ∧
    st' = if q =? 0 then st1
          else set_memory (<[q := resize (Z.to_nat (round_up_mask size RH_PAGE_MASK)) 0 (an_contents an)]>
                 (memory_ st1)) st1.
Proof. unfold allocate_kernargs. intros H. calls H. match goal with |- context [set_trace ?t st] => by exists (set_trace t st) end. Qed.

Lemma checkout_Ok an agent name id st st' c :
  checkout set_context handlers_by_default an agent name id st = (st', Ok c) → c = an_comms an.
Proof. unfold checkout. intros H. calls H. case_match; [|done]. by calls H. Qed.

Lemma write_kernargs_Ok an dst sr args st st' a :
  write_kernargs an dst sr args st = (st', Ok a) →
  ∃ b, fixupKernArgs (segment_at st dst) (segment_at st sr) (an_dev_rsrc an) args = Ok b ∧
    st' = set_memory (<[dst := b]> (memory_ st)) st.
Proof. unfold write_kernargs. intros H. calls H. apply lift_Ok in Hcall as [-> Hb]. by eexists. Qed.

Lemma instrument_dispatch_chooses an sig p kd agent alt id c0 st0 st st' r :
  same_tables st0 (set_kernel_cache (kernel_cache_ st0) st) →
  run_instrumented_ st0 = true → alt ≠ 0 →
  kernel_objects_ st0 !! pk_kernel_object p = Some kd →
  findInstrumentedAlternative (ld_symbol kd) (ld_name kd) agent (kernel_cache_ st0) = Ok (alt, c0) →
  kernel_cache_ st = c0 →
  instrument_dispatch set_context handlers_by_default comgr_metadata an sig p p kd agent alt id st
    = (st', Ok r) →
  chooses an agent sig p st0 r st'.
Proof.
  intros (Hk&_&Hm&Hr&Hpk&Hps&_) Hmode Halt Hkd Hf Hc0 H. cbn in Hk, Hm, Hr, Hpk, Hps.
  unfold instrument_dispatch in H. calls H.
  apply lift_Ok in Hcall as [-> _]. apply find_descriptor_Ok in Hcall0 as (c1&Harg&->).
  rewrite Hr, Hmode, Hc0 in Harg. destruct a0 as [args|]; [|done]. calls H.
  apply allocate_Ok in Hcall as (sa&Ta&->).
  apply (within_Ok _ _ _ _ _ (tables_agent_kdb _)) in Hcall0.
  apply (within_Ok _ _ _ _ _ (tables_scan_for _ _ _ _)) in Hcall1.
  pose proof (within_Ok _ _ _ _ _ (tables_checkout _ _ _ _ _ _) Hcall2) as Tc.
  apply checkout_Ok in Hcall2 as ->. apply write_kernargs_Ok in Hcall3 as (b&Hb&->).
  destruct (Z.eqb_spec a0 0) as [->|Hne].
  { exfalso. unfold segment_at in Hb at 1. cbn [Z.eqb] in Hb. by apply fixupKernArgs_dst in Hb. }
  assert (same_tables sa (set_memory (memory_ sa) st4)) as (Hk4&_&_&_&Hpk4&Hps4&_).
  { destruct Hcall0 as (?&?&?&?&?&?&?), Hcall1 as (?&?&?&?&?&?&?), Tc as (?&?&?&?&?&?&?). cbn in *.
    unfold same_tables. cbn. split_and!; congruence. }
  assert (memory_ st4 = <[a0 := resize (Z.to_nat (round_up_mask (kernarg_length args) RH_PAGE_MASK)) 0
                            (an_contents an)]> (memory_ st0)) as Hm4.
  { destruct Hcall0 as (_&_&H1&_), Hcall1 as (_&_&H2&_), Tc as (_&_&H3&_), Ta as (_&_&H4&_). cbn in *. congruence. }
  destruct Ta as (Hka&_&_&_&Hpka&Hpsa&_). cbn in *.
  assert (∀ q, segment_at st4 q = segment_at (set_memory (memory_ st4) st0) q) as Hseg by done.
  rewrite !Hseg in Hb. rewrite Hm4 in Hb. unfold chooses. cbn. split_and!; try congruence; try done.
  split; [done| |done|done]. exists kd, args, c0, c1, b. split_and!; try done.
  cbv zeta. cbn [pk_kernarg_address]. split; [|by rewrite Hm4]. rewrite <-Hb. f_equal.
  unfold segment_at. cbn [memory_ set_memory]. by rewrite (proj2 (Z.eqb_neq _ _)), lookup_insert_eq by done.
Qed.

Lemma choose_kernel_chooses an sig p queue id st st' r :
  choose_kernel draw set_context handlers_by_default comgr_metadata an sig p queue id st = (st', Ok r) →
  chooses an (default 0 (queues_ st !! queue)) sig p st r st'.
Proof.
  unfold choose_kernel. intros H. apply bind_Ok in H as (agent&st1&Hcall&H). calls H.
  rewrite <-(queue_agent_Ok _ _ _ _ Hcall).
  apply (within_Ok _ _ _ _ _ (tables_queue_agent _)) in Hcall as (Hk&Hc&Hm&Hr&Hpk&Hps&Hq).
  assert (∀ st2, kernel_objects_ st2 = kernel_objects_ st1 → memory_ st2 = memory_ st1 →
    pending_kernargs_ st2 = pending_kernargs_ st1 → pending_signals_ st2 = pending_signals_ st1 →
    chooses an agent sig p st (p, None) st2) as Hsame.
  { intros st2 ????. unfold chooses, same_kernel. cbn. split_and!; congruence. }
  destruct (hasKernels agent (kernel_cache_ st1)); [|calls H; by apply Hsame]. calls H.
  destruct (kernel_objects_ st1 !! pk_kernel_object p) as [kd|] eqn:Hkd; [|calls H; by apply Hsame].
  apply bind_Ok in H as (alt&st2&Halt&H).
  assert (∃ c, st2 = set_kernel_cache c st1 ∧ (run_instrumented_ st1 = true →
    findInstrumentedAlternative (ld_symbol kd) (ld_name kd) agent (kernel_cache_ st1) = Ok (alt, c)))
    as (c&->&Hf).
  { unfold alternative_for in Halt. calls Halt.
    destruct (run_instrumented_ st1); apply with_cache_Ok in Halt as (c&?&->); by exists c. }
  destruct (Z.eqb_spec alt 0) as [->|Hne]; [calls H; by apply Hsame|].
  apply bind_Ok in H as (ok&st3&Hok&H).
  pose proof (within_Ok _ _ _ _ _ (tables_may_dispatch _ _) Hok) as (Hk3&Hc3&Hm3&Hr3&Hpk3&Hps3&Hq3).
  cbn in Hk3, Hc3, Hm3, Hr3, Hpk3, Hps3.
  destruct ok; [|calls H; by apply Hsame].
  assert (run_instrumented_ st1 = true) as Hmode.
  { unfold may_dispatch in Hok. calls Hok. cbn in Hok. destruct (run_instrumented_ st1); [done|]. by calls Hok. }
  specialize (Hf Hmode). rewrite Hc in Hf. rewrite Hk in Hkd.
  eapply instrument_dispatch_chooses; [|by rewrite <-Hr|done|done|done|done|done].
  unfold same_tables. cbn. split_and!; try congruence. intros q. by rewrite Hq3.
Qed.

(** What becomes of one dispatch. *)
Definition rewritten an p queue st st' d : Prop :=
  pk_header d = pk_header p ∧ pk_geometry d = pk_geometry p ∧
  ∃ ki, pending_signals_ st' !! pk_completion_signal d = Some ki ∧
    ki_signal ki = pk_completion_signal p ∧
    ki_name ki = ld_name (default no_kernel (kernel_objects_ st !! pk_kernel_object p)) ∧
    match ki_comms_obj ki with
    | None =>
        same_kernel p d ∧ memory_ st' = memory_ st ∧ pending_kernargs_ st' = pending_kernargs_ st
    | Some c =>
        c = an_comms an ∧ runs_clone an (default 0 (queues_ st !! queue)) p d st (memory_ st') ∧
        pending_kernargs_ st' = <[pk_completion_signal d := pk_kernarg_address d]> (pending_kernargs_ st)
    end.

Lemma fixupPacket_rewritten an p queue id st st' d :
  fixupPacket draw set_context handlers_by_default comgr_metadata an p queue id st = (st', Ok d) →
  rewritten an p queue st st' d.
Proof.
  unfold fixupPacket, rewritten. intros H. apply bind_Ok in H as (sig&st1&Hsig&H).
  apply (within_Ok _ _ _ _ _ (tables_take_signal _)) in Hsig as T1.
  apply bind_Ok in H as ([d1 comms]&st2&Hch&H). apply choose_kernel_chooses in Hch.
  apply bind_Ok in H as (kd&st3&Hkd&H). apply bind_Ok in H as (agent&st4&Hag&H). calls H. cbn.
  assert (kd = default no_kernel (kernel_objects_ st !! pk_kernel_object p) ∧
    pending_kernargs_ st3 = pending_kernargs_ st2 ∧ memory_ st3 = memory_ st2) as (->&Hpk3&Hm3).
  { destruct Hch as (_&_&_&Hk2&_). destruct T1 as (Hk1&_). rewrite <-Hk1, <-Hk2. unfold kernel_at in Hkd.
    calls Hkd. destruct (kernel_objects_ st2 !! pk_kernel_object p); by calls Hkd. }
  apply (within_Ok _ _ _ _ _ (tables_queue_agent _)) in Hag as (_&_&Hm4&_&Hpk4&_&_).
  destruct Hch as (Hh&Hg&Hs&Hk2&Hps2&Hch). pose proof T1 as (_&_&Hm1&_&Hpk1&_&Hq1). cbn [fst snd] in *.
  rewrite <-Hq1. split_and!; [done..|]. eexists. rewrite lookup_insert_eq. split; [done|]. cbn.
  split_and!; [done..|]. rewrite Hm4, Hm3, Hpk4, Hpk3. destruct comms as [c|].
  - destruct Hch as (->&Hrc&Hpk). split_and!; [done| |congruence].
    apply (tables_clone _ _ _ _ _ _ _ T1) in Hrc. by destruct Hrc; split.
  - destruct Hch as ((?&?&?&?)&?&?). unfold same_kernel. cbn. split_and!; congruence.
Qed.

(** C3. One dispatch.  Whatever the interceptor knows, the packet it hands to the
    queue has the geometry of the application's, and a completion signal under
    which the dispatch is pending with the application's own signal and the name
    registered for its kernel.  Either kernel, arguments and segment sizes are the
    application's and no memory changed; or the run is instrumented, the kernel
    object is the clone that the cache has for the registered kernel, the segment
    sizes are those of the clone's descriptor, and the argument segment, entered
    to be freed with the signal, is what [fixupKernArgs] makes of the
    application's arguments. *)
Theorem fixupPacket_rewrites an p queue id st st' d :
  fixupPacket draw set_context handlers_by_default comgr_metadata an p queue id st = (st', Ok d) →
  pk_header d = pk_header p ∧ pk_geometry d = pk_geometry p ∧
  ∃ ki, pending_signals_ st' !! pk_completion_signal d = Some ki ∧
    ki_signal ki = pk_completion_signal p ∧
    ki_name ki = ld_name (default no_kernel (kernel_objects_ st !! pk_kernel_object p)) ∧
    match ki_comms_obj ki with
    | None =>
        same_kernel p d ∧ memory_ st' = memory_ st ∧ pending_kernargs_ st' = pending_kernargs_ st
    | Some c =>
        c = an_comms an ∧ runs_clone an (default 0 (queues_ st !! queue)) p d st (memory_ st') ∧
        pending_kernargs_ st' = <[pk_completion_signal d := pk_kernarg_address d]> (pending_kernargs_ st)
    end.
Proof. apply fixupPacket_rewritten. Qed.
End rewrite.

(** ** A batch of packets *)
Section batch.
Context {rng handler : Type} (draw : rng → Z * rng).
Context (set_context : bytes → handler → handler) (handlers_by_default : bytes → Z → list handler).
Context `{HL : HsaLoader} {node : Type} {CG : Comgr node} (comgr_metadata : bytes → option node).
Abbreviation state := (interceptor rng handler).
Implicit Types (st : state).

(** What the queue gets for a packet; [instrumented]: the mode of the run. *)
Definition writes (instrumented : bool) (p w : packet) : Prop :=
  if getHeaderType p =? HSA_PACKET_TYPE_KERNEL_DISPATCH
  then pk_header w = pk_header p ∧ pk_geometry w = pk_geometry p ∧
       (same_kernel p w ∨ (instrumented = true ∧ pk_kernel_object w ≠ 0 ∧ pk_kernarg_address w ≠ 0))
  else w = p.

Lemma do_packet_writes an queue p st st' r :
  do_packet draw set_context handlers_by_default comgr_metadata an queue p st = (st', r) →
  run_instrumented_ st' = run_instrumented_ st ∧
  match r with
  | Ok _ => ∃ w, written (trace_ st') = written (trace_ st) ++ [w] ∧ writes (run_instrumented_ st) p w
  | Err _ => written (trace_ st') = written (trace_ st)
  end.
Proof.
  unfold do_packet, writes. destruct (getHeaderType p =? _).
  - unfold gets, modify, mbind, M_bind. set (id := u64 _). set (st1 := set_dispatch_count id st).
    pose proof (inert_fixupPacket draw set_context handlers_by_default comgr_metadata an p queue id st1) as Hin.
    destruct (fixupPacket _ _ _ _ _ _ _ _ st1) as [st2 [d|f]] eqn:Hf; cbn in Hin; destruct Hin as [Hw Hm].
    + apply fixupPacket_rewritten in Hf as (Hh&Hg&ki&_&_&_&Hc).
      intros [= <- <-]. split; [done|]. exists d. split.
      * cbn. unfold written at 1. rewrite omap_app. cbn. by f_equal.
      * split_and!; [done..|]. destruct (ki_comms_obj ki).
        -- destruct Hc as (_&Hrc&_). right. destruct Hrc. done.
        -- destruct Hc as [? _]. by left.
    + by intros [= <- <-].
  - intros [= <- <-]. split; [done|]. exists p. split; [|done].
    cbn. unfold written at 1. by rewrite omap_app.
Qed.

Lemma packet_loop_writes queue batch st st' r :
  packet_loop draw set_context handlers_by_default comgr_metadata queue batch st = (st', r) →
  ∃ ws, written (trace_ st') = written (trace_ st) ++ ws ∧
    Forall2 (writes (run_instrumented_ st)) (take (length ws) batch.*1) ws ∧
    (if r is Ok _ then length ws = length batch else (length ws < length batch)%nat).
Proof.
  revert st. induction batch as [|[p an] batch IH]; intros st; cbn [packet_loop].
  - intros [= <- <-]. exists []. by rewrite app_nil_r.
  - unfold mbind, M_bind. destruct (do_packet _ _ _ _ _ _ _ st) as [st1 r1] eqn:Hd.
    apply do_packet_writes in Hd as [Hm Hd]. destruct r1 as [[]|f].
    + destruct Hd as (w&Hw&Hp). intros (ws&Hws&Hall&Hlen)%IH. exists (w :: ws). split_and!.
      * by rewrite Hws, Hw, <-(assoc_L (++)).
      * cbn. constructor; [done|]. by rewrite <-Hm.
      * destruct r; cbn; lia.
    + intros [= <- <-]. exists []. rewrite app_nil_r. split_and!; [done|constructor|cbn; lia].
Qed.

(** C8. A batch.  The packets handed to the queue are those of the batch, in
    their order and one for one: what is not a dispatch is passed on as it is, a
    dispatch keeps its header and geometry, and keeps its kernel, arguments and
    segment sizes unless the run is instrumented.  No exception leaves
    [doPackets]: when one packet throws, the packets from it on are never handed
    to the queue. *)
Theorem doPackets_in_order queue batch st st' r :
  doPackets draw set_context handlers_by_default comgr_metadata queue batch st = (st', r) →
  (∀ what, r ≠ Err (FThrow what)) ∧
  ∃ ws, written (trace_ st') = written (trace_ st) ++ ws ∧
    Forall2 (writes (run_instrumented_ st)) (take (length ws) batch.*1) ws ∧
    (r = Ok () → length ws = length batch ∨
       ((length ws < length batch)%nat ∧ list.last (trace_ st') = Some BatchDropped)).
Proof.
  unfold doPackets. destruct (packet_loop _ _ _ _ _ _ st) as [st1 r1] eqn:Hl.
  apply packet_loop_writes in Hl as (ws&Hws&Hall&Hlen). destruct r1 as [[]|[| | | |]].
  4: { intros [= <- <-]. split; [done|]. exists ws. split_and!; [|done|].
       - cbn. unfold written at 1. rewrite omap_app. cbn. by rewrite app_nil_r.
       - intros _. right. split; [done|]. cbn. by rewrite last_snoc. }
  all: intros [= <- <-]; split; [done|]; exists ws; split_and!; [done..|]; try done; by left.
Qed.
End batch.

(** ** The signal thread *)
Section thread.
Context {rng handler : Type}.
Abbreviation state := (interceptor rng handler).
Implicit Types (st : state).

Fixpoint run_thread (n : nat) (value : Z → Z) (times : Z → Z * Z) (r : runner) : M rng handler runner :=
  match n with
  | O => mret r
  | S n' => r' ← signal_runner value times r; run_thread n' value times r'
  end.

Lemma signalCompleted_total sig s e st :
  ∃ st', signalCompleted sig s e st = (st', Ok ()) ∧
    pending_signals_ st' = delete sig (pending_signals_ st) ∧ shutting_down_ st' = shutting_down_ st.
Proof.
  unfold signalCompleted. destruct (pending_signals_ st !! sig) as [ki|] eqn:Hki;
    unfold gets, mbind at 1, M_bind at 1; rewrite Hki.
  2: { exists st. by rewrite delete_id. }
  unfold mbind, M_bind, emit, modify, gets, mret, M_ret.
  repeat case_match; simplify_eq; eexists; split_and!; reflexivity.
Qed.

(** The thread looks at the signals of a list whose kernels are done. *)
Lemma thread_pass value times l st :
  (∀ s, s ∈ l → value s = 0) →
  ∃ st', (∀ n, run_thread (length l + n) value times (InPass l) st = run_thread n value times (InPass []) st') ∧
    (∀ s, pending_signals_ st' !! s = if decide (s ∈ l) then None else pending_signals_ st !! s) ∧
    shutting_down_ st' = shutting_down_ st.
Proof.
  intros Hv. revert st. induction l as [|sig l IH]; intros st.
  { exists st. split_and!; [done| |done]. intros s. by rewrite decide_False by apply not_elem_of_nil. }
  destruct (signalCompleted_total sig (times sig).1 (times sig).2 st) as (st1&Hs&Hp&Hd).
  destruct (IH ltac:(intros; apply Hv; by right) st1) as (st'&Hrun&Hp'&Hd').
  exists st'. split_and!; [intros n|intros s|congruence].
  - cbn [length Nat.add run_thread signal_runner]. rewrite (Hv sig), Z.eqb_refl by left.
    unfold mbind, M_bind in *. rewrite Hs. cbn. exact (Hrun n).
  - rewrite Hp', Hp. destruct (decide (s = sig)) as [->|Hne].
    + rewrite lookup_delete_eq, (decide_True (P := sig ∈ sig :: l)) by left. by case_decide.
    + rewrite lookup_delete_ne by done. repeat case_decide; set_solver.
Qed.

Lemma thread_idle value times st :
  pending_signals_ st = ∅ → run_thread 1 value times (InPass []) st = (st, Ok AtTest).
Proof.
  intros Hp. unfold run_thread, signal_runner, gets, mbind, M_bind, mret, M_ret, getPendingSignals.
  rewrite Hp. reflexivity.
Qed.

Lemma pending_items st : pending_signals_ st ≠ ∅ → (map_items (pending_signals_ st)).*1 ≠ [].
Proof.
  intros Hne Hnil. apply fmap_nil_inv in Hnil. apply Hne, map_to_list_empty_iff, Permutation_nil.
  by rewrite <-map_items_perm, Hnil.
Qed.

Lemma thread_drains value times l st :
  (∀ s, s ∈ l ∨ s ∈ dom (pending_signals_ st) → value s = 0) →
  ∃ n st', run_thread n value times (InPass l) st = (st', Ok AtTest) ∧
    pending_signals_ st' = ∅ ∧ (n ≤ length l + size (pending_signals_ st) + 2)%nat.
Proof.
  intros Hv. destruct (decide (pending_signals_ st = ∅ ∧ l = [])) as [[Hp ->]|_].
  { exists 1%nat, st. split_and!; [by apply thread_idle|done|cbn; lia]. }
  destruct (thread_pass value times l st) as (st1&Hrun&Hp1&_); [by auto|].
  destruct (decide (pending_signals_ st1 = ∅)) as [He|Hne].
  { exists (length l + 1)%nat, st1. rewrite Hrun. split_and!; [by apply thread_idle|done|lia]. }
  set (keys := (map_items (pending_signals_ st1)).*1).
  assert (∀ s, s ∈ keys ↔ s ∈ dom (pending_signals_ st1)) as Hkeys.
  { intros s. unfold keys. rewrite map_items_perm, elem_of_dom, list_elem_of_fmap. split.
    - intros ([k v]&->&Hk%elem_of_map_to_list). by exists v.
    - intros [v Hk]. exists (s, v). by rewrite elem_of_map_to_list. }
  assert (pending_signals_ st1 ⊆ pending_signals_ st) as Hsub.
  { apply map_subseteq_spec. intros s v. rewrite Hp1. by case_decide. }
  destruct (thread_pass value times keys st1) as (st2&Hrun2&Hp2&_).
  { intros s Hs%Hkeys. apply Hv. right. by apply (subseteq_dom _ _ Hsub). }
  exists (length l + S (length keys + 1))%nat, st2. rewrite Hrun. split_and!.
  - cbn [run_thread signal_runner]. unfold gets, mbind, M_bind, getPendingSignals. cbn [fst snd].
    rewrite app_nil_l, bool_decide_true by (by apply pending_items). unfold mret, M_ret. fold keys.
    change (run_thread (length keys + 1) value times (InPass keys) st1 = (st2, Ok AtTest)).
    rewrite Hrun2. apply thread_idle. apply map_empty. intros s. rewrite Hp2.
    case_decide as Hs; [done|]. apply not_elem_of_dom. by rewrite <-Hkeys.
  - apply map_empty. intros s. rewrite Hp2. case_decide as Hs; [done|].
    apply not_elem_of_dom. by rewrite <-Hkeys.
  - unfold keys. rewrite length_fmap, (Permutation_length (map_items_perm _)), length_map_to_list.
    apply subseteq_dom, subseteq_size in Hsub. rewrite !size_dom in Hsub. lia.
Qed.

Lemma wait_for_drain_spec fuel pending i :
  (wait_for_drain fuel pending i ≤ fuel + i)%nat ∧
  (wait_for_drain fuel pending i = (fuel + i)%nat ∨ pending (wait_for_drain fuel pending i) = false).
Proof.
  revert i. induction fuel as [|fuel IH]; intros i; cbn [wait_for_drain]; [split; [lia|by left]|].
  destruct (pending i) eqn:Hp; [|split; [lia|by right]].
  destruct (IH (S i)) as [? [?|?]]; split; first [lia|by right|left; lia].
Qed.

(** C9. The signal thread.  Once it is inside a pass, with any list of signals
    still to look at, and the kernels of these and of all pending dispatches are
    done, it completes all of them in finitely many steps, shutdown or not, and
    only then returns to its test; from the test it begins a pass when something
    is pending and no shutdown was requested.  After a shutdown request the test
    ends the thread whatever is pending: a dispatch submitted, or a request made,
    while the thread sleeps between passes is never completed, and
    [ensure_shutdown] gives up after a thousand waits. *)
Theorem signal_thread_completes value times l st :
  (∀ s, s ∈ l ∨ s ∈ dom (pending_signals_ st) → value s = 0) →
  (∃ n st', run_thread n value times (InPass l) st = (st', Ok AtTest) ∧
     pending_signals_ st' = ∅ ∧ (n ≤ length l + size (pending_signals_ st) + 2)%nat) ∧
  (shutting_down_ st = false → pending_signals_ st ≠ ∅ →
     ∃ l', run_thread 1 value times AtTest st = (st, Ok (InPass l')) ∧ l' ≡ₚ pending_keys st) ∧
  (shutting_down_ st = true → run_thread 1 value times AtTest st = (st, Ok Exited)) ∧
  (∀ pending, (ensure_shutdown pending ≤ 1000)%nat ∧
     (ensure_shutdown pending = 1000%nat ∨ pending (ensure_shutdown pending) = false)).
Proof.
  intros Hv. split_and!.
  - destruct (thread_drains value times l st Hv) as (n&st'&?&?&?). by exists n, st'.
  - intros Hd Hp. exists (map_items (pending_signals_ st)).*1. split.
    + unfold run_thread, signal_runner, gets, mbind, M_bind, mret, M_ret, shuttingdown. rewrite Hd. cbn.
      by rewrite bool_decide_true by (by apply pending_items).
    + unfold pending_keys, pending_list. by rewrite map_items_perm.
  - intros Hd. unfold run_thread, signal_runner, gets, mbind, M_bind, mret, M_ret, shuttingdown. by rewrite Hd.
  - intros pending. destruct (wait_for_drain_spec 1000 pending 0) as [? ?]. unfold ensure_shutdown. split; [lia|].
    rewrite <-(Nat.add_0_r 1000) at 1. done.
Qed.
End thread.

(** ** Registered kernels *)
Section registered.
Context {rng handler : Type} (draw : rng → Z * rng).
Context (set_context : bytes → handler → handler) (handlers_by_default : bytes → Z → list handler).
Context `{HL : HsaLoader} {node : Type} {CG : Comgr node} (comgr_metadata : bytes → option node).
Abbreviation state := (interceptor rng handler).
Abbreviation run := (M rng handler).
Implicit Types (st : state).

(** Entries of the kernel table are never changed nor removed. *)
Definition kernels_kept st st' : Prop := kernel_objects_ st ⊆ kernel_objects_ st'.
#[export] Instance kernels_kept_preorder : PreOrder kernels_kept.
Proof. unfold kernels_kept. split; [by intros ?|]. intros ???. apply transitivity. Qed.

Lemma tables_kept st st' : same_tables st st' → kernels_kept st st'.
Proof. intros [Hk _]. unfold kernels_kept. by rewrite Hk. Qed.

Lemma kept_kernel_at ko : within kernels_kept (kernel_at ko : run _).
Proof.
  intros st. unfold kernel_at, gets, modify, mbind, M_bind. cbn.
  destruct (kernel_objects_ st !! ko) eqn:Hk; [done|]. cbn. unfold kernels_kept. cbn. by apply insert_subseteq.
Qed.

Ltac kept := within; try (unfold kernels_kept; reflexivity).

Lemma kept_primitive : primitive kernels_kept.
Proof.
  split; try (intros; unfold kernels_kept; reflexivity); [|exact kept_kernel_at].
  intros rq st. unfold thread_step, gets, modify, mbind, M_bind, mret, M_ret. cbn.
  destruct (kernel_objects_ st !! rq_object rq) eqn:Hk; [done|]. cbn. unfold kernels_kept. cbn.
  by apply insert_subseteq.
Qed.

Lemma called_kept t :
  called draw set_context handlers_by_default comgr_metadata t → thread_acts kernels_kept t.
Proof.
  intros [c ->]. apply call_acts; [apply _|apply kept_primitive|]. destruct c; try done. unfold signalCompleted. kept.
Qed.

(** C38. A dispatch of a kernel object nobody has asked the runtime for yet is
    passed on with its own kernel, but enters the kernel object with an empty
    name; whatever the calls of any number of threads do later, that entry stays:
    registering the kernel then does nothing, so its dispatches are looked up under
    the empty name and reported under it. *)
Theorem unregistered_stays_unnamed an p queue id st st1 d ts own x :
  kernel_objects_ st !! pk_kernel_object p = None →
  fixupPacket draw set_context handlers_by_default comgr_metadata an p queue id st = (st1, Ok d) →
  Forall (called draw set_context handlers_by_default comgr_metadata) ts →
  rtc (calls_step draw set_context handlers_by_default comgr_metadata) (Config ts own st1) x →
  same_kernel p d ∧ kernel_objects_ (shared x) !! pk_kernel_object p = Some no_kernel ∧
  ∀ name symbol agent size,
    addKernel (pk_kernel_object p) name symbol agent size (shared x) = (shared x, Ok ()).
Proof.
  intros Hnone H Hts Hrtc.
  assert (kernel_objects_ st1 !! pk_kernel_object p = Some no_kernel) as H1.
  { unfold fixupPacket in H. apply bind_Ok in H as (sig&s1&Hsig&H).
    apply (within_Ok _ _ _ _ _ (tables_take_signal _)) in Hsig as (Hk1&_).
    apply bind_Ok in H as ([d1 comms]&s2&Hch&H).
    apply choose_kernel_chooses in Hch as (_&_&_&Hk2&_). apply bind_Ok in H as (kd&s3&Hkd&H).
    apply bind_Ok in H as (agent&s4&Hag&H).
    apply (within_Ok _ _ _ _ _ (tables_queue_agent _)) in Hag as (Hk4&_). calls H. cbn. rewrite Hk4.
    unfold kernel_at in Hkd. calls Hkd. rewrite Hk2, Hk1, Hnone in Hkd. calls Hkd. cbn. apply lookup_insert_eq. }
  assert (kernels_kept st1 (shared x)) as Hkept.
  { assert (Forall (thread_acts kernels_kept) ts) as Hacts by (eapply list.Forall_impl; [exact Hts|apply called_kept]).
    clear -Hrtc Hacts. change st1 with (shared (Config ts own st1)).
    change ts with (threads (Config ts own st1)) in Hacts. revert Hrtc Hacts. generalize (Config ts own st1).
    induction 1 as [y|y z w Hyz _ IH]; intros Hacts; [unfold kernels_kept; reflexivity|].
    apply (config_acts _ _ kernels_kept) in Hyz as [Hk Hz]; [|apply _|apply called_kept| |done].
    - etrans; [exact Hk|]. by apply IH.
    - intros s s' [mem ->]. unfold kernels_kept. reflexivity. }
  assert (kernel_objects_ (shared x) !! pk_kernel_object p = Some no_kernel) as H2 by by eapply lookup_weaken.
  split_and!; [|done|].
  - apply fixupPacket_rewritten in H as (_&_&ki&_&_&_&Hc). destruct (ki_comms_obj ki); [|by destruct Hc].
    destruct Hc as (_&[_ (kd&?&?&?&?&Hk&_)]&_). by rewrite Hnone in Hk.
  - intros. unfold addKernel, gets, mbind, M_bind. by rewrite H2.
Qed.
End registered.

(** ** Witnesses *)
Abbreviation ex_fixup :=
  (fixupPacket (HL := example_loader) (rng := Z) (λ g, (g, g)) (λ _ h, h) default_handlers example_metadata).
Definition ex_dispatch : packet := Packet 2 [64; 1; 1] 0 0 2000 8192 18.

Lemma fixupPacket_rewrites_witness :
  ∃ st' ki, ex_fixup example_answers example_packet 3 1 ex3 = (st', Ok ex_dispatch) ∧
    pending_signals_ st' !! 18 = Some ki ∧ ki_signal ki = 90.
Proof.
  assert (ex_fixup example_answers example_packet 3 1 ex3
          = ((ex_fixup example_answers example_packet 3 1 ex3).1, Ok ex_dispatch)) as Hrun.
  { apply outcome; [reflexivity|vm_compute; reflexivity]. }
  destruct (fixupPacket_rewrites (HL := example_loader) _ _ _ _ _ _ _ _ _ _ _ Hrun) as (_&_&ki&Hki&Hs&_).
  eexists _, ki. split; [exact Hrun|]. split; [exact Hki|exact Hs].
Defined.

(** A batch of a barrier packet and a dispatch. *)
Definition ex_batch : list (packet * answers) :=
  [(Packet 3 [] 0 0 0 0 0, example_answers); (example_packet, example_answers)].
Abbreviation ex_doPackets :=
  (doPackets (HL := example_loader) (rng := Z) (λ g, (g, g)) (λ _ h, h) default_handlers example_metadata).

Lemma doPackets_in_order_witness :
  ∃ ws, written (trace_ (ex_doPackets 3 ex_batch ex3).1) = written (trace_ ex3) ++ ws ∧
    Forall2 (writes true) (take (length ws) ex_batch.*1) ws.
Proof.
  assert (ex_doPackets 3 ex_batch ex3 = ((ex_doPackets 3 ex_batch ex3).1, Ok ())) as Hrun.
  { apply outcome; [reflexivity|vm_compute; reflexivity]. }
  destruct (doPackets_in_order (HL := example_loader) _ _ _ _ _ _ _ _ _ Hrun) as (_&ws&Hws&Hall&_).
  exists ws. split; [exact Hws|].
  assert (run_instrumented_ ex3 = true) as Hm by (vm_compute; reflexivity). rewrite Hm in Hall. exact Hall.
Defined.

Lemma signal_thread_completes_witness :
  ∃ n st', run_thread n (λ _, 0) (λ _, (5, 6)) (InPass []) ex4 = (st', Ok AtTest) ∧ pending_signals_ st' = ∅.
Proof.
  destruct (signal_thread_completes (λ _, 0) (λ _, (5, 6)) [] ex4) as [(n&st'&Hrun&Hp&_) _].
  - intros s _. reflexivity.
  - exists n, st'. split; [exact Hrun|exact Hp].
Defined.

Definition ex_unknown : packet := Packet 2 [64; 1; 1] 0 0 3000 4000 0.

Lemma unregistered_stays_unnamed_witness :
  kernel_objects_ (ex_fixup example_answers ex_unknown 3 1 ex3).1 !! 3000 = Some no_kernel.
Proof.
  assert ((ex_fixup example_answers ex_unknown 3 1 ex3)
          = ((ex_fixup example_answers ex_unknown 3 1 ex3).1, Ok (Packet 2 [64; 1; 1] 0 0 3000 4000 18))) as Hrun.
  { apply outcome; [reflexivity|vm_compute; reflexivity]. }
  assert (kernel_objects_ ex3 !! 3000 = None) as Hnone by (vm_compute; reflexivity).
  exact (proj1 (proj2 (unregistered_stays_unnamed (HL := example_loader) _ _ _ _ _ ex_unknown _ _ _ _ _ [] ∅ _
    Hnone Hrun (list.Forall_nil_2 _) (rtc_refl _ _)))).
Defined.
