(* ===== verification/CacheState.v ===== *)
(** * The code-object cache of a running interceptor

    [CoCache.cache_wf], the invariant of the cache's tables, holds at every point of
    every run: [start] sets it up, and no critical section of a submission,
    completion, registration or loading ([src/interceptor.cc], [src/utils.cc]) breaks
    it, wherever the other threads are and whatever the exceptions on the way. *)
From S2P Require Import Prelude StdString Names KernArgs CoCache Dispatch Comms LibraryFilter Interceptor Registration Sections Calls Bookkeeping PacketRewrite.

Section sound.
Context {rng handler : Type} (draw : rng → Z * rng).
Context (set_context : bytes → handler → handler) (handlers_by_default : bytes → Z → list handler).
Context `{HL : HsaLoader} {node : Type} {CG : Comgr node} (comgr_metadata : bytes → option node).
Context `{FS : FileSystem} (dlopen : bytes → option Z) (dlsym : Z → option (bytes → Z → list handler)).
Abbreviation state := (interceptor rng handler).
Abbreviation run := (M rng handler).
Abbreviation prog := (prog rng handler).
Implicit Types (st : state) (c : coCache).

Definition sound st : Prop := cache_wf (isExcluded (library_filter_ st)) (kernel_cache_ st).

(** The filter is set once; under it the cache stays sound. *)
Definition keeps_sound st st' : Prop :=
  library_filter_ st' = library_filter_ st ∧ (sound st → sound st').

#[export] Instance keeps_sound_preorder : PreOrder keeps_sound.
Proof. split; [by intros st|]. intros st1 st2 st3 [E1 H1] [E2 H2]. split; [congruence|auto]. Qed.

Lemma keeps_cache {A} (op : coCache → res (A * coCache)) :
  (∀ isExcl c a c', cache_wf isExcl c → op c = Ok (a, c') → cache_wf isExcl c') →
  within keeps_sound (with_cache op : run A).
Proof.
  intros Hop st. unfold with_cache. destruct (op (kernel_cache_ st)) as [[a c]|f] eqn:E; [|done].
  split; [done|]. intros H. by eapply Hop.
Qed.

Ltac sound := within; try by split.

Lemma sound_grow_pool n signals : within keeps_sound (grow_pool n signals : run unit).
Proof. revert signals. induction n as [|n IH]; intros signals; cbn [grow_pool]; sound. Qed.
Hint Resolve sound_grow_pool : within.

(** ** The constructor *)
Lemma sound_try_addFile agent flt file :
  within keeps_sound (try_addFile comgr_metadata agent flt file : run unit).
Proof.
  intros st. unfold try_addFile. destruct (addFile _ _ _ _ _) as [c|[]] eqn:E; try done.
  split; [done|]. intros H. by eapply addFile_wf.
Qed.
Hint Resolve sound_try_addFile : within.

Lemma sound_startup_files agent flt files :
  within keeps_sound (add_startup_files comgr_metadata agent flt files : run unit).
Proof. induction files as [|file files IH]; cbn [add_startup_files]; sound. Qed.
Hint Resolve sound_startup_files : within.

Lemma sound_start_agents env gpus : within keeps_sound (start_agents comgr_metadata env gpus : run unit).
Proof.
  assert (∀ agent dir listing flt,
    within keeps_sound (with_cache (setLocation comgr_metadata agent dir listing flt) : run _)) as Hset.
  { intros agent dir listing flt. apply keeps_cache. intros isExcl c a c' Hwf H. by eapply setLocation_wf. }
  induction gpus as [|agent gpus IH]; cbn [start_agents]; unfold start_agent; sound.
Qed.
Hint Resolve sound_start_agents : within.

Lemma start_sound env seed pool mgr st :
  start comgr_metadata dlopen dlsym env (blank env seed pool mgr) = (st, Ok ()) → sound st.
Proof.
  unfold start. intros H. cbv zeta in H. calls H.
  apply lift_Ok in Hcall as [-> Hc]. assert (a = new_coCache) as ->.
  { unfold coCache_coCache in Hc. destruct (env_loader_table env); cbn in Hc; [|done]. by injection Hc. }
  apply lift_Ok in Hcall0 as [-> _].
  assert (kernel_cache_ st2 = new_coCache) as E1.
  { destruct (config_at _ _) as [|ch rest]; [by calls Hcall1|].
    apply bind_Ok in Hcall1 as ([b f] & st' & Hl & Hcall1). apply lift_Ok in Hl as [-> _].
    by calls Hcall1. }
  set (stf := set_run_instrumented _ _) in Hcall2.
  assert (sound stf) as Hs.
  { unfold sound. change (kernel_cache_ stf) with (kernel_cache_ st2). rewrite E1. apply new_coCache_wf. }
  assert (keeps_sound stf st) as [_ Hk]; [|by apply Hk].
  etrans; [|etrans]; [| |refine (within_Ok _ _ _ _ _ _ H); sound].
  - refine (within_Ok _ _ _ _ _ _ Hcall2). sound.
  - refine (within_Ok _ _ _ _ _ _ Hcall3). sound.
Qed.

(** ** Every critical section

    What holds between any two of them, under the filter [filt]. *)
Section sections.
Context (filt : LibraryFilter).

Definition intact st : Prop := library_filter_ st = filt ∧ cache_wf (isExcluded filt) (kernel_cache_ st).
(** Argument sizes are never forgotten. *)
Definition sizes_kept c c' : Prop := dom (kernarg_sizes_ c) ⊆ dom (kernarg_sizes_ c').
#[local] Instance sizes_kept_preorder : PreOrder sizes_kept.
Proof. split; [by intros c ?|]. intros c1 c2 c3 H1 H2. unfold sizes_kept in *. by etrans. Qed.
Definition grown st st' : Prop := sizes_kept (kernel_cache_ st) (kernel_cache_ st').
#[local] Instance grown_preorder : PreOrder grown.
Proof. split; [intros st; unfold grown; reflexivity|]. intros st1 st2 st3 H1 H2. unfold grown in *. by etrans. Qed.

Program Definition cache_discipline : discipline application := {|
  always := intact;
  at_rest _ := True;
  near := grown;
  far := grown;
|}.
Next Obligation. done. Qed.
Next Obligation. done. Qed.
Next Obligation. intros st st' [m ->] H. split; [by intros ?|exact H]. Qed.
Abbreviation safe := (safe application cache_discipline).

Definition intact_handler (k : option (state → state)) : Prop :=
  match k with Some handle => ∀ st, intact st → intact (handle st) ∧ grown st (handle st) | None => True end.

(** [p], from [P], holding the interceptor's lock or not: every section leaves the
    cache intact, and the last one [Q]. *)
Definition sections_ok {A} (h : bool) (P : state → Prop) (p : prog A) (Q : A → state → Prop) : Prop :=
  ∀ k st, intact_handler k → P st → safe k h p (λ h' a st', h' = h ∧ Q a st') st.
Definition lasting (P : state → Prop) : Prop := ∀ st st', P st → grown st st' → intact st' → P st'.

(** One action. *)
Definition keeps_intact {A} (P : state → Prop) (m : run A) (Q : A → state → Prop) : Prop :=
  ∀ st, P st → intact st →
    wp m (λ a st', intact st' ∧ grown st st' ∧ Q a st') (λ st', intact st' ∧ grown st st') st.

Lemma rely_grown h st st' : rely application cache_discipline h st st' → grown st st'.
Proof. by destruct h. Qed.

Lemma sections_bind {A B} h P (p : prog A) (k : A → prog B) R Q :
  sections_ok h P p R → (∀ a, sections_ok h (R a) (k a) Q) → sections_ok h P (p ≫= k) Q.
Proof.
  intros Hp Hk handle st Hh HP. apply safe_bind. eapply safe_mono; [by apply Hp|].
  intros h' a st' _ [-> HR]. by apply Hk.
Qed.
Lemma sections_ret {A} h (P : state → Prop) (a : A) : lasting P → sections_ok h P (mret a) (λ _, P).
Proof. intros HP k st _ Hst st1 Hr HI. split; [done|]. eapply HP; [done|by eapply rely_grown|done]. Qed.
Lemma sections_weaken {A} h P (p : prog A) Q : sections_ok h P p Q → sections_ok h P p (λ _ _, True).
Proof. intros Hp k st Hk HP. eapply safe_mono; [by apply Hp|]. by intros h' a st' _ [? _]. Qed.

Lemma sections_Act {A} h ok P (m : run A) Q :
  lasting P → (∀ a, lasting (Q a)) → keeps_intact P m Q → sections_ok h P (Act ok m mret) Q.
Proof.
  intros HP HQ Hm k st Hk Hst. apply safe_Act. intros st1 Hr HI _.
  assert (P st1) as HP1 by (eapply HP; [done|by eapply rely_grown|done]).
  specialize (Hm st1 HP1 HI). unfold wp in *. destruct (m st1) as [st2 [a|[]]]; try done.
  - destruct Hm as (HI2&Hg&Ha). split_and!; [done|by destruct h|].
    intros st3 Hr3 HI3. split; [done|]. eapply HQ; [done|by eapply rely_grown|done].
  - destruct Hm as [HI2 Hg]. destruct k as [handle|]; [|done]. destruct (Hk _ HI2) as [HI3 Hg3].
    split_and!; [done| |done]. assert (grown st1 (handle st2)) by (by etrans). by destruct h.
Qed.
Lemma sections_act {A} h P (m : run A) Q :
  lasting P → (∀ a, lasting (Q a)) → keeps_intact P m Q → sections_ok h P (act m) Q.
Proof. apply sections_Act. Qed.

Lemma lasting_settled {A} h (Q : A → state → Prop) :
  (∀ a, lasting (Q a)) → settled application cache_discipline (λ h' a st', h' = h ∧ Q a st').
Proof. intros HQ h' a st st' [-> Ha] Hr HI. split; [done|]. eapply HQ; [done|by eapply rely_grown|done]. Qed.

Lemma sections_cache_lock {A} h P (p : prog A) Q :
  (∀ a, lasting (Q a)) → sections_ok h P p Q → sections_ok h P (with_lock CacheLock p) Q.
Proof. intros HQ Hp k st Hk HP. apply safe_cache_lock; [by apply lasting_settled|]. by apply Hp. Qed.
Lemma sections_interceptor_lock {A} P (p : prog A) Q :
  lasting P → (∀ a, lasting (Q a)) → sections_ok true P p Q → sections_ok false P (with_lock InterceptorLock p) Q.
Proof.
  intros HP HQ Hp k st Hk Hst. apply safe_interceptor_lock; [by apply lasting_settled|].
  intros st1 Hr HI _. eapply safe_mono; [apply Hp; [done|]|].
  - by eapply HP.
  - intros h a st' _ [-> Ha]. split; [done|]. intros st2 Hr2 HI2. split; [done|]. split; [done|]. by eapply HQ.
Qed.

Lemma lasting_pure (φ : Prop) : lasting (λ _, φ).
Proof. by intros ??. Qed.
Lemma lasting_size (φ : Prop) ko : lasting (λ st, φ → is_Some (kernarg_sizes_ (kernel_cache_ st) !! ko)).
Proof. intros st st' H Hg _ Hφ. apply elem_of_dom, Hg, elem_of_dom. auto. Qed.
Hint Resolve lasting_pure lasting_size : core.

(** *** Kinds of actions *)
Abbreviation true_ := (λ _ : state, True).
Abbreviation any := (λ _ (_ : state), True).

(** Those that leave the cache and the filter alone. *)
Definition same_cache st st' : Prop := library_filter_ st' = library_filter_ st ∧ kernel_cache_ st' = kernel_cache_ st.
#[local] Instance same_cache_preorder : PreOrder same_cache.
Proof. split; [by intros st|]. intros st1 st2 st3 [??] [??]. split; congruence. Qed.
Lemma same_cache_intact st st' : same_cache st st' → intact st → intact st' ∧ grown st st'.
Proof. intros [Hf Hc] [H1 H2]. unfold intact, grown. rewrite Hf, Hc. split; [done|by intros ?]. Qed.
Lemma keeps_aside {A} P (m : run A) : within same_cache m → keeps_intact P m any.
Proof.
  intros Hm st _ HI. specialize (Hm st). unfold wp. destruct (m st) as [st' [a|[]]]; try done; cbn in Hm;
    destruct (same_cache_intact _ _ Hm HI); done.
Qed.

Lemma keeps_answer {A} P (r : res A) : keeps_intact P (lift r : run A) (λ a _, r = Ok a).
Proof. intros st _ HI. apply wp_lift; [by intros a ->; split_and!|by split]. Qed.

Lemma keeps_with_cache {A} P (op : coCache → res (A * coCache)) (Q : A → state → Prop) :
  (∀ c a c' st, cache_wf (isExcluded filt) c → op c = Ok (a, c') →
     cache_wf (isExcluded filt) c' ∧ sizes_kept c c' ∧ Q a (set_kernel_cache c' st)) →
  keeps_intact P (with_cache op) Q.
Proof.
  intros Hop st _ HI. pose proof HI as [HI1 HI2]. apply wp_cache; [|by split]. intros a c' E.
  destruct (Hop _ _ _ st HI2 E) as (?&?&?). by split_and!.
Qed.

Definition rewrites (f : coCache → coCache) : Prop :=
  ∀ c, cache_wf (isExcluded filt) c → cache_wf (isExcluded filt) (f c) ∧ sizes_kept c (f c).
Lemma keeps_write P f : rewrites f → keeps_intact P (write_cache f) any.
Proof. intros Hf st _ [H1 H2]. destruct (Hf _ H2) as [??]. by split_and!. Qed.

Lemma sizes_same c c' : kernarg_sizes_ c' = kernarg_sizes_ c → sizes_kept c c'.
Proof. unfold sizes_kept. by intros ->. Qed.

(** *** The programs *)
Create HintDb intact discriminated.
Abbreviation intact_prog h p := (sections_ok h true_ p any).
Ltac aside := within; try by split.

Lemma intact_ret {A} h (a : A) : intact_prog h (mret a).
Proof. eapply sections_weaken, sections_ret; auto. Qed.
Lemma intact_bind {A B} h (p : prog A) (k : A → prog B) :
  intact_prog h p → (∀ a, intact_prog h (k a)) → intact_prog h (p ≫= k).
Proof. by apply sections_bind. Qed.
Lemma intact_act {A} h (m : run A) : within same_cache m → intact_prog h (act m).
Proof. intros Hm. apply sections_act; [by auto..|]. by apply keeps_aside. Qed.
Lemma intact_locked {A} h (m : run A) : within same_cache m → intact_prog h (locked CacheLock m).
Proof. intros Hm. apply sections_cache_lock; [by auto|]. by apply intact_act. Qed.
Lemma intact_section {A} (m : run A) : within same_cache m → intact_prog false (locked InterceptorLock m).
Proof. intros Hm. apply sections_interceptor_lock; [by auto..|]. by apply intact_act. Qed.
Lemma intact_write h f : rewrites f → intact_prog h (locked CacheLock (write_cache f)).
Proof. intros Hf. apply sections_cache_lock; [by auto|]. apply sections_act; [by auto..|]. by apply keeps_write. Qed.
(** What follows an answer may use which one it was. *)
Lemma intact_answer {A B} h (r : res A) (k : A → prog B) :
  (∀ a, r = Ok a → intact_prog h (k a)) → intact_prog h (act (lift r) ≫= k).
Proof.
  intros Hk. apply (sections_bind _ _ _ _ (λ a _, r = Ok a)).
  - apply sections_act; [by auto..|]. apply keeps_answer.
  - intros a handle st Hh Ha. by apply Hk.
Qed.

(** One statement after the other; each branch of a test on its own. *)
Ltac intact :=
  repeat first
    [ match goal with |- ∀ _, _ => intros ? end
    | solve [auto with intact nocore]
    | simple apply intact_ret
    | simple apply intact_act; [solve [aside]]
    | simple apply intact_locked; [solve [unfold read_cache; aside]]
    | simple apply intact_section; [solve [aside]]
    | simple apply intact_bind
    | case_match ].

(** **** Looking things up *)
Lemma insert_alternative a symbol ko c :
  ko ≠ 0 → is_Some (kernarg_sizes_ c !! ko) → cache_wf (isExcluded filt) c →
  cache_wf (isExcluded filt) (set_alternatives (insert2 (alternatives_ c) a symbol ko) c).
Proof.
  intros Hko Hs [Ha Hr Hc Hd He]. split; cbn; try done.
  intros * [(<-&<-&<-)|?%Ha]%lookup2_insert2_Some; auto.
Qed.

Lemma findAlternative_keeps symbol name c ko c' :
  findAlternative symbol name c = Ok (ko, c') → sizes_kept c c'.
Proof.
  unfold findAlternative. intros (a&_&(?&_&Hc)%res_bind_Ok)%res_bind_Ok.
  destruct (lookup2 _ a name) as [kern|]; [|by simplify_eq].
  apply res_bind_Ok in Hc as (sz&_&(ko'&_&[= <- <-])%res_bind_Ok).
  destruct (kernarg_sizes_ c !! ko') eqn:Hk; [done|]. unfold sizes_kept. cbn. set_solver.
Qed.

Abbreviation sized ko := (λ st, ko ≠ 0 → is_Some (kernarg_sizes_ (kernel_cache_ st) !! ko)).

Lemma find_section h symbol name :
  sections_ok h true_ (locked CacheLock (with_cache (findAlternative symbol name))) (λ ko, sized ko).
Proof.
  apply sections_cache_lock; [by auto|]. apply sections_act; [by auto..|]. apply keeps_with_cache.
  intros c ko c' st Hwf H. pose proof (findAlternative_keeps _ _ _ _ _ H).
  by eapply findAlternative_wf in H as [??].
Qed.

Lemma intact_alternative h symbol name agent :
  intact_prog h (findInstrumentedAlternative_sections symbol name agent).
Proof.
  unfold findInstrumentedAlternative_sections. apply intact_bind.
  { apply sections_act; [by auto..|]. apply keeps_with_cache. intros c ko c' st Hwf [= H].
    split_and!; [by eapply known_alternative_wf in H as [? _]| |done].
    apply sizes_same. by rewrite <- (proj2 (known_alternative_frame symbol agent c)), H. }
  intros result. destruct (negb (result =? 0)); [apply intact_ret|].
  eapply sections_bind; [apply find_section|]. intros ko. cbv beta.
  destruct (Z.eqb_spec ko 0) as [|Hko].
  { intros handle st Hh _. by apply intact_ret. }
  apply (sections_bind _ _ _ _ any); [|intros []; apply intact_ret].
  apply sections_act; [by auto..|]. intros st Hs [H1 H2]. split_and!; [|by apply sizes_same|done].
  split; [done|]. apply insert_alternative; auto.
Qed.

Lemma intact_findAlternative h symbol name :
  intact_prog h (locked CacheLock (with_cache (findAlternative symbol name))).
Proof. eapply sections_weaken, find_section. Qed.
Hint Resolve intact_alternative intact_findAlternative : intact.

Lemma resolve_names_sizes agent helper names c :
  kernarg_sizes_ (foldl (resolve_name agent helper) c names) = kernarg_sizes_ c.
Proof.
  revert c. induction names as [|n names IH]; intros c; [done|]. cbn. rewrite IH. unfold resolve_name. by repeat case_match.
Qed.

Lemma intact_resolve_code_object h agent lco : intact_prog h (resolve_code_object_sections comgr_metadata agent lco).
Proof.
  unfold resolve_code_object_sections. destruct (code_object_bytes lco) as [data|]; [|apply intact_ret].
  apply intact_answer. intros helper Hh. apply intact_write. intros c Hwf. split.
  - apply resolve_names_wf; [by eapply addCodeObject_ok|done].
  - apply sizes_same, resolve_names_sizes.
Qed.
Hint Resolve intact_resolve_code_object : intact.

Lemma intact_resolve_code_objects h agent lcos :
  intact_prog h (resolve_code_objects_sections comgr_metadata agent lcos).
Proof. induction lcos; cbn [resolve_code_objects_sections]; intact. Qed.
Hint Resolve intact_resolve_code_objects : intact.
Lemma intact_resolve_kernels h agent processed kos :
  intact_prog h (resolve_kernels_sections comgr_metadata agent processed kos).
Proof. revert processed. induction kos; intros processed; cbn [resolve_kernels_sections]; intact. Qed.
Hint Resolve intact_resolve_kernels : intact.
Lemma intact_getArgDescriptor h agent name instrumented :
  intact_prog h (getArgDescriptor_sections comgr_metadata agent name instrumented).
Proof. unfold getArgDescriptor_sections, resolveRuntimeArgDescriptors_sections. intact. Qed.
Hint Resolve intact_getArgDescriptor : intact.

(** **** Packets *)
Lemma aside_grow_pool n signals : within same_cache (grow_pool n signals : run unit).
Proof. revert signals. induction n as [|n IH]; intros signals; cbn [grow_pool]; aside. Qed.
Hint Resolve aside_grow_pool : within.

Lemma intact_choose_kernel h an sig p queue id :
  intact_prog h (choose_kernel_sections draw set_context handlers_by_default comgr_metadata an sig p queue id).
Proof.
  unfold choose_kernel_sections, alternative_for_sections, instrument_dispatch_sections, scan_for_sections,
    queue_agent, may_dispatch, allocate_kernargs, agent_kdb, checkout, write_kernargs. intact.
Qed.
Hint Resolve intact_choose_kernel : intact.

Lemma intact_packet_loop queue packets :
  intact_prog false (packet_loop_sections draw set_context handlers_by_default comgr_metadata queue packets).
Proof.
  induction packets as [|[p an] packets IH]; [apply intact_ret|]. apply intact_bind; [|by intros _].
  unfold do_packet_sections. case_match; [|intact]. apply intact_bind; [intact|]. intros id.
  apply intact_bind; [|intact]. apply sections_interceptor_lock; [by auto..|]. apply intact_bind.
  - apply sections_Act; [by auto..|]. apply keeps_aside. unfold take_signal. aside.
  - intros sig. apply intact_bind; [intact|]. intros [dispatch comms]. apply intact_act.
    unfold kernel_at, queue_agent. aside.
Qed.

(** **** Kernels *)

(** The verdict a thread carries from one section to the next is the filter's. *)
Definition verdict_right (p : position) : Prop :=
  match p with
  | AtStore _ executable excluded => excluded = any_excluded (isExcluded filt) (loaded_code_objects executable)
  | _ => True
  end.

Lemma registerRuntimeKernel_keeps name sym ko a size c :
  sizes_kept c (registerRuntimeKernel name sym ko a size c).
Proof.
  rewrite registerRuntimeKernel_unfold. destruct (lookup2 _ a name); [by intros ?|]. unfold sizes_kept. cbn. set_solver.
Qed.

Lemma keeps_thread_step rq p : keeps_intact (λ _, verdict_right p) (thread_step rq p : run _) (λ p' _, verdict_right p').
Proof.
  intros st Hv HI. pose proof HI as [Hf Hwf].
  destruct p as [|n|n e b|n|]; unfold thread_step, wp, gets, modify, mbind, M_bind, mret, M_ret; cbn.
  - destruct (kernel_objects_ st !! rq_object rq); cbn; split_and!; try done;
      first [by apply sizes_same|by repeat case_match].
  - destruct (query_executable (rq_object rq)) as [e|]; cbn; split_and!;
      try first [done|by apply sizes_same]. rewrite Hf. by destruct (_ !! e) as [[]|].
  - split_and!; [|by apply sizes_same|by destruct b]. split; [done|]. rewrite Hv. by apply set_excluded_wf.
  - split_and!; [|apply registerRuntimeKernel_keeps|done]. split; [done|]. by apply registerRuntimeKernel_wf.
  - by split_and!.
Qed.

Lemma intact_later n rq p : verdict_right p → intact_prog false (later_sections n rq p).
Proof.
  revert p. induction n as [|n IH]; intros p Hp; cbn [later_sections]; [apply intact_ret|].
  assert (intact_prog false (p ← locked CacheLock (thread_step rq p); later_sections n rq p)) as H;
    [|by destruct p; first [exact H|apply intact_ret]].
  apply (sections_bind _ _ _ _ (λ p' _, verdict_right p')).
  - apply sections_cache_lock; [by auto|]. apply sections_act; [by auto..|].
    intros st _ HI. by apply keeps_thread_step.
  - intros p' handle st Hh Hv. by apply IH.
Qed.

Lemma intact_hook symbol ko len name size agent : intact_prog false (hook_sections symbol ko len name size agent).
Proof.
  unfold hook_sections, addKernel_sections. destruct len, name; try apply intact_ret.
  apply intact_bind; [intact|]. intros s. apply intact_bind; [intact|]. intros a.
  apply (sections_bind _ _ _ _ (λ p' _, verdict_right p')).
  - apply sections_interceptor_lock; [by auto..|]. apply sections_act; [by auto..|].
    intros st _ HI. by apply keeps_thread_step.
  - intros p' handle st Hh Hv. by apply intact_later.
Qed.
Hint Resolve intact_hook : intact.

(** **** Files *)
Definition helpers_ok (loaded : list loaded_t) : Prop := Forall (λ l, helper_ok (ld_helper l)) loaded.

Lemma load_code_objects_ok agent files loaded :
  res_fold (load_code_object comgr_metadata agent) [] files = Ok loaded → helpers_ok loaded.
Proof. apply (res_fold_inv helpers_ok); [|constructor]. intros. by eapply load_code_object_ok. Qed.

Lemma rewrites_frame f :
  (∀ c, alternatives_ (f c) = alternatives_ c ∧ kernarg_sizes_ (f c) = kernarg_sizes_ c ∧
     runtime_kernel_objects_ (f c) = runtime_kernel_objects_ c ∧ lookup_map_ (f c) = lookup_map_ c ∧
     kernel_co_map_ (f c) = kernel_co_map_ c ∧ arg_map_ (f c) = arg_map_ c ∧
     excluded_executable_cache_ (f c) = excluded_executable_cache_ c) → rewrites f.
Proof.
  intros Hf c Hwf. destruct (Hf c) as (?&?&?&?&?&?&?). split; [by apply (cache_wf_frame _ c)|by apply sizes_same].
Qed.

Lemma intact_enter_symbol name agent flt l sym :
  helper_ok (ld_helper l) → intact_prog false (enter_symbol_sections name agent flt l sym).
Proof.
  intros Hl. unfold enter_symbol_sections. apply intact_bind; [intact|]. intros sn.
  apply intact_bind; [intact|]. intros acc. destruct (negb acc); [apply intact_ret|]. apply intact_bind.
  - unfold helper_getArgDescriptor. destruct (ld_helper l !! _) as [d|] eqn:Hd; [|apply intact_ret].
    apply intact_write. intros c [Ha Hr Hc Hargs He]. split; [|by apply sizes_same]. split; cbn; try done.
    intros * [(<-&<-&<-)|?%Hargs]%lookup2_insert2_Some; [by eapply Hl|done].
  - intros _. apply intact_write. intros c Hwf. split; [|by apply sizes_same].
    pose proof (set_lookup_map_wf _ _ agent (demangleName (c_str sn)) sym Hwf) as [Ha Hr Hc Hargs He]. split; cbn; try done.
    intros * [(<-&<-&<-)|?%Hc]%lookup2_insert2_Some; [by rewrite lookup2_insert2_eq|done].
Qed.
Hint Resolve intact_enter_symbol : intact.

Lemma intact_add_symbols name agent flt l syms :
  helper_ok (ld_helper l) → intact_prog false (add_symbols_sections name agent flt l syms).
Proof.
  intros Hl. induction syms as [|sym syms IH]; [apply intact_ret|]. apply intact_bind; [|by intros _].
  unfold add_symbol_sections. apply intact_bind; [intact|]. intros kind. case_match; [|apply intact_ret].
  apply intact_bind; [by apply intact_write, rewrites_frame|]. intact.
Qed.

Lemma intact_addFile name agent flt : intact_prog false (addFile_sections comgr_metadata name agent flt).
Proof.
  unfold addFile_sections. apply intact_bind; [intact|]. intros [|file files]; [apply intact_ret|].
  apply intact_answer. intros loaded Hl%load_code_objects_ok.
  induction Hl as [|l loaded Hl _ IH]; [apply intact_ret|]. cbn [add_executables_sections].
  apply intact_bind; [intact|]. intros _. apply intact_bind; [by apply intact_add_symbols|]. intros _.
  apply intact_bind; [by apply intact_write, rewrites_frame|]. by intros _.
Qed.
Hint Resolve intact_addFile : intact.

Lemma intact_add_code_object name gpus : intact_prog false (add_code_object_sections comgr_metadata name gpus).
Proof. induction gpus; cbn [add_code_object_sections]; intact. Qed.

(** *** The calls *)
Lemma handler_intact (q : call) : intact_handler (call_catches q).
Proof. destruct q; cbn; try done; intros st HI; (split; [exact HI|by intros ?]). Qed.

Lemma called_intact t st :
  called draw set_context handlers_by_default comgr_metadata t →
  safe (catches t) false (body t) done_free st.
Proof.
  intros [q ->]. cbn [catches body call_thread].
  assert (intact_prog false (call_body draw set_context handlers_by_default comgr_metadata q)) as H.
  { destruct q; cbn [call_body]; [apply intact_packet_loop| | |apply intact_hook| |].
    - apply intact_section. unfold signalCompleted. aside.
    - intact.
    - destruct name; [apply intact_ret|apply intact_add_code_object].
    - apply intact_act. unfold shutdown. aside. }
  eapply safe_mono; [apply H; [apply handler_intact|done]|]. by intros h [] st' _ [-> _].
Qed.
End sections.

Lemma running_sound x :
  running draw set_context handlers_by_default comgr_metadata dlopen dlsym x → sound (shared x).
Proof.
  intros (env&seed&pool&mgr&st0&_&Hst&Hrtc). apply start_sound in Hst.
  eapply (disciplined_steps _ _ (cache_discipline (library_filter_ st0))) in Hrtc as [[E Hwf] _ _ _].
  - unfold sound. by rewrite E.
  - intros t st Ht. by apply called_intact.
  - by apply disciplined_start.
Qed.

(** C24. Whatever files are loaded, kernels registered and dispatched, at every point
    of every interleaving, inside critical sections too, exceptions included: a
    kernel object the cache hands out as an alternative is not null and its argument
    size is recorded; a descriptor it hands out for a clone stays within its
    segment; and its verdict about the file of a kernel is that of the library
    filter. *)
Theorem reachable_cache_sound ts own st :
  running draw set_context handlers_by_default comgr_metadata dlopen dlsym (Config ts own st) →
  let c := kernel_cache_ st in
  (∀ sym name q ko c', findInstrumentedAlternative sym name q c = Ok (ko, c') → ko ≠ 0 →
     is_Some (kernarg_sizes_ c' !! ko)) ∧
  (∀ agent name desc c',
     getArgDescriptor comgr_metadata agent name true c = Ok (Some desc, c') →
     0 ≤ explicit_args_length desc ≤ kernarg_length desc ∧ kernarg_length desc < 2 ^ 64 ∧
     hidden_args_length desc = kernarg_length desc - explicit_args_length desc) ∧
  (∀ ko, (isKernelFromExcludedFile (isExcluded (library_filter_ st)) ko c).1 =
     match query_executable ko with
     | Some e => any_excluded (isExcluded (library_filter_ st)) (loaded_code_objects e)
     | None => false
     end).
Proof. intros Hr c. by apply cache_wf_sound, (running_sound _ Hr). Qed.
End sound.

Lemma reachable_cache_sound_witness :
  (isKernelFromExcludedFile (HL := example_loader)
    (isExcluded (library_filter_ ex5)) 1000 (kernel_cache_ ex5)).1 = false.
Proof.
  destruct ex5_reachable as [ts Hr].
  destruct (reachable_cache_sound (HL := example_loader) (FS := example_files)
    _ _ _ _ _ _ ts ∅ ex5 Hr) as (_ & _ & H).
  rewrite (H 1000). vm_compute. reflexivity.
Defined.
