(* ===== verification/Lifecycle.v ===== *)
(** * From load to exit

    The interceptor inside a process ([src/interceptor.cc], [inc/interceptor.h]):
    the table of HSA functions it hooks, the instance, the queues it intercepts and
    the end of the process, with the signal thread and the exit handlers running
    step by step beside the calls of the application and the cache watcher, which
    are anywhere between their critical sections.

    The instance itself, and what its calls do, is [Interceptor.v]. *)
From S2P Require Import Prelude StdString Names KernArgs CoCache Dispatch Comms LibraryFilter Interceptor Registration Sections Calls Bookkeeping PacketRewrite.

(** ** The table of HSA functions *)
Inductive hsa_fn := Runtime (address : Z) | HookQueueCreate | HookQueueDestroy | HookSymbolGetInfo.

Record HsaApiTable := HsaTable {
  core_queue_create_fn : hsa_fn;
  core_queue_destroy_fn : hsa_fn;
  core_symbol_get_info_fn : hsa_fn;
  ext_intercept_create_fn : hsa_fn;
  ext_intercept_register_fn : hsa_fn;
}.

(** The five global function pointers; null before the first [saveHsaApi]. *)
Abbreviation saved_fns := (option HsaApiTable).

Definition saveHsaApi (apiTable : HsaApiTable) : saved_fns := Some apiTable.

Definition hookApi (apiTable : HsaApiTable) : HsaApiTable :=
  HsaTable HookQueueCreate HookQueueDestroy HookSymbolGetInfo
    (ext_intercept_create_fn apiTable) (ext_intercept_register_fn apiTable).

Definition restoreHsaApi (saved : saved_fns) (apiTable : HsaApiTable) : res HsaApiTable :=
  match saved with
  | Some fns =>
      Ok (HsaTable (core_queue_create_fn fns) (core_queue_destroy_fn fns) (core_symbol_get_info_fn fns)
            (ext_intercept_create_fn fns) (ext_intercept_register_fn fns))
  | None => Err FUB
  end.

(** ** The destructor

    What an instance gives back when it is deleted: the signals of its pool, the
    memory managers, the plug-ins, the code objects and the file of its log. *)
Record leavings := Leavings {
  lv_signals : list Z;
  lv_managers : list pool_specs_t;
  lv_plugins : list Z;
  lv_executables : list Z;
  lv_log : option sink;
}.

(** The members, after the body of the destructor, the last one first. *)
Definition destroy_members {rng handler} (executable_destroy : Z → bool) (st : interceptor rng handler)
    : res leavings :=
  let managers := destroy_comms_mgr (comms_mgr_ st) in
  let plugins := destroy_handlerManager (plugins_ (comms_mgr_ st)) in
  let! executables := destroy_coCache executable_destroy (kernel_cache_ st) in
  Ok (Leavings (sig_pool_ st) managers plugins executables (destroy_logDuration (log_ st))).

(** ** The process *)

(** Where the thread that runs the exit handlers is: in [ensure_shutdown]'s wait,
    alone or as part of [ensure_cleanup], or in [cleanup]. *)
Inductive exiter := NotExiting | Waiting (wait_count : nat) (then_cleanup : bool) | Deleting.

Record process (rng handler : Type) := Process {
  singleton_ : option (interceptor rng handler);
  table_ : HsaApiTable;
  saved_ : saved_fns;
  (** [register_atexit_handler]'s flag *)
  registered_ : bool;
  (** queues whose packets go to [OnSubmitPackets] *)
  intercepted_ : gset Z;
  signal_runner_ : runner;
  exiter_ : exiter;
  (** instances deleted, as the destructor found them *)
  past_ : list (interceptor rng handler);
  (** what their destructors gave back *)
  destroyed_ : list leavings;
  (** packets passed on without an instance *)
  passed_ : list packet;
  (** threads inside calls of the instance, and who has its locks *)
  inflight_ : list (thread (rng := rng) (handler := handler));
  locks_ : gmap lock nat;
}.
Arguments Process {rng handler} _ _ _ _ _ _ _ _ _ _ _ _.
Arguments singleton_ {rng handler} _.
Arguments table_ {rng handler} _.
Arguments saved_ {rng handler} _.
Arguments registered_ {rng handler} _.
Arguments intercepted_ {rng handler} _.
Arguments signal_runner_ {rng handler} _.
Arguments exiter_ {rng handler} _.
Arguments past_ {rng handler} _.
Arguments destroyed_ {rng handler} _.
Arguments passed_ {rng handler} _.
Arguments inflight_ {rng handler} _.
Arguments locks_ {rng handler} _.

Section process.
Context {rng handler : Type} (draw : rng → Z * rng).
Context (set_context : bytes → handler → handler) (handlers_by_default : bytes → Z → list handler).
Context `{HL : HsaLoader} {node : Type} {CG : Comgr node} (comgr_metadata : bytes → option node).
Context `{FS : FileSystem} (dlopen : bytes → option Z) (dlsym : Z → option (bytes → Z → list handler)).
Abbreviation state := (interceptor rng handler).
Abbreviation config := (config (rng := rng) (handler := handler)).
Abbreviation thread := (thread (rng := rng) (handler := handler)).
Abbreviation proc := (process rng handler).
Implicit Types (st : state) (p : proc).

Definition with_instance st p : proc :=
  Process (Some st) (table_ p) (saved_ p) (registered_ p) (intercepted_ p) (signal_runner_ p) (exiter_ p)
    (past_ p) (destroyed_ p) (passed_ p) (inflight_ p) (locks_ p).
Definition with_exiter x p : proc :=
  Process (singleton_ p) (table_ p) (saved_ p) (registered_ p) (intercepted_ p) (signal_runner_ p) x
    (past_ p) (destroyed_ p) (passed_ p) (inflight_ p) (locks_ p).
Definition with_runner r p : proc :=
  Process (singleton_ p) (table_ p) (saved_ p) (registered_ p) (intercepted_ p) r (exiter_ p)
    (past_ p) (destroyed_ p) (passed_ p) (inflight_ p) (locks_ p).
Definition with_intercepted qs p : proc :=
  Process (singleton_ p) (table_ p) (saved_ p) (registered_ p) qs (signal_runner_ p) (exiter_ p)
    (past_ p) (destroyed_ p) (passed_ p) (inflight_ p) (locks_ p).
Definition with_registered b p : proc :=
  Process (singleton_ p) (table_ p) (saved_ p) b (intercepted_ p) (signal_runner_ p) (exiter_ p)
    (past_ p) (destroyed_ p) (passed_ p) (inflight_ p) (locks_ p).
Definition with_passed ps p : proc :=
  Process (singleton_ p) (table_ p) (saved_ p) (registered_ p) (intercepted_ p) (signal_runner_ p) (exiter_ p)
    (past_ p) (destroyed_ p) ps (inflight_ p) (locks_ p).

(** The instance and the threads inside it. *)
Definition inside st p : config := Config (inflight_ p) (locks_ p) st.
Definition with_inside (x : config) p : proc :=
  Process (Some (shared x)) (table_ p) (saved_ p) (registered_ p) (intercepted_ p) (signal_runner_ p) (exiter_ p)
    (past_ p) (destroyed_ p) (passed_ p) (threads x) (owners x).

(** ** Loading *)

(** What a new instance is built from. *)
Record loading := Loading {
  ld_env : environment;
  ld_seed : rng;
  ld_pool : Z;
  ld_mgr : comms_mgr handler;
}.

(** [getInstance]; [table]: the argument, unless it is null. *)
Definition getInstance (table : option loading) p : res proc :=
  match singleton_ p with
  | Some _ => Ok p
  | None =>
      match table with
      | None => Ok p
      | Some l =>
          match start comgr_metadata dlopen dlsym (ld_env l) (blank (ld_env l) (ld_seed l) (ld_pool l) (ld_mgr l)) with
          | (st, Ok _) =>
              Ok (Process (Some st) (hookApi (table_ p)) (saveHsaApi (table_ p)) (registered_ p)
                    (intercepted_ p) AtTest (exiter_ p) (past_ p) (destroyed_ p) (passed_ p) [] ∅)
          | (_, Err f) => Err f
          end
      end
  end.

Definition register_atexit_handler p : proc := if registered_ p then p else with_registered true p.

(** [rocp_hsa_table_callback]; [tables]: the array, unless it is null, with its
    first pointer. *)
Definition rocp_hsa_table_callback (is_hsa_table : bool) (lib_instance num_tables : Z)
    (tables : option (option loading)) p : res proc :=
  if negb is_hsa_table then Ok p
  else if negb (lib_instance =? 0) then Ok p
  else
    match tables with
    | Some table =>
        if num_tables <? 1 then Ok p
        else let! p := getInstance table p in Ok (register_atexit_handler p)
    | None => Ok p
    end.

(** The entry point of the older loading mechanism. *)
Definition OnLoad p : res proc := Err FAbort.
Definition OnUnload p : res proc := Ok p.

(** ** Hooks *)

(** [hsaInterceptor::hsa_queue_create]: [created] is what the original made, and
    [registered] whether the callback could be registered. *)
Definition hsa_queue_create (agent : Z) (created : option Z) (profiling registered : bool) p : res proc :=
  match saved_ p with
  | None => Err FUB
  | Some _ =>
      match created with
      | None => Ok p
      | Some queue =>
          match singleton_ p with
          | None => Err FUB
          | Some st =>
              match addQueue profiling queue agent st with
              | (st, Ok _) =>
                  let p := with_instance st p in
                  Ok (if registered : bool then with_intercepted ({[queue]} ∪ intercepted_ p) p else p)
              | (st, Err (FThrow _)) => Ok (with_instance st p)
              | (_, Err f) => Err f
              end
          end
      end
  end.

(** [hsa_queue_destroy] forwards; the queue stays in [queues_]. *)
Definition hsa_queue_destroy p : res proc :=
  match saved_ p with None => Err FUB | Some _ => Ok p end.

(** [hsa_executable_symbol_get_info]; for attributes other than the kernel object
    it forwards. *)
Definition hsa_executable_symbol_get_info (kernel_object_attribute : bool) (symbol kernelObject : Z)
    (name_length : option Z) (name : option bytes) (kernarg_size agent : option Z) p : res proc :=
  match saved_ p with
  | None => Err FUB
  | Some _ =>
      if kernel_object_attribute then
        match singleton_ p with
        | Some st =>
            match hook_kernel_object symbol kernelObject name_length name kernarg_size agent st with
            | (st, Ok _) | (st, Err (FThrow _)) => Ok (with_instance st p)
            | (_, Err f) => Err f
            end
        | None =>
            match name_length, name with
            | Some _, Some _ =>
                let! _ := check_status kernarg_size in
                let! _ := check_status agent in Err FUB
            | _, _ => Ok p
            end
        end
      else Ok p
  end.

(** Calls of the application through the table. *)
Definition call_queue_create (agent : Z) (created : option Z) (profiling registered : bool) p : res proc :=
  match core_queue_create_fn (table_ p) with
  | HookQueueCreate => hsa_queue_create agent created profiling registered p
  | _ => Ok p
  end.
Definition call_queue_destroy p : res proc :=
  match core_queue_destroy_fn (table_ p) with HookQueueDestroy => hsa_queue_destroy p | _ => Ok p end.
Definition call_symbol_get_info attribute symbol ko name_length name size agent p : res proc :=
  match core_symbol_get_info_fn (table_ p) with
  | HookSymbolGetInfo => hsa_executable_symbol_get_info attribute symbol ko name_length name size agent p
  | _ => Ok p
  end.

(** [OnSubmitPackets] *)
Definition OnSubmitPackets (queue : Z) (packets : list (packet * answers)) p : res proc :=
  match singleton_ p with
  | Some st =>
      match doPackets draw set_context handlers_by_default comgr_metadata queue packets st with
      | (st, Ok _) => Ok (with_instance st p)
      | (_, Err f) => Err f
      end
  | None => Ok (with_passed (passed_ p ++ packets.*1) p)
  end.

(** ** Exit *)

(** [ensure_shutdown], up to its wait; [ensure_cleanup] begins with it. *)
Definition begin_shutdown (then_cleanup : bool) p : proc :=
  match singleton_ p with
  | None => p
  | Some st => with_exiter (Waiting 0 then_cleanup) (with_instance (set_shutting_down true st) p)
  end.

(** One test of the loop in [ensure_shutdown], and what follows it. *)
Definition wait_once p : proc :=
  match exiter_ p, singleton_ p with
  | Waiting n then_cleanup, Some st =>
      if hasPendingSignals st && (n <? 1000)%nat then with_exiter (Waiting (S n) then_cleanup) p
      else with_exiter (if then_cleanup : bool then Deleting else NotExiting) p
  | _, _ => p
  end.

(** The calls of the cache watcher, whose thread the destructor joins, are those
    without a [catch]. *)
Definition of_watcher (t : thread) : bool :=
  match catches t with None => true | Some _ => false end.

(** The destructor: it waits for the instance's own threads ([None]: not yet) and takes
    the interceptor's lock, but it does not wait for the calls of the application,
    which then use the deleted instance; [destroyable]: HSA takes the signals back, and
    [executable_destroy] the executables. *)
Definition destroy_instance (destroyable : bool) (executable_destroy : Z → bool) st p
    : option (res (HsaApiTable * leavings)) :=
  match signal_runner_ p with
  | Exited =>
      if forallb (λ t, negb (of_watcher t) || finished_thread t) (inflight_ p) &&
         bool_decide (locks_ p !! InterceptorLock = None) then
        Some (let! _ := assertb (destroyable || bool_decide (sig_pool_ st = [])) in
              let! table := restoreHsaApi (saved_ p) (table_ p) in
              if forallb finished_thread (inflight_ p) then
                let! left_behind := destroy_members executable_destroy st in
                Ok (table, left_behind)
              else Err FUB)
      else None
  | _ => None
  end.

(** [cleanup]: [delete singleton_], if there is one. *)
Definition cleanup (destroyable : bool) (executable_destroy : Z → bool) p : option (res proc) :=
  match exiter_ p with
  | Deleting =>
      match singleton_ p with
      | Some st =>
          match destroy_instance destroyable executable_destroy st p with
          | Some deleted =>
              Some (let! '(table, left_behind) := deleted in
                    Ok (Process None table (saved_ p) (registered_ p) (intercepted_ p) Exited NotExiting
                          (past_ p ++ [st]) (destroyed_ p ++ [left_behind]) (passed_ p) [] ∅))
          | None => None
          end
      | None => Some (Ok (with_exiter NotExiting p))
      end
  | _ => None
  end.
End process.

(** ** Steps of the process

    [hung]: the signals of kernels that never finish. *)
Section steps.
Context {rng handler : Type} (draw : rng → Z * rng).
Context (set_context : bytes → handler → handler) (handlers_by_default : bytes → Z → list handler).
Context `{HL : HsaLoader} {node : Type} {CG : Comgr node} (comgr_metadata : bytes → option node).
Context `{FS : FileSystem} (dlopen : bytes → option Z) (dlsym : Z → option (bytes → Z → list handler)).
Abbreviation state := (interceptor rng handler).
Abbreviation config := (config (rng := rng) (handler := handler)).
Abbreviation thread := (thread (rng := rng) (handler := handler)).
Abbreviation proc := (process rng handler).
Abbreviation run := (M rng handler).
Implicit Types (st : state) (p : proc).
Abbreviation one_packet := (do_packet draw set_context handlers_by_default comgr_metadata).

Abbreviation call_thread := (call_thread draw set_context handlers_by_default comgr_metadata).

(** The calls that the application and the cache watcher make while there is an
    instance; queues are made, kernels completed and the end announced below. *)
Definition comes_from p (c : call) : Prop :=
  match c with
  | SubmitPackets queue _ => queue ∈ intercepted_ p
  | KernelObjectQueried _ _ _ _ _ _ => core_symbol_get_info_fn (table_ p) = HookSymbolGetInfo
  | AddCodeObject _ _ => True
  | SignalCompleted _ _ _ | AddQueue _ _ _ | Shutdown => False
  end.

Inductive pstep (hung : gset Z) p : proc → Prop :=
| p_load is_hsa lib num tables p' :
    (∀ l, tables = Some (Some l) → NoDup (omap id (env_signals (ld_env l)))) →
    rocp_hsa_table_callback comgr_metadata dlopen dlsym is_hsa lib num tables p = Ok p' → pstep hung p p'
(** a call that holds no lock but the interceptor's, from where that is free *)
| p_queue_create agent created profiling registered p' :
    locks_ p !! InterceptorLock = None →
    call_queue_create agent created profiling registered p = Ok p' → pstep hung p p'
| p_queue_destroy p' : call_queue_destroy p = Ok p' → pstep hung p p'
(** a call begins; a thread goes on *)
| p_call st c :
    singleton_ p = Some st → comes_from p c →
    pstep hung p (with_inside (Config (inflight_ p ++ [call_thread c]) (locks_ p) st) p)
| p_go_on st x :
    singleton_ p = Some st → goes_on (inside st p) x → pstep hung p (with_inside x p)
| p_passed queue pk :
    singleton_ p = None → queue ∈ intercepted_ p → pstep hung p (with_passed (passed_ p ++ [pk]) p)
| p_memory st m : singleton_ p = Some st → pstep hung p (with_instance (set_memory m st) p)
| p_signal_runner st value times st' r' :
    singleton_ p = Some st → (∀ s, s ∈ hung → value s ≠ 0) → locks_ p !! InterceptorLock = None →
    signal_runner value times (signal_runner_ p) st = (st', Ok r') →
    pstep hung p (with_runner r' (with_instance st' p))
| p_exit then_cleanup : exiter_ p = NotExiting → pstep hung p (begin_shutdown then_cleanup p)
| p_wait n then_cleanup : exiter_ p = Waiting n then_cleanup → pstep hung p (wait_once p)
| p_cleanup destroyable executable_destroy p' :
    cleanup destroyable executable_destroy p = Some (Ok p') → pstep hung p p'.

(** A process in which the tool was not loaded yet. *)
Definition unloaded (runtime : HsaApiTable) : proc :=
  Process None runtime None false ∅ Exited NotExiting [] [] [] [] ∅.
Definition preachable (hung : gset Z) (runtime : HsaApiTable) p : Prop :=
  rtc (pstep hung) (unloaded runtime) p.

Abbreviation reachable := (reachable draw set_context handlers_by_default comgr_metadata dlopen dlsym).
Abbreviation running := (running draw set_context handlers_by_default comgr_metadata dlopen dlsym).
Abbreviation called := (called draw set_context handlers_by_default comgr_metadata).
Abbreviation calls_step := (calls_step draw set_context handlers_by_default comgr_metadata).

(** *** What the calls of an instance never take back *)
Definition grows st st' : Prop :=
  dom (queues_ st) ⊆ dom (queues_ st') ∧ dom (pending_signals_ st) ⊆ dom (pending_signals_ st') ∧
  (shutting_down_ st = true → shutting_down_ st' = true).
#[local] Instance grows_preorder : PreOrder grows.
Proof.
  split; [by intros st; split_and!|]. intros st1 st2 st3 (?&?&?) (?&?&?). split_and!; [by etrans|by etrans|auto].
Qed.

Ltac grow := within; try (split_and!; cbn; rewrite ?dom_insert_L; set_solver).

Lemma grows_addQueue profiling queue agent : within grows (addQueue profiling queue agent : run unit).
Proof. unfold addQueue. grow. Qed.

Lemma grows_primitive : primitive grows.
Proof.
  split; try (intros; by split_and!).
  - intros rq. unfold thread_step. grow.
  - intros ko. unfold kernel_at. grow.
  - intros st sig ki. split_and!; cbn; rewrite ?dom_insert_L; set_solver.
Qed.

Lemma comes_grows p c : comes_from p c → thread_acts grows (call_thread c).
Proof. intros Hc. apply call_acts; [apply _|apply grows_primitive|by destruct c]. Qed.

(** [signalCompleted] takes one signal off the pending ones. *)
Definition keeps st st' : Prop :=
  dom (queues_ st) ⊆ dom (queues_ st') ∧ (shutting_down_ st = true → shutting_down_ st' = true).
#[local] Instance keeps_preorder : PreOrder keeps.
Proof. split; [by intros st; split|]. intros st1 st2 st3 (?&?) (?&?). split; [by etrans|auto]. Qed.

Lemma grows_keeps st st' : grows st st' → keeps st st'.
Proof. by intros (?&?&?). Qed.

Definition still_pending (s : Z) st st' : Prop :=
  s ∈ dom (pending_signals_ st) → s ∈ dom (pending_signals_ st').
#[local] Instance still_pending_preorder s : PreOrder (still_pending s).
Proof. unfold still_pending. split; [intros ?; auto|intros ???; auto]. Qed.

Lemma completed_keeps sig b e : within keeps (signalCompleted sig b e : M rng handler unit).
Proof. unfold signalCompleted. within. Qed.
Lemma completed_others s sig b e :
  s ≠ sig → within (still_pending s) (signalCompleted sig b e : M rng handler unit).
Proof.
  intros Hne. unfold signalCompleted. within; unfold still_pending; cbn; rewrite ?dom_delete_L; set_solver.
Qed.

(** A step of the signal thread: a completion, or nothing but its position. *)
Lemma signal_runner_cases value times r st st' r' :
  signal_runner value times r st = (st', Ok r') →
  (∃ s l, r = InPass (s :: l) ∧ r' = InPass l ∧ value s = 0 ∧
     signalCompleted s (times s).1 (times s).2 st = (st', Ok ())) ∨
  (st' = st ∧ (r' = Exited → r = Exited ∨ shutting_down_ st = true) ∧
   (∀ l, r = InPass l → pending_signals_ st ≠ ∅ → ∃ l', r' = InPass l')).
Proof.
  unfold signal_runner. intros H. destruct r as [|[|s l]|]; calls H.
  - unfold shuttingdown in H. destruct (shutting_down_ st) eqn:Hd; calls H; right.
    { split_and!; [done|by right|done]. }
    split_and!; [done|by case_bool_decide|done].
  - right. split_and!; [done|cbn; by case_bool_decide|]. intros l _ Hp%pending_items. unfold getPendingSignals. cbn.
    rewrite bool_decide_true by done. by eexists.
  - destruct (Z.eqb_spec (value s) 0) as [Hv|]; calls Hcall; [left|right].
    + destruct a. by exists s, l.
    + split_and!; [done..|]. intros ? _ _. by exists l.
  - right. split_and!; [done|by left|done].
Qed.

Lemma addQueue_no_throw profiling queue agent st st' what :
  (addQueue profiling queue agent : M rng handler unit) st ≠ (st', Err (FThrow what)).
Proof. unfold addQueue, mbind, M_bind, lift, modify. by destruct profiling. Qed.

(** *** What the destructor gives back *)
Record left_by st (l : leavings) : Prop := {
  lb_signals : lv_signals l = sig_pool_ st;
  lb_managers : lv_managers l = (map_items (mem_mgrs_ (comms_mgr_ st))).*2;
  lb_plugins : lv_plugins l = (map_items (plugins_ (comms_mgr_ st))).*1;
  lb_executables : lv_executables l = (map_items (cache_objects_ (kernel_cache_ st))).*2.*1;
  lb_log : lv_log l = if decide (log_location_ (log_ st) = lit "console") then None else Some (log_file_ (log_ st));
}.

Lemma destroy_coCache_all executable_destroy c executables :
  destroy_coCache executable_destroy c = Ok executables → executables = (map_items (cache_objects_ c)).*2.*1.
Proof. unfold destroy_coCache. intros H. by apply res_fold_checked in H as [-> _]. Qed.

Lemma destroy_members_left executable_destroy st l :
  destroy_members executable_destroy st = Ok l → left_by st l.
Proof. intros (?&?%destroy_coCache_all&[= <-])%res_bind_Ok. by split. Qed.

(** *** The invariant of the process *)
Definition live (P : state → Prop) p : Prop := match singleton_ p with Some st => P st | None => True end.

Record process_ok (runtime : HsaApiTable) p : Prop := {
  po_instance : live (λ st, disciplined application bookkeeping (inside st p) ∧ well_ordered (inside st p)) p;
  po_threads : Forall (thread_acts grows) (inflight_ p);
  po_table : match singleton_ p with
             | Some _ => table_ p = hookApi runtime ∧ saved_ p = saveHsaApi runtime
             | None => table_ p = runtime
             end;
  po_past : Forall (λ st, accounted st ∧ shutting_down_ st = true) (past_ p);
  po_destroyed : Forall2 left_by (past_ p) (destroyed_ p);
  po_queues q : q ∈ intercepted_ p → ∃ st, (st ∈ past_ p ∨ singleton_ p = Some st) ∧ q ∈ dom (queues_ st);
  po_down : signal_runner_ p = Exited ∨ exiter_ p ≠ NotExiting → live (λ st, shutting_down_ st = true) p;
  po_exiter : exiter_ p ≠ NotExiting → is_Some (singleton_ p);
  po_count n c : exiter_ p = Waiting n c → (n ≤ 1000)%nat;
}.

(** The threads inside the instance move, or others do something that they may. *)
Lemma ok_inside runtime p st x :
  singleton_ p = Some st → disciplined application bookkeeping x → well_ordered x →
  Forall (thread_acts grows) (threads x) → keeps st (shared x) →
  process_ok runtime p → process_ok runtime (with_inside x p).
Proof.
  intros Hs Hd Ho Ht [Hq Hdown] []. unfold live in *. rewrite Hs in *. destruct x as [ts own st'].
  split; unfold live; cbn in *; try done.
  - intros q Hin. destruct (po_queues0 q Hin) as (st0&[Hp|[= <-]]&Hdom); [exists st0; split; [by left|done]|].
    exists st'. split; [by right|set_solver].
  - auto.
Qed.

Lemma ok_instance_of runtime p st :
  singleton_ p = Some st → process_ok runtime p →
  disciplined application bookkeeping (inside st p) ∧ well_ordered (inside st p).
Proof. intros Hs []. unfold live in *. by rewrite Hs in *. Qed.

Lemma with_inside_instance st p : with_inside (inside st p) p = with_instance st p.
Proof. done. Qed.

(** Something that the books do not see, at any time. *)
Lemma ok_unseen runtime p st st' :
  singleton_ p = Some st → unseen st st' → keeps st st' →
  process_ok runtime p → process_ok runtime (with_instance st' p).
Proof.
  intros Hs Hu Hk Hok. destruct (ok_instance_of _ _ _ Hs Hok) as [Hd [Ho Ht]].
  rewrite <-with_inside_instance. apply (ok_inside runtime p st); [done| |by split|apply Hok|done|done].
  destruct Hd as [_ HJ Hown Hsafe]. split; [done| |done|].
  - intros Hf. cbn in *. by eapply accounted_unseen; [apply HJ|].
  - intros i t Hi. eapply safe_rely; [by apply Hsafe|]. by apply near_rely.
Qed.

(** A call that needs no lock but the interceptor's, from where that is free. *)
Lemma ok_at_once runtime p st st' :
  singleton_ p = Some st → locks_ p !! InterceptorLock = None →
  (accounted st → accounted st') → keeps st st' →
  process_ok runtime p → process_ok runtime (with_instance st' p).
Proof.
  intros Hs Hfree Hacc Hk Hok. destruct (ok_instance_of _ _ _ Hs Hok) as [Hd [Ho Ht]].
  rewrite <-with_inside_instance. apply (ok_inside runtime p st); [done| |by split|apply Hok|done|done].
  destruct Hd as [_ HJ Hown Hsafe]. split; [done| |done|].
  - intros _. by apply Hacc, HJ.
  - intros i t Hi. eapply safe_rely; [by apply Hsafe|]. unfold holds. cbn in *.
    by rewrite bool_decide_false by congruence.
Qed.

Lemma ok_runner runtime p r' :
  (r' = Exited → live (λ st, shutting_down_ st = true) p) →
  process_ok runtime p → process_ok runtime (with_runner r' p).
Proof. intros Hr []. split; try done. cbn. intros [?|?]; [by apply Hr|by apply po_down0; right]. Qed.

Lemma ok_load runtime is_hsa lib num tables p p' :
  (∀ l, tables = Some (Some l) → NoDup (omap id (env_signals (ld_env l)))) →
  rocp_hsa_table_callback comgr_metadata dlopen dlsym is_hsa lib num tables p = Ok p' →
  process_ok runtime p → process_ok runtime p'.
Proof.
  intros Hnd Hload Hok. unfold rocp_hsa_table_callback in Hload.
  destruct (negb is_hsa); [by simplify_eq|]. destruct (negb (lib =? 0)); [by simplify_eq|].
  destruct tables as [table|]; [|by simplify_eq]. destruct (num <? 1); [by simplify_eq|].
  apply res_bind_Ok in Hload as (p1&Hget&[= <-]).
  cut (process_ok runtime p1).
  { unfold register_atexit_handler. destruct (registered_ p1); [done|]. by intros []; split. }
  unfold getInstance in Hget. destruct (singleton_ p) as [st|] eqn:Hs; [by simplify_eq|].
  destruct table as [l|]; [|by simplify_eq].
  destruct (start _ _ _ _ _) as [st [[]|]] eqn:Hst; [|done]. simplify_eq.
  destruct Hok. unfold live in *. rewrite Hs in *. split; unfold live; cbn; try done.
  - split; [|apply well_ordered_start]. apply disciplined_start; [done|].
    eapply start_accounted; [by apply Hnd|exact Hst].
  - by rewrite po_table0.
  - intros q Hq. destruct (po_queues0 q Hq) as (st0&[Hp|[=]]&Hdom). exists st0. split; [by left|done].
  - intros [?|He]; [done|]. by destruct (po_exiter0 He).
Qed.

Lemma accounted_ok {A} (m : run A) st st' a :
  (∀ (dropped : Prop) sigs kas cms own, own ⊆ list_to_set sigs →
     books (dropped := dropped) sigs kas cms own st →
     wp m (λ _, books (dropped := dropped) sigs kas cms own) (spilled (dropped := dropped)) st) →
  m st = (st', Ok a) → accounted st → accounted st'.
Proof.
  intros Hwp Hm [Hb|(sigs&kas&cms&own&Hb&Hown)].
  - left. specialize (Hwp _ [] [] [] ∅ (empty_subseteq _) Hb). unfold wp in Hwp. by rewrite Hm in Hwp.
  - right. specialize (Hwp _ _ _ _ _ Hown Hb). unfold wp in Hwp. rewrite Hm in Hwp. by eapply books_spilled.
Qed.

Lemma ok_queue_create runtime agent created profiling registered p p' :
  locks_ p !! InterceptorLock = None →
  call_queue_create agent created profiling registered p = Ok p' →
  process_ok runtime p → process_ok runtime p'.
Proof.
  unfold call_queue_create, hsa_queue_create. intros Hfree H Hok.
  destruct (core_queue_create_fn (table_ p)); try by simplify_eq.
  destruct (saved_ p); [|done]. destruct created as [queue|]; [|by simplify_eq].
  destruct (singleton_ p) as [st|] eqn:Hs; [|done].
  destruct (addQueue profiling queue agent st) as [st' [[]|[]]] eqn:Ha; try done;
    [|by apply addQueue_no_throw in Ha].
  assert (process_ok runtime (with_instance st' p)) as Hok'.
  { apply (ok_unseen runtime p st); [done| | |done].
    - unfold addQueue in Ha. calls Ha. apply lift_Ok in Hcall as [-> _]. split_and!; [done..|].
      exists []. by rewrite app_nil_r.
    - exact (grows_keeps _ _ (within_Ok _ _ _ _ _ (grows_addQueue profiling queue agent) Ha)). }
  injection H as <-. destruct registered; [|done].
  destruct Hok'. split; try done. cbn. intros q [->%elem_of_singleton|Hq]%elem_of_union; [|by apply po_queues0].
  exists st'. split; [by right|]. unfold addQueue in Ha. calls Ha. cbn. set_solver.
Qed.

Lemma ok_call runtime p st c :
  singleton_ p = Some st → comes_from p c →
  process_ok runtime p → process_ok runtime (with_inside (Config (inflight_ p ++ [call_thread c]) (locks_ p) st) p).
Proof.
  intros Hs Hc Hok. destruct (ok_instance_of _ _ _ Hs Hok) as [Hd Ho].
  assert (calls_step (inside st p) (Config (inflight_ p ++ [call_thread c]) (locks_ p) st)) as Hstep
    by (apply step_begin; by exists c).
  apply (ok_inside runtime p st); [done| | | |done|done].
  - eapply disciplined_step; [|done|exact Hstep]. intros t st1 Ht. exact (called_free _ _ _ _ dlopen dlsym t Ht st1).
  - eapply well_ordered_step; [|done|exact Hstep]. apply ordered_called.
  - apply list.Forall_app. split; [apply Hok|]. constructor; [by eapply comes_grows|done].
Qed.

Lemma ok_go_on runtime p st x :
  singleton_ p = Some st → goes_on (inside st p) x → process_ok runtime p → process_ok runtime (with_inside x p).
Proof.
  intros Hs Hstep Hok. destruct (ok_instance_of _ _ _ Hs Hok) as [Hd Ho].
  apply (config_acts _ _ grows) in Hstep as Hacts; [|apply _|done..|apply Hok]. destruct Hacts as [Hg Ht].
  apply (ok_inside runtime p st); [done| | |done|by apply grows_keeps in Hg|done].
  - assert (config_step (λ _, False) application (inside st p) x) as Hstep'.
    { destruct Hstep; [done|by eapply step_act|by eapply step_throw|by apply step_acquire|by apply step_release|done]. }
    by eapply disciplined_step; [|exact Hd|exact Hstep'].
  - by eapply well_ordered_step; [|exact Ho|exact Hstep].
Qed.

Lemma shutdown_unseen st : unseen st (set_shutting_down true st).
Proof. split_and!; [done..|]. exists []. by rewrite app_nil_r. Qed.

Lemma ok_exit runtime c p :
  exiter_ p = NotExiting → process_ok runtime p → process_ok runtime (begin_shutdown c p).
Proof.
  intros He Hok. unfold begin_shutdown. destruct (singleton_ p) as [st|] eqn:Hs; [|done].
  assert (process_ok runtime (with_instance (set_shutting_down true st) p)) as [].
  { apply (ok_unseen runtime p st); [done|by apply shutdown_unseen|by split|done]. }
  split; unfold live in *; cbn in *; try done.
  intros n c' [= <- <-]. lia.
Qed.

Lemma ok_wait runtime p : process_ok runtime p → process_ok runtime (wait_once p).
Proof.
  intros Hok. unfold wait_once. destruct (exiter_ p) as [|n c|] eqn:He; [done| |done].
  destruct (singleton_ p) as [st|] eqn:Hs; [|done].
  assert (exiter_ p ≠ NotExiting) as Hne by by rewrite He.
  destruct (hasPendingSignals st && (n <? 1000)%nat) eqn:Hc.
  - apply andb_true_iff in Hc as [_ Hn%Nat.ltb_lt]. destruct Hok. split; cbn; try done.
    + intros _. by apply po_down0; right.
    + intros n' c' [= <- <-]. lia.
  - destruct Hok. split; cbn; try done.
    + intros _. by apply po_down0; right.
    + by destruct c.
Qed.

Lemma ok_cleanup runtime destroyable executable_destroy p p' :
  cleanup destroyable executable_destroy p = Some (Ok p') → process_ok runtime p → process_ok runtime p'.
Proof.
  unfold cleanup. intros H Hok. destruct (exiter_ p) eqn:He; [done..|].
  assert (exiter_ p ≠ NotExiting) as Hne by by rewrite He.
  destruct (singleton_ p) as [st|] eqn:Hs.
  2: { by destruct (po_exiter _ _ Hok Hne) as [??]; simplify_eq. }
  unfold destroy_instance in H. destruct (signal_runner_ p) eqn:Hr; [done..|].
  destruct (_ && _) in H; [|done]. injection H as H. apply res_bind_Ok in H as ([table l]&H&[= <-]).
  apply res_bind_Ok in H as (?&_&(table'&Ht&H)%res_bind_Ok).
  destruct (forallb finished_thread (inflight_ p)) eqn:Hfin; [|done].
  apply res_bind_Ok in H as (l'&Hl%destroy_members_left&[= <- <-]).
  assert (accounted st) as Hacc.
  { destruct (ok_instance_of _ _ _ Hs Hok) as [[_ HJ _ _] Ho]. apply HJ. change (owners _) with (locks_ p).
    change (locks_ p) with (owners (inside st p)). rewrite all_finished_unlocked; [apply lookup_empty|done|].
    apply list.Forall_forall. intros t Ht'. rewrite forallb_forall in Hfin. apply Hfin. by apply list_elem_of_In. }
  destruct Hok. unfold live in *. rewrite Hs in *. destruct po_table0 as [Htab Hsav].
  rewrite Hsav in Ht. split; unfold live; cbn; try done.
  - cbn in Ht. injection Ht as <-. by destruct runtime.
  - apply Forall_app. split; [done|]. constructor; [|done]. split; [done|]. apply po_down0. by right.
  - apply Forall2_app; [done|]. by constructor.
  - intros q Hq. destruct (po_queues0 q Hq) as (st0&Hst0&Hdom). exists st0. split; [left|done].
    apply elem_of_app. destruct Hst0 as [?|[= <-]]; [by left|right; by left].
Qed.

Lemma ok_signal_runner runtime p st value times st' r' :
  singleton_ p = Some st → locks_ p !! InterceptorLock = None →
  signal_runner value times (signal_runner_ p) st = (st', Ok r') →
  process_ok runtime p → process_ok runtime (with_runner r' (with_instance st' p)).
Proof.
  intros Hs Hfree [(s&l&_&->&_&Hc)|(->&Hex&_)]%signal_runner_cases Hok.
  - apply ok_runner; [done|]. apply (ok_at_once runtime p st); [done|done| | |done].
    + apply (accounted_ok (signalCompleted s (times s).1 (times s).2) st st' ()); [|done].
      intros dropped sigs kas cms own Hown Hb. by apply wp_signalCompleted.
    + exact (within_Ok _ _ _ _ _ (completed_keeps s _ _) Hc).
  - apply ok_runner.
    + intros He. destruct (Hex He) as [Hr|Hd]; [|done]. unfold live. cbn.
      pose proof (po_down _ _ Hok (or_introl Hr)) as Hd. unfold live in Hd. by rewrite Hs in Hd.
    + by apply (ok_unseen runtime p st).
Qed.

Lemma ok_pstep hung runtime p p' : pstep hung p p' → process_ok runtime p → process_ok runtime p'.
Proof.
  destruct 1.
  - by eapply ok_load.
  - by eapply ok_queue_create.
  - unfold call_queue_destroy, hsa_queue_destroy in *. intros. repeat case_match; by simplify_eq.
  - by apply ok_call.
  - by eapply ok_go_on.
  - by intros []; split.
  - apply (ok_unseen runtime p st); [done| |by split]. apply application_unseen. by exists m.
  - by eapply ok_signal_runner.
  - by apply ok_exit.
  - by apply ok_wait.
  - by eapply ok_cleanup.
Qed.

Lemma ok_preachable hung runtime p : preachable hung runtime p → process_ok runtime p.
Proof.
  unfold preachable. assert (process_ok runtime (unloaded runtime)) as H0.
  { split; unfold live; cbn; try done; set_solver. }
  revert H0. generalize (unloaded runtime). intros p0 H0 Hr. induction Hr; [done|]. eauto using ok_pstep.
Qed.

(** *** A call that nobody interrupts is a run *)
Abbreviation call_run := (call_run draw set_context handlers_by_default comgr_metadata).
Abbreviation call_body := (call_body draw set_context handlers_by_default comgr_metadata).

Lemma go_on_psteps hung p x y : rtc goes_on x y → rtc (pstep hung) (with_inside x p) (with_inside y p).
Proof.
  induction 1 as [|[ts own st] x y Hstep _ IH]; [done|]. eapply rtc_l; [|exact IH].
  by apply (p_go_on hung (with_inside (Config ts own st) p) st x).
Qed.

Lemma call_psteps hung p st c st' :
  singleton_ p = Some st → comes_from p c → locks_ p = ∅ → promised (call_body c) st →
  call_run c st = (st', Ok ()) →
  rtc (pstep hung) p (with_inside (Config (inflight_ p ++ [Thread (Ret ()) (call_catches c)]) ∅ st') p).
Proof.
  intros Hs Hc Hl Hp Hrun. eapply rtc_l; [by apply p_call|]. rewrite Hl. apply go_on_psteps.
  assert (catching (call_catches c) (uncaught draw set_context handlers_by_default comgr_metadata c) st = (st', Ok ()))
    as Hcat.
  { eapply equiv_Ok; [symmetry; apply catching_uncaught|exact Hrun]. }
  assert (<[length (inflight_ p) := Thread (Ret ()) (call_catches c)]> (inflight_ p ++ [call_thread c]) =
    inflight_ p ++ [Thread (Ret ()) (call_catches c)]) as <-
    by (rewrite insert_app_r_alt, Nat.sub_diag by done; done).
  unfold catching in Hcat. destruct (uncaught _ _ _ _ c st) as [s1 r] eqn:Hu.
  pose proof (call_alone draw set_context handlers_by_default comgr_metadata (λ _, False) (λ _ _, False)
    (inflight_ p) c st s1 r Hp Hu) as Halone. destruct r as [[]|[]]; try done.
  - by injection Hcat as <-.
  - destruct (call_catches c) as [handle|]; [|done]. injection Hcat as <-. by apply Halone.
Qed.

Lemma passed_psteps hung queue pks p :
  queue ∈ intercepted_ p → singleton_ p = None →
  rtc (pstep hung) p (with_passed (passed_ p ++ pks) p).
Proof.
  revert p. induction pks as [|pk pks IH]; intros p Hq Hs.
  { rewrite app_nil_r. by destruct p. }
  eapply rtc_l; [by eapply p_passed|].
  replace (with_passed (passed_ p ++ pk :: pks) p) with
    (with_passed (passed_ (with_passed (passed_ p ++ [pk]) p) ++ pks) (with_passed (passed_ p ++ [pk]) p)).
  - by apply IH.
  - unfold with_passed. cbn. by rewrite <-(assoc_L (++)).
Qed.

(** The thread of a call that has returned. *)
Definition returned (c : call) p : proc :=
  match singleton_ p with
  | Some st => with_inside (Config (inflight_ p ++ [Thread (Ret ()) (call_catches c)]) (locks_ p) st) p
  | None => p
  end.

(** What [OnSubmitPackets] does with a batch, and the symbol hook with a query, is a
    run of the process. *)
Lemma OnSubmitPackets_psteps hung queue packets p p' :
  queue ∈ intercepted_ p → locks_ p = ∅ →
  (∀ st, singleton_ p = Some st → promised (call_body (SubmitPackets queue packets)) st) →
  OnSubmitPackets draw set_context handlers_by_default comgr_metadata queue packets p = Ok p' →
  rtc (pstep hung) p (returned (SubmitPackets queue packets) p').
Proof.
  unfold OnSubmitPackets. intros Hq Hl Hf H. destruct (singleton_ p) as [st|] eqn:Hs.
  - destruct (doPackets _ _ _ _ _ _ _) as [st' [[]|]] eqn:Hd; [|done]. injection H as <-.
    unfold returned. cbn. rewrite Hl. by apply (call_psteps hung p st (SubmitPackets queue packets)); [|..|apply Hf|].
  - injection H as <-. unfold returned. cbn. rewrite Hs. by eapply passed_psteps.
Qed.

Lemma symbol_get_info_psteps hung symbol ko len name size agent p p' :
  locks_ p = ∅ → is_Some (singleton_ p) → core_symbol_get_info_fn (table_ p) = HookSymbolGetInfo →
  call_symbol_get_info true symbol ko len name size agent p = Ok p' →
  rtc (pstep hung) p (returned (KernelObjectQueried symbol ko len name size agent) p').
Proof.
  unfold call_symbol_get_info, hsa_executable_symbol_get_info. intros Hl [st Hs] Htab H. rewrite Htab, Hs in H.
  destruct (saved_ p); [|done].
  assert (∃ st', p' = with_instance st' p ∧
    call_run (KernelObjectQueried symbol ko len name size agent) st = (st', Ok ())) as (st'&->&Hrun).
  { cbn [Calls.call_run]. unfold catching.
    destruct (hook_kernel_object symbol ko len name size agent st) as [st' [[]|[]]]; try done;
      injection H as <-; by exists st'. }
  unfold returned. cbn. rewrite Hl.
  apply (call_psteps hung p st (KernelObjectQueried symbol ko len name size agent)); [done..| |done].
  by apply call_promised.
Qed.

(** *** Exit with a kernel that never finishes *)
Definition stuck (sig : Z) p : Prop :=
  ∃ st l, singleton_ p = Some st ∧ sig ∈ dom (pending_signals_ st) ∧ signal_runner_ p = InPass l.

Lemma stuck_instance sig p st st' :
  singleton_ p = Some st → still_pending sig st st' → stuck sig p → stuck sig (with_instance st' p).
Proof. intros Hs Hst (st0&l&H0&Hsig&Hr). simplify_eq. exists st', l. split_and!; [done|by apply Hst|done]. Qed.

Lemma grows_pending sig st st' : grows st st' → still_pending sig st st'.
Proof. intros (_&Hp&_) ?. by apply Hp. Qed.

Lemma stuck_signal_runner sig value times p st st' r' :
  value sig ≠ 0 → singleton_ p = Some st → signal_runner value times (signal_runner_ p) st = (st', Ok r') →
  stuck sig p → stuck sig (with_runner r' (with_instance st' p)).
Proof.
  intros Hv Hs Hrun (st0&l0&H0&Hsig&Hr). simplify_eq. rewrite Hr in Hrun.
  apply signal_runner_cases in Hrun as [(s&l&[= ->]&->&Hs0&Hc)|(->&_&Hin)].
  - exists st', l. split_and!; [done| |done]. assert (sig ≠ s) as Hne by (intros ->; done).
    by apply (within_Ok _ _ _ _ _ (completed_others sig s _ _ Hne) Hc).
  - destruct (Hin l0) as [l' ->]; [done| |by exists st, l'].
    intros He. rewrite He, dom_empty_L in Hsig. set_solver.
Qed.

Lemma stuck_pstep hung sig runtime p p' :
  sig ∈ hung → pstep hung p p' → process_ok runtime p → stuck sig p → stuck sig p' ∧ past_ p' = past_ p.
Proof.
  intros Hh [is_hsa lib num tables p1 _ H|agent created profiling registered p1 _ H|p1 H
    |st c Hs _|st x Hs H|queue pk Hs _|st m Hs|st value times st' r' Hs Hv _ H|c He|n c He|d e p1 H] Hok Hst;
    pose proof Hst as (st0&l0&Hs0&Hsig&Hr).
  - unfold rocp_hsa_table_callback, getInstance in H. rewrite Hs0 in H.
    cbn [res_bind] in H. unfold register_atexit_handler in H. repeat case_match; by simplify_eq.
  - unfold call_queue_create, hsa_queue_create in H. rewrite Hs0 in H.
    destruct (core_queue_create_fn (table_ p)); try by simplify_eq.
    destruct (saved_ p); [|done]. destruct created as [queue|]; [|by simplify_eq].
    pose proof (grows_addQueue profiling queue agent st0) as Hg%(grows_pending sig).
    pose proof (stuck_instance sig p st0 _ Hs0 Hg Hst) as Hst'.
    destruct (addQueue profiling queue agent st0) as [st' [[]|[]]]; cbn in Hst'; simplify_eq; [|done].
    by destruct registered.
  - unfold call_queue_destroy, hsa_queue_destroy in H. repeat case_match; by simplify_eq.
  - split; [|done]. exists st, l0. assert (st0 = st) as -> by congruence. done.
  - split; [|done]. assert (st0 = st) as -> by congruence.
    apply (config_acts _ _ grows) in H as [(_&Hp&_) _]; [|apply _|done..|apply Hok].
    exists (shared x), l0. split_and!; [done|by apply Hp|done].
  - by simplify_eq.
  - assert (st0 = st) as -> by congruence. split; [|done]. eapply stuck_instance; [done| |done]. by intros ?.
  - assert (st0 = st) as -> by congruence. split; [|done]. eapply stuck_signal_runner; [by apply Hv|done..].
  - unfold begin_shutdown. rewrite Hs0. split; [|done]. by exists (set_shutting_down true st0), l0.
  - unfold wait_once. rewrite He, Hs0. case_match; [done|]. by destruct c.
  - unfold cleanup, destroy_instance in H. rewrite Hs0, Hr in H. by destruct (exiter_ p).
Qed.

Lemma wait_iter n k c p st :
  exiter_ p = Waiting k c → singleton_ p = Some st → (1000 < k + n)%nat → (k ≤ 1000)%nat →
  exiter_ (Nat.iter n wait_once p) = if c then Deleting else NotExiting.
Proof.
  revert k p. induction n as [|n IH]; intros k p He Hs Hn Hk; [lia|].
  rewrite Nat.iter_succ_r. unfold wait_once at 2. rewrite He, Hs.
  destruct (hasPendingSignals st && (k <? 1000)%nat) eqn:Hc.
  - apply andb_true_iff in Hc as [_ Hlt%Nat.ltb_lt]. by apply (IH (S k)); [..|lia|lia].
  - clear. assert (∀ q : proc, exiter_ q = (if c then Deleting else NotExiting) →
      ∀ n, exiter_ (Nat.iter n wait_once q) = if c then Deleting else NotExiting) as Hstay.
    { intros q Hq m. induction m as [|m IHm]; [done|]. rewrite Nat.iter_succ. unfold wait_once at 1.
      rewrite IHm. by destruct c. }
    by apply Hstay.
Qed.

(** C12. From load to exit, in every order of calls, loads and exits.  While there is
    an instance the table holds its hooks, and what was saved restores the
    runtime's own functions; before, and after each cleanup, the table is the
    runtime's, and asking for a shutdown again changes nothing.  A queue whose
    packets come to the interceptor is in the table of queues of the instance, or
    of one that was deleted before.  The exit handler never waits more than a thousand times. *)
Theorem process_lifecycle hung runtime p :
  preachable hung runtime p →
  (∀ st, singleton_ p = Some st →
     table_ p = hookApi runtime ∧ restoreHsaApi (saved_ p) (table_ p) = Ok runtime) ∧
  (singleton_ p = None → table_ p = runtime ∧ ∀ c, begin_shutdown c p = p) ∧
  (∀ q, q ∈ intercepted_ p → ∃ st, (st ∈ past_ p ∨ singleton_ p = Some st) ∧ q ∈ dom (queues_ st)) ∧
  (∀ n c, exiter_ p = Waiting n c → (n ≤ 1000)%nat).
Proof.
  intros Hok%ok_preachable. destruct Hok. split_and!; [| |done|done].
  - intros st Hs. rewrite Hs in po_table0. destruct po_table0 as [Ht ->]. split; [done|]. by destruct runtime.
  - intros Hs. rewrite Hs in po_table0. split; [done|]. intros c. unfold begin_shutdown. by rewrite Hs.
Qed.

(** C11. What an instance leaves behind.  An instance is deleted only after a
    shutdown was requested; its destructor gives back to HSA exactly the signals
    of its pool, each of them created by the instance, none twice and none that is
    still in a dispatch; and when no dispatch was pending and no batch was
    dropped, these are all the signals the instance ever created.  Of the rest it
    gives back what its tables have at that time, and nothing else: the memory
    manager the map has for each agent, every plug-in, which is closed once, the
    executable the cache records for each agent, and the file of the log, unless
    that is the console. *)
Theorem exit_gives_back hung runtime p :
  preachable hung runtime p →
  Forall2 left_by (past_ p) (destroyed_ p) ∧ Forall (λ l, NoDup (lv_plugins l)) (destroyed_ p) ∧
  ∀ st, st ∈ past_ p →
    shutting_down_ st = true ∧ NoDup (sig_pool_ st) ∧ sig_pool_ st ⊆+ created (trace_ st) ∧
    (∀ s, s ∈ sig_pool_ st → s ∉ pending_keys st) ∧
    (pending_signals_ st = ∅ → BatchDropped ∉ trace_ st → sig_pool_ st ≡ₚ created (trace_ st)).
Proof.
  intros Hok%ok_preachable. destruct Hok. split_and!; [done| |].
  { clear -po_destroyed0. induction po_destroyed0 as [|st l sts ls Hl _ IH]; constructor; [|done].
    rewrite (lb_plugins _ _ Hl). apply NoDup_map_items. }
  intros st Hst. rewrite list.Forall_forall in po_past0. destruct (po_past0 st Hst) as [Hr Hdown].
  assert (∃ sigs kas cms own, books (dropped := False) sigs kas cms own st ∧
    (sigs = [] ∨ BatchDropped ∈ trace_ st)) as (sigs&kas&cms&own&[]&Hdr).
  { destruct Hr as [Hb|(sigs&kas&cms&own&Hb&_)]; [exists [], [], [], ∅; split; [done|by left]|].
    exists sigs, kas, cms, own. split; [by destruct Hb|right; by apply Hb]. }
  pose proof bk_distinct as Hnd. rewrite bk_signals in Hnd. apply list.NoDup_app in Hnd as (Hnd&Hdis&_).
  split_and!; [done|done| | |].
  - rewrite bk_signals. by apply submseteq_inserts_r.
  - intros s Hs Hp. apply (Hdis s Hs). apply elem_of_app. by left.
  - intros Hp Hnb. destruct Hdr as [->|]; [|done]. rewrite bk_signals. unfold pending_keys, pending_list.
    by rewrite Hp, map_to_list_empty, !app_nil_r.
Qed.

(** C34. Exit with a kernel that never finishes.  The exit handler's own wait ends
    after a thousand rounds; but once the signal thread is inside a pass while the
    kernel's signal is pending, it never leaves it again, whatever else the process
    does, so the destructor, which waits for the thread, never gets to delete the
    instance. *)
Theorem hung_kernel_blocks_exit hung runtime sig p p' st l n :
  preachable hung runtime p → sig ∈ hung → singleton_ p = Some st → sig ∈ dom (pending_signals_ st) → signal_runner_ p = InPass l →
  exiter_ p = Waiting n true → (n ≤ 1000)%nat →
  exiter_ (Nat.iter 1001 wait_once p) = Deleting ∧
  (rtc (pstep hung) p p' →
   past_ p' = past_ p ∧ signal_runner_ p' ≠ Exited ∧ is_Some (singleton_ p') ∧
   ∀ destroyable executable_destroy, cleanup destroyable executable_destroy p' = None).
Proof.
  intros Hpr%ok_preachable Hh Hs Hsig Hr He Hn. split.
  { rewrite (wait_iter 1001 n true p st); [done..|lia|lia]. }
  intros Hrtc. assert (stuck sig p) as Hst by by exists st, l.
  assert (stuck sig p' ∧ past_ p' = past_ p) as [(st'&l'&Hs'&_&Hr') Hpast].
  { clear -Hrtc Hst Hh Hpr. induction Hrtc as [|p0 p1 p2 Hstep _ IH]; [done|].
    destruct (stuck_pstep _ _ _ _ _ Hh Hstep Hpr Hst) as [Hst1 <-]. apply IH; [|done]. by eapply ok_pstep. }
  split_and!; [done|by rewrite Hr'|by rewrite Hs'|]. intros d e. unfold cleanup, destroy_instance. rewrite Hs', Hr'. by destruct (exiter_ p').
Qed.
End steps.

(** ** A run for the witnesses: loaded, one queue, exit *)
Abbreviation ex_process := (process Z handler_t).
Definition ex_runtime : HsaApiTable := HsaTable (Runtime 1) (Runtime 2) (Runtime 3) (Runtime 4) (Runtime 5).
Definition ex_loading : loading (rng := Z) (handler := handler_t) := Loading (example_env "true") 0 3 (CommsMgr ∅ ∅).

Definition or_else (r : res ex_process) (p : ex_process) : ex_process := match r with Ok q => q | Err _ => p end.
Definition succeeds (r : res ex_process) : bool := match r with Ok _ => true | Err _ => false end.
Lemma or_else_Ok r p : succeeds r = true → r = Ok (or_else r p).
Proof. by destruct r. Qed.

Lemma default_Some {A} (d : A) (o : option A) : bool_decide (is_Some o) = true → o = Some (default d o).
Proof. by intros [a ->]%bool_decide_eq_true. Qed.

Abbreviation ex_step := (pstep (HL := example_loader) (FS := example_files) (λ g : Z, (g, g)) (λ _ h, h)
  default_handlers example_metadata (λ _, None) (λ _, None) {[18]}).

Definition ex_load (p : ex_process) : res ex_process :=
  rocp_hsa_table_callback (HL := example_loader) (FS := example_files) example_metadata (λ _, None) (λ _, None)
    true 0 1 (Some (Some ex_loading)) p.
Definition ex_queue (p : ex_process) : res ex_process := call_queue_create 7 (Some 3) true true p.
Definition ex_cleanup (p : ex_process) : res ex_process := default (Err FUB) (cleanup true (λ _, true) p).

Definition pr0 : ex_process := unloaded ex_runtime.
Definition pr1 : ex_process := or_else (ex_load pr0) pr0.
Definition pr2 : ex_process := or_else (ex_queue pr1) pr1.
Definition pr3 : ex_process := wait_once (begin_shutdown true pr2).
Definition st3 : interceptor Z handler_t := default ex0 (singleton_ pr3).
Definition pr4 : ex_process := with_runner Exited (with_instance st3 pr3).
Definition pr5 : ex_process := or_else (ex_cleanup pr4) pr4.

Lemma pr1_loaded : ex_load pr0 = Ok pr1.
Proof. apply (or_else_Ok (ex_load pr0) pr0). vm_compute. reflexivity. Qed.
Lemma pr2_created : ex_queue pr1 = Ok pr2.
Proof. apply (or_else_Ok (ex_queue pr1) pr1). vm_compute. reflexivity. Qed.
Lemma pr3_instance : singleton_ pr3 = Some st3.
Proof. apply (default_Some ex0 (singleton_ pr3)). vm_compute. reflexivity. Qed.
Lemma pr4_cleanup : cleanup true (λ _, true) pr4 = Some (ex_cleanup pr4).
Proof. apply (default_Some (Err FUB) (cleanup true (λ _, true) pr4)). vm_compute. reflexivity. Qed.
Lemma pr5_clean : ex_cleanup pr4 = Ok pr5.
Proof. apply (or_else_Ok (ex_cleanup pr4) pr4). vm_compute. reflexivity. Qed.

Lemma pr3_test : signal_runner (λ _, 1) (λ _, (0, 0)) (signal_runner_ pr3) st3 = (st3, Ok Exited).
Proof.
  assert (signal_runner_ pr3 = AtTest) as -> by (vm_compute; reflexivity).
  assert (shutting_down_ st3 = true) as Hd by (vm_compute; reflexivity). generalize dependent st3.
  intros st Hd. unfold signal_runner, gets, mbind, M_bind, mret, M_ret, shuttingdown. by rewrite Hd.
Qed.

Lemma pr2_reachable : rtc ex_step pr0 pr2.
Proof.
  apply (rtc_l _ _ pr1); [|apply (rtc_l _ _ pr2); [|apply rtc_refl]].
  - refine (p_load _ _ _ _ _ _ _ _ true 0 1 (Some (Some ex_loading)) pr1 _ pr1_loaded).
    intros l [= <-]. apply (bool_decide_unpack _). vm_compute. exact Logic.I.
  - refine (p_queue_create _ _ _ _ _ _ _ pr1 7 (Some 3) true true pr2 _ pr2_created). vm_compute. reflexivity.
Qed.

Lemma pr5_reachable : rtc ex_step pr0 pr5.
Proof.
  etrans; [apply pr2_reachable|].
  apply (rtc_l _ _ (begin_shutdown true pr2)); [apply p_exit; vm_compute; reflexivity|].
  apply (rtc_l _ _ pr3); [apply (p_wait _ _ _ _ _ _ _ _ 0 true); vm_compute; reflexivity|].
  apply (rtc_l _ _ pr4); [|apply (rtc_l _ _ pr5); [|apply rtc_refl]].
  - refine (p_signal_runner _ _ _ _ _ _ _ pr3 st3 (λ _, 1) (λ _, (0, 0)) st3 Exited pr3_instance _ _ pr3_test);
      [done|vm_compute; reflexivity].
  - apply (p_cleanup _ _ _ _ _ _ _ pr4 true (λ _, true)). rewrite pr4_cleanup, pr5_clean. reflexivity.
Qed.

Lemma in_nil_absurd {A} (l : list A) x (P : Prop) : l = [] → x ∈ l → P.
Proof. by intros -> ?%elem_of_nil. Qed.

Lemma process_lifecycle_witness :
  table_ pr5 = ex_runtime ∧ table_ pr2 = hookApi ex_runtime ∧ ∃ st, singleton_ pr2 = Some st ∧ 3 ∈ dom (queues_ st).
Proof.
  pose proof (process_lifecycle (HL := example_loader) (FS := example_files) _ _ _ _ _ _ _ _ pr5 pr5_reachable)
    as (_&H5&_).
  pose proof (process_lifecycle (HL := example_loader) (FS := example_files) _ _ _ _ _ _ _ _ pr2 pr2_reachable)
    as (H2&_&Hq&_).
  assert (singleton_ pr5 = None) as Hn by (vm_compute; reflexivity).
  destruct (Hq 3) as (st&[Hp|Hst]&Hin).
  { apply (bool_decide_unpack _). vm_compute. exact Logic.I. }
  { assert (past_ pr2 = []) as Hnil by (vm_compute; reflexivity). exact (in_nil_absurd _ _ _ Hnil Hp). }
  split; [exact (proj1 (H5 Hn))|]. split; [exact (proj1 (H2 st Hst))|]. exists st. split; [exact Hst|exact Hin].
Defined.

Lemma exit_gives_back_witness :
  destroyed_ pr5 ≫= lv_signals = [11; 12; 13; 14; 15; 16; 17; 18] ∧ destroyed_ pr5 ≫= lv_executables = [5] ∧
  Forall (λ st, NoDup (sig_pool_ st)) (past_ pr5).
Proof.
  pose proof (exit_gives_back (HL := example_loader) (FS := example_files) _ _ _ _ _ _ _ _ pr5 pr5_reachable)
    as (_&_&H).
  split; [vm_compute; reflexivity|]. split; [vm_compute; reflexivity|].
  apply list.Forall_forall. intros st Hst. exact (proj1 (proj2 (H st Hst))).
Defined.

(** *** A dispatch that never finishes *)
Definition ex_query : call := KernelObjectQueried 1 1000 (Some 3) (Some (lit "foo")) (Some 16) (Some 7).
Definition ex_batch : list (packet * answers) := [(example_packet, example_answers)].
Definition ex_symbol (p : ex_process) : res ex_process :=
  call_symbol_get_info (HL := example_loader) true 1 1000 (Some 3) (Some (lit "foo")) (Some 16) (Some 7) p.
Definition ex_submit (p : ex_process) : res ex_process :=
  OnSubmitPackets (HL := example_loader) (λ g, (g, g)) (λ _ h, h) default_handlers example_metadata 3 ex_batch p.
Definition ex_instance (p : ex_process) : interceptor Z handler_t := default ex0 (singleton_ p).

Definition hp1 : ex_process := returned ex_query (or_else (ex_symbol pr2) pr2).
Definition hp2 : ex_process := with_instance (set_memory {[4000 := replicate 16 1]} (ex_instance hp1)) hp1.
Definition hp3 : ex_process := returned (SubmitPackets 3 ex_batch) (or_else (ex_submit hp2) hp2).
Definition hp4 : ex_process := with_runner (InPass [18]) (with_instance (ex_instance hp3) hp3).
Definition ex_hung : ex_process := begin_shutdown true hp4.

Lemma hp1_symbol : ex_symbol pr2 = Ok (or_else (ex_symbol pr2) pr2).
Proof. apply or_else_Ok. vm_compute. reflexivity. Qed.
Lemma hp3_submitted : ex_submit hp2 = Ok (or_else (ex_submit hp2) hp2).
Proof. apply or_else_Ok. vm_compute. reflexivity. Qed.
Lemma instance_Some p : bool_decide (is_Some (singleton_ p)) = true → singleton_ p = Some (ex_instance p).
Proof. apply default_Some. Qed.
Lemma hp4_pass : signal_runner (λ _, 1) (λ _, (0, 0)) (signal_runner_ hp3) (ex_instance hp3) =
  (ex_instance hp3, Ok (InPass [18])).
Proof.
  assert (signal_runner_ hp3 = AtTest) as -> by (vm_compute; reflexivity).
  assert (shutting_down_ (ex_instance hp3) = false) as Hd by (vm_compute; reflexivity).
  assert (getPendingSignals (ex_instance hp3) [] = (true, [18])) as Hp by (vm_compute; reflexivity).
  generalize dependent (ex_instance hp3). intros st Hd Hp.
  unfold signal_runner, gets, mbind, M_bind, mret, M_ret, shuttingdown. by rewrite Hd, Hp.
Qed.

Lemma hp1_reached : rtc ex_step pr2 hp1.
Proof.
  unfold hp1. apply symbol_get_info_psteps; [vm_compute; reflexivity|..|exact hp1_symbol].
  - eexists. apply instance_Some. vm_compute. reflexivity.
  - vm_compute. reflexivity.
Qed.
Lemma hp3_reached : rtc ex_step hp2 hp3.
Proof.
  unfold hp3. apply OnSubmitPackets_psteps;
    [apply (bool_decide_unpack _); vm_compute; exact Logic.I|vm_compute; reflexivity| |exact hp3_submitted].
  intros st _. apply submission_promised. split; [constructor|]. apply list.Forall_nil_2.
Qed.

Lemma ex_hung_reachable : rtc ex_step pr0 ex_hung.
Proof.
  etrans; [apply pr2_reachable|]. etrans; [apply hp1_reached|].
  eapply rtc_l; [apply (p_memory _ _ _ _ _ _ _ hp1 (ex_instance hp1)), instance_Some; vm_compute; reflexivity|].
  etrans; [apply hp3_reached|].
  apply (rtc_l _ _ hp4); [|apply rtc_once, p_exit; vm_compute; reflexivity].
  refine (p_signal_runner _ _ _ _ _ _ _ hp3 (ex_instance hp3) (λ _, 1) (λ _, (0, 0)) _ (InPass [18]) _ _ _ hp4_pass).
  - apply instance_Some. vm_compute. reflexivity.
  - done.
  - vm_compute. reflexivity.
Qed.

Lemma hung_kernel_blocks_exit_witness :
  exiter_ (Nat.iter 1001 wait_once ex_hung) = Deleting ∧ cleanup true (λ _, true) ex_hung = None.
Proof.
  destruct (hung_kernel_blocks_exit (HL := example_loader) (FS := example_files) (λ g : Z, (g, g)) (λ _ h, h)
    default_handlers example_metadata (λ _, None) (λ _, None) {[18]} ex_runtime 18 ex_hung ex_hung
    (ex_instance ex_hung) [18] 0) as [Hw Hstay].
  - exact ex_hung_reachable.
  - apply (bool_decide_unpack _). vm_compute. exact Logic.I.
  - apply instance_Some. vm_compute. reflexivity.
  - apply (bool_decide_unpack _). vm_compute. exact Logic.I.
  - vm_compute. reflexivity.
  - vm_compute. reflexivity.
  - lia.
  - split; [exact Hw|]. apply Hstay. apply rtc_refl.
Defined.

(** *** Exit while the application is inside a call

    The destructor does not wait for the application's calls: a submission that
    began before the exit uses the instance after it was deleted. *)
Definition ex_began : thread (rng := Z) (handler := handler_t) :=
  call_thread (HL := example_loader) (λ g : Z, (g, g)) (λ _ h, h) default_handlers example_metadata
    (SubmitPackets 3 ex_batch).
Definition up1 : ex_process := with_inside (Config (inflight_ pr2 ++ [ex_began]) (locks_ pr2) (ex_instance pr2)) pr2.
Definition up2 : ex_process := wait_once (begin_shutdown true up1).
Definition up3 : ex_process := with_runner Exited (with_instance (ex_instance up2) up2).

Lemma up2_test : signal_runner (λ _, 1) (λ _, (0, 0)) (signal_runner_ up2) (ex_instance up2) =
  (ex_instance up2, Ok Exited).
Proof.
  assert (signal_runner_ up2 = AtTest) as -> by (vm_compute; reflexivity).
  assert (shutting_down_ (ex_instance up2) = true) as Hd by (vm_compute; reflexivity).
  generalize dependent (ex_instance up2). intros st Hd.
  unfold signal_runner, gets, mbind, M_bind, mret, M_ret, shuttingdown. by rewrite Hd.
Qed.

Lemma deleted_in_use : ∃ p, rtc ex_step pr0 p ∧ cleanup true (λ _, true) p = Some (Err FUB).
Proof.
  exists up3. split; [|vm_compute; reflexivity]. etrans; [apply pr2_reachable|].
  eapply rtc_l; [apply (p_call _ _ _ _ _ _ _ pr2 (ex_instance pr2) (SubmitPackets 3 ex_batch))|].
  { apply instance_Some. vm_compute. reflexivity. }
  { change (3 ∈ intercepted_ pr2). apply (bool_decide_unpack _). vm_compute. exact Logic.I. }
  apply (rtc_l _ _ (begin_shutdown true up1)); [apply p_exit; vm_compute; reflexivity|].
  apply (rtc_l _ _ up2); [apply (p_wait _ _ _ _ _ _ _ _ 0 true); vm_compute; reflexivity|].
  apply rtc_once.
  refine (p_signal_runner _ _ _ _ _ _ _ up2 (ex_instance up2) (λ _, 1) (λ _, (0, 0)) _ Exited _ _ _ up2_test).
  - apply instance_Some. vm_compute. reflexivity.
  - done.
  - vm_compute. reflexivity.
Qed.
